(* ===== verification/_CoqProject ===== *)
-Q . S2P
Prelude.v
Str.v
Terms.v
Space.v
Rdf.v
Dataset.v
Pdp.v
Patch.v
Store.v
Mem.v
Backing.v
Sparql.v
Grammar.v
Resource.v
Container.v
Ground.v
Auxiliary.v
Guard.v
Shapes.v
Texts.v
Sent.v
Injection.v
Notify.v
Http.v
HttpWrite.v
HttpRead.v
Reads.v
Toy.v
Steps.v
Answered.v
Edge.v
Ip.v
Fetch.v
Jose.v
Cache.v
Issuers.v
Token.v
Dpop.v
Login.v
Validators.v
Written.v
Listed.v
Created.v
Served.v
Gone.v
Posted.v
Budget.v
Op.v
Config.v
Start.v
Router.v
Service.v
