(* ===== verification/Prelude.v ===== *)
(** * Verification of quadpod, a Solid pod server

    quadpod keeps a person's linked data in an RDF store (SPARQL) and their
    other files in an object store, and serves both over HTTP under the Solid
    protocol: containers, auxiliary resources (ACLs, descriptions, shape
    constraints), N3 Patch, Web Access Control, Solid-OIDC authentication,
    change events, and an OpenID provider of its own.  This library translates
    the program's Rust, file by file, into executable definitions, and proves
    what makes each part correct and what their composition then guarantees
    of every request.

    ** How code becomes definitions

    A Rust function that neither waits nor mutates is a Rocq function of the
    same name.  An [async] function that reads or writes the pod is a
    computation [M W E A], that is [W → outcome E A * W]: [W] is the world (the
    stores, the bus, the caches, ...), an outcome is [Ok], [Err] or
    [Panicked], and the world after a failure is the world the failure left.
    [wp] is the weakest precondition of a computation, [keeps P] says that a
    property of worlds survives it however it ends; their rules ([wp_step],
    [wp_bind], the hint database [keeps]) drive most proofs.  An early
    [return] of a response is a thrown response that [returned] catches.

    A [str] is the [string] of its UTF-8 bytes.  A [HashMap] is a [gmap]; where
    the iteration order can matter it is a parameter.  Times are the integers
    of the source with its saturating arithmetic, sizes are [nat] or [N], and
    a fresh uuid comes from a supply that is an argument.

    Code outside the repository is a type class whose laws state what its
    documentation says: [IriSyntax] (IRI syntax), [HeaderText], [Hashing],
    [RdfLib] (oxrdfio), [ShaclEngine], [N3Lib], [UrlLib], [Network] (DNS, HTTP
    client), [Encodings], [Jose], [JwkLib], [DpopLib], [Process] (arguments,
    environment, files), [Axum], [TermDisplay] (oxrdf's rendering of a term),
    [Oxigraph], [ObjectStore], [BlockingPool] and the like.  What the handlers
    send their store are values ([update_op] and [Query], one constructor per
    form the sources build); [run_ops] and [answers] give them the meaning
    SPARQL 1.1 documents, and the text the sources write for each is read back
    to it ([Texts] to [Injection], below).  A [Backend] is any implementation
    of the store traits that satisfies [BackendLaws]: a call may fail before or
    after its effect, an update is atomic.  Every class has a concrete instance,
    on which its laws are proved and the witnesses run.

    ** The parts, the files and the sources

    The foundation.
    - [Prelude]: outcomes, the state and error monad, [wp] and [keeps], the
      generic lemmas and tactics.  [Str]: the operations of [str] in use.
    - [Terms]: RDF terms, triples and quads.
    - [Space] ([space.rs]): which path names what; a resource's auxiliaries,
      parent, ancestors and counterparts.
    - [Rdf] ([rdf.rs]): formats, RDF versions, [Accept].
    - [Dataset] ([dataset.rs], and the codec of [rdf.rs]): a client's datasets,
      the store's skolemized ones, the passage between the two.
    - [Pdp] ([wac/pdp.rs], [wac/mod.rs], [auth/agent.rs]): the access decision.
    - [Patch] ([patch.rs]): N3 Patch documents.

    The pod's state.
    - [Store] ([store.rs], [blob.rs], [shelf.rs]): the interfaces [Backend] and
      [BackendLaws].  [Mem]: the in-memory backend, with injected failures.
      [Backing]: the implementations that ship, [OxigraphStore] and
      [ObjectStoreBlobs], over the two libraries and Tokio's blocking pool.
    - [Resource] ([resource.rs]), [Container] ([container.rs]), [Auxiliary]
      ([aux.rs], with [pod_step], the relation of the updates a pod undergoes),
      [Ground] (what may be in the store: nothing with a blank node),
      [Guard] ([wac/prp.rs], [wac/guard.rs], [wac/provision.rs]), [Shapes]
      ([shapes.rs]), [Notify] ([notify.rs]).
    - [Texts] (the format strings of [resource.rs], [aux.rs], [container.rs],
      [wac/prp.rs] and [shapes.rs], and [sparql.rs]): the SPARQL of every
      update and query.  [Sparql] is the language's scanner and a parser of
      those forms, [Grammar] the relation a text is shown to be in, [Sent]
      reads each text, [Injection] collects them.

    The requests.
    - [Http], [HttpWrite], [HttpRead] ([http.rs]): what handlers share, the
      write handlers, the read handlers and the CORS layer.
    - [Router] ([http.rs]): the routes, the reserved space, the layers: the
      whole pod as one function from a request and a world to a response and
      a world.  [Service]: that function over any sequence of requests.
    - [Reads], [Toy], [Steps], [Answered], [Edge], [Validators], [Written], [Listed],
      [Created], [Served], [Gone], [Posted], [Budget]: the theorems about handlers.  [Reads] shows what reading keeps, [Steps] that requests which
      interleave with other writers move the pod by [pod_step] alone, [Answered]
      that no handler panics, [Edge] what a refused request leaves, [Validators] what tags and preconditions
      guard, [Written] that a [GET] serves what a [PUT] wrote, [Listed] that
      containers list what a [PUT] creates, [Created] that a
      [PUT] which may succeed does and [Served] that it can then be read, [Posted] what a [POST] creates, [Gone]
      that nothing is left of what a [DELETE] took, [Budget] what each method costs the
      stores.  [put_rule] and [wp_get_impl] of
      [Written] are the rules of the two methods that these share.  [Toy] is the concrete pod of the witnesses.

    The identities.
    - [Ip] and [Fetch] ([auth/safe_fetch.rs]): forbidden addresses and the
      outbound requests of the server.
    - [Jose]: what the rest of the part uses of other libraries.
    - [Cache] ([auth/cache.rs]), [Issuers] ([auth/http_jwks.rs],
      [auth/jwks.rs], [auth/webid_issuer.rs]), [Token]
      ([auth/access_token.rs]), [Dpop] ([auth/dpop.rs]), [Login]
      ([auth/authenticate.rs], [auth/config.rs], [auth/middleware.rs]): from
      two header fields to the agent a handler sees.
    - [Op] ([op/keys.rs], [op/mint.rs], [op/discovery.rs]): the pod's own
      signing keys, minted tokens, the discovery document.
    - [Config] ([config.rs], [main.rs]): the settings and what is made of them.
      [Start] ([main.rs]): [main] up to the socket, the provisioning of the
      root included.

    A request meets them in this order: [Router.respond] answers the reserved
    space itself or runs [Login]'s layer, classifies the path with
    [Space.resolve], and calls a handler; the handler asks [Guard.authorize]
    (which retrieves the nearest ACL and asks [Pdp.decide]), checks
    preconditions and shapes, materializes missing ancestors, calls
    [Resource] or [Auxiliary], which run updates on the backend, and
    announces the change on [Notify]'s bus.

    ** What the theorems show

    - Access: the decision is the one the nearest ACL document makes, by the
      clauses of Web Access Control; a request that changes the stores was
      authorized for the change, one that shows a resource for reading; a
      refused request changes and announces nothing.
    - State: the writes of resources and auxiliaries refine an abstract
      pod (what a resource holds, whether it exists); no auxiliary is left
      without its subject, no entry of the store names a blob that is missing
      while updates commit; ancestors are materialized with their containment;
      and these survive every interleaving of requests.  On a pod that is left
      alone during a request, a success of [PUT] or [POST] lists what it created,
      and what it had to create above it, without a container losing a member; a
      success of [DELETE] leaves nothing, of an empty container or a resource.
    - Liveness: every request that arrives is answered, by a response and not a
      panic, whatever fails and whoever else writes; and on stores that are up, an
      authorized and well-formed [PUT] of a new resource is [201], and whoever
      may read it is served what was sent.
    - Cost: each method stays within a number of calls that depends on the depth of the
      path alone, besides the graphs of a dataset; a [DELETE] is one update.
    - Data: a client reads what a client wrote, RDF up to the names of its blank
      nodes and what the negotiated format carries, other bodies byte by byte;
      reading back what skolemization wrote gives the dataset up to the renaming
      it makes; a graph IRI determines its resource; paths, auxiliaries and
      ancestors are decided as the documents say; projections to an RDF
      version are exact; a stored dataset's tag is the tag served.
    - Identity: a login that succeeds proves every check of Solid-OIDC; a
      proof of possession is accepted once; an issuer the operator does not
      trust costs no request; a forbidden address is reached only by an exception of
      the operator; a minted token verifies under the keys the pod publishes.
    - Text: every update and query, whatever a client wrote, reads under
      SPARQL's grammar as the operations it means and as nothing else; the
      backends that ship keep the contract of the traits.
    - Start: the file under the flags, each option heard, and what must refuse
      to start does; a pod that has started lets its owner at the root.
    - Where the code does not do what it says, the theorem states what it does:
      reserved IRIs inside triple terms, a walk that was interrupted, the tags of version 1.2-basic, a
      patch's variable that a literal is bound to in a predicate's place.

    ** Fuel

    One loop of the sources is not structural on its data: the walk to the
    ancestors of a path.  [Space.ancestors_loop] has the length of the path
    and one as fuel; each step shortens the path, and
    [Space.ancestors_loop_enough] proves that more fuel gives the same list.
    The parser of [Sparql] has the number of terminals and one as fuel: each
    element of a group takes at least one, and the lemmas of [Grammar] need no
    more.  The retries of [POST] are bounded in the source, and the splitters of
    [Str] recurse on the string.

    ** Not modelled

    The escaping of a literal and the evaluation of SPARQL, which are oxrdf's
    and Oxigraph's, and the object store: parameters with their documented
    behaviour.  The fixtures of [auth/testsupport.rs] and the tests; the binding of the socket, the shutdown signal,
    logging and tracing of [main.rs] and [http.rs]; the parsers of [clap] and
    [toml].  Interleaving is modelled at the granularity of calls of the
    backend: a call is one step, and other requests' updates come between.
    Delivery of events to a slow reader that the bounded channel overran is
    the channel library's. *)
From stdpp Require Export base tactics option list gmap strings pretty.

(** * Outcomes of Rust code

    A Rust function either returns [Ok], returns [Err], or panics (an
    [expect], an [unreachable!], an out of range slice).  The three are kept
    apart: [?] and [map_err] act on [Err] alone, and a panic goes through
    everything. *)
Inductive outcome (E A : Type) : Type :=
| Ok (a : A)
| Err (e : E)
| Panicked.
Arguments Ok {E A} a.
Arguments Err {E A} e.
Arguments Panicked {E A}.

Definition obind {E A B : Type} (m : outcome E A) (k : A → outcome E B) : outcome E B :=
  match m with
  | Ok a => k a
  | Err e => Err e
  | Panicked => Panicked
  end.

Definition omap_err {E F A : Type} (f : E → F) (m : outcome E A) : outcome F A :=
  match m with
  | Ok a => Ok a
  | Err e => Err (f e)
  | Panicked => Panicked
  end.

(** [opt.ok_or(e)]. *)
Definition ok_or {E A : Type} (e : E) (o : option A) : outcome E A :=
  match o with Some a => Ok a | None => Err e end.

(** * Stateful code

    An [async fn] that talks to the stores is a function of the world: the
    [await] points are the calls of the backend's operations.  The world after
    a failed or panicked call is part of the result, because the effects that
    were already committed stay. *)
Definition M (W E A : Type) : Type := W → outcome E A * W.

Definition ret {W E A : Type} (a : A) : M W E A := λ w, (Ok a, w).
Definition throw {W E A : Type} (e : E) : M W E A := λ w, (Err e, w).
Definition panic {W E A : Type} : M W E A := λ w, (Panicked, w).

Definition bind {W E A B : Type} (m : M W E A) (k : A → M W E B) : M W E B :=
  λ w, match m w with
       | (Ok a, w') => k a w'
       | (Err e, w') => (Err e, w')
       | (Panicked, w') => (Panicked, w')
       end.

(** [m.map_err(f)]. *)
Definition map_err {W E F A : Type} (f : E → F) (m : M W E A) : M W F A :=
  λ w, let (o, w') := m w in (omap_err f o, w').

(** [match m.await { Ok(a) => .., Err(e) => .. }]: the result as a value. *)
Definition attempt {W E F A : Type} (m : M W E A) : M W F (E + A) :=
  λ w, match m w with
       | (Ok a, w') => (Ok (inr a), w')
       | (Err e, w') => (Ok (inl e), w')
       | (Panicked, w') => (Panicked, w')
       end.

(** A pure fallible computation used inside stateful code. *)
Definition lift {W E A : Type} (o : outcome E A) : M W E A := λ w, (o, w).

(** The end of a handler whose early [return]s were thrown. *)
Definition returned {W E A : Type} (m : M W A A) : M W E A :=
  λ w, match m w with
       | (Ok a, w') => (Ok a, w')
       | (Err a, w') => (Ok a, w')
       | (Panicked, w') => (Panicked, w')
       end.

(** [for x in l { body(x) }]. *)
Fixpoint for_each {W E A : Type} (l : list A) (body : A → M W E unit) : M W E unit :=
  match l with
  | [] => ret tt
  | x :: l' => bind (body x) (λ _, for_each l' body)
  end.

Declare Scope pod_scope.
Delimit Scope pod_scope with pod.
Notation "'let!' x ':=' m 'in' k" := (bind m (λ x, k))
  (at level 10, x pattern, m at level 100, k at level 200,
   format "'let!'  x  ':='  m  'in' '//' k") : pod_scope.
Notation "'do!' m 'in' k" := (bind m (λ _, k))
  (at level 10, m at level 100, k at level 200,
   format "'do!'  m  'in' '//' k") : pod_scope.
Notation "'let?' x ':=' m 'in' k" := (obind m (λ x, k))
  (at level 10, x pattern, m at level 100, k at level 200,
   format "'let?'  x  ':='  m  'in' '//' k") : pod_scope.
Open Scope pod_scope.

(** The weakest precondition of a stateful computation for a condition on its
    outcome and its final world. *)
Definition wp {W E A : Type} (m : M W E A) (Φ : outcome E A → W → Prop) (w : W) : Prop :=
  Φ (m w).1 (m w).2.

(** * Automation *)
Create HintDb pod.
Create Rewrite HintDb pod.

(** Split every [match] of the goal or of a hypothesis whose scrutinee is not
    yet known. *)
Ltac case_scrut :=
  match goal with
  | |- context [match ?x with _ => _ end] => destruct x eqn:?
  | H : context [match ?x with _ => _ end] |- _ => destruct x eqn:?
  end.

(** Use the equations about [Some], [Ok], pairs, ... and close easy goals. *)
Ltac simp := repeat (progress simplify_eq/=); try done.

(** Step a weakest precondition through the structure of the program. *)
Ltac wp_step := first
  [ progress cbn [wp bind ret throw panic attempt map_err lift returned obind
                  omap_err fst snd]
  | case_scrut ].

(** Two different string constants are not equal. *)
Ltac pred_clash :=
  match goal with
  | E : @eq string _ _ |- _ => exfalso; clear -E; vm_compute in E; discriminate E
  end.

(** * Shared lemmas *)

Lemma wp_intro {W E A} (m : M W E A) Φ w o w' :
  m w = (o, w') → wp m Φ w → Φ o w'.
Proof. unfold wp. by intros ->. Qed.

Lemma wp_ret {W E A} (a : A) (Φ : outcome E A → W → Prop) w :
  Φ (Ok a) w → wp (ret a) Φ w.
Proof. done. Qed.

Lemma wp_throw {W E A} (e : E) (Φ : outcome E A → W → Prop) w :
  Φ (Err e) w → wp (throw e) Φ w.
Proof. done. Qed.

Lemma wp_bind {W E A B} (m : M W E A) (k : A → M W E B) Φ w :
  wp m (λ o w', match o with
                | Ok a => wp (k a) Φ w'
                | Err e => Φ (Err e) w'
                | Panicked => Φ Panicked w'
                end) w →
  wp (bind m k) Φ w.
Proof. unfold wp, bind. by destruct (m w) as [[] ?]. Qed.

Lemma wp_map_err {W E F A} (f : E → F) (m : M W E A) Φ w :
  wp m (λ o, Φ (omap_err f o)) w → wp (map_err f m) Φ w.
Proof. unfold wp, map_err. by destruct (m w). Qed.

Lemma wp_attempt {W E F A} (m : M W E A) (Φ : outcome F (E + A) → W → Prop) w :
  wp m (λ o, match o with
             | Ok a => Φ (Ok (inr a))
             | Err e => Φ (Ok (inl e))
             | Panicked => Φ Panicked
             end) w →
  wp (attempt m) Φ w.
Proof. unfold wp, attempt. by destruct (m w) as [[] ?]. Qed.

Lemma wp_returned {W E A} (m : M W A A) (Φ : outcome E A → W → Prop) w :
  wp m (λ o, match o with
             | Ok a | Err a => Φ (Ok a)
             | Panicked => Φ Panicked
             end) w →
  wp (returned m) Φ w.
Proof. unfold wp, returned. by destruct (m w) as [[] ?]. Qed.

Lemma wp_lift {W E A} (o : outcome E A) (Φ : outcome E A → W → Prop) w :
  Φ o w → wp (lift o) Φ w.
Proof. done. Qed.

Lemma wp_mono {W E A} (m : M W E A) (Φ Ψ : outcome E A → W → Prop) w :
  (∀ o w', Φ o w' → Ψ o w') → wp m Φ w → wp m Ψ w.
Proof. unfold wp. auto. Qed.

Lemma wp_wand {W E A} (m : M W E A) (Φ Ψ : outcome E A → W → Prop) w :
  wp m Φ w → (∀ o w', Φ o w' → Ψ o w') → wp m Ψ w.
Proof. unfold wp. auto. Qed.

Lemma wp_for_each {W E A} (I : W → Prop) (R : outcome E unit → W → Prop)
    (l : list A) (body : A → M W E unit) w :
  I w →
  (∀ x w, x ∈ l → I w →
     wp (body x) (λ o w', match o with Ok _ => I w' | _ => R o w' end) w) →
  (∀ w, I w → R (Ok tt) w) →
  wp (for_each l body) R w.
Proof.
  intros HI Hbody HR. revert w HI. induction l as [|x l IH]; intros w HI; simpl.
  - by apply wp_ret, HR.
  - apply wp_bind. eapply wp_wand; [apply Hbody; [by left | done]|].
    intros [[]|e|] w' Ho; [|done|done].
    apply IH; [|done]. intros y w0 Hy. apply Hbody. by right.
Qed.

(** ** What a computation keeps

    [keeps P m Q]: from a world in [P], whatever its outcome and its faults,
    [m] ends in a world in [P], and a value it returns satisfies [Q].  The
    structure of a program is followed rule by rule. *)
Section keeps.
Context {W : Type} (P : W → Prop).

Definition keeps {E A : Type} (m : M W E A) (Q : A → Prop) : Prop :=
  ∀ w, P w → P (m w).2 ∧ ∀ a, (m w).1 = Ok a → Q a.

Notation any := (λ _, True).

Lemma keeps_ret {E A} (a : A) Q : Q a → keeps (ret a : M W E A) Q.
Proof. intros HQ w Hw. split; [done|]. by intros ? [= <-]. Qed.

Lemma keeps_throw {E A} (e : E) (Q : A → Prop) : keeps (throw e) Q.
Proof. by intros w Hw. Qed.

Lemma keeps_panic {E A} (Q : A → Prop) : keeps (panic : M W E A) Q.
Proof. by intros w Hw. Qed.

Lemma keeps_lift {E A} (o : outcome E A) (Q : A → Prop) : (∀ a, o = Ok a → Q a) → keeps (lift o) Q.
Proof. by intros HQ w Hw. Qed.

Lemma keeps_bind {E A B} (m : M W E A) (k : A → M W E B) (S : A → Prop) Q :
  keeps m S → (∀ a, S a → keeps (k a) Q) → keeps (bind m k) Q.
Proof.
  intros Hm Hk w Hw. unfold bind. destruct (Hm w Hw) as [HP HS]. destruct (m w) as [[a|e|] w']; cbn in *; [|done..].
  by apply (Hk a (HS a eq_refl) w').
Qed.

Lemma keeps_map_err {E F A} (f : E → F) (m : M W E A) Q : keeps m Q → keeps (map_err f m) Q.
Proof.
  intros Hm w Hw. unfold map_err. destruct (Hm w Hw) as [HP HQ]. destruct (m w) as [[a|e|] w']; cbn in *; [|done..].
  split; [done|]. intros ? [= <-]. by apply HQ.
Qed.

Lemma keeps_attempt {E F A} (m : M W E A) (Q : A → Prop) :
  keeps m Q → keeps (attempt m : M W F (E + A)) (λ x, ∀ a, x = inr a → Q a).
Proof.
  intros Hm w Hw. unfold attempt. destruct (Hm w Hw) as [HP HQ]. destruct (m w) as [[a|e|] w']; cbn in *; [| |done].
  - split; [done|]. intros ? [= <-] ? [= <-]. by apply HQ.
  - split; [done|]. by intros ? [= <-].
Qed.

Lemma keeps_returned {E A} (m : M W A A) Q : keeps m Q → keeps (returned m : M W E A) any.
Proof. intros Hm w Hw. unfold returned. destruct (Hm w Hw) as [HP _]. by destruct (m w) as [[a|e|] w']. Qed.

Lemma keeps_for_each {E A} (l : list A) (body : A → M W E unit) :
  (∀ x, x ∈ l → keeps (body x) any) → keeps (for_each l body) any.
Proof.
  induction l as [|x l IH]; intros Hb; simpl; [by apply keeps_ret|].
  apply keeps_bind with any; [apply Hb; by left|]. intros _ _. apply IH. intros y Hy. apply Hb. by right.
Qed.

Lemma keeps_weaken {E A} (m : M W E A) (Q Q' : A → Prop) : (∀ a, Q a → Q' a) → keeps m Q → keeps m Q'.
Proof. intros HQ Hm w Hw. destruct (Hm w Hw) as [HP HR]. split; [done|]. intros a Ea. by apply HQ, HR. Qed.

Lemma keeps_lift_eq {E A} (o : outcome E A) : keeps (lift o) (λ a, o = Ok a).
Proof. by apply keeps_lift. Qed.

Lemma keeps_ret_any {E A} (a : A) : keeps (ret a : M W E A) any.
Proof. by apply keeps_ret. Qed.

Lemma keeps_lift_any {E A} (o : outcome E A) : keeps (lift o) any.
Proof. by apply keeps_lift. Qed.
End keeps.

Lemma keeps_iff {W E A} (P P' : W → Prop) (m : M W E A) Q : (∀ w, P w ↔ P' w) → keeps P m Q → keeps P' m Q.
Proof. intros Hpp Hm w Hw. destruct (Hm w) as [H1 H2]; [by apply Hpp|]. split; [by apply Hpp|done]. Qed.

Lemma ok_or_Ok {E A} (e : E) (o : option A) a : ok_or e o = Ok a ↔ o = Some a.
Proof. destruct o; simpl; naive_solver. Qed.

Lemma obind_Ok {E A B} (m : outcome E A) (k : A → outcome E B) b :
  obind m k = Ok b ↔ ∃ a, m = Ok a ∧ k a = Ok b.
Proof. destruct m; simpl; naive_solver. Qed.

(** One step along the structure of a program; what is left are its calls. *)
Ltac keeps_step :=
  lazymatch goal with
  | |- keeps _ (bind _ _) _ => eapply keeps_bind; [|intros ? ?]
  | |- keeps _ (map_err _ _) _ => apply keeps_map_err
  | |- keeps _ (attempt _) _ => apply keeps_attempt
  | |- keeps _ (returned _) _ => eapply keeps_returned
  | |- keeps _ (lift _) _ => first [apply keeps_lift_any | apply keeps_lift]
  | |- keeps _ (ret _) _ => first [apply keeps_ret_any | apply keeps_ret]
  | |- keeps _ (throw _) _ => apply keeps_throw
  | |- keeps _ panic _ => apply keeps_panic
  | |- keeps _ (let '(_, _) := ?x in _) _ => destruct x
  | |- keeps _ (match ?x with _ => _ end) _ => destruct x
  end.

(** ** Sorting

    [sort_by_key] is a stable sort; the model inserts each element, from the
    last, before the first that is not smaller. *)
Section sort.
Context {A : Type} (leb : A → A → bool).

Fixpoint insert_sorted (x : A) (l : list A) : list A :=
  match l with
  | [] => [x]
  | y :: l' => if leb x y then x :: l else y :: insert_sorted x l'
  end.

Definition sort_by (l : list A) : list A := foldr insert_sorted [] l.

Lemma insert_sorted_perm x l : insert_sorted x l ≡ₚ x :: l.
Proof.
  induction l as [|y l IH]; simpl; [done|]. destruct (leb x y); [done|].
  rewrite IH. by constructor.
Qed.

Lemma sort_by_perm l : sort_by l ≡ₚ l.
Proof. induction l as [|x l IH]; simpl; [done|]. by rewrite insert_sorted_perm, IH. Qed.

(** Sorting by an antisymmetric order forgets the order of its input. *)
Lemma sort_by_canonical l l' :
  (∀ x y, leb x y = true ∨ leb y x = true) →
  (∀ x y, leb x y = true → leb y x = true → x = y) →
  (∀ x y z, leb x y = true → leb y z = true → leb x z = true) →
  l ≡ₚ l' → sort_by l = sort_by l'.
Proof.
  intros Htot Hanti Htrans.
  assert (∀ x y k, insert_sorted x (insert_sorted y k) = insert_sorted y (insert_sorted x k)) as Hcomm.
  { intros x y k.
    assert (∀ a b, leb a b = false → leb b a = true) as Hf
      by (intros a b E; destruct (Htot a b) as [E'|E']; congruence).
    induction k as [|z k IH]; simpl.
    - destruct (leb x y) eqn:E1, (leb y x) eqn:E2; try done.
      + by rewrite (Hanti x y).
      + by apply Hf in E1; rewrite E1 in E2.
    - destruct (leb y z) eqn:Y, (leb x z) eqn:X; simpl; rewrite ?X, ?Y.
      + destruct (leb x y) eqn:E1, (leb y x) eqn:E2; try done.
        * by rewrite (Hanti x y).
        * by apply Hf in E1; rewrite E1 in E2.
      + destruct (leb x y) eqn:E1; [|done]. by rewrite (Htrans x y z E1 Y) in X.
      + destruct (leb y x) eqn:E1; [|done]. by rewrite (Htrans y x z E1 X) in Y.
      + by rewrite IH. }
  induction 1 as [|x l l' _ IH|x y l|l1 l2 l3 _ IH1 _ IH2]; simpl; [done| |apply Hcomm|].
  - by rewrite IH.
  - by rewrite IH1.
Qed.
End sort.
