(* ===== verification/Str.v ===== *)
(** Operations of Rust's [str] the sources use, on the bytes of a string.

    Paths, IRIs, media types and header values are [string]s, read as the UTF-8
    bytes Rust stores; every delimiter the code splits on is ASCII, so byte
    positions and character positions agree on it. *)
From S2P Require Import Prelude.
From Stdlib Require Export Ascii.


Open Scope string_scope.
Open Scope list_scope.

(** [s.strip_prefix(p)]. *)
Fixpoint strip_prefix (p s : string) : option string :=
  match p, s with
  | EmptyString, _ => Some s
  | String a p', String b s' => if Ascii.eqb a b then strip_prefix p' s' else None
  | String _ _, EmptyString => None
  end.

(** [s.strip_suffix(p)]. *)
Fixpoint strip_suffix (p s : string) : option string :=
  if String.eqb s p then Some ""
  else match s with
       | EmptyString => None
       | String a s' => match strip_suffix p s' with
                        | Some r => Some (String a r)
                        | None => None
                        end
       end.

Definition starts_with (p s : string) : bool := bool_decide (is_Some (strip_prefix p s)).
Definition ends_with (p s : string) : bool := bool_decide (is_Some (strip_suffix p s)).

(** [s.contains(c)]. *)
Fixpoint contains_char (c : ascii) (s : string) : bool :=
  match s with
  | EmptyString => false
  | String a s' => Ascii.eqb a c || contains_char c s'
  end.

(** [s.split(c)]: never empty. *)
Fixpoint split_char (c : ascii) (s : string) : list string :=
  match s with
  | EmptyString => [""]
  | String a s' =>
      if Ascii.eqb a c then "" :: split_char c s'
      else match split_char c s' with
           | h :: t => String a h :: t
           | [] => [String a ""]
           end
  end.

(** [l.join(c)]. *)
Fixpoint join_char (c : ascii) (l : list string) : string :=
  match l with
  | [] => ""
  | [x] => x
  | x :: l' => x +:+ String c (join_char c l')
  end.

(** [l.join(sep)] for a longer separator. *)
Fixpoint join_str (sep : string) (l : list string) : string :=
  match l with
  | [] => ""
  | [x] => x
  | x :: l' => x +:+ sep +:+ join_str sep l'
  end.

(** [s.split_once(c)]. *)
Fixpoint split_once (c : ascii) (s : string) : option (string * string) :=
  match s with
  | EmptyString => None
  | String a s' =>
      if Ascii.eqb a c then Some ("", s')
      else match split_once c s' with
           | Some (h, t) => Some (String a h, t)
           | None => None
           end
  end.

(** [s.rfind(c).map(|i| &s[..=i])]. *)
Fixpoint upto_last (c : ascii) (s : string) : option string :=
  match s with
  | EmptyString => None
  | String a s' =>
      match upto_last c s' with
      | Some r => Some (String a r)
      | None => if Ascii.eqb a c then Some (String a "") else None
      end
  end.

Fixpoint filter_chars (f : ascii → bool) (s : string) : string :=
  match s with
  | EmptyString => ""
  | String a s' => if f a then String a (filter_chars f s') else filter_chars f s'
  end.

Fixpoint all_chars (f : ascii → bool) (s : string) : bool :=
  match s with
  | EmptyString => true
  | String a s' => f a && all_chars f s'
  end.

Fixpoint map_chars (f : ascii → ascii) (s : string) : string :=
  match s with
  | EmptyString => ""
  | String a s' => String (f a) (map_chars f s')
  end.

(** [s.trim_start_matches(f)]. *)
Fixpoint trim_start (f : ascii → bool) (s : string) : string :=
  match s with
  | EmptyString => ""
  | String a s' => if f a then trim_start f s' else s
  end.

(** [s.trim_end_matches(f)]. *)
Fixpoint trim_end (f : ascii → bool) (s : string) : string :=
  match s with
  | EmptyString => ""
  | String a s' =>
      match trim_end f s' with
      | EmptyString => if f a then "" else String a ""
      | r => String a r
      end
  end.

Definition in_range (lo hi : nat) (a : ascii) : bool :=
  Nat.leb lo (nat_of_ascii a) && Nat.leb (nat_of_ascii a) hi.

Definition is_ascii_digit : ascii → bool := in_range 48 57.
Definition is_ascii_upper : ascii → bool := in_range 65 90.
Definition is_ascii_lower : ascii → bool := in_range 97 122.
Definition is_ascii_alphanumeric (a : ascii) : bool :=
  is_ascii_digit a || is_ascii_upper a || is_ascii_lower a.

(** The ASCII part of Rust's [char::is_whitespace]. *)
Definition is_whitespace (a : ascii) : bool :=
  in_range 9 13 a || Nat.eqb (nat_of_ascii a) 32.

(** [s.trim()] on ASCII text. *)
Definition trim (s : string) : string := trim_end is_whitespace (trim_start is_whitespace s).

Definition lower_char (a : ascii) : ascii :=
  if is_ascii_upper a then ascii_of_nat (nat_of_ascii a + 32) else a.

(** [s.to_ascii_lowercase()]. *)
Definition to_ascii_lowercase (s : string) : string := map_chars lower_char s.

(** [a.eq_ignore_ascii_case(b)]. *)
Definition eq_ignore_ascii_case (a b : string) : bool :=
  String.eqb (to_ascii_lowercase a) (to_ascii_lowercase b).

(** [s.split_whitespace()]. *)
Fixpoint split_whitespace_aux (acc s : string) : list string :=
  match s with
  | EmptyString => if String.eqb acc "" then [] else [acc]
  | String a s' =>
      if is_whitespace a
      then (if String.eqb acc "" then split_whitespace_aux "" s'
            else acc :: split_whitespace_aux "" s')
      else split_whitespace_aux (acc +:+ String a "") s'
  end.
Definition split_whitespace (s : string) : list string := split_whitespace_aux "" s.

(** The first [n] bytes, when there are that many and the cut does not fall
    inside a UTF-8 sequence: [s.get(..n)]. *)
Definition is_continuation (a : ascii) : bool := in_range 128 191 a.
Fixpoint get_upto (n : nat) (s : string) : option string :=
  match n, s with
  | 0, EmptyString => Some ""
  | 0, String a _ => if is_continuation a then None else Some ""
  | S _, EmptyString => None
  | S n', String a s' => String a <$> get_upto n' s'
  end.

(** * Lemmas *)

Lemma app_nil_r_s (s : string) : s +:+ "" = s.
Proof. induction s as [|a s IH]; [done|]. simpl. change (String a (s +:+ "") = String a s). by rewrite IH. Qed.

Lemma app_assoc_s (a b c : string) : (a +:+ b) +:+ c = a +:+ b +:+ c.
Proof. induction a as [|x a IH]; [done|]. simpl. change (String x ((a +:+ b) +:+ c) = String x (a +:+ b +:+ c)). by rewrite IH. Qed.

Lemma app_cons_s (x : ascii) (a b : string) : String x a +:+ b = String x (a +:+ b).
Proof. done. Qed.

Lemma app_nil_l_s (s : string) : "" +:+ s = s.
Proof. done. Qed.

Lemma length_app_s (a b : string) : String.length (a +:+ b) = String.length a + String.length b.
Proof. induction a as [|x a IH]; [done|]. rewrite app_cons_s. simpl. by rewrite IH. Qed.

Lemma app_inj_l_s (a b c : string) : a +:+ b = a +:+ c → b = c.
Proof. induction a as [|x a IH]; [done|]. rewrite !app_cons_s. intros [=]. auto. Qed.

Lemma app_inj_r_s (a b c : string) : a +:+ c = b +:+ c → a = b.
Proof.
  revert b. induction a as [|x a IH]; intros [|y b]; [done| | |].
  - intros H. apply (f_equal String.length) in H.
    rewrite !length_app_s in H. simpl in H. lia.
  - intros H. apply (f_equal String.length) in H.
    rewrite !length_app_s in H. simpl in H. lia.
  - rewrite !app_cons_s. intros [= -> H]. f_equal. auto.
Qed.

Lemma strip_prefix_Some p s r : strip_prefix p s = Some r ↔ s = p +:+ r.
Proof.
  revert s. induction p as [|a p IH]; intros s; simpl.
  - split; [by intros [= ->] | by intros ->].
  - destruct s as [|b s]; [by split; [|rewrite app_cons_s]|].
    destruct (Ascii.eqb_spec a b) as [->|Hne].
    + rewrite IH, app_cons_s. split; [by intros -> | by intros [=]].
    + split; [done|]. rewrite app_cons_s. by intros [= -> ?].
Qed.

Lemma strip_prefix_app p r : strip_prefix p (p +:+ r) = Some r.
Proof. by apply strip_prefix_Some. Qed.

Lemma strip_suffix_Some p s r : strip_suffix p s = Some r ↔ s = r +:+ p.
Proof.
  revert r. induction s as [|a s IH]; intros r.
  - simpl. destruct p as [|b p]; simpl.
    + split; [by intros [= <-]|]. destruct r; [done|]. by rewrite app_cons_s.
    + split; [done|]. destruct r; by rewrite ?app_cons_s.
  - cbn [strip_suffix]. destruct (String.eqb_spec (String a s) p) as [<-|Hne].
    + split; [by intros [= <-]|]. intros H.
      destruct r as [|x r]; [done|]. exfalso.
      apply (f_equal String.length) in H. rewrite app_cons_s in H. simpl in H.
      rewrite length_app_s in H. simpl in H. lia.
    + destruct (strip_suffix p s) as [r'|] eqn:E.
      * split; [intros [= <-]|].
        -- rewrite app_cons_s. f_equal. by apply IH.
        -- destruct r as [|x r]; [rewrite app_nil_l_s; congruence|].
           rewrite app_cons_s. intros [= -> H]. apply IH in H. congruence.
      * split; [done|]. destruct r as [|x r]; [rewrite app_nil_l_s; congruence|].
        rewrite app_cons_s. intros [= -> H]. apply IH in H. congruence.
Qed.

Lemma strip_suffix_app r p : strip_suffix p (r +:+ p) = Some r.
Proof. by apply strip_suffix_Some. Qed.

Lemma strip_suffix_None p s : strip_suffix p s = None ↔ ∀ r, s ≠ r +:+ p.
Proof.
  destruct (strip_suffix p s) as [r|] eqn:E.
  - apply strip_suffix_Some in E. split; [done|]. intros H. by destruct (H r).
  - split; [|done]. intros _ r ->. by rewrite strip_suffix_app in E.
Qed.

Lemma strip_prefix_None p s : strip_prefix p s = None ↔ ∀ r, s ≠ p +:+ r.
Proof.
  destruct (strip_prefix p s) as [r|] eqn:E.
  - apply strip_prefix_Some in E. split; [done|]. intros H. by destruct (H r).
  - split; [|done]. intros _ r ->. by rewrite strip_prefix_app in E.
Qed.

Lemma starts_with_true p s : starts_with p s = true ↔ ∃ r, s = p +:+ r.
Proof.
  unfold starts_with. rewrite bool_decide_eq_true. unfold is_Some.
  by setoid_rewrite strip_prefix_Some.
Qed.

Lemma ends_with_true p s : ends_with p s = true ↔ ∃ r, s = r +:+ p.
Proof.
  unfold ends_with. rewrite bool_decide_eq_true. unfold is_Some.
  by setoid_rewrite strip_suffix_Some.
Qed.

Lemma contains_char_app c a b : contains_char c (a +:+ b) = contains_char c a || contains_char c b.
Proof.
  induction a as [|x a IH]; [done|]. rewrite app_cons_s. simpl.
  by rewrite IH, orb_assoc.
Qed.

Lemma split_char_nonempty c s : split_char c s ≠ [].
Proof. destruct s as [|a s]; [done|]. simpl. by repeat case_match. Qed.

Lemma split_char_sep c s : split_char c (String c s) = "" :: split_char c s.
Proof. simpl. by rewrite Ascii.eqb_refl. Qed.

Lemma join_split c s : join_char c (split_char c s) = s.
Proof.
  induction s as [|a s IH]; [done|]. simpl.
  destruct (Ascii.eqb_spec a c) as [->|Hne].
  - simpl. destruct (split_char c s) as [|h t] eqn:E; [by destruct (split_char_nonempty c s)|].
    by rewrite IH.
  - destruct (split_char c s) as [|h t] eqn:E; [by destruct (split_char_nonempty c s)|].
    rewrite <- IH. by destruct t.
Qed.

Lemma split_char_none c s : contains_char c s = false → split_char c s = [s].
Proof.
  induction s as [|a s IH]; [done|]. simpl. intros [Ha Hs]%orb_false_iff.
  by rewrite Ha, IH.
Qed.

Lemma split_char_app c a s :
  contains_char c a = false → split_char c (a +:+ String c s) = a :: split_char c s.
Proof.
  induction a as [|x a IH]; intros Hc.
  - rewrite app_nil_l_s. apply split_char_sep.
  - simpl in Hc. apply orb_false_iff in Hc as [Hx Ha].
    rewrite app_cons_s. cbn [split_char]. by rewrite Hx, IH.
Qed.

Lemma split_join c l :
  l ≠ [] → Forall (λ x, contains_char c x = false) l → split_char c (join_char c l) = l.
Proof.
  intros Hne Hl. induction Hl as [|x l Hx Hl IH]; [done|].
  destruct l as [|y l]; [by apply split_char_none|].
  cbn [join_char]. rewrite split_char_app by done. f_equal. by apply IH.
Qed.

Lemma split_char_no_sep c s : Forall (λ x, contains_char c x = false) (split_char c s).
Proof.
  induction s as [|a s IH]; simpl; [by repeat constructor|].
  destruct (Ascii.eqb a c) eqn:E; [by constructor|].
  destruct (split_char c s) as [|h t]; [constructor; [simpl; by rewrite E | done]|].
  inversion IH; subst. constructor; [|done]. simpl. by rewrite E.
Qed.

Lemma upto_last_app c a b :
  contains_char c b = false → upto_last c (a +:+ String c b) = Some (a +:+ String c "").
Proof.
  intros Hb. induction a as [|x a IH].
  - rewrite !app_nil_l_s. simpl.
    assert (upto_last c b = None) as ->.
    { induction b as [|y b IHb]; [done|]. simpl in *.
      apply orb_false_iff in Hb as [Hy Hb]. by rewrite IHb, Hy. }
    by rewrite Ascii.eqb_refl.
  - rewrite !app_cons_s. simpl. by rewrite IH.
Qed.

Lemma upto_last_Some c s r :
  upto_last c s = Some r →
  ∃ a b, r = a +:+ String c "" ∧ s = a +:+ String c b ∧ contains_char c b = false.
Proof.
  revert r. induction s as [|x s IH]; intros r; simpl; [done|].
  destruct (upto_last c s) as [r'|] eqn:E.
  - intros [= <-]. destruct (IH _ eq_refl) as (a & b & -> & -> & Hb).
    by exists (String x a), b.
  - destruct (Ascii.eqb_spec x c) as [->|Hne]; [|done]. intros [= <-].
    exists "", s. split_and!; [done|done|].
    clear IH. induction s as [|y s IHs]; [done|]. simpl in *.
    destruct (upto_last c s); [done|]. destruct (Ascii.eqb y c); [done|]. auto.
Qed.

Lemma upto_last_None c s : upto_last c s = None ↔ contains_char c s = false.
Proof.
  induction s as [|x s IH]; simpl; [done|].
  rewrite orb_false_iff, <- IH.
  destruct (upto_last c s); [naive_solver|].
  destruct (Ascii.eqb x c); naive_solver.
Qed.

Lemma split_once_Some c s h t :
  split_once c s = Some (h, t) ↔ s = h +:+ String c t ∧ contains_char c h = false.
Proof.
  revert h. induction s as [|x s IH]; intros h; simpl.
  - split; [done|]. intros [H _]. destruct h; by rewrite ?app_cons_s in H.
  - destruct (Ascii.eqb_spec x c) as [->|Hne].
    + split; [by intros [= <- <-]|]. intros [H Hc].
      destruct h as [|y h]; [by injection H as ->|].
      rewrite app_cons_s in H. injection H as -> _. simpl in Hc.
      by rewrite Ascii.eqb_refl in Hc.
    + destruct (split_once c s) as [[h' t']|] eqn:E.
      * split.
        -- intros [= <- <-]. destruct (proj1 (IH h')) as [-> Hc]; [done|].
           split; [done|]. simpl. rewrite Hc. by apply orb_false_iff; split; [apply Ascii.eqb_neq|].
        -- intros [H Hc]. destruct h as [|y h]; [by injection H as -> _|].
           rewrite app_cons_s in H. injection H as -> H. simpl in Hc.
           apply orb_false_iff in Hc as [_ Hc].
           pose proof (proj2 (IH h) (conj H Hc)) as E'. by simplify_eq.
      * split; [done|]. intros [H Hc]. destruct h as [|y h]; [by injection H as -> _|].
        rewrite app_cons_s in H. injection H as -> H. simpl in Hc.
        apply orb_false_iff in Hc as [_ Hc].
        pose proof (proj2 (IH h) (conj H Hc)) as E'. by simplify_eq.
Qed.

Lemma filter_chars_all f s : all_chars f s = true → filter_chars f s = s.
Proof.
  induction s as [|a s IH]; [done|]. simpl. intros [-> H]%andb_true_iff. by rewrite IH.
Qed.

Lemma all_filter_chars f s : all_chars f (filter_chars f s) = true.
Proof.
  induction s as [|a s IH]; [done|]. simpl. destruct (f a) eqn:E; [simpl; by rewrite E|done].
Qed.

Lemma all_chars_app f a b : all_chars f (a +:+ b) = all_chars f a && all_chars f b.
Proof. induction a as [|x a IH]; [done|]. rewrite app_cons_s. simpl. by rewrite IH, andb_assoc. Qed.

Lemma all_chars_contains f c s : all_chars f s = true → f c = false → contains_char c s = false.
Proof.
  induction s as [|a s IH]; [done|]. simpl. intros [Ha Hs]%andb_true_iff Hc.
  rewrite IH by done. destruct (Ascii.eqb_spec a c); [congruence|done].
Qed.

#[export] Hint Rewrite app_nil_r_s app_nil_l_s app_assoc_s app_cons_s length_app_s
  contains_char_app : pod.

(** Two ways to split a string: one of the first halves extends the other. *)
Lemma app_eq_inv_s (a b c d : string) :
  a +:+ b = c +:+ d →
  (∃ m, c = a +:+ m ∧ b = m +:+ d) ∨ (∃ m, a = c +:+ m ∧ d = m +:+ b).
Proof.
  revert c. induction a as [|x a IH]; intros c E.
  - left. exists c. by rewrite app_nil_l_s in *.
  - destruct c as [|y c].
    + right. exists (String x a). by rewrite app_nil_l_s in *.
    + rewrite !app_cons_s in E. injection E as -> E.
      destruct (IH _ E) as [(m & -> & ->)|(m & -> & ->)]; [left|right]; exists m;
        by rewrite app_cons_s.
Qed.

Lemma app_nonempty_s (a b : string) : a +:+ b = "" → a = "" ∧ b = "".
Proof. destruct a; [by rewrite app_nil_l_s | by rewrite app_cons_s]. Qed.

Lemma starts_with_app p r : starts_with p (p +:+ r) = true.
Proof. apply starts_with_true. eauto. Qed.

Lemma ends_with_app p r : ends_with p (r +:+ p) = true.
Proof. apply ends_with_true. eauto. Qed.

Lemma join_char_app c l s :
  l ≠ [] → join_char c (l ++ [s]) = join_char c l +:+ String c s.
Proof.
  induction l as [|x l IH]; [done|]. intros _. destruct l as [|y l]; [done|].
  change (join_char c ((x :: y :: l) ++ [s]))
    with (x +:+ String c (join_char c ((y :: l) ++ [s]))).
  rewrite IH by done. cbn [join_char]. by rewrite app_assoc_s, app_cons_s.
Qed.

Lemma contains_join c d l :
  Ascii.eqb c d = false →
  contains_char d (join_char c l) = existsb (contains_char d) l.
Proof.
  intros Hcd. induction l as [|x l IH]; [done|]. destruct l as [|y l].
  - simpl. by rewrite orb_false_r.
  - cbn [join_char existsb] in *. rewrite contains_char_app. cbn [contains_char].
    by rewrite Hcd, IH.
Qed.

Lemma trim_end_idem f s : trim_end f (trim_end f s) = trim_end f s.
Proof.
  induction s as [|c s IH]; [done|]. simpl.
  destruct (trim_end f s) as [|x t] eqn:E; simpl.
  - destruct (f c) eqn:F; [done|]. simpl. by rewrite F.
  - simpl in IH. by rewrite IH.
Qed.

Lemma trim_start_head f s :
  trim_start f s = "" ∨ ∃ c t, trim_start f s = String c t ∧ f c = false.
Proof.
  induction s as [|c s IH]; [by left|]. simpl. destruct (f c) eqn:F; [done|]. right. eauto.
Qed.

Lemma trim_idem s : trim (trim s) = trim s.
Proof.
  unfold trim. destruct (trim_start_head is_whitespace s) as [->|(c & t & -> & F)]; [done|].
  simpl. destruct (trim_end is_whitespace t) as [|x u] eqn:E; rewrite ?F; simpl; rewrite ?F; simpl;
    rewrite ?F; [done|].
  pose proof (trim_end_idem is_whitespace t) as Hi. rewrite E in Hi. simpl in Hi. by rewrite Hi.
Qed.

(** ** The order of strings: byte by byte. *)
Fixpoint str_leb (a b : string) : bool :=
  match a, b with
  | "", _ => true
  | String _ _, "" => false
  | String x a', String y b' =>
      match Nat.compare (nat_of_ascii x) (nat_of_ascii y) with
      | Lt => true
      | Gt => false
      | Eq => str_leb a' b'
      end
  end.

Lemma nat_of_ascii_inj x y : nat_of_ascii x = nat_of_ascii y → x = y.
Proof. intros E. by rewrite <- (ascii_nat_embedding x), E, ascii_nat_embedding. Qed.

Lemma str_leb_total a b : str_leb a b = true ∨ str_leb b a = true.
Proof.
  revert b. induction a as [|x a IH]; intros [|y b]; simpl; auto.
  rewrite (Nat.compare_antisym (nat_of_ascii x)). destruct (Nat.compare _ _); simpl; auto.
Qed.

Lemma str_leb_antisym a b : str_leb a b = true → str_leb b a = true → a = b.
Proof.
  revert b. induction a as [|x a IH]; intros [|y b]; simpl; try done.
  rewrite (Nat.compare_antisym (nat_of_ascii x)).
  destruct (Nat.compare_spec (nat_of_ascii x) (nat_of_ascii y)) as [E|E|E]; simpl; try done.
  apply nat_of_ascii_inj in E as ->. intros. f_equal. auto.
Qed.

Lemma str_leb_trans a b c : str_leb a b = true → str_leb b c = true → str_leb a c = true.
Proof.
  revert b c. induction a as [|x a IH]; intros [|y b] [|z c]; simpl; try done.
  destruct (Nat.compare_spec (nat_of_ascii x) (nat_of_ascii y)) as [E|E|E]; try done;
  destruct (Nat.compare_spec (nat_of_ascii y) (nat_of_ascii z)) as [F|F|F]; try done;
  destruct (Nat.compare_spec (nat_of_ascii x) (nat_of_ascii z)) as [G|G|G]; try done; try lia.
  eauto.
Qed.

Lemma sort_strings_canonical l l' : l ≡ₚ l' → sort_by str_leb l = sort_by str_leb l'.
Proof.
  apply sort_by_canonical; [apply str_leb_total|apply str_leb_antisym|apply str_leb_trans].
Qed.
