(* ===== verification/Terms.v ===== *)
(** RDF terms, triples and quads, as [oxigraph::model] has them.

    A [NamedNode] and a [BlankNode] are the strings they hold.  The sources
    read a literal through [value()], [language()], [direction()] and
    [datatype()], so that is what a literal is here; a base direction comes
    with a language, as in [oxrdf]'s type. *)
From S2P Require Import Prelude Str.

Inductive direction : Type := Ltr | Rtl.

Record literal : Type := Literal {
  l_value : string;
  l_tag : option (string * option direction);
  l_datatype : string
}.

Definition l_language (l : literal) : option string := fst <$> l_tag l.
Definition l_direction (l : literal) : option direction := l_tag l ≫= snd.

(** [NamedOrBlankNode]. *)
Inductive named_or_blank : Type :=
| SNamed (n : string)
| SBlank (b : string).

(** [Term]; the payload of [TTriple] is an RDF 1.2 triple term. *)
Inductive term : Type :=
| TNamed (n : string)
| TBlank (b : string)
| TLiteral (l : literal)
| TTriple (s : named_or_blank) (p : string) (o : term).

(** [GraphName]. *)
Inductive graph_name : Type :=
| GDefault
| GNamed (n : string)
| GBlank (b : string).

Record triple : Type := Triple {
  t_subject : named_or_blank;
  t_predicate : string;
  t_object : term
}.

Record quad : Type := Quad {
  q_subject : named_or_blank;
  q_predicate : string;
  q_object : term;
  q_graph : graph_name
}.

Definition XSD_STRING : string := "http://www.w3.org/2001/XMLSchema#string".
Definition XSD_BOOLEAN : string := "http://www.w3.org/2001/XMLSchema#boolean".
Definition RDF_LANGSTRING : string := "http://www.w3.org/1999/02/22-rdf-syntax-ns#langString".

(** [Literal::new_simple_literal] and [Literal::new_language_tagged_literal]. *)
Definition simple_literal (v : string) : literal := Literal v None XSD_STRING.
Definition language_literal (v lang : string) : literal :=
  Literal v (Some (lang, None)) RDF_LANGSTRING.

(** SPARQL's [true]. *)
Definition lit_true : term := TLiteral (Literal "true" None XSD_BOOLEAN).

(** [Triple::from(quad)]: the graph name is dropped. *)
Definition triple_of_quad (q : quad) : triple :=
  Triple (q_subject q) (q_predicate q) (q_object q).

Definition quad_of_triple (g : graph_name) (t : triple) : quad :=
  Quad (t_subject t) (t_predicate t) (t_object t) g.

(** [Term::from(NamedOrBlankNode)]. *)
Definition term_of_subject (s : named_or_blank) : term :=
  match s with SNamed n => TNamed n | SBlank b => TBlank b end.

(** * Decidable equality and countability *)

#[export] Instance direction_eq_dec : EqDecision direction.
Proof. solve_decision. Defined.
#[export] Instance literal_eq_dec : EqDecision literal.
Proof. solve_decision. Defined.
#[export] Instance named_or_blank_eq_dec : EqDecision named_or_blank.
Proof. solve_decision. Defined.
#[export] Instance term_eq_dec : EqDecision term.
Proof. solve_decision. Defined.
#[export] Instance graph_name_eq_dec : EqDecision graph_name.
Proof. solve_decision. Defined.
#[export] Instance triple_eq_dec : EqDecision triple.
Proof. solve_decision. Defined.
#[export] Instance quad_eq_dec : EqDecision quad.
Proof. solve_decision. Defined.

Definition direction_enc (d : direction) : bool :=
  match d with Ltr => true | Rtl => false end.
Definition direction_dec (b : bool) : direction := if b then Ltr else Rtl.
#[export] Instance direction_countable : Countable direction :=
  inj_countable' direction_enc direction_dec (λ d, match d with Ltr | Rtl => eq_refl end).

Definition literal_enc (l : literal) : string * option (string * option direction) * string :=
  (l_value l, l_tag l, l_datatype l).
Definition literal_dec (x : string * option (string * option direction) * string) : literal :=
  let '(v, t, d) := x in Literal v t d.
#[export] Instance literal_countable : Countable literal :=
  inj_countable' literal_enc literal_dec (λ l, match l with Literal _ _ _ => eq_refl end).

Definition named_or_blank_enc (s : named_or_blank) : string + string :=
  match s with SNamed n => inl n | SBlank b => inr b end.
Definition named_or_blank_dec (x : string + string) : named_or_blank :=
  match x with inl n => SNamed n | inr b => SBlank b end.
#[export] Instance named_or_blank_countable : Countable named_or_blank :=
  inj_countable' named_or_blank_enc named_or_blank_dec
    (λ s, match s with SNamed _ | SBlank _ => eq_refl end).

(** A term is the chain of subjects and predicates above its innermost
    object. *)
Fixpoint term_enc (t : term) : list (named_or_blank * string) * (string + string + literal) :=
  match t with
  | TNamed n => ([], inl (inl n))
  | TBlank b => ([], inl (inr b))
  | TLiteral l => ([], inr l)
  | TTriple s p o => let '(l, b) := term_enc o in ((s, p) :: l, b)
  end.
Definition term_base (b : string + string + literal) : term :=
  match b with inl (inl n) => TNamed n | inl (inr b) => TBlank b | inr l => TLiteral l end.
Definition term_dec (x : list (named_or_blank * string) * (string + string + literal)) : term :=
  foldr (λ sp o, TTriple sp.1 sp.2 o) (term_base x.2) x.1.
Lemma term_dec_enc t : term_dec (term_enc t) = t.
Proof.
  induction t as [| | |s p o IH]; [done..|]. simpl.
  destruct (term_enc o) as [l b]. unfold term_dec in *. simpl in *. by rewrite IH.
Qed.
#[export] Instance term_countable : Countable term :=
  inj_countable' term_enc term_dec term_dec_enc.

Definition triple_enc (t : triple) : named_or_blank * string * term :=
  (t_subject t, t_predicate t, t_object t).
Definition triple_dec (x : named_or_blank * string * term) : triple :=
  let '(s, p, o) := x in Triple s p o.
#[export] Instance triple_countable : Countable triple :=
  inj_countable' triple_enc triple_dec (λ t, match t with Triple _ _ _ => eq_refl end).

#[export] Instance SNamed_inj : Inj (=) (=) SNamed.
Proof. intros x y E. exact (f_equal (λ s, match s with SNamed n | SBlank n => n end) E). Qed.

#[export] Instance TNamed_inj : Inj (=) (=) TNamed.
Proof. intros x y E. exact (f_equal (λ t, match t with TNamed n => n | _ => x end) E). Qed.
