(* ===== verification/Space.v ===== *)
(** The pod's URI topology ([space.rs]): which request paths name something,
    what kind of thing they name, and how URLs derive from one another.

    [NamedNode::new] is the IRI parser of a third party: the model knows it as
    the predicate [iri_valid].  A URL type with private constructors in the
    source is a record here, and [url_in] is the well-formedness that the
    private constructors maintain. *)
From S2P Require Import Prelude Str.
From Stdlib Require Import Sorting.Sorted.
Open Scope string_scope.
Open Scope list_scope.

(** [NamedNode::new(s).is_ok()]. *)
Class IriSyntax : Type := iri_valid : string → bool.

Inductive SpaceError : Type :=
| NotAbsolute | NoTrailingSlash | InvalidBaseIri | InvalidResourceIri
| Reserved | NotRooted | NotNormalized.

Definition AUX_SEGMENT : string := ".aux".
Definition WELL_KNOWN_SEGMENT : string := ".well-known".
Definition RESERVED_SEGMENTS : list string := [AUX_SEGMENT; WELL_KNOWN_SEGMENT].

(** * Auxiliary kinds *)
Inductive AuxKind : Type := Acl.

#[export] Instance AuxKind_eq_dec : EqDecision AuxKind.
Proof. solve_decision. Defined.

Definition AuxKind_ALL : list AuxKind := [Acl].

Definition kind_name (k : AuxKind) : string :=
  match k with Acl => "acl" end.

Definition link_rel (k : AuxKind) : string :=
  match k with Acl => "acl" end.

Definition suffix (k : AuxKind) : string := "." +:+ kind_name k.

(** [Iterator::find_map]. *)
Fixpoint find_map {A B : Type} (f : A → option B) (l : list A) : option B :=
  match l with
  | [] => None
  | x :: l' => match f x with Some b => Some b | None => find_map f l' end
  end.

Definition split_suffix (rest : string) : option (AuxKind * string) :=
  find_map (λ k, pair k <$> strip_suffix (suffix k) rest) AuxKind_ALL.

(** * URLs *)
Record ResourceUrl : Type := mkResourceUrl { r_path : string; r_iri : string }.

(** [ContainerUrl(ResourceUrl)]. *)
Record ContainerUrl : Type := mkContainerUrl { as_resource : ResourceUrl }.

Record AuxUrl : Type := mkAuxUrl {
  a_kind : AuxKind;
  a_subject : ResourceUrl;
  a_iri : string
}.

Inductive Target : Type :=
| TResource (r : ResourceUrl)
| TContainer (c : ContainerUrl)
| TAux (a : AuxUrl).

#[export] Instance ResourceUrl_eq_dec : EqDecision ResourceUrl.
Proof. solve_decision. Defined.
#[export] Instance ContainerUrl_eq_dec : EqDecision ContainerUrl.
Proof. solve_decision. Defined.
#[export] Instance AuxUrl_eq_dec : EqDecision AuxUrl.
Proof. solve_decision. Defined.
#[export] Instance Target_eq_dec : EqDecision Target.
Proof. solve_decision. Defined.

(** The [GraphName] trait and its implementations. *)
Class GraphName (A : Type) : Type := graph_iri : A → string.
#[export] Instance resource_graph : GraphName ResourceUrl := r_iri.
#[export] Instance container_graph : GraphName ContainerUrl := λ c, r_iri (as_resource c).
#[export] Instance aux_graph : GraphName AuxUrl := a_iri.
#[export] Instance target_graph : GraphName Target := λ t,
  match t with
  | TResource r => graph_iri r
  | TContainer c => graph_iri c
  | TAux a => graph_iri a
  end.

Definition c_path (c : ContainerUrl) : string := r_path (as_resource c).

(** [iri.strip_suffix(path).expect(..)]: the base of a URL, without the slash
    that its path begins with.  That the [expect] holds on every URL the pod
    mints is [url_in_base] below. *)
Definition base_of (r : ResourceUrl) : string :=
  default "" (strip_suffix (r_path r) (r_iri r)).

(** [ResourceUrl::aux]. *)
Definition aux (r : ResourceUrl) (kind : AuxKind) : AuxUrl :=
  let base := base_of r in
  let iri := base +:+ "/" +:+ AUX_SEGMENT +:+ r_path r +:+ suffix kind in
  mkAuxUrl kind r iri.

(** [ResourceUrl::slash_counterpart]; its [debug_assert!] is not part of a
    release build. *)
Definition slash_counterpart (r : ResourceUrl) : option ResourceUrl :=
  let with_path path := mkResourceUrl path (base_of r +:+ path) in
  match strip_suffix "/" (r_path r) with
  | Some "" => None
  | Some stripped => Some (with_path stripped)
  | None => Some (with_path (r_path r +:+ "/"))
  end.

Definition as_container (r : ResourceUrl) : option ContainerUrl :=
  if ends_with "/" (r_path r) then Some (mkContainerUrl r) else None.

(** [ResourceUrl::parent]; [upto_last c s] is [s[..=s.rfind(c)?]]. *)
Definition parent (r : ResourceUrl) : option ContainerUrl :=
  if bool_decide (r_path r = "/") then None else
  let trimmed := default (r_path r) (strip_suffix "/" (r_path r)) in
  match upto_last "/"%char trimmed with
  | None => None
  | Some parent_path =>
      Some (mkContainerUrl (mkResourceUrl parent_path (base_of r +:+ parent_path)))
  end.

(** [ResourceUrl::ancestors]: the [while let] loop runs at most once per byte
    of the path, [ancestors_unfold] below. *)
Fixpoint ancestors_loop (fuel : nat) (current : ResourceUrl) : list ContainerUrl :=
  match fuel with
  | 0 => []
  | S fuel =>
      match parent current with
      | None => []
      | Some p => p :: ancestors_loop fuel (as_resource p)
      end
  end.

Definition ancestors (r : ResourceUrl) : list ContainerUrl :=
  ancestors_loop (S (String.length (r_path r))) r.

(** * The storage space *)
Record StorageSpace : Type := mkSpace { base : string }.

(** [&s[1..]] of a string that begins with an ASCII character. *)
Definition tail_from_1 (s : string) : string :=
  match s with String _ rest => rest | "" => "" end.

Definition ok_segment (seg : string) : bool :=
  negb (bool_decide (seg = "")) && negb (bool_decide (seg = "."))
  && negb (bool_decide (seg = "..")).

Definition is_normalization_stable (request_path : string) : bool :=
  if contains_char "#"%char request_path then false else
  let rest := tail_from_1 request_path in
  if bool_decide (rest = "") then true else
  let segments := split_char "/"%char rest in
  let init := take (length segments - 1) segments in
  let last := default "" (last segments) in
  let init_ok := forallb ok_segment init in
  let last_ok := bool_decide (last = "")
    || (negb (bool_decide (last = ".")) && negb (bool_decide (last = ".."))) in
  init_ok && last_ok.

Definition segment_remainder (request_path segment : string) : option string :=
  match strip_prefix "/" request_path with
  | None => None
  | Some rest =>
      match strip_prefix segment rest with
      | None => None
      | Some rest =>
          if bool_decide (rest = "") || starts_with "/" rest then Some rest else None
      end
  end.

Definition reserved_segment (request_path : string) : option string :=
  find_map (λ segment, if bool_decide (is_Some (segment_remainder request_path segment))
                       then Some segment else None) RESERVED_SEGMENTS.

Section resolve.
Context `{IriSyntax}.

(** [StorageSpace::new]. *)
Definition new_space (b : string) : outcome SpaceError StorageSpace :=
  if negb (starts_with "http://" b || starts_with "https://" b) then Err NotAbsolute else
  if negb (ends_with "/" b) then Err NoTrailingSlash else
  if negb (iri_valid b) then Err InvalidBaseIri else
  Ok (mkSpace b).

(** [StorageSpace::resource]. *)
Definition resource (sp : StorageSpace) (request_path : string) : outcome SpaceError ResourceUrl :=
  match strip_prefix "/" request_path with
  | None => Panicked
  | Some trimmed =>
      let iri := base sp +:+ trimmed in
      if iri_valid iri then Ok (mkResourceUrl request_path iri) else Err InvalidResourceIri
  end.

(** [StorageSpace::resolve]. *)
Definition resolve (sp : StorageSpace) (request_path : string) : outcome SpaceError Target :=
  if negb (starts_with "/" request_path) then Err NotRooted else
  if negb (is_normalization_stable request_path) then Err NotNormalized else
  if bool_decide (is_Some (segment_remainder request_path WELL_KNOWN_SEGMENT))
  then Err Reserved else
  match segment_remainder request_path AUX_SEGMENT with
  | Some rest =>
      match split_suffix rest with
      | None => Err Reserved
      | Some (kind, subject_path) =>
          if bool_decide (is_Some (reserved_segment subject_path)) then Err Reserved else
          if negb (is_normalization_stable subject_path) then Err NotNormalized else
          let? subject := resource sp subject_path in
          let aux := aux subject kind in
          if iri_valid (a_iri aux) then Ok (TAux aux) else Err InvalidResourceIri
      end
  | None =>
      let? r := resource sp request_path in
      Ok (match as_container r with
          | Some container => TContainer container
          | None => TResource r
          end)
  end.

(** [StorageSpace::root]: [None] when its [expect] or [unreachable!] fires. *)
Definition root (sp : StorageSpace) : option ContainerUrl :=
  match resolve sp "/" with
  | Ok (TContainer c) => Some c
  | _ => None
  end.
End resolve.

(** * Specification *)

(** The base without its trailing slash: what every URL of the pod begins
    with, before its path. *)
Definition stem (sp : StorageSpace) : string := default "" (strip_suffix "/" (base sp)).

(** What the private constructors maintain. *)
Record url_in (sp : StorageSpace) (r : ResourceUrl) : Prop := {
  url_rooted : ∃ rest, r_path r = "/" +:+ rest;
  url_iri : r_iri r = stem sp +:+ r_path r
}.

(** What [new_space] establishes. *)
Definition space_wf `{IriSyntax} (sp : StorageSpace) : Prop :=
  new_space (base sp) = Ok sp.

(** The resource a target is or belongs to. *)
Definition subject_of (t : Target) : ResourceUrl :=
  match t with
  | TResource r => r
  | TContainer c => as_resource c
  | TAux a => a_subject a
  end.

Definition is_aux (t : Target) : bool :=
  match t with TAux _ => true | _ => false end.

(** The normal form [is_normalization_stable] compares a path with, without
    computing it: fragments go, empty and [.] segments go, a [..] takes the
    segment before it along, one trailing slash stays. *)
Definition drop_fragment (s : string) : string :=
  match split_once "#"%char s with Some (h, _) => h | None => s end.

Definition norm_step (kept : list string) (seg : string) : list string :=
  if bool_decide (seg = "") || bool_decide (seg = ".") then kept
  else if bool_decide (seg = "..") then tail kept
  else seg :: kept.

Definition normalize (p : string) : string :=
  let segs := split_char "/"%char (tail_from_1 (drop_fragment p)) in
  let kept := reverse (foldl norm_step [] segs) in
  "/" +:+ join_char "/"%char kept +:+
  (if bool_decide (last segs = Some "") && negb (bool_decide (kept = [])) then "/" else "").

(** * Lemmas *)

Lemma find_map_Some {A B} (f : A → option B) l b :
  find_map f l = Some b → ∃ x, x ∈ l ∧ f x = Some b.
Proof.
  induction l as [|x l IH]; simpl; [done|]. destruct (f x) eqn:E.
  - intros [= ->]. exists x. split; [by left|done].
  - intros (y & ? & ?)%IH. exists y. split; [by right|done].
Qed.

Lemma find_map_None {A B} (f : A → option B) l :
  find_map f l = None → ∀ x, x ∈ l → f x = None.
Proof.
  induction l as [|x l IH]; simpl; [by intros _ x ?%elem_of_nil|].
  destruct (f x) eqn:E; [done|]. intros Hl y [->|Hy]%elem_of_cons; [done|by apply IH].
Qed.

Lemma starts_with_slash p : starts_with "/" p = true ↔ ∃ rest, p = "/" +:+ rest.
Proof. apply starts_with_true. Qed.

Lemma tail_from_1_slash rest : tail_from_1 ("/" +:+ rest) = rest.
Proof. done. Qed.

Lemma base_of_url_in sp r : url_in sp r → base_of r = stem sp.
Proof. intros [_ Hi]. unfold base_of. rewrite Hi. by rewrite strip_suffix_app. Qed.

Lemma url_in_eq sp r q : url_in sp r → url_in sp q → r_path r = r_path q → r = q.
Proof. destruct r, q. intros [_ Hr] [_ Hq]. simpl in *. by intros ->; subst. Qed.

Lemma stem_base `{IriSyntax} sp : space_wf sp → base sp = stem sp +:+ "/".
Proof.
  unfold space_wf, new_space. destruct (negb _); [done|].
  destruct (ends_with "/" (base sp)) eqn:E; [|done]. intros _.
  apply ends_with_true in E as [b E]. unfold stem. rewrite E. by rewrite strip_suffix_app.
Qed.

Lemma resource_Ok `{IriSyntax} sp p r :
  space_wf sp → resource sp p = Ok r → url_in sp r ∧ r_path r = p ∧ iri_valid (r_iri r) = true.
Proof.
  intros Hsp. unfold resource. destruct (strip_prefix "/" p) as [t|] eqn:E; [|done].
  apply strip_prefix_Some in E as ->.
  destruct (iri_valid _) eqn:V; [|done]. intros [= <-]. split_and!; [|done|done].
  split; [by exists t|]. simpl. rewrite (stem_base sp Hsp). by rewrite !app_assoc_s.
Qed.

Lemma resource_url_in `{IriSyntax} sp r :
  space_wf sp → url_in sp r → iri_valid (r_iri r) = true → resource sp (r_path r) = Ok r.
Proof.
  intros Hsp [[t Ht] Hi] V. unfold resource. rewrite Ht, strip_prefix_app.
  rewrite (stem_base sp Hsp), app_assoc_s, <- Ht, <- Hi, V. by destruct r.
Qed.

Lemma segment_remainder_Some p seg rest :
  segment_remainder p seg = Some rest ↔
  p = "/" +:+ seg +:+ rest ∧ (rest = "" ∨ ∃ t, rest = "/" +:+ t).
Proof.
  unfold segment_remainder. split.
  - destruct (strip_prefix "/" p) as [u|] eqn:E; [|done]. apply strip_prefix_Some in E as ->.
    destruct (strip_prefix seg u) as [v|] eqn:E; [|done]. apply strip_prefix_Some in E as ->.
    destruct (bool_decide (v = "") || starts_with "/" v) eqn:B; [|done]. intros [= ->].
    split; [done|]. apply orb_true_iff in B as [B|B].
    + left. by apply bool_decide_eq_true in B.
    + right. by apply starts_with_true.
  - intros [-> Hr]. rewrite !strip_prefix_app.
    replace (bool_decide (rest = "") || starts_with "/" rest) with true; [done|].
    symmetry. apply orb_true_iff. destruct Hr as [->|Hr]; [by left|right].
    by apply starts_with_true.
Qed.

Lemma split_suffix_Some rest k s :
  split_suffix rest = Some (k, s) ↔ rest = s +:+ suffix k.
Proof.
  destruct k. unfold split_suffix, AuxKind_ALL. cbn [find_map].
  destruct (strip_suffix (suffix Acl) rest) as [s'|] eqn:E; simpl.
  - apply strip_suffix_Some in E. split; [intros [= <-]; done|].
    intros ->. by apply app_inj_r_s in E as ->.
  - split; [done|]. intros ->. by rewrite strip_suffix_app in E.
Qed.

Lemma reserved_segment_None p :
  reserved_segment p = None ↔
  segment_remainder p AUX_SEGMENT = None ∧ segment_remainder p WELL_KNOWN_SEGMENT = None.
Proof.
  unfold reserved_segment, RESERVED_SEGMENTS. cbn [find_map].
  destruct (segment_remainder p AUX_SEGMENT), (segment_remainder p WELL_KNOWN_SEGMENT);
    split; intros Hx; try done; by destruct Hx.
Qed.

Lemma not_is_Some_bool {A} (o : option A) : bool_decide (is_Some o) = false ↔ o = None.
Proof. rewrite bool_decide_eq_false. by rewrite <- eq_None_not_Some. Qed.

(** ** Minted URLs are well formed *)

Lemma aux_iri sp r k :
  url_in sp r → a_iri (aux r k) = stem sp +:+ "/" +:+ AUX_SEGMENT +:+ r_path r +:+ suffix k.
Proof. intros Hr. unfold aux. simpl. by rewrite (base_of_url_in sp r Hr). Qed.

Lemma url_in_with sp r p rest :
  url_in sp r → p = "/" +:+ rest → url_in sp (mkResourceUrl p (base_of r +:+ p)).
Proof. intros Hr ->. split; simpl; [eauto|]. by rewrite (base_of_url_in sp r Hr). Qed.

Lemma as_container_Some r c :
  as_container r = Some c ↔ as_resource c = r ∧ ends_with "/" (r_path r) = true.
Proof.
  unfold as_container. destruct (ends_with "/" (r_path r)); [|naive_solver].
  split; [naive_solver|]. destruct c; naive_solver.
Qed.

(** Slash_counterpart, by cases on the path. *)
Lemma slash_counterpart_Some sp r q :
  url_in sp r → slash_counterpart r = Some q →
  url_in sp q ∧ (r_path q = r_path r +:+ "/" ∨ r_path r = r_path q +:+ "/").
Proof.
  intros Hr. destruct (url_rooted sp r Hr) as [t Ht]. unfold slash_counterpart.
  destruct (strip_suffix "/" (r_path r)) as [s|] eqn:E.
  - apply strip_suffix_Some in E. destruct s as [|x s]; [done|].
    intros [= <-]. split; [|by right]. apply url_in_with with s; [done|].
    rewrite Ht in E. rewrite !app_cons_s in E. injection E as <- E. done.
  - intros [= <-]. split; [|by left]. apply url_in_with with (t +:+ "/"); [done|].
    by rewrite Ht, app_assoc_s.
Qed.

Lemma slash_counterpart_None sp r :
  url_in sp r → slash_counterpart r = None ↔ r_path r = "/".
Proof.
  intros Hr. unfold slash_counterpart.
  destruct (strip_suffix "/" (r_path r)) as [s|] eqn:E.
  - apply strip_suffix_Some in E. rewrite E. destruct s as [|x s]; [done|].
    split; [done|]. rewrite app_cons_s. intros [= -> Hs].
    by destruct (app_nonempty_s _ _ Hs).
  - split; [done|]. intros Hp. rewrite Hp in E. done.
Qed.

(** ** Parents *)

Lemma parent_Some sp r p :
  url_in sp r → parent r = Some p →
  url_in sp (as_resource p) ∧ ends_with "/" (c_path p) = true ∧
  ∃ seg tl, r_path r = c_path p +:+ seg +:+ tl ∧ contains_char "/"%char seg = false ∧
    (tl = "" ∨ tl = "/") ∧ seg +:+ tl ≠ "".
Proof.
  intros Hr. destruct (url_rooted sp r Hr) as [t Ht]. unfold parent.
  case_bool_decide as Hroot; [done|].
  destruct (upto_last _ _) as [pp|] eqn:E; [|done]. intros [= <-].
  apply upto_last_Some in E as (a & b & -> & E & Hb).
  assert (∃ tl, r_path r = a +:+ "/" +:+ b +:+ tl ∧ (tl = "" ∨ tl = "/") ∧ b +:+ tl ≠ "")
    as (tl & Hp & Htl & Hne).
  { destruct (strip_suffix "/" (r_path r)) as [s|] eqn:F; simpl in E.
    - apply strip_suffix_Some in F. exists "/". rewrite F, E.
      split_and!; [by rewrite app_assoc_s | by right |].
      intros Hx. by apply app_nonempty_s in Hx as [_ Hx].
    - exists "". rewrite E. split_and!; [by rewrite app_nil_r_s | by left |].
      rewrite app_nil_r_s. intros ->. rewrite E in F.
      by apply (proj1 (strip_suffix_None _ _)) with a in F. }
  unfold c_path; simpl. split_and!; [|by apply ends_with_app|].
  - assert (∃ u, a +:+ "/" = "/" +:+ u) as [u Hu].
    { destruct a as [|x a]; [by exists ""|]. rewrite Ht in Hp.
      rewrite !app_cons_s in Hp. injection Hp as <- _. by exists (a +:+ "/"). }
    eapply url_in_with; [done | exact Hu].
  - exists b, tl. split_and!; [by rewrite Hp, !app_assoc_s | done..].
Qed.

Lemma parent_None sp r : url_in sp r → parent r = None ↔ r_path r = "/".
Proof.
  intros Hr. destruct (url_rooted sp r Hr) as [t Ht]. unfold parent.
  case_bool_decide as Hroot; [done|]. split; [|done].
  destruct (upto_last _ _) eqn:E; [done|]. apply upto_last_None in E.
  destruct (strip_suffix "/" (r_path r)) as [s|] eqn:F; simpl in E.
  - apply strip_suffix_Some in F. destruct s as [|x s]; [by rewrite F in Hroot|].
    rewrite F, !app_cons_s in Ht. injection Ht as -> _. done.
  - by rewrite Ht in E.
Qed.

Lemma parent_shorter sp r p :
  url_in sp r → parent r = Some p → String.length (c_path p) < String.length (r_path r).
Proof.
  intros Hr Hp. destruct (parent_Some sp r p Hr Hp) as (_ & _ & seg & tl & -> & _ & _ & Hne).
  rewrite (length_app_s (c_path p)). destruct (seg +:+ tl); [done|]. simpl. lia.
Qed.

(** A container of a path is the parent, or a container of the parent. *)
Lemma prefix_parent sp r p q s :
  url_in sp r → parent r = Some p →
  r_path r = q +:+ s → s ≠ "" → ends_with "/" q = true →
  ∃ m, c_path p = q +:+ m.
Proof.
  intros Hr Hp Hq Hs He.
  destruct (parent_Some sp r p Hr Hp) as (_ & _ & seg & tl & E & Hseg & Htl & _).
  rewrite Hq in E. apply app_eq_inv_s in E as [(m & -> & _)|(m & -> & E)]; [by exists m|].
  apply ends_with_true in He as [a Ha].
  destruct m as [|x m]; [exists ""; by rewrite !app_nil_r_s|]. exfalso.
  assert (ends_with "/" (String x m) = true) as Hm.
  { assert (∃ z, String x m = z +:+ "/") as [z ->]; [|by apply ends_with_app].
    symmetry in Ha. apply app_eq_inv_s in Ha as [(z & Hz & Hz')|(z & Hz & Hz')].
    - destruct z as [|y z]; [by exists ""|]. rewrite app_cons_s in Hz'.
      injection Hz' as _ Hz'. symmetry in Hz'. by apply app_nonempty_s in Hz' as [_ ?].
    - by exists z. }
  apply ends_with_true in Hm as [z Hz]. rewrite Hz in E. clear Hz.
  destruct Htl as [->| ->].
  - rewrite app_nil_r_s in E. rewrite E, !contains_char_app in Hseg. simpl in Hseg.
    by rewrite orb_true_r in Hseg.
  - apply app_eq_inv_s in E as [(w & E & Hw)|(w & -> & _)].
    + destruct w as [|y w].
      * rewrite app_nil_r_s in E. subst seg. rewrite contains_char_app in Hseg.
        simpl in Hseg. by rewrite orb_true_r in Hseg.
      * rewrite app_cons_s in Hw. injection Hw as _ Hw. symmetry in Hw.
        by apply app_nonempty_s in Hw as [_ ?].
    + rewrite !contains_char_app in Hseg. simpl in Hseg.
      by rewrite orb_true_r in Hseg.
Qed.

(** ** Ancestors *)

Lemma ancestors_loop_enough sp n m r :
  url_in sp r → String.length (r_path r) < n → String.length (r_path r) < m →
  ancestors_loop n r = ancestors_loop m r.
Proof.
  revert m r. induction n as [|n IH]; intros [|m] r Hr Hn Hm; [lia..|]. simpl.
  destruct (parent r) as [p|] eqn:E; [|done].
  pose proof (parent_shorter sp r p Hr E) as Hlt. unfold c_path in Hlt.
  destruct (parent_Some sp r p Hr E) as [Hp _].
  f_equal. apply IH; [done|lia|lia].
Qed.

(** The loop ends by itself: its fuel is never what stops it. *)
Lemma ancestors_unfold sp r :
  url_in sp r →
  ancestors r = match parent r with
                | None => []
                | Some p => p :: ancestors (as_resource p)
                end.
Proof.
  intros Hr. unfold ancestors at 1. cbn [ancestors_loop].
  destruct (parent r) as [p|] eqn:E; [|done]. f_equal.
  pose proof (parent_shorter sp r p Hr E) as Hlt. unfold c_path in Hlt.
  destruct (parent_Some sp r p Hr E) as [Hp _].
  apply (ancestors_loop_enough sp); [done|lia..].
Qed.

(** Induction from a URL to its parent. *)
Lemma parent_ind sp (P : ResourceUrl → Prop) :
  (∀ r, url_in sp r → (∀ p, parent r = Some p → P (as_resource p)) → P r) →
  ∀ r, url_in sp r → P r.
Proof.
  intros Hstep r. remember (String.length (r_path r)) as n eqn:En.
  revert r En. induction (lt_wf n) as [n _ IH]. intros r -> Hr.
  apply Hstep; [done|]. intros p Hp.
  destruct (parent_Some sp r p Hr Hp) as [Hpin _].
  eapply IH; [|done|done]. by apply (parent_shorter sp).
Qed.

Lemma ancestors_spec sp r c :
  url_in sp r →
  c ∈ ancestors r ↔
  url_in sp (as_resource c) ∧ ends_with "/" (c_path c) = true ∧
  ∃ s, s ≠ "" ∧ r_path r = c_path c +:+ s.
Proof.
  revert r. refine (parent_ind sp _ _). intros r Hr IH. rewrite (ancestors_unfold sp r Hr).
  destruct (parent r) as [p|] eqn:E.
  - destruct (parent_Some sp r p Hr E) as (Hp & He & seg & tl & Hpath & _ & _ & Hne).
    rewrite elem_of_cons. rewrite (IH p eq_refl). split.
    + intros [->|(Hc & Hce & s & Hs & Hcp)]; split_and!; [done|done| |done|done|].
      * by exists (seg +:+ tl).
      * exists (s +:+ seg +:+ tl). split.
        { intros Hx. by apply app_nonempty_s in Hx as [? _]. }
        by rewrite Hpath; unfold c_path at 1; rewrite Hcp, app_assoc_s.
    + intros (Hc & Hce & s & Hs & Hcp).
      destruct (prefix_parent sp r p (c_path c) s Hr E Hcp Hs Hce) as [m Hm].
      destruct m as [|x m].
      * left. rewrite app_nil_r_s in Hm. destruct c, p. f_equal. by eapply url_in_eq.
      * right. split_and!; [done|done|]. by exists (String x m).
  - apply (parent_None sp r Hr) in E. split; [intros Hx; by apply elem_of_nil in Hx|].
    intros (Hc & _ & s & Hs & Hcp). destruct (url_rooted sp _ Hc) as [t Ht].
    unfold c_path in Hcp. rewrite E, Ht, app_assoc_s in Hcp. rewrite app_cons_s in Hcp.
    injection Hcp as Hcp. rewrite app_nil_l_s in Hcp. symmetry in Hcp.
    by apply app_nonempty_s in Hcp as [_ ?].
Qed.

Definition longer (a b : ContainerUrl) : Prop :=
  String.length (c_path b) < String.length (c_path a).

(** Nearest first: each container is longer than all that follow. *)
Lemma ancestors_sorted sp r : url_in sp r → StronglySorted longer (ancestors r).
Proof.
  revert r. refine (parent_ind sp _ _). intros r Hr IH. rewrite (ancestors_unfold sp r Hr).
  destruct (parent r) as [p|] eqn:E; [|constructor].
  destruct (parent_Some sp r p Hr E) as [Hp _].
  constructor; [by apply IH|]. apply Forall_forall. intros c Hc.
  apply (ancestors_spec sp) in Hc; [|done]. destruct Hc as (_ & _ & s & Hs & Hcp).
  unfold longer, c_path in *. rewrite Hcp, length_app_s. destruct s; [done|]. simpl. lia.
Qed.

Lemma ancestors_root sp r :
  url_in sp r → r_path r ≠ "/" → last (ancestors r) = Some (mkContainerUrl (mkResourceUrl "/" (stem sp +:+ "/"))).
Proof.
  revert r. refine (parent_ind sp _ _). intros r Hr IH Hne. rewrite (ancestors_unfold sp r Hr).
  destruct (parent r) as [p|] eqn:E; [|by apply (parent_None sp r Hr) in E].
  destruct (parent_Some sp r p Hr E) as [Hp _].
  destruct (decide (c_path p = "/")) as [Hroot|Hroot].
  - rewrite (ancestors_unfold sp _ Hp).
    assert (parent (as_resource p) = None) as -> by by apply (parent_None sp).
    simpl. destruct p as [p]. repeat f_equal. destruct Hp as [_ Hi].
    unfold c_path in Hroot; destruct p as [pp pi]; simpl in *. by subst.
  - specialize (IH p eq_refl Hroot). rewrite last_cons. by rewrite IH.
Qed.

(** ** Resolution *)

Lemma stem_iri sp r : url_in sp r → graph_iri r = stem sp +:+ r_path r.
Proof. by intros [_ Hi]. Qed.

Lemma resolve_plain `{IriSyntax} sp p :
  reserved_segment p = None → starts_with "/" p = true → is_normalization_stable p = true →
  resolve sp p =
    let? r := resource sp p in
    Ok (match as_container r with Some c => TContainer c | None => TResource r end).
Proof.
  intros Hres Hroot Hstab. apply reserved_segment_None in Hres as [Ha Hw].
  unfold resolve. by rewrite Hroot, Hstab, Ha, Hw.
Qed.

(** What each success of [resolve] went through. *)
Lemma resolve_Ok_inv `{IriSyntax} sp p t :
  space_wf sp → resolve sp p = Ok t →
  is_normalization_stable p = true ∧ url_in sp (subject_of t) ∧
  iri_valid (r_iri (subject_of t)) = true ∧
  reserved_segment (r_path (subject_of t)) = None ∧
  is_normalization_stable (r_path (subject_of t)) = true ∧
  match t with
  | TResource r => r_path r = p ∧ ends_with "/" p = false
  | TContainer c => c_path c = p ∧ ends_with "/" p = true
  | TAux a => a = aux (a_subject a) (a_kind a) ∧ iri_valid (a_iri a) = true ∧
              p = "/" +:+ AUX_SEGMENT +:+ r_path (a_subject a) +:+ suffix (a_kind a)
  end.
Proof.
  intros Hsp. unfold resolve.
  destruct (starts_with "/" p) eqn:Hroot; [|done]. simpl.
  destruct (is_normalization_stable p) eqn:Hstab; [|done]. simpl.
  destruct (bool_decide _) eqn:Hw; [done|]. apply not_is_Some_bool in Hw.
  destruct (segment_remainder p AUX_SEGMENT) as [rest|] eqn:Ha.
  - apply segment_remainder_Some in Ha as [-> Hrest].
    destruct (split_suffix rest) as [[k s]|] eqn:Hk; [|done].
    apply split_suffix_Some in Hk as ->.
    destruct (bool_decide _) eqn:Hr; [done|]. apply not_is_Some_bool in Hr.
    destruct (is_normalization_stable s) eqn:Hs; [|done]. simpl.
    destruct (resource sp s) as [r|e|] eqn:Er; [|done|done]. cbn [obind].
    destruct (resource_Ok sp s r Hsp Er) as (Hin & Hp & Hv). subst s.
    match goal with |- context [if ?b then _ else _] => destruct b eqn:V end; [|done].
    intros [= <-]. simpl. by split_and!.
  - destruct (resource sp p) as [r|e|] eqn:Er; [|done|done]. simpl.
    destruct (resource_Ok sp p r Hsp Er) as (Hin & Hp & Hv). subst p.
    assert (reserved_segment (r_path r) = None) as Hr by by apply reserved_segment_None.
    unfold as_container. destruct (ends_with "/" (r_path r)) eqn:He;
      intros [= <-]; simpl; by split_and!.
Qed.

Lemma resolve_graph_iri `{IriSyntax} sp p t :
  space_wf sp → resolve sp p = Ok t → graph_iri t = stem sp +:+ p.
Proof.
  intros Hsp Ht. destruct (resolve_Ok_inv sp p t Hsp Ht) as (_ & Hin & _ & _ & _ & Hcase).
  destruct t as [r|c|a]; simpl in *.
  - destruct Hcase as [<- _]. by apply stem_iri.
  - destruct Hcase as [<- _]. by apply (stem_iri sp (as_resource c)).
  - destruct Hcase as (Ha & _ & ->). unfold graph_iri, target_graph, graph_iri, aux_graph.
    rewrite Ha. by apply aux_iri.
Qed.

Lemma resolve_subject `{IriSyntax} sp p t :
  space_wf sp → resolve sp p = Ok t → ∃ u,
    resolve sp (r_path (subject_of t)) = Ok u ∧ is_aux u = false ∧ subject_of u = subject_of t.
Proof.
  intros Hsp Ht.
  destruct (resolve_Ok_inv sp p t Hsp Ht) as (_ & Hin & Hv & Hr & Hst & _).
  rewrite resolve_plain; [|done| |done].
  2: { apply starts_with_slash. by destruct Hin. }
  rewrite resource_url_in by done. simpl. eexists; split; [done|].
  destruct (as_container _) as [c|] eqn:E; [|done].
  by apply as_container_Some in E as [<- _].
Qed.

(** ** Stability and normal forms *)

Lemma split_once_None c s : split_once c s = None ↔ contains_char c s = false.
Proof.
  induction s as [|x s IH]; simpl; [done|].
  destruct (Ascii.eqb x c); simpl; [done|].
  destruct (split_once c s) as [[h t]|]; naive_solver.
Qed.

Lemma drop_fragment_no_hash s : contains_char "#"%char (drop_fragment s) = false.
Proof.
  unfold drop_fragment. destruct (split_once _ s) as [[h t]|] eqn:E.
  - by apply split_once_Some in E as [_ E].
  - by apply split_once_None.
Qed.

Lemma drop_fragment_id s : contains_char "#"%char s = false → drop_fragment s = s.
Proof. intros Hs. unfold drop_fragment. by rewrite (proj2 (split_once_None _ s) Hs). Qed.

Lemma ok_segment_true seg : ok_segment seg = true ↔ seg ≠ "" ∧ seg ≠ "." ∧ seg ≠ "..".
Proof.
  unfold ok_segment. rewrite !andb_true_iff, !negb_true_iff, !bool_decide_eq_false. tauto.
Qed.

Lemma norm_step_ok kept seg : ok_segment seg = true → norm_step kept seg = seg :: kept.
Proof.
  rewrite ok_segment_true. intros (H1 & H2 & H3). unfold norm_step.
  by rewrite !bool_decide_eq_false_2.
Qed.

Lemma foldl_norm_ok segs kept :
  forallb ok_segment segs = true → foldl norm_step kept segs = reverse segs ++ kept.
Proof.
  revert kept. induction segs as [|s l IH]; intros kept Hok; [done|]. simpl in *.
  apply andb_true_iff in Hok as [Hs Hl]. rewrite norm_step_ok, IH by done.
  by rewrite reverse_cons, <- app_assoc.
Qed.

(** What normalization keeps are ordinary segments of the path. *)
Lemma foldl_norm_kept (P : string → Prop) segs kept :
  Forall P segs → Forall (λ s, ok_segment s = true ∧ P s) kept →
  Forall (λ s, ok_segment s = true ∧ P s) (foldl norm_step kept segs).
Proof.
  intros HP. revert kept. induction HP as [|s l Hs Hl IH]; intros kept Hk; [done|]. simpl.
  apply IH. unfold norm_step. repeat case_bool_decide; simpl; try done.
  - destruct kept; [done|]. by inversion Hk.
  - constructor; [|done]. split; [|done]. by apply ok_segment_true.
Qed.

Lemma existsb_false {A} (f : A → bool) l : existsb f l = false ↔ Forall (λ x, f x = false) l.
Proof.
  induction l as [|x l IH]; simpl; [by split|].
  rewrite orb_false_iff, Forall_cons. by rewrite IH.
Qed.

Lemma forallb_Forall {A} (f : A → bool) l : forallb f l = true ↔ Forall (λ x, f x = true) l.
Proof.
  induction l as [|x l IH]; simpl; [by split|].
  rewrite andb_true_iff, Forall_cons. by rewrite IH.
Qed.

Lemma split_char_keeps c d s :
  contains_char d s = false → Forall (λ x, contains_char d x = false) (split_char c s).
Proof.
  induction s as [|x s IH]; simpl; [by repeat constructor|].
  intros [Hx Hs]%orb_false_iff. specialize (IH Hs).
  destruct (Ascii.eqb x c); [by constructor|].
  destruct (split_char c s) as [|h t]; [repeat constructor; simpl; by rewrite Hx|].
  inversion IH; subst. constructor; [|done]. simpl. by rewrite Hx.
Qed.

(** The check of [is_normalization_stable] on the segments of a path. *)
Definition segments_ok (segs : list string) : bool :=
  forallb ok_segment (take (length segs - 1) segs) &&
  (bool_decide (default "" (last segs) = "") || (negb (bool_decide (default "" (last segs) = "."))
   && negb (bool_decide (default "" (last segs) = "..")))).

Lemma segments_ok_snoc init l :
  segments_ok (init ++ [l]) = true ↔
  forallb ok_segment init = true ∧ (l = "" ∨ ok_segment l = true).
Proof.
  unfold segments_ok. rewrite length_app, last_snoc. simpl.
  replace (length init + 1 - 1) with (length init) by lia. rewrite take_app_length.
  rewrite andb_true_iff, orb_true_iff, andb_true_iff, !negb_true_iff, !bool_decide_eq_false,
    bool_decide_eq_true, ok_segment_true.
  destruct (decide (l = "")) as [->|Hl]; split; intros [? Hx]; split; tauto.
Qed.

Lemma stable_eq rest :
  is_normalization_stable ("/" +:+ rest) =
  negb (contains_char "#"%char rest) && (bool_decide (rest = "") || segments_ok (split_char "/"%char rest)).
Proof.
  unfold is_normalization_stable. rewrite tail_from_1_slash, contains_char_app. simpl.
  destruct (contains_char "#"%char rest); [done|]. simpl. by case_bool_decide.
Qed.

Lemma normalize_stable rest :
  is_normalization_stable ("/" +:+ rest) = true → normalize ("/" +:+ rest) = "/" +:+ rest.
Proof.
  rewrite stable_eq, andb_true_iff, negb_true_iff, orb_true_iff. intros [Hh Hok].
  unfold normalize. rewrite drop_fragment_id by (by rewrite contains_char_app).
  rewrite tail_from_1_slash. destruct (decide (rest = "")) as [->|Hne]; [done|].
  destruct Hok as [Hok|Hok]; [by apply bool_decide_eq_true in Hok|]. f_equal.
  destruct (exists_last (split_char_nonempty "/"%char rest)) as (init & l & Hs).
  transitivity (join_char "/"%char (split_char "/"%char rest)); [|apply join_split].
  rewrite Hs in Hok |- *.
  apply segments_ok_snoc in Hok as [Hi Hl]. rewrite foldl_app, last_snoc, (foldl_norm_ok init) by done.
  cbn [foldl]. rewrite app_nil_r. destruct Hl as [->|Hl].
  - unfold norm_step at 1. simpl. unfold norm_step. simpl. rewrite !reverse_involutive.
    destruct init as [|i init].
    + exfalso. apply Hne. rewrite <- (join_split "/"%char rest), Hs. done.
    + rewrite join_char_app by done. done.
  - rewrite norm_step_ok, reverse_cons, reverse_involutive by done.
    apply ok_segment_true in Hl as [Hl _]. rewrite bool_decide_eq_false_2 by congruence.
    simpl. by rewrite app_nil_r_s.
Qed.

Lemma stable_normalize rest :
  is_normalization_stable (normalize ("/" +:+ rest)) = true.
Proof.
  unfold normalize.
  set (segs := split_char "/"%char _). set (kept := reverse (foldl norm_step [] segs)).
  assert (Forall (λ s, ok_segment s = true ∧
    (contains_char "/"%char s = false ∧ contains_char "#"%char s = false)) kept) as Hk.
  { unfold kept. rewrite Forall_reverse.
    apply (foldl_norm_kept (λ s, contains_char "/"%char s = false ∧ contains_char "#"%char s = false));
      [|done]. apply Forall_and. split; [apply split_char_no_sep|].
    apply split_char_keeps. pose proof (drop_fragment_no_hash ("/" +:+ rest)) as Hf.
    unfold tail_from_1. destruct (drop_fragment _) as [|y d]; [done|].
    simpl in Hf. by apply orb_false_iff in Hf as [_ ?]. }
  apply Forall_and in Hk as [Hk Hk']. apply Forall_and in Hk' as [Hsl Hha].
  destruct (decide (kept = [])) as [->|Hne].
  { rewrite andb_false_r. done. }
  rewrite (bool_decide_eq_false_2 (kept = [])) by done. simpl. rewrite andb_true_r.
  rewrite stable_eq. apply andb_true_iff. split.
  { rewrite negb_true_iff, contains_char_app, contains_join by done.
    rewrite (proj2 (existsb_false _ _) Hha). by case_bool_decide. }
  apply orb_true_iff. right. case_bool_decide.
  - rewrite <- (join_char_app "/"%char kept "") by done.
    rewrite split_join; [| by destruct kept | by apply Forall_app; split; [|repeat constructor]].
    apply segments_ok_snoc. split; [|by left]. by apply forallb_Forall.
  - rewrite app_nil_r_s, split_join by done.
    destruct (exists_last Hne) as (init & l & E). rewrite E in Hk |- *.
    apply Forall_app in Hk as [Hi Hl]. apply segments_ok_snoc. split.
    + by apply forallb_Forall.
    + right. by inversion Hl.
Qed.

(** ** Slash pairs *)

Lemma split_char_cat c a s : split_char c (a +:+ String c s) = split_char c a ++ split_char c s.
Proof.
  induction a as [|x a IH]; [rewrite app_nil_l_s; simpl; by rewrite Ascii.eqb_refl|].
  rewrite app_cons_s. simpl. destruct (Ascii.eqb x c); [by rewrite IH|].
  rewrite IH. by destruct (split_char c a) eqn:E; [apply split_char_nonempty in E|].
Qed.

(** Text without a separator joins the last segment. *)
Lemma split_char_suffix c s t init l :
  split_char c s = init ++ [l] → contains_char c t = false →
  split_char c (s +:+ t) = init ++ [l +:+ t].
Proof.
  intros Hs Ht. rewrite <- (join_split c s). rewrite Hs.
  pose proof (split_char_no_sep c s) as Hf. rewrite Hs in Hf.
  apply Forall_app in Hf as [Hi Hl]. apply (proj1 (Forall_singleton _ _)) in Hl.
  assert (join_char c (init ++ [l]) +:+ t = join_char c (init ++ [l +:+ t])) as ->.
  { destruct init as [|i init]; [done|].
    by rewrite !join_char_app, app_assoc_s, app_cons_s. }
  apply split_join; [by destruct init|].
  apply Forall_app. split; [done|]. apply (proj2 (Forall_singleton _ _)).
  by rewrite contains_char_app, Hl, Ht.
Qed.

Lemma split_last_empty c s init :
  split_char c s = init ++ [""] → s = "" ∨ ∃ a, s = a +:+ String c "".
Proof.
  intros E. rewrite <- (join_split c s), E. destruct init as [|i init]; [by left|].
  right. rewrite join_char_app by done. eauto.
Qed.

Lemma stable_add_slash s :
  s ≠ "" → (∀ a, s ≠ a +:+ "/") →
  is_normalization_stable ("/" +:+ s +:+ "/") = is_normalization_stable ("/" +:+ s).
Proof.
  intros Hne Hs. rewrite !stable_eq, contains_char_app. simpl. rewrite orb_false_r. f_equal.
  rewrite (bool_decide_eq_false_2 (s = "")) by done.
  rewrite (bool_decide_eq_false_2 (s +:+ "/" = "")) by (intros Hx; by apply app_nonempty_s in Hx as [? _]).
  simpl. rewrite split_char_cat. simpl.
  destruct (exists_last (split_char_nonempty "/"%char s)) as (init & l & E). rewrite E.
  apply eq_true_iff_eq. rewrite !segments_ok_snoc, forallb_app, andb_true_iff. simpl.
  rewrite andb_true_r. assert (l ≠ ""); [|naive_solver].
  intros ->. by apply split_last_empty in E as [?|[a ?]]; [|eapply Hs].
Qed.

Lemma stable_no_double a : is_normalization_stable ("/" +:+ a +:+ "//") = false.
Proof.
  rewrite stable_eq. apply andb_false_iff. right. apply orb_false_iff. split.
  { apply bool_decide_eq_false. intros Hx. by apply app_nonempty_s in Hx as [_ ?]. }
  rewrite split_char_cat. simpl. apply not_true_iff_false.
  change [""; ""] with ([""] ++ [""]). rewrite app_assoc, segments_ok_snoc, forallb_app.
  simpl. rewrite andb_false_r. by intros [? _].
Qed.

Lemma reserved_add_slash s :
  s ≠ "" → reserved_segment ("/" +:+ s) = None → reserved_segment ("/" +:+ s +:+ "/") = None.
Proof.
  intros Hne. rewrite !reserved_segment_None.
  assert (∀ seg, segment_remainder ("/" +:+ s) seg = None →
                 contains_char "/"%char seg = false → seg ≠ "" →
                 segment_remainder ("/" +:+ s +:+ "/") seg = None) as Hseg.
  { intros seg Hn Hc Hn'. destruct (segment_remainder (_ +:+ _ +:+ _) seg) as [r|] eqn:E; [|done].
    exfalso. apply segment_remainder_Some in E as [E Hr]. apply app_inj_l_s in E.
    apply app_eq_inv_s in E as [(m & -> & E)|(m & -> & E)].
    - destruct m as [|x m].
      + rewrite app_nil_r_s in Hn. rewrite app_nil_l_s in E. subst.
        by rewrite (proj2 (segment_remainder_Some _ _ "")) in Hn
          by (split; [by rewrite app_nil_r_s | by left]).
      + rewrite app_cons_s in E. injection E as <- E. symmetry in E.
        apply app_nonempty_s in E as [-> _].
        rewrite contains_char_app in Hc. simpl in Hc. by rewrite orb_true_r in Hc.
    - assert (segment_remainder ("/" +:+ seg +:+ m) seg = Some m); [|congruence].
      apply segment_remainder_Some. split; [done|].
      destruct Hr as [->|[t ->]]; [symmetry in E; by apply app_nonempty_s in E as [_ ?]|].
      destruct m as [|y m]; [by left|right].
      rewrite !app_cons_s in E. injection E as <- _. by exists m. }
  intros [Ha Hw]. split; by apply Hseg.
Qed.

Lemma reserved_drop_slash s :
  reserved_segment ("/" +:+ s +:+ "/") = None → reserved_segment ("/" +:+ s) = None.
Proof.
  rewrite !reserved_segment_None.
  assert (∀ seg, segment_remainder ("/" +:+ s +:+ "/") seg = None →
                 segment_remainder ("/" +:+ s) seg = None) as Hseg.
  { intros seg Hn. destruct (segment_remainder ("/" +:+ s) seg) as [r|] eqn:E; [|done].
    apply segment_remainder_Some in E as [E Hr]. apply app_inj_l_s in E as ->.
    assert (segment_remainder ("/" +:+ (seg +:+ r) +:+ "/") seg = Some (r +:+ "/")); [|congruence].
    apply segment_remainder_Some. split; [by rewrite !app_assoc_s|].
    right. destruct Hr as [->|[t ->]]; [by exists ""|]. exists (t +:+ "/"). by rewrite app_assoc_s. }
  intros [Ha Hw]. split; by apply Hseg.
Qed.

(** ** URLs that are no auxiliary *)

(** A URL outside the reserved segments: a resource or a container. *)
Record plain (sp : StorageSpace) (r : ResourceUrl) : Prop := {
  plain_in : url_in sp r;
  plain_free : reserved_segment (r_path r) = None
}.

Lemma resolve_plain_subject `{IriSyntax} sp p t :
  space_wf sp → resolve sp p = Ok t → plain sp (subject_of t).
Proof. intros Hsp Ht. apply resolve_Ok_inv in Ht as (_ & ? & _ & ? & _); [by split|done]. Qed.

(** A container above a plain URL is plain: the first segment is the same. *)
Lemma plain_above sp r c s :
  plain sp r → url_in sp (as_resource c) → ends_with "/" (c_path c) = true →
  r_path r = c_path c +:+ s → plain sp (as_resource c).
Proof.
  intros [Hr Hf] Hc He Hp. split; [done|]. apply reserved_segment_None.
  apply reserved_segment_None in Hf as [Ha Hw].
  assert (∀ seg, seg ≠ "" → contains_char "/"%char seg = false →
            segment_remainder (r_path r) seg = None → segment_remainder (c_path c) seg = None) as Hseg.
  { intros seg Hne Hs Hn. destruct (segment_remainder (c_path c) seg) as [rest|] eqn:E; [|done].
    apply segment_remainder_Some in E as [E Hrest].
    assert (segment_remainder (r_path r) seg = Some (rest +:+ s)); [|congruence].
    apply segment_remainder_Some. split; [by rewrite Hp, E, !app_assoc_s|]. right.
    destruct Hrest as [->|[t ->]]; [|exists (t +:+ s); by rewrite app_assoc_s].
    exfalso. apply ends_with_true in He as [u He]. rewrite E, app_nil_r_s in He.
    destruct u as [|x u]; rewrite ?app_cons_s in He.
    - by injection He as He.
    - injection He as _ He. rewrite app_nil_l_s in He. rewrite He, contains_char_app, orb_true_r in Hs.
      done. }
  split; by apply Hseg.
Qed.

Lemma plain_parent sp r p : plain sp r → parent r = Some p → plain sp (as_resource p).
Proof.
  intros Hr Hp. destruct (parent_Some sp r p (plain_in _ _ Hr) Hp) as (Hin & He & seg & tl & Hpath & _).
  by eapply plain_above.
Qed.

Lemma plain_ancestor sp r c : plain sp r → c ∈ ancestors r → plain sp (as_resource c).
Proof.
  intros Hr Hc. apply (ancestors_spec sp r c (plain_in _ _ Hr)) in Hc as (Hin & He & s & _ & Hp).
  by eapply plain_above.
Qed.

(** ** Names are apart *)
Lemma stem_web `{IriSyntax} sp x :
  space_wf sp → starts_with "http" (stem sp +:+ "/" +:+ x) = true.
Proof.
  intros Hsp. rewrite <- app_assoc_s, <- (stem_base sp Hsp).
  assert (∃ r, base sp = "http" +:+ r) as [r ->].
  { unfold space_wf, new_space in Hsp. destruct (negb _) eqn:E; [done|].
    apply negb_false_iff, orb_true_iff in E as [E|E]; apply starts_with_true in E as [r ->].
    - by exists ("://" +:+ r).
    - by exists ("s://" +:+ r). }
  by rewrite app_assoc_s, starts_with_app.
Qed.

Lemma url_web `{IriSyntax} sp r :
  space_wf sp → url_in sp r → starts_with "http" (graph_iri r) = true.
Proof.
  intros Hsp Hr. destruct (url_rooted sp r Hr) as [t Ht].
  unfold graph_iri, resource_graph. rewrite (url_iri sp r Hr), Ht. by apply stem_web.
Qed.

Lemma aux_web `{IriSyntax} sp r k :
  space_wf sp → url_in sp r → starts_with "http" (graph_iri (aux r k)) = true.
Proof. intros Hsp Hr. unfold graph_iri, aux_graph. rewrite (aux_iri sp r k Hr). by apply stem_web. Qed.

Lemma aux_not_plain sp r s k :
  plain sp r → url_in sp s → graph_iri (aux s k) ≠ graph_iri r.
Proof.
  intros [Hr Hf] Hs. unfold graph_iri, aux_graph, resource_graph.
  rewrite (aux_iri sp s k Hs), (url_iri sp r Hr). intros E%app_inj_l_s.
  apply reserved_segment_None in Hf as [Hf _].
  assert (segment_remainder (r_path r) AUX_SEGMENT = Some (r_path s +:+ suffix k)); [|congruence].
  apply segment_remainder_Some. split; [done|right].
  destruct (url_rooted sp s Hs) as [t ->]. exists (t +:+ suffix k). by rewrite app_assoc_s.
Qed.

Lemma aux_graph_inj sp r s k k' :
  url_in sp r → url_in sp s → graph_iri (aux r k) = graph_iri (aux s k') → r = s.
Proof.
  intros Hr Hs. unfold graph_iri, aux_graph. rewrite (aux_iri sp r k Hr), (aux_iri sp s k' Hs).
  intros E%app_inj_l_s%app_inj_l_s%app_inj_l_s. destruct k, k'.
  apply app_inj_r_s in E. by apply (url_in_eq sp).
Qed.

Lemma plain_graph_inj sp r s : url_in sp r → url_in sp s → graph_iri r = graph_iri s → r = s.
Proof.
  intros Hr Hs. unfold graph_iri, resource_graph. rewrite (url_iri sp r Hr), (url_iri sp s Hs).
  intros E%app_inj_l_s. by apply (url_in_eq sp).
Qed.

(** ** A concrete IRI syntax, for the witnesses *)
Definition toy_iri : IriSyntax := λ s,
  negb (contains_char " "%char s || contains_char "<"%char s || contains_char ">"%char s).

(** * Properties *)

(** C20: the classification of auxiliary URLs is the inverse of [aux]: a request
    path resolves to an auxiliary exactly when it is [/.aux], the path of a
    URL that resolves in its own right and is no auxiliary, and the suffix of
    the kind; the auxiliary is then the one that URL derives.  In particular
    no auxiliary has an auxiliary, and a reserved path has none. *)
Theorem resolve_aux_iff `{IriSyntax} (sp : StorageSpace) (Hsp : space_wf sp) (p : string) (a : AuxUrl) :
  resolve sp p = Ok (TAux a) ↔
  ∃ t, resolve sp (r_path (a_subject a)) = Ok t ∧ is_aux t = false ∧ subject_of t = a_subject a ∧
       a = aux (subject_of t) (a_kind a) ∧ iri_valid (graph_iri a) = true ∧
       p = "/" +:+ AUX_SEGMENT +:+ r_path (a_subject a) +:+ suffix (a_kind a).
Proof.
  split.
  - intros Hp. destruct (resolve_subject sp p _ Hsp Hp) as (u & Hu & Hn & Hsub).
    destruct (resolve_Ok_inv sp p _ Hsp Hp) as (_ & _ & _ & _ & _ & Ha & Hv & Hpath).
    exists u. simpl in *. rewrite Hsub. by split_and!.
  - intros (t & Ht & Hn & Hsub & Ha & Hv & ->).
    destruct (resolve_Ok_inv sp _ t Hsp Ht) as (Hst & Hin & Hvs & Hres & _ & _).
    rewrite Hsub in Hin, Hvs, Hres, Ha.
    destruct (url_rooted sp _ Hin) as [rest Hrest]. rewrite Hrest in Hst.
    set (k := a_kind a) in *. set (s := a_subject a) in *.
    assert (is_normalization_stable ("/" +:+ AUX_SEGMENT +:+ r_path s +:+ suffix k) = true) as Hstab.
    { rewrite Hrest. clear -Hst. rewrite stable_eq in Hst |- *. destruct k.
      apply andb_true_iff in Hst as [Hh Hok]. rewrite !contains_char_app. simpl.
      rewrite orb_false_r, Hh. simpl. change (suffix Acl) with ".acl".
      rewrite app_assoc_s, app_nil_l_s.
      destruct (decide (rest = "")) as [->|Hne]; [done|].
      apply orb_true_iff in Hok as [Hok|Hok]; [by apply bool_decide_eq_true in Hok|].
      destruct (exists_last (split_char_nonempty "/"%char rest)) as (init & l & E).
      rewrite E in Hok. apply segments_ok_snoc in Hok as [Hi Hl].
      rewrite (split_char_suffix "/"%char rest ".acl" init l E) by done.
      change (".aux" :: init ++ [l +:+ ".acl"]) with ((AUX_SEGMENT :: init) ++ [l +:+ ".acl"]).
      apply segments_ok_snoc. split; [done|right].
      apply ok_segment_true. destruct l as [|x [|y [|z l]]]; rewrite ?app_cons_s; by split_and!. }
    unfold resolve. rewrite Hstab.
    rewrite (proj2 (starts_with_slash _)) by eauto. cbn [negb].
    rewrite bool_decide_eq_false_2.
    2:{ intros [r Hr]. apply segment_remainder_Some in Hr as [Hr _]. done. }
    rewrite (proj2 (segment_remainder_Some _ _ (r_path s +:+ suffix k))).
    2:{ split; [done|]. right. rewrite Hrest, app_assoc_s. eauto. }
    rewrite (proj2 (split_suffix_Some _ k (r_path s))) by done.
    rewrite (proj2 (not_is_Some_bool _) Hres), Hrest, Hst, <- Hrest.
    rewrite (resource_url_in sp s) by done. cbn [obind negb].
    rewrite <- Ha. unfold graph_iri, aux_graph in Hv. by rewrite Hv.
Qed.

Lemma resolve_aux_iff_witness :
  let H := toy_iri in let sp := mkSpace "https://pod.example/" in
  space_wf sp ∧
  resolve sp "/.aux/box/.acl" = Ok (TAux (aux (mkResourceUrl "/box/" "https://pod.example/box/") Acl)).
Proof.
  intros H sp. assert (Hsp : space_wf sp) by done. split; [done|].
  apply (resolve_aux_iff sp Hsp).
  exists (TContainer (mkContainerUrl (mkResourceUrl "/box/" "https://pod.example/box/"))).
  by split_and!.
Defined.

(** Distinct request paths name distinct graphs, across resources,
    containers and auxiliaries: the graph IRI a request addresses determines
    the path, and so the whole target. *)
Theorem graph_iri_injective `{IriSyntax} (sp : StorageSpace) (Hsp : space_wf sp)
    (p q : string) (t u : Target)
    (Hp : resolve sp p = Ok t) (Hq : resolve sp q = Ok u) :
  (graph_iri t = graph_iri u ↔ p = q) ∧ (graph_iri t = graph_iri u → t = u).
Proof.
  rewrite (resolve_graph_iri sp p t), (resolve_graph_iri sp q u) by done.
  split; [split; [apply app_inj_l_s | by intros ->]|].
  intros E%app_inj_l_s. congruence.
Qed.

Lemma graph_iri_injective_witness :
  let H := toy_iri in let sp := mkSpace "https://pod.example/" in
  let box := mkResourceUrl "/box" "https://pod.example/box" in
  ¬ graph_iri (TResource box) = graph_iri (TAux (aux box Acl)).
Proof.
  intros H sp box E. assert (Hsp : space_wf sp) by done.
  apply (graph_iri_injective sp Hsp "/box" "/.aux/box.acl" (TResource box) (TAux (aux box Acl))
    eq_refl eq_refl) in E. done.
Defined.

(** [ancestors] lists the containers of a URL: exactly the proper prefixes
    of its path that end in a slash, each at the same origin, nearest first,
    and ending with the root; only the root has none. *)
Theorem ancestors_chain `{IriSyntax} (sp : StorageSpace) (Hsp : space_wf sp)
    (p : string) (t : Target) (Hp : resolve sp p = Ok t) :
  let r := subject_of t in
  (∀ c, c ∈ ancestors r ↔
     ends_with "/" (c_path c) = true ∧ graph_iri c = stem sp +:+ c_path c ∧
     ∃ s, s ≠ "" ∧ r_path r = c_path c +:+ s) ∧
  StronglySorted longer (ancestors r) ∧
  (if bool_decide (r_path r = "/") then ancestors r = []
   else ∃ c, last (ancestors r) = Some c ∧ root sp = Some c).
Proof.
  intros r. destruct (resolve_Ok_inv sp p t Hsp Hp) as (_ & Hin & _ & _ & _ & _). fold r in Hin.
  split_and!.
  - intros c. rewrite (ancestors_spec sp r c Hin). split.
    + intros ([Hroot Hi] & He & Hs). by split_and!.
    + intros (He & Hi & s & Hs & Hpath). split_and!; [|done|by exists s].
      split; [|done]. destruct (url_rooted sp r Hin) as [rest Hrest]. rewrite Hrest in Hpath.
      fold (c_path c). destruct (c_path c) as [|x cp] eqn:E; [done|].
      rewrite !app_cons_s in Hpath. injection Hpath as <- _. by exists cp.
  - by apply (ancestors_sorted sp).
  - case_bool_decide as Hroot.
    + rewrite (ancestors_unfold sp r Hin). by rewrite (proj2 (parent_None sp r Hin)).
    + eexists. split; [by apply (ancestors_root sp)|].
      assert (iri_valid (base sp) = true) as Hv.
      { unfold space_wf, new_space in Hsp. destruct (negb _); [done|].
        destruct (negb _); [done|]. by destruct (iri_valid (base sp)). }
      unfold root. rewrite resolve_plain by done. unfold resource. simpl.
      rewrite app_nil_r_s, Hv. simpl. by rewrite <- stem_base.
Qed.

Lemma ancestors_chain_witness :
  let H := toy_iri in let sp := mkSpace "https://pod.example/" in
  let r := mkResourceUrl "/a/b/c.ttl" "https://pod.example/a/b/c.ttl" in
  (c_path <$> ancestors r = ["/a/b/"; "/a/"; "/"]) ∧ StronglySorted longer (ancestors r).
Proof.
  intros H sp r. assert (Hsp : space_wf sp) by done. split; [done|].
  apply (ancestors_chain sp Hsp "/a/b/c.ttl" (TResource r) eq_refl).
Defined.

(** The check that a request path is stable is the check that normalizing
    it (dropping the fragment, the empty segments and the dot segments) leaves
    it as it is, and every normalized path is stable. *)
Theorem normalization_stable_iff (p : string) (Hroot : starts_with "/" p = true) :
  (is_normalization_stable p = true ↔ normalize p = p) ∧
  normalize (normalize p) = normalize p.
Proof.
  apply starts_with_slash in Hroot as [rest ->].
  assert (∃ r, normalize ("/" +:+ rest) = "/" +:+ r) as [r Hr] by (unfold normalize; eauto).
  pose proof (stable_normalize rest) as Hs. split.
  - split; [apply normalize_stable|]. intros E. by rewrite <- E.
  - rewrite Hr in Hs |- *. by apply normalize_stable.
Qed.

Lemma normalization_stable_iff_witness :
  starts_with "/" "/a//b/../c/" = true ∧ normalize "/a//b/../c/" = "/a/c/" ∧
  ¬ is_normalization_stable "/a//b/../c/" = true.
Proof.
  split; [done|]. split; [done|]. intros Hst.
  by apply (normalization_stable_iff "/a//b/../c/" eq_refl) in Hst.
Defined.

(** A rooted path that does not end in a slash. *)
Lemma plain_end s : s ≠ "" → (∀ a, s ≠ a +:+ "/") → ends_with "/" ("/" +:+ s) = false.
Proof.
  intros Hs Hns. apply not_true_iff_false. intros [a Ha]%ends_with_true.
  destruct a as [|x a]; [by injection Ha|]. rewrite !app_cons_s in Ha.
  injection Ha as _ Ha. by eapply Hns.
Qed.

Lemma plain_end_strip s : s ≠ "" → (∀ a, s ≠ a +:+ "/") → strip_suffix "/" ("/" +:+ s) = None.
Proof.
  intros Hs Hns. apply strip_suffix_None. intros a Ha.
  pose proof (plain_end s Hs Hns) as Hx. by rewrite Ha, ends_with_app in Hx.
Qed.

(** What the counterpart has to be, for its path to resolve to it. *)
Definition answers_to (r q : ResourceUrl) : Prop :=
  is_normalization_stable (r_path q) = true ∧ reserved_segment (r_path q) = None ∧
  ends_with "/" (r_path q) = negb (ends_with "/" (r_path r)) ∧ slash_counterpart q = Some r.

Lemma slash_added `{IriSyntax} sp r q : url_in sp r → r_path r ≠ "/" → slash_counterpart r = Some q →
  is_normalization_stable (r_path r) = true → reserved_segment (r_path r) = None →
  r_path q = r_path r +:+ "/" → url_in sp q → answers_to r q.
Proof.
  intros Hin Hne E Hst Hres Hpair Hq. destruct (url_rooted sp r Hin) as [s Hs].
  assert (s ≠ "") as Hsn by (by intros ->).
  assert (∀ a, s ≠ a +:+ "/") as Hns.
  { intros a ->. unfold slash_counterpart in E. rewrite Hs, app_cons_s, app_nil_l_s in E.
    change (String "/" (a +:+ "/")) with (("/" +:+ a) +:+ "/") in E.
    rewrite strip_suffix_app in E. simpl in E. injection E as E.
    rewrite <- E in Hpair. simpl in Hpair. rewrite Hs in Hpair.
    apply (f_equal String.length) in Hpair. rewrite !length_app_s in Hpair. simpl in Hpair. lia. }
  unfold answers_to. rewrite Hpair, Hs, app_assoc_s. split_and!.
  - rewrite stable_add_slash by done. by rewrite <- Hs.
  - apply reserved_add_slash; [done|]. by rewrite <- Hs.
  - rewrite (plain_end s) by done. by rewrite <- app_assoc_s, ends_with_app.
  - unfold slash_counterpart. rewrite Hpair, strip_suffix_app, Hs. simpl. f_equal.
    apply (url_in_eq sp); [by eapply url_in_with|done|done].
Qed.

Lemma slash_dropped `{IriSyntax} sp r q : url_in sp r → url_in sp q →
  is_normalization_stable (r_path r) = true → reserved_segment (r_path r) = None →
  r_path r = r_path q +:+ "/" → answers_to r q.
Proof.
  intros Hin Hq Hst Hres Hpair. destruct (url_rooted sp r Hin) as [s Hs], (url_rooted sp q Hq) as [s' Hs'].
  assert (s = s' +:+ "/") as ->.
  { rewrite Hs, Hs', app_assoc_s in Hpair. by apply app_inj_l_s in Hpair. }
  assert (s' ≠ "") as Hsn.
  { intros ->. rewrite Hs in Hst. done. }
  assert (∀ a, s' ≠ a +:+ "/") as Hns.
  { intros a ->. rewrite Hs, app_assoc_s in Hst.
    change ("/" +:+ "/") with "//" in Hst. by rewrite stable_no_double in Hst. }
  unfold answers_to. rewrite Hs'. split_and!.
  - rewrite <- stable_add_slash by done. by rewrite <- Hs.
  - apply reserved_drop_slash. by rewrite <- Hs.
  - rewrite plain_end by done. by rewrite Hpair, ends_with_app.
  - unfold slash_counterpart. rewrite Hs', plain_end_strip by done. f_equal.
    apply (url_in_eq sp); [|done|simpl; by rewrite Hs, app_assoc_s].
    apply url_in_with with (s' +:+ "/"); [done|by rewrite app_assoc_s].
Qed.

(** The trailing slash pair.  Only the root has no counterpart; for every
    other resource or container the counterpart is another URL, of the other
    shape, whose counterpart is the URL itself, and it is addressable: its
    path resolves to it (given that it forms a valid IRI, which
    [debug_assert!] claims). *)
Theorem slash_counterpart_pair `{IriSyntax} (sp : StorageSpace) (Hsp : space_wf sp)
    (p : string) (t : Target) (Hp : resolve sp p = Ok t) (Ht : is_aux t = false) :
  match slash_counterpart (subject_of t) with
  | None => p = "/"
  | Some q =>
      p ≠ "/" ∧ slash_counterpart q = Some (subject_of t) ∧
      ends_with "/" (r_path q) = negb (ends_with "/" p) ∧
      (iri_valid (r_iri q) = true →
       ∃ u, resolve sp (r_path q) = Ok u ∧ is_aux u = false ∧ subject_of u = q)
  end.
Proof.
  destruct (resolve_Ok_inv sp p t Hsp Hp) as (_ & Hin & Hv & Hres & Hst & Hcase).
  assert (r_path (subject_of t) = p) as Hpath by (destruct t; [apply Hcase..|done]).
  remember (subject_of t) as r eqn:Er. clear Er Hcase Ht Hp t.
  destruct (slash_counterpart r) as [q|] eqn:E.
  2:{ apply (slash_counterpart_None sp r Hin) in E. congruence. }
  assert (p ≠ "/") as Hne.
  { rewrite <- Hpath. intros Hx. apply (slash_counterpart_None sp r Hin) in Hx. congruence. }
  destruct (slash_counterpart_Some sp r q Hin E) as [Hq Hpair]. rewrite <- Hpath in *.
  assert (answers_to r q) as (Hqst & Hqres & Hqe & Hback).
  { destruct Hpair; [by apply (slash_added sp)|by apply (slash_dropped sp)]. }
  split_and!; [done..|]. intros Hvq.
  rewrite resolve_plain; [|done| |done].
  2: { apply starts_with_slash. by destruct Hq. }
  rewrite resource_url_in by done. simpl. eexists; split; [done|].
  destruct (as_container _) as [c|] eqn:Ec; [|done].
  by apply as_container_Some in Ec as [<- _].
Qed.

Lemma slash_counterpart_pair_witness :
  let H := toy_iri in let sp := mkSpace "https://pod.example/" in
  let box := mkResourceUrl "/box" "https://pod.example/box" in
  ∃ q, slash_counterpart box = Some q ∧ slash_counterpart q = Some box.
Proof.
  intros H sp box. assert (Hsp : space_wf sp) by done.
  eexists; split; [reflexivity|].
  apply (slash_counterpart_pair sp Hsp "/box" (TResource box) eq_refl eq_refl).
Defined.
