(* ===== verification/Rdf.v ===== *)
(** Media types, RDF versions and content negotiation ([rdf.rs]). *)
From S2P Require Import Prelude Str.
From Stdlib Require Import ZArith Floats.SpecFloat Sorting.Sorted.
Open Scope list_scope.

(** * [f32], as quality values use it

    [v.parse::<f32>()] of the standard library: an optional sign, then
    [inf], [infinity] or [nan] in any case, or decimal digits with a point and
    an exponent, correctly rounded to single precision. *)
Definition f32 : Type := spec_float.

Definition digit_value (a : ascii) : Z := Z.of_nat (nat_of_ascii a) - 48.

Fixpoint digits_value (acc : Z) (s : string) : Z :=
  match s with
  | "" => acc
  | String a s' => digits_value (10 * acc + digit_value a)%Z s'
  end.

(** The longest prefix of digits, and the rest. *)
Fixpoint span_digits (s : string) : string * string :=
  match s with
  | String a s' =>
      if is_ascii_digit a then let (d, r) := span_digits s' in (String a d, r) else ("", s)
  | "" => ("", "")
  end.

Definition parse_sign (s : string) : bool * string :=
  match s with
  | String "-" s' => (true, s')
  | String "+" s' => (false, s')
  | _ => (false, s)
  end.

Definition all_digits (s : string) : bool := all_chars is_ascii_digit s.

(** The exponent part: nothing, or [e] with a signed run of digits. *)
Definition parse_exponent (s : string) : option Z :=
  match s with
  | "" => Some 0%Z
  | String a s' =>
      if Ascii.eqb (lower_char a) "e" then
        let (neg, ds) := parse_sign s' in
        if bool_decide (ds = "") || negb (all_digits ds) then None
        else Some (if neg then (- digits_value 0 ds)%Z else digits_value 0 ds)
      else None
  end.

(** [n * 10 ^ e], rounded to the nearest [f32]. *)
Definition f32_of_decimal (neg : bool) (n e : Z) : f32 :=
  match n with
  | Z.pos m =>
      match (if 0 <=? e then (n * 10 ^ e, 1) else (n, 10 ^ (- e)))%Z with
      | (Z.pos num, Z.pos den) =>
          SFdiv 24 128 (S754_finite neg num 0) (S754_finite false den 0)
      | _ => S754_zero neg
      end
  | _ => S754_zero neg
  end.

Definition parse_f32 (s : string) : option f32 :=
  let (neg, body) := parse_sign s in
  if eq_ignore_ascii_case body "inf" || eq_ignore_ascii_case body "infinity"
  then Some (S754_infinity neg)
  else if eq_ignore_ascii_case body "nan" then Some S754_nan
  else
    let (int, rest) := span_digits body in
    let (frac, rest) :=
      match rest with String "." r => span_digits r | _ => ("", rest) end in
    if bool_decide (int = "") && bool_decide (frac = "") then None else
    e ← parse_exponent rest;
    Some (f32_of_decimal neg (digits_value 0 (int +:+ frac)) (e - Z.of_nat (String.length frac))).

Definition f32_zero : f32 := S754_zero false.
Definition f32_one : f32 := S754_finite false 8388608 (-23).

(** * RDF versions *)
Inductive RdfVersion : Type := Rdf11 | Rdf12Basic | Rdf12.

#[export] Instance RdfVersion_eq_dec : EqDecision RdfVersion.
Proof. solve_decision. Defined.

(** The derived order is the order of the variants. *)
Definition version_rank (v : RdfVersion) : nat :=
  match v with Rdf11 => 0 | Rdf12Basic => 1 | Rdf12 => 2 end.
Definition version_leb (a b : RdfVersion) : bool := Nat.leb (version_rank a) (version_rank b).
Definition version_ltb (a b : RdfVersion) : bool := Nat.ltb (version_rank a) (version_rank b).
Definition version_max (a b : RdfVersion) : RdfVersion := if version_leb a b then b else a.

Definition label (v : RdfVersion) : string :=
  match v with Rdf11 => "1.1" | Rdf12Basic => "1.2-basic" | Rdf12 => "1.2" end.

Definition version_of_label (value : string) : option RdfVersion :=
  if bool_decide (value = "1.1") then Some Rdf11
  else if bool_decide (value = "1.2-basic") then Some Rdf12Basic
  else if bool_decide (value = "1.2") then Some Rdf12
  else None.

(** The loop of [RdfVersion::from_media_type] over the parameters. *)
Fixpoint version_params (found : option RdfVersion) (ps : list string)
    : option (option RdfVersion) :=
  match ps with
  | [] => Some found
  | p :: ps =>
      match split_once "="%char (trim p) with
      | None => None
      | Some (name, value) =>
          if negb (eq_ignore_ascii_case (trim name) "version") then version_params found ps
          else match version_of_label (trim value) with
               | Some v => version_params (Some v) ps
               | None => None
               end
      end
  end.

Definition from_media_type (mt : string) : option RdfVersion :=
  found ← version_params None (tail (split_char ";"%char mt));
  Some (default Rdf11 found).

(** * Media types *)

(** The first part of a split, which has at least one. *)
Definition first_part (c : ascii) (s : string) : string := default "" (head (split_char c s)).

Definition media_type (ct : string) : string := trim (first_part ";"%char ct).

Definition is_tchar (b : ascii) : bool :=
  is_ascii_alphanumeric b || contains_char b "!#$%&'*+-.^_`|~".

Definition is_token (t : string) : bool := negb (bool_decide (t = "")) && all_chars is_tchar t.

Definition is_media_type_byte (b : ascii) : bool := is_tchar b || contains_char b "/;= ".

(** [HeaderValue::from_str(s).is_ok()], of the [http] crate. *)
Class HeaderSyntax : Type := header_valid : string → bool.

Record MediaType : Type := mkMediaType { mt_raw : string; mt_header : string }.

#[export] Instance MediaType_eq_dec : EqDecision MediaType.
Proof. solve_decision. Defined.

Definition media_param_ok (p : string) : bool :=
  match split_once "="%char (trim p) with
  | Some (name, value) => is_token name && is_token value
  | None => false
  end.

Definition parse_media_type `{HeaderSyntax} (s : string) : option MediaType :=
  let s := trim s in
  if negb (all_chars is_media_type_byte s) then None else
  match split_char ";"%char s with
  | [] => None
  | first :: parts =>
      match split_once "/"%char (trim first) with
      | None => None
      | Some (ty, sub) =>
          if negb (is_token ty) || negb (is_token sub) then None else
          if negb (forallb media_param_ok parts) then None else
          if header_valid s then Some (mkMediaType s s) else None
      end
  end.

Definition essence (mt : MediaType) : string := to_ascii_lowercase (media_type (mt_raw mt)).

(** * Formats *)
Inductive Format : Type := Turtle | NTriples | JsonLd | TriG | NQuads.

#[export] Instance Format_eq_dec : EqDecision Format.
Proof. solve_decision. Defined.

Definition Format_ALL : list Format := [Turtle; NTriples; JsonLd; TriG; NQuads].

Inductive Shape : Type := ShapeGraph | ShapeDataset.

#[export] Instance Shape_eq_dec : EqDecision Shape.
Proof. solve_decision. Defined.

Definition format_media_type (f : Format) : string :=
  match f with
  | Turtle => "text/turtle"
  | NTriples => "application/n-triples"
  | JsonLd => "application/ld+json"
  | TriG => "application/trig"
  | NQuads => "application/n-quads"
  end.

Definition from_content_type (ct : string) : option Format :=
  let mt := to_ascii_lowercase (media_type ct) in
  head (filter (λ f, format_media_type f = mt) Format_ALL).

(** [RdfFormat::supports_datasets] of oxigraph. *)
Class DatasetFormats : Type := supports_datasets : Format → bool.

Definition carries_dataset `{DatasetFormats} (f : Format) : bool := supports_datasets f.

(** * [Accept] *)
Record ranked : Type := Ranked {
  rk_q : f32;
  rk_pos : nat;
  rk_range : string;
  rk_whole : string
}.

(** The quality of an entry: its first [q=] parameter that parses. *)
Definition q_of_params (bits : list string) : f32 :=
  default f32_one
    (head (omap (λ p, v ← strip_prefix "q=" (trim p); parse_f32 v) bits)).

Definition accept_entry (i : nat) (part : string) : ranked :=
  let bits := split_char ";"%char part in
  Ranked (q_of_params (tail bits)) i (trim (default "" (head bits))) (trim part).

(** The comparator of the sort: quality descending, incomparable qualities as
    equal, then position. *)
Definition ranked_compare (a b : ranked) : comparison :=
  match default Eq (SFcompare (rk_q b) (rk_q a)) with
  | Eq => Nat.compare (rk_pos a) (rk_pos b)
  | c => c
  end.

Definition ranked_less (a b : ranked) : bool :=
  match ranked_compare a b with Lt => true | _ => false end.

(** A stable sort: each element moves left past those it is less than.  The
    prefix is kept last-first.  [ranked_compare] never says [Eq] of two
    entries, so where it is a total order (no NaN) the result is the only
    sorted one, [ranked_accept_sorted]. *)
Fixpoint insert_left (x : ranked) (rp : list ranked) : list ranked :=
  match rp with
  | [] => [x]
  | y :: rp' => if ranked_less x y then y :: insert_left x rp' else x :: rp
  end.

Definition sort_ranked (l : list ranked) : list ranked :=
  reverse (foldl (λ rp x, insert_left x rp) [] l).

Definition ranked_accept (accept : string) : list ranked :=
  sort_ranked (imap accept_entry (split_char ","%char accept)).

(** How specifically a media range names a type, [None] when it does not. *)
Definition specificity (essence type_wildcard range : string) : option nat :=
  if bool_decide (range = essence) then Some 3
  else if bool_decide (range = type_wildcard) then Some 2
  else if bool_decide (range = "*/*") then Some 1
  else None.

Fixpoint best_range (essence type_wildcard : string) (best : option (nat * f32))
    (l : list ranked) : option (nat * f32) :=
  match l with
  | [] => best
  | e :: l =>
      let best :=
        match specificity essence type_wildcard (to_ascii_lowercase (rk_range e)) with
        | None => best
        | Some s =>
            match best with
            | Some (s0, _) => if Nat.ltb s0 s then Some (s, rk_q e) else best
            | None => Some (s, rk_q e)
            end
        end in
      best_range essence type_wildcard best l
  end.

Definition accept_allows (accept : string) (mt : MediaType) : bool :=
  let accept := trim accept in
  if bool_decide (accept = "") then true else
  let ess := essence mt in
  let type_wildcard := first_part "/"%char ess +:+ "/*" in
  match best_range ess type_wildcard None (ranked_accept accept) with
  | Some (_, q) => SFltb f32_zero q
  | None => false
  end.

Section negotiate.
Context `{DatasetFormats}.

Definition fallback_formats : list Format :=
  omap from_content_type ["text/turtle"; "application/ld+json"].

(** [iter().find(f)]. *)
Definition find_format (f : Format → bool) : option Format :=
  head (filter (λ x, f x = true) fallback_formats).

Definition usable (shape : Shape) (f : Format) : bool :=
  bool_decide (shape = ShapeGraph) || carries_dataset f.

Definition rejected_ranges (ranked : list ranked) : list string :=
  map (λ e, to_ascii_lowercase (rk_range e))
    (filter (λ e, SFeqb (rk_q e) f32_zero && negb (ends_with "/*" (rk_range e)) = true) ranked).

Definition not_rejected (ranked : list ranked) (f : Format) : bool :=
  negb (bool_decide (format_media_type f ∈ rejected_ranges ranked)).

(** [opt.filter(p)]. *)
Definition ofilter {A : Type} (p : A → bool) (o : option A) : option A :=
  a ← o; if p a then Some a else None.

Definition or_else {A : Type} (a b : option A) : option A :=
  match a with Some _ => a | None => b end.

(** The candidate of one entry in the first pass, and in the lax second one. *)
Definition candidate (shape : Shape) (stored : option Format) (all : list ranked)
    (range : string) : option Format :=
  let ok f := usable shape f && not_rejected all f in
  let range := to_ascii_lowercase range in
  if bool_decide (range = "*/*") then or_else (ofilter ok stored) (find_format ok)
  else if bool_decide (range = "text/*") then ofilter ok (from_content_type "text/turtle")
  else if bool_decide (range = "application/*") then find_format ok
  else ofilter (usable shape) (from_content_type range).

Definition lax_candidate (stored : option Format) (all : list ranked)
    (range : string) : option Format :=
  let ok := not_rejected all in
  let range := to_ascii_lowercase range in
  if bool_decide (range = "*/*") then or_else (ofilter ok stored) (find_format ok)
  else if bool_decide (range = "text/*") then ofilter ok (from_content_type "text/turtle")
  else if bool_decide (range = "application/*") then find_format ok
  else ofilter ok (from_content_type range).

(** One pass over the ranked entries. *)
Fixpoint negotiate_pass (cand : string → option Format) (l : list ranked)
    : option (Format * RdfVersion) :=
  match l with
  | [] => None
  | e :: l =>
      if SFeqb (rk_q e) f32_zero then negotiate_pass cand l else
      match from_media_type (rk_whole e) with
      | None => negotiate_pass cand l
      | Some version =>
          match cand (rk_range e) with
          | Some f => Some (f, version)
          | None => negotiate_pass cand l
          end
      end
  end.

Definition negotiate (accept : string) (shape : Shape) (stored : option Format)
    : option (Format * RdfVersion) :=
  let accept := trim accept in
  if bool_decide (accept = "") then
    (λ f, (f, Rdf11)) <$> or_else (ofilter (usable shape) stored) (find_format (usable shape))
  else
    let ranked := ranked_accept accept in
    or_else (negotiate_pass (candidate shape stored ranked) ranked)
            (negotiate_pass (lax_candidate stored ranked) ranked).
End negotiate.

(** * Specification *)

(** No quality is NaN: the comparator is then a total order. *)
Definition no_nan (e : ranked) : Prop := rk_q e ≠ S754_nan.

(** The entries of an [Accept] list, in the order they are written. *)
Definition accept_entries (accept : string) : list ranked :=
  imap accept_entry (split_char ","%char accept).

(** How specifically an entry names a media type. *)
Definition entry_specificity (mt : MediaType) (e : ranked) : option nat :=
  specificity (essence mt) (first_part "/"%char (essence mt) +:+ "/*")
    (to_ascii_lowercase (rk_range e)).

(** A media range admits a format. *)
Definition range_admits (range : string) (f : Format) : Prop :=
  range = "*/*" ∨ (range = "text/*" ∧ f = Turtle) ∨ range = "application/*" ∨
  from_content_type range = Some f.

(** An entry that negotiation considers at all. *)
Definition considered (e : ranked) : Prop :=
  SFeqb (rk_q e) f32_zero = false ∧ is_Some (from_media_type (rk_whole e)).

(** * Lemmas *)

(** ** The order of qualities *)
Definition sf_key (x : spec_float) : Z * Z * Z :=
  match x with
  | S754_infinity true => (-2, 0, 0)
  | S754_finite true m e => (-1, - e, - Z.pos m)
  | S754_zero _ | S754_nan => (0, 0, 0)
  | S754_finite false m e => (1, e, Z.pos m)
  | S754_infinity false => (2, 0, 0)
  end%Z.

Definition lex_compare (a b : Z * Z * Z) : comparison :=
  match Z.compare a.1.1 b.1.1 with
  | Eq => match Z.compare a.1.2 b.1.2 with Eq => Z.compare a.2 b.2 | c => c end
  | c => c
  end.

Lemma SFcompare_key x y :
  x ≠ S754_nan → y ≠ S754_nan → SFcompare x y = Some (lex_compare (sf_key x) (sf_key y)).
Proof.
  intros Hx Hy. destruct x as [[]|[]| |[] m e], y as [[]|[]| |[] m' e']; try done.
  - unfold lex_compare. simpl. rewrite Z.compare_opp.
    rewrite (Z.compare_antisym e e').
    by destruct (e ?= e')%Z.
Qed.

Definition lex_lt (a b : Z * Z * Z) : Prop :=
  (a.1.1 < b.1.1 ∨ (a.1.1 = b.1.1 ∧ (a.1.2 < b.1.2 ∨ (a.1.2 = b.1.2 ∧ a.2 < b.2))))%Z.

Lemma lex_compare_spec a b :
  match lex_compare a b with
  | Eq => a = b
  | Lt => lex_lt a b
  | Gt => lex_lt b a
  end.
Proof.
  destruct a as [[a1 a2] a3], b as [[b1 b2] b3]. unfold lex_compare, lex_lt; simpl.
  destruct (Z.compare_spec a1 b1); [|lia|lia].
  destruct (Z.compare_spec a2 b2); [|lia|lia].
  destruct (Z.compare_spec a3 b3); [by subst|lia|lia].
Qed.

Lemma ranked_less_spec a b :
  no_nan a → no_nan b →
  ranked_less a b = true ↔
  lex_lt (sf_key (rk_q b)) (sf_key (rk_q a)) ∨
  (sf_key (rk_q b) = sf_key (rk_q a) ∧ rk_pos a < rk_pos b).
Proof.
  intros Ha Hb. unfold ranked_less, ranked_compare. rewrite SFcompare_key by done. simpl.
  pose proof (lex_compare_spec (sf_key (rk_q b)) (sf_key (rk_q a))) as Hs.
  destruct (sf_key (rk_q b)) as [[b1 b2] b3], (sf_key (rk_q a)) as [[a1 a2] a3].
  unfold lex_lt in *. simpl in *. destruct (lex_compare _ _); simpl.
  - injection Hs as -> -> ->. destruct (Nat.compare_spec (rk_pos a) (rk_pos b));
      (split; [|intros [?|[_ ?]]; lia || done]); try done; intros _; right; split; done || lia.
  - split; [by left|done].
  - split; [done|]. intros [?|[[= -> -> ->] _]]; lia.
Qed.

(** An entry may stand before another. *)
Definition before (a b : ranked) : Prop := ranked_less b a = false.

Lemma before_spec a b :
  no_nan a → no_nan b →
  before a b ↔
  lex_lt (sf_key (rk_q b)) (sf_key (rk_q a)) ∨
  (sf_key (rk_q b) = sf_key (rk_q a) ∧ rk_pos a <= rk_pos b).
Proof.
  intros Ha Hb. unfold before. rewrite <- not_true_iff_false, ranked_less_spec by done.
  destruct (sf_key (rk_q b)) as [[b1 b2] b3], (sf_key (rk_q a)) as [[a1 a2] a3].
  unfold lex_lt; simpl. split.
  - intros Hn. destruct (decide (b1 = a1 ∧ b2 = a2 ∧ b3 = a3)) as [(-> & -> & ->)|Hd].
    + right. split; [done|]. destruct (decide (rk_pos a <= rk_pos b)); [done|].
      exfalso. apply Hn. right. split; [done|lia].
    + left. lia.
  - intros [L|[E L]] [L'|[E' L']]; simplify_eq; lia.
Qed.

Lemma before_trans a b c :
  no_nan a → no_nan b → no_nan c → before a b → before b c → before a c.
Proof.
  intros Ha Hb Hc. rewrite !before_spec by done. unfold lex_lt.
  destruct (sf_key (rk_q a)) as [[a1 a2] a3], (sf_key (rk_q b)) as [[b1 b2] b3],
    (sf_key (rk_q c)) as [[c1 c2] c3]; simpl.
  intros [L|[E L]] [L'|[E' L']]; simplify_eq; [left; lia..|].
  right. split; [done|lia].
Qed.

Lemma less_before a b : no_nan a → no_nan b → ranked_less a b = true → before a b.
Proof.
  intros Ha Hb. rewrite ranked_less_spec, before_spec by done.
  intros [?|[? ?]]; [by left|right; split; [done|lia]].
Qed.

Lemma insert_left_perm x rp : insert_left x rp ≡ₚ x :: rp.
Proof.
  induction rp as [|y rp IH]; simpl; [done|]. destruct (ranked_less x y); [|done].
  rewrite IH. by constructor.
Qed.

Lemma insert_left_sorted x rp :
  no_nan x → Forall no_nan rp → StronglySorted (flip before) rp →
  StronglySorted (flip before) (insert_left x rp).
Proof.
  intros Hx Hn Hs. induction Hs as [|y rp Hs IH Hy]; simpl; [by repeat constructor|].
  apply Forall_cons in Hn as [Hny Hn].
  destruct (ranked_less x y) eqn:E.
  - constructor; [by apply IH|]. rewrite insert_left_perm. constructor; [|done].
    by apply less_before.
  - constructor; [by constructor|]. constructor; [done|].
    rewrite Forall_forall in Hy, Hn |- *. intros z Hz. unfold flip in *.
    eapply (before_trans z y x); auto.
Qed.

Lemma foldl_insert_perm l rp : foldl (λ rp x, insert_left x rp) rp l ≡ₚ l ++ rp.
Proof.
  revert rp. induction l as [|x l IH]; intros rp; simpl; [done|].
  rewrite IH, insert_left_perm. by rewrite Permutation_middle.
Qed.

Lemma sort_ranked_perm l : sort_ranked l ≡ₚ l.
Proof. unfold sort_ranked. rewrite reverse_Permutation, foldl_insert_perm. by rewrite app_nil_r. Qed.

Lemma foldl_insert_sorted l rp :
  Forall no_nan l → Forall no_nan rp → StronglySorted (flip before) rp →
  StronglySorted (flip before) (foldl (λ rp x, insert_left x rp) rp l).
Proof.
  intros Hl. revert rp. induction Hl as [|x l Hx Hl IH]; intros rp Hrp Hs; simpl; [done|].
  apply IH; [|by apply insert_left_sorted]. rewrite insert_left_perm. by constructor.
Qed.

Lemma StronglySorted_snoc {A} (R : A → A → Prop) l x :
  StronglySorted R l → Forall (λ y, R y x) l → StronglySorted R (l ++ [x]).
Proof.
  induction 1 as [|y l Hs IH Hy]; intros Hx; simpl; [by repeat constructor|].
  apply Forall_cons in Hx as [Hyx Hx]. constructor; [by apply IH|].
  apply Forall_app. split; [done|]. by repeat constructor.
Qed.

Lemma StronglySorted_reverse {A} (R : A → A → Prop) l :
  StronglySorted (flip R) l → StronglySorted R (reverse l).
Proof.
  induction 1 as [|x l Hs IH Hx]; [constructor|]. rewrite reverse_cons.
  apply StronglySorted_snoc; [done|]. by rewrite Forall_reverse.
Qed.

Lemma ranked_accept_perm a : ranked_accept a ≡ₚ accept_entries a.
Proof. apply sort_ranked_perm. Qed.

Lemma ranked_accept_sorted a :
  Forall no_nan (accept_entries a) → StronglySorted before (ranked_accept a).
Proof. intros Hn. apply StronglySorted_reverse, foldl_insert_sorted; [done|constructor..]. Qed.

(** ** The best range *)

Definition spec_of (ess wild : string) (e : ranked) : option nat :=
  specificity ess wild (to_ascii_lowercase (rk_range e)).

(** What the loop answers from a best range so far: the first of the most
    specific entries, or what it had. *)
Definition first_of (ess wild : string) (l : list ranked) (s : nat) (q : f32) : Prop :=
  ∃ l1 e l2, l = l1 ++ e :: l2 ∧ spec_of ess wild e = Some s ∧ rk_q e = q ∧
    (∀ e', e' ∈ l1 → spec_of ess wild e' ≠ Some s).

Definition best_found (ess wild : string) (best : option (nat * f32)) (l : list ranked) (r : option (nat * f32)) : Prop :=
  match r with
  | None => best = None ∧ Forall (λ e, spec_of ess wild e = None) l
  | Some (s, q) =>
      (∀ e s', e ∈ l → spec_of ess wild e = Some s' → s' <= s) ∧
      (∀ s' q', best = Some (s', q') → s' <= s) ∧
      (best = Some (s, q) ∨ (∀ q', best ≠ Some (s, q')) ∧ first_of ess wild l s q)
  end.

Lemma first_of_head ess wild e l s : spec_of ess wild e = Some s → first_of ess wild (e :: l) s (rk_q e).
Proof. intros E. exists [], e, l. split_and!; [done..|]. intros ? Hx. by apply elem_of_nil in Hx. Qed.

Lemma first_of_cons ess wild e l s q : spec_of ess wild e ≠ Some s →
  first_of ess wild l s q → first_of ess wild (e :: l) s q.
Proof.
  intros Hn (l1 & e' & l2 & -> & Hs & Hq & Hl1). exists (e :: l1), e', l2. split_and!; [done..|].
  intros e'' [->|?]%elem_of_cons; auto.
Qed.

Lemma most_cons ess wild e l s : (∀ n, spec_of ess wild e = Some n → n <= s) →
  (∀ e' n, e' ∈ l → spec_of ess wild e' = Some n → n <= s) →
  ∀ e' n, e' ∈ e :: l → spec_of ess wild e' = Some n → n <= s.
Proof. intros He Hl e' n [->|?]%elem_of_cons; eauto. Qed.

(** An entry that does not name the type, one that is more specific than the
    best so far, and one that is not. *)
Lemma best_skip ess wild e l best r : spec_of ess wild e = None →
  best_found ess wild best l r → best_found ess wild best (e :: l) r.
Proof.
  intros E. destruct r as [[s q]|]; [|intros [-> ?]; split; [done|by constructor]].
  intros (Hl & Hb & Hc). split_and!; [apply most_cons; [congruence|done]|done|].
  destruct Hc as [Hc|[Hne Hf]]; [by left|right]. split; [done|]. apply first_of_cons; [congruence|done].
Qed.

Lemma best_take ess wild e l best n r : spec_of ess wild e = Some n →
  (∀ s q, best = Some (s, q) → s < n) →
  best_found ess wild (Some (n, rk_q e)) l r → best_found ess wild best (e :: l) r.
Proof.
  intros E Hlt. destruct r as [[s q]|]; [|by intros [? _]].
  intros (Hl & Hb & Hc). specialize (Hb _ _ eq_refl). split_and!.
  - apply most_cons; [|done]. rewrite E. naive_solver.
  - intros s' q' Hq. specialize (Hlt _ _ Hq). lia.
  - right. split; [intros q' Hq; specialize (Hlt _ _ Hq); lia|].
    destruct Hc as [[= <- <-]|[Hne Hf]]; [by apply first_of_head|].
    apply first_of_cons; [|done]. rewrite E. intros [= ->]. by eapply Hne.
Qed.

Lemma best_keep ess wild e l s0 q0 n r : spec_of ess wild e = Some n → n <= s0 →
  best_found ess wild (Some (s0, q0)) l r → best_found ess wild (Some (s0, q0)) (e :: l) r.
Proof.
  intros E Hge. destruct r as [[s q]|]; [|by intros [? _]].
  intros (Hl & Hb & Hc). pose proof (Hb _ _ eq_refl) as Hs0. split_and!; [|done|].
  - apply most_cons; [|done]. rewrite E. intros ? [= <-]. lia.
  - destruct Hc as [Hc|[Hne Hf]]; [by left|right]. split; [done|]. apply first_of_cons; [|done].
    rewrite E. intros [= ->]. apply (Hne q0). repeat f_equal. lia.
Qed.

Lemma best_range_spec ess wild l best : best_found ess wild best l (best_range ess wild best l).
Proof.
  revert best. induction l as [|e l IH]; intros best; simpl.
  - destruct best as [[s q]|]; [|done]. split_and!; [|naive_solver|by left].
    intros e s' He. by apply elem_of_nil in He.
  - fold (spec_of ess wild e). destruct (spec_of ess wild e) as [n|] eqn:E; [|by apply best_skip].
    destruct best as [[s0 q0]|]; [destruct (Nat.ltb_spec s0 n)|].
    + eapply best_take; [done| |apply IH]. naive_solver.
    + eapply best_keep; [done..|apply IH].
    + by eapply best_take; [done| |apply IH].
Qed.

Lemma elem_of_split_before l1 e l2 e' :
  StronglySorted before (l1 ++ e :: l2) → e' ∈ l1 ++ e :: l2 → e' ∉ l1 → e' = e ∨ before e e'.
Proof.
  intros Hs He Hn. apply elem_of_app in He as [?|[->|He]%elem_of_cons]; [done|by left|right].
  induction l1 as [|x l1 IH]; simpl in Hs.
  - inversion Hs as [|? ? ? Hf]; subst. rewrite Forall_forall in Hf. auto.
  - inversion Hs; subst. apply IH; [done|]. intros Hx. apply Hn. by right.
Qed.

Lemma positive_before a b :
  no_nan a → no_nan b → before a b → SFltb f32_zero (rk_q b) = true →
  SFltb f32_zero (rk_q a) = true.
Proof.
  intros Ha Hb Hab. unfold SFltb. rewrite !SFcompare_key by done. simpl.
  apply before_spec in Hab; [|done..].
  pose proof (lex_compare_spec (0, 0, 0)%Z (sf_key (rk_q b))) as H1.
  pose proof (lex_compare_spec (0, 0, 0)%Z (sf_key (rk_q a))) as H2.
  destruct (sf_key (rk_q b)) as [[b1 b2] b3], (sf_key (rk_q a)) as [[a1 a2] a3].
  unfold lex_lt in *; simpl in *.
  destruct (lex_compare (0, 0, 0)%Z (b1, b2, b3)); [done| |done]. intros _.
  destruct (lex_compare (0, 0, 0)%Z (a1, a2, a3)); [|done|]; exfalso;
    destruct Hab as [L|[E L]]; simplify_eq; lia.
Qed.

(** ** Negotiation *)

Lemma or_else_Some {A} (a b : option A) x :
  or_else a b = Some x ↔ a = Some x ∨ (a = None ∧ b = Some x).
Proof. destruct a; naive_solver. Qed.

Lemma ofilter_Some {A} (p : A → bool) (o : option A) x :
  ofilter p o = Some x ↔ o = Some x ∧ p x = true.
Proof.
  destruct o as [a|]; simpl; [|naive_solver].
  destruct (p a) eqn:E; split; [by intros [= ->]|by intros [[= ->] _]|done|].
  intros [[= ->] ?]. congruence.
Qed.

Lemma head_filter {A} (P : A → Prop) `{∀ x, Decision (P x)} l x :
  head (filter P l) = Some x → P x ∧ x ∈ l.
Proof.
  intros Hh. destruct (filter P l) as [|y l'] eqn:E; [done|]. injection Hh as ->.
  apply (list_elem_of_filter P). rewrite E. by left.
Qed.

Lemma find_format_Some f x : find_format f = Some x → f x = true.
Proof. intros Hx. by apply head_filter in Hx as [? _]. Qed.

Lemma negotiate_pass_Some cand l f v :
  negotiate_pass cand l = Some (f, v) →
  ∃ e, e ∈ l ∧ considered e ∧ from_media_type (rk_whole e) = Some v ∧ cand (rk_range e) = Some f.
Proof.
  induction l as [|e l IH]; simpl; [done|].
  destruct (SFeqb _ _) eqn:Q; [intros Hx; destruct (IH Hx) as (e' & ? & ?); exists e'; split; [by right|done]|].
  destruct (from_media_type _) as [w|] eqn:F;
    [|intros Hx; destruct (IH Hx) as (e' & ? & ?); exists e'; split; [by right|done]].
  destruct (cand _) as [g|] eqn:C.
  - intros [= -> ->]. exists e. split_and!; [by left| |done|done]. split; [done|]. by rewrite F.
  - intros Hx; destruct (IH Hx) as (e' & ? & ?); exists e'; split; [by right|done].
Qed.

Lemma negotiate_pass_None cand l :
  negotiate_pass cand l = None ↔ ∀ e, e ∈ l → considered e → cand (rk_range e) = None.
Proof.
  induction l as [|e l IH]; simpl.
  - split; [|done]. intros _ e He. by apply elem_of_nil in He.
  - setoid_rewrite elem_of_cons. unfold considered in *.
    destruct (SFeqb (rk_q e) f32_zero) eqn:Q; [rewrite IH; naive_solver congruence|].
    destruct (from_media_type _) as [w|] eqn:F.
    + destruct (cand _) as [g|] eqn:C.
      * split; [done|]. intros Hx. rewrite Hx in C; [done|by left|].
        split; [done|]. by rewrite F.
      * rewrite IH. naive_solver congruence.
    + rewrite IH. split; [|naive_solver]. intros Hx e' [->|?]; [|auto].
      rewrite F. intros [_ [? ?]]. done.
Qed.

Lemma lower_idem a : lower_char (lower_char a) = lower_char a.
Proof. by destruct a as [[] [] [] [] [] [] [] []]. Qed.

Lemma candidate_admits `{DatasetFormats} shape stored all range f :
  candidate shape stored all range = Some f →
  usable shape f = true ∧ range_admits (to_ascii_lowercase range) f.
Proof.
  unfold candidate, range_admits. repeat case_bool_decide; intros Hc.
  - apply or_else_Some in Hc as [Hc|[_ Hc]].
    + apply ofilter_Some in Hc as [_ [? _]%andb_true_iff]. naive_solver.
    + apply find_format_Some in Hc as [? _]%andb_true_iff. naive_solver.
  - apply ofilter_Some in Hc as [Hf [? _]%andb_true_iff]. injection Hf as <-. eauto.
  - apply find_format_Some in Hc as [? _]%andb_true_iff. naive_solver.
  - apply ofilter_Some in Hc as [? ?]. naive_solver.
Qed.

Lemma lax_candidate_admits stored all range f :
  lax_candidate stored all range = Some f →
  not_rejected all f = true ∧ range_admits (to_ascii_lowercase range) f.
Proof.
  unfold lax_candidate, range_admits. repeat case_bool_decide; intros Hc.
  - apply or_else_Some in Hc as [Hc|[_ Hc]].
    + apply ofilter_Some in Hc as [_ ?]. naive_solver.
    + apply find_format_Some in Hc. naive_solver.
  - apply ofilter_Some in Hc as [Hf ?]. injection Hf as <-. naive_solver.
  - apply find_format_Some in Hc. naive_solver.
  - apply ofilter_Some in Hc as [? ?]. naive_solver.
Qed.

(** * Properties *)

(** [accept_allows] is decided by specificity: a header with no NaN quality
    admits a media type exactly when it is blank, or one of the most specific
    entries that name the type has a positive quality. *)
Theorem accept_allows_iff (accept : string) (mt : MediaType)
    (Hnan : Forall no_nan (accept_entries (trim accept))) :
  accept_allows accept mt = true ↔
  trim accept = "" ∨
  ∃ e s, e ∈ accept_entries (trim accept) ∧ entry_specificity mt e = Some s ∧
    (∀ e' s', e' ∈ accept_entries (trim accept) → entry_specificity mt e' = Some s' → s' <= s) ∧
    SFltb f32_zero (rk_q e) = true.
Proof.
  unfold accept_allows. case_bool_decide as Hblank; [naive_solver|].
  pose proof (ranked_accept_perm (trim accept)) as Hperm.
  pose proof (ranked_accept_sorted (trim accept) Hnan) as Hsort.
  set (entries := accept_entries (trim accept)) in *. rewrite <- Hperm in Hnan.
  pose proof (best_range_spec (essence mt) (first_part "/"%char (essence mt) +:+ "/*")
    (ranked_accept (trim accept)) None) as Hbest.
  fold (spec_of (essence mt) (first_part "/"%char (essence mt) +:+ "/*")) in Hbest.
  destruct (best_range _ _ _ _) as [[s q]|].
  - destruct Hbest as (Hmax & _ & [Hn|(_ & l1 & e & l2 & El & Hs & <- & Hl1)]); [done|].
    rewrite El in *. rewrite Forall_forall in Hnan.
    assert (e ∈ l1 ++ e :: l2) as He by (apply elem_of_app; right; left).
    split.
    + intros Hq. right. exists e, s. split_and!; [by rewrite <- Hperm|done| |done].
      intros e' s' He'. rewrite <- Hperm in He'. by apply Hmax.
    + intros [?|(e' & s' & He' & Hs' & Hmax' & Hq)]; [done|]. rewrite <- Hperm in He'.
      assert (s' = s) as ->.
      { pose proof (Hmax e' s' He' Hs').
        assert (e ∈ entries) as He2 by by rewrite <- Hperm.
        pose proof (Hmax' e s He2 Hs). lia. }
      destruct (elem_of_split_before l1 e l2 e' Hsort He') as [->|Hb]; [|done|].
      { intros Hin. by apply (Hl1 e' Hin). }
      eapply positive_before; [..|done]; eauto.
  - destruct Hbest as [_ Hnone]. split; [done|].
    intros [?|(e & s & He & Hs & _)]; [done|]. rewrite <- Hperm in He.
    rewrite Forall_forall in Hnone. specialize (Hnone e He).
    unfold entry_specificity in Hs. unfold spec_of in Hnone. congruence.
Qed.

Lemma accept_allows_iff_witness :
  let mt := mkMediaType "image/png" "image/png" in
  accept_allows "text/html;q=0, image/*, */*;q=0" mt = true.
Proof.
  intros mt.
  assert (accept_entries (trim "text/html;q=0, image/*, */*;q=0") =
    [Ranked f32_zero 0 "text/html" "text/html;q=0"; Ranked f32_one 1 "image/*" "image/*";
     Ranked f32_zero 2 "*/*" "*/*;q=0"]) as E by (vm_compute; reflexivity).
  assert (entry_specificity mt (Ranked f32_zero 0 "text/html" "text/html;q=0") = None) as S0
    by (vm_compute; reflexivity).
  assert (entry_specificity mt (Ranked f32_one 1 "image/*" "image/*") = Some 2) as S1
    by (vm_compute; reflexivity).
  assert (entry_specificity mt (Ranked f32_zero 2 "*/*" "*/*;q=0") = Some 1) as S2
    by (vm_compute; reflexivity).
  apply accept_allows_iff; rewrite E; [by repeat constructor|].
  right. exists (Ranked f32_one 1 "image/*" "image/*"), 2.
  split_and!; [right; left|exact S1| |vm_compute; reflexivity].
  intros e' s' He' Hs'. rewrite !elem_of_cons, elem_of_nil in He'.
  destruct He' as [->|[->|[->|[]]]]; simplify_eq; lia.
Defined.

(** What negotiation chooses for a header that names something: some
    considered entry (quality not zero, known version) admits the chosen
    format and names the chosen version; and a format that cannot carry the
    resource is chosen only when no considered entry can be served in full. *)
Theorem negotiate_sound `{DatasetFormats} (accept : string) (shape : Shape)
    (stored : option Format) (f : Format) (v : RdfVersion)
    (Hne : trim accept ≠ "") (Hneg : negotiate accept shape stored = Some (f, v)) :
  (∃ e, e ∈ accept_entries (trim accept) ∧ considered e ∧
     from_media_type (rk_whole e) = Some v ∧ range_admits (to_ascii_lowercase (rk_range e)) f) ∧
  (usable shape f = false →
     not_rejected (ranked_accept (trim accept)) f = true ∧
     ∀ e, e ∈ accept_entries (trim accept) → considered e →
       candidate shape stored (ranked_accept (trim accept)) (rk_range e) = None).
Proof.
  unfold negotiate in Hneg. rewrite bool_decide_eq_false_2 in Hneg by done.
  pose proof (ranked_accept_perm (trim accept)) as Hperm.
  apply or_else_Some in Hneg as [Hneg|[Hstrict Hneg]].
  - apply negotiate_pass_Some in Hneg as (e & He & Hc & Hv & Hf).
    apply candidate_admits in Hf as [Hu Ha]. split; [|congruence].
    exists e. rewrite <- Hperm. by split_and!.
  - apply negotiate_pass_Some in Hneg as (e & He & Hc & Hv & Hf).
    apply lax_candidate_admits in Hf as [Hn Ha]. split.
    + exists e. rewrite <- Hperm. by split_and!.
    + intros _. split; [done|]. intros e'. rewrite <- Hperm.
      by apply (proj1 (negotiate_pass_None _ _) Hstrict).
Qed.

Lemma negotiate_sound_witness :
  let H : DatasetFormats := λ f, match f with Turtle | NTriples => false | _ => true end in
  negotiate "text/turtle;version=1.2, application/json" ShapeDataset None = Some (Turtle, Rdf12) ∧
  not_rejected (ranked_accept "text/turtle;version=1.2, application/json") Turtle = true.
Proof.
  intros H. assert (negotiate "text/turtle;version=1.2, application/json" ShapeDataset None
                    = Some (Turtle, Rdf12)) as E by (vm_compute; reflexivity).
  split; [exact E|]. assert (trim "text/turtle;version=1.2, application/json" ≠ "") as Hne by done.
  exact (proj1 (proj2 (negotiate_sound _ _ _ _ _ Hne E) eq_refl)).
Defined.

(** A media type that parses is the trimmed input, is drawn from the media
    type alphabet, so that it holds no quote, backslash, angle bracket or line
    break and can stand inside a SPARQL literal and a header unescaped, and
    parses to itself again. *)
Theorem media_type_safe `{HeaderSyntax} (s : string) (m : MediaType)
    (Hp : parse_media_type s = Some m) :
  mt_raw m = trim s ∧ mt_header m = mt_raw m ∧
  all_chars is_media_type_byte (mt_raw m) = true ∧
  Forall (λ n, contains_char (ascii_of_nat n) (mt_raw m) = false) [34; 92; 60; 62; 10; 13] ∧
  parse_media_type (mt_raw m) = Some m.
Proof.
  pose proof Hp as Hp'. unfold parse_media_type in Hp'.
  destruct (all_chars is_media_type_byte (trim s)) eqn:A; [|done]. simpl in Hp'.
  destruct (split_char _ _) as [|first parts]; [done|].
  destruct (split_once _ _) as [[ty sub]|]; [|done].
  destruct (negb _ || negb _); [done|]. destruct (negb _); [done|].
  destruct (header_valid _); [|done]. injection Hp' as <-. simpl.
  split_and!; [done..| |].
  - repeat (apply Forall_cons; split; [by apply (all_chars_contains _ _ _ A)|]). done.
  - rewrite <- Hp. unfold parse_media_type. by rewrite trim_idem.
Qed.

Lemma media_type_safe_witness :
  let H : HeaderSyntax := λ _, true in
  ∃ m, parse_media_type " text/plain; charset=utf-8 " = Some m ∧ mt_raw m = "text/plain; charset=utf-8".
Proof.
  intros H. eexists. split; [reflexivity|].
  assert (parse_media_type " text/plain; charset=utf-8 " =
    Some (mkMediaType "text/plain; charset=utf-8" "text/plain; charset=utf-8")) as E by reflexivity.
  exact (proj1 (media_type_safe _ _ E)).
Defined.

(** The [version] parameter: a type without parameters is RDF 1.1; a
    label written as a parameter is read back as its version; an unknown label
    is no version; and a parameter without an equals sign, such as the empty
    one after a trailing semicolon, is no version either, although it names no
    label. *)
Theorem version_parameter (mt : string) (Hmt : contains_char ";"%char mt = false) :
  from_media_type mt = Some Rdf11 ∧
  (∀ v, from_media_type (mt +:+ ";version=" +:+ label v) = Some v) ∧
  (∀ l, contains_char ";"%char l = false → version_of_label (trim l) = None →
        contains_char "="%char l = false → trim_end is_whitespace l = l →
        from_media_type (mt +:+ ";version=" +:+ l) = None) ∧
  from_media_type (mt +:+ ";") = None.
Proof.
  unfold from_media_type. split_and!.
  - by rewrite split_char_none.
  - intros v. change (";version=" +:+ label v) with (String ";" ("version=" +:+ label v)).
    rewrite split_char_app by done. by destruct v.
  - intros l Hl Hv He Ht. change (";version=" +:+ l) with (String ";" ("version=" +:+ l)).
    rewrite split_char_app by done. cbn [tail].
    rewrite split_char_none by (by rewrite contains_char_app, Hl).
    cbn [version_params].
    assert (trim ("version=" +:+ l) = "version=" +:+ l) as ->.
    { unfold trim. rewrite !app_cons_s, app_nil_l_s. simpl. rewrite Ht. by destruct l. }
    rewrite (proj2 (split_once_Some "="%char _ "version" l)) by (by split). simpl.
    by rewrite Hv.
  - by rewrite split_char_app.
Qed.

Lemma version_parameter_witness :
  from_media_type "text/turtle;version=1.2-basic" = Some Rdf12Basic ∧
  from_media_type "text/turtle;" = None.
Proof.
  destruct (version_parameter "text/turtle" eq_refl) as (_ & Hv & _ & Hs).
  split; [exact (Hv Rdf12Basic) | exact Hs].
Defined.
