(* ===== verification/Dataset.v ===== *)
(** What a resource is ([dataset.rs]), and the RDF codec ([rdf.rs]).

    [Dataset] is a client's view, blank nodes included; [Skolemized] is the
    store's, on ground terms.  Uuids come from a supply [nat → string], one
    per minted node. *)
From S2P Require Import Prelude Str Terms Space Rdf.
Open Scope list_scope.

Definition RESERVED_PREFIX : string := "urn:quadpod:".

Definition is_reserved_iri (iri : string) : bool :=
  match get_upto (String.length RESERVED_PREFIX) iri with
  | Some p => eq_ignore_ascii_case p RESERVED_PREFIX
  | None => false
  end.

(** A dataset as a client wrote it or will read it. *)
Definition Dataset : Type := list quad.

(** * Ground terms *)
Inductive GroundTerm : Type :=
| GTNamed (n : string)
| GTLiteral (l : literal)
| GTTriple (subject predicate : string) (object : GroundTerm).

Inductive GroundGraphName : Type :=
| GGDefault
| GGNamed (n : string).

Record GroundQuad : Type := mkGroundQuad {
  g_subject : string;
  g_predicate : string;
  g_object : GroundTerm;
  g_graph : GroundGraphName
}.

#[export] Instance GroundTerm_eq_dec : EqDecision GroundTerm.
Proof. solve_decision. Defined.
#[export] Instance GroundGraphName_eq_dec : EqDecision GroundGraphName.
Proof. solve_decision. Defined.
#[export] Instance GroundQuad_eq_dec : EqDecision GroundQuad.
Proof. solve_decision. Defined.

(** A dataset as the store holds it. *)
Definition Skolemized : Type := list GroundQuad.

(** [GraphName::from], [Term::from] and [Quad::from] of the ground types. *)
Definition graph_of_ground (g : GroundGraphName) : graph_name :=
  match g with GGDefault => GDefault | GGNamed n => GNamed n end.

Fixpoint term_of_ground (t : GroundTerm) : term :=
  match t with
  | GTNamed n => TNamed n
  | GTLiteral l => TLiteral l
  | GTTriple s p o => TTriple (SNamed s) p (term_of_ground o)
  end.

Definition quad_of_ground (q : GroundQuad) : quad :=
  Quad (SNamed (g_subject q)) (g_predicate q) (term_of_ground (g_object q))
       (graph_of_ground (g_graph q)).

(** * Client datasets *)

(** The loop of [Dataset::rdf_version], with its [continue] and [break]. *)
Fixpoint rdf_version_from (found : RdfVersion) (d : Dataset) : RdfVersion :=
  match d with
  | [] => found
  | q :: d =>
      match
        match q_object q with
        | TTriple _ _ _ => Some Rdf12
        | TLiteral l =>
            if bool_decide (is_Some (l_direction l)) then Some Rdf12Basic else None
        | _ => None
        end
      with
      | None => rdf_version_from found d
      | Some here =>
          let found := version_max found here in
          if bool_decide (found = Rdf12) then found else rdf_version_from found d
      end
  end.

Definition rdf_version (d : Dataset) : RdfVersion := rdf_version_from Rdf11 d.

Definition is_triple_term (t : term) : bool :=
  match t with TTriple _ _ _ => true | _ => false end.

(** One quad of [project_to]: [Some None] when the quad goes, [None] when
    [expect] fires on a directional literal without a language. *)
Definition project_quad (target : RdfVersion) (q : quad) : option (option quad) :=
  if version_ltb target Rdf12 && is_triple_term (q_object q) then Some None else
  match q_object q with
  | TLiteral l =>
      if version_ltb target Rdf12Basic && bool_decide (is_Some (l_direction l)) then
        language ← l_language l;
        Some (Some (Quad (q_subject q) (q_predicate q)
          (TLiteral (language_literal (l_value l) language)) (q_graph q)))
      else Some (Some q)
  | _ => Some (Some q)
  end.

Definition project_to (d : Dataset) (target : RdfVersion) : option Dataset :=
  if version_leb (rdf_version d) target then Some d
  else omap id <$> mapM (project_quad target) d.

(** Appending what is not there yet: the [seen] loop of [named_graphs]. *)
Definition push_new (seen : list string) (n : string) : list string :=
  if bool_decide (n ∈ seen) then seen else seen ++ [n].

Definition named_graphs (d : Dataset) : list string :=
  foldl (λ seen q, match q_graph q with GNamed n => push_new seen n | _ => seen end) [] d.

Definition has_named_graphs (d : Dataset) : bool :=
  existsb (λ q, negb (bool_decide (q_graph q = GDefault))) d.

Definition uses_reserved_namespace (d : Dataset) : bool :=
  existsb (λ q,
    let subject := match q_subject q with SNamed n => is_reserved_iri n | _ => false end in
    let object := match q_object q with TNamed n => is_reserved_iri n | _ => false end in
    let graph := match q_graph q with GNamed n => is_reserved_iri n | _ => false end in
    subject || object || graph || is_reserved_iri (q_predicate q)) d.

Definition default_graph_only (d : Dataset) : Dataset :=
  filter (λ q, q_graph q = GDefault) d.

Definition triples_of (d : Dataset) : list triple := map triple_of_quad d.

(** * Skolemization *)
Definition SKOLEM_PREFIX : string := "urn:quadpod:bnode:".

(** The blank nodes that have been given an IRI. *)
Notation minted := (gmap string string).

Section skolemize.
Context (uuid : nat → string).

Definition iri_for (b : string) (m : minted) : string * minted :=
  match m !! b with
  | Some n => (n, m)
  | None => let n := SKOLEM_PREFIX +:+ uuid (size m) in (n, <[b := n]> m)
  end.

Definition ground_subject (s : named_or_blank) (m : minted) : string * minted :=
  match s with SNamed n => (n, m) | SBlank b => iri_for b m end.

Fixpoint ground_term (t : term) (m : minted) : GroundTerm * minted :=
  match t with
  | TNamed n => (GTNamed n, m)
  | TBlank b => let (n, m) := iri_for b m in (GTNamed n, m)
  | TLiteral l => (GTLiteral l, m)
  | TTriple s p o =>
      let (s, m) := ground_subject s m in
      let (o, m) := ground_term o m in
      (GTTriple s p o, m)
  end.

Definition ground_graph (g : graph_name) (m : minted) : GroundGraphName * minted :=
  match g with
  | GDefault => (GGDefault, m)
  | GNamed n => (GGNamed n, m)
  | GBlank b => let (n, m) := iri_for b m in (GGNamed n, m)
  end.

Definition ground_quad (q : quad) (m : minted) : GroundQuad * minted :=
  let (s, m) := ground_subject (q_subject q) m in
  let (o, m) := ground_term (q_object q) m in
  let (g, m) := ground_graph (q_graph q) m in
  (mkGroundQuad s (q_predicate q) o g, m).

Fixpoint ground_quads (d : Dataset) (m : minted) : Skolemized * minted :=
  match d with
  | [] => ([], m)
  | q :: d =>
      let (q, m) := ground_quad q m in
      let (d, m) := ground_quads d m in
      (q :: d, m)
  end.

Definition skolemize (d : Dataset) : Skolemized := (ground_quads d ∅).1.
End skolemize.

(** [Skolemized::from_store]. *)
Definition ground_of_subject (s : named_or_blank) : option string :=
  match s with SNamed n => Some n | SBlank _ => None end.

Fixpoint ground_of_term (t : term) : option GroundTerm :=
  match t with
  | TNamed n => Some (GTNamed n)
  | TLiteral l => Some (GTLiteral l)
  | TBlank _ => None
  | TTriple s p o =>
      s ← ground_of_subject s;
      o ← ground_of_term o;
      Some (GTTriple s p o)
  end.

Definition ground_of_quad (q : quad) : option GroundQuad :=
  s ← ground_of_subject (q_subject q);
  o ← ground_of_term (q_object q);
  g ← match q_graph q with
      | GDefault => Some GGDefault
      | GNamed n => Some (GGNamed n)
      | GBlank _ => None
      end;
  Some (mkGroundQuad s (q_predicate q) o g).

Definition from_store (quads : list quad) : option Skolemized := mapM ground_of_quad quads.

Definition sk_named_graphs (d : Skolemized) : list string :=
  foldl (λ seen q, match g_graph q with GGNamed n => push_new seen n | _ => seen end) [] d.

Definition sk_has_named_graphs (d : Skolemized) : bool :=
  existsb (λ q, negb (bool_decide (g_graph q = GGDefault))) d.

(** [BlankNode::new(s).is_ok()]. *)
Class BlankSyntax : Type := blank_valid : string → bool.

Section deskolemize.
Context `{BlankSyntax}.

Definition blank_for (n : string) : option string :=
  suffix ← strip_prefix SKOLEM_PREFIX n;
  let label := filter_chars is_ascii_alphanumeric suffix in
  if blank_valid ("b" +:+ label) then Some ("b" +:+ label) else None.

Definition subject_for (n : string) : named_or_blank :=
  match blank_for n with Some b => SBlank b | None => SNamed n end.

Fixpoint term_for (t : GroundTerm) : term :=
  match t with
  | GTNamed n => match blank_for n with Some b => TBlank b | None => TNamed n end
  | GTLiteral l => TLiteral l
  | GTTriple s p o => TTriple (subject_for s) p (term_for o)
  end.

Definition graph_for (g : GroundGraphName) : graph_name :=
  match g with
  | GGNamed n => match blank_for n with Some b => GBlank b | None => GNamed n end
  | GGDefault => GDefault
  end.

Definition quad_for (q : GroundQuad) : quad :=
  Quad (subject_for (g_subject q)) (g_predicate q) (term_for (g_object q)) (graph_for (g_graph q)).

Definition deskolemize (d : Skolemized) : Dataset := map quad_for d.
End deskolemize.

(** * Validators and the codec *)

(** The third-party parts: [Quad]'s and [Term]'s [Display], SHA-256 in hex, and oxigraph's
    parser and serializer for each format. *)
Class Display : Type := quad_display : quad → string.
Class TermDisplay : Type := term_display : term → string.
Class Hashing : Type := sha256_hex : string → string.
Class RdfLib : Type := {
  rdf_formats :: DatasetFormats;
  rdf_parse : Format → string → string → string + list quad;
  rdf_serialize : Format → list quad → string + string
}.

Inductive RdfError : Type :=
| ParseError (msg : string)
| SerializeError (msg : string)
| UnsupportedType
| UnsupportedRdfVersion (found allowed : RdfVersion).

Definition NL : string := String "010" "".
Definition QUOTE : string := String "034" "".

Section etag.
Context `{Display} `{Hashing}.

(** What the hash is taken of. *)
Definition etag_text (d : Skolemized) (fmt : Format) (served : RdfVersion) : string :=
  let lines := sort_by str_leb (map (λ q, quad_display (quad_of_ground q)) d) in
  foldl (λ h l, h +:+ l +:+ NL)
    (format_media_type fmt +:+ NL +:+ label served +:+ NL) lines.

Definition etag (d : Skolemized) (fmt : Format) (served : RdfVersion) : string :=
  QUOTE +:+ sha256_hex (etag_text d fmt served) +:+ QUOTE.
End etag.

Section codec.
Context `{RdfLib} `{Display}.

(** [Format::parse]. *)
Definition parse (f : Format) (bytes base_iri : string) (declared : RdfVersion)
    : outcome RdfError Dataset :=
  match rdf_parse f base_iri bytes with
  | inl msg => Err (ParseError msg)
  | inr parsed =>
      let found := rdf_version parsed in
      if version_ltb declared found then Err (UnsupportedRdfVersion found declared)
      else Ok parsed
  end.

(** [Format::serialize]. *)
Definition serialize (f : Format) (d : Dataset) : outcome RdfError string :=
  let quads := sort_by (λ a b, str_leb (quad_display a) (quad_display b)) d in
  match rdf_serialize f quads with
  | inl msg => Err (SerializeError msg)
  | inr bytes => Ok bytes
  end.
End codec.

(** * Specification *)

(** The blank nodes of a quad, at every depth. *)
Definition subject_bnodes (s : named_or_blank) : list string :=
  match s with SNamed _ => [] | SBlank b => [b] end.
Fixpoint term_bnodes (t : term) : list string :=
  match t with
  | TNamed _ | TLiteral _ => []
  | TBlank b => [b]
  | TTriple s _ o => subject_bnodes s ++ term_bnodes o
  end.
Definition graph_bnodes (g : graph_name) : list string :=
  match g with GBlank b => [b] | _ => [] end.
Definition quad_bnodes (q : quad) : list string :=
  subject_bnodes (q_subject q) ++ term_bnodes (q_object q) ++ graph_bnodes (q_graph q).

(** The IRIs that name a node or a graph, at every depth. *)
Definition subject_iris (s : named_or_blank) : list string :=
  match s with SNamed n => [n] | SBlank _ => [] end.
Fixpoint term_iris (t : term) : list string :=
  match t with
  | TBlank _ | TLiteral _ => []
  | TNamed n => [n]
  | TTriple s _ o => subject_iris s ++ term_iris o
  end.
Definition graph_iris (g : graph_name) : list string :=
  match g with GNamed n => [n] | _ => [] end.
Definition quad_iris (q : quad) : list string :=
  subject_iris (q_subject q) ++ term_iris (q_object q) ++ graph_iris (q_graph q).

(** Renaming blank nodes. *)
Definition rename_subject (ρ : string → string) (s : named_or_blank) : named_or_blank :=
  match s with SNamed n => SNamed n | SBlank b => SBlank (ρ b) end.
Fixpoint rename_term (ρ : string → string) (t : term) : term :=
  match t with
  | TNamed n => TNamed n
  | TBlank b => TBlank (ρ b)
  | TLiteral l => TLiteral l
  | TTriple s p o => TTriple (rename_subject ρ s) p (rename_term ρ o)
  end.
Definition rename_graph (ρ : string → string) (g : graph_name) : graph_name :=
  match g with GBlank b => GBlank (ρ b) | _ => g end.
Definition rename_quad (ρ : string → string) (q : quad) : quad :=
  Quad (rename_subject ρ (q_subject q)) (q_predicate q) (rename_term ρ (q_object q))
       (rename_graph ρ (q_graph q)).

(** The documented behaviour of the parts that are not the pod's: uuids stay
    distinct when only their hexadecimal digits are kept, and a [b] followed by
    letters and digits is a blank node label. *)
Definition uuids_distinct (uuid : nat → string) : Prop :=
  ∀ i j, filter_chars is_ascii_alphanumeric (uuid i) = filter_chars is_ascii_alphanumeric (uuid j) →
         i = j.
Definition labels_valid `{BlankSyntax} : Prop :=
  ∀ s, all_chars is_ascii_alphanumeric s = true → blank_valid ("b" +:+ s) = true.

(** No IRI of the quad is a skolem IRI, at any depth. *)
Definition skolem_free (q : quad) : Prop :=
  Forall (λ n, strip_prefix SKOLEM_PREFIX n = None) (quad_iris q).

(** No reserved IRI inside a triple term of the quad. *)
Definition nested_clean (q : quad) : Prop :=
  match q_object q with
  | TTriple s p o => Forall (λ n, is_reserved_iri n = false) (term_iris (q_object q))
  | _ => True
  end.

(** A quad that can be written at a version. *)
Definition expressible (v : RdfVersion) (q : quad) : Prop :=
  match q_object q with
  | TTriple _ _ _ => v = Rdf12
  | TLiteral l => is_Some (l_direction l) → v ≠ Rdf11
  | _ => True
  end.

(** A quad without its base direction. *)
Definition drop_direction (q : quad) : quad :=
  match q_object q with
  | TLiteral (Literal v (Some (lang, Some _)) _) =>
      Quad (q_subject q) (q_predicate q) (TLiteral (language_literal v lang)) (q_graph q)
  | _ => q
  end.

(** * Lemmas *)

(** ** Grounding with a fixed naming of the blank nodes *)
Definition ground_subject_by (f : string → string) (s : named_or_blank) : string :=
  match s with SNamed n => n | SBlank b => f b end.
Fixpoint ground_term_by (f : string → string) (t : term) : GroundTerm :=
  match t with
  | TNamed n => GTNamed n
  | TBlank b => GTNamed (f b)
  | TLiteral l => GTLiteral l
  | TTriple s p o => GTTriple (ground_subject_by f s) p (ground_term_by f o)
  end.
Definition ground_graph_by (f : string → string) (g : graph_name) : GroundGraphName :=
  match g with GDefault => GGDefault | GNamed n => GGNamed n | GBlank b => GGNamed (f b) end.
Definition ground_quad_by (f : string → string) (q : quad) : GroundQuad :=
  mkGroundQuad (ground_subject_by f (q_subject q)) (q_predicate q)
    (ground_term_by f (q_object q)) (ground_graph_by f (q_graph q)).

Definition naming (m : minted) (b : string) : string := default "" (m !! b).

Section skolemize_lemmas.
Context (uuid : nat → string) (Huuid : uuids_distinct uuid).

Definition minted_ok (m : minted) : Prop :=
  (∀ b n, m !! b = Some n → ∃ i, i < size m ∧ n = SKOLEM_PREFIX +:+ uuid i) ∧
  (∀ b b' n, m !! b = Some n → m !! b' = Some n → b = b').

(** What a grounding step guarantees: the map grows, and its result is the
    grounding under any larger map. *)
Definition step_ok {A B} (run : A → minted → B * minted) (by_ : (string → string) → A → B)
    (bs : A → list string) : Prop :=
  ∀ x m, minted_ok m →
    let '(r, m') := run x m in
    minted_ok m' ∧ m ⊆ m' ∧ (∀ b, b ∈ bs x → is_Some (m' !! b)) ∧
    (∀ M, m' ⊆ M → r = by_ (naming M) x).

Lemma naming_subseteq m M b n : m ⊆ M → m !! b = Some n → naming M b = n.
Proof. intros Hs Hb. unfold naming. by rewrite (lookup_weaken _ _ _ _ Hb Hs). Qed.

Lemma iri_for_ok : step_ok (iri_for uuid) (λ f b, f b) (λ b, [b]).
Proof.
  intros b m [Hm Hi]. unfold iri_for. destruct (m !! b) as [n|] eqn:E.
  - split_and!; [done|done| |].
    + intros b' ->%list_elem_of_singleton. eauto.
    + intros M HM. symmetry. by eapply naming_subseteq.
  - assert (size (<[b:=SKOLEM_PREFIX +:+ uuid (size m)]> m) = S (size m)) as Hsz
      by by rewrite map_size_insert_None.
    split_and!.
    + split.
      * intros b' n. rewrite Hsz. intros [[<- <-]|[Hne Hb]]%lookup_insert_Some.
        { exists (size m). split; [lia|done]. }
        destruct (Hm _ _ Hb) as (i & Hlt & ->). exists i. split; [lia|done].
      * assert (∀ b' , m !! b' ≠ Some (SKOLEM_PREFIX +:+ uuid (size m))) as Hnew.
        { intros b' Hb. destruct (Hm _ _ Hb) as (i & Hlt & Heq).
          apply app_inj_l_s in Heq. assert (size m = i) by (apply Huuid; by rewrite Heq). lia. }
        intros b1 b2 n [[<- <-]|[H1 H1']]%lookup_insert_Some [[<- H2]|[H2 H2']]%lookup_insert_Some;
          [done| | |by eauto].
        { by apply Hnew in H2'. } { subst n. by apply Hnew in H1'. }
    + by apply insert_subseteq.
    + intros b' ->%list_elem_of_singleton. rewrite lookup_insert_eq. eauto.
    + intros M HM. symmetry. eapply naming_subseteq; [done|]. by rewrite lookup_insert_eq.
Qed.

Lemma ground_subject_ok : step_ok (ground_subject uuid) ground_subject_by subject_bnodes.
Proof.
  intros [n|b] m Hm; simpl.
  - split_and!; [done|done| |done]. intros b Hb. by apply elem_of_nil in Hb.
  - apply (iri_for_ok b m Hm).
Qed.

Lemma ground_term_ok : step_ok (ground_term uuid) ground_term_by term_bnodes.
Proof.
  intros t. induction t as [n|b|l|s p o IH]; intros m Hm; simpl.
  - split_and!; [done|done| |done]. intros b Hb. by apply elem_of_nil in Hb.
  - pose proof (iri_for_ok b m Hm) as Hb. destruct (iri_for uuid b m) as [n m'].
    destruct Hb as (? & ? & ? & Hr). split_and!; [done..|].
    intros M HM. f_equal. by apply Hr.
  - split_and!; [done|done| |done]. intros b Hb. by apply elem_of_nil in Hb.
  - pose proof (ground_subject_ok s m Hm) as Hs. destruct (ground_subject uuid s m) as [s' m1].
    destruct Hs as (Hm1 & Hsub1 & Hb1 & Hr1). specialize (IH m1 Hm1).
    destruct (ground_term uuid o m1) as [o' m2]. destruct IH as (Hm2 & Hsub2 & Hb2 & Hr2).
    split_and!; [done|by trans m1| |].
    + intros b [Hb|Hb]%elem_of_app; [|auto]. destruct (Hb1 b Hb) as [n Hn].
      exists n. by eapply lookup_weaken.
    + intros M HM. f_equal; [apply Hr1; by trans m2|by apply Hr2].
Qed.

Lemma ground_graph_ok : step_ok (ground_graph uuid) ground_graph_by graph_bnodes.
Proof.
  intros [|n|b] m Hm; simpl; [split_and!; [done|done| |done]; intros b Hb; by apply elem_of_nil in Hb..|].
  pose proof (iri_for_ok b m Hm) as Hb. destruct (iri_for uuid b m) as [n m'].
  destruct Hb as (? & ? & ? & Hr). split_and!; [done..|].
  intros M HM. f_equal. by apply Hr.
Qed.

Lemma ground_quad_ok : step_ok (ground_quad uuid) ground_quad_by quad_bnodes.
Proof.
  intros q m Hm. unfold ground_quad, quad_bnodes, ground_quad_by.
  pose proof (ground_subject_ok (q_subject q) m Hm) as Hs.
  destruct (ground_subject uuid (q_subject q) m) as [s m1].
  destruct Hs as (Hm1 & Hsub1 & Hb1 & Hr1).
  pose proof (ground_term_ok (q_object q) m1 Hm1) as Ho.
  destruct (ground_term uuid (q_object q) m1) as [o m2].
  destruct Ho as (Hm2 & Hsub2 & Hb2 & Hr2).
  pose proof (ground_graph_ok (q_graph q) m2 Hm2) as Hg.
  destruct (ground_graph uuid (q_graph q) m2) as [g m3].
  destruct Hg as (Hm3 & Hsub3 & Hb3 & Hr3).
  assert (m1 ⊆ m3) by by trans m2.
  split_and!; [done|by trans m1| |].
  - intros b [Hb|[Hb|Hb]%elem_of_app]%elem_of_app; [| |auto].
    + destruct (Hb1 b Hb) as [n Hn]. exists n. by eapply lookup_weaken.
    + destruct (Hb2 b Hb) as [n Hn]. exists n. by eapply lookup_weaken.
  - intros M HM. rewrite (Hr1 M), (Hr2 M), (Hr3 M); [done|done|by trans m3|by trans m3].
Qed.

Lemma ground_quads_ok : step_ok (ground_quads uuid) (λ f, map (ground_quad_by f)) (mjoin ∘ map quad_bnodes).
Proof.
  intros d. induction d as [|q d IH]; intros m Hm; simpl.
  - split_and!; [done|done| |done]. intros b Hb. by apply elem_of_nil in Hb.
  - pose proof (ground_quad_ok q m Hm) as Hq. destruct (ground_quad uuid q m) as [q' m1].
    destruct Hq as (Hm1 & Hsub1 & Hb1 & Hr1). specialize (IH m1 Hm1).
    destruct (ground_quads uuid d m1) as [d' m2]. destruct IH as (Hm2 & Hsub2 & Hb2 & Hr2).
    split_and!; [done|by trans m1| |].
    + intros b [Hb|Hb]%elem_of_app; [|auto]. destruct (Hb1 b Hb) as [n Hn].
      exists n. by eapply lookup_weaken.
    + intros M HM. f_equal; [apply Hr1; by trans m2|by apply Hr2].
Qed.

Lemma minted_ok_empty : minted_ok ∅.
Proof. split; intros *; rewrite lookup_empty; done. Qed.
End skolemize_lemmas.

(** ** Back to blank nodes *)

Section deskolemize_lemmas.
Context `{BlankSyntax} (Hlabels : labels_valid).

Lemma blank_for_skolem u :
  blank_for (SKOLEM_PREFIX +:+ u) = Some ("b" +:+ filter_chars is_ascii_alphanumeric u).
Proof.
  unfold blank_for. rewrite strip_prefix_app. simpl. rewrite Hlabels; [done|].
  apply all_filter_chars.
Qed.

Lemma blank_for_free n : strip_prefix SKOLEM_PREFIX n = None → blank_for n = None.
Proof. unfold blank_for. by intros ->. Qed.

Context (f ρ : string → string).

Lemma subject_for_by s :
  (∀ b, b ∈ subject_bnodes s → blank_for (f b) = Some (ρ b)) →
  Forall (λ n, strip_prefix SKOLEM_PREFIX n = None) (subject_iris s) →
  subject_for (ground_subject_by f s) = rename_subject ρ s.
Proof.
  intros Hb Hc. unfold subject_for. destruct s as [n|b]; simpl in *.
  - apply Forall_cons in Hc as [Hn _]. by rewrite blank_for_free.
  - by rewrite Hb by left.
Qed.

Lemma term_for_by t :
  (∀ b, b ∈ term_bnodes t → blank_for (f b) = Some (ρ b)) →
  Forall (λ n, strip_prefix SKOLEM_PREFIX n = None) (term_iris t) →
  term_for (ground_term_by f t) = rename_term ρ t.
Proof.
  induction t as [n|b|l|s p o IH]; simpl; intros Hb Hc.
  - apply Forall_cons in Hc as [Hn _]. by rewrite blank_for_free.
  - by rewrite Hb by left.
  - done.
  - apply Forall_app in Hc as [Hs Ho].
    rewrite subject_for_by, IH; [done|..]; try done; intros b ?; apply Hb, elem_of_app; auto.
Qed.

Lemma quad_for_by q :
  (∀ b, b ∈ quad_bnodes q → blank_for (f b) = Some (ρ b)) → skolem_free q →
  quad_for (ground_quad_by f q) = rename_quad ρ q.
Proof.
  unfold quad_bnodes, skolem_free, quad_iris, quad_for, rename_quad. intros Hb Hc.
  apply Forall_app in Hc as [Hs Hc]. apply Forall_app in Hc as [Ho Hg]. simpl. f_equal.
  - apply subject_for_by; [|done]. intros b ?. apply Hb, elem_of_app. by left.
  - apply term_for_by; [|done]. intros b ?. apply Hb, elem_of_app. right.
    apply elem_of_app. by left.
  - destruct (q_graph q) as [|n|b] eqn:E; simpl in *; [done| |].
    + apply Forall_cons in Hg as [Hn _]. by rewrite blank_for_free.
    + rewrite Hb; [done|]. apply elem_of_app. right. apply elem_of_app. right. by left.
Qed.
End deskolemize_lemmas.

Lemma get_upto_app p s :
  is_continuation (default "0"%char (String.get 0 s)) = false →
  get_upto (String.length p) (p +:+ s) = Some p.
Proof.
  intros Hs. induction p as [|c p IH].
  - rewrite app_nil_l_s. destruct s; simpl in *; [done|]. by rewrite Hs.
  - rewrite app_cons_s. simpl. by rewrite IH.
Qed.

Lemma skolem_reserved n s : strip_prefix SKOLEM_PREFIX n = Some s → is_reserved_iri n = true.
Proof.
  intros Hn%strip_prefix_Some. subst. unfold is_reserved_iri.
  change SKOLEM_PREFIX with (RESERVED_PREFIX +:+ "bnode:"). rewrite app_assoc_s.
  by rewrite get_upto_app.
Qed.

Lemma unreserved_skolem_free n : is_reserved_iri n = false → strip_prefix SKOLEM_PREFIX n = None.
Proof.
  intros Hn. destruct (strip_prefix _ _) eqn:E; [|done].
  apply skolem_reserved in E. congruence.
Qed.

(** The [400] check covers every position but the inside of a triple term. *)
Lemma reserved_check_clean d :
  uses_reserved_namespace d = false → Forall nested_clean d → Forall skolem_free d.
Proof.
  intros Hd Hn. unfold uses_reserved_namespace in Hd. apply existsb_false in Hd.
  rewrite !Forall_forall in *. intros q Hq. specialize (Hd q Hq). specialize (Hn q Hq).
  apply orb_false_iff in Hd as [Hd _]. apply orb_false_iff in Hd as [Hd Hg].
  apply orb_false_iff in Hd as [Hs Ho]. unfold skolem_free, quad_iris, nested_clean in *.
  rewrite !Forall_app. split_and!.
  - destruct (q_subject q); simpl in *; [|done]. constructor; [|done]. by apply unreserved_skolem_free.
  - destruct (q_object q); simpl in *; try done.
    + constructor; [|done]. by apply unreserved_skolem_free.
    + eapply Forall_impl; [exact Hn|]. apply unreserved_skolem_free.
  - destruct (q_graph q); simpl in *; try done. constructor; [|done]. by apply unreserved_skolem_free.
Qed.

(** ** Ground data *)
Lemma ground_term_roundtrip t : ground_of_term (term_of_ground t) = Some t.
Proof. induction t as [| |s p o IH]; simpl; [done..|]. by rewrite IH. Qed.

Lemma ground_quad_roundtrip q : ground_of_quad (quad_of_ground q) = Some q.
Proof.
  destruct q as [s p o g]. unfold ground_of_quad. simpl. rewrite ground_term_roundtrip. simpl.
  by destruct g.
Qed.

Lemma term_roundtrip_ground t t' : ground_of_term t = Some t' → term_of_ground t' = t.
Proof.
  revert t'. induction t as [n|b|l|[n|b] p o IH]; intros t' Ht; simpl in Ht; simplify_eq; try done.
  destruct (ground_of_term o) as [o'|] eqn:E; simpl in Ht; simplify_eq/=. f_equal. auto.
Qed.

Lemma quad_roundtrip_ground q q' : ground_of_quad q = Some q' → quad_of_ground q' = q.
Proof.
  destruct q as [[s|s] p o g]; unfold ground_of_quad; simpl; [|done].
  destruct (ground_of_term o) as [o'|] eqn:E; simpl; [|done].
  apply term_roundtrip_ground in E. destruct g; simpl; intros [= <-];
    unfold quad_of_ground; simpl; by rewrite E.
Qed.

Lemma from_store_image quads s : from_store quads = Some s ↔ map quad_of_ground s = quads.
Proof.
  unfold from_store, Skolemized. rewrite mapM_Some. split.
  - induction 1 as [|q g l k Hq _ IH]; simpl; [done|]. by rewrite IH, (quad_roundtrip_ground q).
  - intros <-. induction s as [|g s IH]; simpl; constructor; [|done]. apply ground_quad_roundtrip.
Qed.

#[export] Instance quad_of_ground_inj : Inj (=) (=) quad_of_ground.
Proof. intros q q' E. apply (inj Some). by rewrite <- !ground_quad_roundtrip, E. Qed.

(** Reading back a list that has the members of a ground dataset gives that
    dataset, up to order. *)
Lemma from_store_of_image quads (d : Skolemized) :
  NoDup quads → (∀ q, q ∈ quads ↔ ∃ g, g ∈ d ∧ q = quad_of_ground g) →
  ∃ d', from_store quads = Some d' ∧ d' ≡ₚ remove_dups d.
Proof.
  unfold Skolemized in *. intros Hd Hq. assert (∃ d', map quad_of_ground d' = quads) as [d' <-].
  { assert (∀ q, q ∈ quads → ∃ g, q = quad_of_ground g) as Hg by (intros q; rewrite Hq; naive_solver).
    clear Hd Hq. induction quads as [|q quads IH]; [by exists []|].
    destruct (Hg q ltac:(by left)) as [g ->].
    destruct IH as [d' <-]; [intros q ?; apply Hg; by right|]. by exists (g :: d'). }
  exists d'. split; [by apply from_store_image|].
  apply NoDup_Permutation; [by apply NoDup_fmap_1 in Hd|apply NoDup_remove_dups|].
  intros g. rewrite elem_of_remove_dups. split.
  - intros Hg. destruct (proj1 (Hq (quad_of_ground g))) as (g' & Hg' & E).
    + apply list_elem_of_fmap. eauto.
    + by apply (inj quad_of_ground) in E as ->.
  - intros Hg. assert (quad_of_ground g ∈ map quad_of_ground d') as Hm by (apply Hq; eauto).
    apply list_elem_of_fmap in Hm as (g' & E & Hg'). by apply (inj quad_of_ground) in E as ->.
Qed.

Lemma term_ground_None t : ground_of_term t = None ↔ term_bnodes t ≠ [].
Proof.
  induction t as [n|b|l|[n|b] p o IH]; simpl; try done.
  destruct (ground_of_term o); simpl; [|by rewrite <- IH].
  split; [done|]. intros Hx. by apply IH in Hx.
Qed.

Lemma ground_quad_None q : ground_of_quad q = None ↔ quad_bnodes q ≠ [].
Proof.
  destruct q as [[s|s] p o g]; unfold ground_of_quad, quad_bnodes; simpl; [|done].
  pose proof (term_ground_None o) as Ho. destruct (ground_of_term o); simpl.
  - assert (term_bnodes o = []) as ->.
    { destruct (term_bnodes o); [done|]. by assert (Some g0 = None) as ? by by apply Ho. }
    by destruct g.
  - split; [|done]. intros _. destruct (term_bnodes o); [|done]. by destruct (proj1 Ho eq_refl).
Qed.

(** ** Versions *)
Lemma version_leb_trans a b c : version_leb a b = true → version_leb b c = true → version_leb a c = true.
Proof. by destruct a, b, c. Qed.

Lemma rdf_version_from_leb found d v :
  version_leb (rdf_version_from found d) v = true ↔
  version_leb found v = true ∧ Forall (expressible v) d.
Proof.
  revert found. induction d as [|q d IH]; intros found; simpl; [by split; [|intros []]|].
  rewrite Forall_cons.
  assert (∀ here, (expressible v q ↔ version_leb here v = true) →
    version_leb (if bool_decide (version_max found here = Rdf12) then version_max found here
                 else rdf_version_from (version_max found here) d) v = true ↔
    version_leb found v = true ∧ expressible v q ∧ Forall (expressible v) d) as Hsome.
  { intros here ->. case_bool_decide as E.
    - rewrite E. split.
      + intros Hv. destruct v; try done. split_and!; [by destruct found|by destruct here|].
        apply Forall_forall. intros q' _. unfold expressible. by destruct (q_object q').
      + intros (Hf & Hh & _). by destruct found, here, v.
    - rewrite IH. destruct found, here, v; simpl; naive_solver. }
  unfold expressible in Hsome |- *. destruct (q_object q) as [n|b|l|s p o]; [by rewrite IH; naive_solver..| |].
  - case_bool_decide as Hd.
    + apply Hsome. destruct v; simpl; naive_solver.
    + rewrite IH. naive_solver.
  - apply Hsome. by destruct v.
Qed.

Lemma mapM_Some_forall2 {A B} (f : A → option B) l k :
  mapM f l = Some k ↔ Forall2 (λ x y, f x = Some y) l k.
Proof. apply mapM_Some. Qed.

(** ** Graph names *)
Lemma push_new_spec seen n x : x ∈ push_new seen n ↔ x ∈ seen ∨ x = n.
Proof.
  unfold push_new. case_bool_decide; [naive_solver|].
  rewrite elem_of_app, list_elem_of_singleton. done.
Qed.

Lemma push_new_NoDup seen n : NoDup seen → NoDup (push_new seen n).
Proof.
  intros Hs. unfold push_new. case_bool_decide; [done|].
  apply NoDup_app. split_and!; [done| |apply NoDup_singleton].
  intros x Hx ->%list_elem_of_singleton. done.
Qed.

Lemma sk_named_graphs_spec d x :
  x ∈ sk_named_graphs d ↔ ∃ q, q ∈ d ∧ g_graph q = GGNamed x.
Proof.
  unfold sk_named_graphs.
  assert (∀ seen, x ∈ foldl (λ seen q, match g_graph q with GGNamed n => push_new seen n | _ => seen end) seen d
    ↔ x ∈ seen ∨ ∃ q, q ∈ d ∧ g_graph q = GGNamed x) as Hg.
  { induction d as [|q d IH]; intros seen; simpl.
    - setoid_rewrite elem_of_nil. naive_solver.
    - setoid_rewrite elem_of_cons. rewrite IH. destruct (g_graph q) as [|n] eqn:E.
      + split; [naive_solver|]. intros [?|(q' & [->|?] & ?)]; [by left|congruence|naive_solver].
      + rewrite push_new_spec. split.
        * intros [[?| ->]|?]; naive_solver.
        * intros [?|(q' & [->|?] & E')]; [naive_solver|rewrite E in E'; naive_solver|naive_solver]. }
  rewrite Hg. setoid_rewrite elem_of_nil. naive_solver.
Qed.

Lemma sk_named_graphs_NoDup d : NoDup (sk_named_graphs d).
Proof.
  unfold sk_named_graphs.
  assert (∀ seen, NoDup seen → NoDup (foldl (λ seen q,
    match g_graph q with GGNamed n => push_new seen n | _ => seen end) seen d)) as Hg.
  { induction d as [|q d IH]; intros seen Hs; simpl; [done|]. apply IH.
    destruct (g_graph q); [done|by apply push_new_NoDup]. }
  apply Hg. constructor.
Qed.

Lemma sk_has_named_graphs_spec d :
  sk_has_named_graphs d = true ↔ ∃ q n, q ∈ d ∧ g_graph q = GGNamed n.
Proof.
  unfold sk_has_named_graphs. rewrite existsb_exists. split.
  - intros (q & Hq & Hn). apply negb_true_iff, bool_decide_eq_false in Hn.
    destruct (g_graph q) as [|n] eqn:E; [done|]. exists q, n. by rewrite list_elem_of_In.
  - intros (q & n & Hq & E). exists q. rewrite <- list_elem_of_In. by rewrite E.
Qed.

(** ** Projection *)
Lemma project_quad_spec v q :
  (expressible v q ∧ project_quad v q = Some (Some q)) ∨
  (¬ expressible v q ∧ is_triple_term (q_object q) = true ∧ project_quad v q = Some None) ∨
  (¬ expressible v q ∧ is_triple_term (q_object q) = false ∧
   project_quad v q = Some (Some (drop_direction q)) ∧ expressible v (drop_direction q)).
Proof.
  destruct q as [s p o g]. unfold expressible, project_quad, drop_direction. simpl.
  destruct o as [n|b|[val [[lang [dir|]]|] dt]|ts tp to]; unfold l_direction, l_language; simpl.
  - left. by destruct v.
  - left. by destruct v.
  - destruct v; simpl; [right; right|left; split; [naive_solver|done]..].
    split_and!; [intros Hx; by destruct Hx; eauto|done|done|by intros []].
  - left. split; [by intros [? ?]|]. by destruct v.
  - left. split; [by intros [? ?]|]. by destruct v.
  - destruct v; [right; left|right; left|left]; by split_and!.
Qed.

Lemma project_quads_spec v d :
  ∃ k : list (option quad), mapM (M:=option) (project_quad v) d = Some k ∧
    ∀ q', q' ∈ omap id k ↔ ∃ q, q ∈ d ∧
      ((expressible v q ∧ q' = q) ∨
       (¬ expressible v q ∧ is_triple_term (q_object q) = false ∧ q' = drop_direction q)).
Proof.
  induction d as [|q d (k & Hk & IH)]; simpl.
  { exists []. split; [done|]. setoid_rewrite elem_of_nil. naive_solver. }
  setoid_rewrite elem_of_cons. rewrite Hk.
  destruct (project_quad_spec v q) as [[He ->]|[(He & Ht & ->)|(He & Ht & -> & _)]];
    simpl; (eexists; split; [done|]); intros q'; simpl; rewrite ?elem_of_cons, IH.
  - split; [intros [->|?]; naive_solver|].
    intros (q0 & [->|?] & Hc); [|naive_solver]. left. naive_solver.
  - split; [naive_solver|]. intros (q0 & [->|?] & Hc); [|naive_solver]. exfalso. naive_solver congruence.
  - split; [intros [->|?]; naive_solver|].
    intros (q0 & [->|?] & Hc); [|naive_solver]. left. naive_solver.
Qed.

(** ** The text of a validator *)
Lemma split_lines ls acc :
  Forall (λ l, contains_char "010"%char l = false) ls →
  split_char "010"%char (foldl (λ h l, h +:+ l +:+ NL) (acc +:+ NL) ls) =
  split_char "010"%char acc ++ ls ++ [""].
Proof.
  revert acc. induction ls as [|l ls IH]; intros acc Hls; simpl.
  - unfold NL. by rewrite split_char_cat.
  - apply Forall_cons in Hls as [Hl Hls]. rewrite <- (app_assoc_s (acc +:+ NL) l NL).
    rewrite IH by done. rewrite app_assoc_s. unfold NL at 1.
    change (String "010" "" +:+ l) with (String "010" l).
    rewrite split_char_cat, (split_char_none _ l) by done. by rewrite <- app_assoc.
Qed.

Lemma split_header_lines f v ls :
  Forall (λ l, contains_char "010"%char l = false) ls →
  split_char "010"%char (foldl (λ h l, h +:+ l +:+ NL)
    (format_media_type f +:+ NL +:+ label v +:+ NL) ls) =
  format_media_type f :: label v :: ls ++ [""].
Proof.
  intros Hls. rewrite <- !app_assoc_s, split_lines by done. unfold NL.
  rewrite app_assoc_s. change (String "010" "" +:+ label v) with (String "010" (label v)).
  rewrite split_char_cat, !split_char_none; [done|by destruct v|by destruct f].
Qed.

(** ** A supply of uuids, for the witnesses *)
Definition toy_uuid (n : nat) : string := Nat.iter n (String "a") "".

Lemma toy_uuids_distinct : uuids_distinct toy_uuid.
Proof.
  assert (∀ n, filter_chars is_ascii_alphanumeric (toy_uuid n) = toy_uuid n) as Hf.
  { intros n. apply filter_chars_all. induction n as [|n IH]; [done|]. simpl. by rewrite IH. }
  assert (∀ n, String.length (toy_uuid n) = n) as Hl.
  { intros n. induction n as [|n IH]; [done|]. simpl. by rewrite IH. }
  intros i j. rewrite !Hf. intros E. by rewrite <- (Hl i), E.
Qed.

(** A display of quads, for the witnesses: injective and on one line. *)
Fixpoint positive_string (p : positive) : string :=
  match p with
  | xH => ""
  | xO p => String "0" (positive_string p)
  | xI p => String "1" (positive_string p)
  end.

Definition quad_key (q : quad) : triple * option (string + string) :=
  (triple_of_quad q,
   match q_graph q with GDefault => None | GNamed n => Some (inl n) | GBlank b => Some (inr b) end).

Definition toy_display : Display := λ q, positive_string (encode (quad_key q)).

Lemma toy_display_inj (q q' : quad) :
  @quad_display toy_display q = @quad_display toy_display q' → q = q'.
Proof.
  unfold quad_display, toy_display. intros E.
  assert (∀ p p', positive_string p = positive_string p' → p = p') as Hp.
  { induction p as [p IH|p IH|]; intros [p'|p'|]; simpl; try done; intros [= E']; f_equal; auto. }
  apply Hp, (inj encode) in E. destruct q as [s p o [| |]], q' as [s' p' o' [| |]];
    unfold quad_key, triple_of_quad in E; simpl in E; by simplify_eq.
Qed.

Lemma toy_display_line (q : quad) :
  contains_char "010"%char (@quad_display toy_display q) = false.
Proof.
  unfold quad_display, toy_display. generalize (encode (quad_key q)).
  by induction p as [p IH|p IH|]; simpl.
Qed.

(** * Properties *)

(** Skolemization and its reverse, together, rename. *)
Lemma skolem_renames `{BlankSyntax} (uuid : nat → string) (d : Dataset)
    (Huuid : uuids_distinct uuid) (Hlabels : labels_valid)
    (Hreserved : uses_reserved_namespace d = false) (Hnested : Forall nested_clean d) :
  ∃ ρ : string → string,
    (∀ b b', b ∈ mjoin (map quad_bnodes d) → b' ∈ mjoin (map quad_bnodes d) → ρ b = ρ b' → b = b') ∧
    deskolemize (skolemize uuid d) = map (rename_quad ρ) d.
Proof.
  pose proof (reserved_check_clean d Hreserved Hnested) as Hfree.
  pose proof (ground_quads_ok uuid Huuid d ∅ (minted_ok_empty uuid)) as Hg.
  unfold skolemize. destruct (ground_quads uuid d ∅) as [g m]. simpl.
  destruct Hg as ([Hm Hinj] & _ & Hdom & Hr). rewrite (Hr m) by done. clear Hr g.
  set (ρ := λ b, default "" (blank_for (naming m b))).
  assert (∀ b, b ∈ mjoin (map quad_bnodes d) →
    ∃ i, m !! b = Some (SKOLEM_PREFIX +:+ uuid i) ∧
         blank_for (naming m b) = Some ("b" +:+ filter_chars is_ascii_alphanumeric (uuid i)) ∧
         ρ b = "b" +:+ filter_chars is_ascii_alphanumeric (uuid i)) as Hb.
  { intros b Hb. destruct (Hdom b Hb) as [n Hn]. destruct (Hm b n Hn) as (i & _ & ->).
    assert (blank_for (naming m b) = Some ("b" +:+ filter_chars is_ascii_alphanumeric (uuid i))) as E.
    { unfold naming. rewrite Hn. by apply blank_for_skolem. }
    exists i. split_and!; [done..|]. unfold ρ. by rewrite E. }
  exists ρ. split.
  - intros b b' Hb1 Hb2. destruct (Hb b Hb1) as (i & Hi & _ & ->), (Hb b' Hb2) as (j & Hj & _ & ->).
    intros E%app_inj_l_s%Huuid. subst j. by eapply Hinj.
  - unfold deskolemize. clear Hm Hinj Hdom Hreserved Hnested.
    induction d as [|q d IH]; simpl; [done|]. apply Forall_cons in Hfree as [Hq Hfree]. f_equal.
    + apply quad_for_by; [|done]. intros b Hbq.
      destruct (Hb b) as (i & _ & E & ->); [|done]. simpl. apply elem_of_app. by left.
    + apply IH; [done|]. intros b Hbd. apply Hb. simpl. apply elem_of_app. by right.
Qed.

(** C18: blank nodes survive the store.  For client data that passes the
    reserved-IRI check and hides no reserved IRI inside a triple term, reading
    back what skolemization stored gives the same dataset up to an injective
    renaming of its blank nodes: co-reference is kept, in graph names and
    inside triple terms too, and nothing else changes. *)
Theorem skolem_roundtrip `{BlankSyntax} (uuid : nat → string) (d : Dataset)
    (Huuid : uuids_distinct uuid) (Hlabels : labels_valid)
    (Hreserved : uses_reserved_namespace d = false) (Hnested : Forall nested_clean d) :
  ∃ ρ : string → string,
    (∀ b b', b ∈ mjoin (map quad_bnodes d) → b' ∈ mjoin (map quad_bnodes d) → ρ b = ρ b' → b = b') ∧
    deskolemize (skolemize uuid d) = map (rename_quad ρ) d.
Proof. by apply skolem_renames. Qed.

Lemma skolem_roundtrip_witness :
  let H : BlankSyntax := λ _, true in
  let d := [Quad (SBlank "x") "http://e/p" (TTriple (SBlank "x") "http://e/p" (TBlank "y")) (GBlank "x")] in
  ∃ ρ, deskolemize (skolemize toy_uuid d) = map (rename_quad ρ) d ∧ (ρ "x" = ρ "y" → "x" = "y").
Proof.
  intros H d.
  assert (Hl : labels_valid) by done.
  assert (Hn : Forall nested_clean d) by (by repeat constructor).
  destruct (skolem_roundtrip toy_uuid d toy_uuids_distinct Hl eq_refl Hn) as (ρ & Hinj & Hr).
  exists ρ. split; [exact Hr|]. intros E. apply Hinj; [by left|by do 2 right; left|exact E].
Defined.

(** Reading from the store is parsing: it succeeds exactly on the quads
    that are the image of ground ones, gives back those, and refuses any list
    with a blank node in it, at whatever depth. *)
Theorem from_store_iff (quads : list quad) :
  (∀ s, from_store quads = Some s ↔ map quad_of_ground s = quads) ∧
  (from_store quads = None ↔ ∃ q, q ∈ quads ∧ quad_bnodes q ≠ []).
Proof.
  unfold from_store, Skolemized. split.
  - intros s. apply from_store_image.
  - split.
    + intros Hn. apply mapM_None_1, Exists_exists in Hn as (q & Hq & Hn). exists q.
      by rewrite <- ground_quad_None.
    + intros (q & Hq & Hn). apply ground_quad_None in Hn.
      destruct (mapM ground_of_quad quads) as [s|] eqn:E; [|done].
      apply mapM_Some in E. apply list_elem_of_lookup in Hq as [i Hi].
      destruct (Forall2_lookup_l _ _ _ _ _ E Hi) as (g & _ & Hg). congruence.
Qed.

(** Projecting a dataset to an RDF version is total and gives a dataset of at
    most that version, made of exactly the quads of the original: the expressible ones as they are, the directional literals
    without their direction, and no triple term. *)
Theorem project_to_spec (d : Dataset) (v : RdfVersion) :
  ∃ d', project_to d v = Some d' ∧ version_leb (rdf_version d') v = true ∧
    ∀ q', q' ∈ d' ↔ ∃ q, q ∈ d ∧
      ((expressible v q ∧ q' = q) ∨
       (¬ expressible v q ∧ is_triple_term (q_object q) = false ∧ q' = drop_direction q)).
Proof.
  unfold project_to, Dataset in *. destruct (version_leb (rdf_version d) v) eqn:E.
  - exists d. split_and!; [done..|]. apply rdf_version_from_leb in E as [_ E].
    rewrite Forall_forall in E. intros q'. split; [intros Hq; exists q'; auto|].
    intros (q & Hq & [[_ ->]|[Hn _]]); [done|]. by destruct Hn; apply E.
  - destruct (project_quads_spec v d) as (k & -> & Hk).
    exists (omap id k). split_and!; [done| |done]. apply rdf_version_from_leb. split; [done|].
    apply Forall_forall. intros q' Hq'. apply Hk in Hq' as (q & Hq & [[? ->]|(Hn & Ht & ->)]); [done|].
    destruct (project_quad_spec v q) as [[? _]|[(_ & ? & _)|(_ & _ & _ & ?)]];
      [done|congruence|done].
Qed.

(** The hashed text of a validator identifies the representation: two
    stored states have the same text exactly when they hold the same quads,
    in whatever order and graph by graph, and are served in the same format
    at the same version.  So the validator does not depend on the order in
    which the store returns quads. *)
Theorem etag_text_iff `{Display} (d d' : Skolemized) (f f' : Format) (v v' : RdfVersion)
    (Hinj : ∀ q q', quad_display q = quad_display q' → q = q')
    (Hline : ∀ q, contains_char "010"%char (quad_display q) = false) :
  etag_text d f v = etag_text d' f' v' ↔ d ≡ₚ d' ∧ f = f' ∧ v = v'.
Proof.
  unfold etag_text. set (key := λ q, quad_display (quad_of_ground q)).
  assert (∀ a b, key a = key b → a = b) as Hkey.
  { intros a b E%Hinj. apply (f_equal ground_of_quad) in E.
    rewrite !ground_quad_roundtrip in E. by injection E. }
  split.
  - intros E. apply (f_equal (split_char "010"%char)) in E.
    rewrite !split_header_lines in E.
    2,3: apply Forall_forall; intros l Hl; rewrite sort_by_perm in Hl;
      apply list_elem_of_fmap in Hl as (q & -> & _); apply Hline.
    injection E as Ef Ev El. apply app_inv_tail in El.
    assert (map key d ≡ₚ map key d') as Hp.
    { rewrite <- (sort_by_perm str_leb (map key d)), El. apply sort_by_perm. }
    split_and!; [|by destruct f, f'|by destruct v, v'].
    destruct (Permutation_map_inv _ _ Hp) as (k & Hk & Hpk).
    assert (d = k) as ->; [|by symmetry].
    clear -Hk Hkey. revert k Hk. induction d as [|a d IH]; intros [|b k] Hk; try done.
    injection Hk as Ha Hk. f_equal; auto.
  - intros (Hp & -> & ->). f_equal. apply sort_strings_canonical. by apply Permutation_map.
Qed.

Lemma etag_text_iff_witness :
  let a := mkGroundQuad "s" "p" (GTNamed "o") GGDefault in
  let b := mkGroundQuad "s" "p" (GTNamed "o") (GGNamed "g") in
  let D := toy_display in
  etag_text [a; b] Turtle Rdf11 = etag_text [b; a] Turtle Rdf11 ∧
  ¬ etag_text [a] Turtle Rdf11 = etag_text [b] Turtle Rdf11.
Proof.
  intros a b D. split.
  - apply (etag_text_iff _ _ _ _ _ _ toy_display_inj toy_display_line). by split_and!; [constructor|..].
  - intros E. apply (etag_text_iff _ _ _ _ _ _ toy_display_inj toy_display_line) in E as [E _].
    by apply Permutation_singleton_inj in E.
Defined.

(** Whether a resource is a dataset is one question on the stored side: it
    is, exactly when it names a graph; the list of its graphs has no
    duplicates; and the question has the same answer for the client's view on
    the way in, where a blank node that names a graph counts too. *)
Theorem named_graphs_agree (uuid : nat → string) (d : Dataset) :
  let s := skolemize uuid d in
  sk_has_named_graphs s = has_named_graphs d ∧
  (sk_has_named_graphs s = true ↔ sk_named_graphs s ≠ []) ∧
  NoDup (sk_named_graphs s) ∧
  (∀ n, n ∈ sk_named_graphs s ↔ ∃ q, q ∈ s ∧ g_graph q = GGNamed n).
Proof.
  intros s. split_and!.
  - unfold s, skolemize. generalize (∅ : minted).
    induction d as [|q d IH]; intros m; simpl; [done|].
    unfold ground_quad. destruct (ground_subject uuid (q_subject q) m) as [qs m1].
    destruct (ground_term uuid (q_object q) m1) as [qo m2].
    destruct (ground_graph uuid (q_graph q) m2) as [qg m3] eqn:G.
    specialize (IH m3). destruct (ground_quads uuid d m3) as [d' m4]. simpl in *.
    rewrite IH. f_equal. destruct (q_graph q) as [|n|b]; simpl in G; [by simplify_eq..|].
    destruct (iri_for uuid b m2). by simplify_eq.
  - rewrite sk_has_named_graphs_spec. split.
    + intros (q & n & Hq & Hg) Hn. assert (n ∈ sk_named_graphs s) as Hin.
      { apply sk_named_graphs_spec. eauto. }
      rewrite Hn in Hin. by apply elem_of_nil in Hin.
    + intros Hn. destruct (sk_named_graphs s) as [|n l] eqn:E; [done|].
      assert (n ∈ sk_named_graphs s) as Hin by (rewrite E; left).
      apply sk_named_graphs_spec in Hin as (q & ? & ?). eauto.
  - apply sk_named_graphs_NoDup.
  - intros n. apply sk_named_graphs_spec.
Qed.

(** The reserved-IRI check does not look inside triple terms.  There is
    client data that passes it, holds an IRI of the skolem namespace, and
    comes back from the store with that IRI turned into a blank node: no
    renaming of blank nodes explains what is read back. *)
Theorem reserved_check_misses_triple_terms `{BlankSyntax} (Hlabels : labels_valid) :
  ∃ d : Dataset,
    uses_reserved_namespace d = false ∧
    (∃ q n, q ∈ d ∧ n ∈ quad_iris q ∧ is_reserved_iri n = true) ∧
    ∀ uuid ρ, deskolemize (skolemize uuid d) ≠ map (rename_quad ρ) d.
Proof.
  set (q := Quad (SNamed "http://e/s") "http://e/p"
    (TTriple (SNamed "urn:quadpod:bnode:1") "http://e/p" (TNamed "http://e/o")) GDefault).
  exists [q]. split_and!; [done| |].
  - exists q, "urn:quadpod:bnode:1". split_and!; [by left| |done].
    simpl. right. left.
  - intros uuid ρ E.
    apply (f_equal (λ l, match l with
      | Quad _ _ (TTriple s _ _) _ :: _ => s | _ => SNamed "" end)) in E.
    change (subject_for (SKOLEM_PREFIX +:+ "1") = SNamed "urn:quadpod:bnode:1") in E.
    unfold subject_for in E. by rewrite (blank_for_skolem Hlabels "1") in E.
Qed.

Lemma reserved_check_misses_triple_terms_witness :
  let H : BlankSyntax := λ _, true in
  ∃ d : Dataset, uses_reserved_namespace d = false ∧
    ∀ uuid ρ, deskolemize (skolemize uuid d) ≠ map (rename_quad ρ) d.
Proof.
  intros H. assert (Hl : labels_valid) by done.
  destruct (reserved_check_misses_triple_terms Hl) as (d & Hd & _ & Hn). by exists d.
Defined.
