(* ===== verification/Pdp.v ===== *)
(** Access modes and the policy decision point ([wac/mod.rs], [wac/pdp.rs],
    [auth/agent.rs]). *)
From S2P Require Import Prelude Str Terms.
Open Scope list_scope.

Inductive Agent : Type := Public | WebId (webid : string).

#[export] Instance Agent_eq_dec : EqDecision Agent.
Proof. solve_decision. Defined.

Inductive Mode : Type := Read | Write | Append | Control.

#[export] Instance Mode_eq_dec : EqDecision Mode.
Proof. solve_decision. Defined.

Record AccessModes : Type := mkModes { m_read : bool; m_write : bool; m_append : bool; m_control : bool }.

Definition no_modes : AccessModes := mkModes false false false false.

Definition allows (a : AccessModes) (mode : Mode) : bool :=
  match mode with
  | Read => m_read a
  | Write => m_write a
  | Append => m_append a || m_write a
  | Control => m_control a
  end.

Record Decision : Type := mkDecision { d_user : AccessModes; d_public : AccessModes }.

Definition ACL_AGENT : string := "http://www.w3.org/ns/auth/acl#agent".
Definition ACL_AGENT_CLASS : string := "http://www.w3.org/ns/auth/acl#agentClass".
Definition ACL_ACCESS_TO : string := "http://www.w3.org/ns/auth/acl#accessTo".
Definition ACL_DEFAULT : string := "http://www.w3.org/ns/auth/acl#default".
Definition ACL_MODE : string := "http://www.w3.org/ns/auth/acl#mode".
Definition ACL_READ : string := "http://www.w3.org/ns/auth/acl#Read".
Definition ACL_WRITE : string := "http://www.w3.org/ns/auth/acl#Write".
Definition ACL_APPEND : string := "http://www.w3.org/ns/auth/acl#Append".
Definition ACL_CONTROL : string := "http://www.w3.org/ns/auth/acl#Control".
Definition ACL_AUTHENTICATED_AGENT : string := "http://www.w3.org/ns/auth/acl#AuthenticatedAgent".
Definition ACL_AUTHORIZATION : string := "http://www.w3.org/ns/auth/acl#Authorization".
Definition FOAF_AGENT : string := "http://xmlns.com/foaf/0.1/Agent".

Definition recognized_mode (mode_iri : string) : option Mode :=
  if bool_decide (mode_iri = ACL_READ) then Some Read
  else if bool_decide (mode_iri = ACL_WRITE) then Some Write
  else if bool_decide (mode_iri = ACL_APPEND) then Some Append
  else if bool_decide (mode_iri = ACL_CONTROL) then Some Control
  else None.

(** The index is a [HashMap]; what is read from it does not depend on the
    order of its iteration. *)
Definition by_subject (acl : list triple) : gmap named_or_blank (list triple) :=
  foldl (λ index t, <[t_subject t := default [] (index !! t_subject t) ++ [t]]> index) ∅ acl.

Definition authorizations (acl : list triple) : list (list triple) :=
  snd <$> map_to_list (by_subject acl).

Definition has_object (authorization : list triple) (predicate object_iri : string) : bool :=
  existsb (λ t, bool_decide (t_predicate t = predicate) &&
                bool_decide (t_object t = TNamed object_iri)) authorization.

Definition matches_agent (authorization : list triple) (agent : Agent) : bool :=
  if has_object authorization ACL_AGENT_CLASS FOAF_AGENT then true else
  match agent with
  | Public => false
  | WebId webid =>
      has_object authorization ACL_AGENT_CLASS ACL_AUTHENTICATED_AGENT
      || has_object authorization ACL_AGENT webid
  end.

Definition is_named (t : term) : bool := match t with TNamed _ => true | _ => false end.

Definition names_someone (authorization : list triple) : bool :=
  has_object authorization ACL_AGENT_CLASS FOAF_AGENT
  || has_object authorization ACL_AGENT_CLASS ACL_AUTHENTICATED_AGENT
  || existsb (λ t, bool_decide (t_predicate t = ACL_AGENT) && is_named (t_object t)) authorization.

(** The mode one triple grants. *)
Definition triple_mode (t : triple) : option Mode :=
  if bool_decide (t_predicate t = ACL_MODE)
  then match t_object t with TNamed m => recognized_mode m | _ => None end
  else None.

Definition has_recognized_mode (authorization : list triple) : bool :=
  existsb (λ t, bool_decide (t_predicate t = ACL_MODE) &&
    match t_object t with TNamed m => bool_decide (is_Some (recognized_mode m)) | _ => false end)
    authorization.

Definition grant (granted : AccessModes) (t : triple) : AccessModes :=
  match triple_mode t with
  | Some Read => mkModes true (m_write granted) (m_append granted) (m_control granted)
  | Some Write => mkModes (m_read granted) true (m_append granted) (m_control granted)
  | Some Append => mkModes (m_read granted) (m_write granted) true (m_control granted)
  | Some Control => mkModes (m_read granted) (m_write granted) (m_append granted) true
  | None => granted
  end.

(** One authorization of the loop of [pdp_decide]. *)
Definition apply_authorization (agent : Agent) (governed_iri scope_predicate : string)
    (granted : AccessModes) (authorization : list triple) : AccessModes :=
  if negb (has_object authorization scope_predicate governed_iri) then granted
  else if negb (matches_agent authorization agent) then granted
  else foldl grant granted authorization.

Definition pdp_decide (acl : list triple) (agent : Agent) (governed_iri : string)
    (inherited : bool) : AccessModes :=
  let scope_predicate := if inherited then ACL_DEFAULT else ACL_ACCESS_TO in
  foldl (apply_authorization agent governed_iri scope_predicate) no_modes (authorizations acl).

Definition grants_anything (acl : list triple) (governed_iri : string) : bool :=
  existsb (λ authorization,
    (has_object authorization ACL_ACCESS_TO governed_iri
     || has_object authorization ACL_DEFAULT governed_iri)
    && names_someone authorization && has_recognized_mode authorization)
    (authorizations acl).

(** * Specification *)

(** A subject of the document states an object for a predicate. *)
Definition states (acl : list triple) (s : named_or_blank) (p o : string) : Prop :=
  Triple s p (TNamed o) ∈ acl.

(** An authorization of the document that names the agent. *)
Definition covers (acl : list triple) (s : named_or_blank) (agent : Agent) : Prop :=
  states acl s ACL_AGENT_CLASS FOAF_AGENT ∨
  match agent with
  | Public => False
  | WebId w => states acl s ACL_AGENT_CLASS ACL_AUTHENTICATED_AGENT ∨ states acl s ACL_AGENT w
  end.

Definition mode_iri (m : Mode) : string :=
  match m with Read => ACL_READ | Write => ACL_WRITE | Append => ACL_APPEND | Control => ACL_CONTROL end.

(** The mode bit itself, without the subsumption of [allows]. *)
Definition has_mode (a : AccessModes) (m : Mode) : bool :=
  match m with Read => m_read a | Write => m_write a | Append => m_append a | Control => m_control a end.

(** * Lemmas *)

Lemma by_subject_lookup acl s :
  default [] (by_subject acl !! s) = filter (λ t, t_subject t = s) acl.
Proof.
  unfold by_subject.
  assert (∀ m : gmap named_or_blank (list triple), default [] (foldl (λ index t, <[t_subject t := default [] (index !! t_subject t) ++ [t]]> index) m acl !! s)
    = default [] (m !! s) ++ filter (λ t, t_subject t = s) acl) as Hg.
  { induction acl as [|t acl IH]; intros m; simpl; [by rewrite app_nil_r|].
    rewrite IH, filter_cons. destruct (decide (t_subject t = s)) as [<-|Hne].
    - rewrite lookup_insert_eq. simpl. by rewrite <- app_assoc.
    - by rewrite lookup_insert_ne. }
  rewrite Hg, lookup_empty. done.
Qed.

Lemma authorizations_spec acl (P : list triple → Prop) :
  ¬ P [] → (∃ a, a ∈ authorizations acl ∧ P a) ↔ ∃ s, P (filter (λ t, t_subject t = s) acl).
Proof.
  intros Hnil. unfold authorizations. split.
  - intros (a & Ha & HP). apply list_elem_of_fmap in Ha as ([s a'] & -> & Hs). simpl in *.
    apply elem_of_map_to_list in Hs. exists s. rewrite <- by_subject_lookup. by rewrite Hs.
  - intros (s & HP). rewrite <- by_subject_lookup in HP.
    destruct (by_subject acl !! s) as [a|] eqn:E; simpl in HP; [|done].
    exists a. split; [|done]. apply list_elem_of_fmap. exists (s, a). split; [done|].
    by apply elem_of_map_to_list.
Qed.

Lemma has_object_states acl s p o :
  has_object (filter (λ t, t_subject t = s) acl) p o = true ↔ states acl s p o.
Proof.
  unfold has_object, states. rewrite existsb_exists. split.
  - intros (t & Ht & Hc). apply list_elem_of_In, list_elem_of_filter in Ht as [Hs Ht].
    apply andb_true_iff in Hc as [Hp%bool_decide_eq_true Ho%bool_decide_eq_true].
    destruct t; simpl in *; by subst.
  - intros Ht. eexists. split; [apply list_elem_of_In, list_elem_of_filter; split; [|exact Ht]; done|].
    simpl. by rewrite !bool_decide_eq_true_2.
Qed.

Lemma matches_agent_covers acl s agent :
  matches_agent (filter (λ t, t_subject t = s) acl) agent = true ↔ covers acl s agent.
Proof.
  unfold matches_agent, covers. rewrite <- !has_object_states.
  destruct (has_object _ ACL_AGENT_CLASS FOAF_AGENT); [naive_solver|].
  destruct agent as [|w]; [naive_solver|].
  rewrite <- !has_object_states, orb_true_iff. naive_solver.
Qed.

Lemma names_someone_covers acl s :
  names_someone (filter (λ t, t_subject t = s) acl) = true ↔ ∃ agent, covers acl s agent.
Proof.
  unfold names_someone, covers. rewrite !orb_true_iff, !has_object_states, existsb_exists. split.
  - intros [[H|H]|(t & Ht & Hc)]; [by exists Public; left|by exists (WebId ""); right; left|].
    apply list_elem_of_In, list_elem_of_filter in Ht as [Hs Ht].
    apply andb_true_iff in Hc as [Hp%bool_decide_eq_true Ho].
    destruct t as [s' p o]; simpl in *; subst. destruct o as [n| | |]; try done.
    exists (WebId n). right; right. done.
  - intros [[|w] [H|H]]; try tauto. destruct H as [H|H]; [tauto|]. right.
    exists (Triple s ACL_AGENT (TNamed w)). split; [|done].
    apply list_elem_of_In, list_elem_of_filter. done.
Qed.

Lemma recognized_mode_Some i m : recognized_mode i = Some m ↔ i = mode_iri m.
Proof.
  unfold recognized_mode. split.
  - repeat case_bool_decide; intros [= <-]; done.
  - intros ->. by destruct m.
Qed.

Lemma triple_mode_Some t m :
  triple_mode t = Some m ↔ t_predicate t = ACL_MODE ∧ t_object t = TNamed (mode_iri m).
Proof.
  unfold triple_mode. case_bool_decide as Hp; [|naive_solver].
  destruct (t_object t) as [n| | |]; [|naive_solver..]. rewrite recognized_mode_Some. naive_solver.
Qed.

Lemma grant_mode g t m : has_mode (grant g t) m = has_mode g m || bool_decide (triple_mode t = Some m).
Proof.
  unfold grant. destruct (triple_mode t) as [[]|], m; simpl;
    rewrite ?bool_decide_eq_true_2, ?bool_decide_eq_false_2 by done;
    rewrite ?orb_false_r, ?orb_true_r; done.
Qed.

Lemma foldl_grant_mode l g m :
  has_mode (foldl grant g l) m = true ↔
  has_mode g m = true ∨ ∃ t, t ∈ l ∧ triple_mode t = Some m.
Proof.
  revert g. induction l as [|t l IH]; intros g; simpl.
  - setoid_rewrite elem_of_nil. naive_solver.
  - setoid_rewrite elem_of_cons. rewrite IH, grant_mode, orb_true_iff, bool_decide_eq_true.
    naive_solver.
Qed.

Lemma foldl_apply_mode agent iri scope l g m :
  has_mode (foldl (apply_authorization agent iri scope) g l) m = true ↔
  has_mode g m = true ∨
  ∃ a, a ∈ l ∧ has_object a scope iri = true ∧ matches_agent a agent = true ∧
       ∃ t, t ∈ a ∧ triple_mode t = Some m.
Proof.
  revert g. induction l as [|a l IH]; intros g; simpl.
  - setoid_rewrite elem_of_nil. naive_solver.
  - setoid_rewrite elem_of_cons. rewrite IH. unfold apply_authorization.
    assert (∀ Q : list triple → Prop,
      (∃ a', (a' = a ∨ a' ∈ l) ∧ Q a') ↔ Q a ∨ ∃ a', a' ∈ l ∧ Q a') as -> by naive_solver.
    destruct (has_object a scope iri); simpl; [|intuition congruence].
    destruct (matches_agent a agent); simpl; [|intuition congruence].
    rewrite foldl_grant_mode. tauto.
Qed.

Lemma mode_states acl s m :
  (∃ t, t ∈ filter (λ t, t_subject t = s) acl ∧ triple_mode t = Some m) ↔
  states acl s ACL_MODE (mode_iri m).
Proof.
  unfold states. setoid_rewrite list_elem_of_filter. setoid_rewrite triple_mode_Some. split.
  - intros ([s' p o] & [Hs Ht] & Hp & Ho). simpl in *. by subst.
  - intros Ht. eexists. split; [split; [|exact Ht]|]; done.
Qed.

(** The bits of a decision, by their reasons in the document. *)
Lemma decide_bits acl agent iri inherited m :
  has_mode (pdp_decide acl agent iri inherited) m = true ↔
  ∃ s, states acl s (if inherited then ACL_DEFAULT else ACL_ACCESS_TO) iri ∧
       covers acl s agent ∧ states acl s ACL_MODE (mode_iri m).
Proof.
  unfold pdp_decide. rewrite foldl_apply_mode.
  assert (has_mode no_modes m = false) as -> by by destruct m.
  split.
  - intros [?|Ha]; [done|].
    apply (authorizations_spec acl (λ a, has_object a _ iri = true ∧ matches_agent a agent = true ∧
      ∃ t, t ∈ a ∧ triple_mode t = Some m)) in Ha as (s & H1 & H2 & H3); [|naive_solver].
    exists s. by rewrite <- has_object_states, <- matches_agent_covers, <- mode_states.
  - intros (s & H1 & H2 & H3). right.
    apply (authorizations_spec acl (λ a, has_object a _ iri = true ∧ matches_agent a agent = true ∧
      ∃ t, t ∈ a ∧ triple_mode t = Some m)); [naive_solver|].
    exists s. by rewrite has_object_states, matches_agent_covers, mode_states.
Qed.

Lemma has_recognized_mode_spec acl s :
  has_recognized_mode (filter (λ t, t_subject t = s) acl) = true ↔
  ∃ m, states acl s ACL_MODE (mode_iri m).
Proof.
  unfold has_recognized_mode. rewrite existsb_exists. setoid_rewrite <- mode_states. split.
  - intros (t & Ht & Hc). apply list_elem_of_In in Ht.
    apply andb_true_iff in Hc as [Hp%bool_decide_eq_true Ho].
    destruct (t_object t) as [n| | |] eqn:E; try done.
    apply bool_decide_eq_true in Ho as [m Hm]. exists m, t. split; [done|].
    apply triple_mode_Some. rewrite E. apply recognized_mode_Some in Hm as ->. done.
  - intros (m & t & Ht & Hm). exists t. split; [by apply list_elem_of_In|].
    apply triple_mode_Some in Hm as [-> ->]. rewrite (bool_decide_eq_true_2 (ACL_MODE = ACL_MODE)) by done.
    simpl. apply bool_decide_eq_true. exists m. by apply recognized_mode_Some.
Qed.

Lemma allows_spec a m :
  allows a m = has_mode a m || (bool_decide (m = Append) && has_mode a Write).
Proof. destruct m; simpl; by rewrite ?orb_false_r. Qed.

(** The decision, as [decide_allows_iff] states it below. *)
Definition permits (P : named_or_blank → string → string → Prop) (agent : Agent) (iri : string)
    (inherited : bool) (m : Mode) : Prop :=
  ∃ s, P s (if inherited then ACL_DEFAULT else ACL_ACCESS_TO) iri ∧
       (P s ACL_AGENT_CLASS FOAF_AGENT ∨
        match agent with
        | Public => False
        | WebId w => P s ACL_AGENT_CLASS ACL_AUTHENTICATED_AGENT ∨ P s ACL_AGENT w
        end) ∧
       (P s ACL_MODE (mode_iri m) ∨ (m = Append ∧ P s ACL_MODE ACL_WRITE)).

Lemma allows_permits acl agent iri inherited m :
  allows (pdp_decide acl agent iri inherited) m = true ↔ permits (states acl) agent iri inherited m.
Proof.
  rewrite allows_spec, orb_true_iff, andb_true_iff, bool_decide_eq_true, !decide_bits.
  unfold permits, covers. simpl. split.
  - intros [(s & ? & ? & ?)|(-> & s & ? & ? & ?)]; exists s; tauto.
  - intros (s & ? & ? & [?|[-> ?]]); [left|right; split; [done|]]; exists s; tauto.
Qed.

(** * Properties *)

(** C14: the decision is exactly what the document states.  An agent is allowed
    a mode when one subject of the ACL, by itself, names the governed resource
    under the scope predicate that applies ([acl:default] when inherited,
    [acl:accessTo] otherwise), covers the agent, and carries the mode, or
    [acl:Write] where [acl:Append] is asked for; and never otherwise. *)
Theorem decide_allows_iff (acl : list triple) (agent : Agent) (iri : string)
    (inherited : bool) (m : Mode) :
  allows (pdp_decide acl agent iri inherited) m = true ↔
  ∃ s, states acl s (if inherited then ACL_DEFAULT else ACL_ACCESS_TO) iri ∧
       covers acl s agent ∧
       (states acl s ACL_MODE (mode_iri m) ∨ (m = Append ∧ states acl s ACL_MODE ACL_WRITE)).
Proof. apply allows_permits. Qed.

(** The warning about an ACL that grants nothing is exact: [grants_anything]
    holds exactly when some agent, directly or by inheritance, is decided some
    mode on the governed resource.  One pass over the document answers what
    probing [pdp_decide] with every agent would. *)
Theorem grants_anything_iff (acl : list triple) (iri : string) :
  grants_anything acl iri = true ↔
  ∃ agent inherited m, allows (pdp_decide acl agent iri inherited) m = true.
Proof.
  unfold grants_anything. rewrite existsb_exists. setoid_rewrite <- list_elem_of_In.
  assert ((∃ a, a ∈ authorizations acl ∧
      (has_object a ACL_ACCESS_TO iri || has_object a ACL_DEFAULT iri)
      && names_someone a && has_recognized_mode a = true) ↔
    ∃ s, ((states acl s ACL_ACCESS_TO iri ∨ states acl s ACL_DEFAULT iri) ∧
      ∃ agent, covers acl s agent) ∧ ∃ m, states acl s ACL_MODE (mode_iri m)) as ->.
  { rewrite (authorizations_spec acl (λ a, (has_object a ACL_ACCESS_TO iri ||
      has_object a ACL_DEFAULT iri) && names_someone a && has_recognized_mode a = true)) by done.
    apply exist_proper. intros s.
    by rewrite !andb_true_iff, orb_true_iff, !has_object_states, names_someone_covers,
      has_recognized_mode_spec. }
  split.
  - intros (s & ((Hs & agent & Hc) & m & Hm)). exists agent.
    destruct Hs as [Hs|Hs]; [exists false|exists true]; exists m;
      rewrite allows_spec, orb_true_iff, decide_bits; left; exists s; done.
  - intros (agent & inherited & m & Hd).
    rewrite allows_spec, orb_true_iff, andb_true_iff, !decide_bits in Hd.
    destruct Hd as [(s & Hs & Hc & Hm)|(_ & s & Hs & Hc & Hm)]; exists s;
      (split; [split; [destruct inherited; tauto|by exists agent]|]); [by exists m|by exists Write].
Qed.
