(* ===== verification/Patch.v ===== *)
(** N3 Patch documents ([patch.rs]): parsing, the shape rules, the access modes
    a patch needs. *)
From S2P Require Import Prelude Str Terms Rdf Dataset Pdp.
Open Scope list_scope.

Inductive PatchError : Type :=
| Syntax (msg : string)
| PatchShape (msg : string)
| PatchReserved
| Rdf12Term.

(** [oxttl]'s N3 terms and quads, and its parser. *)
Inductive N3Term : Type :=
| N3Named (n : string)
| N3Blank (b : string)
| N3Literal (l : literal)
| N3Triple (t : triple)
| N3Variable (v : string).

#[export] Instance N3Term_eq_dec : EqDecision N3Term.
Proof. solve_decision. Defined.

Record N3Quad : Type := mkN3Quad {
  n3_subject : N3Term;
  n3_predicate : N3Term;
  n3_object : N3Term;
  n3_graph : graph_name
}.

Class N3Lib : Type := n3_parse : string → string → string + list N3Quad.

Inductive PatternTerm : Type :=
| PNamed (n : string)
| PLiteral (l : literal)
| PVar (i : nat).

Record Pattern : Type := mkPattern {
  p_subject : PatternTerm;
  p_predicate : PatternTerm;
  p_object : PatternTerm
}.

#[export] Instance PatternTerm_eq_dec : EqDecision PatternTerm.
Proof. solve_decision. Defined.
#[export] Instance Pattern_eq_dec : EqDecision Pattern.
Proof. solve_decision. Defined.

Record RequiredModes : Type := mkRequired { rq_read : bool; rq_append : bool; rq_write : bool }.

Definition satisfied_by (r : RequiredModes) (held : AccessModes) : bool :=
  (negb (rq_read r) || allows held Read)
  && (negb (rq_append r) || allows held Append)
  && (negb (rq_write r) || allows held Write).

Record Patch : Type := mkPatch {
  conditions : list Pattern;
  deletions : list Pattern;
  insertions : list Pattern;
  variables : nat
}.

Definition SOLID_INSERT_DELETE_PATCH : string := "http://www.w3.org/ns/solid/terms#InsertDeletePatch".
Definition SOLID_WHERE : string := "http://www.w3.org/ns/solid/terms#where".
Definition SOLID_DELETES : string := "http://www.w3.org/ns/solid/terms#deletes".
Definition SOLID_INSERTS : string := "http://www.w3.org/ns/solid/terms#inserts".
Definition RDF_TYPE : string := "http://www.w3.org/1999/02/22-rdf-syntax-ns#type".

(** * [Renumber] *)
Notation Renumber := (gmap string nat).

Definition rn_bind (names : Renumber) (name : string) : nat * Renumber :=
  let next := size names in
  match names !! name with
  | Some i => (i, names)
  | None => (next, <[name := next]> names)
  end.

Definition rn_lookup (names : Renumber) (name : string) : option nat := names !! name.
Definition rn_len (names : Renumber) : nat := size names.

(** * Parsing *)
Definition n3_is_named (t : N3Term) (iri : string) : bool := bool_decide (t = N3Named iri).

(** [if cond && !found.contains(x) { found.push(x) }] *)
Definition is_type_triple (q : N3Quad) : bool :=
  bool_decide (n3_graph q = GDefault)
  && n3_is_named (n3_predicate q) RDF_TYPE
  && n3_is_named (n3_object q) SOLID_INSERT_DELETE_PATCH.

Definition patch_subject (quads : list N3Quad) : outcome PatchError N3Term :=
  let found := foldl (λ found q,
    if is_type_triple q && negb (bool_decide (n3_subject q ∈ found))
    then found ++ [n3_subject q] else found) [] quads in
  match found with
  | [one] => Ok one
  | [] => Err (PatchShape "no solid:InsertDeletePatch resource")
  | _ => Err (PatchShape "more than one solid:InsertDeletePatch resource")
  end.

Definition names_a_formula (quads : list N3Quad) (b : string) : bool :=
  existsb (λ q, bool_decide (n3_graph q = GBlank b)) quads.

Definition formula (quads : list N3Quad) (subject : N3Term) (predicate : string)
    : outcome PatchError (option string) :=
  let found := omap (λ q,
    if bool_decide (n3_graph q = GDefault) && bool_decide (n3_subject q = subject)
       && n3_is_named (n3_predicate q) predicate
    then Some (n3_object q) else None) quads in
  match found with
  | [] => Ok None
  | [o] =>
      match o with
      | N3Blank b =>
          if names_a_formula quads b then Ok (Some b)
          else Err (PatchShape "a formula predicate whose object is not a formula")
      | _ => Err (PatchShape "a formula predicate whose object is not a formula")
      end
  | _ => Err (PatchShape "more than one of a formula predicate")
  end.

Inductive Binding : Type := Bind | Lookup.

Definition patch_term (t : N3Term) (names : Renumber) (binding : Binding)
    : outcome PatchError (PatternTerm * Renumber) :=
  match t with
  | N3Named n => if is_reserved_iri n then Err PatchReserved else Ok (PNamed n, names)
  | N3Literal l =>
      if bool_decide (is_Some (l_direction l)) then Err Rdf12Term else Ok (PLiteral l, names)
  | N3Variable v =>
      match binding with
      | Bind => let (i, names) := rn_bind names v in Ok (PVar i, names)
      | Lookup =>
          match rn_lookup names v with
          | Some i => Ok (PVar i, names)
          | None => Err (PatchShape "a variable no condition binds")
          end
      end
  | N3Blank b =>
      match binding with
      | Bind => let (i, names) := rn_bind names ("_:" +:+ b) in Ok (PVar i, names)
      | Lookup => Err (PatchShape "a blank node in insertions or deletions")
      end
  | N3Triple _ => Err Rdf12Term
  end.

Definition LITERAL_SUBJECT : string := "a literal in subject position".
Definition LITERAL_PREDICATE : string := "a literal in predicate position".

Definition non_literal (t : PatternTerm) (violation : string) : outcome PatchError PatternTerm :=
  match t with
  | PLiteral _ => Err (PatchShape violation)
  | other => Ok other
  end.

(** One quad of a formula. *)
Definition patch_pattern (q : N3Quad) (names : Renumber) (binding : Binding)
    : outcome PatchError (Pattern * Renumber) :=
  let? (s, names) := patch_term (n3_subject q) names binding in
  let? s := non_literal s LITERAL_SUBJECT in
  let? (p, names) := patch_term (n3_predicate q) names binding in
  let? p := non_literal p LITERAL_PREDICATE in
  let? (o, names) := patch_term (n3_object q) names binding in
  Ok (mkPattern s p o, names).

Fixpoint patterns_loop (quads : list N3Quad) (formula : string) (names : Renumber)
    (binding : Binding) : outcome PatchError (list Pattern * Renumber) :=
  match quads with
  | [] => Ok ([], names)
  | q :: quads =>
      if negb (bool_decide (n3_graph q = GBlank formula))
      then patterns_loop quads formula names binding
      else
        let? (p, names) := patch_pattern q names binding in
        let? (ps, names) := patterns_loop quads formula names binding in
        Ok (p :: ps, names)
  end.

Definition patterns (quads : list N3Quad) (formula : option string) (names : Renumber)
    (binding : Binding) : outcome PatchError (list Pattern * Renumber) :=
  match formula with
  | None => Ok ([], names)
  | Some formula => patterns_loop quads formula names binding
  end.

(** [Patch::parse], from the quads of the document on. *)
Definition patch_of_quads (quads : list N3Quad) : outcome PatchError Patch :=
  let? subject := patch_subject quads in
  let? conditions_formula := formula quads subject SOLID_WHERE in
  let? deletions_formula := formula quads subject SOLID_DELETES in
  let? insertions_formula := formula quads subject SOLID_INSERTS in
  let? (conditions, names) := patterns quads conditions_formula ∅ Bind in
  let? (deletions, names) := patterns quads deletions_formula names Lookup in
  let? (insertions, names) := patterns quads insertions_formula names Lookup in
  Ok (mkPatch conditions deletions insertions (rn_len names)).

Definition parse_patch `{N3Lib} (body base : string) : outcome PatchError Patch :=
  match n3_parse base body with
  | inl e => Err (Syntax e)
  | inr quads => patch_of_quads quads
  end.

Definition is_empty {A : Type} (l : list A) : bool := match l with [] => true | _ => false end.

Definition required_modes (p : Patch) : RequiredModes :=
  mkRequired (negb (is_empty (conditions p)) || negb (is_empty (deletions p)))
             (negb (is_empty (insertions p)))
             (negb (is_empty (deletions p))).

(** One triple of [ground_insertions]. *)
Definition ground_pattern (p : Pattern) : option triple :=
  match p_subject p, p_predicate p with
  | PNamed s, PNamed pr =>
      match p_object p with
      | PNamed n => Some (Triple (SNamed s) pr (TNamed n))
      | PLiteral l => Some (Triple (SNamed s) pr (TLiteral l))
      | PVar _ => None
      end
  | _, _ => None
  end.

Definition ground_insertions (p : Patch) : option (list triple) :=
  if negb (is_empty (conditions p)) then None
  else mapM ground_pattern (insertions p).

(** * Specification *)

Definition pterm_vars (t : PatternTerm) : list nat := match t with PVar i => [i] | _ => [] end.
Definition pattern_vars (p : Pattern) : list nat :=
  pterm_vars (p_subject p) ++ pterm_vars (p_predicate p) ++ pterm_vars (p_object p).
Definition vars (ps : list Pattern) : list nat := mjoin (map pattern_vars ps).

Definition not_literal (t : PatternTerm) : Prop := match t with PLiteral _ => False | _ => True end.

(** A term that may be stored for a client. *)
Definition clean_term (t : PatternTerm) : Prop :=
  match t with
  | PNamed n => is_reserved_iri n = false
  | PLiteral l => l_direction l = None
  | PVar _ => True
  end.

Definition pattern_ok (p : Pattern) : Prop :=
  not_literal (p_subject p) ∧ not_literal (p_predicate p) ∧
  clean_term (p_subject p) ∧ clean_term (p_predicate p) ∧ clean_term (p_object p).

(** What [Patch::parse] promises of every patch: well-shaped patterns, and
    variables numbered without gaps, each bound by a condition. *)
Record patch_ok (p : Patch) : Prop := {
  patch_patterns : Forall pattern_ok (conditions p ++ deletions p ++ insertions p);
  patch_bound : ∀ i, i ∈ vars (deletions p ++ insertions p) → i ∈ vars (conditions p);
  patch_numbered : ∀ i, i ∈ vars (conditions p) ↔ i < variables p
}.

(** The renumbering is injective and without gaps. *)
Definition names_ok (names : Renumber) : Prop :=
  (∀ n i, names !! n = Some i → i < size names) ∧
  (∀ i, i < size names → ∃ n, names !! n = Some i) ∧
  (∀ n n' i, names !! n = Some i → names !! n' = Some i → n = n').

(** * Lemmas *)

Lemma names_ok_empty : names_ok ∅.
Proof. split_and!; [by intros *; rewrite lookup_empty|intros i Hi; by rewrite map_size_empty in Hi; lia|by intros *; rewrite lookup_empty]. Qed.

Lemma rn_bind_ok names n :
  names_ok names →
  let '(i, names') := rn_bind names n in
  names_ok names' ∧ names ⊆ names' ∧ i < size names' ∧
  (∀ j, j < size names' → j < size names ∨ j = i).
Proof.
  intros (H1 & H2 & H3). unfold rn_bind. destruct (names !! n) as [i|] eqn:E.
  - split_and!; [done..|eauto|auto].
  - assert (size (<[n:=size names]> names) = S (size names)) as Hs by by apply map_size_insert_None.
    split_and!; [|by apply insert_subseteq|lia|lia].
    split_and!.
    + intros n' j. rewrite Hs. intros [[<- <-]|[_ Hj]]%lookup_insert_Some; [lia|].
      specialize (H1 _ _ Hj). lia.
    + intros j Hj. rewrite Hs in Hj. destruct (decide (j = size names)) as [->|Hne].
      * exists n. by rewrite lookup_insert_eq.
      * destruct (H2 j) as [n' Hn']; [lia|]. exists n'. rewrite lookup_insert_ne; [done|congruence].
    + intros n1 n2 j [[<- <-]|[_ Ha]]%lookup_insert_Some [[<- Hb]|[_ Hb]]%lookup_insert_Some; eauto.
      * specialize (H1 _ _ Hb). lia.
      * subst j. specialize (H1 _ _ Ha). lia.
Qed.

(** What translating a term does to the names and yields. *)
Lemma patch_term_ok t names binding pt names' :
  names_ok names → patch_term t names binding = Ok (pt, names') →
  names_ok names' ∧ names ⊆ names' ∧ clean_term pt ∧
  (∀ i, i ∈ pterm_vars pt → i < size names') ∧
  (∀ j, j < size names' → j < size names ∨ j ∈ pterm_vars pt) ∧
  (binding = Lookup → names' = names).
Proof.
  intros Hn. destruct t as [n|b|l|t|v]; simpl.
  - destruct (is_reserved_iri n) eqn:E; [done|]. intros [= <- <-].
    split_and!; auto. intros i Hi. by apply elem_of_nil in Hi.
  - destruct binding; [|done]. pose proof (rn_bind_ok names ("_:" +:+ b) Hn) as Hb.
    destruct (rn_bind _ _) as [i m]. destruct Hb as (? & ? & ? & Hj). intros [= <- <-].
    split_and!; [done|done|done| | |done].
    + intros j Hj2. simpl in Hj2. by apply list_elem_of_singleton in Hj2 as ->.
    + intros j Hlt. simpl. rewrite list_elem_of_singleton. auto.
  - case_bool_decide as E; [done|]. intros [= <- <-]. split_and!; auto; simpl.
    + by apply eq_None_not_Some.
    + intros i Hi. by apply elem_of_nil in Hi.
  - done.
  - destruct binding.
    + pose proof (rn_bind_ok names v Hn) as Hb.
      destruct (rn_bind _ _) as [i m]. destruct Hb as (? & ? & ? & Hj). intros [= <- <-].
      split_and!; [done|done|done| | |done].
      * intros j Hj2. simpl in Hj2. by apply list_elem_of_singleton in Hj2 as ->.
      * intros j Hlt. simpl. rewrite list_elem_of_singleton. auto.
    + destruct (rn_lookup names v) as [i|] eqn:E; [|done]. intros [= <- <-].
      split_and!; simpl; auto. intros j Hj2. apply list_elem_of_singleton in Hj2 as ->.
      destruct Hn as [H1 _]. by eapply H1.
Qed.

Lemma non_literal_Ok t v t' : non_literal t v = Ok t' → t' = t ∧ not_literal t.
Proof. destruct t; simpl; [by intros [= <-]|done|by intros [= <-]]. Qed.

Lemma patch_pattern_ok q names binding p names' :
  names_ok names → patch_pattern q names binding = Ok (p, names') →
  names_ok names' ∧ names ⊆ names' ∧ pattern_ok p ∧
  (∀ i, i ∈ pattern_vars p → i < size names') ∧
  (∀ j, j < size names' → j < size names ∨ j ∈ pattern_vars p) ∧
  (binding = Lookup → names' = names).
Proof.
  intros Hn Hp. unfold patch_pattern in Hp.
  apply obind_Ok in Hp as ([s n1] & Hs & Hp). apply obind_Ok in Hp as (s' & Hs' & Hp).
  apply obind_Ok in Hp as ([pr n2] & Hpr & Hp). apply obind_Ok in Hp as (pr' & Hpr' & Hp).
  apply obind_Ok in Hp as ([o n3] & Ho & [= <- <-]).
  apply non_literal_Ok in Hs' as [-> Hs']. apply non_literal_Ok in Hpr' as [-> Hpr'].
  destruct (patch_term_ok _ _ _ _ _ Hn Hs) as (Hn1 & Hsub1 & Hc1 & Hv1 & Hw1 & Hl1).
  destruct (patch_term_ok _ _ _ _ _ Hn1 Hpr) as (Hn2 & Hsub2 & Hc2 & Hv2 & Hw2 & Hl2).
  destruct (patch_term_ok _ _ _ _ _ Hn2 Ho) as (Hn3 & Hsub3 & Hc3 & Hv3 & Hw3 & Hl3).
  pose proof (map_subseteq_size _ _ Hsub2). pose proof (map_subseteq_size _ _ Hsub3).
  split_and!; [done|by trans n2; [trans n1|]|done| | |].
  - unfold pattern_vars; simpl. intros i. rewrite !elem_of_app.
    intros [Hi|[Hi|Hi]]; [specialize (Hv1 _ Hi)|specialize (Hv2 _ Hi)|by apply Hv3]; lia.
  - unfold pattern_vars; simpl. intros j Hj. rewrite !elem_of_app.
    destruct (Hw3 _ Hj) as [Hj'|?]; [|auto]. destruct (Hw2 _ Hj') as [Hj''|?]; [|auto].
    destruct (Hw1 _ Hj''); auto.
  - intros ->. by rewrite Hl3, Hl2, Hl1.
Qed.

Lemma patterns_ok quads f names binding ps names' :
  names_ok names → patterns quads f names binding = Ok (ps, names') →
  names_ok names' ∧ names ⊆ names' ∧ Forall pattern_ok ps ∧
  (∀ i, i ∈ vars ps → i < size names') ∧
  (∀ j, j < size names' → j < size names ∨ j ∈ vars ps) ∧
  (binding = Lookup → names' = names).
Proof.
  destruct f as [f|]; simpl.
  2:{ intros Hn [= <- <-]. split_and!; auto. intros i Hi. by apply elem_of_nil in Hi. }
  revert names ps. induction quads as [|q quads IH]; intros names ps Hn; simpl.
  { intros [= <- <-]. split_and!; auto. intros i Hi. by apply elem_of_nil in Hi. }
  destruct (negb _); [by apply IH|]. intros Hp.
  apply obind_Ok in Hp as ([p n1] & Hp & Hps). apply obind_Ok in Hps as ([ps' n2] & Hps & [= <- <-]).
  destruct (patch_pattern_ok _ _ _ _ _ Hn Hp) as (Hn1 & Hsub1 & Hok1 & Hv1 & Hw1 & Hl1).
  destruct (IH n1 ps' Hn1 Hps) as (Hn2 & Hsub2 & Hok2 & Hv2 & Hw2 & Hl2).
  pose proof (map_subseteq_size _ _ Hsub2).
  split_and!; [done|by trans n1|by constructor| | |].
  - intros i. unfold vars; simpl. rewrite elem_of_app.
    intros [Hi|Hi]; [specialize (Hv1 _ Hi); lia|by apply Hv2].
  - intros j Hj. unfold vars; simpl. rewrite elem_of_app.
    destruct (Hw2 _ Hj) as [Hj'|?]; [|auto]. destruct (Hw1 _ Hj'); auto.
  - intros ->. by rewrite Hl2, Hl1.
Qed.

Lemma patch_of_quads_ok quads p : patch_of_quads quads = Ok p → patch_ok p.
Proof.
  unfold patch_of_quads. intros Hp.
  apply obind_Ok in Hp as (s & _ & Hp). apply obind_Ok in Hp as (cf & _ & Hp).
  apply obind_Ok in Hp as (df & _ & Hp). apply obind_Ok in Hp as (inf & _ & Hp).
  apply obind_Ok in Hp as ([cs n1] & Hc & Hp). apply obind_Ok in Hp as ([ds n2] & Hd & Hp).
  apply obind_Ok in Hp as ([iq n3] & Hi & [= <-]).
  destruct (patterns_ok _ _ _ _ _ _ names_ok_empty Hc) as (Hn1 & _ & Hok1 & Hv1 & Hw1 & _).
  destruct (patterns_ok _ _ _ _ _ _ Hn1 Hd) as (Hn2 & _ & Hok2 & Hv2 & _ & Hl2).
  destruct (patterns_ok _ _ _ _ _ _ Hn2 Hi) as (Hn3 & _ & Hok3 & Hv3 & _ & Hl3).
  specialize (Hl2 eq_refl). specialize (Hl3 eq_refl). subst n2 n3.
  assert (∀ i, i < size n1 → i ∈ vars cs) as Hw.
  { intros i Hlt. destruct (Hw1 i Hlt) as [Hx|?]; [|done]. rewrite map_size_empty in Hx. lia. }
  split; simpl.
  - by rewrite !Forall_app.
  - unfold vars. rewrite map_app, join_app. intros i [Hx|Hx]%elem_of_app; apply Hw; auto.
  - intros i. split; [apply Hv1|apply Hw].
Qed.

(** A document for the witnesses: one condition, one insertion that uses its
    variable. *)
Definition toy_patch_quads : list N3Quad :=
  [mkN3Quad (N3Blank "p") (N3Named RDF_TYPE) (N3Named SOLID_INSERT_DELETE_PATCH) GDefault;
   mkN3Quad (N3Blank "p") (N3Named SOLID_WHERE) (N3Blank "w") GDefault;
   mkN3Quad (N3Blank "p") (N3Named SOLID_INSERTS) (N3Blank "i") GDefault;
   mkN3Quad (N3Variable "x") (N3Named "http://e/p") (N3Named "http://e/o") (GBlank "w");
   mkN3Quad (N3Variable "x") (N3Named "http://e/q") (N3Named "http://e/o") (GBlank "i")].

(** The same without the condition's variable. *)
Definition toy_insert_quads : list N3Quad :=
  [mkN3Quad (N3Blank "p") (N3Named RDF_TYPE) (N3Named SOLID_INSERT_DELETE_PATCH) GDefault;
   mkN3Quad (N3Blank "p") (N3Named SOLID_INSERTS) (N3Blank "i") GDefault;
   mkN3Quad (N3Named "http://e/s") (N3Named "http://e/q") (N3Named "http://e/o") (GBlank "i")].

(** * Properties *)



(** A patch creates a resource only from ground insertions: of a parsed
    patch, [ground_insertions] gives triples exactly when there are no
    conditions, and then the triples are the insertions, one for one, with no
    blank node in them.  The unreachable arms of the code are unreachable. *)
Theorem ground_insertions_iff `{N3Lib} (body base : string) (p : Patch)
    (Hp : parse_patch body base = Ok p) :
  (is_Some (ground_insertions p) ↔ conditions p = []) ∧
  (∀ ts, ground_insertions p = Some ts →
     Forall2 (λ pat t, ground_pattern pat = Some t) (insertions p) ts ∧
     Forall (λ t, ∃ s, t_subject t = SNamed s) ts).
Proof.
  unfold parse_patch in Hp. destruct (n3_parse base body) as [e|quads]; [done|].
  apply patch_of_quads_ok in Hp as [Hpat Hbound _]. unfold ground_insertions.
  assert (∀ ts, mapM ground_pattern (insertions p) = Some ts →
    Forall (λ t, ∃ s, t_subject t = SNamed s) ts) as Hnamed.
  { intros ts Hts. apply mapM_Some in Hts. clear Hpat Hbound.
    induction Hts as [|pat t ps ts Ht _ IH]; [done|]. constructor; [|done].
    unfold ground_pattern in Ht. destruct (p_subject pat), (p_predicate pat), (p_object pat);
      simplify_eq/=; eauto. }
  destruct (conditions p) as [|c cs] eqn:E; simpl.
  - split.
    + split; [done|]. intros _. apply mapM_is_Some, Forall_forall. intros pat Hin.
      change (is_Some (ground_pattern pat)).
      apply Forall_app in Hpat as [_ Hpat]. apply Forall_app in Hpat as [_ Hpat].
      rewrite Forall_forall in Hpat. destruct (Hpat pat Hin) as (Hs & Hpr & _).
      assert (∀ i, i ∉ pattern_vars pat) as Hv.
      { intros i Hi. assert (i ∈ vars (deletions p ++ insertions p)) as Hx.
        { unfold vars. apply list_elem_of_join. exists (pattern_vars pat). split; [done|].
          apply list_elem_of_fmap. exists pat. split; [done|]. apply elem_of_app. by right. }
        apply Hbound in Hx. by apply elem_of_nil in Hx. }
      unfold ground_pattern, pattern_vars in *.
      destruct (p_subject pat) as [s|l|i]; [|done|by destruct (Hv i); left].
      destruct (p_predicate pat) as [pr|l|i]; [|done|by destruct (Hv i); left].
      destruct (p_object pat) as [o|l|i]; [by eexists|by eexists|by destruct (Hv i); left].
    + intros ts Hts. split; [by apply mapM_Some|by apply Hnamed].
  - split; [|done]. split; [by intros [? ?]|done].
Qed.

Lemma ground_insertions_iff_witness :
  let H : N3Lib := λ _ _, inr toy_insert_quads in
  ∃ p, parse_patch "" "" = Ok p ∧ is_Some (ground_insertions p).
Proof.
  intros H. eexists. split; [vm_compute; reflexivity|].
  apply (ground_insertions_iff "" ""); vm_compute; reflexivity.
Defined.
