(* ===== verification/Store.v ===== *)
(** The store and blob interfaces ([store.rs], [blob.rs], [shelf.rs]).

    The SPARQL text the pod sends is modelled by its syntax: [update_op] and
    the query types have one constructor per form the sources build, and
    [run_ops] and [answers] give them the meaning SPARQL 1.1 documents.  A
    backend is any implementation of [Backend]; [BackendLaws] states what the
    traits [SparqlStore] and [BlobStore] oblige it to. *)
From S2P Require Import Prelude Str Terms Space Rdf Dataset Patch.
Open Scope list_scope.

Inductive StoreError : Type := StoreBackend (msg : string).
Inductive BlobError : Type := BlobBackend (msg : string).

(** A triple with the graph it is in. *)
Notation located := (string * triple)%type.

(** Three ground terms, as [substitute] writes them: a bound variable may put
    a literal where RDF allows none. *)
Record gpat : Type := GPat { gp_s : term; gp_p : term; gp_o : term }.

Definition triple_of_gpat (p : gpat) : option triple :=
  match gp_s p, gp_p p with
  | TNamed s, TNamed pr => Some (Triple (SNamed s) pr (gp_o p))
  | _, _ => None
  end.

(** One operation of a [;]-separated update. *)
Inductive update_op : Type :=
| DropSilent (g : string)                              (* DROP SILENT GRAPH <g> *)
| InsertData (qs : list located)                       (* INSERT DATA { GRAPH .. } *)
| DeleteData (qs : list located)                       (* DELETE DATA { GRAPH .. } *)
| ClearIf (g : string) (guard : list located)          (* DELETE { GRAPH <g> { ?s ?p ?o } }
                                                          WHERE { GRAPH <g> { ?s ?p ?o } guard } *)
| Modify (del ins where_ : list (string * gpat)) (guard : list located).
                                                       (* DELETE { } INSERT { } WHERE { .. guard } *)

(** The instantiations that are triples: SPARQL leaves the others out. *)
Definition instantiate (l : list (string * gpat)) : list located :=
  omap (λ x, pair x.1 <$> triple_of_gpat x.2) l.

Definition all_in (qs : list located) (G : gset located) : bool :=
  forallb (λ q, bool_decide (q ∈ G)) qs.

Definition pats_hold (ps : list (string * gpat)) (G : gset located) : bool :=
  forallb (λ x, match triple_of_gpat x.2 with
                | Some t => bool_decide ((x.1, t) ∈ G)
                | None => false
                end) ps.

Definition run_op (op : update_op) (G : gset located) : gset located :=
  match op with
  | DropSilent g => filter (λ x, x.1 ≠ g) G
  | InsertData qs => G ∪ list_to_set qs
  | DeleteData qs => G ∖ list_to_set qs
  | ClearIf g guard => if all_in guard G then filter (λ x, x.1 ≠ g) G else G
  | Modify del ins where_ guard =>
      if pats_hold where_ G && all_in guard G
      then (G ∖ list_to_set (instantiate del)) ∪ list_to_set (instantiate ins)
      else G
  end.

Definition run_ops (ops : list update_op) (G : gset located) : gset located :=
  foldl (λ G op, run_op op G) G ops.

(** * Queries *)
Inductive triples_query : Type :=
| QGraph (g : string)              (* CONSTRUCT { ?s ?p ?o } WHERE { GRAPH <g> { ?s ?p ?o } } *)
| QObjects (g s p : string).       (* CONSTRUCT { <s> <p> ?x } WHERE { GRAPH <g> { <s> <p> ?x } } *)

Definition answers (q : triples_query) (G : gset located) (t : triple) : Prop :=
  match q with
  | QGraph g => (g, t) ∈ G
  | QObjects g s p => (g, t) ∈ G ∧ t_subject t = SNamed s ∧ t_predicate t = p
  end.

(** A solution: what each variable is bound to. *)
Notation solution := (gmap string term).

Definition SYS_PRESENT : string := "urn:quadpod:sys#present".

Definition present_triple (iri : string) : triple := Triple (SNamed iri) SYS_PRESENT lit_true.

Inductive select_query : Type :=
| SelPresent (values : list (string * string))
    (* SELECT ?g WHERE { VALUES (?sys ?g) {..} GRAPH ?sys { ?g <present> true } } *)
| SelGraphs (gs : list string)
    (* SELECT ?g ?s ?p ?o WHERE { VALUES ?g {..} GRAPH ?g { ?s ?p ?o } } *)
| SelPatterns (g : string) (ps : list Pattern).
    (* SELECT * WHERE { GRAPH <g> { .. } } LIMIT 2 *)

(** [format!("v{i}")]. *)
Definition var_name (i : nat) : string := "v" +:+ pretty i.

(** A pattern term under a solution. *)
Definition subst_term (r : solution) (t : PatternTerm) : option term :=
  match t with
  | PNamed n => Some (TNamed n)
  | PLiteral l => Some (TLiteral l)
  | PVar i => r !! var_name i
  end.

Definition subst_pattern (r : solution) (p : Pattern) : option gpat :=
  s ← subst_term r (p_subject p);
  pr ← subst_term r (p_predicate p);
  o ← subst_term r (p_object p);
  Some (GPat s pr o).

(** A solution of a group of patterns in one graph. *)
Definition is_solution (G : gset located) (g : string) (ps : list Pattern) (r : solution) : Prop :=
  dom r = list_to_set (var_name <$> vars ps) ∧
  Forall (λ p, ∃ s pr o, subst_pattern r p = Some (GPat s pr o) ∧
    ∃ t, (g, t) ∈ G ∧ term_of_subject (t_subject t) = s ∧ TNamed (t_predicate t) = pr ∧ t_object t = o) ps.

(** What a [SELECT] may answer. *)
Definition solutions_ok (q : select_query) (G : gset located) (rows : list solution) : Prop :=
  match q with
  | SelPresent values =>
      ∀ r, r ∈ rows ↔ ∃ sys g, (sys, g) ∈ values ∧ (sys, present_triple g) ∈ G ∧
                                r = {["g" := TNamed g]}
  | SelGraphs gs =>
      ∀ r, r ∈ rows ↔ ∃ g t, g ∈ gs ∧ (g, t) ∈ G ∧
        r = <["g" := TNamed g]> (<["s" := term_of_subject (t_subject t)]>
              (<["p" := TNamed (t_predicate t)]> {["o" := t_object t]}))
  | SelPatterns g ps =>
      NoDup rows ∧ length rows <= 2 ∧
      (∀ r, r ∈ rows → is_solution G g ps r) ∧
      (length rows < 2 → ∀ r, is_solution G g ps r → r ∈ rows)
  end.

(** * The interfaces *)
Class Backend (W : Type) : Type := {
  update : list update_op → M W StoreError unit;
  query_triples : triples_query → M W StoreError (list triple);
  ask : list (string * gpat) → M W StoreError bool;
  query_solutions : select_query → M W StoreError (list solution);
  store_rdf_version : RdfVersion;
  blob_put : string → string → M W BlobError unit;
  blob_get : string → M W BlobError (option string);
  blob_delete : string → M W BlobError unit
}.

Class BackendLaws (W : Type) `{Backend W} : Type := {
  graphs : W → gset located;
  objects : W → gmap string string;
  (** A sequence is atomic: it happens, or it fails and has happened or not. *)
  update_law ops w :
    match update ops w with
    | (Ok _, w') => graphs w' = run_ops ops (graphs w) ∧ objects w' = objects w
    | (Err _, w') => (graphs w' = graphs w ∨ graphs w' = run_ops ops (graphs w)) ∧
                     objects w' = objects w
    | (Panicked, _) => False
    end;
  (** Reads answer or fail, and change nothing. *)
  query_triples_law q w :
    match query_triples q w with
    | (Ok ts, w') => graphs w' = graphs w ∧ objects w' = objects w ∧
                     NoDup ts ∧ ∀ t, t ∈ ts ↔ answers q (graphs w) t
    | (Err _, w') => graphs w' = graphs w ∧ objects w' = objects w
    | (Panicked, _) => False
    end;
  ask_law ps w :
    match ask ps w with
    | (Ok b, w') => graphs w' = graphs w ∧ objects w' = objects w ∧ b = pats_hold ps (graphs w)
    | (Err _, w') => graphs w' = graphs w ∧ objects w' = objects w
    | (Panicked, _) => False
    end;
  query_solutions_law q w :
    match query_solutions q w with
    | (Ok rows, w') => graphs w' = graphs w ∧ objects w' = objects w ∧
                       solutions_ok q (graphs w) rows
    | (Err _, w') => graphs w' = graphs w ∧ objects w' = objects w
    | (Panicked, _) => False
    end;
  (** [put] writes the whole payload or nothing; deleting an absent object
      succeeds; [get] tells an absent object from a failure. *)
  blob_put_law k b w :
    match blob_put k b w with
    | (Ok _, w') => graphs w' = graphs w ∧ objects w' = <[k := b]> (objects w)
    | (Err _, w') => graphs w' = graphs w ∧
                     (objects w' = objects w ∨ objects w' = <[k := b]> (objects w))
    | (Panicked, _) => False
    end;
  blob_get_law k w :
    match blob_get k w with
    | (Ok r, w') => graphs w' = graphs w ∧ objects w' = objects w ∧ r = objects w !! k
    | (Err _, w') => graphs w' = graphs w ∧ objects w' = objects w
    | (Panicked, _) => False
    end;
  blob_delete_law k w :
    match blob_delete k w with
    | (Ok _, w') => graphs w' = graphs w ∧ objects w' = delete k (objects w)
    | (Err _, w') => graphs w' = graphs w ∧
                     (objects w' = objects w ∨ objects w' = delete k (objects w))
    | (Panicked, _) => False
    end
}.

(** * Shelf keys *)
Definition SYS_HAS_SUBGRAPH : string := "urn:quadpod:sys#hasSubgraph".
Definition SYS_GRAPH_NAME : string := "urn:quadpod:sys#graphName".
Definition SYS_MEDIA_TYPE : string := "urn:quadpod:sys#mediaType".
Definition SHELF_PREFIX : string := "urn:quadpod:subgraph:".

Definition NUL : string := String "000" "".

(** A [ShelfKey] is the IRI it holds. *)
Definition ShelfKey : Type := string.

Definition shelf_key_of `{Hashing} (r : ResourceUrl) (graph_name : string) : ShelfKey :=
  SHELF_PREFIX +:+ sha256_hex (graph_iri r +:+ NUL +:+ graph_name).

Definition from_registry (iri : string) : ShelfKey := iri.

(** * Blob keys *)
Definition MAX_SEGMENT_BYTES : nat := 255.
Definition MAX_PATH_BYTES : nat := 1024.

(** [object_store::path::Path::from], which percent-encodes. *)
Class ObjectPath : Type := path_from : string → string.

Definition is_slash (c : ascii) : bool := Ascii.eqb c "/".

Definition blob_key_of `{ObjectPath} (r : ResourceUrl) : option string :=
  let rel := trim_start is_slash (r_path r) in
  if ends_with "/" rel then None else
  let path := path_from rel in
  if Nat.ltb MAX_PATH_BYTES (String.length path) then None else
  if existsb (λ p, Nat.ltb MAX_SEGMENT_BYTES (String.length p)) (split_char "/"%char path)
  then None else Some path.

(** * What an update leaves *)

Lemma run_ops_app ops ops' G : run_ops (ops ++ ops') G = run_ops ops' (run_ops ops G).
Proof. apply foldl_app. Qed.

Lemma elem_of_drops gs G x : x ∈ run_ops (map DropSilent gs) G ↔ x ∈ G ∧ x.1 ∉ gs.
Proof.
  unfold run_ops. revert G. induction gs as [|g gs IH]; intros G; simpl.
  - split; [|by intros [? _]]. intros ?. split; [done|]. by intros ?%elem_of_nil.
  - rewrite IH, elem_of_filter, elem_of_cons. naive_solver.
Qed.

Lemma elem_of_inserts qss G x : x ∈ run_ops (map InsertData qss) G ↔ x ∈ mjoin qss ∨ x ∈ G.
Proof.
  unfold run_ops. revert G. induction qss as [|qs qss IH]; intros G; simpl.
  - split; [auto|]. intros [?%elem_of_nil|?]; [done|auto].
  - rewrite IH, elem_of_app, elem_of_union, elem_of_list_to_set. naive_solver.
Qed.

(** Every rewrite of the pod has this shape: graphs are dropped, then data is
    inserted. *)
Lemma elem_of_rewrite gs qss G x :
  x ∈ run_ops (map DropSilent gs ++ map InsertData qss) G ↔
  x ∈ mjoin qss ∨ (x ∈ G ∧ x.1 ∉ gs).
Proof. by rewrite run_ops_app, elem_of_inserts, elem_of_drops. Qed.

Lemma pats_hold_1 g p t G :
  triple_of_gpat p = Some t → pats_hold [(g, p)] G = bool_decide ((g, t) ∈ G).
Proof. intros E. unfold pats_hold. simpl. by rewrite E, andb_true_r. Qed.

(** * Reasoning about a backend *)
Section laws.
Context {W : Type} `{BackendLaws W}.

(** The world looks the same. *)
Definition same (w w' : W) : Prop := graphs w' = graphs w ∧ objects w' = objects w.

Lemma same_refl w : same w w.
Proof. done. Qed.

Lemma same_trans (w w' w'' : W) : same w w' → same w' w'' → same w w''.
Proof. unfold same. intros [-> ->] [-> ->]. done. Qed.

Lemma wp_update ops (Φ : outcome StoreError unit → W → Prop) w :
  (∀ w', graphs w' = run_ops ops (graphs w) → objects w' = objects w → Φ (Ok tt) w') →
  (∀ e w', graphs w' = graphs w ∨ graphs w' = run_ops ops (graphs w) →
     objects w' = objects w → Φ (Err e) w') →
  wp (update ops) Φ w.
Proof.
  intros Hok Herr. unfold wp. pose proof (update_law ops w) as Hl.
  destruct (update ops w) as [[[]|e|] w']; naive_solver.
Qed.

Lemma wp_query_triples q (Φ : outcome StoreError (list triple) → W → Prop) w :
  (∀ ts w', same w w' → NoDup ts → (∀ t, t ∈ ts ↔ answers q (graphs w) t) → Φ (Ok ts) w') →
  (∀ e w', same w w' → Φ (Err e) w') →
  wp (query_triples q) Φ w.
Proof.
  intros Hok Herr. unfold wp. pose proof (query_triples_law q w) as Hl.
  destruct (query_triples q w) as [[ts|e|] w']; [|by apply Herr|done].
  destruct Hl as (? & ? & ? & ?). by apply Hok.
Qed.

Lemma wp_ask ps (Φ : outcome StoreError bool → W → Prop) w :
  (∀ w', same w w' → Φ (Ok (pats_hold ps (graphs w))) w') →
  (∀ e w', same w w' → Φ (Err e) w') →
  wp (ask ps) Φ w.
Proof.
  intros Hok Herr. unfold wp. pose proof (ask_law ps w) as Hl.
  destruct (ask ps w) as [[b|e|] w']; [|by apply Herr|done].
  destruct Hl as (? & ? & ->). by apply Hok.
Qed.

Lemma wp_query_solutions q (Φ : outcome StoreError (list solution) → W → Prop) w :
  (∀ rows w', same w w' → solutions_ok q (graphs w) rows → Φ (Ok rows) w') →
  (∀ e w', same w w' → Φ (Err e) w') →
  wp (query_solutions q) Φ w.
Proof.
  intros Hok Herr. unfold wp. pose proof (query_solutions_law q w) as Hl.
  destruct (query_solutions q w) as [[rows|e|] w']; [|by apply Herr|done].
  destruct Hl as (? & ? & ?). by apply Hok.
Qed.

Lemma wp_blob_put k b (Φ : outcome BlobError unit → W → Prop) w :
  (∀ w', graphs w' = graphs w → objects w' = <[k := b]> (objects w) → Φ (Ok tt) w') →
  (∀ e w', graphs w' = graphs w → Φ (Err e) w') →
  wp (blob_put k b) Φ w.
Proof.
  intros Hok Herr. unfold wp. pose proof (blob_put_law k b w) as Hl.
  destruct (blob_put k b w) as [[[]|e|] w']; naive_solver.
Qed.

Lemma wp_blob_delete k (Φ : outcome BlobError unit → W → Prop) w :
  (∀ w', graphs w' = graphs w → objects w' = delete k (objects w) → Φ (Ok tt) w') →
  (∀ e w', graphs w' = graphs w → objects w' = objects w ∨ objects w' = delete k (objects w) →
     Φ (Err e) w') →
  wp (blob_delete k) Φ w.
Proof.
  intros Hok Herr. unfold wp. pose proof (blob_delete_law k w) as Hl.
  destruct (blob_delete k w) as [[[]|e|] w']; naive_solver.
Qed.
End laws.

(** Close [same w w'] along a chain of worlds. *)
Ltac by_same :=
  solve [ done | eassumption
        | eapply same_trans; [|eassumption]; first
            [ eassumption
            | eapply same_trans; [|eassumption]; first
                [ eassumption
                | eapply same_trans; [|eassumption]; first
                    [ eassumption | eapply same_trans; [|eassumption]; eassumption ] ] ] ].
