(* ===== verification/Mem.v ===== *)
(** An in-memory backend with injected failures: what [in_memory()] gives the
    program, and the concrete backend the witnesses run on.  [BackendLaws] is
    proved of it, so the hypotheses of the theorems over a backend hold of
    something that can also fail, before or after a commit. *)
From S2P Require Import Prelude Str Terms Space Rdf Dataset Patch Store.
Open Scope list_scope.

(** What happens to the next call. *)
Inductive fault : Type := FailBefore | FailAfter.

Record Mem (X : Type) : Type := mkMem {
  m_triples : list located;
  m_objects : gmap string string;
  m_faults : list (option fault);
  m_extra : X
}.
Arguments mkMem {X} _ _ _ _.
Arguments m_triples {X} _.
Arguments m_objects {X} _.
Arguments m_faults {X} _.
Arguments m_extra {X} _.

Section mem.
Context {X : Type}.

Definition mem_set (w : Mem X) (G : list located) (O : gmap string string) (fs : list (option fault)) : Mem X :=
  mkMem G O fs (m_extra w).

(** A write that may fail before or after it took effect. *)
Definition mem_write {E : Type} (e : E) (f : list located → list located)
    (g : gmap string string → gmap string string) : M (Mem X) E unit := λ w,
  let done_ fs := mem_set w (f (m_triples w)) (g (m_objects w)) fs in
  match m_faults w with
  | [] => (Ok tt, done_ [])
  | None :: fs => (Ok tt, done_ fs)
  | Some FailBefore :: fs => (Err e, mem_set w (m_triples w) (m_objects w) fs)
  | Some FailAfter :: fs => (Err e, done_ fs)
  end.

Definition mem_read {E A : Type} (e : E) (f : list located → gmap string string → A)
    : M (Mem X) E A := λ w,
  let same fs := mem_set w (m_triples w) (m_objects w) fs in
  match m_faults w with
  | [] => (Ok (f (m_triples w) (m_objects w)), same [])
  | None :: fs => (Ok (f (m_triples w) (m_objects w)), same fs)
  | Some _ :: fs => (Err e, same fs)
  end.

(** ** Updates, on the list of triples *)
Definition mem_all_in (qs G : list located) : bool := forallb (λ q, bool_decide (q ∈ G)) qs.

Definition mem_pats_hold (ps : list (string * gpat)) (G : list located) : bool :=
  forallb (λ x, match triple_of_gpat x.2 with
                | Some t => bool_decide ((x.1, t) ∈ G)
                | None => false
                end) ps.

Definition mem_run_op (op : update_op) (G : list located) : list located :=
  match op with
  | DropSilent g => filter (λ x, x.1 ≠ g) G
  | InsertData qs => G ++ qs
  | DeleteData qs => filter (λ x, x ∉ qs) G
  | ClearIf g guard => if mem_all_in guard G then filter (λ x, x.1 ≠ g) G else G
  | Modify del ins where_ guard =>
      if mem_pats_hold where_ G && mem_all_in guard G
      then filter (λ x, x ∉ instantiate del) G ++ instantiate ins
      else G
  end.

Definition mem_run (ops : list update_op) (G : list located) : list located :=
  foldl (λ G op, mem_run_op op G) G ops.

(** ** Queries *)
Definition mem_triples (q : triples_query) (G : list located) : list triple :=
  remove_dups (snd <$>
    match q with
    | QGraph g => filter (λ x, x.1 = g) G
    | QObjects g s p => filter (λ x, x.1 = g ∧ t_subject x.2 = SNamed s ∧ t_predicate x.2 = p) G
    end).

Definition match_term (t : PatternTerm) (v : term) (r : solution) : option solution :=
  match t with
  | PNamed n => if bool_decide (v = TNamed n) then Some r else None
  | PLiteral l => if bool_decide (v = TLiteral l) then Some r else None
  | PVar i =>
      match r !! var_name i with
      | Some v' => if bool_decide (v = v') then Some r else None
      | None => Some (<[var_name i := v]> r)
      end
  end.

Definition match_triple (p : Pattern) (t : triple) (r : solution) : option solution :=
  r ← match_term (p_subject p) (term_of_subject (t_subject t)) r;
  r ← match_term (p_predicate p) (TNamed (t_predicate t)) r;
  match_term (p_object p) (t_object t) r.

Fixpoint solve (ts : list triple) (ps : list Pattern) (r : solution) : list solution :=
  match ps with
  | [] => [r]
  | p :: ps => omap (λ t, match_triple p t r) ts ≫= solve ts ps
  end.

Definition mem_select (q : select_query) (G : list located) : list solution :=
  match q with
  | SelPresent values =>
      (λ x : string * string, {["g" := TNamed x.2]}) <$>
        filter (λ x, (x.1, present_triple x.2) ∈ G) values
  | SelGraphs gs =>
      (λ x : located, <["g" := TNamed x.1]> (<["s" := term_of_subject (t_subject x.2)]>
              (<["p" := TNamed (t_predicate x.2)]> {["o" := t_object x.2]}))) <$>
        filter (λ x, x.1 ∈ gs) G
  | SelPatterns g ps => take 2 (remove_dups (solve (mem_triples (QGraph g) G) ps ∅))
  end.

Definition mem_store_error : StoreError := StoreBackend "store down".
Definition mem_blob_error : BlobError := BlobBackend "blobs down".

#[export] Instance mem_backend : Backend (Mem X) := {|
  update ops := mem_write mem_store_error (mem_run ops) id;
  query_triples q := mem_read mem_store_error (λ G _, mem_triples q G);
  ask ps := mem_read mem_store_error (λ G _, mem_pats_hold ps G);
  query_solutions q := mem_read mem_store_error (λ G _, mem_select q G);
  store_rdf_version := Rdf12;
  blob_put k b := mem_write mem_blob_error id <[k := b]>;
  blob_get k := mem_read mem_blob_error (λ _ O, O !! k);
  blob_delete k := mem_write mem_blob_error id (delete k)
|}.

(** ** The laws *)
Definition set_of (G : list located) : gset located := list_to_set G.

Lemma elem_of_set_of x G : x ∈ set_of G ↔ x ∈ G.
Proof. apply elem_of_list_to_set. Qed.

Lemma mem_all_in_spec qs G : mem_all_in qs G = all_in qs (set_of G).
Proof.
  unfold mem_all_in, all_in. induction qs as [|q qs IH]; simpl; [done|]. rewrite IH. f_equal.
  apply bool_decide_ext. by rewrite elem_of_set_of.
Qed.

Lemma mem_pats_hold_spec ps G : mem_pats_hold ps G = pats_hold ps (set_of G).
Proof.
  unfold mem_pats_hold, pats_hold. induction ps as [|q ps IH]; simpl; [done|]. rewrite IH. f_equal.
  destruct (triple_of_gpat q.2); [|done]. apply bool_decide_ext. by rewrite elem_of_set_of.
Qed.

Lemma mem_run_op_spec op G : set_of (mem_run_op op G) = run_op op (set_of G).
Proof.
  apply set_eq. intros x. destruct op as [g|qs|qs|g guard|del ins wh guard]; simpl;
    rewrite <- ?mem_all_in_spec, <- ?mem_pats_hold_spec; try case_match;
    rewrite ?elem_of_set_of, ?elem_of_app, ?elem_of_union, ?elem_of_difference, ?elem_of_filter,
      ?elem_of_list_to_set, ?list_elem_of_filter, ?elem_of_set_of; tauto.
Qed.

Lemma mem_run_spec ops G : set_of (mem_run ops G) = run_ops ops (set_of G).
Proof.
  unfold mem_run, run_ops. revert G. induction ops as [|op ops IH]; intros G; simpl; [done|].
  by rewrite IH, mem_run_op_spec.
Qed.

Lemma mem_triples_spec q G :
  NoDup (mem_triples q G) ∧ ∀ t, t ∈ mem_triples q G ↔ answers q (set_of G) t.
Proof.
  split; [apply NoDup_remove_dups|]. intros t. unfold mem_triples.
  rewrite elem_of_remove_dups, list_elem_of_fmap. destruct q as [g|g s p]; simpl;
    rewrite elem_of_set_of; split.
  - intros ([g' t'] & -> & [H1 H2]%list_elem_of_filter). simpl in *. by subst.
  - intros Ht. exists (g, t). split; [done|]. by apply list_elem_of_filter.
  - intros ([g' t'] & -> & [(H1 & H2 & H3) H4]%list_elem_of_filter). simpl in *. by subst.
  - intros (H1 & H2 & H3). exists (g, t). split; [done|]. by apply list_elem_of_filter.
Qed.

Definition names_of (vs : list nat) : gset string := list_to_set (var_name <$> vs).

Lemma match_term_Some t v r r' :
  match_term t v r = Some r' →
  r ⊆ r' ∧ dom r' = dom r ∪ names_of (pterm_vars t) ∧ subst_term r' t = Some v.
Proof.
  destruct t as [n|l|i]; simpl; unfold names_of; simpl.
  - case_bool_decide; [|done]. intros [= <-]. split_and!; [done|by rewrite union_empty_r_L|by subst].
  - case_bool_decide; [|done]. intros [= <-]. split_and!; [done|by rewrite union_empty_r_L|by subst].
  - destruct (r !! var_name i) as [v'|] eqn:E.
    + case_bool_decide; [|done]. intros [= <-]. apply elem_of_dom_2 in E as Hd.
      split_and!; [done|set_solver|by subst].
    + intros [= <-]. split_and!; [by apply insert_subseteq|set_solver|apply lookup_insert_eq].
Qed.

Lemma match_term_complete t v r R :
  r ⊆ R → subst_term R t = Some v → ∃ r', match_term t v r = Some r' ∧ r' ⊆ R.
Proof.
  intros Hr. destruct t as [n|l|i]; simpl.
  - intros [= <-]. exists r. by rewrite bool_decide_eq_true_2.
  - intros [= <-]. exists r. by rewrite bool_decide_eq_true_2.
  - intros Hv. destruct (r !! var_name i) as [v'|] eqn:E.
    + pose proof (lookup_weaken _ _ _ _ E Hr). simplify_eq.
      exists r. by rewrite bool_decide_eq_true_2.
    + eexists. split; [done|]. by apply insert_subseteq_l.
Qed.

Lemma subst_term_mono t r r' v : r ⊆ r' → subst_term r t = Some v → subst_term r' t = Some v.
Proof. destruct t; simpl; [done..|]. intros Hr Hv. by eapply lookup_weaken. Qed.

(** What a pattern matches in a graph, under a solution. *)
Definition holds_in (ts : list triple) (r : solution) (p : Pattern) : Prop :=
  ∃ t, t ∈ ts ∧ subst_term r (p_subject p) = Some (term_of_subject (t_subject t)) ∧
       subst_term r (p_predicate p) = Some (TNamed (t_predicate t)) ∧
       subst_term r (p_object p) = Some (t_object t).

Lemma match_triple_Some p t r r' :
  match_triple p t r = Some r' →
  r ⊆ r' ∧ dom r' = dom r ∪ names_of (pattern_vars p) ∧
  subst_term r' (p_subject p) = Some (term_of_subject (t_subject t)) ∧
  subst_term r' (p_predicate p) = Some (TNamed (t_predicate t)) ∧
  subst_term r' (p_object p) = Some (t_object t).
Proof.
  unfold match_triple. intros (r1 & H1 & H)%bind_Some. apply bind_Some in H as (r2 & H2 & H3).
  apply match_term_Some in H1 as (S1 & D1 & E1), H2 as (S2 & D2 & E2), H3 as (S3 & D3 & E3).
  split_and!; [by trans r1; [|trans r2]| | | |done].
  - rewrite D3, D2, D1. unfold names_of, pattern_vars.
    rewrite !fmap_app, !list_to_set_app_L. by rewrite !(assoc_L (∪)).
  - eapply subst_term_mono; [|done]. by trans r2.
  - by eapply subst_term_mono.
Qed.

Lemma match_triple_complete p t r R :
  r ⊆ R → subst_term R (p_subject p) = Some (term_of_subject (t_subject t)) →
  subst_term R (p_predicate p) = Some (TNamed (t_predicate t)) →
  subst_term R (p_object p) = Some (t_object t) →
  ∃ r', match_triple p t r = Some r' ∧ r' ⊆ R.
Proof.
  intros Hr H1 H2 H3. unfold match_triple.
  destruct (match_term_complete _ _ r R Hr H1) as (r1 & -> & Hr1). simpl.
  destruct (match_term_complete _ _ r1 R Hr1 H2) as (r2 & -> & Hr2). simpl.
  by apply match_term_complete.
Qed.

Lemma solve_spec ts ps r r' :
  r' ∈ solve ts ps r ↔
  r ⊆ r' ∧ dom r' = dom r ∪ names_of (vars ps) ∧ Forall (holds_in ts r') ps.
Proof.
  revert r. induction ps as [|p ps IH]; intros r; simpl.
  - rewrite list_elem_of_singleton. split; [intros ->; split_and!; [done|unfold names_of; simpl; by rewrite union_empty_r_L|by constructor]|].
    intros (Hs & Hd & _). symmetry. apply map_subseteq_size_eq; [done|].
    rewrite <- !size_dom, Hd. unfold names_of. simpl. rewrite union_empty_r_L. lia.
  - change (vars (p :: ps)) with (pattern_vars p ++ vars ps).
    assert (names_of (pattern_vars p ++ vars ps) =
              names_of (pattern_vars p) ∪ names_of (vars ps)) as ->
      by (unfold names_of; by rewrite fmap_app, list_to_set_app_L).
    rewrite list_elem_of_bind. split.
    + intros (r1 & Hr' & Hr1). apply list_elem_of_omap in Hr1 as (t & Ht & Hm).
      apply match_triple_Some in Hm as (S1 & D1 & E1 & E2 & E3).
      apply IH in Hr' as (S2 & D2 & HF). split_and!; [by trans r1|by rewrite D2, D1, (assoc_L (∪))|].
      constructor; [|done]. exists t. split_and!; [done|by eapply subst_term_mono..].
    + intros (Hs & Hd & [(t & Ht & E1 & E2 & E3) HF]%Forall_cons).
      destruct (match_triple_complete p t r r' Hs E1 E2 E3) as (r1 & Hm & Hr1).
      exists r1. split; [|apply list_elem_of_omap; by exists t].
      apply IH. split_and!; [done| |done].
      apply match_triple_Some in Hm as (_ & D1 & _). by rewrite D1, Hd, (assoc_L (∪)).
Qed.

Lemma is_solution_iff G g ps r :
  is_solution (set_of G) g ps r ↔ r ∈ solve (mem_triples (QGraph g) G) ps ∅.
Proof.
  rewrite solve_spec. unfold is_solution.
  rewrite dom_empty_L, union_empty_l_L. fold (names_of (vars ps)).
  assert (∀ p, (∃ s pr o, subst_pattern r p = Some (GPat s pr o) ∧
            ∃ t, (g, t) ∈ set_of G ∧ term_of_subject (t_subject t) = s ∧
                 TNamed (t_predicate t) = pr ∧ t_object t = o) ↔
            holds_in (mem_triples (QGraph g) G) r p) as Hp.
  { intros p. unfold holds_in, subst_pattern. destruct (mem_triples_spec (QGraph g) G) as [_ Hm].
    split.
    - intros (s & pr & o & Hs & t & Ht & <- & <- & <-). exists t. split; [by apply Hm|].
      apply bind_Some in Hs as (? & ? & Hs). apply bind_Some in Hs as (? & ? & Hs).
      apply bind_Some in Hs as (? & ? & [= -> -> ->]). done.
    - intros (t & Ht & -> & -> & ->). simpl. do 3 eexists. split; [done|].
      exists t. split; [|done]. by apply Hm. }
  split; [intros [Hd HF]|intros (_ & Hd & HF)]; split_and!; try done; try apply map_empty_subseteq.
  - eapply Forall_impl; [done|]. intros p. apply Hp.
  - eapply Forall_impl; [done|]. intros p. apply Hp.
Qed.

Lemma mem_select_ok q G : solutions_ok q (set_of G) (mem_select q G).
Proof.
  destruct q as [values|gs|g ps]; simpl.
  - intros r. rewrite list_elem_of_fmap. split.
    + intros ([sys g] & -> & [H1 H2]%list_elem_of_filter). exists sys, g. by rewrite elem_of_set_of.
    + intros (sys & g & H1 & H2 & ->). exists (sys, g). split; [done|].
      apply list_elem_of_filter. split; [by apply elem_of_set_of|done].
  - intros r. rewrite list_elem_of_fmap. split.
    + intros ([g t] & -> & [H1 H2]%list_elem_of_filter). exists g, t. by rewrite elem_of_set_of.
    + intros (g & t & H1 & H2 & ->). exists (g, t). split; [done|].
      apply list_elem_of_filter. split; [done|]. by apply elem_of_set_of.
  - set (l := remove_dups _). assert (∀ r, r ∈ l ↔ is_solution (set_of G) g ps r) as Hl.
    { intros r. unfold l. by rewrite elem_of_remove_dups, is_solution_iff. }
    pose proof (NoDup_remove_dups (solve (mem_triples (QGraph g) G) ps ∅)) as Hd. fold l in Hd.
    split_and!.
    + by eapply sublist_NoDup, sublist_take.
    + rewrite length_take. lia.
    + intros r Hr. apply Hl. by eapply elem_of_take in Hr as (i & ? & _); eapply list_elem_of_lookup_2.
    + intros Hlen r Hr. rewrite length_take in Hlen. rewrite take_ge by lia. by apply Hl.
Qed.

#[export] Instance mem_laws : BackendLaws (Mem X).
Proof.
  refine {| graphs w := set_of (m_triples w); objects := m_objects |}.
  - intros ops w. simpl. unfold mem_write.
    destruct (m_faults w) as [|[[]|] fs]; simpl; rewrite ?mem_run_spec; auto.
  - intros q w. simpl. unfold mem_read. destruct (mem_triples_spec q (m_triples w)) as [Hd Hs].
    destruct (m_faults w) as [|[[]|] fs]; simpl; auto.
  - intros ps w. simpl. unfold mem_read. rewrite mem_pats_hold_spec.
    destruct (m_faults w) as [|[[]|] fs]; simpl; auto.
  - intros q w. simpl. unfold mem_read. pose proof (mem_select_ok q (m_triples w)).
    destruct (m_faults w) as [|[[]|] fs]; simpl; auto.
  - intros k b w. simpl. unfold mem_write. destruct (m_faults w) as [|[[]|] fs]; simpl; auto.
  - intros k w. simpl. unfold mem_read. destruct (m_faults w) as [|[[]|] fs]; simpl; auto.
  - intros k w. simpl. unfold mem_write. destruct (m_faults w) as [|[[]|] fs]; simpl; auto.
Defined.
End mem.

(** ** Concrete third-party parts, for the witnesses *)
Definition toy_header : HeaderSyntax := λ _, true.
Definition toy_hash : Hashing := λ s, s.
Definition toy_path : ObjectPath := λ s, s.

(** An empty pod whose next calls fail as told. *)
Definition empty_mem (faults : list (option fault)) : Mem () := mkMem [] ∅ faults tt.
