(* ===== verification/Backing.v ===== *)
(** The backends that ship ([OxigraphStore] of [store.rs], [ObjectStoreBlobs] of
    [blob.rs]): what they make of the two libraries' answers, and that it is
    what [SparqlStore] and [BlobStore] oblige a backend to.

    Oxigraph, the object store and Tokio's blocking pool are parameters. *)
From S2P Require Import Prelude Str Terms Space Rdf Dataset Patch Store Mem.
Open Scope list_scope.

(** * What the wrappers rely on *)

(** The three forms of a query, and of its results, an item of which may fail
    to be read. *)
Inductive Query : Type :=
| QConstruct (q : triples_query)
| QAsk (ps : list (string * gpat))
| QSelect (q : select_query).

Inductive QueryResults : Type :=
| Solutions (rows : list (string + solution))
| Boolean (b : bool)
| GraphResults (triples : list (string + triple)).

(** [oxigraph::store::Store]; an error is what it displays. *)
Class Oxigraph (W : Type) : Type := {
  store_update : list update_op → M W string unit;
  parse_query : Query → option string;
  execute : Query → M W string QueryResults
}.

(** [object_store::Error], as far as the code looks. *)
Inductive OsError : Type := OsNotFound | OsOther (msg : string).

Class ObjectStore (W : Type) : Type := {
  GetResult : Type;
  os_put : string → string → M W OsError unit;
  os_get : string → M W OsError GetResult;
  get_bytes : GetResult → M W OsError string;
  os_delete : string → M W OsError unit;
  os_display : OsError → string
}.

(** [tokio::task::spawn_blocking], awaited: what the closure returned, or the
    error of the join. *)
Class BlockingPool (W : Type) : Type :=
  spawn_blocking : ∀ A : Type, M W StoreError A → M W string (StoreError + A).

(** * [OxigraphStore] *)
Section oxigraph.
Context {W : Type} `{Oxigraph W} `{BlockingPool W}.

Definition blocking {A : Type} (f : M W StoreError A) : M W StoreError A :=
  let! joined := map_err (λ e, StoreBackend ("store task did not complete: " +:+ e)) (spawn_blocking A f) in
  lift (match joined with inl e => Err e | inr a => Ok a end).

Definition evaluate (q : Query) : M W StoreError QueryResults :=
  match parse_query q with
  | Some e => throw (StoreBackend e)
  | None => map_err StoreBackend (execute q)
  end.

(** [.map(|t| t.map_err(..)).collect()], which stops at the first error. *)
Fixpoint collect {A : Type} (items : list (string + A)) : outcome StoreError (list A) :=
  match items with
  | [] => Ok []
  | inl e :: _ => Err (StoreBackend e)
  | inr a :: items => let? l := collect items in Ok (a :: l)
  end.

Definition oxigraph_update (ops : list update_op) : M W StoreError unit :=
  blocking (map_err StoreBackend (store_update ops)).

Definition oxigraph_query_triples (q : triples_query) : M W StoreError (list triple) :=
  blocking (
    let! results := evaluate (QConstruct q) in
    match results with
    | GraphResults triples => lift (collect triples)
    | _ => throw (StoreBackend "expected CONSTRUCT/graph results")
    end).

Definition oxigraph_ask (ps : list (string * gpat)) : M W StoreError bool :=
  blocking (
    let! results := evaluate (QAsk ps) in
    match results with
    | Boolean b => ret b
    | _ => throw (StoreBackend "expected ASK/boolean results")
    end).

Definition oxigraph_query_solutions (q : select_query) : M W StoreError (list solution) :=
  blocking (
    let! results := evaluate (QSelect q) in
    match results with
    | Solutions solutions => lift (collect solutions)
    | _ => throw (StoreBackend "expected SELECT/solution results")
    end).

Definition oxigraph_rdf_version : RdfVersion := Rdf12.
End oxigraph.

(** * [ObjectStoreBlobs] *)
Section objects.
Context {W : Type} `{ObjectStore W}.

Definition os_backend (e : OsError) : BlobError := BlobBackend (os_display e).

Definition object_put (key bytes : string) : M W BlobError unit := map_err os_backend (os_put key bytes).

Definition object_get (key : string) : M W BlobError (option string) :=
  let! r := attempt (os_get key) in
  match r with
  | inr r => let! bytes := map_err os_backend (get_bytes r) in ret (Some bytes)
  | inl OsNotFound => ret None
  | inl e => throw (os_backend e)
  end.

Definition object_delete (key : string) : M W BlobError unit :=
  let! r := attempt (os_delete key) in
  match r with
  | inr _ | inl OsNotFound => ret tt
  | inl e => throw (os_backend e)
  end.
End objects.

Definition shipped_backend {W : Type} `{Oxigraph W} `{BlockingPool W} `{ObjectStore W} : Backend W := {|
  update := oxigraph_update;
  query_triples := oxigraph_query_triples;
  ask := oxigraph_ask;
  query_solutions := oxigraph_query_solutions;
  store_rdf_version := oxigraph_rdf_version;
  blob_put := object_put;
  blob_get := object_get;
  blob_delete := object_delete
|}.

(** * What the libraries document *)

(** The results of a query, if every item of them can be read. *)
Definition results_ok (q : Query) (G : gset located) (res : QueryResults) : Prop :=
  match q, res with
  | QConstruct q, GraphResults items =>
      ∀ ts, items = inr <$> ts → NoDup ts ∧ ∀ t, t ∈ ts ↔ answers q G t
  | QAsk ps, Boolean b => b = pats_hold ps G
  | QSelect q, Solutions items => ∀ rows, items = inr <$> rows → solutions_ok q G rows
  | _, _ => True
  end.

(** The content of the two libraries' stores.  An update is one transaction;
    an object is written whole; either may also abort with a panic. *)
Class StoredLaws (W : Type) `{Oxigraph W} `{ObjectStore W} : Type := {
  ox_graphs : W → gset located;
  os_objects : W → gmap string string;
  store_update_law ops w : wp (store_update ops) (λ o w', os_objects w' = os_objects w ∧
    match o with
    | Ok _ => ox_graphs w' = run_ops ops (ox_graphs w)
    | _ => ox_graphs w' = ox_graphs w
    end) w;
  execute_law q w : wp (execute q) (λ o w', ox_graphs w' = ox_graphs w ∧ os_objects w' = os_objects w ∧
    match o with Ok res => results_ok q (ox_graphs w) res | _ => True end) w;
  os_put_law k b w : wp (os_put k b) (λ o w', ox_graphs w' = ox_graphs w ∧
    match o with
    | Ok _ => os_objects w' = <[k := b]> (os_objects w)
    | Err _ => os_objects w' = os_objects w ∨ os_objects w' = <[k := b]> (os_objects w)
    | Panicked => False
    end) w;
  os_get_law k w : wp (os_get k) (λ o w', ox_graphs w' = ox_graphs w ∧ os_objects w' = os_objects w ∧
    match o with
    | Ok r => ∃ b, os_objects w !! k = Some b ∧
        wp (get_bytes r) (λ o' w'', ox_graphs w'' = ox_graphs w' ∧ os_objects w'' = os_objects w' ∧
          match o' with Ok b' => b' = b | Err _ => True | Panicked => False end) w'
    | Err OsNotFound => os_objects w !! k = None
    | Err _ => True
    | Panicked => False
    end) w;
  os_delete_law k w : wp (os_delete k) (λ o w', ox_graphs w' = ox_graphs w ∧
    match o with
    | Ok _ => os_objects w' = delete k (os_objects w)
    | Err OsNotFound => os_objects w' = os_objects w ∧ os_objects w !! k = None
    | Err _ => os_objects w' = os_objects w ∨ os_objects w' = delete k (os_objects w)
    | Panicked => False
    end) w
}.

(** A task is joined with what it returned; or it panicked, or was not run, or
    its result is lost with the runtime. *)
Class PoolLaws (W : Type) `{BlockingPool W} : Prop :=
  spawn_blocking_law : ∀ A (f : M W StoreError A) w,
    match spawn_blocking A f w with
    | (Ok joined, w') => attempt (F:=string) f w = (Ok joined, w')
    | (Err _, w') => w' = w ∨ w' = (f w).2
    | (Panicked, _) => False
    end.

(** * The contract *)
Section contract.
Context {W : Type} `{Oxigraph W} `{ObjectStore W} `{!StoredLaws W} `{!BlockingPool W} `{!PoolLaws W}.

Lemma wp_holds {E A} (m : M W E A) (Φ : outcome E A → W → Prop) w :
  wp m Φ w → (let (o, w') := m w in Φ o w').
Proof. unfold wp. by destruct (m w). Qed.

(** A panic of the task is an error of the call. *)
Lemma wp_blocking {A} (f : M W StoreError A) (Φ : outcome StoreError A → W → Prop) w :
  (∀ e, Φ (Err e) w) →
  wp f (λ o w', (∀ e, Φ (Err e) w') ∧ match o with Ok a => Φ (Ok a) w' | _ => True end) w →
  wp (blocking f) Φ w.
Proof.
  intros Hw Hf. unfold blocking. apply wp_bind, wp_map_err. unfold wp in *.
  pose proof (spawn_blocking_law A f w) as Hl. destruct (spawn_blocking A f w) as [[joined|e|] w']; cbn; [| |done].
  - unfold attempt in Hl. destruct (f w) as [[a|e|] w1]; cbn in *; simplify_eq; [apply Hf|apply Hf].
  - destruct Hl as [-> | ->]; [apply Hw|apply Hf].
Qed.

Lemma collect_Ok {A} (items : list (string + A)) :
  match collect items with Ok l => items = inr <$> l | Err _ => True | Panicked => False end.
Proof.
  induction items as [|[e|a] items IH]; simpl; [done|done|]. destruct (collect items); simpl; [by f_equal|done..].
Qed.

(** A read on the pool: its results, or an error. *)
Lemma wp_read {A} (q : Query) (k : QueryResults → M W StoreError A) (Φ : outcome StoreError A → W → Prop) w :
  (∀ w', ox_graphs w' = ox_graphs w → os_objects w' = os_objects w →
     (∀ e, Φ (Err e) w') ∧ ∀ res, results_ok q (ox_graphs w) res →
       wp (k res) (λ o w'', w'' = w' ∧ match o with Ok a => Φ (Ok a) w' | Err _ => True | Panicked => False end) w') →
  wp (blocking (let! results := evaluate q in k results)) Φ w.
Proof.
  intros Hk. apply wp_blocking; [by apply (Hk w)|]. unfold evaluate. apply wp_bind.
  destruct (parse_query q) as [e|]; [apply wp_throw; split; [by apply (Hk w)|done]|].
  apply wp_map_err. eapply wp_wand; [apply execute_law|]. intros [res|e|] w' (Hg & Ho & Hr); cbn.
  - destruct (Hk w' Hg Ho) as [He Hres]. eapply wp_wand; [by apply Hres|]. intros o w'' [-> Hx]. split; [done|]. by destruct o.
  - split; [by apply (Hk w')|done].
  - split; [by apply (Hk w')|done].
Qed.

(** C24: the backends that ship keep the contract everything else is proved
    against.  With Oxigraph's updates transactional, the object store's objects
    whole, and the blocking pool free to lose or to kill a task, the pair of
    wrappers is a [Backend] that satisfies [BackendLaws]: a panic inside the
    store is an error of the call and no more; an answer of another form than
    the query's, or one an item of which cannot be read, is an error and never
    a shorter answer; an object that is not there is an absence to [get] and a
    success to [delete]; and nothing else is turned into either. *)
Theorem shipped_backend_keeps_contract :
  ∃ L : @BackendLaws W shipped_backend, ∀ w,
    @graphs W shipped_backend L w = ox_graphs w ∧ @objects W shipped_backend L w = os_objects w.
Proof.
  unshelve eexists.
  - refine {| graphs := ox_graphs : W → gset located; objects := os_objects |}.
    + intros ops w. cbn. apply (wp_holds (E:=StoreError)). apply wp_blocking; [by auto|].
      apply wp_map_err. eapply wp_wand; [apply store_update_law|].
      intros [[]|e|] w' [Ho Hg]; cbn; auto.
    + intros q w. cbn. apply (wp_holds (E:=StoreError)), wp_read. intros w' Hg Ho. split; [done|].
      intros [rows|b|items] Hr; cbn; [done| |]; [done|]. apply wp_lift. split; [done|].
      pose proof (collect_Ok items) as Hc. destruct (collect items) as [ts|e|]; [|done..].
      split; [done|]. split; [done|]. by apply Hr.
    + intros ps w. cbn. apply (wp_holds (E:=StoreError)), wp_read. intros w' Hg Ho. split; [done|].
      by intros [rows|b|items] Hr.
    + intros q w. cbn. apply (wp_holds (E:=StoreError)), wp_read. intros w' Hg Ho. split; [done|].
      intros [rows|b|items] Hr; cbn; [|done..]. apply wp_lift. split; [done|].
      pose proof (collect_Ok rows) as Hc. destruct (collect rows) as [ts|e|]; [|done..].
      split; [done|]. split; [done|]. by apply Hr.
    + intros k b w. cbn. apply (wp_holds (E:=BlobError)), wp_map_err. eapply wp_wand; [apply os_put_law|].
      by intros [[]|e|] w' [Hg Ho].
    + intros k w. cbn. apply (wp_holds (E:=BlobError)). unfold object_get. apply wp_bind, wp_attempt.
      eapply wp_wand; [apply os_get_law|]. intros [r|[|e]|] w' (Hg & Ho & Hr); [|by apply wp_ret|by apply wp_throw|done].
      destruct Hr as (b & Hb & Hr). apply wp_bind, wp_map_err. eapply wp_wand; [exact Hr|].
      intros [b'|e|] w'' (Hg' & Ho' & Hb'); cbn; [|by rewrite Hg', Ho'|done].
      subst b'. by rewrite Hg', Ho', Hb.
    + intros k w. cbn. apply (wp_holds (E:=BlobError)). unfold object_delete. apply wp_bind, wp_attempt.
      eapply wp_wand; [apply os_delete_law|]. intros [r|[|e]|] w' (Hg & Hr); [by apply wp_ret| |by apply wp_throw|done].
      apply wp_ret. split; [done|]. destruct Hr as [-> Hk]. by rewrite delete_id.
  - by intros w.
Qed.
End contract.

(** * Witness: both libraries in memory, with the faults of [Mem] *)
Section witness.
Notation W := (Mem ()).

(** An update that meets a fault is rolled back. *)
Definition transaction (ops : list update_op) : M W string unit := λ w,
  match m_faults w with
  | Some _ :: fs => (Err "aborted", mem_set w (m_triples w) (m_objects w) fs)
  | _ => mem_write "aborted" (mem_run ops) id w
  end.

#[local] Instance mem_oxigraph : Oxigraph W := {|
  store_update := transaction;
  parse_query _ := None;
  execute q :=
    match q with
    | QConstruct q => mem_read "unreadable" (λ G _, GraphResults (inr <$> mem_triples q G))
    | QAsk ps => mem_read "unreadable" (λ G _, Boolean (mem_pats_hold ps G))
    | QSelect q => mem_read "unreadable" (λ G _, Solutions (inr <$> mem_select q G))
    end
|}.

#[local] Instance mem_objects : ObjectStore W := {|
  GetResult := string;
  os_put k b := mem_write (OsOther "down") id <[k := b]>;
  os_get k :=
    let! found := mem_read (OsOther "down") (λ _ O, O !! k) in
    match found with Some b => ret b | None => throw OsNotFound end;
  get_bytes := ret;
  os_delete k := λ w,
    if bool_decide (m_objects w !! k = None) then (Err OsNotFound, w)
    else mem_write (OsOther "down") id (delete k) w;
  os_display e := match e with OsNotFound => "not found" | OsOther msg => msg end
|}.

#[local] Instance mem_pool : BlockingPool W := λ A f w,
  match f w with
  | (Ok a, w') => (Ok (inr a), w')
  | (Err e, w') => (Ok (inl e), w')
  | (Panicked, w') => (Err "task panicked", w')
  end.

#[local] Instance mem_pool_laws : PoolLaws W.
Proof. intros A f w. unfold spawn_blocking, mem_pool, attempt. destruct (f w) as [[] ?]; auto. Qed.

Lemma mem_read_law {E A} (e : E) (f : list located → gmap string string → A) (w : W) :
  wp (mem_read e f) (λ o w', m_triples w' = m_triples w ∧ m_objects w' = m_objects w ∧
    match o with Ok a => a = f (m_triples w) (m_objects w) | Err x => x = e | Panicked => False end) w.
Proof. unfold wp, mem_read. by destruct (m_faults w) as [|[[]|] fs]. Qed.

Lemma inr_inj {A B} (l l' : list A) : (inr : A → B + A) <$> l = inr <$> l' → l = l'.
Proof. apply (inj (fmap inr)). Qed.

#[local] Instance mem_stored : StoredLaws W.
Proof.
  refine {| ox_graphs w := set_of (m_triples w); os_objects := m_objects |}.
  - intros ops w. unfold wp. cbn. unfold transaction, mem_write.
    destruct (m_faults w) as [|[[]|] fs]; cbn; by rewrite ?mem_run_spec.
  - intros q w. destruct q as [q|ps|q]; cbn; (eapply wp_wand; [apply mem_read_law|]);
      intros [res|e|] w' (-> & -> & Hr); try done; subst res; (split; [done|split; [done|]]); cbn.
    + intros ts <-%inr_inj. apply mem_triples_spec.
    + apply mem_pats_hold_spec.
    + intros rows <-%inr_inj. apply mem_select_ok.
  - intros k b w. unfold wp. cbn. unfold mem_write. destruct (m_faults w) as [|[[]|] fs]; cbn; auto.
  - intros k w. cbn. apply wp_bind. eapply wp_wand; [apply mem_read_law|].
    intros [[b|]|e|] w' (Hg & Ho & Hr); [| | |done]; unfold wp; cbn; rewrite Hg, Ho; [|done|by subst].
    split; [done|]. split; [done|]. by exists b.
  - intros k w. unfold wp. cbn. case_bool_decide as Hk; [done|]. unfold mem_write.
    destruct (m_faults w) as [|[[]|] fs]; cbn; auto.
Defined.

(** An update that aborts is an error and leaves nothing; an absent object is
    deleted. *)
Lemma shipped_backend_keeps_contract_witness :
  ∃ L : @BackendLaws W shipped_backend,
    @graphs W shipped_backend L (@update W shipped_backend [InsertData [("https://e/", present_triple "https://e/")]] (empty_mem [Some FailAfter])).2 = ∅ ∧
    (@blob_delete W shipped_backend "k" (empty_mem [])).1 = Ok tt.
Proof.
  destruct (shipped_backend_keeps_contract (W:=W)) as [L HL]. exists L. split; [|vm_compute; reflexivity].
  destruct (HL (@update W shipped_backend [InsertData [("https://e/", present_triple "https://e/")]] (empty_mem [Some FailAfter])).2) as [-> _].
  assert (m_triples (@update W shipped_backend [InsertData [("https://e/", present_triple "https://e/")]] (empty_mem [Some FailAfter])).2 = [])
    as E by (vm_compute; reflexivity).
  cbn [ox_graphs mem_stored]. by rewrite E.
Defined.
End witness.
