(* ===== verification/Sparql.v ===== *)
(** The SPARQL the pod sends, as text: how SPARQL 1.1 reads it.

    A scanner of the terminals of the grammar (IRIREF, VAR, string literals with
    their escapes, language tags, keywords, punctuation) and a parser of the
    forms of updates and queries the sources write, both independent of how the
    sources write them.  [Texts] has the writing. *)
From S2P Require Import Prelude Str Terms Space Rdf Dataset Patch Store Backing.
Open Scope list_scope.

(** * Terminals *)
Inductive token : Type :=
| TkIri (iri : string)
| TkVar (name : string)
| TkWord (w : string)
| TkString (v : string)
| TkLang (tag : string)
| TkCarets
| TkOpen                       (* the opening mark of a triple term *)
| TkClose                      (* and its closing mark *)
| TkPunct (c : ascii).

Definition DQUOTE : ascii := ascii_of_nat 34.
Definition SQUOTE : ascii := ascii_of_nat 39.
Definition BACKSLASH : ascii := ascii_of_nat 92.
Definition TAB : ascii := ascii_of_nat 9.
Definition LF : ascii := ascii_of_nat 10.
Definition CR : ascii := ascii_of_nat 13.

Definition one (a : ascii) : string := String a "".

(** A character of an IRIREF. *)
Definition is_iri_char (a : ascii) : bool :=
  Nat.ltb 32 (nat_of_ascii a) && negb (contains_char a "<>{}|^`")
  && negb (Ascii.eqb a DQUOTE) && negb (Ascii.eqb a BACKSLASH).

Definition iri_text (s : string) : bool := all_chars is_iri_char s.

Definition is_space (a : ascii) : bool :=
  Ascii.eqb a " " || Ascii.eqb a LF || Ascii.eqb a CR || Ascii.eqb a TAB.

Definition is_tag_char (a : ascii) : bool := is_ascii_alphanumeric a || Ascii.eqb a "-".

(** What the scanner is in the middle of. *)
Inductive lexing : Type :=
| LStart
| LAngle                                          (* after the first angle bracket *)
| LOpen                                           (* after the second *)
| LIri (acc : string)
| LVar (acc : string)
| LWord (acc : string)
| LString (acc : string)
| LEmpty                                          (* after two quotes *)
| LEscape (acc : string)
| LHex (more : nat) (code : N) (acc : string)
| LLang (acc : string)
| LCaret
| LParen                                          (* after a closing parenthesis *)
| LClose.

Definition start_step (a : ascii) : option (list token * lexing) :=
  if is_space a then Some ([], LStart) else
  if Ascii.eqb a "<" then Some ([], LAngle) else
  if Ascii.eqb a "?" then Some ([], LVar "") else
  if Ascii.eqb a DQUOTE then Some ([], LString "") else
  if Ascii.eqb a "@" then Some ([], LLang "") else
  if Ascii.eqb a "^" then Some ([], LCaret) else
  if Ascii.eqb a ")" then Some ([], LParen) else
  if contains_char a "{}.;(*" then Some ([TkPunct a], LStart) else
  if is_ascii_alphanumeric a then Some ([], LWord (one a)) else
  None.

(** A terminal that the next character ends. *)
Definition ended (t : token) (a : ascii) : option (list token * lexing) :=
  '(ts, st) ← start_step a; Some (t :: ts, st).

Definition escaped (a : ascii) : option ascii :=
  if Ascii.eqb a "t" then Some TAB else
  if Ascii.eqb a "n" then Some LF else
  if Ascii.eqb a "r" then Some CR else
  if Ascii.eqb a "b" then Some (ascii_of_nat 8) else
  if Ascii.eqb a "f" then Some (ascii_of_nat 12) else
  if Ascii.eqb a DQUOTE || Ascii.eqb a SQUOTE || Ascii.eqb a BACKSLASH then Some a else
  None.

Definition hex_digit (a : ascii) : option N :=
  let n := N_of_ascii a in
  if is_ascii_digit a then Some (n - 48)%N else
  if in_range 65 70 a then Some (n - 55)%N else
  if in_range 97 102 a then Some (n - 87)%N else
  None.

(** A code point as UTF-8. *)
Definition utf8 (n : N) : string :=
  let c k := one (ascii_of_N k) in
  (if N.ltb n 128 then c n else
   if N.ltb n 2048 then c (192 + n / 64) +:+ c (128 + n mod 64) else
   if N.ltb n 65536 then c (224 + n / 4096) +:+ c (128 + (n / 64) mod 64) +:+ c (128 + n mod 64) else
   c (240 + n / 262144) +:+ c (128 + (n / 4096) mod 64) +:+ c (128 + (n / 64) mod 64) +:+ c (128 + n mod 64))%N.

(** A codepoint escape stands for its character before the grammar applies:
    one for a character that means something in a string would not be read as
    this scanner reads it, and is refused. *)
Definition inert (n : N) : bool := negb (bool_decide (n ∈ [34; 39; 92; 10; 13]%N)).

Definition step (st : lexing) (a : ascii) : option (list token * lexing) :=
  match st with
  | LStart => start_step a
  | LAngle =>
      if Ascii.eqb a "<" then Some ([], LOpen) else
      if Ascii.eqb a ">" then Some ([TkIri ""], LStart) else
      if is_iri_char a then Some ([], LIri (one a)) else None
  | LOpen => if Ascii.eqb a "(" then Some ([TkOpen], LStart) else None
  | LIri acc =>
      if Ascii.eqb a ">" then Some ([TkIri acc], LStart) else
      if is_iri_char a then Some ([], LIri (acc +:+ one a)) else None
  | LVar acc =>
      if is_ascii_alphanumeric a then Some ([], LVar (acc +:+ one a)) else ended (TkVar acc) a
  | LWord acc =>
      if is_ascii_alphanumeric a then Some ([], LWord (acc +:+ one a)) else ended (TkWord acc) a
  | LString acc =>
      if Ascii.eqb a DQUOTE then
        if bool_decide (acc = "") then Some ([], LEmpty) else Some ([TkString acc], LStart)
      else if Ascii.eqb a BACKSLASH then Some ([], LEscape acc)
      else if Ascii.eqb a LF || Ascii.eqb a CR then None
      else Some ([], LString (acc +:+ one a))
  | LEmpty => if Ascii.eqb a DQUOTE then None else ended (TkString "") a
  | LEscape acc =>
      if Ascii.eqb a "u" then Some ([], LHex 4 0%N acc) else
      if Ascii.eqb a "U" then Some ([], LHex 8 0%N acc) else
      c ← escaped a; Some ([], LString (acc +:+ one c))
  | LHex more code acc =>
      d ← hex_digit a;
      let code := (16 * code + d)%N in
      if Nat.leb more 1 then
        if inert code then Some ([], LString (acc +:+ utf8 code)) else None
      else Some ([], LHex (more - 1) code acc)
  | LLang acc => if is_tag_char a then Some ([], LLang (acc +:+ one a)) else ended (TkLang acc) a
  | LCaret => if Ascii.eqb a "^" then Some ([TkCarets], LStart) else None
  | LParen => if Ascii.eqb a ">" then Some ([], LClose) else ended (TkPunct ")") a
  | LClose => if Ascii.eqb a ">" then Some ([TkClose], LStart) else None
  end.

Fixpoint scan (st : lexing) (s : string) : option (list token * lexing) :=
  match s with
  | EmptyString => Some ([], st)
  | String a s =>
      '(ts, st) ← step st a;
      '(ts', st) ← scan st s;
      Some (ts ++ ts', st)
  end.

(** The end of the text. *)
Definition finish (st : lexing) : option (list token) :=
  match st with
  | LStart => Some []
  | LVar acc => Some [TkVar acc]
  | LWord acc => Some [TkWord acc]
  | LEmpty => Some [TkString ""]
  | LLang acc => Some [TkLang acc]
  | LParen => Some [TkPunct ")"]
  | _ => None
  end.

Definition tokens (s : string) : option (list token) :=
  '(ts, st) ← scan LStart s;
  last ← finish st;
  Some (ts ++ last).

(** * Terms and groups *)
Definition RDF_DIR_LANGSTRING : string := "http://www.w3.org/1999/02/22-rdf-syntax-ns#dirLangString".

(** A language tag, with the base direction of RDF 1.2. *)
Definition tagged_literal (v tag : string) : literal :=
  match strip_suffix "--ltr" tag with
  | Some language => Literal v (Some (language, Some Ltr)) RDF_DIR_LANGSTRING
  | None =>
      match strip_suffix "--rtl" tag with
      | Some language => Literal v (Some (language, Some Rtl)) RDF_DIR_LANGSTRING
      | None => language_literal v tag
      end
  end.

Fixpoint read_term (ts : list token) : option (term * list token) :=
  match ts with
  | TkIri n :: ts => Some (TNamed n, ts)
  | TkString v :: TkLang tag :: ts => Some (TLiteral (tagged_literal v tag), ts)
  | TkString v :: TkCarets :: TkIri d :: ts => Some (TLiteral (Literal v None d), ts)
  | TkString v :: ts => Some (TLiteral (simple_literal v), ts)
  | TkWord w :: ts => if bool_decide (w = "true") then Some (lit_true, ts) else None
  | TkOpen :: TkIri s :: TkIri p :: ts =>
      '(o, ts) ← read_term ts;
      match ts with TkClose :: ts => Some (TTriple (SNamed s) p o, ts) | _ => None end
  | _ => None
  end.

(** A position of a triple pattern. *)
Inductive item : Type :=
| ITerm (t : term)
| IVar (v : string).

Definition read_item (ts : list token) : option (item * list token) :=
  match ts with
  | TkVar v :: ts => Some (IVar v, ts)
  | _ => '(t, ts) ← read_term ts; Some (ITerm t, ts)
  end.

(** The grammar's Verb: an IRI or a variable. *)
Definition read_verb (ts : list token) : option (item * list token) :=
  match ts with
  | TkVar v :: ts => Some (IVar v, ts)
  | TkIri n :: ts => Some (ITerm (TNamed n), ts)
  | _ => None
  end.

Definition punct (c : ascii) (ts : list token) : option (list token) :=
  match ts with TkPunct d :: ts => if Ascii.eqb c d then Some ts else None | _ => None end.

Definition word (w : string) (ts : list token) : option (list token) :=
  match ts with TkWord v :: ts => if bool_decide (w = v) then Some ts else None | _ => None end.

Inductive elem : Type :=
| ETriple (s p o : item)
| EGraph (g : item) (body : list elem)
| EExists (body : list elem)
| EValues (vars : list string) (rows : list (list string)).

Fixpoint take_iris (ts : list token) : list string * list token :=
  match ts with TkIri n :: ts => let (l, ts) := take_iris ts in (n :: l, ts) | _ => ([], ts) end.

Fixpoint take_vars (ts : list token) : list string * list token :=
  match ts with TkVar v :: ts => let (l, ts) := take_vars ts in (v :: l, ts) | _ => ([], ts) end.

(** [(<a> <b>) (<c> <d>) ..] and the closing brace. *)
Fixpoint read_rows (fuel : nat) (ts : list token) : option (list (list string) * list token) :=
  match fuel with
  | O => None
  | S fuel =>
      match punct "}" ts with
      | Some ts => Some ([], ts)
      | None =>
          ts ← punct "(" ts;
          let (row, ts) := take_iris ts in
          ts ← punct ")" ts;
          '(rows, ts) ← read_rows fuel ts;
          Some (row :: rows, ts)
      end
  end.

Definition read_values (fuel : nat) (ts : list token) : option (elem * list token) :=
  match ts with
  | TkVar v :: ts =>
      ts ← punct "{" ts;
      let (iris, ts) := take_iris ts in
      ts ← punct "}" ts;
      Some (EValues [v] ((λ i, [i]) <$> iris), ts)
  | _ =>
      ts ← punct "(" ts;
      let (vs, ts) := take_vars ts in
      ts ← punct ")" ts;
      ts ← punct "{" ts;
      '(rows, ts) ← read_rows fuel ts;
      Some (EValues vs rows, ts)
  end.

(** A group, after its opening brace, with the closing one.  A period stands
    between two triples, and may follow the last. *)
Fixpoint read_block (fuel : nat) (ts : list token) : option (list elem * list token) :=
  match fuel with
  | O => None
  | S fuel =>
      match ts with
      | TkPunct _ :: _ => ts ← punct "}" ts; Some ([], ts)
      | TkWord w :: ts =>
          '(e, ts) ←
            (if bool_decide (w = "GRAPH") then
               '(g, ts) ← read_item ts;
               ts ← punct "{" ts;
               '(body, ts) ← read_block fuel ts;
               Some (EGraph g body, ts)
             else if bool_decide (w = "FILTER") then
               ts ← word "EXISTS" ts;
               ts ← punct "{" ts;
               '(body, ts) ← read_block fuel ts;
               Some (EExists body, ts)
             else if bool_decide (w = "VALUES") then read_values fuel ts
             else None);
          '(es, ts) ← read_block fuel ts;
          Some (e :: es, ts)
      | _ =>
          '(s, ts) ← read_item ts;
          '(p, ts) ← read_verb ts;
          '(o, ts) ← read_item ts;
          ts ← match punct "." ts with
               | Some ts => Some ts
               | None => punct "}" ts ≫= λ _, Some ts
               end;
          '(es, ts) ← read_block fuel ts;
          Some (ETriple s p o :: es, ts)
      end
  end.

(** A group with its braces. *)
Definition read_group (fuel : nat) (ts : list token) : option (list elem * list token) :=
  punct "{" ts ≫= read_block fuel.

(** * Updates *)
Inductive update_syntax : Type :=
| UDrop (g : string)
| UInsertData (es : list elem)
| UDeleteData (es : list elem)
| UModify (with_ : option string) (del ins where_ : list elem).

(** An optional clause that a keyword begins. *)
Definition clause (w : string) (fuel : nat) (ts : list token) : option (list elem * list token) :=
  match word w ts with Some ts => read_group fuel ts | None => Some ([], ts) end.

Definition read_modify (fuel : nat) (with_ : option string) (ts : list token) : option (update_syntax * list token) :=
  '(del, ts) ← clause "DELETE" fuel ts;
  '(ins, ts) ← clause "INSERT" fuel ts;
  ts ← word "WHERE" ts;
  '(wh, ts) ← read_group fuel ts;
  Some (UModify with_ del ins wh, ts).

Definition read_operation (fuel : nat) (ts : list token) : option (update_syntax * list token) :=
  match ts with
  | TkWord "DROP" :: TkWord "SILENT" :: TkWord "GRAPH" :: TkIri g :: ts => Some (UDrop g, ts)
  | TkWord "INSERT" :: TkWord "DATA" :: ts => '(es, ts) ← read_group fuel ts; Some (UInsertData es, ts)
  | TkWord "DELETE" :: TkWord "DATA" :: ts => '(es, ts) ← read_group fuel ts; Some (UDeleteData es, ts)
  | TkWord "WITH" :: TkIri g :: ts => read_modify fuel (Some g) ts
  | _ => read_modify fuel None ts
  end.

Fixpoint read_operations (fuel : nat) (ts : list token) : option (list update_syntax) :=
  match fuel with
  | O => None
  | S fuel =>
      '(u, ts) ← read_operation fuel ts;
      match ts with
      | [] => Some [u]
      | _ => ts ← punct ";" ts; us ← read_operations fuel ts; Some (u :: us)
      end
  end.

(** ** What they mean *)
Definition item_term (i : item) : option term := match i with ITerm t => Some t | IVar _ => None end.

Definition ground_elem (g : string) (e : elem) : option (string * gpat) :=
  match e with
  | ETriple s p o => s ← item_term s; p ← item_term p; o ← item_term o; Some (g, GPat s p o)
  | _ => None
  end.

(** The ground patterns of a quad pattern, each with its graph. *)
Fixpoint ground_elems (default_graph : option string) (es : list elem) : option (list (string * gpat)) :=
  match es with
  | [] => Some []
  | EGraph (ITerm (TNamed g)) body :: es =>
      l ← mapM (ground_elem g) body;
      l' ← ground_elems default_graph es;
      Some (l ++ l')
  | e :: es =>
      g ← default_graph;
      x ← ground_elem g e;
      l' ← ground_elems default_graph es;
      Some (x :: l')
  end.

Definition located_elems (es : list elem) : option (list located) :=
  ground_elems None es ≫= mapM (λ x, pair x.1 <$> triple_of_gpat x.2).

Definition is_exists (e : elem) : bool := match e with EExists _ => true | _ => false end.

Definition guards (es : list elem) : option (list located) :=
  mjoin <$> mapM (λ e, match e with EExists body => located_elems body | _ => None end) es.

(** [{ GRAPH <g> { ?s ?p ?o } }], for the graph. *)
Definition whole_graph (e : elem) : option string :=
  match e with
  | EGraph (ITerm (TNamed g)) [ETriple (IVar "s") (IVar "p") (IVar "o")] => Some g
  | _ => None
  end.

(** A deletion of a whole graph under a condition. *)
Definition clears (del where_ : list elem) : option (string * list elem) :=
  match del, where_ with
  | [d], e :: es =>
      g ← whole_graph d;
      g' ← whole_graph e;
      if bool_decide (g = g') then Some (g, es) else None
  | _, _ => None
  end.

Definition update_meaning (u : update_syntax) : option update_op :=
  match u with
  | UDrop g => Some (DropSilent g)
  | UInsertData es => InsertData <$> located_elems es
  | UDeleteData es => DeleteData <$> located_elems es
  | UModify with_ del ins where_ =>
      match clears del where_ with
      | Some (g, es) => match ins with [] => ClearIf g <$> guards es | _ => None end
      | None =>
          d ← ground_elems with_ del;
          i ← ground_elems with_ ins;
          w ← ground_elems with_ (filter (λ e, is_exists e = false) where_);
          g ← guards (filter (λ e, is_exists e = true) where_);
          Some (Modify d i w g)
      end
  end.

(** The operations of an update, from its text. *)
Definition read_update (text : string) : option (list update_op) :=
  ts ← tokens text;
  us ← read_operations (S (length ts)) ts;
  mapM update_meaning us.

(** * Queries *)
Inductive query_syntax : Type :=
| SAsk (es : list elem)
| SConstruct (template es : list elem)
| SSelect (vars : option (list string)) (es : list elem) (limit : option string).

Definition read_limit (ts : list token) : option (option string) :=
  match ts with
  | [] => Some None
  | [TkWord "LIMIT"; TkWord n] => Some (Some n)
  | _ => None
  end.

Definition read_query_syntax (fuel : nat) (ts : list token) : option query_syntax :=
  match ts with
  | TkWord "ASK" :: ts =>
      '(es, ts) ← read_group fuel ts;
      match ts with [] => Some (SAsk es) | _ => None end
  | TkWord "CONSTRUCT" :: ts =>
      '(t, ts) ← read_group fuel ts;
      ts ← word "WHERE" ts;
      '(es, ts) ← read_group fuel ts;
      match ts with [] => Some (SConstruct t es) | _ => None end
  | TkWord "SELECT" :: TkPunct "*" :: ts =>
      ts ← word "WHERE" ts;
      '(es, ts) ← read_group fuel ts;
      SSelect None es <$> read_limit ts
  | TkWord "SELECT" :: ts =>
      let (vs, ts) := take_vars ts in
      ts ← word "WHERE" ts;
      '(es, ts) ← read_group fuel ts;
      SSelect (Some vs) es <$> read_limit ts
  | _ => None
  end.

(** A numeral. *)
Fixpoint numeral (acc : N) (s : string) : option N :=
  match s with
  | EmptyString => Some acc
  | String a s => if is_ascii_digit a then numeral (10 * acc + (N_of_ascii a - 48))%N s else None
  end.

(** A variable [v0], [v1], .. as its index. *)
Definition var_index (v : string) : option nat :=
  match strip_prefix "v" v with
  | Some (String _ _ as n) => N.to_nat <$> numeral 0 n
  | _ => None
  end.

Definition pattern_item (i : item) : option PatternTerm :=
  match i with
  | ITerm (TNamed n) => Some (PNamed n)
  | ITerm (TLiteral l) => Some (PLiteral l)
  | ITerm _ => None
  | IVar v => PVar <$> var_index v
  end.

Definition elem_pattern (e : elem) : option Pattern :=
  match e with
  | ETriple s p o => s ← pattern_item s; p ← pattern_item p; o ← pattern_item o; Some (mkPattern s p o)
  | _ => None
  end.

Definition pair_row (row : list string) : option (string * string) :=
  match row with [a; b] => Some (a, b) | _ => None end.

Definition single_row (row : list string) : option string :=
  match row with [a] => Some a | _ => None end.

(** A query, by what it asks. *)
Definition query_meaning (q : query_syntax) : option Query :=
  match q with
  | SAsk es => QAsk <$> ground_elems None es
  | SConstruct [ETriple (IVar "s") (IVar "p") (IVar "o")] [e] => (λ g, QConstruct (QGraph g)) <$> whole_graph e
  | SConstruct [ETriple (ITerm (TNamed s)) (ITerm (TNamed p)) (IVar x)]
      [EGraph (ITerm (TNamed g)) [ETriple (ITerm (TNamed s')) (ITerm (TNamed p')) (IVar x')]] =>
      if bool_decide (s = s' ∧ p = p' ∧ x = x') then Some (QConstruct (QObjects g s p)) else None
  | SSelect (Some ["g"])
      [EValues ["sys"; "g"] rows; EGraph (IVar "sys") [ETriple (IVar "g") (ITerm (TNamed p)) (ITerm v)]] None =>
      if bool_decide (p = SYS_PRESENT ∧ v = lit_true) then (λ l, QSelect (SelPresent l)) <$> mapM pair_row rows else None
  | SSelect (Some ["g"; "s"; "p"; "o"])
      [EValues ["g"] rows; EGraph (IVar "g") [ETriple (IVar "s") (IVar "p") (IVar "o")]] None =>
      (λ l, QSelect (SelGraphs l)) <$> mapM single_row rows
  | SSelect None [EGraph (ITerm (TNamed g)) es] (Some "2") =>
      (λ ps, QSelect (SelPatterns g ps)) <$> mapM elem_pattern es
  | _ => None
  end.

Definition read_query (text : string) : option Query :=
  ts ← tokens text;
  read_query_syntax (S (length ts)) ts ≫= query_meaning.

(** * Lemmas *)

(** ** The scanner on concatenations *)
Definition scans (st : lexing) (s : string) (ts : list token) (st' : lexing) : Prop := scan st s = Some (ts, st').

Lemma scans_app st a ts st1 b ts' st2 :
  scans st a ts st1 → scans st1 b ts' st2 → scans st (a +:+ b) (ts ++ ts') st2.
Proof.
  unfold scans. revert st ts. induction a as [|x a IH]; intros st ts Ha Hb.
  - injection Ha as <- <-. exact Hb.
  - rewrite app_cons_s. cbn [scan] in *.
    destruct (step st x) as [[t0 s0]|]; [|done]. cbn in *. destruct (scan s0 a) as [[t1 s1]|] eqn:E; [|done].
    cbn in Ha. injection Ha as <- ->. rewrite (IH s0 t1 E Hb). cbn. by rewrite app_assoc.
Qed.

(** A legal IRI, inside its brackets. *)
Definition legal (iri : string) : Prop := iri_text iri = true ∧ iri ≠ "".

Lemma scans_iri_chars acc s : iri_text s = true → scans (LIri acc) s [] (LIri (acc +:+ s)).
Proof.
  unfold scans, iri_text. revert acc. induction s as [|a s IH]; intros acc Hs; [by rewrite app_nil_r_s|].
  cbn [all_chars] in Hs. apply andb_true_iff in Hs as [Ha Hs]. cbn [scan step].
  destruct (Ascii.eqb a ">") eqn:E; [by apply Ascii.eqb_eq in E; subst|]. rewrite Ha. cbn.
  rewrite (IH _ Hs). cbn. by rewrite app_assoc_s.
Qed.

Lemma scans_iri s : legal s → scans LAngle s [] (LIri s).
Proof.
  intros [Hs Hne]. destruct s as [|a s]; [done|]. unfold iri_text in Hs. cbn [all_chars] in Hs.
  apply andb_true_iff in Hs as [Ha Hs]. unfold scans. cbn [scan step].
  destruct (Ascii.eqb a "<") eqn:E1; [by apply Ascii.eqb_eq in E1; subst|].
  destruct (Ascii.eqb a ">") eqn:E2; [by apply Ascii.eqb_eq in E2; subst|]. rewrite Ha. cbn.
  pose proof (scans_iri_chars (one a) s Hs) as Hx. unfold scans in Hx. by rewrite Hx.
Qed.

Lemma scans_iri_app s k ts st : legal s → scans (LIri s) k ts st → scans LAngle (s +:+ k) ts st.
Proof. intros Hs Hk. by apply (scans_app _ _ [] (LIri s)); [apply scans_iri|]. Qed.

(** A whole text, before a space. *)
Lemma finish_space st last : finish st = Some last → step st " " = Some (last, LStart).
Proof. by destruct st; intros [= <-]. Qed.

Lemma scans_tokens s ts k ts' st' :
  tokens s = Some ts → (∃ k', k = String " " k') → scans LStart k ts' st' → scans LStart (s +:+ k) (ts ++ ts') st'.
Proof.
  unfold tokens, scans. intros Hs [k' ->] Hk.
  destruct (scan LStart s) as [[t0 s0]|] eqn:E0; [|done]. cbn in Hs.
  destruct (finish s0) as [last|] eqn:Ef; [|done]. cbn in Hs. injection Hs as <-.
  rewrite <- app_assoc. eapply scans_app; [exact E0|]. unfold scans. cbn [scan] in Hk |- *.
  rewrite (finish_space _ _ Ef). cbn in Hk |- *. destruct (scan LStart k') as [[t1 s1]|]; [|done].
  cbn in *. by injection Hk as <- <-.
Qed.

Lemma tokens_scans s ts last st : scans LStart s ts st → finish st = Some last → tokens s = Some (ts ++ last).
Proof. unfold scans, tokens. intros -> Hf. cbn. by rewrite Hf. Qed.

Lemma tokens_reads s ts : scans LStart s ts LStart → tokens s = Some ts.
Proof. intros Hs. rewrite (tokens_scans _ _ _ _ Hs eq_refl). by rewrite app_nil_r. Qed.

(** [l.iter().map(f).collect::<String>()]. *)
Fixpoint concat_map {A : Type} (f : A → string) (l : list A) : string :=
  match l with [] => "" | x :: l => f x +:+ concat_map f l end.

Lemma scans_concat {A} (f : A → string) (g : A → list token) l :
  (∀ x, x ∈ l → scans LStart (f x) (g x) LStart) → scans LStart (concat_map f l) (mjoin (map g l)) LStart.
Proof.
  induction l as [|x l IH]; intros Hf; [done|]. cbn. eapply scans_app; [apply Hf; by left|].
  apply IH. intros y Hy. apply Hf. by right.
Qed.

Lemma scans_eq st s ts ts' st' : scans st s ts st' → ts = ts' → scans st s ts' st'.
Proof. by intros Hs <-. Qed.

Create HintDb texts.

(** Scan a text that is constants and known pieces. *)
Ltac scan_const :=
  lazymatch goal with
  | |- scans ?st ?c _ _ => let r := eval cbv in (scan st c) in refine (eq_refl : scan st c = r)
  end.

Ltac scan_text :=
  lazymatch goal with
  | |- scans _ (String _ _ +:+ _) _ _ => eapply scans_app; [scan_const|scan_text]
  | |- scans LAngle (_ +:+ _) _ _ => eapply scans_iri_app; [solve [eauto with texts]|scan_text]
  | |- scans LStart (_ +:+ _) _ _ =>
      first [ eapply scans_app; [solve [eauto with texts]|scan_text]
            | eapply scans_tokens; [solve [eauto with texts]|eexists; reflexivity|scan_text] ]
  | |- scans _ _ _ _ => first [solve [eauto with texts] | scan_const]
  end.

(** The same, to a given list. *)
Ltac norm_tokens := repeat first [rewrite app_nil_r | rewrite <- app_assoc | progress cbn [app]].

Ltac scan_to := eapply scans_eq; [scan_text|norm_tokens; reflexivity].

(** ** Terms *)

(** The terminals of a term in its N-Triples form. *)
Definition literal_tokens (l : literal) : list token :=
  TkString (l_value l) ::
  match l_language l with
  | Some language =>
      [TkLang (language +:+ match l_direction l with Some Ltr => "--ltr" | Some Rtl => "--rtl" | None => "" end)]
  | None => if bool_decide (l_datatype l = XSD_STRING) then [] else [TkCarets; TkIri (l_datatype l)]
  end.

Fixpoint term_tokens (t : term) : list token :=
  match t with
  | TNamed n => [TkIri n]
  | TBlank _ => []
  | TLiteral l => literal_tokens l
  | TTriple s p o =>
      TkOpen :: match s with SNamed n => [TkIri n] | SBlank _ => [] end ++ TkIri p :: term_tokens o ++ [TkClose]
  end.

(** A language tag holds letters, digits and single hyphens. *)
Definition legal_tag (tag : string) : Prop :=
  all_chars is_tag_char tag = true ∧ strip_suffix "--ltr" tag = None ∧ strip_suffix "--rtl" tag = None.

(** A literal as RDF has them: a language comes with its datatype. *)
Definition writable_literal (l : literal) : Prop :=
  match l_language l with
  | Some language =>
      legal_tag language ∧
      l_datatype l = match l_direction l with Some _ => RDF_DIR_LANGSTRING | None => RDF_LANGSTRING end
  | None => legal (l_datatype l)
  end.

Definition writable_subject (s : named_or_blank) : Prop :=
  match s with SNamed n => legal n | SBlank _ => False end.

(** A ground term with legal IRIs. *)
Fixpoint writable (t : term) : Prop :=
  match t with
  | TNamed n => legal n
  | TBlank _ => False
  | TLiteral l => writable_literal l
  | TTriple s p o => writable_subject s ∧ legal p ∧ writable o
  end.

Definition writable_triple (t : triple) : Prop :=
  writable_subject (t_subject t) ∧ legal (t_predicate t) ∧ writable (t_object t).

(** What may follow a term: nothing that would continue a literal. *)
Definition apart (ts : list token) : Prop :=
  match ts with TkLang _ :: _ | TkCarets :: _ => False | _ => True end.

Lemma app_same_suffix (a b s t : string) : a +:+ s = b +:+ t → String.length s = String.length t → s = t.
Proof.
  revert b. induction a as [|x a IH]; intros [|y b] E Hl; [done|..].
  - apply (f_equal String.length) in E. rewrite app_nil_l_s, length_app_s in E. cbn in E. lia.
  - apply (f_equal String.length) in E. rewrite app_nil_l_s, length_app_s in E. cbn in E. lia.
  - rewrite !app_cons_s in E. injection E as _ E. by apply (IH b).
Qed.

Lemma tagged_direction v language d :
  legal_tag language →
  tagged_literal v (language +:+ match d with Some Ltr => "--ltr" | Some Rtl => "--rtl" | None => "" end) =
  Literal v (Some (language, d)) (match d with Some _ => RDF_DIR_LANGSTRING | None => RDF_LANGSTRING end).
Proof.
  intros (_ & Hl & Hr). unfold tagged_literal. destruct d as [[]|].
  - by rewrite strip_suffix_app.
  - destruct (strip_suffix "--ltr" (language +:+ "--rtl")) as [x|] eqn:E; [|by rewrite strip_suffix_app].
    apply strip_suffix_Some, app_same_suffix in E; done.
  - rewrite app_nil_r_s, Hl, Hr. done.
Qed.

Lemma read_term_tokens t rest : writable t → apart rest → read_term (term_tokens t ++ rest) = Some (t, rest).
Proof.
  revert rest. induction t as [n|b|l|s p o IH]; intros rest Hw Ha; [done|done| |].
  - cbn in Hw |- *. unfold literal_tokens, writable_literal in *. destruct l as [v [[language d]|] dt]; cbn in *.
    + destruct Hw as [Ht ->]. by rewrite (tagged_direction v language d Ht).
    + case_bool_decide as E; [|done]. subst dt. cbn.
      destruct rest as [|[] rest]; done.
  - cbn in Hw. destruct Hw as (Hs & Hp & Ho). destruct s as [s|b]; [|done].
    change (term_tokens (TTriple (SNamed s) p o) ++ rest)
      with (TkOpen :: TkIri s :: TkIri p :: (term_tokens o ++ [TkClose]) ++ rest).
    rewrite <- app_assoc. cbn [read_term app]. by rewrite (IH (TkClose :: rest) Ho).
Qed.

Lemma term_tokens_head t : writable t → ∃ tk ts, term_tokens t = tk :: ts ∧
  match tk with TkIri _ | TkString _ | TkOpen => True | _ => False end.
Proof. destruct t as [n|b|l|s p o]; [|done|..]; intros _; by eexists _, _. Qed.

Lemma term_apart t rest : writable t → apart (term_tokens t ++ rest).
Proof. intros Hw. destruct (term_tokens_head t Hw) as (tk & ts & -> & Htk). by destruct tk. Qed.

Lemma read_item_term t rest : writable t → apart rest → read_item (term_tokens t ++ rest) = Some (ITerm t, rest).
Proof.
  intros Hw Ha. pose proof (read_term_tokens t rest Hw Ha) as Hr. destruct (term_tokens_head t Hw) as (tk & ts & E & Htk).
  unfold read_item. rewrite Hr. rewrite E. by destruct tk.
Qed.
