(* ===== verification/Grammar.v ===== *)
(** The grammar of the updates and queries the sources write, as relations
    between terminals and syntax, and that the parser of [Sparql] reads all of
    it.  One direction only: the parser decides, the grammar is how a text is
    shown to be readable. *)
From S2P Require Import Prelude Str Terms Space Rdf Dataset Patch Store Backing Sparql.
Open Scope list_scope.

(** * Groups *)

(** The terminals of an item. *)
Inductive item_tokens : list token → item → Prop :=
| it_term t : writable t → item_tokens (term_tokens t) (ITerm t)
| it_var v : item_tokens [TkVar v] (IVar v)
| it_true : item_tokens [TkWord "true"] (ITerm lit_true).

Inductive verb_tokens : list token → item → Prop :=
| vt_named n : verb_tokens [TkIri n] (ITerm (TNamed n))
| vt_var v : verb_tokens [TkVar v] (IVar v).

(** A subject here is not [true]: the keyword would begin another element. *)
Inductive subject_tokens : list token → item → Prop :=
| st_term t : writable t → subject_tokens (term_tokens t) (ITerm t)
| st_var v : subject_tokens [TkVar v] (IVar v).

(** The grammar of a group, between its braces. *)
Inductive block : list token → list elem → Prop :=
| block_nil : block [] []
| block_last ts1 ts2 ts3 s p o :
    subject_tokens ts1 s → verb_tokens ts2 p → item_tokens ts3 o →
    block (ts1 ++ ts2 ++ ts3) [ETriple s p o]
| block_triple ts1 ts2 ts3 s p o ts es :
    subject_tokens ts1 s → verb_tokens ts2 p → item_tokens ts3 o → block ts es →
    block (ts1 ++ ts2 ++ ts3 ++ TkPunct "." :: ts) (ETriple s p o :: es)
| block_graph ts1 g body es ts es' :
    item_tokens ts1 g → block body es → block ts es' →
    block (TkWord "GRAPH" :: ts1 ++ TkPunct "{" :: body ++ TkPunct "}" :: ts) (EGraph g es :: es')
| block_exists body es ts es' :
    block body es → block ts es' →
    block (TkWord "FILTER" :: TkWord "EXISTS" :: TkPunct "{" :: body ++ TkPunct "}" :: ts) (EExists es :: es')
| block_values v iris ts es :
    block ts es →
    block (TkWord "VALUES" :: TkVar v :: TkPunct "{" :: (TkIri <$> iris) ++ TkPunct "}" :: ts)
      (EValues [v] ((λ i, [i]) <$> iris) :: es)
| block_rows vs rows ts es :
    block ts es →
    block (TkWord "VALUES" :: TkPunct "(" :: (TkVar <$> vs) ++ TkPunct ")" :: TkPunct "{" ::
             mjoin ((λ row, TkPunct "(" :: (TkIri <$> row) ++ [TkPunct ")"]) <$> rows) ++ TkPunct "}" :: ts)
      (EValues vs rows :: es).

Lemma read_item_tokens ts i rest : item_tokens ts i → apart rest → read_item (ts ++ rest) = Some (i, rest).
Proof. intros [t Ht|v|] Ha; [by apply read_item_term|done..]. Qed.

Lemma read_verb_tokens ts i rest : verb_tokens ts i → read_verb (ts ++ rest) = Some (i, rest).
Proof. by intros [n|v]. Qed.

Lemma subject_item ts i : subject_tokens ts i → item_tokens ts i.
Proof. intros []; by constructor. Qed.

Lemma verb_apart ts i rest : verb_tokens ts i → apart (ts ++ rest).
Proof. by intros []. Qed.

Lemma item_apart ts i rest : item_tokens ts i → apart (ts ++ rest).
Proof. intros [t Ht|v|]; [by apply term_apart|done..]. Qed.

Lemma subject_head ts i rest : subject_tokens ts i → ∃ tk ts', ts ++ rest = tk :: ts' ∧
  match tk with TkIri _ | TkString _ | TkOpen | TkVar _ => True | _ => False end.
Proof.
  intros [t Ht|v]; [|by eexists _, _]. destruct (term_tokens_head t Ht) as (tk & ts' & -> & Htk).
  exists tk, (ts' ++ rest). split; [done|]. by destruct tk.
Qed.

Lemma take_iris_app iris rest : match rest with TkIri _ :: _ => False | _ => True end →
  take_iris ((TkIri <$> iris) ++ rest) = (iris, rest).
Proof.
  intros Hr. induction iris as [|i iris IH]; cbn; [by destruct rest as [|[] rest]|]. by rewrite IH.
Qed.

Lemma take_vars_app vs rest : match rest with TkVar _ :: _ => False | _ => True end →
  take_vars ((TkVar <$> vs) ++ rest) = (vs, rest).
Proof.
  intros Hr. induction vs as [|v vs IH]; cbn; [by destruct rest as [|[] rest]|]. by rewrite IH.
Qed.

Lemma read_rows_app fuel rows rest : length rows < fuel →
  read_rows fuel (mjoin ((λ row, TkPunct "(" :: (TkIri <$> row) ++ [TkPunct ")"]) <$> rows) ++ TkPunct "}" :: rest) =
  Some (rows, rest).
Proof.
  revert fuel. induction rows as [|row rows IH]; intros [|fuel] Hf; cbn in Hf; try lia; [done|].
  cbn. rewrite <- !app_assoc. cbn. rewrite take_iris_app by done. cbn. rewrite IH by lia. done.
Qed.

Lemma length_rows (rows : list (list string)) :
  (length rows <= length (mjoin ((λ row, TkPunct "(" :: (TkIri <$> row) ++ [TkPunct ")"]) <$> rows)))%nat.
Proof.
  induction rows as [|row rows IH]; [done|].
  set (f := λ row : list string, TkPunct "(" :: (TkIri <$> row) ++ [TkPunct ")"]) in *.
  change (mjoin (f <$> row :: rows)) with (f row ++ mjoin (f <$> rows)). rewrite length_app.
  change (length (f row)) with (S (length ((TkIri <$> row) ++ [TkPunct ")"]))).
  change (length (row :: rows)) with (S (length rows)). lia.
Qed.

(** The branch of [read_block] for a triple, after its subject. *)
Lemma read_block_subject fuel ts1 s rest : subject_tokens ts1 s → apart rest →
  read_block (S fuel) (ts1 ++ rest) =
  '(p, ts) ← read_verb rest;
  '(o, ts) ← read_item ts;
  ts ← match punct "." ts with Some ts => Some ts | None => punct "}" ts ≫= λ _, Some ts end;
  '(es, ts) ← read_block fuel ts;
  Some (ETriple s p o :: es, ts).
Proof.
  intros H1 Ha. pose proof (read_item_tokens ts1 s rest (subject_item _ _ H1) Ha) as E1.
  destruct (subject_head ts1 s rest H1) as (tk & ts' & Eh & Htk). rewrite Eh in E1 |- *. cbn [read_block].
  assert (∀ A (k : item * list token → option A), (read_item (tk :: ts') ≫= k) = k (s, rest)) as Hk by (intros; by rewrite E1).
  destruct tk; try done; by rewrite Hk.
Qed.

Lemma read_block_triple fuel ts1 ts2 ts3 s p o rest rest' es :
  subject_tokens ts1 s → verb_tokens ts2 p → item_tokens ts3 o → apart rest →
  (match punct "." rest with Some ts => Some ts | None => punct "}" rest ≫= λ _, Some rest end) = Some rest' →
  read_block fuel rest' = Some es →
  read_block (S fuel) (ts1 ++ ts2 ++ ts3 ++ rest) = Some (ETriple s p o :: es.1, es.2).
Proof.
  intros H1 H2 H3 Ha Hd Hr. rewrite (read_block_subject _ _ s) by (done || by eapply verb_apart).
  rewrite (read_verb_tokens ts2 p (ts3 ++ rest) H2). cbn. rewrite (read_item_tokens ts3 o rest H3 Ha). cbn.
  rewrite Hd. cbn. rewrite Hr. by destruct es.
Qed.

(** Push the append of a list of terminals to the right. *)
Ltac norm_app := repeat first [rewrite <- app_comm_cons | rewrite <- app_assoc].

Lemma read_block_app ts es : block ts es → ∀ fuel rest, length ts < fuel →
  read_block fuel (ts ++ TkPunct "}" :: rest) = Some (es, rest).
Proof.
  induction 1 as [|ts1 ts2 ts3 s p o H1 H2 H3|ts1 ts2 ts3 s p o ts es H1 H2 H3 _ IH
    |ts1 g body es ts es' Hg _ IH1 _ IH2|body es ts es' _ IH1 _ IH2|v iris ts es _ IH|vs rows ts es _ IH];
    intros [|fuel] rest Hf; try lia.
  - done.
  - rewrite <- !app_assoc. destruct fuel as [|fuel].
    { destruct (subject_head ts1 s [] H1) as (tk & ts' & E & _). rewrite app_nil_r in E. subst ts1. cbn in Hf. lia. }
    by apply (read_block_triple _ _ _ _ _ _ _ _ (TkPunct "}" :: rest) ([], rest)).
  - rewrite <- !app_assoc. rewrite <- app_comm_cons.
    apply (read_block_triple _ _ _ _ _ _ _ _ (ts ++ TkPunct "}" :: rest) (es, rest)); [done..|].
    apply IH. rewrite !length_app in Hf. cbn in Hf. lia.
  - cbn in Hf. rewrite !length_app in Hf. cbn in Hf. rewrite length_app in Hf. cbn in Hf.
    norm_app.
    cbn [read_block]. rewrite bool_decide_eq_true_2 by done. rewrite (read_item_tokens _ _ _ Hg) by done. cbn.
    rewrite IH1 by lia. cbn. rewrite IH2 by lia. done.
  - cbn in Hf. rewrite length_app in Hf. cbn in Hf.
    norm_app.
    cbn [read_block]. rewrite bool_decide_eq_false_2, bool_decide_eq_true_2 by done. cbn.
    rewrite bool_decide_eq_true_2 by done. cbn. rewrite IH1 by lia. cbn. rewrite IH2 by lia. done.
  - cbn in Hf. rewrite length_app in Hf. cbn in Hf.
    norm_app.
    cbn [read_block]. rewrite !bool_decide_eq_false_2, bool_decide_eq_true_2 by done. cbn.
    rewrite take_iris_app by done. cbn. rewrite IH by lia. done.
  - cbn in Hf. rewrite !length_app in Hf. cbn in Hf. rewrite !length_app in Hf. cbn in Hf.
    pose proof (length_rows rows) as Hrows.
    norm_app.
    cbn [read_block]. rewrite !bool_decide_eq_false_2, bool_decide_eq_true_2 by done. cbn.
    rewrite take_vars_app by done. cbn. rewrite read_rows_app by lia. cbn. rewrite IH by lia. done.
Qed.

Lemma read_group_app ts es fuel rest : block ts es → length ts < fuel →
  read_group fuel (TkPunct "{" :: ts ++ TkPunct "}" :: rest) = Some (es, rest).
Proof. intros Hb Hf. unfold read_group. cbn. by apply read_block_app. Qed.

(** * Updates *)
Definition group (ts : list token) : list token := TkPunct "{" :: ts ++ [TkPunct "}"].

Lemma read_group_group ts es fuel rest : block ts es → length (group ts) <= fuel →
  read_group fuel (group ts ++ rest) = Some (es, rest).
Proof.
  intros Hb Hf. unfold group in *. cbn in Hf. rewrite length_app in Hf. cbn in Hf. rewrite <- app_comm_cons, <- app_assoc.
  apply read_group_app; [done|lia].
Qed.

Inductive operation : list token → update_syntax → Prop :=
| op_drop g : operation [TkWord "DROP"; TkWord "SILENT"; TkWord "GRAPH"; TkIri g] (UDrop g)
| op_insert_data ts es :
    block ts es → operation (TkWord "INSERT" :: TkWord "DATA" :: group ts) (UInsertData es)
| op_delete_data ts es :
    block ts es → operation (TkWord "DELETE" :: TkWord "DATA" :: group ts) (UDeleteData es)
| op_with g d i w del ins wh :
    block d del → block i ins → block w wh →
    operation (TkWord "WITH" :: TkIri g :: TkWord "DELETE" :: group d ++ TkWord "INSERT" :: group i ++
                 TkWord "WHERE" :: group w) (UModify (Some g) del ins wh)
| op_delete_where d w del wh :
    block d del → block w wh →
    operation (TkWord "DELETE" :: group d ++ TkWord "WHERE" :: group w) (UModify None del [] wh)
| op_insert_where i w ins wh :
    block i ins → block w wh →
    operation (TkWord "INSERT" :: group i ++ TkWord "WHERE" :: group w) (UModify None [] ins wh).

Lemma word_same w ts : word w (TkWord w :: ts) = Some ts.
Proof. cbn. by rewrite bool_decide_eq_true_2. Qed.

Lemma clause_group w fuel ts es rest : block ts es → length (group ts) <= fuel →
  clause w fuel (TkWord w :: group ts ++ rest) = Some (es, rest).
Proof. intros Hb Hf. unfold clause. rewrite word_same. by apply read_group_group. Qed.

Lemma clause_absent w v fuel ts : w ≠ v → clause w fuel (TkWord v :: ts) = Some ([], TkWord v :: ts).
Proof. intros Hne. unfold clause. cbn. by rewrite bool_decide_eq_false_2. Qed.

(** What is left of a modification after its templates. *)
Lemma read_where fuel (with_ : option string) ts del ins t1 t2 w wh rest :
  clause "DELETE" fuel ts = Some (del, t1) → clause "INSERT" fuel t1 = Some (ins, TkWord "WHERE" :: t2) →
  t2 = group w ++ rest → block w wh → length (group w) <= fuel →
  read_modify fuel with_ ts = Some (UModify with_ del ins wh, rest).
Proof.
  intros Hd Hi -> Hw Hf. unfold read_modify. rewrite Hd. cbn -[word read_group group]. rewrite Hi. cbn -[word read_group group].
  rewrite word_same. cbn -[read_group group]. by rewrite (read_group_group w wh).
Qed.

Lemma read_operation_app ts u fuel rest : operation ts u → length ts <= fuel →
  read_operation fuel (ts ++ rest) = Some (u, rest).
Proof.
  intros [g|ts' es Hb|ts' es Hb|g d i w del ins wh Hd Hi Hw|d w del wh Hd Hw|i w ins wh Hi Hw] Hf;
    cbn [length] in Hf; rewrite ?length_app in Hf; cbn [length] in Hf; rewrite ?length_app in Hf; cbn [length] in Hf;
    norm_app.
  - done.
  - cbn [read_operation]. rewrite (read_group_group ts' es) by (done || lia). done.
  - cbn [read_operation]. rewrite (read_group_group ts' es) by (done || lia). done.
  - change (read_modify fuel (Some g) (TkWord "DELETE" :: group d ++ TkWord "INSERT" :: group i ++
      TkWord "WHERE" :: group w ++ rest) = Some (UModify (Some g) del ins wh, rest)).
    eapply read_where; [apply clause_group; [done|lia]..|done|done|lia].
  - change (read_modify fuel None (TkWord "DELETE" :: group d ++ TkWord "WHERE" :: group w ++ rest) =
      Some (UModify None del [] wh, rest)).
    eapply read_where; [apply clause_group; [done|lia]|by apply clause_absent|done|done|lia].
  - change (read_modify fuel None (TkWord "INSERT" :: group i ++ TkWord "WHERE" :: group w ++ rest) =
      Some (UModify None [] ins wh, rest)).
    eapply read_where; [by apply clause_absent|apply clause_group; [done|lia]|done|done|lia].
Qed.

(** Operations between semicolons. *)
Inductive program : list token → list update_syntax → Prop :=
| prog_last ts u : operation ts u → program ts [u]
| prog_next ts u rest us : operation ts u → program rest us → program (ts ++ TkPunct ";" :: rest) (u :: us).

Lemma operation_nonempty ts u : operation ts u → (0 < length ts)%nat.
Proof. intros []; cbn; lia. Qed.

Lemma read_program ts us fuel : program ts us → (length ts <= fuel)%nat → read_operations (S fuel) ts = Some us.
Proof.
  intros Hp. revert fuel. induction Hp as [ts u Hu|ts u rest us Hu Hp IH]; intros fuel Hf.
  - cbn [read_operations]. rewrite <- (app_nil_r ts), (read_operation_app ts u) by done. done.
  - rewrite length_app in Hf. cbn in Hf. pose proof (operation_nonempty ts u Hu). cbn [read_operations].
    rewrite (read_operation_app ts u) by (done || lia). cbn.
    destruct fuel as [|fuel]; [lia|]. rewrite IH by lia. done.
Qed.

Lemma read_update_program text ts us ops :
  tokens text = Some ts → program ts us → mapM update_meaning us = Some ops → read_update text = Some ops.
Proof. intros Ht Hp Hm. unfold read_update. rewrite Ht. cbn [mbind option_bind]. by rewrite (read_program ts us). Qed.

(** * Queries *)
Lemma read_ask ts es fuel : block ts es → length (group ts) <= fuel →
  read_query_syntax fuel (TkWord "ASK" :: group ts) = Some (SAsk es).
Proof. intros Hb Hf. cbn [read_query_syntax]. rewrite <- (app_nil_r (group ts)), (read_group_group ts es) by done. done. Qed.

Lemma read_construct t w tes es fuel : block t tes → block w es → length (group t) <= fuel → length (group w) <= fuel →
  read_query_syntax fuel (TkWord "CONSTRUCT" :: group t ++ TkWord "WHERE" :: group w) = Some (SConstruct tes es).
Proof.
  intros Ht Hw Hf1 Hf2. cbn [read_query_syntax]. rewrite (read_group_group t tes) by done. cbn -[read_group group word]. rewrite word_same. cbn -[read_group group].
  rewrite <- (app_nil_r (group w)), (read_group_group w es) by done. done.
Qed.

Lemma read_select_all w es fuel : block w es → length (group w) <= fuel →
  read_query_syntax fuel (TkWord "SELECT" :: TkPunct "*" :: TkWord "WHERE" :: group w ++ [TkWord "LIMIT"; TkWord "2"]) =
  Some (SSelect None es (Some "2")).
Proof. intros Hw Hf. cbn [read_query_syntax]. rewrite word_same. cbn -[read_group group]. rewrite (read_group_group w es) by done. done. Qed.

Lemma read_select v vs w es fuel : block w es → length (group w) <= fuel →
  read_query_syntax fuel (TkWord "SELECT" :: (TkVar <$> v :: vs) ++ TkWord "WHERE" :: group w) =
  Some (SSelect (Some (v :: vs)) es None).
Proof.
  intros Hw Hf. set (rest := TkWord "WHERE" :: group w).
  assert ((TkVar <$> v :: vs) ++ rest = TkVar v :: ((TkVar <$> vs) ++ rest)) as E by done.
  rewrite E. cbn [read_query_syntax]. rewrite <- E. unfold rest.
  rewrite take_vars_app by done. rewrite word_same. cbn -[read_group group].
  rewrite <- (app_nil_r (group w)), (read_group_group w es) by done. done.
Qed.

Lemma read_query_syntax_text text ts q s :
  tokens text = Some ts → read_query_syntax (S (length ts)) ts = Some s → query_meaning s = Some q →
  read_query text = Some q.
Proof. intros Ht Hs Hm. unfold read_query. rewrite Ht. cbn [mbind option_bind]. rewrite Hs. done. Qed.
