(* ===== verification/Resource.v ===== *)
(** Graph-level storage operations ([resource.rs]). *)
From S2P Require Import Prelude Str Terms Space Rdf Dataset Patch Store Mem.
Open Scope list_scope.

Inductive ResourceError : Type :=
| InvalidIri
| RdfErr (e : RdfError)
| StoreErr (e : StoreError)
| BlobErr (e : BlobError)
| KeyTooLong
| BinaryWithoutMediaType.

Definition SYS_BINARY_RESOURCE : string := "urn:quadpod:sys#BinaryResource".

Inductive Kind : Type :=
| KRdf
| KBinary (mt : MediaType).

Definition SYS_PREFIX : string := "urn:quadpod:sys:".

(** [sys_graph_iri], on the graph IRI of its argument. *)
Definition sys_graph_iri (iri : string) : string := SYS_PREFIX +:+ iri.

(** A ground quad's triple: what [serialize_for_insert] writes of it. *)
Definition triple_of_ground (q : GroundQuad) : triple :=
  Triple (SNamed (g_subject q)) (g_predicate q) (term_of_ground (g_object q)).

(** [GRAPH <g> { .. }] in an [INSERT DATA] body. *)
Definition in_graph (g : string) (ts : list triple) : list located := pair g <$> ts.

Definition present_at (iri : string) : located := (sys_graph_iri iri, present_triple iri).

Definition media_type_triple (iri mt : string) : triple :=
  Triple (SNamed iri) SYS_MEDIA_TYPE (TLiteral (simple_literal mt)).

Definition present_pat (iri : string) : string * gpat :=
  (sys_graph_iri iri, GPat (TNamed iri) (TNamed SYS_PRESENT) lit_true).

Section resource.
Context {W : Type} `{Backend W} `{IriSyntax} `{HeaderSyntax} `{Hashing} `{ObjectPath}.

Notation MR := (M W ResourceError).

(** [store.op(..).await?] in a function that returns [ResourceError]. *)
Definition store_op {A : Type} (m : M W StoreError A) : MR A := map_err StoreErr m.
Definition blob_op {A : Type} (m : M W BlobError A) : MR A := map_err BlobErr m.

(** ** Existence *)
Definition exists_ (iri : string) : MR bool := store_op (ask [present_pat iri]).

Definition exists_many (iris : list string) : MR (gset string) :=
  match iris with
  | [] => ret ∅
  | _ =>
      let! rows := store_op (query_solutions (SelPresent ((λ g, (sys_graph_iri g, g)) <$> iris))) in
      ret (list_to_set (omap (λ row : solution,
        match row !! "g" with Some (TNamed n) => Some n | _ => None end) rows))
  end.

(** ** The registry *)
Definition registered_shelves (r : ResourceUrl) : MR (list ShelfKey) :=
  let iri := graph_iri r in
  let! triples := store_op (query_triples (QObjects (sys_graph_iri iri) iri SYS_HAS_SUBGRAPH)) in
  ret (omap (λ t, match t_object t with
                  | TNamed n => Some (from_registry n)
                  | _ => None
                  end) triples).

Definition stored_media_type (r : ResourceUrl) : MR (option MediaType) :=
  let iri := graph_iri r in
  let! triples := store_op (query_triples (QObjects (sys_graph_iri iri) iri SYS_MEDIA_TYPE)) in
  ret (find_map (λ t, match t_object t with
                      | TLiteral l => parse_media_type (l_value l)
                      | _ => None
                      end) triples).

(** ** Writing a dataset *)
Record shelf : Type := mkShelf { sh_key : ShelfKey; sh_name : string; sh_triples : list triple }.

(** The buckets of [put_dataset]: a quad joins the shelf with its key, or
    starts one. *)
Fixpoint push_shelf (shelves : list shelf) (key : ShelfKey) (name : string) (t : triple) : list shelf :=
  match shelves with
  | [] => [mkShelf key name [t]]
  | s :: rest =>
      if bool_decide (sh_key s = key) then mkShelf (sh_key s) (sh_name s) (sh_triples s ++ [t]) :: rest
      else s :: push_shelf rest key name t
  end.

Definition split_quad (r : ResourceUrl) (acc : list triple * list shelf) (q : GroundQuad)
    : list triple * list shelf :=
  let t := triple_of_ground q in
  match g_graph q with
  | GGDefault => (acc.1 ++ [t], acc.2)
  | GGNamed n => (acc.1, push_shelf acc.2 (shelf_key_of r n) n t)
  end.

Definition split_dataset (r : ResourceUrl) (d : Skolemized) : list triple * list shelf :=
  foldl (split_quad r) ([], []) d.

(** The update of [put_dataset]: drop what the registry lists and what is
    about to be written, then insert content and bookkeeping. *)
Definition put_dataset_ops (r : ResourceUrl) (registered : list ShelfKey) (default_graph : list triple)
    (shelves : list shelf) (media_type : Format) : list update_op :=
  let iri := graph_iri r in
  let sys := sys_graph_iri iri in
  map DropSilent registered ++ map (λ s, DropSilent (sh_key s)) shelves ++
  [DropSilent iri; DropSilent sys;
   InsertData (in_graph iri default_graph ++ mjoin (map (λ s, in_graph (sh_key s) (sh_triples s)) shelves));
   InsertData (in_graph sys
     ([present_triple iri; media_type_triple iri (format_media_type media_type)] ++
      mjoin (map (λ s, [Triple (SNamed iri) SYS_HAS_SUBGRAPH (TNamed (sh_key s));
                        Triple (SNamed (sh_key s)) SYS_GRAPH_NAME (TNamed (sh_name s))]) shelves)))].

(** The object a dataset write supersedes goes after the update. *)
Definition drop_blob (r : ResourceUrl) : MR unit :=
  match blob_key_of r with
  | Some key => blob_op (blob_delete key)
  | None => ret tt
  end.

Definition put_dataset (r : ResourceUrl) (dataset : Skolemized) (media_type : Format) : MR unit :=
  let (default_graph, shelves) := split_dataset r dataset in
  let! registered := registered_shelves r in
  do! for_each shelves (λ s, if iri_valid (sh_name s) then ret tt else throw InvalidIri) in
  do! store_op (update (put_dataset_ops r registered default_graph shelves media_type)) in
  drop_blob r.

(** ** Writing bytes *)
Definition put_blob_ops (r : ResourceUrl) (registered : list ShelfKey) (media_type : MediaType)
    : list update_op :=
  let iri := graph_iri r in
  let sys := sys_graph_iri iri in
  map DropSilent registered ++
  [DropSilent iri; DropSilent sys;
   InsertData (in_graph sys
     [present_triple iri;
      Triple (SNamed iri) RDF_TYPE (TNamed SYS_BINARY_RESOURCE);
      media_type_triple iri (mt_raw media_type)])].

Definition put_blob (r : ResourceUrl) (bytes : string) (media_type : MediaType) : MR unit :=
  let! key := lift (ok_or KeyTooLong (blob_key_of r)) in
  let! shelves := registered_shelves r in
  do! blob_op (blob_put key bytes) in
  store_op (update (put_blob_ops r shelves media_type)).

Definition binary_pat (iri : string) : string * gpat :=
  (sys_graph_iri iri, GPat (TNamed iri) (TNamed RDF_TYPE) (TNamed SYS_BINARY_RESOURCE)).

Definition kind_of (r : ResourceUrl) : MR (option Kind) :=
  let! e := exists_ (graph_iri r) in
  if negb e then ret None else
  let! binary := store_op (ask [binary_pat (graph_iri r)]) in
  if negb binary then ret (Some KRdf) else
  let! mt := stored_media_type r in
  let! mt := lift (ok_or BinaryWithoutMediaType mt) in
  ret (Some (KBinary mt)).

(** ** Patching *)
Inductive PatchResult : Type := Applied | NoMapping | SeveralMappings | DeletionMissing.

Definition backend_error (msg : string) : ResourceError := StoreErr (StoreBackend msg).

(** [render_bound]. *)
Definition render_bound (t : term) : outcome ResourceError term :=
  match t with
  | TNamed n => Ok (TNamed n)
  | TLiteral l => Ok (TLiteral l)
  | _ => Err (backend_error "a solution bound a term the store cannot hold")
  end.

(** [ground_term]; a term that is no variable renders as itself. *)
Definition ground_pattern_term (t : PatternTerm) (bindings : list solution)
    : outcome ResourceError term :=
  match t with
  | PNamed n => Ok (TNamed n)
  | PLiteral l => Ok (TLiteral l)
  | PVar i =>
      let? bound := ok_or (backend_error "a projected variable came back unbound")
                      (s ← head bindings; s !! var_name i) in
      render_bound bound
  end.

Fixpoint substitute (patterns : list Pattern) (bindings : list solution)
    : outcome ResourceError (list gpat) :=
  match patterns with
  | [] => Ok []
  | p :: patterns =>
      let? s := ground_pattern_term (p_subject p) bindings in
      let? pr := ground_pattern_term (p_predicate p) bindings in
      let? o := ground_pattern_term (p_object p) bindings in
      let? out := substitute patterns bindings in
      Ok (GPat s pr o :: out)
  end.

(** [WITH <iri> DELETE { d } INSERT { i } WHERE { d guard }]. *)
Definition patch_ops (iri : string) (deletions insertions : list gpat) (guard : list located)
    : list update_op :=
  [Modify (pair iri <$> deletions) (pair iri <$> insertions) (pair iri <$> deletions) guard].

(** The part of [patch_guarded] after the mapping is known. *)
Definition patch_apply (iri : string) (patch : Patch) (guard : list located)
    (bindings : list solution) : MR PatchResult :=
  let! deletions := lift (substitute (deletions patch) bindings) in
  let! insertions := lift (substitute (insertions patch) bindings) in
  if is_empty deletions && is_empty insertions then ret Applied else
  let! before := (if is_empty deletions then ret false
                  else store_op (ask (pair iri <$> deletions))) in
  do! store_op (update (patch_ops iri deletions insertions guard)) in
  if negb (is_empty deletions) && negb before then ret DeletionMissing else ret Applied.

Definition patch_guarded (iri : string) (patch : Patch) (guard : list located) : MR PatchResult :=
  if is_empty (conditions patch) then patch_apply iri patch guard [] else
  let! solutions := store_op (query_solutions (SelPatterns iri (conditions patch))) in
  match length solutions with
  | 0 => ret NoMapping
  | 1 => patch_apply iri patch guard solutions
  | _ => ret SeveralMappings
  end.

Definition patch_dataset (r : ResourceUrl) (patch : Patch) : MR PatchResult :=
  patch_guarded (graph_iri r) patch [].

(** ** Reading a dataset *)

(** One shelf of the loop of [get_dataset]. *)
Definition read_shelf (sys : string) (k : ShelfKey) : MR (list quad) :=
  let! names := store_op (query_triples (QObjects sys k SYS_GRAPH_NAME)) in
  match find_map (λ t, match t_object t with
                       | TNamed n => if iri_valid n then Some n else None
                       | _ => None
                       end) names with
  | None => throw InvalidIri
  | Some name =>
      let! ts := store_op (query_triples (QGraph k)) in
      ret (map (quad_of_triple (GNamed name)) ts)
  end.

Fixpoint read_shelves (sys : string) (keys : list ShelfKey) (quads : list quad) : MR (list quad) :=
  match keys with
  | [] => ret quads
  | k :: keys =>
      let! more := read_shelf sys k in
      read_shelves sys keys (quads ++ more)
  end.

Definition get_dataset (r : ResourceUrl) : MR (option Skolemized) :=
  let iri := graph_iri r in
  let sys := sys_graph_iri iri in
  let! e := exists_ iri in
  if negb e then ret None else
  let! ts := store_op (query_triples (QGraph iri)) in
  let! keys := registered_shelves r in
  let! quads := read_shelves sys keys (map (quad_of_triple GDefault) ts) in
  match from_store quads with
  | Some d => ret (Some d)
  | None => panic
  end.

(** ** Single graphs *)
Definition as_quads (triples : list triple) : Dataset := map (quad_of_triple GDefault) triples.

Definition put_rdf_ops (iri : string) (body : list triple) : list update_op :=
  [DropSilent iri; InsertData (in_graph iri body); InsertData [present_at iri]].

Definition put_rdf (uuid : nat → string) (iri : string) (triples : list triple) : MR unit :=
  store_op (update (put_rdf_ops iri (map triple_of_ground (skolemize uuid (as_quads triples))))).

Definition insert_marked_ops (iri : string) (body : list triple) : list update_op :=
  [InsertData (in_graph iri body); InsertData [present_at iri]].

Definition insert_marked (iri : string) (quads : list GroundQuad) : MR unit :=
  store_op (update (insert_marked_ops iri (map triple_of_ground quads))).

Definition get_rdf (iri : string) : MR (option (list triple)) :=
  let! e := exists_ iri in
  if negb e then ret None else
  let! ts := store_op (query_triples (QGraph iri)) in
  ret (Some ts).

Definition delete_rdf_ops (iri : string) : list update_op :=
  [DropSilent iri; DropSilent (sys_graph_iri iri)].

Definition delete_rdf (iri : string) : MR bool :=
  let! existed := exists_ iri in
  do! store_op (update (delete_rdf_ops iri)) in
  ret existed.
End resource.

(** * What the store holds of a resource

    The abstract state is a map from graph IRIs to datasets with the format
    they were written in; [Rep] relates it to the graphs of the store. *)

(** Blank-free data keeps its graph when it becomes a triple. *)
Definition graph_triples (d : Skolemized) (g : GroundGraphName) : list triple :=
  triple_of_ground <$> filter (λ q, g_graph q = g) d.

Section rep.
Context `{Hashing}.

Definition key_at (iri n : string) : ShelfKey := shelf_key_of (mkResourceUrl "" iri) n.

(** The system graph of a dataset resource. *)
Definition bookkeeping (iri : string) (d : Skolemized) (f : Format) : list triple :=
  [present_triple iri; media_type_triple iri (format_media_type f)] ++
  mjoin (map (λ n, [Triple (SNamed iri) SYS_HAS_SUBGRAPH (TNamed (key_at iri n));
                    Triple (SNamed (key_at iri n)) SYS_GRAPH_NAME (TNamed n)]) (sk_named_graphs d)).

Record dataset_at (G : gset located) (iri : string) (d : Skolemized) (f : Format) : Prop := {
  at_default t : (iri, t) ∈ G ↔ t ∈ graph_triples d GGDefault;
  at_named n t : n ∈ sk_named_graphs d → (key_at iri n, t) ∈ G ↔ t ∈ graph_triples d (GGNamed n);
  at_sys t : (sys_graph_iri iri, t) ∈ G ↔ t ∈ bookkeeping iri d f
}.

Notation Abs := (gmap string (Skolemized * Format)).

Definition Rep (G : gset located) (abs : Abs) : Prop :=
  ∀ iri d f, abs !! iri = Some (d, f) → dataset_at G iri d f.

(** The named graphs in use, with a dataset about to be written. *)
Definition in_use (abs : Abs) (iri : string) (d : Skolemized) (i n : string) : Prop :=
  (∃ d0 f0, abs !! i = Some (d0, f0) ∧ n ∈ sk_named_graphs d0) ∨
  (i = iri ∧ n ∈ sk_named_graphs d).

(** No two of them have the same shelf key: what SHA-256 is trusted for. *)
Definition keys_distinct (abs : Abs) (iri : string) (d : Skolemized) : Prop :=
  ∀ i n i' n', in_use abs iri d i n → in_use abs iri d i' n' →
    key_at i n = key_at i' n' → i = i' ∧ n = n'.

(** A resource without a known state has no registry. *)
Definition registry_known (G : gset located) (abs : Abs) (iri : string) : Prop :=
  abs !! iri = None → ∀ o, (sys_graph_iri iri, Triple (SNamed iri) SYS_HAS_SUBGRAPH o) ∉ G.

(** ** Names are apart *)
Definition web (iri : string) : Prop := starts_with "http" iri = true.

Lemma web_not_sys iri i : web iri → iri ≠ sys_graph_iri i.
Proof. intros Hw ->. done. Qed.

Lemma web_not_key iri i n : web iri → iri ≠ key_at i n.
Proof. intros Hw ->. done. Qed.

Lemma sys_not_key iri i n : sys_graph_iri iri ≠ key_at i n.
Proof. done. Qed.

Lemma sys_graph_inj iri i : sys_graph_iri iri = sys_graph_iri i → iri = i.
Proof. apply app_inj_l_s. Qed.

(** ** The split of a dataset *)
Lemma push_shelf_map (key : string → string) (F : string → list triple) ns n t :
  (∀ m m', m ∈ n :: ns → m' ∈ n :: ns → key m = key m' → m = m') →
  (n ∉ ns → F n = []) → NoDup ns →
  push_shelf (map (λ m, mkShelf (key m) m (F m)) ns) (key n) n t =
  map (λ m, mkShelf (key m) m (F m ++ if decide (m = n) then [t] else [])) (push_new ns n).
Proof.
  intros Hinj HF Hnd. unfold push_new.
  induction ns as [|m ns IH]; simpl.
  - rewrite decide_True by done. by rewrite HF by (by intros ?%elem_of_nil).
  - apply NoDup_cons in Hnd as [Hm Hnd]. destruct (decide (m = n)) as [->|Hne].
    + rewrite (bool_decide_eq_true_2 (key n = key n)) by done.
      rewrite (bool_decide_eq_true_2 (n ∈ n :: ns)) by (by left). simpl.
      rewrite decide_True by done. f_equal. apply map_ext_in. intros x Hx.
      rewrite decide_False; [by rewrite app_nil_r|]. intros ->. by apply Hm, list_elem_of_In.
    + rewrite (bool_decide_eq_false_2 (key m = key n)).
      2:{ intros E. apply Hne, Hinj; [by right; left|by left|done]. }
      rewrite IH; [| |by intros Hn; apply HF; intros [->|?]%elem_of_cons|done].
      2:{ intros x y Hx Hy. apply Hinj; set_solver. }
      assert (bool_decide (n ∈ m :: ns) = bool_decide (n ∈ ns)) as ->.
      { apply bool_decide_ext. rewrite elem_of_cons. naive_solver. }
      destruct (bool_decide (n ∈ ns)); simpl; rewrite decide_False by done; by rewrite app_nil_r.
Qed.

Lemma graph_triples_snoc d q g :
  graph_triples (d ++ [q]) g =
  graph_triples d g ++ if decide (g_graph q = g) then [triple_of_ground q] else [].
Proof.
  unfold graph_triples, Skolemized in *. rewrite filter_app, fmap_app. f_equal.
  rewrite filter_cons. by destruct (decide (g_graph q = g)).
Qed.

Lemma graph_triples_nil d n : n ∉ sk_named_graphs d → graph_triples d (GGNamed n) = [].
Proof.
  intros Hn. unfold graph_triples, Skolemized in *.
  destruct (filter _ d) as [|q l] eqn:E; [done|]. destruct Hn.
  apply sk_named_graphs_spec. exists q.
  assert (q ∈ filter (λ q, g_graph q = GGNamed n) d) as Hq by (rewrite E; by left).
  by apply list_elem_of_filter in Hq as [? ?].
Qed.

Lemma sk_named_graphs_snoc d q :
  sk_named_graphs (d ++ [q]) =
  match g_graph q with GGNamed n => push_new (sk_named_graphs d) n | _ => sk_named_graphs d end.
Proof. unfold sk_named_graphs, Skolemized in *. by rewrite foldl_app. Qed.

Lemma split_dataset_spec r d :
  (∀ n n', n ∈ sk_named_graphs d → n' ∈ sk_named_graphs d →
     key_at (graph_iri r) n = key_at (graph_iri r) n' → n = n') →
  split_dataset r d =
  (graph_triples d GGDefault,
   map (λ n, mkShelf (key_at (graph_iri r) n) n (graph_triples d (GGNamed n))) (sk_named_graphs d)).
Proof.
  unfold split_dataset. induction d as [|q d IH] using rev_ind; intros Hinj; [done|].
  unfold Skolemized in *. rewrite foldl_app. simpl. rewrite sk_named_graphs_snoc in Hinj |- *.
  rewrite IH.
  2:{ intros n n' Hn Hn'. apply Hinj; destruct (g_graph q); try done; apply push_new_spec; auto. }
  unfold split_quad. rewrite graph_triples_snoc. destruct (g_graph q) as [|m] eqn:E; simpl.
  - f_equal. apply map_ext. intros n.
    rewrite graph_triples_snoc, E. by rewrite app_nil_r.
  - rewrite app_nil_r. f_equal. change (shelf_key_of r m) with (key_at (graph_iri r) m).
    rewrite (push_shelf_map (key_at (graph_iri r)) (λ n, graph_triples d (GGNamed n))).
    + apply map_ext. intros n. rewrite graph_triples_snoc, E. do 2 f_equal.
      by destruct (decide (n = m)), (decide (GGNamed m = GGNamed n)); try congruence.
    + intros x y Hx Hy. apply Hinj; apply push_new_spec; [apply elem_of_cons in Hx|apply elem_of_cons in Hy];
        naive_solver.
    + apply graph_triples_nil.
    + apply sk_named_graphs_NoDup.
Qed.

(** ** A dataset write *)
Lemma elem_of_in_graph g ts x : x ∈ in_graph g ts ↔ x.1 = g ∧ x.2 ∈ ts.
Proof.
  unfold in_graph. rewrite list_elem_of_fmap. destruct x as [g' t]; simpl. split.
  - by intros (u & [= -> ->] & ?).
  - intros [-> ?]. by exists t.
Qed.

Lemma put_dataset_ops_shape r reg d f :
  put_dataset_ops r reg (graph_triples d GGDefault)
    (map (λ n, mkShelf (key_at (graph_iri r) n) n (graph_triples d (GGNamed n))) (sk_named_graphs d)) f =
  map DropSilent (reg ++ map (key_at (graph_iri r)) (sk_named_graphs d) ++
                  [graph_iri r; sys_graph_iri (graph_iri r)]) ++
  map InsertData
    [in_graph (graph_iri r) (graph_triples d GGDefault) ++
       mjoin (map (λ n, in_graph (key_at (graph_iri r) n) (graph_triples d (GGNamed n))) (sk_named_graphs d));
     in_graph (sys_graph_iri (graph_iri r)) (bookkeeping (graph_iri r) d f)].
Proof.
  unfold put_dataset_ops, bookkeeping. rewrite !map_app, !map_map, <- !app_assoc. done.
Qed.

(** What an update of a dataset write leaves: its own graphs and what it did
    not drop. *)
Lemma put_dataset_elem r reg d f G g t :
  (g, t) ∈ run_ops (put_dataset_ops r reg (graph_triples d GGDefault)
    (map (λ n, mkShelf (key_at (graph_iri r) n) n (graph_triples d (GGNamed n))) (sk_named_graphs d)) f) G ↔
  (g = graph_iri r ∧ t ∈ graph_triples d GGDefault) ∨
  (∃ n, n ∈ sk_named_graphs d ∧ g = key_at (graph_iri r) n ∧ t ∈ graph_triples d (GGNamed n)) ∨
  (g = sys_graph_iri (graph_iri r) ∧ t ∈ bookkeeping (graph_iri r) d f) ∨
  ((g, t) ∈ G ∧ g ∉ reg ∧ g ≠ graph_iri r ∧ g ≠ sys_graph_iri (graph_iri r) ∧
   ∀ n, n ∈ sk_named_graphs d → g ≠ key_at (graph_iri r) n).
Proof.
  rewrite put_dataset_ops_shape, elem_of_rewrite.
  generalize (bookkeeping (graph_iri r) d f). intros B. cbn [mjoin list_join].
  rewrite app_nil_r, !elem_of_app, !elem_of_in_graph, list_elem_of_join. cbn [fst snd].
  rewrite !elem_of_cons, elem_of_nil.
  assert ((∃ l, (g, t) ∈ l ∧ l ∈ map (λ n, in_graph (key_at (graph_iri r) n)
            (graph_triples d (GGNamed n))) (sk_named_graphs d)) ↔
          (∃ n, n ∈ sk_named_graphs d ∧ g = key_at (graph_iri r) n ∧ t ∈ graph_triples d (GGNamed n))) as ->.
  { split.
    - intros (l & Hl & (n & -> & Hn)%list_elem_of_fmap). apply elem_of_in_graph in Hl as [? ?]. eauto.
    - intros (n & Hn & -> & Ht). eexists. split; [by apply elem_of_in_graph|].
      apply list_elem_of_fmap. eauto. }
  assert (g ∈ map (key_at (graph_iri r)) (sk_named_graphs d) ↔
          ∃ n, n ∈ sk_named_graphs d ∧ g = key_at (graph_iri r) n) as ->.
  { rewrite list_elem_of_fmap. naive_solver. }
  assert (¬ (∃ n, n ∈ sk_named_graphs d ∧ g = key_at (graph_iri r) n) ↔
          ∀ n, n ∈ sk_named_graphs d → g ≠ key_at (graph_iri r) n) by naive_solver.
  tauto.
Qed.

Lemma put_dataset_written r reg d f G :
  web (graph_iri r) →
  (∀ n n', n ∈ sk_named_graphs d → n' ∈ sk_named_graphs d →
     key_at (graph_iri r) n = key_at (graph_iri r) n' → n = n') →
  dataset_at (run_ops (put_dataset_ops r reg (graph_triples d GGDefault)
    (map (λ n, mkShelf (key_at (graph_iri r) n) n (graph_triples d (GGNamed n))) (sk_named_graphs d)) f) G)
    (graph_iri r) d f.
Proof.
  intros Hw Hinj.
  pose proof (λ i, web_not_sys _ i Hw) as N1. pose proof (λ i n, web_not_key _ i n Hw) as N2.
  pose proof sys_not_key as N3.
  split; intros; rewrite put_dataset_elem.
  - naive_solver.
  - split; [|naive_solver]. intros [[E _]|[(m & Hm & E & ?)|[[E _]|(_ & _ & _ & _ & Hn)]]].
    + by apply eq_sym, N2 in E.
    + by rewrite (Hinj n m).
    + by apply eq_sym, N3 in E.
    + by destruct (Hn n).
  - split; [|by auto]. intros [[E _]|[(m & Hm & E & ?)|[[_ ?]|(_ & _ & _ & Hn & _)]]]; try done.
    by apply eq_sym, N1 in E.
Qed.

(** A write of one resource keeps the dataset of another. *)
Lemma put_dataset_frame r reg d f G iri d' f' :
  web iri → web (graph_iri r) → iri ≠ graph_iri r →
  (∀ n n', n' ∈ sk_named_graphs d' →
     n ∈ sk_named_graphs d ∨ key_at (graph_iri r) n ∈ reg → key_at (graph_iri r) n ≠ key_at iri n') →
  (∀ k, k ∈ reg → ∃ n, k = key_at (graph_iri r) n) →
  dataset_at G iri d' f' →
  dataset_at (run_ops (put_dataset_ops r reg (graph_triples d GGDefault)
    (map (λ n, mkShelf (key_at (graph_iri r) n) n (graph_triples d (GGNamed n))) (sk_named_graphs d)) f) G)
    iri d' f'.
Proof.
  intros Hw Hwr Hne Hk Hreg [H1 H2 H3].
  pose proof (λ i, web_not_sys iri i Hw) as N1. pose proof (λ i n, web_not_key iri i n Hw) as N2.
  pose proof (λ i, web_not_sys _ i Hwr) as M1. pose proof (λ i n, web_not_key _ i n Hwr) as M2.
  pose proof sys_not_key as N3. pose proof (sys_graph_inj iri (graph_iri r)) as N4.
  split; intros; rewrite put_dataset_elem.
  - rewrite <- H1. split; [naive_solver|]. intros Ht. do 3 right.
    split_and!; [done| |done|done|naive_solver].
    intros Hr. apply Hreg in Hr as [n E]. by apply N2 in E.
  - rewrite <- H2 by done. split.
    + intros [[E _]|[(m & Hm & E & ?)|[[E _]|[? _]]]]; [|exfalso; eapply Hk; eauto| |done].
      * by apply eq_sym, M2 in E.
      * by apply eq_sym, N3 in E.
    + intros Ht. do 3 right. split_and!; [done| | | |].
      * intros Hr. destruct (Hreg _ Hr) as [m E]. eapply Hk; [|right|by symmetry]; [done|by rewrite <- E].
      * intros E. by apply eq_sym, M2 in E.
      * intros E. by apply eq_sym, N3 in E.
      * intros m Hm E. by eapply Hk; [|left|].
  - rewrite <- H3. split.
    + intros [[E _]|[(m & _ & E & _)|[[E _]|[? _]]]]; [|by apply N3 in E| |done].
      * by apply eq_sym, M1 in E.
      * by apply N4 in E.
    + intros Ht. do 3 right. split_and!; [done| | | |].
      * intros Hr. apply Hreg in Hr as [n E]. by apply N3 in E.
      * intros E. by apply eq_sym, M1 in E.
      * intros E. by apply N4 in E.
      * intros m _ E. by apply N3 in E.
Qed.
End rep.

(** * The operations *)
Section ops.
Context {W : Type} `{BackendLaws W} `{IriSyntax} `{HeaderSyntax} `{Hashing} `{ObjectPath}.

Notation MR := (M W ResourceError).

Lemma wp_store_op {A} (m : M W StoreError A) (Φ : outcome ResourceError A → W → Prop) w :
  wp m (λ o, Φ (omap_err StoreErr o)) w → wp (store_op m) Φ w.
Proof. apply wp_map_err. Qed.

Lemma wp_exists iri (Φ : outcome ResourceError bool → W → Prop) w :
  (∀ w', same w w' → Φ (Ok (bool_decide (present_at iri ∈ graphs w))) w') →
  (∀ e w', same w w' → Φ (Err (StoreErr e)) w') →
  wp (exists_ iri) Φ w.
Proof.
  intros Hok Herr. apply wp_store_op, wp_ask; [|by auto]. intros w' Hs.
  unfold present_pat. rewrite (pats_hold_1 _ _ (present_triple iri)) by done. by apply Hok.
Qed.

Lemma triple_eq s p o s' p' o' : Triple s p o = Triple s' p' o' ↔ p = p' ∧ s = s' ∧ o = o'.
Proof. split; [by intros [= -> -> ->]|by intros (-> & -> & ->)]. Qed.

(** The objects a system graph records for a subject and a predicate. *)
Definition recorded (G : gset located) (g s p : string) (o : term) : Prop :=
  (g, Triple (SNamed s) p o) ∈ G.

Lemma answers_objects g s p G t :
  answers (QObjects g s p) G t ↔ recorded G g s p (t_object t) ∧ t = Triple (SNamed s) p (t_object t).
Proof.
  simpl. unfold recorded. split.
  - intros (Ht & Hs & Hp). destruct t as [s' p' o]; simpl in *. by subst.
  - intros [Ht E]. rewrite E. by split_and!.
Qed.

Lemma wp_registered r (Φ : outcome ResourceError (list ShelfKey) → W → Prop) w :
  (∀ ks w', same w w' → NoDup ks →
     (∀ k, k ∈ ks ↔ recorded (graphs w) (sys_graph_iri (graph_iri r)) (graph_iri r) SYS_HAS_SUBGRAPH (TNamed k)) →
     Φ (Ok ks) w') →
  (∀ e w', same w w' → Φ (Err (StoreErr e)) w') →
  wp (registered_shelves r) Φ w.
Proof.
  intros Hok Herr. apply wp_bind, wp_store_op, wp_query_triples; [|by auto].
  intros ts w' Hs Hd Hts. apply wp_ret, Hok; [done| |].
  - clear -Hd Hts. assert (∀ t, t ∈ ts → t = Triple (SNamed (graph_iri r)) SYS_HAS_SUBGRAPH (t_object t)) as Ht.
    { intros t Ht. apply Hts in Ht. rewrite answers_objects in Ht. exact (proj2 Ht). }
    clear Hts. induction ts as [|t ts IH]; simpl; [constructor|].
    apply NoDup_cons in Hd as [Hn Hd]. specialize (IH Hd (λ u Hu, Ht u ltac:(by right))).
    destruct (t_object t) as [n| | |] eqn:Eo; try done. apply NoDup_cons. split; [|done].
    intros (u & Hu & Eu)%list_elem_of_omap. apply Hn.
    assert (t_object u = TNamed n) as Eu'
      by (destruct (t_object u); [injection Eu as Eu; unfold from_registry in Eu; by subst|discriminate Eu..]).
    pose proof (Ht u ltac:(by right)) as Tu. pose proof (Ht t ltac:(by left)) as Tt.
    rewrite Eu' in Tu. rewrite Eo in Tt. rewrite Tt, <- Tu. exact Hu.
  - intros k. rewrite list_elem_of_omap. split.
    + intros (t & Ht & Ek). apply Hts in Ht. rewrite answers_objects in Ht. destruct Ht as [Hr _].
      destruct (t_object t) as [n| | |]; try discriminate Ek. injection Ek as Ek. unfold from_registry in Ek. by rewrite Ek in Hr.
    + intros Hr. exists (Triple (SNamed (graph_iri r)) SYS_HAS_SUBGRAPH (TNamed k)). split; [|reflexivity].
      apply Hts. rewrite answers_objects. split; [exact Hr|reflexivity].
Qed.

Lemma bookkeeping_elem iri d f s p o :
  Triple s p o ∈ bookkeeping iri d f ↔
  (p = SYS_PRESENT ∧ s = SNamed iri ∧ o = lit_true) ∨
  (p = SYS_MEDIA_TYPE ∧ s = SNamed iri ∧ o = TLiteral (simple_literal (format_media_type f))) ∨
  ∃ n, n ∈ sk_named_graphs d ∧
    ((p = SYS_HAS_SUBGRAPH ∧ s = SNamed iri ∧ o = TNamed (key_at iri n)) ∨
     (p = SYS_GRAPH_NAME ∧ s = SNamed (key_at iri n) ∧ o = TNamed n)).
Proof.
  unfold bookkeeping, present_triple, media_type_triple.
  rewrite elem_of_app, !elem_of_cons, elem_of_nil, list_elem_of_join, !triple_eq. split.
  - intros [[E|[E|[]]]|(l & Hl & (n & -> & Hn)%list_elem_of_fmap)]; [by left|by right; left|].
    right; right. exists n. split; [done|].
    apply elem_of_cons in Hl as [E|[E|[]%elem_of_nil]%elem_of_cons]; apply triple_eq in E; auto.
  - intros [?|[?|(n & Hn & E)]]; [by left; left|by left; right; left|]. right. eexists.
    split; [|apply list_elem_of_fmap; eauto]. rewrite !elem_of_cons, elem_of_nil, !triple_eq. tauto.
Qed.

Lemma recorded_shelves G iri d f k :
  dataset_at G iri d f →
  recorded G (sys_graph_iri iri) iri SYS_HAS_SUBGRAPH (TNamed k) ↔
  ∃ n, n ∈ sk_named_graphs d ∧ k = key_at iri n.
Proof.
  intros [_ _ Hs]. unfold recorded. rewrite Hs, bookkeeping_elem. split.
  - intros [(E & _)|[(E & _)|(n & Hn & [(_ & _ & Ek)|(E & _)])]]; [pred_clash..| |pred_clash].
    apply (inj TNamed) in Ek. eauto.
  - intros (n & Hn & ->). do 2 right. exists n. split; [done|]. by left.
Qed.

Lemma recorded_names G iri d f n o :
  dataset_at G iri d f →
  (∀ n n', n ∈ sk_named_graphs d → n' ∈ sk_named_graphs d → key_at iri n = key_at iri n' → n = n') →
  n ∈ sk_named_graphs d →
  recorded G (sys_graph_iri iri) (key_at iri n) SYS_GRAPH_NAME o ↔ o = TNamed n.
Proof.
  intros [_ _ Hs] Hinj Hn. unfold recorded. rewrite Hs, bookkeeping_elem. split.
  - intros [(E & _)|[(E & _)|(m & Hm & [(E & _)|(_ & Ek & ->)])]]; [pred_clash..|].
    apply (inj SNamed) in Ek. by rewrite (Hinj n m).
  - intros ->. do 2 right. exists n. split; [done|]. by right.
Qed.

(** What a write of [r] finds registered. *)
Lemma registered_in_use G abs (r : ResourceUrl) d k :
  Rep G abs → web (graph_iri r) → registry_known G abs (graph_iri r) →
  recorded G (sys_graph_iri (graph_iri r)) (graph_iri r) SYS_HAS_SUBGRAPH (TNamed k) →
  ∃ n, k = key_at (graph_iri r) n ∧ in_use abs (graph_iri r) d (graph_iri r) n.
Proof.
  intros HR Hw Hk Hr. destruct (abs !! graph_iri r) as [[d0 f0]|] eqn:E.
  - destruct (proj1 (recorded_shelves _ _ d0 f0 k (HR _ _ _ E)) Hr) as (n & Hn & Ek).
    exists n. split; [exact Ek|]. left. eauto.
  - by destruct (Hk E (TNamed k)).
Qed.

Lemma put_dataset_rep G abs r reg d f :
  Rep G abs → (∀ i, is_Some (abs !! i) → web i) → web (graph_iri r) → keys_distinct abs (graph_iri r) d →
  (∀ k, k ∈ reg → ∃ n, k = key_at (graph_iri r) n ∧ in_use abs (graph_iri r) d (graph_iri r) n) →
  let s := split_dataset r d in
  Rep (run_ops (put_dataset_ops r reg s.1 s.2 f) G) (<[graph_iri r := (d, f)]> abs).
Proof.
  intros HR Hweb Hw Hkd Hreg. cbn zeta.
  assert (∀ n n', n ∈ sk_named_graphs d → n' ∈ sk_named_graphs d →
            key_at (graph_iri r) n = key_at (graph_iri r) n' → n = n') as Hinj.
  { intros n n' Hn Hn' E. eapply (Hkd _ n _ n'); [by right|by right|done]. }
  rewrite split_dataset_spec by done. cbn [fst snd].
  intros iri d' f' Hl. destruct (decide (iri = graph_iri r)) as [->|Hne].
  - rewrite lookup_insert_eq in Hl. injection Hl as <- <-. by apply put_dataset_written.
  - rewrite lookup_insert_ne in Hl by done.
    apply put_dataset_frame; [by apply Hweb|done|done| | |by apply HR].
    + intros n n' Hn' Hn E. apply Hne.
      assert (∃ m, key_at (graph_iri r) m = key_at iri n' ∧ in_use abs (graph_iri r) d (graph_iri r) m)
        as (m & Em & Hm).
      { destruct Hn as [Hn|(m & Em & Hm)%Hreg]; [exists n; split; [done|by right]|].
        exists m. by rewrite <- Em. }
      symmetry. eapply (Hkd _ m _ n'); [done|left; eauto|done].
    + intros k Hk. destruct (Hreg k Hk) as (n & -> & _). eauto.
Qed.

(** What [drop_blob] does to the objects. *)
Definition drop_object (r : ResourceUrl) (O : gmap string string) : gmap string string :=
  match blob_key_of r with Some k => delete k O | None => O end.

Lemma wp_drop_blob r (Φ : outcome ResourceError unit → W → Prop) w :
  (∀ w', graphs w' = graphs w → objects w' = drop_object r (objects w) → Φ (Ok tt) w') →
  (∀ e w', graphs w' = graphs w → objects w' = objects w ∨ objects w' = drop_object r (objects w) →
     Φ (Err (BlobErr e)) w') →
  wp (drop_blob r) Φ w.
Proof.
  intros Hok Herr. unfold drop_blob, drop_object in *. destruct (blob_key_of r) as [k|].
  - apply wp_map_err, wp_blob_delete; auto.
  - by apply wp_ret, Hok.
Qed.

(** The validity check of [put_dataset] on its graph names. *)
Lemma wp_names_valid (shelves : list shelf) (Φ : outcome ResourceError unit → W → Prop) w :
  (Forall (λ s, iri_valid (sh_name s) = true) shelves → Φ (Ok tt) w) →
  (Exists (λ s, iri_valid (sh_name s) = false) shelves → Φ (Err InvalidIri) w) →
  wp (for_each shelves (λ s, if iri_valid (sh_name s) then ret tt else throw InvalidIri)) Φ w.
Proof.
  revert w. induction shelves as [|s ss IH]; intros w Hok Herr; simpl.
  - apply wp_ret, Hok. constructor.
  - apply wp_bind. destruct (iri_valid (sh_name s)) eqn:E.
    + apply wp_ret, IH; intros; [apply Hok|apply Herr]; by constructor.
    + apply wp_throw, Herr. by constructor.
Qed.

(** [put_dataset] as one step: a registry is read, then one update happens or
    not, then the superseded object goes. *)
Lemma wp_put_dataset r d f (Φ : outcome ResourceError unit → W → Prop) w :
  let s := split_dataset r d in
  let reg_ok ks := ∀ k, k ∈ ks → recorded (graphs w) (sys_graph_iri (graph_iri r)) (graph_iri r)
                                   SYS_HAS_SUBGRAPH (TNamed k) in
  (∀ ks w', reg_ok ks → Forall (λ x, iri_valid (sh_name x) = true) s.2 →
     graphs w' = run_ops (put_dataset_ops r ks s.1 s.2 f) (graphs w) →
     objects w' = drop_object r (objects w) → Φ (Ok tt) w') →
  (∀ w', Exists (λ x, iri_valid (sh_name x) = false) s.2 → same w w' → Φ (Err InvalidIri) w') →
  (∀ ks e w', reg_ok ks →
     graphs w' = graphs w ∨ graphs w' = run_ops (put_dataset_ops r ks s.1 s.2 f) (graphs w) →
     objects w' = objects w → Φ (Err (StoreErr e)) w') →
  (∀ ks e w', reg_ok ks → graphs w' = run_ops (put_dataset_ops r ks s.1 s.2 f) (graphs w) →
     objects w' = objects w ∨ objects w' = drop_object r (objects w) →
     Φ (Err (BlobErr e)) w') →
  wp (put_dataset r d f) Φ w.
Proof.
  cbn zeta. intros Hok Hiri Hst Hbl. unfold put_dataset.
  destruct (split_dataset r d) as [dg sh]. cbn [fst snd] in *.
  apply wp_bind, wp_registered.
  2:{ intros e w' [Hs Ho]. apply (Hst []); [by intros k ?%elem_of_nil|by left|done]. }
  intros ks w1 Hs1 _ Hks. assert (∀ k, k ∈ ks → recorded (graphs w) (sys_graph_iri (graph_iri r))
    (graph_iri r) SYS_HAS_SUBGRAPH (TNamed k)) as Hreg by (intros k; apply Hks).
  apply wp_bind, wp_names_valid; [intros Hv|by intros Hex; apply Hiri].
  destruct Hs1 as [G1 O1]. rewrite <- G1, <- O1 in *.
  apply wp_bind, wp_store_op, wp_update.
  - intros w2 G2 O2. apply wp_drop_blob.
    + intros w3 G3 O3. apply (Hok ks); [done..|by rewrite G3|by rewrite O3, O2].
    + intros e w3 G3 O3. apply (Hbl ks); [done|by rewrite G3|by rewrite <- O2].
  - intros e w2 G2 O2. by apply (Hst ks).
Qed.

(** C4: a dataset write is a map update.  From a store that represents a map of
    resources to datasets, [put_dataset] answers [Ok] only with the store
    representing the map with this resource bound to the new dataset, every
    other resource untouched, and the superseded object gone; when it fails the
    store represents the old map or the new one, never a mixture, and a refused
    graph name changes nothing.  It never panics. *)
Theorem put_dataset_refines (abs : gmap string (Skolemized * Format)) (r : ResourceUrl) (d : Skolemized)
    (f : Format) (w : W)
    (HR : Rep (graphs w) abs) (Hweb : ∀ i, is_Some (abs !! i) → web i) (Hw : web (graph_iri r))
    (Hkd : keys_distinct abs (graph_iri r) d) (Hkn : registry_known (graphs w) abs (graph_iri r)) :
  wp (put_dataset r d f) (λ o w',
    match o with
    | Ok _ => Forall (λ n, iri_valid n = true) (sk_named_graphs d) ∧
              Rep (graphs w') (<[graph_iri r := (d, f)]> abs) ∧
              objects w' = drop_object r (objects w)
    | Err InvalidIri => ¬ Forall (λ n, iri_valid n = true) (sk_named_graphs d) ∧ same w w'
    | Err _ => Rep (graphs w') abs ∨ Rep (graphs w') (<[graph_iri r := (d, f)]> abs)
    | Panicked => False
    end) w.
Proof.
  assert ((split_dataset r d).2 = map (λ n, mkShelf (key_at (graph_iri r) n) n (graph_triples d (GGNamed n)))
            (sk_named_graphs d)) as Esh.
  { rewrite split_dataset_spec; [done|]. intros n n' Hn Hn' E.
    eapply (Hkd _ n _ n'); [by right|by right|done]. }
  assert (∀ ks, (∀ k, k ∈ ks → recorded (graphs w) (sys_graph_iri (graph_iri r)) (graph_iri r)
              SYS_HAS_SUBGRAPH (TNamed k)) →
            Rep (run_ops (put_dataset_ops r ks (split_dataset r d).1 (split_dataset r d).2 f) (graphs w))
              (<[graph_iri r := (d, f)]> abs)) as Hrep.
  { intros ks Hks. apply put_dataset_rep; [done..|]. intros k Hk.
    by eapply registered_in_use, Hks. }
  apply wp_put_dataset.
  - intros ks w' Hks Hv -> ->. split_and!; [|by apply Hrep|done].
    rewrite Esh in Hv. by apply Forall_fmap in Hv.
  - intros w' Hex Hs. split; [|done]. intros Hv. rewrite Esh in Hex.
    apply Exists_fmap, Exists_exists in Hex as (n & Hn & E). rewrite Forall_forall in Hv.
    specialize (Hv n Hn). simpl in E. congruence.
  - intros ks e w' Hks [-> | ->] _; [by left|right; by apply Hrep].
  - intros ks e w' Hks -> _. right. by apply Hrep.
Qed.

(** ** Reading back *)

(** The ground quads of one graph of a dataset, as [get_dataset] builds them. *)
Definition image_of (d : Skolemized) (g : GroundGraphName) (q : quad) : Prop :=
  ∃ gq, gq ∈ d ∧ g_graph gq = g ∧ q = quad_of_ground gq.

Lemma image_graph d g q : image_of d g q → q_graph q = graph_of_ground g.
Proof. by intros (gq & _ & <- & ->). Qed.

Lemma elem_of_graph_triples d g t :
  t ∈ graph_triples d g ↔ ∃ q, q ∈ d ∧ g_graph q = g ∧ t = triple_of_ground q.
Proof.
  unfold graph_triples, Skolemized in *. rewrite list_elem_of_fmap. split.
  - intros (q & -> & [? ?]%list_elem_of_filter). eauto.
  - intros (q & ? & ? & ->). exists q. split; [done|]. by apply list_elem_of_filter.
Qed.

Lemma image_of_read d g ts q :
  (∀ t, t ∈ ts ↔ t ∈ graph_triples d g) →
  q ∈ map (quad_of_triple (graph_of_ground g)) ts ↔ image_of d g q.
Proof.
  intros Hts. rewrite list_elem_of_fmap. split.
  - intros (t & -> & Ht). apply Hts, elem_of_graph_triples in Ht as (gq & ? & <- & ->).
    by exists gq.
  - intros (gq & Hq & Hg & ->). exists (triple_of_ground gq).
    split; [unfold quad_of_ground; by rewrite Hg|]. apply Hts, elem_of_graph_triples. eauto.
Qed.

Lemma NoDup_read g ts : NoDup ts → NoDup (map (quad_of_triple g) ts).
Proof.
  intros Hd. apply NoDup_fmap_2; [|done]. intros [s p o] [s' p' o'] E. by injection E as -> -> ->.
Qed.

(** A read that gives [Some] list, or a store error. *)
Definition reads {A : Type} (P : A → Prop) (w : W) (o : outcome ResourceError A) (w' : W) : Prop :=
  match o with Ok a => P a ∧ same w w' | Err (StoreErr _) => same w w' | _ => False end.

Lemma wp_read_graph g (w : W) :
  wp (store_op (query_triples (QGraph g)))
    (reads (λ ts, NoDup ts ∧ ∀ t, t ∈ ts ↔ (g, t) ∈ graphs w) w) w.
Proof. apply wp_store_op, wp_query_triples; [|done]. by intros ts w' ? ? ?. Qed.

Section read.
Context (iri : string) (d : Skolemized) (f : Format).
Context (Hvalid : Forall (λ n, iri_valid n = true) (sk_named_graphs d)).
Context (Hinj : ∀ n n', n ∈ sk_named_graphs d → n' ∈ sk_named_graphs d →
                        key_at iri n = key_at iri n' → n = n').

Lemma wp_read_shelf n (w : W) :
  dataset_at (graphs w) iri d f → n ∈ sk_named_graphs d →
  wp (read_shelf (sys_graph_iri iri) (key_at iri n))
    (reads (λ qs, NoDup qs ∧ ∀ q, q ∈ qs ↔ image_of d (GGNamed n) q) w) w.
Proof.
  intros Hat Hn. unfold read_shelf. apply wp_bind, wp_store_op, wp_query_triples; [|done].
  intros names w1 Hs1 _ Hnames.
  assert (∀ t, t ∈ names ↔ t = Triple (SNamed (key_at iri n)) SYS_GRAPH_NAME (TNamed n)) as Ht.
  { intros t. rewrite Hnames, answers_objects, (recorded_names _ iri d f n) by done. split.
    - intros [E ->]. by rewrite E.
    - intros ->. split; reflexivity. }
  assert (find_map (λ t, match t_object t with
            | TNamed m => if iri_valid m then Some m else None | _ => None end) names = Some n) as Hfind.
  { destruct names as [|t names]; [by destruct (not_elem_of_nil _ (proj2 (Ht _) eq_refl))|].
    assert (t = Triple (SNamed (key_at iri n)) SYS_GRAPH_NAME (TNamed n)) as -> by (apply Ht; by left).
    simpl. rewrite Forall_forall in Hvalid. by rewrite Hvalid. }
  cbn beta iota delta [omap_err]. rewrite Hfind. apply wp_bind. eapply wp_wand; [apply wp_read_graph|].
  intros [ts|[]|] w2 Ho; try done; try by_same. destruct Ho as [[Hd Hts] Hs2]. apply wp_ret.
  split; [|by eapply same_trans]. split; [by apply NoDup_read|]. intros q.
  apply (image_of_read d (GGNamed n)). intros t. rewrite Hts. destruct Hs1 as [-> _]. by apply (at_named _ _ _ _ Hat).
Qed.

Lemma wp_read_shelves ns acc (w : W) :
  dataset_at (graphs w) iri d f → (∀ n, n ∈ ns → n ∈ sk_named_graphs d) → NoDup ns → NoDup acc →
  (∀ q n, q ∈ acc → n ∈ ns → q_graph q ≠ GNamed n) →
  wp (read_shelves (sys_graph_iri iri) (map (key_at iri) ns) acc)
    (reads (λ qs, NoDup qs ∧ ∀ q, q ∈ qs ↔ q ∈ acc ∨ ∃ n, n ∈ ns ∧ image_of d (GGNamed n) q) w) w.
Proof.
  revert acc w. induction ns as [|n ns IH]; intros acc w Hat Hns Hd Ha Hsep; simpl.
  - apply wp_ret. split; [|done]. split; [done|]. intros q. split; [auto|].
    intros [?|(n & Hn & _)]; [done|]. by apply elem_of_nil in Hn.
  - apply NoDup_cons in Hd as [Hn Hd]. apply wp_bind.
    eapply wp_wand; [apply (wp_read_shelf n); [done|apply Hns; by left]|].
    intros [qs|[]|] w1 Ho; try done; try by_same. destruct Ho as [[Hqd Hqs] Hs1]. destruct (id Hs1) as [G1 O1].
    eapply wp_wand; [apply IH|].
    + by rewrite G1.
    + intros m Hm. apply Hns. by right.
    + done.
    + apply NoDup_app. split_and!; [done| |done]. intros q Hq Hq'. apply Hqs, image_graph in Hq'.
      by apply (Hsep q n); [|left|].
    + intros q m [Hq|Hq]%elem_of_app Hm; [apply Hsep; [done|by right]|].
      apply Hqs, image_graph in Hq. rewrite Hq. intros [= ->]. done.
    + intros [quads|[]|] w2 Ho; try done; try by_same. destruct Ho as [[Hd2 Hq2] Hs2].
      split; [|by eapply same_trans]. split; [done|]. intros q. rewrite Hq2, elem_of_app, Hqs.
      split.
      * intros [[?|?]|(m & Hm & ?)]; [by left|right; exists n; split; [by left|done]|].
        right. exists m. split; [by right|done].
      * intros [?|(m & [->|Hm]%elem_of_cons & ?)]; [auto|auto|]. right. eauto.
Qed.
End read.

Lemma elem_of_sk_graphs (d : Skolemized) gq :
  gq ∈ d → g_graph gq = GGDefault ∨ ∃ n, n ∈ sk_named_graphs d ∧ g_graph gq = GGNamed n.
Proof.
  intros Hq. destruct (g_graph gq) as [|n] eqn:E; [by left|right].
  exists n. split; [|done]. apply sk_named_graphs_spec. eauto.
Qed.

(** A read of a represented dataset. *)
Lemma wp_get_dataset (abs : gmap string (Skolemized * Format)) (r : ResourceUrl)
    (d : Skolemized) (f : Format) (w : W)
    (HR : Rep (graphs w) abs) (Habs : abs !! graph_iri r = Some (d, f))
    (Hkd : keys_distinct abs (graph_iri r) d)
    (Hvalid : Forall (λ n, iri_valid n = true) (sk_named_graphs d)) :
  wp (get_dataset r) (reads (λ o, ∃ d', o = Some d' ∧ d' ≡ₚ remove_dups d) w) w.
Proof.
  pose proof (HR _ _ _ Habs) as Hat.
  assert (∀ n n', n ∈ sk_named_graphs d → n' ∈ sk_named_graphs d →
            key_at (graph_iri r) n = key_at (graph_iri r) n' → n = n') as Hinj.
  { intros n n' Hn Hn' E. eapply (Hkd _ n _ n'); [by right|by right|done]. }
  apply wp_bind, wp_exists; [|done]. intros w1 Hs1.
  rewrite bool_decide_eq_true_2.
  2:{ apply (at_sys _ _ _ _ Hat), bookkeeping_elem. left. done. }
  cbn [negb]. apply wp_bind. eapply wp_wand; [apply wp_read_graph|].
  intros [ts|[]|] w2 Ho; try done; try by_same. destruct Ho as [[Hd Hts] Hs2].
  apply wp_bind, wp_registered; [|intros; by_same]. intros ks w3 Hs3 Hkd' Hks.
  assert (same w w3) as Hs by (eapply same_trans; [|done]; by eapply same_trans).
  destruct (id Hs1) as [G1 _]. destruct (id Hs2) as [G2 _]. rewrite G1 in Hts. rewrite G2, G1 in Hks.
  assert (∃ ns, ks = map (key_at (graph_iri r)) ns ∧ sk_named_graphs d ≡ₚ ns) as (ns & -> & Hns).
  { apply Permutation_map_inv, NoDup_Permutation; [done| |].
    - apply NoDup_fmap_2_strong; [|apply sk_named_graphs_NoDup]. intros; by apply Hinj.
    - intros k. rewrite Hks, (recorded_shelves _ _ d f) by done.
      rewrite list_elem_of_fmap. naive_solver. }
  apply wp_bind. destruct (id Hs) as [G3 _].
  eapply wp_wand; [apply (wp_read_shelves (graph_iri r) d f Hvalid Hinj ns)|].
  - by rewrite G3.
  - intros n. by rewrite Hns.
  - rewrite <- Hns. apply sk_named_graphs_NoDup.
  - by apply NoDup_read.
  - intros q n Hq _ E. apply list_elem_of_fmap in Hq as (t & -> & _). done.
  - intros [quads|[]|] w4 Ho; try done; try by_same. destruct Ho as [[Hqd Hq] Hs4].
    destruct (from_store_of_image quads d) as (d' & -> & Hd'); [done| |].
    + intros q. rewrite Hq, (image_of_read d GGDefault).
      2:{ intros t. rewrite Hts. apply (at_default _ _ _ _ Hat). }
      setoid_rewrite <- Hns. split.
      * intros [(g & ? & _ & ?)|(n & _ & g & ? & _ & ?)]; eauto.
      * intros (g & Hg & ->). destruct (elem_of_sk_graphs d g Hg) as [E|(n & Hn & E)].
        -- left. by exists g.
        -- right. exists n. split; [done|]. by exists g.
    + apply wp_ret. split; [eauto|by eapply same_trans].
Qed.

(** C17: reading is a map lookup.  From a store that represents a map binding the
    resource to a dataset, [get_dataset] either reports a store failure or
    answers exactly that dataset, each quad once and in some order, having
    changed nothing; the [expect] on ground terms and the check of graph names
    never fire. *)
Theorem get_dataset_refines (abs : gmap string (Skolemized * Format)) (r : ResourceUrl)
    (d : Skolemized) (f : Format) (w : W)
    (HR : Rep (graphs w) abs) (Habs : abs !! graph_iri r = Some (d, f))
    (Hkd : keys_distinct abs (graph_iri r) d)
    (Hvalid : Forall (λ n, iri_valid n = true) (sk_named_graphs d)) :
  wp (get_dataset r) (reads (λ o, ∃ d', o = Some d' ∧ d' ≡ₚ remove_dups d) w) w.
Proof. by apply (wp_get_dataset abs r d f). Qed.

(** ** Patching *)

(** The one mapping of a patch's conditions, if there is exactly one. *)
Definition only_solution (G : gset located) (iri : string) (ps : list Pattern) (s : solution) : Prop :=
  is_solution G iri ps s ∧ ∀ s', is_solution G iri ps s' → s' = s.

(** The part of a patch under a mapping. *)
Definition instance (s : solution) (ps : list Pattern) : option (list gpat) := mapM (subst_pattern s) ps.

(** What applying a patch does to the store, when its deletions are there and
    the guard holds. *)
Definition patched (iri : string) (dels ins : list gpat) (G : gset located) : gset located :=
  (G ∖ list_to_set (instantiate (pair iri <$> dels))) ∪ list_to_set (instantiate (pair iri <$> ins)).

Lemma ground_pattern_term_subst t bs s v :
  (∀ s', head bs = Some s' → s' = s) →
  ground_pattern_term t bs = Ok v → subst_term s t = Some v.
Proof.
  intros Hs. destruct t as [n|l|i]; simpl; [by intros [= ->]..|].
  destruct (head bs) as [s'|] eqn:E; simpl; [|done]. rewrite (Hs s') by done.
  destruct (s !! var_name i) as [u|]; simpl; [|done]. by destruct u; simpl; intros [= ->].
Qed.

Lemma substitute_instance ps bs s gps :
  (∀ s', head bs = Some s' → s' = s) →
  substitute ps bs = Ok gps → instance s ps = Some gps.
Proof.
  intros Hs. unfold instance. revert gps. induction ps as [|p ps IH]; intros gps; simpl; [by intros [= ->]|].
  intros (a & Ha & Hx)%obind_Ok. apply obind_Ok in Hx as (b & Hb & Hx).
  apply obind_Ok in Hx as (c & Hc & Hx). apply obind_Ok in Hx as (l & Hl & [= <-]).
  apply (ground_pattern_term_subst _ _ s) in Ha, Hb, Hc; [|done..].
  assert (subst_pattern s p = Some (GPat a b c)) as -> by (unfold subst_pattern; by rewrite Ha, Hb, Hc).
  simpl. by rewrite (IH l).
Qed.

Lemma substitute_no_panic ps bs : substitute ps bs ≠ Panicked.
Proof.
  assert (∀ t, ground_pattern_term t bs ≠ Panicked) as Ht.
  { intros [| |i]; simpl; [done..|]. destruct (head bs); simpl; [|done].
    destruct (_ !! _) as [[]|]; done. }
  induction ps as [|q ps IH]; [done|]. simpl.
  pose proof (Ht (p_subject q)). pose proof (Ht (p_predicate q)). pose proof (Ht (p_object q)).
  by destruct (ground_pattern_term (p_subject q) bs), (ground_pattern_term (p_predicate q) bs),
    (ground_pattern_term (p_object q) bs), (substitute ps bs).
Qed.

Lemma run_patch_ops iri dels ins guard G :
  run_ops (patch_ops iri dels ins guard) G =
  if pats_hold (pair iri <$> dels) G && all_in guard G then patched iri dels ins G else G.
Proof. done. Qed.

Lemma patched_nil iri G : patched iri [] [] G = G.
Proof. unfold patched. simpl. set_solver. Qed.

(** What [patch_guarded] may answer and leave, with a mapping [s]. *)
Definition patch_outcome (iri : string) (p : Patch) (guard : list located) (s : solution) (w : W)
    (o : outcome ResourceError PatchResult) (w' : W) : Prop :=
  match o with
  | Ok Applied => ∃ dels ins, instance s (deletions p) = Some dels ∧ instance s (insertions p) = Some ins ∧
      pats_hold (pair iri <$> dels) (graphs w) = true ∧
      graphs w' = (if all_in guard (graphs w) then patched iri dels ins (graphs w) else graphs w)
  | Ok DeletionMissing => graphs w' = graphs w ∧
      ∃ dels, instance s (deletions p) = Some dels ∧ pats_hold (pair iri <$> dels) (graphs w) = false
  | Ok _ => False
  | Err _ => graphs w' = graphs w ∨
      ∃ dels ins, instance s (deletions p) = Some dels ∧ instance s (insertions p) = Some ins ∧
        pats_hold (pair iri <$> dels) (graphs w) = true ∧ all_in guard (graphs w) = true ∧
        graphs w' = patched iri dels ins (graphs w)
  | Panicked => False
  end ∧ objects w' = objects w.

Lemma wp_patch_apply iri p guard bs s w :
  (∀ s', head bs = Some s' → s' = s) →
  wp (patch_apply iri p guard bs) (patch_outcome iri p guard s w) w.
Proof.
  intros Hs. unfold patch_apply. apply wp_bind, wp_lift.
  pose proof (substitute_no_panic (deletions p) bs) as Pd.
  pose proof (substitute_no_panic (insertions p) bs) as Pi.
  destruct (substitute (deletions p) bs) as [dels| |] eqn:Ed; [|split; [by left|done]|done].
  apply wp_bind, wp_lift.
  destruct (substitute (insertions p) bs) as [ins| |] eqn:Ei; [|split; [by left|done]|done].
  apply (substitute_instance _ _ s) in Ed, Ei; [|done..].
  destruct (is_empty dels && is_empty ins) eqn:Ee.
  { apply andb_true_iff in Ee as [Ed' Ei']. destruct dels, ins; try done. apply wp_ret.
    split; [|done]. exists [], []. split_and!; [done..|]. rewrite patched_nil. by destruct (all_in _ _). }
  clear Ee. set (before := is_empty dels || pats_hold (pair iri <$> dels) (graphs w)).
  apply wp_bind. apply (wp_wand _ (λ o w', (o = Ok (negb (is_empty dels) && before) ∨
                                     ∃ e, o = Err e) ∧ same w w')).
  { unfold before. destruct dels as [|g dels]; simpl is_empty; cbn [orb negb andb].
    - apply wp_ret. split; [by left|done].
    - apply wp_store_op, wp_ask; [intros w' Hw'|intros e w' Hw']; (split; [|done]); [by left|right; eauto]. }
  intros o w1 [Ho [G1 O1]]. destruct Ho as [-> | [e ->]]; [|split; [by left|done]].
  assert (pats_hold (pair iri <$> dels) (graphs w) = before) as Hb by (by destruct dels).
  apply wp_bind, wp_store_op, wp_update; rewrite run_patch_ops, G1, O1, Hb.
  - intros w2 G2 O2. destruct before; simpl in G2.
    + rewrite andb_true_r, andb_negb_r. apply wp_ret. split; [|done]. by exists dels, ins.
    + destruct dels as [|g dels]; [done|]. simpl. apply wp_ret. split; [|done]. split; [done|].
      by exists (g :: dels).
  - intros e w2 G2 O2. split; [|done]. destruct G2 as [G2|G2]; [by left|].
    destruct before; [|by left]. destruct (all_in guard (graphs w)) eqn:Eg; [|by left].
    right. by exists dels, ins.
Qed.

(** C15: a patch applies under its one mapping or not at all.  [patch_guarded]
    answers [NoMapping] only when the conditions have no solution in the graph
    and [SeveralMappings] only when they have two, both without a write;
    otherwise there is exactly one solution, and it answers [Applied] with the
    deletions, all of them there, replaced by the insertions (or nothing
    changed when the guard does not hold), or [DeletionMissing] with nothing
    changed.  A failure leaves the graph as it was or patched. *)
Theorem patch_guarded_spec (iri : string) (p : Patch) (guard : list located) (w : W) :
  wp (patch_guarded iri p guard) (λ o w',
    match o with
    | Ok NoMapping => (∀ s, ¬ is_solution (graphs w) iri (conditions p) s) ∧ same w w'
    | Ok SeveralMappings => (∃ s s', s ≠ s' ∧ is_solution (graphs w) iri (conditions p) s ∧
                                     is_solution (graphs w) iri (conditions p) s') ∧ same w w'
    | Err _ => same w w' ∨ ∃ s, only_solution (graphs w) iri (conditions p) s ∧
                                patch_outcome iri p guard s w o w'
    | _ => ∃ s, only_solution (graphs w) iri (conditions p) s ∧ patch_outcome iri p guard s w o w'
    end) w.
Proof.
  unfold patch_guarded. destruct (is_empty (conditions p)) eqn:E.
  - destruct (conditions p); [|done].
    assert (only_solution (graphs w) iri [] ∅) as Hs.
    { split; [split; [by rewrite dom_empty_L|constructor]|].
      intros s' [Hd _]. simpl in Hd. by apply dom_empty_inv_L in Hd. }
    eapply wp_wand; [by apply (wp_patch_apply iri p guard [] ∅)|].
    intros [[]|e|] w' Ho; try (by exists ∅); try (by destruct Ho). right. by exists ∅.
  - apply wp_bind, wp_store_op, wp_query_solutions; [|intros; by left].
    intros rows w1 Hs1 (Hd & Hlen & Hsol & Hall). cbn [omap_err].
    destruct rows as [|s [|s' rows]]; cbn [length].
    + apply wp_ret. split; [|done]. intros s Hs. apply Hall in Hs; [|simpl; lia].
      by apply elem_of_nil in Hs.
    + assert (only_solution (graphs w) iri (conditions p) s) as Hs.
      { split; [apply Hsol; by left|]. intros s' Hs'. apply Hall in Hs'; [|simpl; lia].
        by apply list_elem_of_singleton in Hs'. }
      destruct Hs1 as [G1 O1].
      assert (∀ o w', patch_outcome iri p guard s w1 o w' → patch_outcome iri p guard s w o w') as Hmono
        by (unfold patch_outcome; by rewrite G1, O1).
      eapply wp_wand; [apply (wp_patch_apply iri p guard [s] s); by intros ? [= ->]|].
      intros [[]|e|] w' Ho%Hmono; try (by exists s); try (by destruct Ho). right. by exists s.
    + apply wp_ret. split; [|done]. exists s, s'. split_and!; [|apply Hsol; by left|apply Hsol; right; by left].
      intros ->. apply NoDup_cons in Hd as [Hn _]. apply Hn. by left.
Qed.

(** ** Bytes *)
Definition blob_bookkeeping (iri : string) (mt : MediaType) : list triple :=
  [present_triple iri; Triple (SNamed iri) RDF_TYPE (TNamed SYS_BINARY_RESOURCE);
   media_type_triple iri (mt_raw mt)].

(** The graph says the resource is bytes. *)
Definition binary_at (G : gset located) (iri : string) : Prop :=
  recorded G (sys_graph_iri iri) iri RDF_TYPE (TNamed SYS_BINARY_RESOURCE).

Lemma put_blob_elem r reg mt G g t :
  (g, t) ∈ run_ops (put_blob_ops r reg mt) G ↔
  (g = sys_graph_iri (graph_iri r) ∧ t ∈ blob_bookkeeping (graph_iri r) mt) ∨
  ((g, t) ∈ G ∧ g ∉ reg ∧ g ≠ graph_iri r ∧ g ≠ sys_graph_iri (graph_iri r)).
Proof.
  assert (put_blob_ops r reg mt =
    map DropSilent (reg ++ [graph_iri r; sys_graph_iri (graph_iri r)]) ++
    map InsertData [in_graph (sys_graph_iri (graph_iri r)) (blob_bookkeeping (graph_iri r) mt)]) as ->
    by (unfold put_blob_ops; by rewrite map_app, <- app_assoc).
  rewrite elem_of_rewrite. generalize (blob_bookkeeping (graph_iri r) mt). intros B.
  cbn [mjoin list_join]. rewrite app_nil_r, elem_of_in_graph, elem_of_app. cbn [fst snd].
  rewrite !elem_of_cons, elem_of_nil. tauto.
Qed.

Lemma wp_put_blob r bytes mt (Φ : outcome ResourceError unit → W → Prop) w :
  let reg_ok ks := ∀ k, k ∈ ks → recorded (graphs w) (sys_graph_iri (graph_iri r)) (graph_iri r)
                                   SYS_HAS_SUBGRAPH (TNamed k) in
  (∀ ks key w', reg_ok ks → blob_key_of r = Some key →
     graphs w' = run_ops (put_blob_ops r ks mt) (graphs w) → objects w' = <[key := bytes]> (objects w) →
     Φ (Ok tt) w') →
  (blob_key_of r = None → Φ (Err KeyTooLong) w) →
  (∀ key e w', blob_key_of r = Some key → graphs w' = graphs w →
     objects w' = objects w ∨ objects w' = <[key := bytes]> (objects w) →
     e ≠ KeyTooLong → Φ (Err e) w') →
  (∀ ks key e w', reg_ok ks → blob_key_of r = Some key →
     graphs w' = run_ops (put_blob_ops r ks mt) (graphs w) → objects w' = <[key := bytes]> (objects w) →
     Φ (Err (StoreErr e)) w') →
  wp (put_blob r bytes mt) Φ w.
Proof.
  cbn zeta. intros Hok Hkey Hsame Hup. unfold put_blob. apply wp_bind, wp_lift.
  destruct (blob_key_of r) as [key|]; simpl; [|by apply Hkey].
  apply wp_bind, wp_registered.
  2:{ intros e w' [Gs Os]. apply (Hsame key); auto. }
  intros ks w1 [G1 O1] _ Hks. assert (∀ k, k ∈ ks → recorded (graphs w) (sys_graph_iri (graph_iri r))
    (graph_iri r) SYS_HAS_SUBGRAPH (TNamed k)) as Hreg by (intros k; apply Hks).
  apply wp_bind, wp_map_err. unfold wp at 1. pose proof (blob_put_law key bytes w1) as Hl.
  destruct (blob_put key bytes w1) as [[[]|e|] w2]; simpl in *; [|destruct Hl as [G2 O2]|done].
  - destruct Hl as [G2 O2]. apply wp_store_op, wp_update; rewrite G2, G1.
    + intros w3 G3 O3. apply (Hok ks key); try done. by rewrite O3, O2, O1.
    + intros e w3 [G3|G3] O3.
      * apply (Hsame key); [done|done| |done]. right. by rewrite O3, O2, O1.
      * apply (Hup ks key); try done. by rewrite O3, O2, O1.
  - rewrite O1 in O2. apply (Hsame key); [done|by rewrite G2|done|done].
Qed.

(** What [kind_of] reads. *)
Lemma wp_kind_of r (w : W) :
  wp (kind_of r) (λ o w',
    match o with
    | Ok None => present_at (graph_iri r) ∉ graphs w ∧ same w w'
    | Ok (Some KRdf) => present_at (graph_iri r) ∈ graphs w ∧ ¬ binary_at (graphs w) (graph_iri r) ∧ same w w'
    | Ok (Some (KBinary mt)) =>
        present_at (graph_iri r) ∈ graphs w ∧ binary_at (graphs w) (graph_iri r) ∧ same w w' ∧
        ∃ l, recorded (graphs w) (sys_graph_iri (graph_iri r)) (graph_iri r) SYS_MEDIA_TYPE (TLiteral l) ∧
             parse_media_type (l_value l) = Some mt
    | Err BinaryWithoutMediaType =>
        binary_at (graphs w) (graph_iri r) ∧ same w w' ∧
        ∀ l, recorded (graphs w) (sys_graph_iri (graph_iri r)) (graph_iri r) SYS_MEDIA_TYPE (TLiteral l) →
             parse_media_type (l_value l) = None
    | Err (StoreErr _) => same w w'
    | _ => False
    end) w.
Proof.
  apply wp_bind, wp_exists; [|done]. intros w1 Hs1.
  case_bool_decide as Hp; cbn [negb]; [|by apply wp_ret].
  apply wp_bind, wp_store_op, wp_ask; [|intros; by_same]. intros w2 Hs2.
  assert (same w w2) as Hs12 by (by eapply same_trans). cbn [omap_err].
  unfold binary_pat. rewrite (pats_hold_1 _ _ (Triple (SNamed (graph_iri r)) RDF_TYPE (TNamed SYS_BINARY_RESOURCE)))
    by done.
  destruct Hs1 as [-> _]. case_bool_decide as Hb; cbn [negb]; [|by apply wp_ret].
  unfold stored_media_type. apply wp_bind, wp_bind, wp_store_op, wp_query_triples; [|intros; by_same].
  intros ts w3 Hs3 _ Hts. cbn [omap_err]. apply wp_ret.
  assert (∀ l, recorded (graphs w) (sys_graph_iri (graph_iri r)) (graph_iri r) SYS_MEDIA_TYPE (TLiteral l) ↔
    Triple (SNamed (graph_iri r)) SYS_MEDIA_TYPE (TLiteral l) ∈ ts) as Hr.
  { intros l. rewrite Hts, answers_objects. destruct Hs12 as [-> _].
    split; [intros Hl; split; [exact Hl|reflexivity]|intros [Hl _]; exact Hl]. }
  assert (∀ t, t ∈ ts → t = Triple (SNamed (graph_iri r)) SYS_MEDIA_TYPE (t_object t)) as Ht.
  { intros t Ht. apply Hts in Ht. rewrite answers_objects in Ht. exact (proj2 Ht). }
  destruct (find_map (λ t, match t_object t with
            | TLiteral l => parse_media_type (l_value l) | _ => None end) ts) as [mt|] eqn:Em; simpl.
  - apply find_map_Some in Em as (t & Hin & Em). destruct (t_object t) as [| |l|] eqn:Eo; try discriminate Em.
    apply wp_bind, wp_lift, wp_ret.
    split; [exact Hp|]. split; [exact Hb|]. split; [by eapply same_trans|].
    exists l. split; [|exact Em]. apply Hr. rewrite <- Eo, <- (Ht t Hin). exact Hin.
  - apply wp_bind, wp_lift. split; [exact Hb|]. split; [by_same|]. intros l Hl%Hr.
    exact (find_map_None _ _ Em _ Hl).
Qed.

(** A system graph as a write of bytes leaves it. *)
Lemma put_blob_recorded r reg mt G p o :
  recorded (run_ops (put_blob_ops r reg mt) G) (sys_graph_iri (graph_iri r)) (graph_iri r) p o ↔
  (p = SYS_PRESENT ∧ o = lit_true) ∨ (p = RDF_TYPE ∧ o = TNamed SYS_BINARY_RESOURCE) ∨
  (p = SYS_MEDIA_TYPE ∧ o = TLiteral (simple_literal (mt_raw mt))).
Proof.
  unfold recorded. rewrite put_blob_elem. unfold blob_bookkeeping, present_triple, media_type_triple.
  rewrite !elem_of_cons, elem_of_nil, !triple_eq. tauto.
Qed.

(** Bytes that were written can be found.  [put_blob] answers [Ok] only with
    the bytes under the resource's storage key and a record from which
    [kind_of] reads back the media type they were sent with; a URL without a
    storage key is refused before anything is read; and whenever it fails, the
    graphs say what they said before, or the bytes are there.  The metadata
    never describes bytes that were not stored. *)
Theorem put_blob_spec (r : ResourceUrl) (bytes : string) (mt : MediaType) (w : W)
    (Hmt : parse_media_type (mt_raw mt) = Some mt) :
  wp (put_blob r bytes mt) (λ o w',
    match o with
    | Ok _ => (∃ key, blob_key_of r = Some key ∧ objects w' = <[key := bytes]> (objects w)) ∧
              wp (kind_of r) (reads (λ k, k = Some (KBinary mt)) w') w'
    | Err KeyTooLong => blob_key_of r = None ∧ same w w'
    | Err _ => ∃ key, blob_key_of r = Some key ∧
                 (graphs w' = graphs w ∨ objects w' = <[key := bytes]> (objects w))
    | Panicked => False
    end) w.
Proof.
  apply wp_put_blob.
  - intros ks key w' _ Hkey G' O'. split; [by exists key|].
    pose proof (put_blob_recorded r ks mt (graphs w)) as Hr. rewrite <- G' in Hr.
    assert (present_at (graph_iri r) ∈ graphs w') as Hp by (apply (proj2 (Hr _ _)); left; done).
    assert (binary_at (graphs w') (graph_iri r)) as Hb by (apply (proj2 (Hr _ _)); right; left; done).
    eapply wp_wand; [apply wp_kind_of|].
    intros [[[|mt']|]|[]|] w1 Ho; try (by destruct Ho); try exact Ho.
    + destruct Ho as (_ & Hn & _). by destruct Hn.
    + destruct Ho as (_ & _ & Hs & l & Hl & Em). split; [|exact Hs].
      apply Hr in Hl as [[E _]|[[E _]|[_ El]]]; [pred_clash..|].
      injection El as ->. simpl in Em. congruence.
    + destruct Ho as (_ & _ & Hn). specialize (Hn (simple_literal (mt_raw mt))). simpl in Hn.
      rewrite Hn in Hmt; [discriminate Hmt|].
      apply (proj2 (Hr _ _)). right; right. split; reflexivity.
  - intros Hk. by split.
  - intros key e w' Hk G' _ He. destruct e; try done; exists key; (split; [done|by left]).
  - intros ks key e w' _ Hk _ O'. exists key. split; [done|by right].
Qed.
End ops.

(** * Witnesses *)
Section witness.
#[local] Existing Instance toy_iri.
#[local] Existing Instance toy_header.
#[local] Existing Instance toy_hash.
#[local] Existing Instance toy_path.

(** A resource with a quad in its default graph and one in a named graph. *)
Definition toy_url : ResourceUrl := mkResourceUrl "/box" "https://pod.example/box".
Definition toy_dataset : Skolemized :=
  [mkGroundQuad "urn:s" "urn:p" (GTNamed "urn:o") GGDefault;
   mkGroundQuad "urn:s" "urn:p" (GTNamed "urn:o") (GGNamed "urn:g")].

Lemma toy_keys_distinct abs : (∀ i d f, abs !! i = Some (d, f) → i = graph_iri toy_url ∧ d = toy_dataset) →
  keys_distinct abs (graph_iri toy_url) toy_dataset.
Proof.
  intros Habs. assert (∀ i n, in_use abs (graph_iri toy_url) toy_dataset i n →
    i = graph_iri toy_url ∧ n = "urn:g") as Hu.
  { intros i n [(d0 & f0 & Hl & Hn)|[-> Hn]]; [apply Habs in Hl as [-> ->]|];
      by apply list_elem_of_singleton in Hn. }
  intros i n i' n' [-> ->]%Hu [-> ->]%Hu _. done.
Qed.

Lemma put_dataset_refines_witness :
  ∃ w', put_dataset toy_url toy_dataset Turtle (empty_mem []) = (Ok tt, w') ∧
        Rep (graphs w') {[graph_iri toy_url := (toy_dataset, Turtle)]}.
Proof.
  assert ((put_dataset toy_url toy_dataset Turtle (empty_mem [])).1 = Ok tt) as Eo by (vm_compute; reflexivity).
  assert (Rep (graphs (empty_mem [])) ∅) as HR by (intros i d f Hl; by rewrite lookup_empty in Hl).
  assert (∀ i, is_Some ((∅ : gmap string (Skolemized * Format)) !! i) → web i) as Hweb
    by (intros i [? Hl]; by rewrite lookup_empty in Hl).
  assert (web (graph_iri toy_url)) as Hw by done.
  assert (keys_distinct ∅ (graph_iri toy_url) toy_dataset) as Hkd
    by (apply toy_keys_distinct; intros i d f Hl; by rewrite lookup_empty in Hl).
  assert (registry_known (graphs (empty_mem [])) ∅ (graph_iri toy_url)) as Hkn
    by (intros _ o; apply not_elem_of_empty).
  pose proof (put_dataset_refines ∅ toy_url toy_dataset Turtle (empty_mem []) HR Hweb Hw Hkd Hkn) as Hx.
  unfold wp in Hx.
  destruct (put_dataset toy_url toy_dataset Turtle (empty_mem [])) as [o w']. cbn [fst snd] in Hx, Eo. subst o.
  exists w'. split; [reflexivity|]. exact (proj1 (proj2 Hx)).
Defined.

(** The store of a pod that holds [toy_dataset]. *)
Definition toy_ops : list update_op :=
  put_dataset_ops toy_url [] (graph_triples toy_dataset GGDefault)
    (map (λ n, mkShelf (key_at (graph_iri toy_url) n) n (graph_triples toy_dataset (GGNamed n)))
       (sk_named_graphs toy_dataset)) Turtle.
Definition toy_stored : Mem () := mkMem (mem_run toy_ops []) ∅ [] tt.

Lemma toy_stored_graphs : graphs toy_stored = run_ops toy_ops ∅.
Proof. apply mem_run_spec. Qed.

Lemma toy_stored_rep : Rep (graphs toy_stored) {[graph_iri toy_url := (toy_dataset, Turtle)]}.
Proof.
  rewrite toy_stored_graphs. intros i d f Hl. apply lookup_singleton_Some in Hl as [<- Hp].
  rewrite <- (f_equal fst Hp : toy_dataset = d), <- (f_equal snd Hp : Turtle = f).
  apply put_dataset_written; [reflexivity|].
  intros n n' ->%list_elem_of_singleton ->%list_elem_of_singleton _. reflexivity.
Qed.

Lemma get_dataset_refines_witness :
  ∃ d', (get_dataset toy_url toy_stored).1 = Ok (Some d') ∧ d' ≡ₚ toy_dataset.
Proof.
  pose proof (get_dataset_refines {[graph_iri toy_url := (toy_dataset, Turtle)]} toy_url toy_dataset
    Turtle toy_stored toy_stored_rep) as Hx.
  assert (({[graph_iri toy_url := (toy_dataset, Turtle)]} : gmap string (Skolemized * Format))
            !! graph_iri toy_url = Some (toy_dataset, Turtle)) as H1 by done.
  assert (keys_distinct {[graph_iri toy_url := (toy_dataset, Turtle)]} (graph_iri toy_url) toy_dataset) as H2.
  { apply toy_keys_distinct. intros i d f Hl. apply lookup_singleton_Some in Hl as [<- Hp].
    split; [reflexivity|]. exact (eq_sym (f_equal fst Hp)). }
  assert (Forall (λ n, iri_valid n = true) (sk_named_graphs toy_dataset)) as H3
    by (vm_compute; by repeat constructor).
  specialize (Hx H1 H2 H3). unfold wp in Hx.
  assert (match (get_dataset toy_url toy_stored).1 with Ok _ => true | _ => false end = true) as Eo
    by (vm_compute; reflexivity).
  destruct (get_dataset toy_url toy_stored) as [[d|e|] w']; cbn [fst snd] in Hx, Eo; [|discriminate Eo..].
  destruct Hx as [(d' & -> & Hd') _]. exists d'. split; [done|]. exact Hd'.
Defined.

Definition toy_png : MediaType := mkMediaType "image/png" "image/png".

Lemma put_blob_spec_witness :
  ∃ w', put_blob toy_url "bytes" toy_png (empty_mem []) = (Ok tt, w') ∧ objects w' !! "box" = Some "bytes" ∧
        wp (kind_of toy_url) (reads (λ k, k = Some (KBinary toy_png)) w') w'.
Proof.
  assert (parse_media_type (mt_raw toy_png) = Some toy_png) as Hmt by (vm_compute; reflexivity).
  pose proof (put_blob_spec toy_url "bytes" toy_png (empty_mem []) Hmt) as Hx. unfold wp at 1 in Hx.
  assert ((put_blob toy_url "bytes" toy_png (empty_mem [])).1 = Ok tt) as Eo by (vm_compute; reflexivity).
  destruct (put_blob toy_url "bytes" toy_png (empty_mem [])) as [o w']. cbn [fst snd] in Hx, Eo. subst o.
  destruct Hx as [(key & Hk & Ho) Hkind]. exists w'. split; [done|].
  assert (key = "box") as -> by (vm_compute in Hk; congruence).
  split; [rewrite Ho; apply lookup_insert_eq|exact Hkind].
Defined.
End witness.
