(* ===== verification/Container.v ===== *)
(** Containers and containment ([container.rs]). *)
From S2P Require Import Prelude Str Terms Space Rdf Dataset Patch Store Mem Resource.
Open Scope list_scope.

Definition LDP_CONTAINER : string := "http://www.w3.org/ns/ldp#Container".
Definition LDP_BASIC_CONTAINER : string := "http://www.w3.org/ns/ldp#BasicContainer".
Definition LDP_CONTAINS : string := "http://www.w3.org/ns/ldp#contains".

Definition body_sets_containment (triples : list triple) : bool :=
  existsb (λ t, bool_decide (t_predicate t = LDP_CONTAINS)) triples.

(** The filter of [without_server_managed]. *)
Definition client_managed (container_iri : string) (t : triple) : bool :=
  if bool_decide (t_predicate t = LDP_CONTAINS) then false else
  let subject_is_container := bool_decide (t_subject t = SNamed container_iri) in
  if bool_decide (t_predicate t = RDF_TYPE) && subject_is_container then
    match t_object t with
    | TNamed n => negb (bool_decide (n = LDP_CONTAINER) || bool_decide (n = LDP_BASIC_CONTAINER))
    | _ => true
    end
  else true.

Definition without_server_managed (triples : list triple) (container_iri : string) : list triple :=
  filter (λ t, client_managed container_iri t = true) triples.

(** The containment triple of a parent and a child. *)
Definition contains_at (p c : string) : located :=
  (p, Triple (SNamed p) LDP_CONTAINS (TNamed c)).

(** The quads [ensure_container] inserts. *)
Definition container_quads (iri : string) : list GroundQuad :=
  [mkGroundQuad iri RDF_TYPE (GTNamed LDP_CONTAINER) GGDefault;
   mkGroundQuad iri RDF_TYPE (GTNamed LDP_BASIC_CONTAINER) GGDefault].

Definition containment_quads (p c : string) : list GroundQuad :=
  [mkGroundQuad p LDP_CONTAINS (GTNamed c) GGDefault].

Section container.
Context {W : Type} `{Backend W} `{IriSyntax}.

Notation MR := (M W ResourceError).

(** [node]. *)
Definition node (iri : string) : outcome ResourceError string :=
  if iri_valid iri then Ok iri else Err InvalidIri.

Definition ensure_container (c : ContainerUrl) : MR unit :=
  let! iri := lift (node (graph_iri c)) in
  do! lift (node RDF_TYPE) in
  do! lift (node LDP_CONTAINER) in
  do! lift (node LDP_BASIC_CONTAINER) in
  insert_marked (graph_iri c) (container_quads iri).

Definition add_containment (parent : ContainerUrl) (child_iri : string) : MR unit :=
  let! p := lift (node (graph_iri parent)) in
  do! lift (node LDP_CONTAINS) in
  let! c := lift (node child_iri) in
  insert_marked (graph_iri parent) (containment_quads p c).

(** The fragment [containment_removal] renders. *)
Definition containment_removal (parent : ContainerUrl) (child_iri : string)
    : outcome ResourceError update_op :=
  let? c := node child_iri in
  Ok (DeleteData [contains_at (graph_iri parent) c]).

Definition container_is_empty (c : ContainerUrl) : MR bool :=
  let! triples := store_op (query_triples (QObjects (graph_iri c) (graph_iri c) LDP_CONTAINS)) in
  ret (is_empty triples).

Definition provision_root (root : ContainerUrl) : MR unit := ensure_container root.
End container.

(** * What the two writes of a container do *)
Lemma elem_of_marked iri ts G x :
  x ∈ run_ops (insert_marked_ops iri ts) G ↔ (x.1 = iri ∧ x.2 ∈ ts) ∨ x = present_at iri ∨ x ∈ G.
Proof.
  unfold insert_marked_ops. change [InsertData ?a; InsertData ?b] with (map InsertData [a; b]).
  rewrite elem_of_inserts. cbn [mjoin list_join].
  rewrite app_nil_r, elem_of_app, elem_of_in_graph, list_elem_of_singleton. tauto.
Qed.

Section effects.
Context {W : Type} `{BackendLaws W} `{IriSyntax}.

(** Whole or not at all. *)
Lemma wp_insert_marked iri quads (Φ : outcome ResourceError unit → W → Prop) w :
  let ops := insert_marked_ops iri (map triple_of_ground quads) in
  (∀ w', graphs w' = run_ops ops (graphs w) → objects w' = objects w → Φ (Ok tt) w') →
  (∀ e w', graphs w' = graphs w ∨ graphs w' = run_ops ops (graphs w) → objects w' = objects w → Φ (Err e) w') →
  wp (insert_marked iri quads) Φ w.
Proof. cbv zeta. intros Hok Herr. apply wp_store_op, wp_update; [done|]. intros e w' Hg Ho. by apply Herr. Qed.

Lemma wp_node {A} iri (k : string → M W ResourceError A) (Φ : outcome ResourceError A → W → Prop) w :
  wp (k iri) Φ w → Φ (Err InvalidIri) w → wp (bind (lift (node iri)) k) Φ w.
Proof. intros Hk He. apply wp_bind, wp_lift. unfold node. by destruct (iri_valid iri). Qed.

Lemma wp_ensure_container c (Φ : outcome ResourceError unit → W → Prop) w :
  let ops := insert_marked_ops (graph_iri c) (map triple_of_ground (container_quads (graph_iri c))) in
  (∀ w', graphs w' = run_ops ops (graphs w) → objects w' = objects w → Φ (Ok tt) w') →
  (∀ e w', graphs w' = graphs w ∨ graphs w' = run_ops ops (graphs w) → objects w' = objects w → Φ (Err e) w') →
  wp (ensure_container c) Φ w.
Proof.
  cbv zeta. intros Hok Herr. unfold ensure_container.
  do 4 (apply wp_node; [|by apply Herr; [left|]]). by apply wp_insert_marked.
Qed.

Lemma wp_add_containment p i (Φ : outcome ResourceError unit → W → Prop) w :
  let ops := insert_marked_ops (graph_iri p) (map triple_of_ground (containment_quads (graph_iri p) i)) in
  (∀ w', graphs w' = run_ops ops (graphs w) → objects w' = objects w → Φ (Ok tt) w') →
  (∀ e w', graphs w' = graphs w ∨ graphs w' = run_ops ops (graphs w) → objects w' = objects w → Φ (Err e) w') →
  wp (add_containment p i) Φ w.
Proof.
  cbv zeta. intros Hok Herr. unfold add_containment.
  do 3 (apply wp_node; [|by apply Herr; [left|]]). by apply wp_insert_marked.
Qed.
End effects.

(** * Request headers *)

(** [trim_matches] of the double quote. *)
Definition is_quote (c : ascii) : bool := Nat.eqb (nat_of_ascii c) 34.
Definition trim_quotes (s : string) : string := trim_end is_quote (trim_start is_quote s).

Definition rel_is_type (p : string) : bool :=
  match split_once "="%char p with
  | Some (name, v) =>
      eq_ignore_ascii_case (trim name) "rel"
      && bool_decide ("type" ∈ split_whitespace (trim_quotes (trim v)))
  | None => false
  end.

Definition type_link_requests_container (link : string) : bool :=
  existsb (λ value,
    let value := trim value in
    match strip_prefix "<" value with
    | None => false
    | Some rest =>
        match split_once ">"%char rest with
        | None => false
        | Some (target, params) =>
            if negb (bool_decide (target = LDP_CONTAINER)) && negb (bool_decide (target = LDP_BASIC_CONTAINER))
            then false
            else existsb rel_is_type (split_char ";"%char params)
        end
    end) (split_char ","%char link).

Definition is_slug_char (c : ascii) : bool :=
  is_ascii_alphanumeric c || contains_char c "._-".

(** The fresh uuid is an argument. *)
Definition child_name (slug : option string) (uuid : string) : string :=
  let cleaned := filter_chars is_slug_char (default "" slug) in
  if bool_decide (cleaned = "") || bool_decide (cleaned = ".") || bool_decide (cleaned = "..")
  then uuid else cleaned.

(** * Where a new member goes *)

(** A name that is one path segment. *)
Record segment (s : string) : Prop := {
  seg_chars : all_chars is_slug_char s = true;
  seg_nonempty : s ≠ "";
  seg_dot : s ≠ ".";
  seg_dots : s ≠ ".."
}.

Lemma child_name_segment slug uuid : segment uuid → segment (child_name slug uuid).
Proof.
  intros Hu. unfold child_name. set (cleaned := filter_chars is_slug_char (default "" slug)).
  destruct (decide (cleaned = "")) as [->|H1]; [done|].
  destruct (decide (cleaned = ".")) as [->|H2]; [done|].
  destruct (decide (cleaned = "..")) as [->|H3]; [done|].
  rewrite !bool_decide_eq_false_2 by done. split; try done. apply all_filter_chars.
Qed.

Lemma segment_no_slash s : segment s → contains_char "/"%char s = false.
Proof. intros Hs. by apply (all_chars_contains is_slug_char); [apply seg_chars|]. Qed.

Lemma last_char_of_app (a s u : string) : s ≠ "" → a +:+ s = u +:+ "/" → ∃ v, s = v +:+ "/".
Proof.
  intros Hs E. apply app_eq_inv_s in E as [(m & _ & ->)|(m & _ & E)]; [by exists m|].
  destruct m as [|x m]; [exists ""; by rewrite app_nil_l_s in *|].
  rewrite app_cons_s in E. injection E as _ E. symmetry in E. by apply app_nonempty_s in E as [_ ->].
Qed.

(** The parent of a path that extends a container's by one segment. *)
Lemma parent_of_member sp (r : ResourceUrl) (c : ContainerUrl) s tl :
  url_in sp r → url_in sp (as_resource c) → ends_with "/" (c_path c) = true →
  segment s → tl = "" ∨ tl = "/" → r_path r = c_path c +:+ s +:+ tl → parent r = Some c.
Proof.
  intros Hr Hc He Hs Htl Hp. pose proof (segment_no_slash s Hs) as Hns.
  apply ends_with_true in He as [a He].
  assert (default (r_path r) (strip_suffix "/" (r_path r)) = a +:+ "/" +:+ s) as Htrim.
  { destruct Htl as [-> | ->]; rewrite Hp, He.
    - rewrite app_nil_r_s, app_assoc_s.
      destruct (strip_suffix "/" (a +:+ "/" +:+ s)) as [u|] eqn:E; [|done]. exfalso.
      apply strip_suffix_Some in E. rewrite <- app_assoc_s in E.
      apply last_char_of_app in E as [v ->]; [|by apply seg_nonempty].
      by rewrite contains_char_app, orb_true_r in Hns.
    - rewrite <- !app_assoc_s, strip_suffix_app. by rewrite app_assoc_s. }
  unfold parent. rewrite bool_decide_eq_false_2.
  2:{ rewrite Hp, He. intros E. apply (f_equal String.length) in E. rewrite !length_app_s in E. cbn in E.
      pose proof (seg_nonempty s Hs). destruct s; [done|simpl in E; lia]. }
  rewrite Htrim. change ("/" +:+ s) with (String "/"%char s). rewrite upto_last_app by done.
  change (String "/"%char "") with "/". rewrite <- He. f_equal.
  rewrite (base_of_url_in sp r Hr). unfold c_path. rewrite <- (url_iri sp _ Hc). by destruct c as [[]].
Qed.

(** No member of a container that is not reserved has an auxiliary's path. *)
Lemma member_not_aux (c : ContainerUrl) s tl q :
  reserved_segment (c_path c) = None → ends_with "/" (c_path c) = true → segment s → tl = "" ∨ tl = "/" →
  c_path c +:+ s +:+ tl ≠ "/" +:+ AUX_SEGMENT +:+ ("/" +:+ q) +:+ suffix Acl.
Proof.
  intros Hfree He Hs Htl E. pose proof (segment_no_slash s Hs) as Hns.
  apply reserved_segment_None in Hfree as [Hfree _].
  destruct Htl as [-> | ->].
  - rewrite app_nil_r_s in E.
    assert ("/" +:+ AUX_SEGMENT +:+ ("/" +:+ q) +:+ suffix Acl = ("/" +:+ AUX_SEGMENT +:+ "/") +:+ (q +:+ suffix Acl))
      as E' by (by rewrite !app_assoc_s).
    rewrite E' in E. apply app_eq_inv_s in E as [(m & Ec & Em)|(m & Ec & _)].
    + destruct (decide (m = "")) as [->|Hm].
      * rewrite app_nil_r_s in Ec. rewrite <- Ec in Hfree.
        by rewrite (proj2 (segment_remainder_Some _ _ "/")) in Hfree by (split; [done|right; by exists ""]).
      * symmetry in Ec. rewrite <- app_assoc_s in Ec.
        apply last_char_of_app in Ec as [v ->]; [|done].
        rewrite Em, !contains_char_app, orb_true_r in Hns. done.
    + rewrite Ec in Hfree.
      rewrite (proj2 (segment_remainder_Some _ _ ("/" +:+ m))) in Hfree; [done|].
      split; [by rewrite !app_assoc_s|right; by exists m].
  - rewrite <- app_assoc_s in E. symmetry in E. rewrite <- !app_assoc_s in E.
    apply last_char_of_app in E as [v E]; [|done].
    apply (f_equal (contains_char "/"%char)) in E. rewrite contains_char_app, orb_true_r in E. done.
Qed.

(** What a container's path and one more segment name, is a member of it. *)
Lemma member_inside `{IriSyntax} (sp : StorageSpace) path (c : ContainerUrl) s tl t :
  space_wf sp → resolve sp path = Ok (TContainer c) → segment s → tl = "" ∨ tl = "/" →
  resolve sp (c_path c +:+ s +:+ tl) = Ok t → is_aux t = false ∧ parent (subject_of t) = Some c.
Proof.
  intros Hsp Hc Hs Htl Ht.
  destruct (resolve_Ok_inv sp path _ Hsp Hc) as (_ & Hcin & _ & Hcfree & _ & Hpath & Hend). simpl in *.
  rewrite <- Hpath in Hend.
  destruct (resolve_Ok_inv sp _ t Hsp Ht) as (_ & Hin & _ & _ & _ & Hshape).
  destruct t as [r|c'|a]; simpl in *.
  - destruct Hshape as [Hp _]. split; [done|]. by eapply (parent_of_member sp r c s tl).
  - destruct Hshape as [Hp _]. split; [done|]. by eapply (parent_of_member sp _ c s tl).
  - exfalso. destruct Hshape as (_ & _ & E).
    destruct (url_rooted sp _ Hin) as [q Hq]. simpl in Hq. rewrite Hq in E. destruct (a_kind a).
    apply (member_not_aux c s tl q); [done|done|done|done|]. by rewrite E.
Qed.

(** A [Slug] names a member, whatever it says.  The name a [POST] allocates
    in a container, from any [Slug] header or from the uuid, with the slash of
    a requested container or not, resolves, if it does, to a resource or
    container whose parent is that container: never to an auxiliary, to the
    container itself or to anything outside it; and a name kept from the header
    is drawn from the letters, digits and [._-]. *)
Theorem child_name_inside `{IriSyntax} (sp : StorageSpace) (Hsp : space_wf sp) (path : string)
    (c : ContainerUrl) (slug : option string) (uuid : string) (as_dir : bool) (t : Target)
    (Hc : resolve sp path = Ok (TContainer c)) (Hu : segment uuid)
    (Ht : resolve sp (c_path c +:+ child_name slug uuid +:+ (if as_dir then "/" else "")) = Ok t) :
  is_aux t = false ∧ parent (subject_of t) = Some c ∧ segment (child_name slug uuid) ∧
  (child_name slug uuid = uuid ∨ child_name slug uuid = filter_chars is_slug_char (default "" slug)).
Proof.
  pose proof (child_name_segment slug uuid Hu) as Hs. set (s := child_name slug uuid) in *.
  set (tl := if as_dir then "/" else "") in *. assert (tl = "" ∨ tl = "/") as Htl by (unfold tl; destruct as_dir; auto).
  destruct (member_inside sp path c s tl t) as [Ha Hp]; [done..|]. split_and!; [done|done|done|].
  unfold s, child_name. destruct (_ || _); auto.
Qed.

Lemma child_name_inside_witness :
  let H := toy_iri in let sp := mkSpace "https://pod.example/" in
  let box := mkContainerUrl (mkResourceUrl "/box/" "https://pod.example/box/") in
  segment "4f6c-uuid" ∧ child_name (Some "../.aux") "4f6c-uuid" = "...aux" ∧
  parent (mkResourceUrl "/box/...aux" "https://pod.example/box/...aux") = Some box.
Proof.
  intros H sp box. assert (Hu : segment "4f6c-uuid") by by split.
  split; [exact Hu|]. split; [reflexivity|].
  assert (Hsp : space_wf sp) by done.
  assert (Hc : resolve sp "/box/" = Ok (TContainer box)) by (vm_compute; reflexivity).
  assert (Ht : resolve sp (c_path box +:+ child_name (Some "../.aux") "4f6c-uuid" +:+ "") =
    Ok (TResource (mkResourceUrl "/box/...aux" "https://pod.example/box/...aux"))) by (vm_compute; reflexivity).
  exact (proj1 (proj2 (child_name_inside sp Hsp "/box/" box (Some "../.aux") "4f6c-uuid" false _ Hc Hu Ht))).
Defined.
