(* ===== verification/Ground.v ===== *)
(** What may be in the store: triples without a blank node.

    Everything the pod writes has been skolemized, or comes from a patch, which
    has no blank nodes; [Skolemized::from_store] panics on anything else.
    [storable] is what it accepts, [inserted] what an update adds. *)
From S2P Require Import Prelude Str Terms Space Rdf Dataset Patch Store Mem Resource Container.
Open Scope list_scope.

Definition storable (t : triple) : Prop := is_Some (ground_of_quad (quad_of_triple GDefault t)).

#[export] Instance storable_dec t : base.Decision (storable t).
Proof. unfold storable. apply _. Defined.

Definition stored (G : gset located) : Prop := ∀ x, x ∈ G → storable x.2.

(** ** The triples the sources build *)
Lemma storable_named s p o : is_Some (ground_of_term o) → storable (Triple (SNamed s) p o).
Proof. intros [o' Ho]. unfold storable, ground_of_quad. cbn. rewrite Ho. by eexists. Qed.

Lemma ground_term_back o : ground_of_term (term_of_ground o) = Some o.
Proof. induction o as [n|l|s p o IH]; [done|done|]. simpl. by rewrite IH. Qed.

Lemma storable_ground q : storable (triple_of_ground q).
Proof. apply storable_named. rewrite ground_term_back. by eexists. Qed.

Lemma storable_skolemized d : Forall storable (map triple_of_ground d).
Proof. apply Forall_fmap, Forall_true. intros q. apply storable_ground. Qed.

Lemma storable_pattern p t : ground_pattern p = Some t → storable t.
Proof. unfold ground_pattern. repeat case_match; intros [= <-]; by apply storable_named. Qed.

Lemma ground_insertions_storable p ts : ground_insertions p = Some ts → Forall storable ts.
Proof.
  unfold ground_insertions. destruct (negb _); [done|]. intros E. apply mapM_Some in E.
  induction E as [|pat t ps ts Ht _ IH]; constructor; [by eapply storable_pattern|done].
Qed.

(** A mapping binds names and literals only. *)
Lemma ground_pattern_term_stored t bs v : ground_pattern_term t bs = Ok v → is_Some (ground_of_term v).
Proof.
  destruct t as [n|l|i]; simpl; [by intros [= <-]..|]. destruct (s ← head bs; s !! var_name i) as [v'|]; simpl; [|done].
  by destruct v'; simpl; intros [= <-].
Qed.

Lemma substitute_storable ps bs gps : substitute ps bs = Ok gps → Forall storable (omap triple_of_gpat gps).
Proof.
  revert gps. induction ps as [|p ps IH]; intros gps; simpl; [by intros [= <-]|].
  intros (s & _ & E)%obind_Ok. apply obind_Ok in E as (pr & _ & E). apply obind_Ok in E as (o & Ho & E).
  apply obind_Ok in E as (out & Hout & [= <-]). apply ground_pattern_term_stored in Ho. specialize (IH out Hout).
  simpl. unfold triple_of_gpat at 1. cbn [gp_s gp_p gp_o]. destruct s, pr; try exact IH.
  constructor; [by apply storable_named|done].
Qed.

(** ** Updates *)
Definition inserted (op : update_op) : list located :=
  match op with
  | InsertData qs => qs
  | Modify _ ins _ _ => instantiate ins
  | _ => []
  end.

Definition inserts_storable (ops : list update_op) : Prop :=
  Forall (λ op, Forall (λ x : located, storable x.2) (inserted op)) ops.

Lemma run_op_stored op G : Forall (λ x : located, storable x.2) (inserted op) → stored G → stored (run_op op G).
Proof.
  rewrite Forall_forall. intros Hi HG x Hx. destruct op as [g|qs|qs|g guard|del ins wh guard]; cbn in *.
  - apply elem_of_filter in Hx as [_ Hx]. by apply HG.
  - apply elem_of_union in Hx as [Hx|Hx%elem_of_list_to_set]; auto.
  - apply elem_of_difference in Hx as [Hx _]. by apply HG.
  - case_match; [|by apply HG]. apply elem_of_filter in Hx as [_ Hx]. by apply HG.
  - case_match; [|by apply HG]. apply elem_of_union in Hx as [Hx|Hx%elem_of_list_to_set]; [|auto].
    apply elem_of_difference in Hx as [Hx _]. by apply HG.
Qed.

Lemma run_ops_stored ops G : inserts_storable ops → stored G → stored (run_ops ops G).
Proof.
  unfold run_ops. intros Ho. revert G. induction Ho as [|op ops Hop _ IH]; intros G HG; [done|].
  cbn [foldl]. apply IH. by apply run_op_stored.
Qed.

Lemma storable_in_graph g ts : Forall storable ts → Forall (λ x : located, storable x.2) (in_graph g ts).
Proof. intros Ht. by apply Forall_fmap. Qed.

Lemma storable_instantiate iri ins : Forall storable (omap triple_of_gpat ins) →
  Forall (λ x : located, storable x.2) (instantiate (pair iri <$> ins)).
Proof.
  induction ins as [|p ins IH]; intros Hs; [done|]. unfold instantiate in *. cbn in *.
  destruct (triple_of_gpat p) as [t|]; cbn in *; [|by apply IH].
  apply Forall_cons in Hs as [Ht Hs]. constructor; [done|by apply IH].
Qed.

Lemma drops_storable l : inserts_storable (map DropSilent l).
Proof. apply Forall_fmap, Forall_true. by constructor. Qed.

Lemma present_storable iri : storable (present_triple iri).
Proof. by apply storable_named. Qed.

Lemma split_storable `{Hashing} r (d : Skolemized) :
  Forall storable (split_dataset r d).1 ∧ Forall (λ s, Forall storable (sh_triples s)) (split_dataset r d).2.
Proof.
  unfold split_dataset. assert (∀ acc : list triple * list shelf,
    Forall storable acc.1 ∧ Forall (λ s, Forall storable (sh_triples s)) acc.2 →
    let s := foldl (split_quad r) acc d in
    Forall storable s.1 ∧ Forall (λ s, Forall storable (sh_triples s)) s.2) as Hl; [|by apply Hl].
  assert (∀ shs key name t, storable t → Forall (λ s, Forall storable (sh_triples s)) shs →
    Forall (λ s, Forall storable (sh_triples s)) (push_shelf shs key name t)) as Hp.
  { intros shs key name t Ht. induction 1 as [|s shs Hs Hshs IH]; cbn; [by repeat constructor|].
    case_bool_decide; constructor; cbn; try done. by apply Forall_app_2; [|constructor]. }
  unfold Skolemized in *. induction d as [|q d IH]; intros [dg shs] [H1 H2]; [done|]. cbn [foldl]. apply IH.
  unfold split_quad. pose proof (storable_ground q). destruct (g_graph q); cbn; (split; [|auto]); [|done].
  by apply Forall_app_2; [|constructor].
Qed.

Lemma put_dataset_storable `{Hashing} r reg d f :
  inserts_storable (put_dataset_ops r reg (split_dataset r d).1 (split_dataset r d).2 f).
Proof.
  destruct (split_storable r d) as [H1 H2]. unfold put_dataset_ops, inserts_storable. cbv zeta.
  rewrite !Forall_app. split; [apply drops_storable|]. split; [apply Forall_fmap, Forall_true; by constructor|].
  apply Forall_cons; split; [by constructor|]. apply Forall_cons; split; [by constructor|].
  apply Forall_cons; split; [|apply Forall_cons; split; [|by constructor]]; cbn [inserted].
  - apply Forall_app_2; [by apply storable_in_graph|]. apply Forall_forall. intros x (l & Hx & Hl)%list_elem_of_join.
    apply list_elem_of_fmap in Hl as (s & -> & Hs). rewrite Forall_forall in H2. specialize (H2 s Hs).
    apply (storable_in_graph (sh_key s)) in H2. rewrite Forall_forall in H2. by eapply H2.
  - apply storable_in_graph, Forall_app_2; [by repeat constructor; apply storable_named|].
    apply Forall_forall. intros x (l & Hx & Hl)%list_elem_of_join. apply list_elem_of_fmap in Hl as (s & -> & Hs).
    repeat (apply elem_of_cons in Hx as [->|Hx]; [by apply storable_named|]). by apply elem_of_nil in Hx.
Qed.

(** ** What the pod reads back *)
Lemma from_store_named n ts : Forall storable ts → is_Some (from_store (map (quad_of_triple (GNamed n)) ts)).
Proof.
  intros Hs. apply mapM_is_Some, Forall_fmap. eapply Forall_impl; [exact Hs|]. intros t [q Hq]. cbn.
  unfold ground_of_quad in *. cbn in *. destruct (ground_of_subject _), (ground_of_term _); done.
Qed.

Lemma from_store_default ts : Forall storable ts → is_Some (from_store (map (quad_of_triple GDefault) ts)).
Proof. intros Hs. apply mapM_is_Some, Forall_fmap. eapply Forall_impl; [exact Hs|]. done. Qed.

Lemma from_store_app qs qs' : is_Some (from_store qs) → is_Some (from_store qs') → is_Some (from_store (qs ++ qs')).
Proof. unfold from_store, Skolemized. rewrite !mapM_is_Some. by apply Forall_app_2. Qed.
