(* ===== verification/Auxiliary.v ===== *)
(** The lifecycle of auxiliary resources ([aux.rs]). *)
From S2P Require Import Prelude Str Terms Space Rdf Dataset Patch Store Mem Resource Container Ground.
Open Scope list_scope.

Inductive AuxError : Type :=
| SubjectMissing
| AuxMissing
| TooLarge (n : nat)
| AuxResource (e : ResourceError).

Definition MAX_AUX_TRIPLES : nat := 1000.

Definition AUX_SUBJECT_MISSING_MESSAGE : string :=
  "an auxiliary resource cannot be created for a resource that does not exist".

(** [FILTER EXISTS { GRAPH <subject_sys> { <subject> <present> true } }]. *)
Definition subject_present_guard (a : AuxUrl) : list located :=
  [present_at (graph_iri (a_subject a))].

(** The two operations of [conditional_put_update], with the skolemized body. *)
Definition conditional_put_ops (a : AuxUrl) (body : list triple) : list update_op :=
  let iri := graph_iri a in
  let guard := subject_present_guard a in
  [ClearIf iri guard;
   Modify []
     ((pair iri <$> ((λ t, GPat (term_of_subject (t_subject t)) (TNamed (t_predicate t)) (t_object t)) <$> body))
      ++ [present_pat iri])
     [] guard].

Definition conditional_put_update (uuid : nat → string) (a : AuxUrl) (triples : list triple)
    : list update_op :=
  conditional_put_ops a (map triple_of_ground (skolemize uuid (as_quads triples))).

(** The update of [delete_subject]. *)
Definition delete_subject_ops `{IriSyntax} (registered : list ShelfKey) (subject : ResourceUrl)
    : outcome ResourceError (list update_op) :=
  let ops := map DropSilent registered ++
    [DropSilent (graph_iri subject); DropSilent (sys_graph_iri (graph_iri subject))] ++
    mjoin (map (λ kind, let a := aux subject kind in
                 [DropSilent (graph_iri a); DropSilent (sys_graph_iri (graph_iri a))]) AuxKind_ALL) in
  match parent subject with
  | Some p => let? removal := containment_removal p (graph_iri subject) in Ok (ops ++ [removal])
  | None => Ok ops
  end.

Section auxiliary.
Context {W : Type} `{Backend W} `{IriSyntax} `{ObjectPath}.

(** [exists(..).await?] in a function that returns [AuxError]. *)
Definition aux_op {A : Type} (m : M W ResourceError A) : M W AuxError A := map_err AuxResource m.

Definition aux_put (uuid : nat → string) (a : AuxUrl) (triples : list triple) : M W AuxError unit :=
  if Nat.ltb MAX_AUX_TRIPLES (length triples) then throw (TooLarge (length triples)) else
  do! aux_op (store_op (update (conditional_put_update uuid a triples))) in
  let! landed := aux_op (exists_ (graph_iri a)) in
  if negb landed then throw SubjectMissing else ret tt.

Definition aux_patch (a : AuxUrl) (patch : Patch) : M W AuxError PatchResult :=
  let! there := aux_op (exists_ (graph_iri a)) in
  if negb there then
    let! subject_there := aux_op (exists_ (graph_iri (a_subject a))) in
    throw (if subject_there : bool then AuxMissing else SubjectMissing)
  else
    let! result := aux_op (patch_guarded (graph_iri a) patch (subject_present_guard a)) in
    let! landed := aux_op (exists_ (graph_iri a)) in
    if negb landed then throw SubjectMissing else ret result.

Definition delete_subject (subject : ResourceUrl) : M W ResourceError bool :=
  let! existed := exists_ (graph_iri subject) in
  let! registered := registered_shelves subject in
  let! ops := lift (delete_subject_ops registered subject) in
  do! store_op (update ops) in
  do! drop_blob subject in
  ret existed.
End auxiliary.

(** * The pod's updates, as steps

    Requests interleave between their reads and their updates; an update is
    atomic.  [pod_step] has one constructor per update the sources send, with
    everything a stale read may have put in it left free: the registry of an
    earlier moment, the terms of an earlier solution.  What is inserted has no
    blank node. *)
Section steps.
Context `{IriSyntax} `{Hashing} (sp : StorageSpace).

Definition shelf_like (k : ShelfKey) : Prop := starts_with SHELF_PREFIX k = true.

Inductive pod_step (G : gset located) : gset located → Prop :=
| step_put_dataset r reg d f :
    plain sp r → Forall shelf_like reg →
    pod_step G (run_ops (put_dataset_ops r reg (split_dataset r d).1 (split_dataset r d).2 f) G)
| step_put_blob r reg mt :
    plain sp r → Forall shelf_like reg → pod_step G (run_ops (put_blob_ops r reg mt) G)
| step_insert_marked (c : ContainerUrl) body :
    plain sp (as_resource c) → Forall storable body →
    pod_step G (run_ops (insert_marked_ops (graph_iri c) body) G)
| step_put_rdf (c : ContainerUrl) body :
    plain sp (as_resource c) → Forall storable body →
    pod_step G (run_ops (put_rdf_ops (graph_iri c) body) G)
| step_patch (r : ResourceUrl) dels ins :
    plain sp r → Forall storable (omap triple_of_gpat ins) →
    pod_step G (run_ops (patch_ops (graph_iri r) dels ins []) G)
| step_aux_put s k body :
    plain sp s → Forall storable body → pod_step G (run_ops (conditional_put_ops (aux s k) body) G)
| step_aux_patch s k dels ins :
    plain sp s → Forall storable (omap triple_of_gpat ins) →
    pod_step G (run_ops (patch_ops (graph_iri (aux s k)) dels ins (subject_present_guard (aux s k))) G)
| step_aux_delete s k :
    plain sp s → pod_step G (run_ops (delete_rdf_ops (graph_iri (aux s k))) G)
| step_delete_subject s reg ops :
    plain sp s → Forall shelf_like reg → delete_subject_ops reg s = Ok ops →
    pod_step G (run_ops ops G).

(** What holds of the store between any two updates. *)
Record pod_inv (G : gset located) : Prop := {
  inv_shelves i s o : (sys_graph_iri i, Triple s SYS_HAS_SUBGRAPH o) ∈ G → ∃ k, o = TNamed k ∧ shelf_like k;
  inv_aux r k : plain sp r → present_at (graph_iri (aux r k)) ∈ G → present_at (graph_iri r) ∈ G
}.

(** The effect of an update on the system graphs: what it adds to the graph of
    an IRI, and which of them it drops first. *)
Definition sys_effect (G G' : gset located) (adds : string → triple → Prop) (drops : string → Prop) : Prop :=
  ∀ i t, (sys_graph_iri i, t) ∈ G' ↔ adds i t ∨ ((sys_graph_iri i, t) ∈ G ∧ ¬ drops i).

Lemma shelf_like_not_sys k i : shelf_like k → sys_graph_iri i ≠ k.
Proof. by intros Hk <-. Qed.

Lemma shelves_not_sys reg i : Forall shelf_like reg → sys_graph_iri i ∉ reg.
Proof. rewrite Forall_forall. intros Hr Hi. by apply Hr in Hi. Qed.

Lemma shelf_key_like r n : shelf_like (shelf_key_of r n).
Proof. apply starts_with_app. Qed.

Lemma split_keys_like r d : Forall (λ s, shelf_like (sh_key s)) (split_dataset r d).2.
Proof.
  unfold split_dataset. assert (Forall (λ s, shelf_like (sh_key s)) ([] : list shelf)) as Hn by constructor.
  revert Hn. change ([] : list shelf) with (([], []) : list triple * list shelf).2 at 1.
  generalize (([], []) : list triple * list shelf). induction d as [|q d IH]; intros acc Ha; simpl; [done|].
  apply IH. unfold split_quad. destruct (g_graph q) as [|n]; simpl; [done|].
  induction Ha as [|s ss Hs Hss IHs]; simpl.
  - constructor; [apply shelf_key_like|constructor].
  - case_bool_decide; constructor; simpl; done.
Qed.

(** ** The effect of each update *)
Lemma rewrite_sys gs qss G adds drops :
  (∀ i t, (sys_graph_iri i, t) ∈ mjoin qss ↔ adds i t) →
  (∀ i, sys_graph_iri i ∈ gs ↔ drops i) →
  sys_effect G (run_ops (map DropSilent gs ++ map InsertData qss) G) adds drops.
Proof. intros Ha Hd i t. rewrite elem_of_rewrite, Ha. simpl. by rewrite Hd. Qed.

Lemma put_dataset_ops_split r reg dg sh f :
  put_dataset_ops r reg dg sh f =
  map DropSilent (reg ++ map sh_key sh ++ [graph_iri r; sys_graph_iri (graph_iri r)]) ++
  map InsertData
    [in_graph (graph_iri r) dg ++ mjoin (map (λ s, in_graph (sh_key s) (sh_triples s)) sh);
     in_graph (sys_graph_iri (graph_iri r))
       ([present_triple (graph_iri r); media_type_triple (graph_iri r) (format_media_type f)] ++
        mjoin (map (λ s, [Triple (SNamed (graph_iri r)) SYS_HAS_SUBGRAPH (TNamed (sh_key s));
                          Triple (SNamed (sh_key s)) SYS_GRAPH_NAME (TNamed (sh_name s))]) sh))].
Proof. unfold put_dataset_ops. by rewrite !map_app, map_map, <- !app_assoc. Qed.

Lemma shelf_not_web k : shelf_like k → ¬ web k.
Proof. intros [s ->]%starts_with_true. done. Qed.

(** A rewrite of a resource leaves the graphs of the others. *)
Lemma put_dataset_elsewhere r reg d f G g t : Forall shelf_like reg → web g → g ≠ graph_iri r →
  (g, t) ∈ G → (g, t) ∈ run_ops (put_dataset_ops r reg (split_dataset r d).1 (split_dataset r d).2 f) G.
Proof.
  intros Hreg Hg Hne Hin. pose proof (split_keys_like r d) as Hk.
  rewrite Forall_forall in Hreg. rewrite Forall_forall in Hk.
  rewrite put_dataset_ops_split, elem_of_rewrite. right. split; [done|]. cbn [fst].
  rewrite !elem_of_app, !elem_of_cons, elem_of_nil, list_elem_of_fmap.
  intros [Hx|[(x & -> & Hx)|[E|[E|[]]]]]; [by apply Hreg, shelf_not_web in Hx|by apply Hk, shelf_not_web in Hx|done|].
  by apply web_not_sys in E.
Qed.

Lemma put_blob_elsewhere r reg mt G g t : Forall shelf_like reg → web g → g ≠ graph_iri r →
  (g, t) ∈ G → (g, t) ∈ run_ops (put_blob_ops r reg mt) G.
Proof.
  intros Hreg Hg Hne Hin. rewrite Forall_forall in Hreg. apply put_blob_elem. right. split_and!; [done| |done|].
  - by intros Hx%Hreg%shelf_not_web.
  - by apply web_not_sys.
Qed.

Lemma put_dataset_sys r reg d f G :
  web (graph_iri r) → Forall shelf_like reg →
  sys_effect G (run_ops (put_dataset_ops r reg (split_dataset r d).1 (split_dataset r d).2 f) G)
    (λ i t, i = graph_iri r ∧
       (t = present_triple i ∨ t = media_type_triple i (format_media_type f) ∨
        ∃ s, s ∈ (split_dataset r d).2 ∧
          (t = Triple (SNamed i) SYS_HAS_SUBGRAPH (TNamed (sh_key s)) ∨
           t = Triple (SNamed (sh_key s)) SYS_GRAPH_NAME (TNamed (sh_name s)))))
    (λ i, i = graph_iri r).
Proof.
  intros Hw Hreg. pose proof (split_keys_like r d) as Hk. rewrite Forall_forall in Hk.
  destruct (split_dataset r d) as [dg sh]. cbn [fst snd] in *.
  rewrite put_dataset_ops_split.
  apply rewrite_sys.
  - intros i t. cbn [mjoin list_join].
    rewrite app_nil_r, !elem_of_app, !elem_of_in_graph, !list_elem_of_join. cbn [fst snd].
    rewrite elem_of_app, !elem_of_cons, elem_of_nil, list_elem_of_join. split.
    + intros [[[E _]|(l & Hl & (s & -> & Hs)%list_elem_of_fmap)]|[E%sys_graph_inj Ht]].
      * by apply eq_sym, web_not_sys in E.
      * apply elem_of_in_graph in Hl as [E _]. by apply Hk, (shelf_like_not_sys _ i) in Hs.
      * subst i. split; [done|]. destruct Ht as [[?|[?|[]]]|(l & Hl & (s & -> & Hs)%list_elem_of_fmap)]; [auto..|].
        do 2 right. exists s. split; [done|].
        apply elem_of_cons in Hl as [?|[?|[]%elem_of_nil]%elem_of_cons]; auto.
    + intros [-> Ht]. right. split; [done|]. destruct Ht as [?|[?|(s & Hs & Ht)]]; [auto..|]. right.
      eexists. split; [|apply list_elem_of_fmap; eauto]. rewrite !elem_of_cons, elem_of_nil. tauto.
  - intros i. rewrite !elem_of_app, !elem_of_cons, elem_of_nil, list_elem_of_fmap. split.
    + intros [Hr|[(s & E & Hs)|[E|[E%sys_graph_inj|[]]]]].
      * by apply shelves_not_sys in Hr.
      * by apply Hk, (shelf_like_not_sys _ i) in Hs.
      * by apply eq_sym, web_not_sys in E.
      * done.
    + intros ->. auto.
Qed.

Lemma put_blob_sys r reg mt G :
  web (graph_iri r) → Forall shelf_like reg →
  sys_effect G (run_ops (put_blob_ops r reg mt) G)
    (λ i t, i = graph_iri r ∧ t ∈ blob_bookkeeping i mt) (λ i, i = graph_iri r).
Proof.
  intros Hw Hreg i t. rewrite put_blob_elem. split.
  - intros [[->%sys_graph_inj ?]|(? & _ & _ & Hn)]; [by left|]. right. split; [done|]. by intros ->.
  - intros [[-> ?]|[? Hn]]; [by left|]. right. split_and!; [done|by apply shelves_not_sys| |].
    + intros E. by apply eq_sym, web_not_sys in E.
    + by intros ->%sys_graph_inj.
Qed.

(** [insert_marked] and [put_rdf] add the marker. *)
Lemma marked_sys (gs : list string) iri body G :
  web iri → (∀ i, sys_graph_iri i ∉ gs) →
  sys_effect G (run_ops (map DropSilent gs ++ map InsertData [in_graph iri body; [present_at iri]]) G)
    (λ i t, i = iri ∧ t = present_triple iri) (λ _, False).
Proof.
  intros Hw Hgs. apply rewrite_sys.
  - intros i t. cbn [mjoin list_join]. rewrite app_nil_r, elem_of_app, elem_of_in_graph, list_elem_of_singleton.
    cbn [fst snd]. unfold present_at. split.
    + intros [[E _]|E]; [by apply eq_sym, web_not_sys in E|].
      split; [by apply (f_equal fst), sys_graph_inj in E|exact (f_equal snd E)].
    + intros [-> ->]. by right.
  - intros i. split; [apply Hgs|done].
Qed.

Lemma insert_marked_sys iri body G : web iri →
  sys_effect G (run_ops (insert_marked_ops iri body) G) (λ i t, i = iri ∧ t = present_triple iri) (λ _, False).
Proof. intros Hw. apply (marked_sys []); [done|]. by intros i ?%elem_of_nil. Qed.

Lemma put_rdf_sys iri body G : web iri →
  sys_effect G (run_ops (put_rdf_ops iri body) G) (λ i t, i = iri ∧ t = present_triple iri) (λ _, False).
Proof.
  intros Hw. apply (marked_sys [iri]); [done|]. intros i E%list_elem_of_singleton.
  by apply eq_sym, web_not_sys in E.
Qed.

Lemma instantiate_graph g (ps : list gpat) x : x ∈ instantiate (pair g <$> ps) → x.1 = g.
Proof.
  unfold instantiate. intros (y & Hy & E)%list_elem_of_omap.
  apply list_elem_of_fmap in Hy as (p & -> & _). simpl in E.
  destruct (triple_of_gpat p); [|discriminate E]. by injection E as <-.
Qed.

(** A patch stays in its own graph. *)
Lemma patched_other iri dels ins G g t : g ≠ iri → (g, t) ∈ patched iri dels ins G ↔ (g, t) ∈ G.
Proof.
  intros Hne. unfold patched. rewrite elem_of_union, elem_of_difference, !elem_of_list_to_set. split.
  - intros [[? _]|E%instantiate_graph]; done.
  - intros Hg. left. split; [done|]. by intros E%instantiate_graph.
Qed.

Lemma patch_sys iri dels ins guard G : web iri →
  sys_effect G (run_ops (patch_ops iri dels ins guard) G) (λ _ _, False) (λ _, False).
Proof.
  intros Hw i t. rewrite run_patch_ops. destruct (_ && _); [|naive_solver].
  rewrite patched_other; [naive_solver|]. intros E. by apply eq_sym, web_not_sys in E.
Qed.

Lemma delete_rdf_sys iri G : web iri →
  sys_effect G (run_ops (delete_rdf_ops iri) G) (λ _ _, False) (λ i, i = iri).
Proof.
  intros Hw. apply (rewrite_sys [iri; sys_graph_iri iri] []).
  - intros i t. simpl. by rewrite elem_of_nil.
  - intros i. rewrite !elem_of_cons, elem_of_nil. split.
    + intros [E|[E%sys_graph_inj|[]]]; [by apply eq_sym, web_not_sys in E|done].
    + intros ->. auto.
Qed.

(** The guarded write of an auxiliary. *)
Lemma conditional_put_sys (a : AuxUrl) body G : web (graph_iri a) →
  sys_effect G (run_ops (conditional_put_ops a body) G)
    (λ i t, present_at (graph_iri (a_subject a)) ∈ G ∧ i = graph_iri a ∧ t = present_triple i) (λ _, False).
Proof.
  intros Hw i t. unfold conditional_put_ops, subject_present_guard.
  set (g := present_at (graph_iri (a_subject a))). cbn [run_ops foldl run_op].
  assert (all_in [g] G = bool_decide (g ∈ G)) as -> by (simpl; by rewrite andb_true_r).
  assert (∀ i t, (sys_graph_iri i, t) ∈ filter (λ x : located, x.1 ≠ graph_iri a) G ↔ (sys_graph_iri i, t) ∈ G)
    as Hf.
  { intros j u. rewrite elem_of_filter. split; [by intros [_ ?]|]. intros ?. split; [|done]. simpl.
    intros E. by apply eq_sym, web_not_sys in E. }
  case_bool_decide as Hg; cbn [pats_hold forallb andb].
  - assert (all_in [g] (filter (λ x : located, x.1 ≠ graph_iri a) G) = true) as ->.
    { simpl. rewrite bool_decide_eq_true_2; [done|]. unfold g, present_at. apply Hf, Hg. }
    rewrite elem_of_union, elem_of_difference, !elem_of_list_to_set, Hf.
    change (instantiate []) with ([] : list located). rewrite elem_of_nil.
    assert ((sys_graph_iri i, t) ∈ instantiate
      ((pair (graph_iri a) <$> ((λ t0, GPat (term_of_subject (t_subject t0)) (TNamed (t_predicate t0)) (t_object t0)) <$> body))
         ++ [present_pat (graph_iri a)]) ↔ i = graph_iri a ∧ t = present_triple i) as ->.
    { unfold instantiate. rewrite omap_app, elem_of_app. split.
      - intros [E|E].
        + apply instantiate_graph in E. by apply eq_sym, web_not_sys in E.
        + apply list_elem_of_singleton in E. assert (i = graph_iri a) as -> by (by apply (f_equal fst), sys_graph_inj in E).
          split; [done|exact (f_equal snd E)].
      - intros [-> ->]. right. by left. }
    naive_solver.
  - assert (all_in [g] G = false) as -> by (simpl; by rewrite bool_decide_eq_false_2).
    naive_solver.
Qed.

(** What a deletion leaves: everything but the graphs of the subject and of its
    auxiliaries, and the parent's link. *)
Lemma delete_subject_elem s reg ops G x :
  delete_subject_ops reg s = Ok ops →
  x ∈ run_ops ops G ↔
  x ∈ G ∧ x.1 ∉ reg ∧ x.1 ≠ graph_iri s ∧ x.1 ≠ sys_graph_iri (graph_iri s) ∧
  (∀ k, x.1 ≠ graph_iri (aux s k) ∧ x.1 ≠ sys_graph_iri (graph_iri (aux s k))) ∧
  (∀ p, parent s = Some p → x ≠ contains_at (graph_iri p) (graph_iri s)).
Proof.
  set (gs := reg ++ [graph_iri s; sys_graph_iri (graph_iri s);
                     graph_iri (aux s Acl); sys_graph_iri (graph_iri (aux s Acl))]).
  assert (∀ P, x ∈ G ∧ x.1 ∉ gs ∧ P ↔ x ∈ G ∧ x.1 ∉ reg ∧ x.1 ≠ graph_iri s ∧
    x.1 ≠ sys_graph_iri (graph_iri s) ∧
    (∀ k, x.1 ≠ graph_iri (aux s k) ∧ x.1 ≠ sys_graph_iri (graph_iri (aux s k))) ∧ P) as <-.
  { intros P. unfold gs. rewrite elem_of_app, !elem_of_cons, elem_of_nil. split.
    - intros (? & Hn & ?). split_and!; [done|tauto..| |done]. intros []. tauto.
    - intros (? & ? & ? & ? & Hk & ?). pose proof (Hk Acl). tauto. }
  unfold delete_subject_ops.
  assert (map DropSilent reg ++ [DropSilent (graph_iri s); DropSilent (sys_graph_iri (graph_iri s))] ++
    mjoin (map (λ kind, let a := aux s kind in
      [DropSilent (graph_iri a); DropSilent (sys_graph_iri (graph_iri a))]) AuxKind_ALL) =
    map DropSilent gs) as E by (unfold gs; by rewrite map_app).
  cbv zeta in E |- *. rewrite E. destruct (parent s) as [p|] eqn:Ep.
  - unfold containment_removal, node. destruct (iri_valid (graph_iri s)); [|done].
    intros [= <-]. rewrite run_ops_app. cbn [run_ops foldl run_op].
    rewrite elem_of_difference, elem_of_list_to_set, list_elem_of_singleton.
    fold (run_ops (map DropSilent gs) G). rewrite elem_of_drops. split.
    + intros [[? ?] ?]. split_and!; [done..|]. by intros p' [= <-].
    + intros (? & ? & Hp). split; [done|]. by apply Hp.
  - intros [= <-]. rewrite elem_of_drops. split; [|naive_solver]. intros [? ?]. by split_and!.
Qed.

Lemma delete_subject_sys s reg ops G :
  space_wf sp → plain sp s → Forall shelf_like reg → delete_subject_ops reg s = Ok ops →
  sys_effect G (run_ops ops G) (λ _ _, False)
    (λ i, i = graph_iri s ∨ ∃ k, i = graph_iri (aux s k)).
Proof.
  intros Hsp Hs Hreg Hops i t. destruct (id Hs) as [Hin _].
  pose proof (web_not_sys _ i (url_web sp s Hsp Hin)) as W1.
  pose proof (λ k, web_not_sys _ i (aux_web sp s k Hsp Hin)) as W2.
  rewrite (delete_subject_elem s reg ops G _ Hops). cbn [fst]. split.
  - intros (Hx & _ & _ & H1 & H2 & _). right. split; [done|].
    intros [->|[k ->]]; [done|by destruct (H2 k)].
  - intros [[]|[Hx Hn]]. split_and!; [done|by apply shelves_not_sys|by intros E%eq_sym| | |].
    + intros E%sys_graph_inj. auto.
    + intros k. split; [intros E%eq_sym; by apply (W2 k)|]. intros E%sys_graph_inj. eauto.
    + intros p Hp E. apply (f_equal fst) in E. cbn [fst contains_at] in E.
      destruct (plain_parent sp s p Hs Hp) as [Hpin _].
      by apply eq_sym, (web_not_sys _ _ (url_web sp _ Hsp Hpin)) in E.
Qed.

(** ** The invariant *)

(** What an update has to satisfy to keep the invariant: the shelves it
    registers are shelves, the auxiliaries it marks have a subject afterwards,
    and a subject goes with its auxiliaries. *)
Lemma effect_inv G G' adds drops :
  sys_effect G G' adds drops → pod_inv G →
  (∀ i s o, adds i (Triple s SYS_HAS_SUBGRAPH o) → ∃ k, o = TNamed k ∧ shelf_like k) →
  (∀ r k, plain sp r → adds (graph_iri (aux r k)) (present_triple (graph_iri (aux r k))) →
     present_at (graph_iri r) ∈ G') →
  (∀ r k, plain sp r → drops (graph_iri r) →
     present_at (graph_iri r) ∈ G' ∨ drops (graph_iri (aux r k))) →
  (∀ i, drops i ∨ ¬ drops i) →
  pod_inv G'.
Proof.
  intros He [I1 I2] Hs Ha Hd Hdec. split.
  - intros i s o [?|[? _]]%He; [eauto|]. by eapply I1.
  - intros r k Hr [?|[Hp Hn]]%He; [by eapply Ha|]. apply I2 in Hp; [|done].
    destruct (Hdec (graph_iri r)) as [Hx|Hx].
    + destruct (Hd r k Hr Hx) as [?|?]; [done|by destruct Hn].
    + apply He. by right.
Qed.

Lemma present_not_shelf iri s o : Triple s SYS_HAS_SUBGRAPH o ≠ present_triple iri.
Proof. intros E. apply (f_equal t_predicate) in E. cbn [t_predicate present_triple] in E. pred_clash. Qed.

(** The updates of a resource: a rewrite, which leaves it present, and the mark
    of a container. *)
Lemma rewrite_inv G G' r adds : plain sp r →
  sys_effect G G' (λ i t, i = graph_iri r ∧ adds i t) (λ i, i = graph_iri r) → pod_inv G →
  adds (graph_iri r) (present_triple (graph_iri r)) →
  (∀ i s o, adds i (Triple s SYS_HAS_SUBGRAPH o) → ∃ k, o = TNamed k ∧ shelf_like k) → pod_inv G'.
Proof.
  intros Hr He Hinv Hp Hs. apply (effect_inv _ _ _ _ He Hinv).
  - intros i s o [_ ?]; eauto.
  - intros s k Hs' [E _]. by apply (aux_not_plain sp _ _ _ Hr) in E; [|apply (plain_in _ _ Hs')].
  - intros s k _ ->. left. apply He. by left.
  - intros i. destruct (decide (i = graph_iri r)); auto.
Qed.

Lemma marked_inv G G' r : plain sp r →
  sys_effect G G' (λ i t, i = graph_iri r ∧ t = present_triple (graph_iri r)) (λ _, False) → pod_inv G → pod_inv G'.
Proof.
  intros Hr He Hinv. apply (effect_inv _ _ _ _ He Hinv); [| |done|auto].
  - intros i s o [_ E]. by apply present_not_shelf in E.
  - intros s k Hs [E _]. by apply (aux_not_plain sp _ _ _ Hr) in E; [|apply (plain_in _ _ Hs)].
Qed.

Lemma put_dataset_inv r reg d f G : space_wf sp → plain sp r → Forall shelf_like reg → pod_inv G →
  pod_inv (run_ops (put_dataset_ops r reg (split_dataset r d).1 (split_dataset r d).2 f) G).
Proof.
  intros Hsp Hr Hreg Hinv.
  apply (rewrite_inv _ _ _ _ Hr (put_dataset_sys r reg d f G (url_web sp r Hsp (plain_in _ _ Hr)) Hreg) Hinv); [by left|].
  intros i s o [E|[E|(x & Hx & [E|E])]].
  - by apply present_not_shelf in E.
  - apply triple_eq in E as [E _]. pred_clash.
  - apply triple_eq in E as (_ & _ & ->). eexists. split; [done|].
    pose proof (split_keys_like r d) as Hk. rewrite Forall_forall in Hk. by apply Hk.
  - apply triple_eq in E as [E _]. pred_clash.
Qed.

Lemma put_blob_inv r reg mt G : space_wf sp → plain sp r → Forall shelf_like reg → pod_inv G →
  pod_inv (run_ops (put_blob_ops r reg mt) G).
Proof.
  intros Hsp Hr Hreg Hinv.
  apply (rewrite_inv _ _ _ _ Hr (put_blob_sys r reg mt G (url_web sp r Hsp (plain_in _ _ Hr)) Hreg) Hinv); [by left|].
  intros i s o Hm. unfold blob_bookkeeping, media_type_triple in Hm.
  rewrite !elem_of_cons, elem_of_nil, !triple_eq in Hm.
  destruct Hm as [E|[[E _]|[[E _]|[]]]]; [by apply present_not_shelf in E|pred_clash..].
Qed.

Lemma aux_put_inv s k body G : space_wf sp → plain sp s → pod_inv G →
  pod_inv (run_ops (conditional_put_ops (aux s k) body) G).
Proof.
  intros Hsp Hs Hinv. pose proof (conditional_put_sys (aux s k) body G (aux_web sp s k Hsp (plain_in _ _ Hs))) as He.
  apply (effect_inv _ _ _ _ He Hinv); [| |done|auto].
  - intros i s' o (_ & _ & E). by apply present_not_shelf in E.
  - intros r k' Hr (Hp & E & _). apply (aux_graph_inj sp) in E as ->; [|apply (plain_in _ _ Hr)|apply (plain_in _ _ Hs)].
    apply He. right. split; [exact Hp|tauto].
Qed.

Lemma delete_subject_inv s reg ops G : space_wf sp → plain sp s → Forall shelf_like reg →
  delete_subject_ops reg s = Ok ops → pod_inv G → pod_inv (run_ops ops G).
Proof.
  intros Hsp Hs Hreg Hops Hinv.
  apply (effect_inv _ _ _ _ (delete_subject_sys s reg ops G Hsp Hs Hreg Hops) Hinv); [done|done| |].
  - intros r k Hr [E|[k' E]].
    + apply (plain_graph_inj sp) in E as ->; [|apply (plain_in _ _ Hr)|apply (plain_in _ _ Hs)].
      right. right. by exists k.
    + by apply eq_sym, (aux_not_plain sp _ _ _ Hr) in E; [|apply (plain_in _ _ Hs)].
  - intros i. destruct (decide (i = graph_iri s)) as [?|Hn]; [auto|].
    destruct (decide (i = graph_iri (aux s Acl))) as [?|Hn']; [left; right; by exists Acl|].
    right. intros [?|[[] ?]]; done.
Qed.

Lemma pod_step_inv G G' : space_wf sp → pod_step G G' → pod_inv G → pod_inv G'.
Proof.
  intros Hsp Hstep Hinv. pose proof (λ r, url_web sp r Hsp) as W1. pose proof (λ r k, aux_web sp r k Hsp) as W2.
  destruct Hstep as [r reg d f Hr Hreg|r reg mt Hr Hreg|c body Hc _|c body Hc _|r dels ins Hr _|s k body Hs _
                    |s k dels ins Hs _|s k Hs|s reg ops Hs Hreg Hops].
  - by apply put_dataset_inv.
  - by apply put_blob_inv.
  - by apply (marked_inv _ _ _ Hc (insert_marked_sys (graph_iri c) body G (W1 _ (plain_in _ _ Hc)))).
  - by apply (marked_inv _ _ _ Hc (put_rdf_sys (graph_iri c) body G (W1 _ (plain_in _ _ Hc)))).
  - by apply (effect_inv _ _ _ _ (patch_sys (graph_iri r) dels ins [] G (W1 _ (plain_in _ _ Hr))) Hinv); auto.
  - by apply aux_put_inv.
  - by apply (effect_inv _ _ _ _ (patch_sys _ dels ins _ G (W2 s k (plain_in _ _ Hs))) Hinv); auto.
  - apply (effect_inv _ _ _ _ (delete_rdf_sys _ G (W2 s k (plain_in _ _ Hs))) Hinv);
      [done|done| |intros i; destruct (decide (i = graph_iri (aux s k))); auto].
    intros r k' Hr E. by apply eq_sym, (aux_not_plain sp _ _ _ Hr) in E; [|apply (plain_in _ _ Hs)].
  - by eapply delete_subject_inv.
Qed.

(** What the updates preserve holds of every pod they reach. *)
Lemma reachable_inv G : space_wf sp → rtc pod_step ∅ G → pod_inv G.
Proof.
  intros Hsp Hsteps. assert (pod_inv ∅) as He by (split; intros; set_solver).
  revert He. induction Hsteps as [G|G G1 G2 Hs _ IH]; [done|]. intros HG. apply IH. by eapply pod_step_inv.
Qed.

(** No step puts a blank node into the store. *)
Lemma aux_put_storable a body : Forall storable body → inserts_storable (conditional_put_ops a body).
Proof.
  intros Hb. constructor; [by constructor|]. constructor; [|by constructor]. cbn [inserted].
  unfold instantiate. rewrite omap_app. apply Forall_app_2; [|by repeat constructor; apply storable_named].
  induction Hb as [|[s p o] body Ht _ IH]; [by constructor|]. rewrite !fmap_cons. cbn. destruct s as [s|b]; cbn; [|exact IH].
  by constructor.
Qed.

Lemma pod_step_stored G G' : pod_step G G' → stored G → stored G'.
Proof.
  destruct 1 as [r reg d f _ _|r reg mt _ _|c body _ Hb|c body _ Hb|r dels ins _ Hi|s k body _ Hb
                |s k dels ins _ Hi|s k _|s reg ops _ _ Hops]; apply run_ops_stored.
  - apply put_dataset_storable.
  - apply Forall_app_2; [apply drops_storable|]. repeat constructor; by apply storable_named.
  - by repeat constructor; [apply storable_in_graph|apply storable_named].
  - by repeat constructor; [apply storable_in_graph|apply storable_named].
  - by repeat constructor; apply storable_instantiate.
  - by apply aux_put_storable.
  - by repeat constructor; apply storable_instantiate.
  - by repeat constructor.
  - unfold delete_subject_ops in Hops. set (l := _ ++ _) in Hops.
    assert (inserts_storable l) as Hl.
    { apply Forall_app_2; [apply drops_storable|]. by repeat constructor. }
    destruct (parent s) as [p|]; [|by injection Hops as <-]. apply obind_Ok in Hops as (x & Hx & [= <-]).
    apply Forall_app_2; [done|]. unfold containment_removal in Hx. apply obind_Ok in Hx as (c & _ & [= <-]).
    by repeat constructor.
Qed.

Lemma reachable_stored G : rtc pod_step ∅ G → stored G.
Proof.
  intros Hsteps. assert (stored ∅) as He by (intros x Hx; by apply not_elem_of_empty in Hx).
  revert He. induction Hsteps as [G|G G1 G2 Hs _ IH]; [done|]. intros HG. apply IH. by eapply pod_step_stored.
Qed.

(** C3: no policy without a subject.  However the pod's updates interleave, with
    whatever stale registries and solutions their requests read, from an empty
    store every auxiliary that is present belongs to a subject that is present:
    an ACL can neither be planted on a path that names nothing nor outlive the
    resource it governs.  And every graph a registry lists is a shelf, so a
    rewrite never drops a graph that is not one. *)
Theorem no_orphan_auxiliary (Hsp : space_wf sp) (G : gset located) (Hsteps : rtc pod_step ∅ G) :
  (∀ r k, plain sp r → present_at (graph_iri (aux r k)) ∈ G → present_at (graph_iri r) ∈ G) ∧
  (∀ i s o, (sys_graph_iri i, Triple s SYS_HAS_SUBGRAPH o) ∈ G → ∃ k, o = TNamed k ∧ shelf_like k).
Proof.
  destruct (reachable_inv G Hsp Hsteps) as [I1 I2]. by split.
Qed.
End steps.

(** * Deletion *)
Section deletion.
Context {W : Type} `{BackendLaws W} `{IriSyntax} `{HeaderSyntax} `{Hashing} `{ObjectPath}.
Context (sp : StorageSpace) (Hsp : space_wf sp).

Lemma wp_delete_subject s (Φ : outcome ResourceError bool → W → Prop) w :
  let reg_ok ks := ∀ k, k ∈ ks ↔ recorded (graphs w) (sys_graph_iri (graph_iri s)) (graph_iri s)
                                   SYS_HAS_SUBGRAPH (TNamed k) in
  (∀ ks ops w', reg_ok ks → delete_subject_ops ks s = Ok ops → graphs w' = run_ops ops (graphs w) →
     objects w' = drop_object s (objects w) →
     Φ (Ok (bool_decide (present_at (graph_iri s) ∈ graphs w))) w') →
  (∀ e w', same w w' → Φ (Err e) w') →
  (∀ ks ops e w', reg_ok ks → delete_subject_ops ks s = Ok ops → graphs w' = run_ops ops (graphs w) →
     objects w' = objects w ∨ objects w' = drop_object s (objects w) → Φ (Err e) w') →
  wp (delete_subject s) Φ w.
Proof.
  cbn zeta. intros Hok Hsame Hup. unfold delete_subject.
  apply wp_bind, wp_exists; [|by auto]. intros w1 Hs1.
  apply wp_bind, wp_registered.
  2:{ intros e w2 Hs2. apply Hsame. by eapply same_trans. }
  intros ks w2 Hs2 _ Hks. pose proof (same_trans _ _ _ Hs1 Hs2) as Hs. destruct Hs1 as [G1 O1].
  assert (∀ k, k ∈ ks ↔ recorded (graphs w) (sys_graph_iri (graph_iri s)) (graph_iri s)
    SYS_HAS_SUBGRAPH (TNamed k)) as Hreg by (intros k; rewrite <- G1; apply Hks).
  apply wp_bind, wp_lift. destruct (delete_subject_ops ks s) as [ops|e|] eqn:Eo.
  - destruct Hs as [G2 O2]. apply wp_bind, wp_store_op, wp_update.
    + intros w3 G3 O3. rewrite G2 in G3. rewrite O2 in O3. apply wp_bind, wp_drop_blob.
      * intros w4 G4 O4. apply wp_ret, (Hok ks ops); [done|done|by rewrite G4|by rewrite O4, O3].
      * intros e w4 G4 O4. apply (Hup ks ops); [done|done|by rewrite G4|by rewrite <- O3].
    + intros e w3 [G3|G3] O3.
      * apply Hsame. split; [by rewrite G3|by rewrite O3].
      * apply (Hup ks ops); [done|done|by rewrite G3, G2|left; by rewrite O3].
  - by apply Hsame.
  - exfalso. revert Eo. unfold delete_subject_ops, containment_removal, node.
    destruct (parent s); [|done]. by destruct (iri_valid _).
Qed.

(** Nothing of a resource is left. *)
Record erased (G : gset located) (s : ResourceUrl) : Prop := {
  er_content t : (graph_iri s, t) ∉ G;
  er_sys t : (sys_graph_iri (graph_iri s), t) ∉ G;
  er_aux k t : (graph_iri (aux s k), t) ∉ G ∧ (sys_graph_iri (graph_iri (aux s k)), t) ∉ G;
  er_link p : parent s = Some p → contains_at (graph_iri p) (graph_iri s) ∉ G
}.

(** The map names resources: no container, no auxiliary. *)
Definition resources_only (abs : gmap string (Skolemized * Format)) : Prop :=
  ∀ i, is_Some (abs !! i) → ∃ r, plain sp r ∧ ends_with "/" (r_path r) = false ∧ i = graph_iri r.

Lemma not_parent s p r :
  url_in sp s → parent s = Some p → url_in sp r → ends_with "/" (r_path r) = false → graph_iri p ≠ graph_iri r.
Proof.
  intros Hs Hp Hr Hn E. destruct (parent_Some sp s p Hs Hp) as (Hin & He & _).
  apply (plain_graph_inj sp) in E; [|done..]. unfold c_path in He. congruence.
Qed.

Lemma delete_erased s ks ops G : delete_subject_ops ks s = Ok ops → erased (run_ops ops G) s.
Proof.
  intros Hops. pose proof (λ x, delete_subject_elem s ks ops G x Hops) as He.
  split; intros; [| |split|]; rewrite He; cbn [fst].
  - by intros (_ & _ & ? & _).
  - by intros (_ & _ & _ & ? & _).
  - intros (_ & _ & _ & _ & Hk & _). by destruct (Hk k).
  - intros (_ & _ & _ & _ & Hk & _). by destruct (Hk k).
  - intros (_ & _ & _ & _ & _ & Hp). by apply (Hp p).
Qed.

(** A deletion keeps the triples of every graph that is not of the subject, of
    its registry or of its parent. *)
Lemma delete_other s ks ops G g t :
  delete_subject_ops ks s = Ok ops →
  g ∉ ks → g ≠ graph_iri s → g ≠ sys_graph_iri (graph_iri s) →
  (∀ k, g ≠ graph_iri (aux s k) ∧ g ≠ sys_graph_iri (graph_iri (aux s k))) →
  (∀ p, parent s = Some p → g ≠ graph_iri p) →
  (g, t) ∈ run_ops ops G ↔ (g, t) ∈ G.
Proof.
  intros Hops G1 G2 G3 G4 G5. rewrite (delete_subject_elem s ks ops G _ Hops). cbn [fst].
  split; [by intros [? _]|]. intros Hg. split_and!; try done.
  intros p Hp E. apply (G5 p Hp). by apply (f_equal fst) in E.
Qed.

Lemma delete_frame s ks ops G r d f :
  plain sp s → plain sp r → ends_with "/" (r_path r) = false → graph_iri r ≠ graph_iri s →
  delete_subject_ops ks s = Ok ops →
  (∀ k, k ∈ ks → ∃ n, k = key_at (graph_iri s) n) →
  (∀ n, n ∈ sk_named_graphs d → key_at (graph_iri r) n ∉ ks) →
  dataset_at G (graph_iri r) d f → dataset_at (run_ops ops G) (graph_iri r) d f.
Proof.
  intros Hs Hr Hnc Hne Hops Hks Hkd [H1' H2' H3'].
  destruct (id Hs) as [Hin _]. destruct (id Hr) as [Hrin _].
  pose proof (url_web sp s Hsp Hin) as W1. pose proof (λ k, aux_web sp s k Hsp Hin) as W2.
  pose proof (url_web sp r Hsp Hrin) as Wr. pose proof (λ k, aux_not_plain sp r s k Hr Hin) as Hra.
  assert (∀ p, parent s = Some p → web (graph_iri p)) as Wp
    by (intros p Hp; apply (url_web sp _ Hsp), (plain_in _ _ (plain_parent sp s p Hs Hp))).
  split; intros; rewrite (delete_other s ks ops G _ _ Hops); auto.
  - intros (n & E)%Hks. by apply (web_not_key _ _ _ Wr) in E.
  - by apply web_not_sys.
  - intros k. split; [intros E; by apply (Hra k)|by apply web_not_sys].
  - intros p Hp E. by apply eq_sym, (not_parent s p r Hin Hp Hrin Hnc) in E.
  - intros E. by apply eq_sym, (web_not_key _ _ _ W1) in E.
  - intros k. split; [|done]. intros E. by apply eq_sym, (web_not_key _ _ _ (W2 k)) in E.
  - intros p Hp E. by apply eq_sym, (web_not_key _ _ _ (Wp p Hp)) in E.
  - intros (n & E)%Hks. by apply sys_not_key in E.
  - intros E. by apply eq_sym, (web_not_sys _ _ W1) in E.
  - by intros E%sys_graph_inj.
  - intros k. split; [|intros E%sys_graph_inj; by apply (Hra k)].
    intros E. by apply eq_sym, (web_not_sys _ _ (W2 k)) in E.
  - intros p Hp E. by apply eq_sym, (web_not_sys _ _ (Wp p Hp)) in E.
Qed.

(** C13: a deletion erases a resource.  [delete_subject] answers [Ok] with whether
    the resource was there, and only once nothing of it is left: not its graph,
    its shelves, its record, any auxiliary, its parent's link or its object;
    the store then represents the map without it, so every other resource is
    untouched.  When it fails, the store represents the old map, or the
    resource is erased and only its object may remain. *)
Theorem delete_subject_refines (abs : gmap string (Skolemized * Format)) (s : ResourceUrl)
    (d : Skolemized) (f : Format) (w : W)
    (Hs : plain sp s) (HR : Rep (graphs w) abs) (Habs : abs !! graph_iri s = Some (d, f))
    (Honly : resources_only abs) (Hkd : keys_distinct abs (graph_iri s) d) :
  wp (delete_subject s) (λ o w',
    let gone := Rep (graphs w') (delete (graph_iri s) abs) ∧ erased (graphs w') s ∧
                ∀ n t, n ∈ sk_named_graphs d → (key_at (graph_iri s) n, t) ∉ graphs w' in
    match o with
    | Ok existed => existed = true ∧ gone ∧ objects w' = drop_object s (objects w)
    | Err _ => same w w' ∨ gone
    | Panicked => False
    end) w.
Proof.
  pose proof (HR _ _ _ Habs) as Hat.
  assert (∀ ks ops, (∀ k, k ∈ ks ↔ recorded (graphs w) (sys_graph_iri (graph_iri s)) (graph_iri s)
                                      SYS_HAS_SUBGRAPH (TNamed k)) →
    delete_subject_ops ks s = Ok ops →
    Rep (run_ops ops (graphs w)) (delete (graph_iri s) abs) ∧ erased (run_ops ops (graphs w)) s ∧
    ∀ n t, n ∈ sk_named_graphs d → (key_at (graph_iri s) n, t) ∉ run_ops ops (graphs w)) as Hgone.
  { intros ks ops Hks Hops. setoid_rewrite (recorded_shelves _ _ d f _ Hat) in Hks.
    split_and!; [|by eapply delete_erased|].
    - intros i d' f' [Hne Hl]%lookup_delete_Some.
      destruct (Honly i ltac:(by eexists)) as (r & Hr & Hnc & ->).
      apply (delete_frame s ks ops); [done..| | | |by apply HR].
      + done.
      + intros k (n & _ & ->)%Hks. eauto.
      + intros n Hn (m & Hm & E)%Hks. apply Hne.
        destruct (Hkd (graph_iri s) m (graph_iri r) n) as [-> _]; [by right|left; eauto|done|done].
    - intros n t Hn. rewrite (delete_subject_elem s ks ops _ _ Hops). intros (_ & Hk & _).
      apply Hk, Hks. eauto. }
  apply wp_delete_subject; cbn zeta.
  - intros ks ops w' Hks Hops -> ->. split_and!; [|by eapply Hgone|by eapply Hgone|by eapply Hgone|done].
    apply bool_decide_eq_true_2, (at_sys _ _ _ _ Hat), bookkeeping_elem. by left.
  - intros e w' Hs'. by left.
  - intros ks ops e w' Hks Hops -> _. right. by eapply Hgone.
Qed.

(** ** Writing an auxiliary *)

Lemma instantiate_ground iri (qs : list GroundQuad) :
  instantiate (pair iri <$> ((λ t, GPat (term_of_subject (t_subject t)) (TNamed (t_predicate t)) (t_object t)) <$>
                             map triple_of_ground qs)) = in_graph iri (map triple_of_ground qs).
Proof. unfold instantiate, in_graph. induction qs as [|q qs IH]; [done|]. simpl. f_equal. apply IH. Qed.

(** The guarded update, on the content of the auxiliary. *)
Lemma conditional_put_run (a : AuxUrl) (qs : list GroundQuad) G :
  web (graph_iri a) →
  run_ops (conditional_put_ops a (map triple_of_ground qs)) G =
  if bool_decide (present_at (graph_iri (a_subject a)) ∈ G)
  then filter (λ x, x.1 ≠ graph_iri a) G ∪
       list_to_set (in_graph (graph_iri a) (map triple_of_ground qs) ++ [present_at (graph_iri a)])
  else G.
Proof.
  intros Hw. unfold conditional_put_ops, subject_present_guard.
  set (g := present_at (graph_iri (a_subject a))). cbn [run_ops foldl run_op].
  assert (∀ G', all_in [g] G' = bool_decide (g ∈ G')) as Hall by (intros; simpl; by rewrite andb_true_r).
  rewrite Hall. case_bool_decide as Hg; cbn [pats_hold forallb andb].
  - rewrite Hall, bool_decide_eq_true_2.
    2:{ apply elem_of_filter. split; [|done]. intros E. cbn [fst g present_at] in E.
        by apply eq_sym, web_not_sys in E. }
    assert (∀ l l', instantiate (l ++ l') = instantiate l ++ instantiate l') as Happ
      by (intros; apply omap_app).
    rewrite Happ, instantiate_ground.
    change (instantiate []) with ([] : list located). by rewrite list_to_set_nil, difference_empty_L.
  - by rewrite Hall, bool_decide_eq_false_2.
Qed.

(** C21: an auxiliary is written whole, under its subject, within its bound.  In
    any state the pod reaches, [put] answers [Ok] only if the subject is there
    and the auxiliary's graph is then exactly the skolemized body;
    [SubjectMissing] only if the subject is not there, with nothing written; a
    body above [MAX_AUX_TRIPLES] is refused with its size before any call; a
    store failure leaves the old graphs or the new.  It never asks for an
    auxiliary that must already exist. *)
Theorem aux_put_spec (uuid : nat → string) (s : ResourceUrl) (k : AuxKind) (triples : list triple) (w : W)
    (Hs : plain sp s) (Hinv : pod_inv sp (graphs w)) :
  let a := aux s k in
  let body := map triple_of_ground (skolemize uuid (as_quads triples)) in
  let written (w' : W) := present_at (graph_iri s) ∈ graphs w ∧ present_at (graph_iri a) ∈ graphs w' ∧
                          ∀ t, (graph_iri a, t) ∈ graphs w' ↔ t ∈ body in
  wp (aux_put uuid a triples) (λ o w',
    match o with
    | Ok _ => length triples <= MAX_AUX_TRIPLES ∧ written w'
    | Err (TooLarge n) => n = length triples ∧ MAX_AUX_TRIPLES < n ∧ w' = w
    | Err SubjectMissing => present_at (graph_iri s) ∉ graphs w ∧ same w w'
    | Err (AuxResource _) => graphs w' = graphs w ∨ written w'
    | Err AuxMissing | Panicked => False
    end) w.
Proof.
  cbn zeta. set (a := aux s k). set (body := map triple_of_ground _).
  assert (web (graph_iri a)) as Hw by (apply (aux_web sp), (plain_in _ _ Hs); done).
  assert (run_ops (conditional_put_update uuid a triples) (graphs w) =
    if bool_decide (present_at (graph_iri s) ∈ graphs w)
    then filter (λ x, x.1 ≠ graph_iri a) (graphs w) ∪
         list_to_set (in_graph (graph_iri a) body ++ [present_at (graph_iri a)])
    else graphs w) as Hrun by (by apply conditional_put_run).
  assert (∀ G', G' = run_ops (conditional_put_update uuid a triples) (graphs w) →
    present_at (graph_iri s) ∈ graphs w →
    present_at (graph_iri a) ∈ G' ∧ ∀ t, (graph_iri a, t) ∈ G' ↔ t ∈ body) as Hwr.
  { intros G' -> Hp. rewrite Hrun, bool_decide_eq_true_2 by done. split; [set_solver|].
    intros t. rewrite elem_of_union, elem_of_filter, elem_of_list_to_set, elem_of_app, elem_of_in_graph,
      list_elem_of_singleton. cbn [fst snd]. split; [|auto].
    intros [[? _]|[[_ ?]|E]]; [done|done|]. apply (f_equal fst) in E. by apply web_not_sys in E. }
  unfold aux_put. destruct (Nat.ltb MAX_AUX_TRIPLES (length triples)) eqn:El.
  { apply wp_throw. apply Nat.ltb_lt in El. done. }
  apply Nat.ltb_ge in El. apply wp_bind, wp_map_err, wp_store_op, wp_update.
  - intros w1 G1 O1. apply wp_bind, wp_map_err, wp_exists.
    + intros w2 [G2 O2]. cbn [omap_err]. rewrite <- G2 in G1.
      destruct (decide (present_at (graph_iri s) ∈ graphs w)) as [Hp|Hp].
      * destruct (Hwr _ G1 Hp) as [Ha Hc]. rewrite bool_decide_eq_true_2 by (by rewrite <- G2).
        apply wp_ret. done.
      * rewrite Hrun, bool_decide_eq_false_2 in G1 by done.
        rewrite bool_decide_eq_false_2.
        2:{ rewrite <- G2, G1. intros Ha. apply Hp. by apply (inv_aux _ _ Hinv s k Hs). }
        apply wp_throw. split; [done|]. split; [done|by rewrite O2, O1].
    + intros e w2 [G2 _]. cbn [omap_err]. rewrite <- G2 in G1.
      destruct (decide (present_at (graph_iri s) ∈ graphs w)) as [Hp|Hp]; [right|left].
      * split; [done|]. by apply Hwr.
      * by rewrite Hrun, bool_decide_eq_false_2 in G1.
  - intros e w1 [G1|G1] _; [by left|].
    destruct (decide (present_at (graph_iri s) ∈ graphs w)) as [Hp|Hp]; [right|left].
    + split; [done|]. by apply Hwr.
    + by rewrite Hrun, bool_decide_eq_false_2 in G1.
Qed.

(** ** Bytes and their record *)

(** A record that says bytes has the bytes. *)
Definition blob_safe (r : ResourceUrl) (w : W) : Prop :=
  binary_at (graphs w) (graph_iri r) → ∃ k, blob_key_of r = Some k ∧ is_Some (objects w !! k).

(** The operations that write or remove a resource. *)
Inductive resource_op : Type :=
| OpPutDataset (r : ResourceUrl) (d : Skolemized) (f : Format)
| OpPutBlob (r : ResourceUrl) (bytes : string) (mt : MediaType)
| OpDelete (r : ResourceUrl).

Definition op_url (o : resource_op) : ResourceUrl :=
  match o with OpPutDataset r _ _ | OpPutBlob r _ _ | OpDelete r => r end.

Definition run_resource_op (o : resource_op) : M W ResourceError unit :=
  match o with
  | OpPutDataset r d f => put_dataset r d f
  | OpPutBlob r bytes mt => put_blob r bytes mt
  | OpDelete r => do! delete_subject r in ret tt
  end.

(** Requests one after the other, each of them answered whatever it met. *)
Fixpoint run_all (l : list resource_op) (w : W) : W :=
  match l with
  | [] => w
  | o :: l => run_all l (run_resource_op o w).2
  end.

Lemma put_dataset_binary r reg d f G iri :
  web (graph_iri r) →
  binary_at (run_ops (put_dataset_ops r reg (split_dataset r d).1 (split_dataset r d).2 f) G) iri →
  binary_at G iri ∧ iri ≠ graph_iri r.
Proof.
  intros Hw Hb.
  assert (put_dataset_ops r reg (split_dataset r d).1 (split_dataset r d).2 f =
    map DropSilent reg ++ put_dataset_ops r [] (split_dataset r d).1 (split_dataset r d).2 f) as E by done.
  unfold binary_at, recorded in Hb. rewrite E, run_ops_app in Hb.
  apply (put_dataset_sys r [] d f _ Hw) in Hb; [|constructor].
  destruct Hb as [[_ [E'|[E'|(s & _ & [E'|E'])]]]|[Hb Hn]]; [apply triple_eq in E' as [E' _]; pred_clash..|].
  split; [|done]. by apply elem_of_drops in Hb as [? _].
Qed.

Lemma put_blob_binary r reg mt G iri :
  binary_at (run_ops (put_blob_ops r reg mt) G) iri → binary_at G iri ∨ iri = graph_iri r.
Proof.
  intros [[E _]|[? _]]%put_blob_elem; [right; by apply sys_graph_inj in E|by left].
Qed.

Lemma delete_subject_binary s reg ops G iri :
  delete_subject_ops reg s = Ok ops → binary_at (run_ops ops G) iri → binary_at G iri ∧ iri ≠ graph_iri s.
Proof.
  intros Hops (Hb & _ & _ & Hn & _)%(delete_subject_elem s reg ops G _ Hops). cbn [fst] in Hn.
  split; [done|]. by intros ->.
Qed.

Section blobs.
Context (U : ResourceUrl → Prop) (HU : ∀ r, U r → plain sp r).
Context (Hkeys : ∀ r r' k, U r → U r' → blob_key_of r = Some k → blob_key_of r' = Some k → r = r').

Lemma safe_drop r r' O k :
  U r → U r' → graph_iri r' ≠ graph_iri r → blob_key_of r' = Some k →
  is_Some (O !! k) → is_Some (drop_object r O !! k).
Proof.
  intros Hr Hr' Hne Hk HO. unfold drop_object. destruct (blob_key_of r) as [k'|] eqn:Ek; [|done].
  rewrite lookup_delete_ne; [done|]. intros ->. apply Hne. by rewrite (Hkeys r r' k).
Qed.

(** What a call does to the stores keeps [r]: it drops a record before its
    object, or inserts an object before its record. *)
Lemma dropped_safe u r (w w' : W) : U r → (∀ r, U r → blob_safe r w) →
  (binary_at (graphs w') (graph_iri r) → binary_at (graphs w) (graph_iri r) ∧ graph_iri r ≠ graph_iri u) →
  objects w' = objects w ∨ objects w' = drop_object u (objects w) → U u → blob_safe r w'.
Proof.
  intros Hr Hw Hb HO Hu Hb'. apply Hb in Hb' as [Hb' Hne]. destruct (Hw r Hr Hb') as (k & Hk & Hs).
  exists k. split; [done|]. destruct HO as [-> | ->]; [done|]. by apply safe_drop with r.
Qed.

Lemma inserted_safe u r key bytes (w w' : W) : U r → (∀ r, U r → blob_safe r w) → U u →
  blob_key_of u = Some key →
  (binary_at (graphs w') (graph_iri r) → binary_at (graphs w) (graph_iri r) ∨
     (graph_iri r = graph_iri u ∧ objects w' = <[key := bytes]> (objects w))) →
  objects w' = objects w ∨ objects w' = <[key := bytes]> (objects w) → blob_safe r w'.
Proof.
  intros Hr Hw Hu Hkey Hb HO Hb'. destruct (Hb Hb') as [Hb2|[E HO']].
  - destruct (Hw r Hr Hb2) as (k & Hk & Hs). exists k. split; [done|].
    destruct HO as [-> | ->]; [done|]. by apply lookup_insert_is_Some'; right.
  - apply (plain_graph_inj sp) in E as ->; [|apply HU; done..].
    exists key. split; [done|]. rewrite HO', lookup_insert_eq. eauto.
Qed.

Lemma run_resource_op_safe o (w : W) :
  U (op_url o) → (∀ r, U r → blob_safe r w) → ∀ r, U r → blob_safe r (run_resource_op o w).2.
Proof.
  intros Ho Hw r Hr.
  pose proof (λ w' Hb HO, dropped_safe (op_url o) r w w' Hr Hw Hb HO Ho) as Hdrop.
  pose proof (λ w' key bytes, inserted_safe (op_url o) r key bytes w w' Hr Hw Ho) as Hput.
  assert (∀ w', same w w' → blob_safe r w') as Hsame.
  { intros w' [G1 O1] Hb. rewrite G1 in Hb. rewrite O1. by apply Hw. }
  destruct o as [u d f|u bytes mt|u]; simpl in *.
  - change (wp (put_dataset u d f) (λ _ w', blob_safe r w') w).
    pose proof (url_web sp u Hsp (plain_in _ _ (HU u Ho))) as Wu.
    apply wp_put_dataset; cbn zeta.
    + intros ks w' _ _ G' O'. apply Hdrop; [rewrite G'; by apply put_dataset_binary|by right].
    + intros w' _ Hs'. by apply Hsame.
    + intros ks e w' _ [G'|G'] O'; [by apply Hsame|].
      apply Hdrop; [rewrite G'; by apply put_dataset_binary|by left].
    + intros ks e w' _ G' O'. apply Hdrop; [rewrite G'; by apply put_dataset_binary|done].
  - change (wp (put_blob u bytes mt) (λ _ w', blob_safe r w') w). apply wp_put_blob; cbn zeta.
    + intros ks key w' _ Hk G' O'. apply (Hput w' key bytes Hk); [|by right].
      rewrite G'. intros [?|?]%put_blob_binary; auto.
    + intros _. by apply Hsame.
    + intros key e w' Hk G' O' _. apply (Hput w' key bytes Hk); [|done]. rewrite G'. auto.
    + intros ks key e w' _ Hk G' O'. apply (Hput w' key bytes Hk); [|by right].
      rewrite G'. intros [?|?]%put_blob_binary; auto.
  - change (wp (do! delete_subject u in ret tt) (λ _ w', blob_safe r w') w).
    apply wp_bind, wp_delete_subject; cbn zeta.
    + intros ks ops w' _ Hops G' O'. apply wp_ret. apply Hdrop; [|by right].
      rewrite G'. by apply delete_subject_binary with ks.
    + intros e w' Hs'. by apply Hsame.
    + intros ks ops e w' _ Hops G' O'. apply Hdrop; [|done].
      rewrite G'. by apply delete_subject_binary with ks.
Qed.
End blobs.

(** C16: a record of bytes always has its bytes.  Over any sequence of writes and
    deletions of resources, each of which may fail at any call to either
    store and may then have taken effect or not, a resource whose record says
    it is binary has an object under its storage key: the order in which
    [put_blob], [put_dataset] and [delete_subject] touch the two stores leaves
    at worst an object that no record names, never a record without object. *)
Theorem blob_never_dangles (U : ResourceUrl → Prop) (l : list resource_op) (w : W)
    (HU : ∀ r, U r → plain sp r)
    (Hkeys : ∀ r r' k, U r → U r' → blob_key_of r = Some k → blob_key_of r' = Some k → r = r')
    (Hl : Forall (λ o, U (op_url o)) l) (Hw : ∀ r, U r → blob_safe r w) :
  ∀ r, U r → blob_safe r (run_all l w).
Proof.
  revert w Hw. induction Hl as [|o l Ho _ IH]; intros w Hw; [done|]. simpl.
  apply IH. intros r Hr. by apply (run_resource_op_safe U).
Qed.
End deletion.

(** * Witnesses *)
Section witness.
#[local] Existing Instance toy_iri.
#[local] Existing Instance toy_header.
#[local] Existing Instance toy_hash.
#[local] Existing Instance toy_path.

Definition toy_space : StorageSpace := mkSpace "https://pod.example/".

Lemma toy_space_wf : space_wf toy_space.
Proof. reflexivity. Qed.

Lemma toy_url_plain : plain toy_space toy_url.
Proof. split; [split; [by exists "box"|reflexivity]|reflexivity]. Qed.

(** Bytes that arrive while the store goes down after the commit, then a
    dataset whose clean-up of the object fails, then a deletion. *)
Lemma blob_never_dangles_witness :
  blob_safe toy_url (run_all [OpPutBlob toy_url "bytes" toy_png; OpPutDataset toy_url toy_dataset Turtle;
                              OpDelete toy_url]
                       (empty_mem [None; None; Some FailAfter; None; None; Some FailBefore])).
Proof.
  apply (blob_never_dangles toy_space toy_space_wf (λ r, r = toy_url)); [..|reflexivity].
  - intros r ->. apply toy_url_plain.
  - intros r r' k -> -> _ _. reflexivity.
  - repeat constructor.
  - intros r -> Hb. exfalso. exact (not_elem_of_empty (C := gset located) _ Hb).
Defined.

(** The root is created, given an ACL, and a child of it deleted. *)
Lemma no_orphan_auxiliary_witness :
  let root := mkResourceUrl "/" "https://pod.example/" in
  ∃ G, rtc (pod_step toy_space) ∅ G ∧ present_at (graph_iri (aux root Acl)) ∈ G ∧
       present_at (graph_iri root) ∈ G.
Proof.
  intros root. assert (Hroot : plain toy_space root).
  { split; [split; [by exists ""|reflexivity]|reflexivity]. }
  set (G1 := run_ops (insert_marked_ops (graph_iri (mkContainerUrl root)) []) ∅).
  set (G2 := run_ops (conditional_put_ops (aux root Acl) []) G1).
  assert (rtc (pod_step toy_space) ∅ G2) as Hsteps.
  { apply rtc_l with G1; [by apply (step_insert_marked _ _ (mkContainerUrl root)); [|constructor]|].
    apply rtc_once. by apply (step_aux_put _ _ root Acl); [|constructor]. }
  set (ops := insert_marked_ops (graph_iri (mkContainerUrl root)) [] ++ conditional_put_ops (aux root Acl) []).
  assert (present_at (graph_iri (aux root Acl)) ∈ G2) as Hp.
  { assert (G2 = set_of (mem_run ops [])) as -> by (rewrite mem_run_spec; unfold ops; rewrite run_ops_app; reflexivity).
    apply elem_of_set_of, (bool_decide_eq_true_1 _). vm_compute. reflexivity. }
  exists G2. split; [exact Hsteps|]. split; [exact Hp|].
  exact (proj1 (no_orphan_auxiliary toy_space toy_space_wf G2 Hsteps) root Acl Hroot Hp).
Defined.

Lemma delete_subject_refines_witness :
  ∃ w', delete_subject toy_url toy_stored = (Ok true, w') ∧ erased (graphs w') toy_url.
Proof.
  set (abs := {[graph_iri toy_url := (toy_dataset, Turtle)]} : gmap string (Skolemized * Format)).
  assert (abs !! graph_iri toy_url = Some (toy_dataset, Turtle)) as Habs by done.
  assert (resources_only toy_space abs) as Honly.
  { intros i [x Hx]. apply lookup_singleton_Some in Hx as [<- _]. exists toy_url.
    split; [apply toy_url_plain|split; reflexivity]. }
  assert (keys_distinct abs (graph_iri toy_url) toy_dataset) as Hkd.
  { apply toy_keys_distinct. intros i d f Hl. apply lookup_singleton_Some in Hl as [<- Hp].
    split; [reflexivity|]. exact (eq_sym (f_equal fst Hp)). }
  pose proof (delete_subject_refines toy_space toy_space_wf abs toy_url toy_dataset Turtle toy_stored
    toy_url_plain toy_stored_rep Habs Honly Hkd) as Hx. unfold wp in Hx.
  assert ((delete_subject toy_url toy_stored).1 = Ok true) as Eo by (vm_compute; reflexivity).
  destruct (delete_subject toy_url toy_stored) as [o w']. cbn [fst snd] in Hx, Eo. subst o.
  destruct Hx as (_ & (_ & He & _) & _). exists w'. split; [reflexivity|exact He].
Defined.

(** An ACL of one triple for a resource that is there. *)
Lemma aux_put_spec_witness :
  let acl := [Triple (SNamed "urn:s") "urn:p" (TNamed "urn:o")] in
  pod_inv toy_space (graphs toy_stored) ∧
  ∃ w', aux_put toy_uuid (aux toy_url Acl) acl toy_stored = (Ok tt, w') ∧
        ∀ t, (graph_iri (aux toy_url Acl), t) ∈ graphs w' ↔ t ∈ acl.
Proof.
  intros acl. assert (Hinv : pod_inv toy_space (graphs toy_stored)).
  { rewrite toy_stored_graphs. refine (pod_step_inv toy_space ∅ _ toy_space_wf
      (step_put_dataset toy_space ∅ toy_url [] toy_dataset Turtle toy_url_plain ltac:(constructor)) _).
    split; [intros i s o Hx|intros r k Hr Hx]; exfalso; exact (not_elem_of_empty (C := gset located) _ Hx). }
  split; [exact Hinv|].
  pose proof (aux_put_spec toy_space toy_space_wf toy_uuid toy_url Acl acl toy_stored toy_url_plain Hinv) as Hx.
  unfold wp in Hx. cbn zeta in Hx.
  assert ((aux_put toy_uuid (aux toy_url Acl) acl toy_stored).1 = Ok tt) as Eo by (vm_compute; reflexivity).
  destruct (aux_put toy_uuid (aux toy_url Acl) acl toy_stored) as [o w']. cbn [fst snd] in Hx, Eo. subst o.
  exists w'. split; [reflexivity|]. destruct Hx as (_ & _ & _ & Hc). exact Hc.
Defined.
End witness.
