(* ===== verification/Guard.v ===== *)
(** Policy retrieval, enforcement and provisioning ([wac/prp.rs],
    [wac/guard.rs], [wac/provision.rs]). *)
From S2P Require Import Prelude Str Terms Space Rdf Dataset Pdp Patch Store Mem Resource Container Auxiliary.
Open Scope list_scope.

Inductive Denial : Type :=
| Unauthenticated
| Forbidden
| AuxSubjectMissing
| SlashPair
| StoreDenial (e : ResourceError).

Definition deny (agent : Agent) : Denial :=
  match agent with Public => Unauthenticated | WebId _ => Forbidden end.

Definition required_mode_for_aux (kind : AuxKind) : Mode :=
  match kind with Acl => Control end.

(** * [prp] *)

(** The ACLs of the chain that are present, with what they govern. *)
Definition governed_by (chain : list ResourceUrl) (present : gset string) : gmap string string :=
  foldl (λ governed element,
    let acl_iri := graph_iri (aux element Acl) in
    if bool_decide (acl_iri ∈ present) then <[acl_iri := graph_iri element]> governed else governed)
    ∅ chain.

(** The [VALUES] of the query, in the order of the chain. *)
Definition acl_values (chain : list ResourceUrl) (present : gset string) : list string :=
  filter (λ iri, iri ∈ present) ((λ element, graph_iri (aux element Acl)) <$> chain).

Definition subject_of_term (t : term) : option named_or_blank :=
  match t with
  | TNamed n => Some (SNamed n)
  | TBlank b => Some (SBlank b)
  | _ => None
  end.

(** One row of the query's answer: the governed resource and the triple. *)
Definition acl_row (governed : gmap string string) (row : solution) : option (string * triple) :=
  g ← (t ← row !! "g"; match t with TNamed g => Some g | _ => None end);
  s ← row !! "s";
  p ← row !! "p";
  o ← row !! "o";
  subject ← subject_of_term s;
  key ← governed !! g;
  match p with TNamed predicate => Some (key, Triple subject predicate o) | _ => None end.

Definition push_acl (out : gmap string (list triple)) (x : string * triple) : gmap string (list triple) :=
  <[x.1 := default [] (out !! x.1) ++ [x.2]]> out.

Definition seed_acls (governed : gmap string string) : gmap string (list triple) :=
  list_to_map ((λ x, (x.2, [])) <$> map_to_list governed).

(** * The guard *)
Record Guard : Type := mkGuard {
  g_agent : Agent;
  g_target : Target;
  g_chain : list ResourceUrl;
  g_present : gset string;
  g_acls : gmap string (list triple)
}.

Definition chain_of (subject : ResourceUrl) : list ResourceUrl :=
  subject :: (as_resource <$> ancestors subject).

(** Everything the request may ask about. *)
Definition candidates (chain : list ResourceUrl) : list string :=
  (graph_iri <$> chain) ++
  (chain ≫= λ r, (λ k, graph_iri (aux r k)) <$> AuxKind_ALL) ++
  (graph_iri <$> omap slash_counterpart chain).

(** The nearest ACL at or above the given element of the chain. *)
Fixpoint nearest_acl (acls : gmap string (list triple)) (offset : nat) (chain : list ResourceUrl)
    : option (ResourceUrl * list triple * bool) :=
  match chain with
  | [] => None
  | element :: chain =>
      match acls !! graph_iri element with
      | Some t => Some (element, t, Nat.ltb 0 offset)
      | None => nearest_acl acls (S offset) chain
      end
  end.

Definition decide_from (g : Guard) (start : nat) (required : Mode) : outcome Denial Decision :=
  match nearest_acl (g_acls g) 0 (drop start (g_chain g)) with
  | None => Err (deny (g_agent g))
  | Some (element, triples, inherited) =>
      let governed := graph_iri element in
      let user := pdp_decide triples (g_agent g) governed inherited in
      let public := match g_agent g with
                    | Public => user
                    | WebId _ => pdp_decide triples Public governed inherited
                    end in
      if allows user required then Ok (mkDecision user public) else Err (deny (g_agent g))
  end.

Definition authorize (g : Guard) (mode : Mode) : outcome Denial Decision :=
  let required := match g_target g with
                  | TAux a => required_mode_for_aux (a_kind a)
                  | _ => mode
                  end in
  decide_from g 0 required.

Definition authorize_parent (g : Guard) (mode : Mode) : outcome Denial (option Decision) :=
  if Nat.ltb (length (g_chain g)) 2 then Ok None else
  let? d := decide_from g 1 mode in Ok (Some d).

(** [self.chain[0]] of a probed guard, which is never empty. *)
Definition guard_subject (g : Guard) : ResourceUrl :=
  default (subject_of (g_target g)) (head (g_chain g)).

Definition authorize_aux (g : Guard) (kind : AuxKind) : outcome Denial (option Decision) :=
  let a := aux (guard_subject g) kind in
  if negb (bool_decide (graph_iri a ∈ g_present g)) then Ok None else
  let? d := decide_from g 0 (required_mode_for_aux kind) in Ok (Some d).

Definition guard_deny (g : Guard) : Denial := deny (g_agent g).

Definition target_exists (g : Guard) : bool := bool_decide (graph_iri (g_target g) ∈ g_present g).

(** Whether the counterpart of a URL was found. *)
Definition counterpart_present (g : Guard) (r : ResourceUrl) : bool :=
  match slash_counterpart r with
  | Some c => bool_decide (graph_iri c ∈ g_present g)
  | None => false
  end.

Definition is_taken (g : Guard) : bool :=
  if bool_decide (graph_iri (g_target g) ∈ g_present g) then true else
  match g_target g with
  | TResource r => counterpart_present g r
  | TContainer c => counterpart_present g (as_resource c)
  | TAux _ => false
  end.

Record Materialized : Type := mkMaterialized {
  created : list ResourceUrl;
  linked : list (ContainerUrl * string)
}.

Definition plan_entry : Type := ContainerUrl * option string.

(** The loop of [materialize] over the ancestors, nearest first: what to
    create and what to link, or the refusal. *)
Fixpoint plan_loop (g : Guard) (i : nat) (ancestors : list ContainerUrl) (child_iri : string)
    (record_child : bool) (creations : list ResourceUrl) (plan : list plan_entry)
    : outcome Denial (list ResourceUrl * list plan_entry) :=
  match ancestors with
  | [] => Ok (creations, plan)
  | ancestor :: ancestors =>
      let existed := bool_decide (graph_iri ancestor ∈ g_present g) in
      if existed && negb record_child then Ok (creations, plan) else
      let? _ := decide_from g (S i) Append in
      let plan := plan ++ [(ancestor, if record_child then Some child_iri else None)] in
      if existed then Ok (creations, plan) else
      plan_loop g (S i) ancestors (graph_iri ancestor) true
        (creations ++ [default (as_resource ancestor) (g_chain g !! S i)]) plan
  end.

Definition is_aux_target (t : Target) : bool := match t with TAux _ => true | _ => false end.

(** The decisions of [materialize]: everything before its first write. *)
Definition materialize_plan (g : Guard) : outcome Denial (list ResourceUrl * list plan_entry) :=
  let subject := guard_subject g in
  let target_existed := bool_decide (graph_iri (g_target g) ∈ g_present g) in
  let may_be_member := negb (is_aux_target (g_target g)) in
  let is_member := may_be_member && negb target_existed in
  let creations := if is_member then [subject] else [] in
  let? (creations, plan) :=
    plan_loop g 0 (ancestors subject) (graph_iri (g_target g)) is_member creations [] in
  if is_aux_target (g_target g) && negb (bool_decide (graph_iri subject ∈ g_present g))
  then Err AuxSubjectMissing else
  if existsb (counterpart_present g) creations then Err SlashPair else
  Ok (creations, plan).

Section guard.
Context {W : Type} `{Backend W} `{IriSyntax}.

Definition load_chain_acls (chain : list ResourceUrl) (present : gset string)
    : M W ResourceError (gmap string (list triple)) :=
  let governed := governed_by chain present in
  let out := seed_acls governed in
  if bool_decide (governed = ∅) then ret out else
  let! rows := store_op (query_solutions (SelGraphs (acl_values chain present))) in
  ret (foldl push_acl out (omap (acl_row governed) rows)).

(** [.await.map_err(Denial::Store)?] *)
Definition denial_op {A : Type} (m : M W ResourceError A) : M W Denial A := map_err StoreDenial m.

Definition probe (agent : Agent) (target : Target) : M W Denial Guard :=
  let chain := chain_of (subject_of target) in
  let! present := denial_op (exists_many (candidates chain)) in
  let! acls := denial_op (load_chain_acls chain present) in
  ret (mkGuard agent target chain present acls).

(** The writes of a plan, in its order. *)
Fixpoint run_plan (plan : list plan_entry) (links : list (ContainerUrl * string))
    : M W Denial (list (ContainerUrl * string)) :=
  match plan with
  | [] => ret links
  | (ancestor, child) :: plan =>
      do! denial_op (ensure_container ancestor) in
      match child with
      | None => run_plan plan links
      | Some child_iri =>
          do! denial_op (add_containment ancestor child_iri) in
          run_plan plan (links ++ [(ancestor, child_iri)])
      end
  end.

Definition materialize (g : Guard) : M W Denial Materialized :=
  let! (creations, plan) := lift (materialize_plan g) in
  let! links := run_plan plan [] in
  ret (mkMaterialized creations links).
End guard.

(** * Provisioning *)
Section provision.
Context {W : Type} `{Backend W} `{IriSyntax} `{RdfLib}.

(** The Turtle text of the root ACL. *)
Definition root_acl_turtle (owner_webid root_iri : string) : string :=
  "<#owner> a <" +:+ ACL_AUTHORIZATION +:+ "> ; <" +:+ ACL_AGENT +:+ "> <" +:+ owner_webid +:+
  "> ; <" +:+ ACL_ACCESS_TO +:+ "> <" +:+ root_iri +:+ "> ; <" +:+ ACL_DEFAULT +:+ "> <" +:+
  root_iri +:+ "> ; <" +:+ ACL_MODE +:+ "> <" +:+ ACL_READ +:+ ">, <" +:+ ACL_WRITE +:+ ">, <" +:+
  ACL_CONTROL +:+ "> .".

Definition provision_root_acl (uuid : nat → string) (sp : StorageSpace) (owner_webid : string)
    (reset : bool) : M W ResourceError unit :=
  match root sp with
  | None => panic
  | Some root =>
      let acl := aux (as_resource root) Acl in
      let! there := exists_ (graph_iri acl) in
      if there && negb reset then ret tt else
      do! ensure_container root in
      match from_content_type "text/turtle" with
      | None => panic
      | Some f =>
          let! dataset := lift (omap_err RdfErr
            (parse f (root_acl_turtle owner_webid (graph_iri root)) (graph_iri acl) Rdf11)) in
          let! result := attempt (aux_put uuid acl (triples_of dataset)) in
          match result with
          | inr _ => ret tt
          | inl (AuxResource e) => throw e
          | inl _ => panic
          end
      end
  end.
End provision.

(** * What a probe knows *)
Section probe.
Context {W : Type} `{BackendLaws W} `{IriSyntax} (sp : StorageSpace).

(** The graph of a resource's ACL. *)
Definition acl_of (r : ResourceUrl) : string := graph_iri (aux r Acl).

Definition acl_states (G : gset located) (r : ResourceUrl) (s : named_or_blank) (p o : string) : Prop :=
  (acl_of r, Triple s p (TNamed o)) ∈ G.

(** The first resource of a chain with an ACL, and whether it is not the first
    of the chain. *)
Definition nearest (G : gset located) (chain : list ResourceUrl) (r : ResourceUrl) (inherited : bool) : Prop :=
  ∃ i, chain !! i = Some r ∧ present_at (acl_of r) ∈ G ∧ inherited = Nat.ltb 0 i ∧
       ∀ j r', j < i → chain !! j = Some r' → present_at (acl_of r') ∉ G.

(** What a guard read of the store is the store. *)
Record faithful (G : gset located) (g : Guard) : Prop := {
  ff_present i : i ∈ candidates (g_chain g) → i ∈ g_present g ↔ present_at i ∈ G;
  ff_present_only i : i ∈ g_present g → present_at i ∈ G;
  ff_acls r : r ∈ g_chain g →
    match g_acls g !! graph_iri r with
    | Some ts => present_at (acl_of r) ∈ G ∧ ∀ t, t ∈ ts ↔ (acl_of r, t) ∈ G
    | None => present_at (acl_of r) ∉ G
    end
}.

Lemma wp_exists_many iris (Φ : outcome ResourceError (gset string) → W → Prop) w :
  (∀ S w', same w w' → (∀ i, i ∈ S ↔ i ∈ iris ∧ present_at i ∈ graphs w) → Φ (Ok S) w') →
  (∀ e w', same w w' → Φ (Err (StoreErr e)) w') →
  wp (exists_many iris) Φ w.
Proof.
  intros Hok Herr. unfold exists_many. destruct iris as [|i0 iris0] eqn:E.
  - apply wp_ret, Hok; [done|]. intros i. split; [|by intros [?%elem_of_nil _]].
    intros Hi. by apply not_elem_of_empty in Hi.
  - rewrite <- E in *. apply wp_bind, wp_store_op, wp_query_solutions; [|by auto].
    intros rows w' Hs Hrows. cbn [omap_err]. apply wp_ret, Hok; [done|].
    intros i. rewrite elem_of_list_to_set, list_elem_of_omap. split.
    + intros (row & Hr & Ei). apply Hrows in Hr as (sys & g & Hv & Hp & ->).
      apply list_elem_of_fmap in Hv as (g' & [= -> ->] & Hg). rewrite lookup_singleton_eq in Ei.
      injection Ei as ->. by split.
    + intros [Hi Hp]. exists {["g" := TNamed i]}. split; [|by rewrite lookup_singleton_eq].
      apply Hrows. exists (sys_graph_iri i), i. split_and!; [|done|done].
      apply list_elem_of_fmap. eauto.
Qed.

(** ** The ACLs of a chain *)
Section chain.
Context (chain : list ResourceUrl) (present : gset string).
Context (Hchain : ∀ r, r ∈ chain → url_in sp r).

Lemma governed_by_spec i v :
  governed_by chain present !! i = Some v ↔
  ∃ r, r ∈ chain ∧ i = acl_of r ∧ v = graph_iri r ∧ i ∈ present.
Proof.
  unfold governed_by. assert (∀ m : gmap string string, (∀ j u, m !! j = Some u → ∀ r, r ∈ chain → j = acl_of r → u = graph_iri r) →
    foldl (λ governed element, let acl_iri := graph_iri (aux element Acl) in
      if bool_decide (acl_iri ∈ present) then <[acl_iri := graph_iri element]> governed else governed)
      m chain !! i = Some v ↔
    m !! i = Some v ∨ ∃ r, r ∈ chain ∧ i = acl_of r ∧ v = graph_iri r ∧ i ∈ present) as Hm.
  { induction chain as [|r l IH]; intros m Hm; simpl.
    - split; [auto|]. intros [?|(r & Hr & _)]; [done|]. by apply elem_of_nil in Hr.
    - rewrite IH; clear IH.
      2:{ intros x Hx. apply Hchain. by right. }
      2:{ intros j u Hj r' Hr' ->. revert Hj. case_bool_decide; [|intros; eapply Hm; [done|by right|done]].
          intros [[E <-]|[_ Hj]]%lookup_insert_Some; [|eapply Hm; [done|by right|done]].
          f_equal. apply (aux_graph_inj sp) in E; [done|apply Hchain; by left|apply Hchain; by right]. }
      assert (∀ P : ResourceUrl → Prop, (∃ r0, r0 ∈ r :: l ∧ P r0) ↔ P r ∨ ∃ r0, r0 ∈ l ∧ P r0) as ->.
      { intros P. setoid_rewrite elem_of_cons. naive_solver. }
      case_bool_decide as Hp.
      + rewrite lookup_insert_Some. split.
        * intros [[[<- <-]|[_ ?]]|?]; [right; left; done|by left|by right; right].
        * intros [Hi|[(-> & -> & _)|?]]; [|left; left; done|by right].
          left. destruct (decide (graph_iri (aux r Acl) = i)) as [<-|]; [left|by right].
          split; [done|]. symmetry. eapply Hm; [exact Hi|by left|done].
      + split; [intros [?|?]; auto|]. intros [?|[(-> & _ & ?)|?]]; [by left|done|by right]. }
  rewrite Hm; [|by intros j u Hj; rewrite lookup_empty in Hj]. split; [|auto].
  intros [Hi|?]; [by rewrite lookup_empty in Hi|done].
Qed.

Lemma governed_values r :
  r ∈ chain → (∃ i, governed_by chain present !! i = Some (graph_iri r)) ↔ acl_of r ∈ present.
Proof.
  intros Hr. setoid_rewrite governed_by_spec. split.
  - intros (i & r' & Hr' & -> & E & Hp). apply (plain_graph_inj sp) in E as ->; auto.
  - intros Hp. exists (acl_of r), r. done.
Qed.

Lemma seed_acls_lookup (governed : gmap string string) i :
  (seed_acls governed !! i = Some [] ∧ ∃ k, governed !! k = Some i) ∨
  (seed_acls governed !! i = None ∧ ∀ k, governed !! k ≠ Some i).
Proof.
  unfold seed_acls. assert (∀ l : list (string * string),
    ((list_to_map ((λ x, (x.2, [])) <$> l) : gmap string (list triple)) !! i = Some [] ∧ ∃ k, (k, i) ∈ l) ∨
    ((list_to_map ((λ x, (x.2, [])) <$> l) : gmap string (list triple)) !! i = None ∧ ∀ k, (k, i) ∉ l)) as Hl.
  { induction l as [|[k v] l IH]; [right; split; [apply lookup_empty|by intros k ?%elem_of_nil]|].
    rewrite fmap_cons, list_to_map_cons. cbn [fst snd].
    destruct (decide (v = i)) as [->|Hne].
    - left. rewrite lookup_insert_eq. split; [done|]. exists k. by left.
    - rewrite lookup_insert_ne by done. destruct IH as [[-> [k' Hk]]|[-> Hn]]; [left|right].
      + split; [done|]. exists k'. by right.
      + split; [done|]. intros k' [E|?]%elem_of_cons; [by injection E as _ ->|by eapply Hn]. }
  destruct (Hl (map_to_list governed)) as [[-> [k Hk]]|[-> Hn]]; [left|right]; split; try done.
  - exists k. by apply elem_of_map_to_list.
  - intros k Hk. apply (Hn k). by apply elem_of_map_to_list.
Qed.

Lemma push_acl_lookup (l : list (string * triple)) out i ts :
  out !! i = Some ts →
  foldl push_acl out l !! i = Some (ts ++ (snd <$> filter (λ x, x.1 = i) l)).
Proof.
  revert out ts. induction l as [|[k t] l IH]; intros out ts Hi; simpl.
  - by rewrite app_nil_r.
  - unfold push_acl at 2. cbn [fst snd]. rewrite filter_cons. cbn [fst].
    destruct (decide (k = i)) as [->|Hne].
    + rewrite (IH _ (ts ++ [t])); [|by rewrite lookup_insert_eq, Hi]. simpl. by rewrite <- app_assoc.
    + apply IH. by rewrite lookup_insert_ne.
Qed.

Lemma push_acl_none (l : list (string * triple)) out i :
  out !! i = None → (∀ t, (i, t) ∉ l) → foldl push_acl out l !! i = None.
Proof.
  revert out. induction l as [|[k t] l IH]; intros out Hi Hn; simpl; [done|].
  apply IH; [|intros u Hu; by apply (Hn u); right].
  unfold push_acl. cbn [fst]. rewrite lookup_insert_ne; [done|]. intros ->. apply (Hn t). by left.
Qed.

(** The rows of the query, as triples of governed resources. *)
Lemma acl_row_triple g s p o :
  acl_row (governed_by chain present)
    (<["g" := TNamed g]> (<["s" := term_of_subject s]> (<["p" := TNamed p]> {["o" := o]}))) =
  (λ v, (v, Triple s p o)) <$> governed_by chain present !! g.
Proof.
  unfold acl_row. rewrite lookup_insert_eq. simpl.
  rewrite (lookup_insert_ne _ "g" "s"), lookup_insert_eq by done. simpl.
  rewrite (lookup_insert_ne _ "g" "p"), (lookup_insert_ne _ "s" "p"), lookup_insert_eq by done. simpl.
  rewrite (lookup_insert_ne _ "g" "o"), (lookup_insert_ne _ "s" "o"), (lookup_insert_ne _ "p" "o"),
    lookup_singleton_eq by done. simpl.
  assert (subject_of_term (term_of_subject s) = Some s) as -> by (by destruct s). simpl.
  by destruct (governed_by chain present !! g).
Qed.

Lemma wp_load_chain_acls (w : W) :
  (∀ r, r ∈ chain → acl_of r ∈ present ↔ present_at (acl_of r) ∈ graphs w) →
  wp (load_chain_acls chain present) (reads (λ acls, ∀ r, r ∈ chain →
    match acls !! graph_iri r with
    | Some ts => present_at (acl_of r) ∈ graphs w ∧ ∀ t, t ∈ ts ↔ (acl_of r, t) ∈ graphs w
    | None => present_at (acl_of r) ∉ graphs w
    end) w) w.
Proof.
  intros Hp. unfold load_chain_acls. case_bool_decide as He.
  - apply wp_ret. split; [|done]. intros r Hr.
    destruct (seed_acls_lookup (governed_by chain present) (graph_iri r)) as [[_ [k Hk]]|[-> Hn]].
    { by rewrite He, lookup_empty in Hk. }
    rewrite <- Hp, <- governed_values by done. intros [k Hk]. by apply (Hn k).
  - apply wp_bind, wp_store_op, wp_query_solutions; [|done]. intros rows w1 Hs Hrows.
    cbn [omap_err]. apply wp_ret. split; [|done]. intros r Hr.
    assert (∀ k t, (k, t) ∈ omap (acl_row (governed_by chain present)) rows ↔
      ∃ r', r' ∈ chain ∧ k = graph_iri r' ∧ acl_of r' ∈ present ∧ (acl_of r', t) ∈ graphs w) as Hl.
    { intros k t. rewrite list_elem_of_omap. split.
      - intros (row & Hrow & E). apply Hrows in Hrow as (g & [s p o] & Hg & Ht & ->). cbn [t_subject t_predicate t_object] in E.
        rewrite acl_row_triple in E. destruct (governed_by chain present !! g) as [v|] eqn:Eg; [|done].
        apply governed_by_spec in Eg as (r' & Hr' & -> & -> & Hpr). injection E as <- <-. by exists r'.
      - intros (r' & Hr' & -> & Hpr & Ht). destruct t as [s p o].
        exists (<["g" := TNamed (acl_of r')]> (<["s" := term_of_subject s]> (<["p" := TNamed p]> {["o" := o]}))).
        split.
        + apply Hrows. exists (acl_of r'), (Triple s p o). split_and!; [|done|done].
          apply list_elem_of_filter. split; [done|]. apply list_elem_of_fmap. by exists r'.
        + rewrite acl_row_triple.
          assert (governed_by chain present !! acl_of r' = Some (graph_iri r')) as ->; [|done].
          apply governed_by_spec. by exists r'. }
    destruct (seed_acls_lookup (governed_by chain present) (graph_iri r)) as [[Es Hk]|[Es Hn]].
    + rewrite (push_acl_lookup _ _ _ [] Es). apply governed_values in Hk; [|done].
      split; [by apply Hp|]. intros t. rewrite app_nil_l, list_elem_of_fmap. split.
      * intros ([k u] & -> & [E Hu]%list_elem_of_filter). cbn [fst snd] in *. subst k.
        apply Hl in Hu as (r' & Hr' & E & _ & Hu). apply (plain_graph_inj sp) in E as ->; auto.
      * intros Ht. exists (graph_iri r, t). split; [done|]. apply list_elem_of_filter.
        split; [done|]. apply Hl. by exists r.
    + rewrite push_acl_none; [|done|].
      * rewrite <- Hp, <- governed_values by done. intros [k Hk]. by apply (Hn k).
      * intros t (r' & Hr' & E & Hpr & _)%Hl. apply governed_values in Hpr as [k Hk]; [|done].
        rewrite <- E in Hk. by apply (Hn k).
Qed.
End chain.

Lemma chain_of_in r : url_in sp r → ∀ x, x ∈ chain_of r → url_in sp x.
Proof.
  intros Hr x [->|Hx]%elem_of_cons; [done|]. apply list_elem_of_fmap in Hx as (c & -> & Hc).
  by apply (ancestors_spec sp r c Hr) in Hc as [? _].
Qed.

Lemma wp_probe agent target (w : W) :
  url_in sp (subject_of target) →
  wp (probe agent target) (λ o w',
    match o with
    | Ok g => g_agent g = agent ∧ g_target g = target ∧ g_chain g = chain_of (subject_of target) ∧
              faithful (graphs w) g ∧ same w w'
    | Err (StoreDenial _) => same w w'
    | _ => False
    end) w.
Proof.
  intros Hin. pose proof (chain_of_in _ Hin) as Hc. unfold probe.
  apply wp_bind, wp_map_err, wp_exists_many; [|done]. intros S w1 Hs1 HS. cbn [omap_err].
  assert (∀ r, r ∈ chain_of (subject_of target) → acl_of r ∈ candidates (chain_of (subject_of target))) as Hcand.
  { intros r Hr. unfold candidates. rewrite !elem_of_app. right; left.
    apply list_elem_of_bind. exists r. split; [by left|done]. }
  apply wp_bind, wp_map_err. destruct (id Hs1) as [G1 O1].
  eapply wp_wand; [apply (wp_load_chain_acls _ S Hc)|].
  - intros r Hr. rewrite HS, G1. split; [by intros [_ ?]|]. intros ?. split; [by apply Hcand|done].
  - intros [acls|[]|] w2 Ho; try done; [|by eapply same_trans]. destruct Ho as [Ha Hs2]. cbn [omap_err]. apply wp_ret.
    rewrite G1 in Ha. split_and!; [done..| |by eapply same_trans]. split; cbn [g_present g_chain g_acls].
    + intros i Hi. rewrite HS. naive_solver.
    + intros i [_ ?]%HS. done.
    + done.
Qed.

(** ** The decision *)
Lemma permits_ext (P Q : named_or_blank → string → string → Prop) agent iri inh m :
  (∀ s p o, P s p o ↔ Q s p o) → permits P agent iri inh m ↔ permits Q agent iri inh m.
Proof.
  intros E. unfold permits. apply exist_proper. intros s. rewrite !E.
  by destruct agent; rewrite ?E.
Qed.

Lemma nearest_acl_spec (G : gset located) acls off chain :
  (∀ r, r ∈ chain →
    match acls !! graph_iri r with
    | Some ts => present_at (acl_of r) ∈ G ∧ ∀ t, t ∈ ts ↔ (acl_of r, t) ∈ G
    | None => present_at (acl_of r) ∉ G
    end) →
  match nearest_acl acls off chain with
  | Some (r, ts, inh) => ∃ i, chain !! i = Some r ∧ present_at (acl_of r) ∈ G ∧
      inh = Nat.ltb 0 (off + i) ∧ (∀ t, t ∈ ts ↔ (acl_of r, t) ∈ G) ∧
      ∀ j r', j < i → chain !! j = Some r' → present_at (acl_of r') ∉ G
  | None => ∀ r, r ∈ chain → present_at (acl_of r) ∉ G
  end.
Proof.
  revert off. induction chain as [|r chain IH]; intros off Hf; simpl.
  - by intros r ?%elem_of_nil.
  - pose proof (Hf r ltac:(by left)) as Hr. destruct (acls !! graph_iri r) as [ts|] eqn:E.
    + exists 0. destruct Hr as [Hp Ht]. split_and!; [done|done|by rewrite Nat.add_0_r|done|lia].
    + specialize (IH (S off) (λ x Hx, Hf x ltac:(by right))).
      destruct (nearest_acl acls (S off) chain) as [[[r' ts] inh]|].
      * destruct IH as (i & H1' & H2' & H3' & H4' & H5'). exists (S i).
        split_and!; [done|done|by rewrite H3'; f_equal; lia|done|].
        intros [|j] x Hj Hx; [by injection Hx as <-|]. apply (H5' j); [lia|done].
      * intros x [->|Hx]%elem_of_cons; [done|by apply IH].
Qed.

Lemma nearest_unique G chain r inh r' inh' :
  nearest G chain r inh → nearest G chain r' inh' → r = r' ∧ inh = inh'.
Proof.
  intros (i & Hi & Hp & -> & Hn) (i' & Hi' & Hp' & -> & Hn').
  destruct (lt_eq_lt_dec i i') as [[Hlt| ->]|Hlt].
  - by destruct (Hn' i r Hlt Hi).
  - split; [congruence|done].
  - by destruct (Hn i' r' Hlt Hi').
Qed.

Lemma decide_from_spec G g start m :
  faithful G g →
  match decide_from g start m with
  | Ok d => ∃ r inh, nearest G (drop start (g_chain g)) r inh ∧
      permits (acl_states G r) (g_agent g) (graph_iri r) inh m ∧
      (∀ m', allows (d_user d) m' = true ↔ permits (acl_states G r) (g_agent g) (graph_iri r) inh m') ∧
      (∀ m', allows (d_public d) m' = true ↔ permits (acl_states G r) Public (graph_iri r) inh m')
  | Err e => e = deny (g_agent g) ∧ ∀ r inh, nearest G (drop start (g_chain g)) r inh →
      ¬ permits (acl_states G r) (g_agent g) (graph_iri r) inh m
  | Panicked => False
  end.
Proof.
  intros [_ _ Hf]. unfold decide_from.
  pose proof (nearest_acl_spec G (g_acls g) 0 (drop start (g_chain g))) as Hn.
  destruct (nearest_acl _ _ _) as [[[r ts] inh]|].
  - destruct Hn as (i & Hi & Hp & -> & Ht & Hbefore).
    { intros x (j & Hj)%list_elem_of_lookup. rewrite lookup_drop in Hj.
      by apply Hf, (list_elem_of_lookup_2 _ (start + j)). }
    assert (nearest G (drop start (g_chain g)) r (Nat.ltb 0 (0 + i))) as Hnear by (by exists i).
    assert (∀ a m', allows (pdp_decide ts a (graph_iri r) (Nat.ltb 0 (0 + i))) m' = true ↔
                    permits (acl_states G r) a (graph_iri r) (Nat.ltb 0 (0 + i)) m') as Hd.
    { intros a m'. rewrite allows_permits. apply permits_ext. intros s p o. apply Ht. }
    destruct (allows (pdp_decide ts (g_agent g) (graph_iri r) (Nat.ltb 0 (0 + i))) m) eqn:Ea.
    + exists r, (Nat.ltb 0 (0 + i)). split_and!; [done|by apply Hd|apply Hd|].
      cbn [d_public]. destruct (g_agent g); apply Hd.
    + split; [done|]. intros r' inh' Hnear' Hperm.
      destruct (nearest_unique _ _ _ _ _ _ Hnear Hnear') as [<- <-]. apply Hd in Hperm. congruence.
  - split; [done|]. intros r inh (i & Hi & Hp & _) _. revert Hp. apply Hn.
    { intros x (j & Hj)%list_elem_of_lookup. rewrite lookup_drop in Hj.
      by apply Hf, (list_elem_of_lookup_2 _ (start + j)). }
    by apply list_elem_of_lookup_2 with i.
Qed.

(** The mode a request needs on a target. *)
Definition required (target : Target) (m : Mode) : Mode :=
  match target with TAux _ => Control | _ => m end.

(** C1: access is what the nearest ACL says, and nothing else.  When the store
    answers, a request is authorized exactly if, among the ACLs that are
    present on the chain from its subject to the root, the first one permits
    its agent the mode, through [acl:accessTo] on the subject's own and through
    [acl:default] on an ancestor's; for an auxiliary the mode is [Control] on
    its subject.  No ACL anywhere, or one that says less, is a refusal, and the
    refusal depends on nothing but whether the agent is known. *)
Theorem access_by_nearest_acl (agent : Agent) (target : Target) (w : W)
    (Hin : url_in sp (subject_of target)) :
  wp (probe agent target) (λ o w',
    match o with
    | Ok g => same w w' ∧ ∀ m,
        match authorize g m with
        | Ok d => ∃ r inh, nearest (graphs w) (chain_of (subject_of target)) r inh ∧
            permits (acl_states (graphs w) r) agent (graph_iri r) inh (required target m)
        | Err e => e = deny agent ∧ ∀ r inh, nearest (graphs w) (chain_of (subject_of target)) r inh →
            ¬ permits (acl_states (graphs w) r) agent (graph_iri r) inh (required target m)
        | Panicked => False
        end
    | Err (StoreDenial _) => same w w'
    | _ => False
    end) w.
Proof.
  eapply wp_wand; [by apply wp_probe|]. intros [g|[]|] w' Ho; try done.
  destruct Ho as (Ea & Et & Ec & Hf & Hs). split; [done|]. intros m. unfold authorize. rewrite Et.
  assert (match target with TAux a => required_mode_for_aux (a_kind a) | _ => m end = required target m) as ->
    by (destruct target as [| |a]; [done..|]; by destruct (a_kind a)).
  pose proof (decide_from_spec (graphs w) g 0 (required target m) Hf) as Hd.
  rewrite drop_0, Ec, Ea in Hd.
  destruct (decide_from g 0 (required target m)); [|done..].
  destruct Hd as (r & inh & ? & ? & _). by exists r, inh.
Qed.

(** ** What a create writes *)

(** The longest prefix of the ancestors, nearest first, that is not there. *)
Fixpoint missing (g : Guard) (anc : list ContainerUrl) : list ContainerUrl :=
  match anc with
  | [] => []
  | c :: anc => if bool_decide (graph_iri c ∈ g_present g) then [] else c :: missing g anc
  end.

(** The containers to write: those, and the one above them, which gains a
    child when there is something new below it. *)
Definition levels (g : Guard) (anc : list ContainerUrl) (is_new : bool) : list ContainerUrl :=
  missing g anc ++
  (if is_new || negb (is_empty (missing g anc)) then take 1 (drop (length (missing g anc)) anc) else []).

(** Each with the child it is linked to: the one below it. *)
Definition links (g : Guard) (anc : list ContainerUrl) (child : string) (is_new : bool) : list plan_entry :=
  zip (levels g anc is_new)
      ((if is_new then Some child else None) :: ((λ c, Some (graph_iri c)) <$> missing g anc)).

Lemma missing_in g anc c : c ∈ missing g anc → c ∈ anc.
Proof.
  induction anc as [|x anc IH]; simpl; [done|]. case_bool_decide; [by intros ?%elem_of_nil|].
  intros [->|?]%elem_of_cons; [by left|right; auto].
Qed.

Lemma links_cons g c anc child is_new :
  links g (c :: anc) child is_new =
  if bool_decide (graph_iri c ∈ g_present g)
  then (if is_new then [(c, Some child)] else [])
  else (c, if is_new then Some child else None) :: links g anc (graph_iri c) true.
Proof.
  unfold links, levels. simpl. case_bool_decide; simpl; [by destruct is_new|].
  by rewrite orb_true_r.
Qed.

Lemma links_length g anc child is_new : length (links g anc child is_new) = length (levels g anc is_new).
Proof.
  unfold links, levels. rewrite length_zip_with. cbn [length]. rewrite length_fmap, length_app.
  assert (length (if is_new || negb (is_empty (missing g anc)) then take 1 (drop (length (missing g anc)) anc) else []) <= 1);
    [|lia]. destruct (_ || _); [|simpl; lia]. rewrite length_take. lia.
Qed.

Lemma plan_loop_spec g i anc child is_new cs pl :
  (∀ j c, anc !! j = Some c → g_chain g !! S (i + j) = Some (as_resource c)) →
  match plan_loop g i anc child is_new cs pl with
  | Ok (cs', pl') => cs' = cs ++ (as_resource <$> missing g anc) ∧ pl' = pl ++ links g anc child is_new ∧
      ∀ j, j < length (levels g anc is_new) → ∃ d, decide_from g (S (i + j)) Append = Ok d
  | Err e => ∃ j, j < length (levels g anc is_new) ∧ decide_from g (S (i + j)) Append = Err e
  | Panicked => ∃ j, decide_from g (S (i + j)) Append = Panicked
  end.
Proof.
  revert i child is_new cs pl. induction anc as [|c anc IH]; intros i child is_new cs pl Hch.
  { unfold links, levels. destruct is_new; simpl; rewrite !app_nil_r; split_and!; try done; intros j; lia. }
  simpl plan_loop. rewrite <- (links_length g (c :: anc) child), links_cons. simpl missing.
  case_bool_decide as Hp; cbn [andb].
  - destruct is_new; cbn [negb].
    + destruct (decide_from g (S i) Append) as [d|e|] eqn:Ed; cbn [obind].
      * simpl. rewrite app_nil_r. split_and!; [done..|]. intros [|j]; simpl; [|lia].
        intros _. rewrite Nat.add_0_r. eauto.
      * exists 0. rewrite Nat.add_0_r. split; [simpl; lia|done].
      * exists 0. by rewrite Nat.add_0_r.
    + simpl. rewrite !app_nil_r. split_and!; [done..|]. lia.
  - destruct (decide_from g (S i) Append) as [d|e|] eqn:Ed; cbn [obind].
    + pose proof (Hch 0 c eq_refl) as Hc. rewrite Nat.add_0_r in Hc. rewrite Hc. simpl default.
      specialize (IH (S i) (graph_iri c) true (cs ++ [as_resource c])
        (pl ++ [(c, if is_new then Some child else None)])).
      rewrite <- (links_length g anc (graph_iri c)) in IH.
      destruct (plan_loop g (S i) anc _ _ _ _) as [[cs' pl']|e|].
      * destruct IH as (-> & -> & Hd). { intros j x Hj. rewrite <- (Hch (S j) x Hj). f_equal. lia. }
        rewrite <- !app_assoc. split_and!; [done..|]. intros [|j] Hj; [rewrite Nat.add_0_r; eauto|].
        rewrite Nat.add_succ_r. apply Hd. simpl in Hj. lia.
      * destruct IH as (j & Hj & Hd). { intros j x Hj. rewrite <- (Hch (S j) x Hj). f_equal. lia. }
        exists (S j). rewrite Nat.add_succ_r. split; [simpl; lia|done].
      * destruct IH as (j & Hd). { intros j x Hj. rewrite <- (Hch (S j) x Hj). f_equal. lia. }
        exists (S j). by rewrite Nat.add_succ_r.
    + exists 0. rewrite Nat.add_0_r. split; [simpl; lia|done].
    + exists 0. by rewrite Nat.add_0_r.
Qed.

(** The creations of a guard: the target, when it is new and no auxiliary, and
    the ancestors it lacks. *)
Definition is_member (g : Guard) : bool :=
  negb (is_aux_target (g_target g)) && negb (bool_decide (graph_iri (g_target g) ∈ g_present g)).

Definition creations (g : Guard) : list ResourceUrl :=
  (if is_member g then [guard_subject g] else []) ++ (as_resource <$> missing g (ancestors (guard_subject g))).

Lemma creations_in_chain g r :
  g_chain g = guard_subject g :: (as_resource <$> ancestors (guard_subject g)) →
  r ∈ creations g → r ∈ g_chain g.
Proof.
  intros Hc. rewrite Hc. unfold creations.
  intros [Hr|(x & -> & Hx)%list_elem_of_fmap]%elem_of_app.
  - destruct (is_member g); [|by apply elem_of_nil in Hr]. apply list_elem_of_singleton in Hr as ->. by left.
  - right. apply list_elem_of_fmap. exists x. split; [done|]. by eapply missing_in.
Qed.

Lemma counterpart_present_iff g r :
  counterpart_present g r = true ↔ ∃ c, slash_counterpart r = Some c ∧ graph_iri c ∈ g_present g.
Proof.
  unfold counterpart_present. destruct (slash_counterpart r) as [c|]; [|naive_solver].
  rewrite bool_decide_eq_true. naive_solver.
Qed.

(** What is planned, when it is. *)
Lemma materialize_plan_links g cs plan : g_chain g = chain_of (subject_of (g_target g)) →
  materialize_plan g = Ok (cs, plan) →
  plan = links g (ancestors (subject_of (g_target g))) (graph_iri (g_target g)) (is_member g).
Proof.
  intros Hchain. unfold materialize_plan. fold (is_member g).
  assert (guard_subject g = subject_of (g_target g)) as -> by (unfold guard_subject; by rewrite Hchain).
  set (subject := subject_of (g_target g)) in *.
  pose proof (plan_loop_spec g 0 (ancestors subject) (graph_iri (g_target g)) (is_member g)
    (if is_member g then [subject] else []) []) as Hl.
  destruct (plan_loop _ _ _ _ _ _ _) as [[cs' plan']|e|]; cbn [obind]; [|done..].
  destruct Hl as (_ & -> & _). { intros j c Hj. rewrite Hchain. simpl. by rewrite list_lookup_fmap, Hj. }
  repeat case_match; try done. by intros [= _ <-].
Qed.

(** The candidates of a guard are the counterparts of its creations. *)
Lemma creations_paired G g : faithful G g →
  existsb (counterpart_present g) (creations g) = true →
  ∃ r c, r ∈ creations g ∧ slash_counterpart r = Some c ∧ present_at (graph_iri c) ∈ G.
Proof.
  intros Hf (r & Hr & Hx)%existsb_exists. apply counterpart_present_iff in Hx as (c & Hx & Hp).
  exists r, c. split_and!; [by apply list_elem_of_In|done|by apply (ff_present_only _ _ Hf)].
Qed.

Lemma creations_unpaired G g r c : faithful G g →
  g_chain g = guard_subject g :: (as_resource <$> ancestors (guard_subject g)) →
  existsb (counterpart_present g) (creations g) = false →
  r ∈ creations g → slash_counterpart r = Some c → present_at (graph_iri c) ∉ G.
Proof.
  intros Hf Hc Ee Hr Hx Hp. apply existsb_false in Ee. rewrite Forall_forall in Ee. specialize (Ee r Hr).
  assert (counterpart_present g r = true); [|congruence].
  apply counterpart_present_iff. exists c. split; [done|].
  apply (ff_present _ _ Hf); [|done]. unfold candidates. rewrite !elem_of_app. right; right.
  apply list_elem_of_fmap. exists c. split; [done|]. apply list_elem_of_omap. exists r.
  split; [|done]. by apply creations_in_chain.
Qed.

(** The caller may append at a level: at the [i]-th container above the subject. *)
Definition may_append (G : gset located) (g : Guard) (i : nat) : Prop :=
  ∃ r inh, nearest G (drop (S i) (g_chain g)) r inh ∧
           permits (acl_states G r) (g_agent g) (graph_iri r) inh Append.

(** C19: a create writes what it must, where it may.  The plan of [materialize]
    is the missing ancestors and the container above them, each linked to the
    one below it, and nothing else; it is made only when the caller may append
    at every one of these levels, when none of the URLs it creates has its
    trailing-slash counterpart present, and, for an auxiliary, when the subject
    is there.  Each refusal names the one of these that fails. *)
Theorem materialize_plan_spec (G : gset located) (g : Guard) (Hf : faithful G g)
    (Hchain : g_chain g = chain_of (subject_of (g_target g))) :
  match materialize_plan g with
  | Ok (cs, plan) =>
      cs = creations g ∧
      plan = links g (ancestors (guard_subject g)) (graph_iri (g_target g)) (is_member g) ∧
      (∀ i, i < length plan → may_append G g i) ∧
      (∀ r c, r ∈ cs → slash_counterpart r = Some c → present_at (graph_iri c) ∉ G) ∧
      (is_aux_target (g_target g) = true → present_at (graph_iri (guard_subject g)) ∈ G)
  | Err SlashPair => ∃ r c, r ∈ creations g ∧ slash_counterpart r = Some c ∧ present_at (graph_iri c) ∈ G
  | Err AuxSubjectMissing =>
      is_aux_target (g_target g) = true ∧ present_at (graph_iri (guard_subject g)) ∉ G
  | Err e => e = deny (g_agent g) ∧
      ∃ i, i < length (levels g (ancestors (guard_subject g)) (is_member g)) ∧ ¬ may_append G g i
  | Panicked => False
  end.
Proof.
  unfold materialize_plan. fold (is_member g). set (subject := guard_subject g).
  assert (g_chain g = subject :: (as_resource <$> ancestors subject)) as Hc.
  { unfold subject, guard_subject. by rewrite Hchain. }
  pose proof (plan_loop_spec g 0 (ancestors subject) (graph_iri (g_target g)) (is_member g)
    (if is_member g then [subject] else []) []) as Hl.
  pose proof (λ i, decide_from_spec G g (S i) Append Hf) as Hd.
  destruct (plan_loop _ _ _ _ _ _ _) as [[cs plan]|e|]; cbn [obind].
  - destruct Hl as (-> & -> & Hok).
    { intros j c Hj. rewrite Hc. simpl. by rewrite list_lookup_fmap, Hj. }
    change ((if is_member g then [subject] else []) ++ (as_resource <$> missing g (ancestors subject)))
      with (creations g).
    assert (length (links g (ancestors subject) (graph_iri (g_target g)) (is_member g)) =
            length (levels g (ancestors subject) (is_member g))) as El by apply links_length.
    assert (∀ i, i < length (links g (ancestors subject) (graph_iri (g_target g)) (is_member g)) →
                 may_append G g i) as Hmay.
    { intros i Hi. rewrite El in Hi. destruct (Hok i Hi) as [d Ed]. specialize (Hd i). cbn [Nat.add] in Ed. rewrite Ed in Hd.
      destruct Hd as (r & inh & ? & ? & _). by exists r, inh. }
    destruct (is_aux_target (g_target g) && negb (bool_decide (graph_iri subject ∈ g_present g))) eqn:Ea.
    { apply andb_true_iff in Ea as [Ea Es]. split; [done|].
      apply negb_true_iff, bool_decide_eq_false in Es. intros Hp. apply Es.
      apply (ff_present _ _ Hf); [|done]. rewrite Hc. apply elem_of_app. left. by left. }
    destruct (existsb (counterpart_present g) (creations g)) eqn:Ee.
    + by apply creations_paired.
    + split_and!; [done|done|done|intros r c; by apply creations_unpaired|]. intros Hat. rewrite Hat in Ea. cbn [andb] in Ea. apply negb_false_iff, bool_decide_eq_true in Ea.
      by apply (ff_present_only _ _ Hf).
  - destruct Hl as (i & Hi & Ed).
    { intros j c Hj. rewrite Hc. simpl. by rewrite list_lookup_fmap, Hj. }
    specialize (Hd i). cbn [Nat.add] in Ed. rewrite Ed in Hd. destruct Hd as [-> Hn].
    assert (deny (g_agent g) = deny (g_agent g) ∧ ∃ i, i < length (levels g (ancestors subject) (is_member g)) ∧
      ¬ may_append G g i) as Hx.
    { split; [done|]. exists i. split; [done|]. intros (r & inh & Hnear & Hperm). by eapply Hn. }
    by destruct (g_agent g).
  - destruct Hl as (i & Ed).
    { intros j c Hj. rewrite Hc. simpl. by rewrite list_lookup_fmap, Hj. }
    specialize (Hd i). cbn [Nat.add] in Ed. by rewrite Ed in Hd.
Qed.
End probe.

(** * Witnesses *)
Section witness.
#[local] Existing Instance toy_iri.

(** A pod with a root whose ACL lets its owner write, there and below. *)
Definition toy_root : ResourceUrl := mkResourceUrl "/" "https://pod.example/".
Definition toy_owner : Agent := WebId "https://owner.example/#me".
Definition toy_acl : list located :=
  let s := SNamed "https://pod.example/.aux/.acl#owner" in
  pair (acl_of toy_root) <$>
    [Triple s ACL_AGENT (TNamed "https://owner.example/#me");
     Triple s ACL_ACCESS_TO (TNamed (graph_iri toy_root));
     Triple s ACL_DEFAULT (TNamed (graph_iri toy_root));
     Triple s ACL_MODE (TNamed ACL_WRITE)].
Definition toy_pod : Mem () :=
  mkMem (present_at (graph_iri toy_root) :: present_at (acl_of toy_root) :: toy_acl) ∅ [] tt.

Lemma toy_url_in : url_in toy_space toy_url.
Proof. split; [by exists "box"|reflexivity]. Qed.

(** The owner may write a resource that has no ACL, and a stranger may not. *)
Lemma access_by_nearest_acl_witness :
  (∃ r inh, nearest (graphs toy_pod) (chain_of toy_url) r inh ∧
            permits (acl_states (graphs toy_pod) r) toy_owner (graph_iri r) inh Write) ∧
  (∀ r inh, nearest (graphs toy_pod) (chain_of toy_url) r inh →
            ¬ permits (acl_states (graphs toy_pod) r) Public (graph_iri r) inh Write).
Proof.
  pose proof (access_by_nearest_acl toy_space toy_owner (TResource toy_url) toy_pod toy_url_in) as H1.
  pose proof (access_by_nearest_acl toy_space Public (TResource toy_url) toy_pod toy_url_in) as H2.
  unfold wp in H1, H2.
  assert (match (probe toy_owner (TResource toy_url) toy_pod).1 with
          | Ok g => match authorize g Write with Ok _ => true | _ => false end | _ => false end = true) as E1
    by (vm_compute; reflexivity).
  assert (match (probe Public (TResource toy_url) toy_pod).1 with
          | Ok g => match authorize g Write with Err _ => true | _ => false end | _ => false end = true) as E2
    by (vm_compute; reflexivity).
  destruct (probe toy_owner (TResource toy_url) toy_pod) as [[g1|e1|] w1]; [|discriminate E1..].
  destruct (probe Public (TResource toy_url) toy_pod) as [[g2|e2|] w2]; [|discriminate E2..].
  cbn [fst snd] in *. destruct H1 as [_ H1], H2 as [_ H2]. specialize (H1 Write). specialize (H2 Write).
  destruct (authorize g1 Write); [|discriminate E1..]. destruct (authorize g2 Write); [discriminate E2| |discriminate E2].
  split; [exact H1|exact (proj2 H2)].
Defined.

(** Creating the resource writes the root, with a link to it, and nothing else. *)
Lemma materialize_plan_spec_witness :
  ∃ g, faithful (graphs toy_pod) g ∧
    materialize_plan g = Ok ([toy_url], [(mkContainerUrl toy_root, Some (graph_iri toy_url))]) ∧
    may_append (graphs toy_pod) g 0.
Proof.
  pose proof (wp_probe toy_space toy_owner (TResource toy_url) toy_pod toy_url_in) as Hp. unfold wp in Hp.
  assert (match (probe toy_owner (TResource toy_url) toy_pod).1 with
          | Ok g => bool_decide (is_Some (match materialize_plan g with
              | Ok (cs, plan) => if decide (cs = [toy_url] ∧ plan = [(mkContainerUrl toy_root, Some (graph_iri toy_url))])
                                 then Some tt else None
              | _ => None end)) | _ => false end = true) as E by (vm_compute; reflexivity).
  destruct (probe toy_owner (TResource toy_url) toy_pod) as [[g|e|] w1]; [|discriminate E..].
  cbn [fst snd] in *. destruct Hp as (Ea & Et & Ec & Hf & _). exists g. split; [exact Hf|].
  assert (g_chain g = chain_of (subject_of (g_target g))) as Hchain by (rewrite Et; exact Ec).
  pose proof (materialize_plan_spec (graphs toy_pod) g Hf Hchain) as Hx.
  destruct (materialize_plan g) as [[cs plan]|e|]; [|discriminate E..].
  destruct (decide _) as [[-> ->]|]; [|discriminate E].
  split; [reflexivity|]. destruct Hx as (_ & _ & Hmay & _). apply Hmay. simpl. lia.
Defined.
End witness.
