(* ===== verification/Shapes.v ===== *)
(** Shape validation ([shapes.rs]): which constraint document binds a
    container, and what its report decides.  The SHACL engine is third-party
    code. *)
From S2P Require Import Prelude Str Terms Space Rdf Dataset Patch Store Mem Resource.
Open Scope list_scope.

Definition SH_RESULT_SEVERITY : string := "http://www.w3.org/ns/shacl#resultSeverity".
Definition SH_VIOLATION : string := "http://www.w3.org/ns/shacl#Violation".
Definition SH_SPARQL : string := "http://www.w3.org/ns/shacl#sparql".
Definition SH_SELECT : string := "http://www.w3.org/ns/shacl#select".
Definition SH_ASK : string := "http://www.w3.org/ns/shacl#ask".
Definition SH_CONSTRUCT : string := "http://www.w3.org/ns/shacl#construct".
Definition SH_UPDATE : string := "http://www.w3.org/ns/shacl#update".

Definition sparql_terms : list string := [SH_SPARQL; SH_SELECT; SH_ASK; SH_CONSTRUCT; SH_UPDATE].

Definition mentions_shacl_sparql (triples : list triple) : bool :=
  existsb (λ t,
    bool_decide (t_predicate t ∈ sparql_terms)
    || match t_object t with TNamed n => bool_decide (n ∈ sparql_terms) | _ => false end) triples.

Inductive ShapeError : Type :=
| Unparsable (msg : string)
| Unsupported (msg : string)
| ShapeMissing
| Engine (msg : string)
| ShapeResource (e : ResourceError).

(** [Report(Dataset)]. *)
Record Report : Type := mkReport { into_dataset : Dataset }.

Definition refuses (r : Report) : bool :=
  existsb (λ q, bool_decide (q_predicate q = SH_RESULT_SEVERITY)
                && bool_decide (q_object q = TNamed SH_VIOLATION)) (into_dataset r).

Definition report_is_empty (r : Report) : bool :=
  negb (existsb (λ q, bool_decide (q_predicate q = SH_RESULT_SEVERITY)) (into_dataset r)).

(** [Format::from_content_type("text/turtle").expect(..)]. *)
Definition turtle : Format := default Turtle (from_content_type "text/turtle").

(** [RdfError]'s [Display]. *)
Definition show_rdf_error (e : RdfError) : string :=
  match e with
  | ParseError m => "rdf parse error: " +:+ m
  | SerializeError m => "rdf serialize error: " +:+ m
  | UnsupportedType => "unsupported media type"
  | UnsupportedRdfVersion f a =>
      "this representation is RDF " +:+ label f +:+ ", and " +:+ label a +:+ " was declared"
  end.

(** rudof on Turtle texts, data first: a failure to read the shapes is told
    from every other failure; the result is the report in Turtle. *)
Inductive ShaclResult : Type :=
| ShaclReport (turtle : string)
| ShaclUnparsable (msg : string)
| ShaclFailed (msg : string).

Class ShaclEngine : Type := shacl_validate : string → string → ShaclResult.

Definition LDP_CONSTRAINED_BY : string := "http://www.w3.org/ns/ldp#constrainedBy".

Record ShapeDoc : Type := mkShapeDoc { sd_turtle : string; sd_iri : string }.

Section shapes.
Context {W : Type} `{Backend W} `{IriSyntax} `{HeaderSyntax} `{BlankSyntax} `{RdfLib} `{Display}
  `{TermDisplay} `{ShaclEngine}.

Definition validate (shapes_turtle : string) (body : Dataset) : outcome ShapeError Report :=
  let? data := omap_err (λ e, Engine (show_rdf_error e)) (serialize turtle (default_graph_only body)) in
  match shacl_validate data shapes_turtle with
  | ShaclUnparsable m => Err (Unparsable m)
  | ShaclFailed m => Err (Engine m)
  | ShaclReport out =>
      let? report := omap_err (λ e, Engine (show_rdf_error e))
                       (parse turtle out "urn:quadpod:report" Rdf12) in
      Ok (mkReport report)
  end.

(** The loop over the bindings: each must be an IRI. *)
Fixpoint binding_iris (container_iri : string) (triples : list triple) : outcome ShapeError (list string) :=
  match triples with
  | [] => Ok []
  | t :: triples =>
      match t_object t with
      | TNamed n => let? bindings := binding_iris container_iri triples in Ok (n :: bindings)
      | _ => Err (Unsupported (container_iri +:+ " binds ldp:constrainedBy to " +:+ term_display (t_object t)
                  +:+ ", which is not an IRI"))
      end
  end.

Definition one_binding (container_iri : string) (bindings : list string)
    : outcome ShapeError (option string) :=
  match bindings with
  | [] => Ok None
  | [iri] => Ok (Some iri)
  | _ => Err (Unsupported (container_iri +:+ " carries " +:+ pretty (length bindings)
           +:+ " ldp:constrainedBy bindings (" +:+ join_str ", " bindings +:+ "), not one"))
  end.

(** The path of a binding inside this pod's space. *)
Definition binding_resource (sp : StorageSpace) (iri : string) : outcome ShapeError ResourceUrl :=
  match root sp with
  | None => Panicked
  | Some r =>
      let base := trim_end is_slash (graph_iri r) in
      match strip_prefix base iri with
      | Some rest =>
          if starts_with "/" rest then
            match resolve sp rest with
            | Ok (TResource r) => Ok r
            | _ => Err (Unsupported iri)
            end
          else Err (Unsupported iri)
      | None => Err (Unsupported iri)
      end
  end.

Definition shape_op {A : Type} (m : M W ResourceError A) : M W ShapeError A := map_err ShapeResource m.

(** The constraint document itself, once its URL is known. *)
Definition load_document (iri : string) (r : ResourceUrl) : M W ShapeError (option ShapeDoc) :=
  let! kind := shape_op (kind_of r) in
  match kind with
  | None => throw ShapeMissing
  | Some (KBinary mt) => throw (Unsupported (mt_raw mt))
  | Some KRdf =>
      let! found := shape_op (get_rdf (graph_iri r)) in
      let! triples := lift (ok_or ShapeMissing found) in
      if mentions_shacl_sparql triples
      then throw (Unsupported (iri +:+ " uses SHACL-SPARQL (sh:sparql/sh:select/sh:ask/sh:construct/sh:update), which is not supported: it would let a shapes document make this pod issue arbitrary outbound HTTP requests"))
      else
        match from_store (as_quads triples) with
        | None => panic
        | Some ground =>
            let! bytes := lift (omap_err (λ e, Unparsable (show_rdf_error e))
                             (serialize turtle (deskolemize ground))) in
            ret (Some (mkShapeDoc bytes iri))
        end
  end.

Definition load_shape (sp : StorageSpace) (container : ContainerUrl) : M W ShapeError (option ShapeDoc) :=
  let container_iri := graph_iri container in
  let! triples := shape_op (store_op (query_triples
      (QObjects container_iri container_iri LDP_CONSTRAINED_BY))) in
  let! bindings := lift (binding_iris container_iri triples) in
  let! binding := lift (one_binding container_iri bindings) in
  match binding with
  | None => ret None
  | Some iri =>
      let! r := lift (binding_resource sp iri) in
      load_document iri r
  end.
End shapes.
