(* ===== verification/Texts.v ===== *)
(** The SPARQL the pod writes: the format strings of [resource.rs], [aux.rs],
    [container.rs], [shapes.rs] and [wac/prp.rs], and the terminals and groups
    their lines are made of.  [Sent] reads the whole texts.

    The terms' own text is oxrdf's ([sparql.rs] only passes it on): a parameter,
    with the N-Triples syntax it writes as its law. *)
From S2P Require Import Prelude Str Terms Space Rdf Dataset Patch Store Backing Sparql Grammar.
From S2P Require Import Resource Container Auxiliary Guard Shapes.
Open Scope list_scope.

(** * The texts *)
Section texts.
Context `{TermDisplay}.

(** [sparql::Literal], by its [Display]. *)
Definition literal_text (l : literal) : string := term_display (TLiteral l).

(** [GroundTerm]'s [Display]. *)
Definition ground_display (t : GroundTerm) : string :=
  match t with
  | GTNamed n => term_display (TNamed n)
  | GTLiteral l => term_display (TLiteral l)
  | GTTriple _ _ _ => term_display (term_of_ground t)
  end.

(** [serialize_for_insert], on the triples of its quads. *)
Definition insert_line (t : triple) : string :=
  term_display (term_of_subject (t_subject t)) +:+ " " +:+ term_display (TNamed (t_predicate t)) +:+ " " +:+
  term_display (t_object t) +:+ " ." +:+ one LF.

(** What the source writes of a ground quad. *)
Lemma insert_line_ground q :
  insert_line (triple_of_ground q) =
  term_display (TNamed (g_subject q)) +:+ " " +:+ term_display (TNamed (g_predicate q)) +:+ " " +:+
  ground_display (g_object q) +:+ " ." +:+ one LF.
Proof. by destruct q as [s p []]. Qed.

Definition serialize_for_insert (ts : list triple) : string := concat_map insert_line ts.

Definition drop_line (g : string) : string := "DROP SILENT GRAPH <" +:+ g +:+ ">; ".

(** ** Updates *)
Definition shelf_line (s : shelf) : string :=
  "GRAPH <" +:+ sh_key s +:+ "> { " +:+ serialize_for_insert (sh_triples s) +:+ " } ".

Definition registry_line (iri : string) (s : shelf) : string :=
  "<" +:+ iri +:+ "> <" +:+ SYS_HAS_SUBGRAPH +:+ "> <" +:+ sh_key s +:+ "> . <" +:+ sh_key s +:+ "> <" +:+
  SYS_GRAPH_NAME +:+ "> <" +:+ sh_name s +:+ "> . ".

Definition put_dataset_text (iri : string) (registered : list ShelfKey) (default_graph : list triple)
    (shelves : list shelf) (media_type : Format) : string :=
  let sys := sys_graph_iri iri in
  let mt := literal_text (simple_literal (format_media_type media_type)) in
  concat_map drop_line registered +:+ concat_map (λ s, drop_line (sh_key s)) shelves +:+
  "DROP SILENT GRAPH <" +:+ iri +:+ ">; DROP SILENT GRAPH <" +:+ sys +:+ ">; " +:+
  "INSERT DATA { " +:+
  "GRAPH <" +:+ iri +:+ "> { " +:+ serialize_for_insert default_graph +:+ " } " +:+
  concat_map shelf_line shelves +:+
  "}; " +:+
  "INSERT DATA { GRAPH <" +:+ sys +:+ "> { " +:+
  "<" +:+ iri +:+ "> <" +:+ SYS_PRESENT +:+ "> true . <" +:+ iri +:+ "> <" +:+ SYS_MEDIA_TYPE +:+ "> " +:+ mt +:+ " . " +:+
  concat_map (registry_line iri) shelves +:+
  " } }".

Definition put_blob_text (iri : string) (registered : list ShelfKey) (media_type : MediaType) : string :=
  let sys := sys_graph_iri iri in
  let mt := literal_text (simple_literal (mt_raw media_type)) in
  concat_map drop_line registered +:+
  "DROP SILENT GRAPH <" +:+ iri +:+ ">; DROP SILENT GRAPH <" +:+ sys +:+ ">; INSERT DATA { GRAPH <" +:+ sys +:+ "> { <" +:+
  iri +:+ "> <" +:+ SYS_PRESENT +:+ "> true . <" +:+
  iri +:+ "> <" +:+ RDF_TYPE +:+ "> <" +:+ SYS_BINARY_RESOURCE +:+ "> . <" +:+
  iri +:+ "> <" +:+ SYS_MEDIA_TYPE +:+ "> " +:+ mt +:+ " } }".

Definition put_rdf_text (iri : string) (body : list triple) : string :=
  let sys := sys_graph_iri iri in
  "DROP SILENT GRAPH <" +:+ iri +:+ ">; INSERT DATA { GRAPH <" +:+ iri +:+ "> { " +:+ serialize_for_insert body +:+
  " } }; INSERT DATA { GRAPH <" +:+ sys +:+ "> { <" +:+ iri +:+ "> <" +:+ SYS_PRESENT +:+ "> true } }".

Definition insert_marked_text (iri : string) (body : list triple) : string :=
  let sys := sys_graph_iri iri in
  "INSERT DATA { GRAPH <" +:+ iri +:+ "> { " +:+ serialize_for_insert body +:+
  " } }; INSERT DATA { GRAPH <" +:+ sys +:+ "> { <" +:+ iri +:+ "> <" +:+ SYS_PRESENT +:+ "> true } }".

Definition delete_rdf_text (iri : string) : string :=
  let sys := sys_graph_iri iri in
  "DROP SILENT GRAPH <" +:+ iri +:+ ">; DROP SILENT GRAPH <" +:+ sys +:+ ">".

Definition containment_removal_text (p c : string) : string :=
  "DELETE DATA { GRAPH <" +:+ p +:+ "> { <" +:+ p +:+ "> <" +:+ LDP_CONTAINS +:+ "> " +:+ term_display (TNamed c) +:+ " } }".

(** [subject_present_guard]. *)
Definition guard_text (a : AuxUrl) : string :=
  let subject_iri := graph_iri (a_subject a) in
  let subject_sys := sys_graph_iri subject_iri in
  "FILTER EXISTS { GRAPH <" +:+ subject_sys +:+ "> { <" +:+ subject_iri +:+ "> <" +:+ SYS_PRESENT +:+ "> true } }".

Definition conditional_put_text (a : AuxUrl) (body : list triple) : string :=
  let iri := graph_iri a in
  let sys := sys_graph_iri iri in
  let guard := guard_text a in
  "DELETE { GRAPH <" +:+ iri +:+ "> { ?s ?p ?o } } WHERE { GRAPH <" +:+ iri +:+ "> { ?s ?p ?o } " +:+ guard +:+
  " }; INSERT { GRAPH <" +:+ iri +:+ "> { " +:+ serialize_for_insert body +:+ " } GRAPH <" +:+ sys +:+ "> { <" +:+
  iri +:+ "> <" +:+ SYS_PRESENT +:+ "> true } } WHERE { " +:+ guard +:+ " }".

(** The operations [delete_subject] joins. *)
Definition drop_operation (g : string) : string := "DROP SILENT GRAPH <" +:+ g +:+ ">".

Definition delete_subject_text `{IriSyntax} (registered : list ShelfKey) (subject : ResourceUrl)
    : outcome ResourceError string :=
  let ops := map drop_operation registered ++
    [drop_operation (graph_iri subject); drop_operation (sys_graph_iri (graph_iri subject))] ++
    mjoin (map (λ kind, let a := aux subject kind in
                 [drop_operation (graph_iri a); drop_operation (sys_graph_iri (graph_iri a))]) AuxKind_ALL) in
  match parent subject with
  | Some p =>
      let? c := node (graph_iri subject) in
      Ok (join_str "; " (ops ++ [containment_removal_text (graph_iri p) c]))
  | None => Ok (join_str "; " ops)
  end.

(** ** Patches *)
Definition render_term (t : PatternTerm) : string :=
  match t with
  | PNamed n => term_display (TNamed n)
  | PLiteral l => literal_text l
  | PVar i => "?v" +:+ pretty i
  end.

Definition pattern_line (p : Pattern) : string :=
  render_term (p_subject p) +:+ " " +:+ render_term (p_predicate p) +:+ " " +:+ render_term (p_object p) +:+ " . ".

Definition render_patterns (patterns : list Pattern) : string := concat_map pattern_line patterns.

(** One pattern [substitute] has written, its terms ground. *)
Definition ground_line (p : gpat) : string :=
  term_display (gp_s p) +:+ " " +:+ term_display (gp_p p) +:+ " " +:+ term_display (gp_o p) +:+ " " +:+ ". ".

Definition ground_text (ps : list gpat) : string := concat_map ground_line ps.

Definition select_text (iri : string) (conditions : list Pattern) : string :=
  "SELECT * WHERE { GRAPH <" +:+ iri +:+ "> { " +:+ render_patterns conditions +:+ " } } LIMIT 2".

Definition ask_text (iri : string) (deletions : list gpat) : string :=
  "ASK { GRAPH <" +:+ iri +:+ "> { " +:+ ground_text deletions +:+ " } }".

Definition patch_text (iri : string) (deletions insertions : list gpat) (guard : string) : string :=
  "WITH <" +:+ iri +:+ "> DELETE { " +:+ ground_text deletions +:+ " } INSERT { " +:+ ground_text insertions +:+
  " } WHERE { " +:+ ground_text deletions +:+ " " +:+ guard +:+ " }".

(** ** Queries *)

(** [exists], and the question of [kind_of]. *)
Definition exists_text (iri : string) : string :=
  let sys := sys_graph_iri iri in
  "ASK { GRAPH <" +:+ sys +:+ "> { <" +:+ iri +:+ "> <" +:+ SYS_PRESENT +:+ "> true } }".

Definition binary_text (iri : string) : string :=
  let sys := sys_graph_iri iri in
  "ASK { GRAPH <" +:+ sys +:+ "> { <" +:+ iri +:+ "> <" +:+ RDF_TYPE +:+ "> <" +:+ SYS_BINARY_RESOURCE +:+ "> } }".

Definition present_row (x : string * string) : string := "(<" +:+ x.1 +:+ "> <" +:+ x.2 +:+ ">) ".

Definition exists_many_text (iris : list string) : string :=
  "SELECT ?g WHERE { VALUES (?sys ?g) { " +:+ concat_map (λ g, present_row (sys_graph_iri g, g)) iris +:+
  " } GRAPH ?sys { ?g <" +:+ SYS_PRESENT +:+ "> true } }".

Definition acl_line (g : string) : string := "<" +:+ g +:+ "> ".

Definition chain_acls_text (values : list string) : string :=
  "SELECT ?g ?s ?p ?o WHERE { VALUES ?g { " +:+ concat_map acl_line values +:+ " } GRAPH ?g { ?s ?p ?o } }".

(** The whole of a graph: [get_dataset] and [get_rdf]. *)
Definition graph_text (g : string) : string :=
  "CONSTRUCT { ?s ?p ?o } WHERE { GRAPH <" +:+ g +:+ "> { ?s ?p ?o } }".

(** The objects of a subject and a predicate: [get_dataset] (a shelf's name),
    [stored_media_type], [registered_shelves], [container_is_empty] and
    [binding], by the variable each names. *)
Definition objects_text (x g s p : string) : string :=
  "CONSTRUCT { <" +:+ s +:+ "> <" +:+ p +:+ "> ?" +:+ x +:+ " } WHERE { GRAPH <" +:+ g +:+ "> { <" +:+ s +:+ "> <" +:+ p +:+
  "> ?" +:+ x +:+ " } }".
End texts.

(** * What the texts rely on *)

(** oxrdf writes a ground term in its N-Triples syntax; [NamedNode::new] accepts
    nothing an IRIREF does not; a digest is written in hexadecimal. *)
Class DisplayLaws `{TermDisplay} : Prop :=
  display_tokens t : writable t → tokens (term_display t) = Some (term_tokens t).

Class IriAlphabet `{IriSyntax} : Prop := iri_alphabet s : iri_valid s = true → legal s.

Class HexDigest `{Hashing} : Prop := hex_digest_legal s : iri_text (sha256_hex s) = true.

(** ** Legal names *)
Lemma legal_app a b : legal a → iri_text b = true → legal (a +:+ b).
Proof.
  intros [Ha Hne] Hb. unfold legal, iri_text in *. split; [|by destruct a].
  clear Hne. induction a as [|x a IH]; [done|]. rewrite app_cons_s. cbn [all_chars] in *.
  apply andb_true_iff in Ha as [-> Ha]. by rewrite (IH Ha).
Qed.

Lemma legal_sys iri : legal iri → legal (sys_graph_iri iri).
Proof. intros [Hi _]. by apply legal_app. Qed.

Lemma legal_shelf_key `{HexDigest} r n : legal (shelf_key_of r n).
Proof. by apply legal_app, hex_digest_legal. Qed.

Lemma legal_present : legal SYS_PRESENT. Proof. done. Qed.
Lemma legal_media_type : legal SYS_MEDIA_TYPE. Proof. done. Qed.
Lemma legal_has_subgraph : legal SYS_HAS_SUBGRAPH. Proof. done. Qed.
Lemma legal_graph_name : legal SYS_GRAPH_NAME. Proof. done. Qed.
Lemma legal_binary : legal SYS_BINARY_RESOURCE. Proof. done. Qed.
Lemma legal_type : legal RDF_TYPE. Proof. done. Qed.
Lemma legal_contains : legal LDP_CONTAINS. Proof. done. Qed.
Lemma legal_constrained_by : legal LDP_CONSTRAINED_BY. Proof. done. Qed.

#[export] Hint Resolve legal_sys legal_present legal_media_type legal_has_subgraph legal_graph_name legal_binary
  legal_type legal_contains legal_constrained_by : texts.

(** ** Variables *)
Lemma digit_char n : (n < 10)%N →
  is_ascii_digit (pretty_N_char n) = true ∧ (N_of_ascii (pretty_N_char n) - 48)%N = n.
Proof.
  intros Hn. assert (n ∈ [0; 1; 2; 3; 4; 5; 6; 7; 8; 9]%N) as Hi.
  { rewrite !elem_of_cons. lia. }
  repeat (apply elem_of_cons in Hi as [-> | Hi]; [done|]). by apply elem_of_nil in Hi.
Qed.

(** The digits of a numeral, and what they read as. *)
Lemma digits_of x s : ∃ k, (∀ acc, numeral acc (pretty_N_go x s) = numeral (acc * 10 ^ k + x) s) ∧
  (all_chars is_ascii_digit s = true → all_chars is_ascii_digit (pretty_N_go x s) = true).
Proof.
  revert s. induction (N.lt_wf_0 x) as [x _ IH]. intros s. destruct (decide (x = 0)%N) as [->|Hx].
  - exists 0%N. rewrite pretty_N_go_0. split; [|done]. intros acc. f_equal. cbn. lia.
  - rewrite pretty_N_go_step by lia.
    destruct (digit_char (x mod 10)) as [Hd Hv]; [by apply N.mod_lt|].
    destruct (IH (x / 10)%N ltac:(apply N.div_lt; lia) (String (pretty_N_char (x mod 10)) s)) as (k & Hk & Hs).
    exists (N.succ k). split.
    + intros acc. rewrite Hk. cbn [numeral]. rewrite Hd, Hv. f_equal. rewrite N.pow_succ_r'.
      pose proof (N.div_mod x 10). lia.
    + intros H1. apply Hs. cbn. by rewrite Hd, H1.
Qed.

Lemma pretty_digits i : numeral 0 (pretty i) = Some (N.of_nat i) ∧ all_chars is_ascii_digit (pretty i) = true ∧ pretty i ≠ "".
Proof.
  change (pretty i) with (pretty (N.of_nat i)). unfold pretty, pretty_N. destruct (decide (N.of_nat i = 0%N)) as [E|E].
  - by rewrite E.
  - destruct (digits_of (N.of_nat i) "") as (k & Hk & Hd). revert Hk Hd.
    generalize (pretty_N_go (N.of_nat i) ""). intros s Hk Hd. pose proof (Hk 0%N) as H0. cbn in H0.
    split; [done|]. split; [by apply Hd|]. intros ->. cbn in H0. injection H0. lia.
Qed.

Lemma var_index_name i : var_index (var_name i) = Some i.
Proof.
  destruct (pretty_digits i) as (Hn & _ & Hne). unfold var_index, var_name. rewrite strip_prefix_app.
  destruct (pretty i) as [|a s]; [done|]. rewrite Hn. cbn. by rewrite Nat2N.id.
Qed.

Lemma scans_var_chars acc s : all_chars is_ascii_alphanumeric s = true → scans (LVar acc) s [] (LVar (acc +:+ s)).
Proof.
  unfold scans. revert acc. induction s as [|a s IH]; intros acc Hs; [by rewrite app_nil_r_s|].
  cbn [all_chars] in Hs. apply andb_true_iff in Hs as [Ha Hs]. cbn [scan step]. rewrite Ha. cbn.
  rewrite (IH _ Hs). cbn. by rewrite app_assoc_s.
Qed.

Lemma digit_alphanumeric s : all_chars is_ascii_digit s = true → all_chars is_ascii_alphanumeric s = true.
Proof.
  induction s as [|a s IH]; [done|]. cbn. intros [Ha Hs]%andb_true_iff. rewrite (IH Hs), andb_true_r.
  unfold is_ascii_alphanumeric. rewrite Ha. by rewrite ?orb_true_r.
Qed.

Lemma tokens_var i : tokens ("?v" +:+ pretty i) = Some [TkVar (var_name i)].
Proof.
  destruct (pretty_digits i) as (_ & Hd & _). apply (tokens_scans _ [] _ (LVar (var_name i))); [|done].
  eapply (scans_app _ _ [] (LVar "v") _ []); [done|]. by apply scans_var_chars, digit_alphanumeric.
Qed.

(** * Lines *)
Definition gpat_of_triple (t : triple) : gpat :=
  GPat (term_of_subject (t_subject t)) (TNamed (t_predicate t)) (t_object t).

Definition gpat_tokens (p : gpat) : list token :=
  term_tokens (gp_s p) ++ term_tokens (gp_p p) ++ term_tokens (gp_o p) ++ [TkPunct "."].

Definition gpat_elem (p : gpat) : elem := ETriple (ITerm (gp_s p)) (ITerm (gp_p p)) (ITerm (gp_o p)).

(** Ground terms with legal IRIs, wherever they stand; and a pattern that is a
    triple pattern, its predicate an IRI. *)
Definition writable_terms (p : gpat) : Prop := writable (gp_s p) ∧ writable (gp_p p) ∧ writable (gp_o p).

Definition is_named (t : term) : bool := match t with TNamed _ => true | _ => false end.

Definition writable_gpat (p : gpat) : Prop := writable_terms p ∧ is_named (gp_p p) = true.

Definition pattern_term_item (t : PatternTerm) : item :=
  match t with
  | PNamed n => ITerm (TNamed n)
  | PLiteral l => ITerm (TLiteral l)
  | PVar i => IVar (var_name i)
  end.

Definition pattern_term_tokens (t : PatternTerm) : list token :=
  match t with
  | PNamed n => [TkIri n]
  | PLiteral l => literal_tokens l
  | PVar i => [TkVar (var_name i)]
  end.

Definition pattern_tokens (p : Pattern) : list token :=
  pattern_term_tokens (p_subject p) ++ pattern_term_tokens (p_predicate p) ++ pattern_term_tokens (p_object p) ++
  [TkPunct "."].

Definition pattern_elem (p : Pattern) : elem :=
  ETriple (pattern_term_item (p_subject p)) (pattern_term_item (p_predicate p)) (pattern_term_item (p_object p)).

Definition writable_pattern_term (t : PatternTerm) : Prop :=
  match t with PNamed n => legal n | PLiteral l => writable_literal l | PVar _ => True end.

(** What [patch.rs] lets through: no literal for a predicate. *)
Definition writable_pattern (p : Pattern) : Prop :=
  writable_pattern_term (p_subject p) ∧ writable_pattern_term (p_predicate p) ∧ writable_pattern_term (p_object p) ∧
  match p_predicate p with PLiteral _ => False | _ => True end.

Lemma writable_gpat_triple t : writable_triple t → writable_gpat (gpat_of_triple t).
Proof. destruct t as [[s|b] p o]; intros (Hs & Hp & Ho); [done|done]. Qed.

Section lines.
Context `{DisplayLaws}.

Lemma scans_ground_line p : writable_terms p → scans LStart (ground_line p) (gpat_tokens p) LStart.
Proof.
  intros (Hs & Hp & Ho). pose proof (display_tokens _ Hs). pose proof (display_tokens _ Hp). pose proof (display_tokens _ Ho).
  unfold ground_line, gpat_tokens. scan_to.
Qed.

Lemma scans_ground_text ps : Forall writable_terms ps → scans LStart (ground_text ps) (mjoin (map gpat_tokens ps)) LStart.
Proof. rewrite Forall_forall. intros Hp. apply scans_concat. intros p Hi. by apply scans_ground_line, Hp. Qed.

Lemma scans_insert_line t : writable_triple t → scans LStart (insert_line t) (gpat_tokens (gpat_of_triple t)) LStart.
Proof.
  intros Ht%writable_gpat_triple. destruct Ht as [(Hs & Hp & Ho) _]. cbn [gpat_of_triple gp_s gp_p gp_o] in *.
  pose proof (display_tokens _ Hs). pose proof (display_tokens _ Hp). pose proof (display_tokens _ Ho).
  unfold insert_line, gpat_tokens. cbn [gpat_of_triple gp_s gp_p gp_o]. change (one LF) with (String LF ""). scan_to.
Qed.

Lemma scans_insert ts : Forall writable_triple ts →
  scans LStart (serialize_for_insert ts) (mjoin (map gpat_tokens (map gpat_of_triple ts))) LStart.
Proof.
  rewrite Forall_forall. intros Ht. rewrite map_map. apply scans_concat. intros t Hi. by apply scans_insert_line, Ht.
Qed.

Lemma tokens_literal v : tokens (literal_text (simple_literal v)) = Some [TkString v].
Proof. apply (display_tokens (TLiteral (simple_literal v))). done. Qed.

Lemma tokens_pattern_term t : writable_pattern_term t → tokens (render_term t) = Some (pattern_term_tokens t).
Proof.
  destruct t as [n|l|i]; intros Ht; [exact (display_tokens (TNamed n) Ht)|exact (display_tokens (TLiteral l) Ht)|].
  apply tokens_var.
Qed.

Lemma scans_pattern_line p : writable_pattern p → scans LStart (pattern_line p) (pattern_tokens p) LStart.
Proof.
  intros (Hs & Hp & Ho & _). pose proof (tokens_pattern_term _ Hs). pose proof (tokens_pattern_term _ Hp).
  pose proof (tokens_pattern_term _ Ho). unfold pattern_line, pattern_tokens. scan_to.
Qed.

Lemma scans_patterns ps : Forall writable_pattern ps →
  scans LStart (render_patterns ps) (mjoin (map pattern_tokens ps)) LStart.
Proof. rewrite Forall_forall. intros Hp. apply scans_concat. intros p Hi. by apply scans_pattern_line, Hp. Qed.
End lines.
#[export] Hint Resolve scans_ground_text scans_insert tokens_literal scans_patterns : texts.

(** * Groups of lines *)
Lemma block_gpats ps ts es : Forall writable_gpat ps → block ts es →
  block (mjoin (map gpat_tokens ps) ++ ts) (map gpat_elem ps ++ es).
Proof.
  intros Hp Hb. induction Hp as [|[s p o] ps [(Hs & Hpr & Ho) Hn] _ IH]; [done|]. cbn [gp_s gp_p gp_o] in *.
  destruct p as [n| | |]; try done. change (mjoin (map gpat_tokens (GPat s (TNamed n) o :: ps)))
    with (gpat_tokens (GPat s (TNamed n) o) ++ mjoin (map gpat_tokens ps)).
  unfold gpat_tokens at 1. rewrite <- !app_assoc.
  apply (block_triple (term_tokens s) [TkIri n] (term_tokens o)); [by constructor..|done].
Qed.

Lemma block_all ps : Forall writable_gpat ps → block (mjoin (map gpat_tokens ps)) (map gpat_elem ps).
Proof. intros Hp. rewrite <- (app_nil_r (mjoin _)), <- (app_nil_r (map gpat_elem ps)). apply block_gpats; [done|constructor]. Qed.

Lemma block_triples ts : Forall writable_triple ts →
  block (mjoin (map gpat_tokens (map gpat_of_triple ts))) (map gpat_elem (map gpat_of_triple ts)).
Proof. intros Ht. apply block_all, Forall_map. eapply Forall_impl; [exact Ht|]. apply writable_gpat_triple. Qed.

Lemma pattern_term_subject t : writable_pattern_term t → subject_tokens (pattern_term_tokens t) (pattern_term_item t).
Proof. destruct t as [n|l|i]; intros Ht; [exact (st_term (TNamed n) Ht)|exact (st_term (TLiteral l) Ht)|constructor]. Qed.

Lemma block_patterns ps : Forall writable_pattern ps → block (mjoin (map pattern_tokens ps)) (map pattern_elem ps).
Proof.
  intros Hp. induction Hp as [|[s p o] ps (Hs & Hpr & Ho & Hn) _ IH]; [constructor|]. cbn [p_subject p_predicate p_object] in *.
  change (mjoin (map pattern_tokens (mkPattern s p o :: ps)))
    with (pattern_tokens (mkPattern s p o) ++ mjoin (map pattern_tokens ps)).
  unfold pattern_tokens at 1. rewrite <- !app_assoc. apply block_triple; [by apply pattern_term_subject| | |done].
  - destruct p; [constructor|done|constructor].
  - by apply subject_item, pattern_term_subject.
Qed.

(** A group in a named graph, and what comes after it. *)
Lemma block_named g body es ts es' : legal g → block body es → block ts es' →
  block (TkWord "GRAPH" :: TkIri g :: group body ++ ts) (EGraph (ITerm (TNamed g)) es :: es').
Proof.
  intros Hg Hb Ht. unfold group. rewrite <- app_comm_cons, <- app_assoc.
  by apply (block_graph [TkIri g] (ITerm (TNamed g)) body es ts es' (it_term (TNamed g) Hg)).
Qed.

Lemma block_guard body es ts es' : block body es → block ts es' →
  block (TkWord "FILTER" :: TkWord "EXISTS" :: group body ++ ts) (EExists es :: es').
Proof.
  intros Hb Ht. unfold group. rewrite <- app_comm_cons, <- app_assoc. by apply (block_exists body es ts es').
Qed.

Lemma block_named_last g body es : legal g → block body es →
  block (TkWord "GRAPH" :: TkIri g :: group body) [EGraph (ITerm (TNamed g)) es].
Proof. intros Hg Hb. rewrite <- (app_nil_r (group body)). by apply block_named; [| |constructor]. Qed.

(** [<s> <p> o], and the same with a period after it. *)
Definition line_elem (s p : string) (o : term) : elem := gpat_elem (GPat (TNamed s) (TNamed p) o).

Lemma block_line s p o os : legal s → item_tokens os (ITerm o) → block (TkIri s :: TkIri p :: os) [line_elem s p o].
Proof. intros Hs Ho. by apply (block_last [TkIri s] [TkIri p] os); [apply (st_term (TNamed s))|constructor|]. Qed.

Lemma block_line_next s p o os ts es : legal s → item_tokens os (ITerm o) → block ts es →
  block (TkIri s :: TkIri p :: os ++ TkPunct "." :: ts) (line_elem s p o :: es).
Proof. intros Hs Ho Hb. by apply (block_triple [TkIri s] [TkIri p] os); [apply (st_term (TNamed s))|constructor|..]. Qed.

Lemma iri_item n : legal n → item_tokens [TkIri n] (ITerm (TNamed n)).
Proof. exact (it_term (TNamed n)). Qed.

Lemma string_item v : item_tokens [TkString v] (ITerm (TLiteral (simple_literal v))).
Proof. by apply (it_term (TLiteral (simple_literal v))). Qed.

(** [?s ?p ?o]. *)
Definition spo : list elem := [ETriple (IVar "s") (IVar "p") (IVar "o")].

Lemma block_spo : block [TkVar "s"; TkVar "p"; TkVar "o"] spo.
Proof. apply (block_last [TkVar "s"] [TkVar "p"] [TkVar "o"]); constructor. Qed.

#[export] Hint Resolve block_nil block_all block_triples block_patterns block_named block_guard block_line
  iri_item string_item it_true block_spo : texts.

(** ** What they mean *)
Lemma ground_gpats g ps : mapM (ground_elem g) (map gpat_elem ps) = Some (pair g <$> ps).
Proof. induction ps as [|[s p o] ps IH]; [done|]. cbn. by rewrite IH. Qed.

Lemma ground_default g ps es l : ground_elems (Some g) es = Some l →
  ground_elems (Some g) (map gpat_elem ps ++ es) = Some ((pair g <$> ps) ++ l).
Proof. intros He. induction ps as [|[s p o] ps IH]; [done|]. cbn. by rewrite IH. Qed.

Lemma ground_all g ps : ground_elems (Some g) (map gpat_elem ps) = Some (pair g <$> ps).
Proof. rewrite <- (app_nil_r (map gpat_elem ps)), (ground_default g ps [] []) by done. by rewrite app_nil_r. Qed.

Lemma ground_graph d g ps es l : ground_elems d es = Some l →
  ground_elems d (EGraph (ITerm (TNamed g)) (map gpat_elem ps) :: es) = Some ((pair g <$> ps) ++ l).
Proof. intros He. cbn [ground_elems]. rewrite ground_gpats. cbn. by rewrite He. Qed.

Lemma locate_triples g ts : Forall writable_triple ts →
  mapM (λ x : string * gpat, pair x.1 <$> triple_of_gpat x.2) (pair g <$> map gpat_of_triple ts) = Some (in_graph g ts).
Proof.
  intros Ht. induction Ht as [|[[s|b] p o] ts (Hs & _) _ IH]; [done| |done]. cbn. by rewrite IH.
Qed.
