(* ===== verification/Sent.v ===== *)
(** Every text the pod sends its store reads back, under SPARQL 1.1's own
    grammar ([Sparql]), as the operations or the query the rest of the
    development gives it: nothing a client sent can leave its delimiter. *)
From S2P Require Import Prelude Str Terms Space Rdf Dataset Patch Store Backing Sparql Grammar.
From S2P Require Import Resource Container Auxiliary Guard Shapes Texts.
Open Scope list_scope.

(** * Updates *)
Lemma mapM_app_Some {A B} (f : A → option B) l1 l2 k1 k2 :
  mapM f l1 = Some k1 → mapM f l2 = Some k2 → mapM f (l1 ++ l2) = Some (k1 ++ k2).
Proof. rewrite !mapM_Some. apply Forall2_app. Qed.

Lemma located_graph g ts es l : Forall writable_triple ts → located_elems es = Some l →
  located_elems (EGraph (ITerm (TNamed g)) (map gpat_elem (map gpat_of_triple ts)) :: es) = Some (in_graph g ts ++ l).
Proof.
  unfold located_elems. intros Ht He. destruct (ground_elems None es) as [l0|] eqn:E; [|done]. cbn [mbind option_bind] in He.
  rewrite (ground_graph None g _ es l0) by done. cbn [mbind option_bind]. apply mapM_app_Some; [by apply locate_triples|done].
Qed.

Lemma located_one g ts : Forall writable_triple ts →
  located_elems [EGraph (ITerm (TNamed g)) (map gpat_elem (map gpat_of_triple ts))] = Some (in_graph g ts).
Proof. intros Ht. rewrite (located_graph g ts [] []) by done. by rewrite app_nil_r. Qed.

Lemma insert_meaning g ts : Forall writable_triple ts →
  update_meaning (UInsertData [EGraph (ITerm (TNamed g)) (map gpat_elem (map gpat_of_triple ts))]) =
  Some (InsertData (in_graph g ts)).
Proof. intros Ht. cbn [update_meaning]. by rewrite located_one. Qed.

Lemma read_update_scan us text ts ts' ops :
  scans LStart text ts LStart → program ts' us → ts = ts' → Forall2 (λ u op, update_meaning u = Some op) us ops →
  read_update text = Some ops.
Proof.
  intros Hs Hp <- Hm. eapply read_update_program; [by apply tokens_reads|done|]. by apply mapM_Some.
Qed.

(** Find the grammar of an update; align the terminals. *)
Ltac grammar :=
  repeat first [eapply prog_last | eapply prog_next];
  first [ eapply op_drop | eapply op_insert_data | eapply op_delete_data | eapply op_with
        | eapply op_delete_where | eapply op_insert_where ];
  try solve [eauto 10 with texts].

Ltac align := unfold group; norm_tokens; reflexivity.

Ltac meanings := repeat apply Forall2_cons_2; try apply Forall2_nil_2; try done; try (apply insert_meaning; done).

Section updates.
Context `{DisplayLaws}.

Lemma writable_present iri : legal iri → writable_triple (present_triple iri).
Proof. intros Hi. by split_and!. Qed.

Lemma put_rdf_reads iri ts : legal iri → Forall writable_triple ts →
  read_update (put_rdf_text iri ts) = Some (put_rdf_ops iri ts).
Proof.
  intros Hi Ht. unfold put_rdf_text, put_rdf_ops, present_at. pose proof (legal_sys iri Hi) as Hs.
  pose proof (scans_insert ts Ht). revert Hs. generalize (sys_graph_iri iri). intros sys Hs.
  eapply (read_update_scan [UDrop iri; UInsertData [EGraph (ITerm (TNamed iri)) (map gpat_elem (map gpat_of_triple ts))];
    UInsertData [EGraph (ITerm (TNamed sys)) [line_elem iri SYS_PRESENT lit_true]]]).
  - scan_text.
  - grammar.
  - align.
  - meanings.
Qed.

Lemma insert_marked_reads iri ts : legal iri → Forall writable_triple ts →
  read_update (insert_marked_text iri ts) = Some (insert_marked_ops iri ts).
Proof.
  intros Hi Ht. unfold insert_marked_text, insert_marked_ops, present_at. pose proof (legal_sys iri Hi) as Hs.
  pose proof (scans_insert ts Ht). revert Hs. generalize (sys_graph_iri iri). intros sys Hs.
  eapply (read_update_scan [UInsertData [EGraph (ITerm (TNamed iri)) (map gpat_elem (map gpat_of_triple ts))];
    UInsertData [EGraph (ITerm (TNamed sys)) [line_elem iri SYS_PRESENT lit_true]]]).
  - scan_text.
  - grammar.
  - align.
  - meanings.
Qed.

Lemma delete_rdf_reads iri : legal iri → read_update (delete_rdf_text iri) = Some (delete_rdf_ops iri).
Proof.
  intros Hi. unfold delete_rdf_text, delete_rdf_ops. pose proof (legal_sys iri Hi) as Hs.
  revert Hs. generalize (sys_graph_iri iri). intros sys Hs.
  eapply (read_update_scan [UDrop iri; UDrop sys]); [scan_text|grammar|align|meanings].
Qed.

(** The drops of a registry, before the rest. *)
Definition drop_tokens (g : string) : list token :=
  [TkWord "DROP"; TkWord "SILENT"; TkWord "GRAPH"; TkIri g; TkPunct ";"].

Lemma scans_drops ks : Forall legal ks → scans LStart (concat_map drop_line ks) (mjoin (map drop_tokens ks)) LStart.
Proof.
  rewrite Forall_forall. intros Hk. apply scans_concat. intros k Hi. pose proof (Hk k Hi). unfold drop_line, drop_tokens. scan_to.
Qed.

Lemma program_drops ks ts us : program ts us → program (mjoin (map drop_tokens ks) ++ ts) (map UDrop ks ++ us).
Proof.
  intros Hp. induction ks as [|k ks IH]; [done|]. cbn. exact (prog_next _ _ _ _ (op_drop k) IH).
Qed.

Lemma meanings_drops ks us ops : Forall2 (λ u op, update_meaning u = Some op) us ops →
  Forall2 (λ u op, update_meaning u = Some op) (map UDrop ks ++ us) (map DropSilent ks ++ ops).
Proof. intros Hu. apply Forall2_app; [|done]. induction ks as [|k ks IH]; constructor; done. Qed.

Lemma put_blob_reads r reg mt : legal (graph_iri r) → Forall legal reg →
  read_update (put_blob_text (graph_iri r) reg mt) = Some (put_blob_ops r reg mt).
Proof.
  unfold put_blob_text, put_blob_ops. generalize (graph_iri r). intros iri Hi Hr.
  pose proof (legal_sys iri Hi) as Hs. pose proof (scans_drops reg Hr). pose proof (tokens_literal (mt_raw mt)).
  revert Hs. generalize (sys_graph_iri iri). intros sys Hs.
  eapply (read_update_scan (map UDrop reg ++ [UDrop iri; UDrop sys; UInsertData [EGraph (ITerm (TNamed sys))
    [line_elem iri SYS_PRESENT lit_true; line_elem iri RDF_TYPE (TNamed SYS_BINARY_RESOURCE);
     line_elem iri SYS_MEDIA_TYPE (TLiteral (simple_literal (mt_raw mt)))]]])).
  - scan_text.
  - apply program_drops. grammar. apply block_named; [done| |constructor].
    apply block_line_next; [done|apply it_true|]. apply block_line_next; [done|auto with texts|]. auto with texts.
  - align.
  - apply meanings_drops. meanings.
Qed.

(** *** A dataset's shelves *)
Definition writable_shelf (s : shelf) : Prop :=
  legal (sh_key s) ∧ legal (sh_name s) ∧ Forall writable_triple (sh_triples s).

Definition shelf_tokens (s : shelf) : list token :=
  TkWord "GRAPH" :: TkIri (sh_key s) :: group (mjoin (map gpat_tokens (map gpat_of_triple (sh_triples s)))).

Definition shelf_elem (s : shelf) : elem :=
  EGraph (ITerm (TNamed (sh_key s))) (map gpat_elem (map gpat_of_triple (sh_triples s))).

Definition registry_triples (iri : string) (s : shelf) : list triple :=
  [Triple (SNamed iri) SYS_HAS_SUBGRAPH (TNamed (sh_key s)); Triple (SNamed (sh_key s)) SYS_GRAPH_NAME (TNamed (sh_name s))].

Lemma scans_shelves shelves : Forall writable_shelf shelves →
  scans LStart (concat_map shelf_line shelves) (mjoin (map shelf_tokens shelves)) LStart.
Proof.
  rewrite Forall_forall. intros Hk. apply scans_concat. intros s Hi. destruct (Hk s Hi) as (H1 & _ & Ht).
  pose proof (scans_insert _ Ht). unfold shelf_line, shelf_tokens, group. scan_to.
Qed.

Lemma block_shelves shelves : Forall writable_shelf shelves →
  block (mjoin (map shelf_tokens shelves)) (map shelf_elem shelves).
Proof.
  induction 1 as [|s shelves (H1 & _ & Ht) _ IH]; [constructor|]. exact (block_named _ _ _ _ _ H1 (block_triples _ Ht) IH).
Qed.

Lemma scans_registry iri shelves : legal iri → Forall writable_shelf shelves →
  scans LStart (concat_map (registry_line iri) shelves)
    (mjoin (map gpat_tokens (map gpat_of_triple (mjoin (map (registry_triples iri) shelves))))) LStart.
Proof.
  intros Hi Hf. induction Hf as [|s shelves (H1 & H2 & _) _ IH]; [done|]. cbn [concat_map].
  change (mjoin (map gpat_tokens (map gpat_of_triple (mjoin (map (registry_triples iri) (s :: shelves))))))
    with (mjoin (map gpat_tokens (map gpat_of_triple (registry_triples iri s))) ++
          mjoin (map gpat_tokens (map gpat_of_triple (mjoin (map (registry_triples iri) shelves))))).
  apply (scans_app _ _ _ LStart); [|done]. unfold registry_line. scan_to.
Qed.

Lemma writable_registry iri shelves : legal iri → Forall writable_shelf shelves →
  Forall writable_triple (mjoin (map (registry_triples iri) shelves)).
Proof.
  intros Hi Hf. induction Hf as [|s shelves (H1 & H2 & _) _ IH]; [constructor|].
  do 2 (apply Forall_cons_2; [by repeat split; try apply Hi; try apply H1; try apply H2|]). exact IH.
Qed.

Lemma located_shelves shelves : Forall writable_shelf shelves →
  located_elems (map shelf_elem shelves) = Some (mjoin (map (λ s, in_graph (sh_key s) (sh_triples s)) shelves)).
Proof.
  induction 1 as [|s shelves (_ & _ & Ht) _ IH]; [done|]. exact (located_graph _ _ _ _ Ht IH).
Qed.

Lemma put_dataset_reads r reg dg shelves f :
  legal (graph_iri r) → Forall legal reg → Forall writable_triple dg → Forall writable_shelf shelves →
  read_update (put_dataset_text (graph_iri r) reg dg shelves f) = Some (put_dataset_ops r reg dg shelves f).
Proof.
  unfold put_dataset_text, put_dataset_ops. generalize (graph_iri r). intros iri Hi Hr Hd Hf.
  pose proof (legal_sys iri Hi) as Hs. pose proof (scans_drops reg Hr). pose proof (scans_insert dg Hd).
  assert (scans LStart (concat_map (λ s, drop_line (sh_key s)) shelves) (mjoin (map (λ s, drop_tokens (sh_key s)) shelves)) LStart).
  { apply scans_concat. rewrite Forall_forall in Hf. intros s Hx. destruct (Hf s Hx) as [Hk _]. unfold drop_line, drop_tokens. scan_to. }
  pose proof (scans_shelves _ Hf). pose proof (scans_registry iri _ Hi Hf). pose proof (writable_registry iri _ Hi Hf) as Hw.
  pose proof (tokens_literal (format_media_type f)). revert Hs. generalize (sys_graph_iri iri). intros sys Hs.
  set (registry := [present_triple iri; media_type_triple iri (format_media_type f)] ++ mjoin (map (registry_triples iri) shelves)).
  eapply (read_update_scan (map UDrop reg ++ map UDrop (map sh_key shelves) ++ [UDrop iri; UDrop sys;
    UInsertData (EGraph (ITerm (TNamed iri)) (map gpat_elem (map gpat_of_triple dg)) :: map shelf_elem shelves);
    UInsertData [EGraph (ITerm (TNamed sys)) (map gpat_elem (map gpat_of_triple registry))]])).
  - scan_text.
  - apply program_drops, program_drops. grammar.
    + apply block_named; [done|by apply block_triples|by apply block_shelves].
    + apply block_named; [done| |constructor]. apply block_line_next; [done|apply it_true|].
      apply block_line_next; [done|apply string_item|]. by apply block_triples.
  - rewrite (map_map sh_key drop_tokens). align.
  - apply meanings_drops. rewrite <- (map_map sh_key DropSilent). apply meanings_drops. meanings.
    + cbn [update_meaning]. by rewrite (located_graph _ _ _ _ Hd (located_shelves _ Hf)).
    + apply insert_meaning. by do 2 (apply Forall_cons_2; [split; [exact Hi|split; done]|]).
Qed.

(** *** Containment and the guard of an auxiliary *)
Definition present_pat_at (sys iri : string) : string * gpat := (sys, GPat (TNamed iri) (TNamed SYS_PRESENT) lit_true).

Lemma removal_operation p c : legal p → legal c →
  scans LStart (containment_removal_text p c)
    (TkWord "DELETE" :: TkWord "DATA" :: group (TkWord "GRAPH" :: TkIri p :: group [TkIri p; TkIri LDP_CONTAINS; TkIri c])) LStart ∧
  operation (TkWord "DELETE" :: TkWord "DATA" :: group (TkWord "GRAPH" :: TkIri p :: group [TkIri p; TkIri LDP_CONTAINS; TkIri c]))
    (UDeleteData [EGraph (ITerm (TNamed p)) [line_elem p LDP_CONTAINS (TNamed c)]]).
Proof.
  intros Hp Hc. pose proof (display_tokens (TNamed c) Hc). split.
  - unfold containment_removal_text, group. scan_to.
  - apply op_delete_data, block_named_last; [done|]. by apply block_line; [|apply iri_item].
Qed.

Definition guard_tokens (sys iri : string) : list token :=
  TkWord "FILTER" :: TkWord "EXISTS" :: group (TkWord "GRAPH" :: TkIri sys :: group [TkIri iri; TkIri SYS_PRESENT; TkWord "true"]).

Definition guard_elem (sys iri : string) : elem := EExists [EGraph (ITerm (TNamed sys)) [line_elem iri SYS_PRESENT lit_true]].

Lemma scans_guard a : legal (graph_iri (a_subject a)) →
  scans LStart (guard_text a) (guard_tokens (sys_graph_iri (graph_iri (a_subject a))) (graph_iri (a_subject a))) LStart.
Proof.
  intros Hi. unfold guard_text, guard_tokens, group. pose proof (legal_sys _ Hi) as Hs. revert Hi Hs.
  generalize (sys_graph_iri (graph_iri (a_subject a))) (graph_iri (a_subject a)). intros sys iri Hi Hs. scan_to.
Qed.

Lemma block_guarded sys iri : legal sys → legal iri → block (guard_tokens sys iri) [guard_elem sys iri].
Proof.
  intros Hs Hi. unfold guard_tokens. rewrite <- (app_nil_r (group (TkWord "GRAPH" :: _))).
  apply block_guard; [|constructor]. apply block_named_last; [done|]. by apply block_line; [|apply it_true].
Qed.

Lemma conditional_put_reads a ts : legal (graph_iri a) → legal (graph_iri (a_subject a)) → Forall writable_triple ts →
  read_update (conditional_put_text a ts) = Some (conditional_put_ops a ts).
Proof.
  intros Hi Hj Ht. pose proof (scans_guard a Hj). pose proof (scans_insert ts Ht).
  unfold conditional_put_text, conditional_put_ops, subject_present_guard, present_pat, present_at.
  pose proof (legal_sys _ Hi) as Hs. pose proof (legal_sys _ Hj) as Hsj.
  set (irij := graph_iri (a_subject a)) in *. set (iri := graph_iri a) in *.
  set (sysj := sys_graph_iri irij) in *. set (sys := sys_graph_iri iri) in *. set (guard := guard_text a) in *.
  clearbody guard sysj sys. clearbody irij iri.
  eapply (read_update_scan [UModify None [EGraph (ITerm (TNamed iri)) spo] [] (EGraph (ITerm (TNamed iri)) spo :: [guard_elem sysj irij]);
    UModify None [] (EGraph (ITerm (TNamed iri)) (map gpat_elem (map gpat_of_triple ts)) ::
                     [EGraph (ITerm (TNamed sys)) [line_elem iri SYS_PRESENT lit_true]]) [guard_elem sysj irij]]).
  - scan_text.
  - grammar.
  - align.
  - meanings.
    + cbn. by rewrite bool_decide_eq_true_2.
    + cbn [update_meaning clears]. rewrite (ground_graph None iri _ _ [present_pat_at sys iri]) by done. cbn.
      done.
Qed.

(** *** A cascade *)

(** A text that is one operation. *)
Definition says (text : string) (u : update_syntax) : Prop :=
  ∃ ts, scans LStart text ts LStart ∧ operation ts u.

Lemma says_drop g : legal g → says (drop_operation g) (UDrop g).
Proof.
  intros Hg. exists [TkWord "DROP"; TkWord "SILENT"; TkWord "GRAPH"; TkIri g]. split; [|constructor].
  unfold drop_operation. scan_to.
Qed.

Lemma says_drops gs : Forall legal gs → Forall2 says (map drop_operation gs) (map UDrop gs).
Proof. induction 1 as [|g gs Hg _ IH]; constructor; [by apply says_drop|done]. Qed.

Lemma says_joined l us : Forall2 says l us → l ≠ [] → ∃ ts, scans LStart (join_str "; " l) ts LStart ∧ program ts us.
Proof.
  induction 1 as [|text u l us (ts & Hs & Ho) Hl IH]; [done|]. intros _. destruct l as [|text' l].
  - inversion Hl. exists ts. split; [done|by constructor].
  - destruct (IH ltac:(done)) as (rest & Hr & Hp). exists (ts ++ TkPunct ";" :: rest). split; [|by constructor].
    change (join_str "; " (text :: text' :: l)) with (text +:+ "; " +:+ join_str "; " (text' :: l)). scan_to.
Qed.

Lemma says_update l us ops : Forall2 says l us → l ≠ [] → Forall2 (λ u op, update_meaning u = Some op) us ops →
  read_update (join_str "; " l) = Some ops.
Proof.
  intros Hl Hn Hm. destruct (says_joined l us Hl Hn) as (ts & Hs & Hp). by eapply (read_update_scan us).
Qed.

(** The graphs a cascade drops. *)
Definition cascade_graphs (reg : list ShelfKey) (r : ResourceUrl) : list string :=
  reg ++ [graph_iri r; sys_graph_iri (graph_iri r)] ++
  mjoin (map (λ kind, [graph_iri (aux r kind); sys_graph_iri (graph_iri (aux r kind))]) AuxKind_ALL).

Lemma legal_cascade reg r : Forall legal reg → legal (graph_iri r) → (∀ k, legal (graph_iri (aux r k))) →
  Forall legal (cascade_graphs reg r).
Proof.
  intros Hr Hi Ha. apply Forall_app. split; [done|]. repeat (apply Forall_cons_2; [by auto using legal_sys|]). constructor.
Qed.

Lemma delete_subject_reads `{IriSyntax} reg r text ops :
  Forall legal reg → legal (graph_iri r) → (∀ k, legal (graph_iri (aux r k))) →
  (∀ p, parent r = Some p → legal (graph_iri p)) →
  delete_subject_text reg r = Ok text → delete_subject_ops reg r = Ok ops → read_update text = Some ops.
Proof.
  intros Hr Hi Ha Hp. unfold delete_subject_text, delete_subject_ops, containment_removal.
  pose proof (says_drops _ (legal_cascade reg r Hr Hi Ha)) as Hd.
  assert (Forall2 (λ u op, update_meaning u = Some op) (map UDrop (cascade_graphs reg r)) (map DropSilent (cascade_graphs reg r))) as Hm.
  { generalize (cascade_graphs reg r). intros l. induction l; by constructor. }
  assert (∀ A (f : string → A), map f (cascade_graphs reg r) = map f reg ++ [f (graph_iri r); f (sys_graph_iri (graph_iri r))] ++
    mjoin (map (λ kind, [f (graph_iri (aux r kind)); f (sys_graph_iri (graph_iri (aux r kind)))]) AuxKind_ALL)) as E.
  { intros A f. unfold cascade_graphs. by rewrite map_app. }
  cbv zeta. rewrite <- !E. destruct (parent r) as [p|] eqn:Ep.
  - unfold node. destruct (iri_valid (graph_iri r)); [|done]. cbn [obind]. intros [= <-] [= <-].
    destruct (removal_operation (graph_iri p) (graph_iri r) (Hp p eq_refl) Hi) as [Hs Ho].
    eapply says_update; [apply Forall2_app; [exact Hd|constructor; [by eexists|constructor]]| |].
    + by intros []%app_eq_nil.
    + apply Forall2_app; [done|]. by repeat constructor.
  - intros [= <-] [= <-]. eapply says_update; [exact Hd| |exact Hm]. unfold cascade_graphs. by destruct reg.
Qed.

(** *** Patches *)

(** A guard, as text and as what the store is asked. *)
Inductive guard_says : string → list located → Prop :=
| no_guard : guard_says "" []
| aux_guard a : legal (graph_iri (a_subject a)) → guard_says (guard_text a) (subject_present_guard a).

Lemma guard_reads guard gs : guard_says guard gs → ∃ ts es,
  scans LStart guard ts LStart ∧ block ts es ∧ guards es = Some gs ∧ Forall (λ e, is_exists e = true) es.
Proof.
  intros [|a Ha]; [by exists [], []; repeat split; constructor|]. do 2 eexists. split; [by apply scans_guard|].
  split; [by apply block_guarded; [apply legal_sys|]|]. split; [done|]. by repeat constructor.
Qed.

(** The terminals of a patch, whatever its predicates are. *)
Definition patch_tokens (iri : string) (dels ins : list gpat) (guard : list token) : list token :=
  TkWord "WITH" :: TkIri iri :: TkWord "DELETE" :: group (mjoin (map gpat_tokens dels)) ++
  TkWord "INSERT" :: group (mjoin (map gpat_tokens ins)) ++
  TkWord "WHERE" :: group (mjoin (map gpat_tokens dels) ++ guard).

Lemma scans_patch iri dels ins guard ts :
  legal iri → Forall writable_terms dels → Forall writable_terms ins → scans LStart guard ts LStart →
  scans LStart (patch_text iri dels ins guard) (patch_tokens iri dels ins ts) LStart.
Proof.
  intros Hi Hd Hs Hg. pose proof (scans_ground_text _ Hd). pose proof (scans_ground_text _ Hs).
  unfold patch_text. eapply scans_eq; [scan_text|]. unfold patch_tokens. align.
Qed.

Lemma filter_elems ps es :
  Forall (λ e, is_exists e = true) es →
  filter (λ e, is_exists e = false) (map gpat_elem ps ++ es) = map gpat_elem ps ∧
  filter (λ e, is_exists e = true) (map gpat_elem ps ++ es) = es.
Proof.
  intros He. induction ps as [|p ps [IH1 IH2]]; cbn [map app].
  - induction He as [|e es Hx _ [IH1 IH2]]; [done|]. rewrite !filter_cons.
    rewrite decide_False, decide_True by (by rewrite Hx). by rewrite IH1, IH2.
  - rewrite !filter_cons. rewrite decide_True, decide_False by done. by rewrite IH1, IH2.
Qed.

Lemma patch_reads iri dels ins guard gs :
  legal iri → Forall writable_gpat dels → Forall writable_gpat ins → guard_says guard gs →
  read_update (patch_text iri dels ins guard) = Some (patch_ops iri dels ins gs).
Proof.
  intros Hi Hd Hs Hg. destruct (guard_reads _ _ Hg) as (ts & es & Ht & Hb & Hgs & He).
  assert (∀ ps, Forall writable_gpat ps → Forall writable_terms ps) as Hw by (intros ps Hp; eapply Forall_impl; [exact Hp|]; by intros p []).
  eapply (read_update_scan [UModify (Some iri) (map gpat_elem dels) (map gpat_elem ins) (map gpat_elem dels ++ es)]).
  - apply (scans_patch iri dels ins guard ts); auto.
  - apply prog_last, op_with; [by apply block_all..|]. by apply block_gpats.
  - done.
  - apply Forall2_cons; split; [|constructor]. cbn [update_meaning].
    assert (clears (map gpat_elem dels) (map gpat_elem dels ++ es) = None) as ->.
    { by destruct dels as [|d [|d' dels]]. }
    destruct (filter_elems dels es He) as [-> ->]. by rewrite !ground_all, Hgs.
Qed.

(** A pattern whose predicate is no IRI cannot be read. *)
Lemma read_block_bad ps fuel rest : Forall writable_terms ps → Exists (λ p, is_named (gp_p p) = false) ps →
  read_block fuel (mjoin (map gpat_tokens ps) ++ rest) = None.
Proof.
  intros Hw He. revert fuel. induction Hw as [|[s p o] ps (Hs & Hp & Ho) _ IH]; [by apply Exists_nil in He|].
  intros [|fuel]; [done|]. cbn [gp_s gp_p gp_o] in *.
  change (mjoin (map gpat_tokens (GPat s p o :: ps))) with (gpat_tokens (GPat s p o) ++ mjoin (map gpat_tokens ps)).
  unfold gpat_tokens at 1. cbn [gp_s gp_p gp_o]. rewrite <- !app_assoc.
  rewrite (read_block_subject _ _ (ITerm s)) by (by constructor || by apply term_apart).
  destruct p as [n| |l|]; [|done..].
  rewrite (read_verb_tokens [TkIri n] (ITerm (TNamed n))) by constructor. cbn -[read_item read_block].
  rewrite (read_item_term o) by done. cbn -[read_block]. rewrite IH; [done|]. by inversion He.
Qed.

Lemma read_group_bad ps fuel rest : Forall writable_terms ps → Exists (λ p, is_named (gp_p p) = false) ps →
  read_group fuel (group (mjoin (map gpat_tokens ps)) ++ rest) = None.
Proof.
  intros Hw He. unfold group, read_group. rewrite <- app_comm_cons, <- app_assoc. cbn -[read_block].
  by apply read_block_bad.
Qed.

(** A variable a patch puts in a predicate's place, once bound to a literal,
    makes the whole update unreadable. *)
Lemma patch_unreadable iri dels ins guard gs :
  legal iri → Forall writable_terms dels → Forall writable_terms ins → guard_says guard gs →
  Exists (λ p, is_named (gp_p p) = false) (dels ++ ins) →
  read_update (patch_text iri dels ins guard) = None.
Proof.
  intros Hi Hd Hs Hg Hb. destruct (guard_reads _ _ Hg) as (ts & es & Ht & _). unfold read_update.
  rewrite (tokens_reads _ _ (scans_patch _ _ _ _ _ Hi Hd Hs Ht)). cbn [mbind option_bind].
  set (fuel := length (patch_tokens iri dels ins ts)). cbn [read_operations].
  assert (read_operation fuel (patch_tokens iri dels ins ts) = None) as ->; [|done].
  unfold patch_tokens. change (read_modify fuel (Some iri) (TkWord "DELETE" :: group (mjoin (map gpat_tokens dels)) ++
    TkWord "INSERT" :: group (mjoin (map gpat_tokens ins)) ++
    TkWord "WHERE" :: group (mjoin (map gpat_tokens dels) ++ ts)) = None).
  unfold read_modify. assert (∀ w ps rest, Forall writable_terms ps → Exists (λ p, is_named (gp_p p) = false) ps →
    clause w fuel (TkWord w :: group (mjoin (map gpat_tokens ps)) ++ rest) = None) as Hc.
  { intros w ps rest Hw He. unfold clause. rewrite word_same. by apply read_group_bad. }
  destruct (decide (Exists (λ p, is_named (gp_p p) = false) dels)) as [He|He]; [by rewrite Hc|].
  apply Exists_app in Hb as [Hb|Hb]; [done|].
  rewrite (clause_group "DELETE" fuel _ (map gpat_elem dels)).
  - cbn -[clause group word]. by rewrite Hc.
  - apply block_all. apply Forall_forall. intros p Hp. rewrite Forall_forall in Hd. split; [by apply Hd|].
    destruct (is_named (gp_p p)) eqn:E; [done|]. destruct He. apply Exists_exists. eauto.
  - unfold fuel, patch_tokens. cbn [length]. rewrite length_app. lia.
Qed.
End updates.

(** * Queries *)
Lemma read_query_scan s text ts ts' last st q :
  scans LStart text ts st → finish st = Some last → ts ++ last = ts' →
  read_query_syntax (S (length ts')) ts' = Some s → query_meaning s = Some q → read_query text = Some q.
Proof. intros Hs Hf <- Hr Hm. eapply read_query_syntax_text; [by eapply tokens_scans|done|done]. Qed.

(** The fuel is the length of the whole query. *)
Ltac fuel := unfold group; repeat first [rewrite length_app | progress cbn [length app]]; lia.

Section queries.
Context `{DisplayLaws}.

Lemma ask_meaning g ps : query_meaning (SAsk [EGraph (ITerm (TNamed g)) (map gpat_elem ps)]) = Some (QAsk (pair g <$> ps)).
Proof. cbn [query_meaning]. rewrite (ground_graph None g ps [] []) by done. by rewrite app_nil_r. Qed.

Lemma read_ask_graph text g body ps :
  legal g → block body (map gpat_elem ps) →
  scans LStart text (TkWord "ASK" :: group (TkWord "GRAPH" :: TkIri g :: group body)) LStart →
  read_query text = Some (QAsk (pair g <$> ps)).
Proof.
  intros Hg Hb Hs. eapply (read_query_scan (SAsk [EGraph (ITerm (TNamed g)) (map gpat_elem ps)]));
    [exact Hs|done|by rewrite app_nil_r| |apply ask_meaning].
  apply read_ask; [by apply block_named_last|fuel].
Qed.

Lemma exists_reads iri : legal iri → read_query (exists_text iri) = Some (QAsk [present_pat iri]).
Proof.
  intros Hi. unfold exists_text, present_pat. pose proof (legal_sys iri Hi) as Hs. revert Hs.
  generalize (sys_graph_iri iri). intros sys Hs.
  apply (read_ask_graph _ sys [TkIri iri; TkIri SYS_PRESENT; TkWord "true"] [GPat (TNamed iri) (TNamed SYS_PRESENT) lit_true]); [done| |].
  - by apply block_line; [|apply it_true].
  - unfold group. scan_to.
Qed.

Lemma binary_reads iri : legal iri → read_query (binary_text iri) = Some (QAsk [binary_pat iri]).
Proof.
  intros Hi. unfold binary_text, binary_pat. pose proof (legal_sys iri Hi) as Hs. revert Hs.
  generalize (sys_graph_iri iri). intros sys Hs.
  apply (read_ask_graph _ sys [TkIri iri; TkIri RDF_TYPE; TkIri SYS_BINARY_RESOURCE]
    [GPat (TNamed iri) (TNamed RDF_TYPE) (TNamed SYS_BINARY_RESOURCE)]); [done| |].
  - by apply block_line; [|apply iri_item].
  - unfold group. scan_to.
Qed.

Lemma ask_reads iri dels : legal iri → Forall writable_gpat dels →
  read_query (ask_text iri dels) = Some (QAsk (pair iri <$> dels)).
Proof.
  intros Hi Hd. assert (Forall writable_terms dels) as Hw by (eapply Forall_impl; [exact Hd|]; by intros p []).
  pose proof (scans_ground_text _ Hw). eapply read_ask_graph; [done|by apply block_all|]. unfold ask_text, group. scan_to.
Qed.

Lemma elem_patterns ps : Forall writable_pattern ps → mapM elem_pattern (map pattern_elem ps) = Some ps.
Proof.
  assert (∀ t, pattern_item (pattern_term_item t) = Some t) as Ht.
  { intros [n|l|i]; [done..|]. cbn. by rewrite var_index_name. }
  induction 1 as [|[s p o] ps _ _ IH]; [done|]. cbn. rewrite !Ht. cbn. by rewrite IH.
Qed.

Lemma select_reads iri ps : legal iri → Forall writable_pattern ps →
  read_query (select_text iri ps) = Some (QSelect (SelPatterns iri ps)).
Proof.
  intros Hi Hp. pose proof (scans_patterns _ Hp).
  eapply (read_query_scan (SSelect None [EGraph (ITerm (TNamed iri)) (map pattern_elem ps)] (Some "2"))).
  - unfold select_text. scan_text.
  - done.
  - instantiate (1 := TkWord "SELECT" :: TkPunct "*" :: TkWord "WHERE" ::
      group (TkWord "GRAPH" :: TkIri iri :: group (mjoin (map pattern_tokens ps))) ++ [TkWord "LIMIT"; TkWord "2"]). align.
  - apply read_select_all; [by apply block_named_last; [|apply block_patterns]|fuel].
  - cbn [query_meaning]. by rewrite elem_patterns.
Qed.

Lemma graph_reads g : legal g → read_query (graph_text g) = Some (QConstruct (QGraph g)).
Proof.
  intros Hg. eapply (read_query_scan (SConstruct spo [EGraph (ITerm (TNamed g)) spo])).
  - unfold graph_text. scan_text.
  - done.
  - instantiate (1 := TkWord "CONSTRUCT" :: group [TkVar "s"; TkVar "p"; TkVar "o"] ++ TkWord "WHERE" ::
      group (TkWord "GRAPH" :: TkIri g :: group [TkVar "s"; TkVar "p"; TkVar "o"])). align.
  - apply read_construct; [apply block_spo|by apply block_named_last; [|apply block_spo]|fuel|fuel].
  - done.
Qed.

(** [<s> <p> ?x]. *)
Definition object_elem (s p x : string) : elem := ETriple (ITerm (TNamed s)) (ITerm (TNamed p)) (IVar x).

Lemma block_object s p x : legal s → block [TkIri s; TkIri p; TkVar x] [object_elem s p x].
Proof. intros Hs. apply (block_last [TkIri s] [TkIri p] [TkVar x]); [by apply (st_term (TNamed s))|constructor..]. Qed.

Lemma objects_reads x g s p : x ∈ ["n"; "m"; "g"; "x"; "o"] → legal g → legal s → legal p →
  read_query (objects_text x g s p) = Some (QConstruct (QObjects g s p)).
Proof.
  intros Hx Hg Hs Hp.
  assert (scans LStart (objects_text x g s p) (TkWord "CONSTRUCT" :: group [TkIri s; TkIri p; TkVar x] ++ TkWord "WHERE" ::
    group (TkWord "GRAPH" :: TkIri g :: group [TkIri s; TkIri p; TkVar x])) LStart) as Ht.
  { unfold objects_text, group. repeat (apply elem_of_cons in Hx as [-> | Hx]; [scan_to|]). by apply elem_of_nil in Hx. }
  eapply (read_query_scan (SConstruct [object_elem s p x] [EGraph (ITerm (TNamed g)) [object_elem s p x]]));
    [exact Ht|done|by rewrite app_nil_r|..].
  - apply read_construct; [by apply block_object|by apply block_named_last; [|apply block_object]|fuel|fuel].
  - cbn. by rewrite bool_decide_eq_true_2.
Qed.

(** A group in the graph a variable names, at the end of another. *)
Lemma block_in_var v body es : block body es →
  block (TkWord "GRAPH" :: TkVar v :: group body) [EGraph (IVar v) es].
Proof.
  intros Hb. pose proof (block_graph [TkVar v] (IVar v) body es [] [] (it_var v) Hb block_nil) as Hx. exact Hx.
Qed.

Lemma exists_many_reads iris : Forall legal iris →
  read_query (exists_many_text iris) = Some (QSelect (SelPresent ((λ g, (sys_graph_iri g, g)) <$> iris))).
Proof.
  intros Hi. set (rows := (λ g, [sys_graph_iri g; g]) <$> iris).
  assert (scans LStart (concat_map (λ g, present_row (sys_graph_iri g, g)) iris)
    (mjoin ((λ row : list string, TkPunct "(" :: (TkIri <$> row) ++ [TkPunct ")"]) <$> rows)) LStart).
  { unfold rows. rewrite <- list_fmap_compose. apply scans_concat. rewrite Forall_forall in Hi. intros g Hg.
    pose proof (legal_sys g (Hi g Hg)) as Hs. pose proof (Hi g Hg). revert Hs. cbn [compose fmap list_fmap]. unfold compose.
    generalize (sys_graph_iri g). intros sys Hs. unfold present_row. cbn [fst snd]. scan_to. }
  eapply (read_query_scan (SSelect (Some ["g"]) [EValues ["sys"; "g"] rows;
    EGraph (IVar "sys") [ETriple (IVar "g") (ITerm (TNamed SYS_PRESENT)) (ITerm lit_true)]] None)).
  - unfold exists_many_text. scan_text.
  - done.
  - instantiate (1 := TkWord "SELECT" :: (TkVar <$> ["g"]) ++ TkWord "WHERE" :: group (TkWord "VALUES" :: TkPunct "(" ::
      (TkVar <$> ["sys"; "g"]) ++ TkPunct ")" :: TkPunct "{" ::
      mjoin ((λ row, TkPunct "(" :: (TkIri <$> row) ++ [TkPunct ")"]) <$> rows) ++ TkPunct "}" ::
      TkWord "GRAPH" :: TkVar "sys" :: group [TkVar "g"; TkIri SYS_PRESENT; TkWord "true"])). align.
  - apply read_select; [|fuel]. apply block_rows, block_in_var.
    apply (block_last [TkVar "g"] [TkIri SYS_PRESENT] [TkWord "true"]); [constructor..|apply it_true].
  - cbn [query_meaning]. rewrite bool_decide_eq_true_2 by done. unfold rows.
    assert (mapM pair_row ((λ g, [sys_graph_iri g; g]) <$> iris) = Some ((λ g, (sys_graph_iri g, g)) <$> iris)) as ->; [|done].
    clear. induction iris as [|g iris IH]; [done|]. cbn -[sys_graph_iri] in *. by rewrite IH.
Qed.

Lemma chain_acls_reads values : Forall legal values →
  read_query (chain_acls_text values) = Some (QSelect (SelGraphs values)).
Proof.
  intros Hv. assert (scans LStart (concat_map acl_line values) (mjoin (map (λ g, [TkIri g]) values)) LStart).
  { apply scans_concat. rewrite Forall_forall in Hv. intros g Hg. pose proof (Hv g Hg). unfold acl_line. scan_to. }
  eapply (read_query_scan (SSelect (Some ["g"; "s"; "p"; "o"]) [EValues ["g"] ((λ i, [i]) <$> values); EGraph (IVar "g") spo] None)).
  - unfold chain_acls_text. scan_text.
  - done.
  - instantiate (1 := TkWord "SELECT" :: (TkVar <$> ["g"; "s"; "p"; "o"]) ++ TkWord "WHERE" :: group (TkWord "VALUES" ::
      TkVar "g" :: TkPunct "{" :: (TkIri <$> values) ++ TkPunct "}" ::
      TkWord "GRAPH" :: TkVar "g" :: group [TkVar "s"; TkVar "p"; TkVar "o"])).
    assert (mjoin (map (λ g, [TkIri g]) values) = TkIri <$> values) as -> by (clear; induction values; [done|]; cbn; by f_equal).
    align.
  - apply read_select; [|fuel]. apply block_values, block_in_var, block_spo.
  - cbn [query_meaning]. assert (mapM single_row ((λ i, [i]) <$> values) = Some values) as ->; [|done].
    clear. induction values as [|g values IH]; [done|]. cbn in *. by rewrite IH.
Qed.
End queries.
