(* ===== verification/Injection.v ===== *)
(** No injection: whatever a client wrote into a resource, an update or a query
    of the pod is, under SPARQL's own grammar, the operations the pod meant.
    And the one text the pod can send that is none. *)
From S2P Require Import Prelude Str Terms Space Rdf Dataset Patch Store Backing Sparql Grammar.
From S2P Require Import Resource Container Auxiliary Guard Shapes Texts Sent.
Open Scope list_scope.

(** * Names of the pod *)
Section names.
Context `{IriSyntax} (sp : StorageSpace).

(** A URL of the pod that [NamedNode::new] accepts: what [resolve] hands out. *)
Definition sound (r : ResourceUrl) : Prop := url_in sp r ∧ iri_valid (graph_iri r) = true.

Context `{!IriAlphabet}.

(** The text of both halves of a URL. *)
Definition plain_text (r : ResourceUrl) : Prop := url_in sp r ∧ iri_text (stem sp) = true ∧ iri_text (r_path r) = true.

Lemma iri_text_app a b : iri_text (a +:+ b) = iri_text a && iri_text b.
Proof. apply all_chars_app. Qed.

Lemma sound_text r : sound r → plain_text r.
Proof.
  intros [Hr Hv]. apply iri_alphabet in Hv as [Ht _]. rewrite (stem_iri sp r Hr), iri_text_app in Ht.
  apply andb_true_iff in Ht as [? ?]. done.
Qed.

Lemma text_legal r : plain_text r → legal (graph_iri r).
Proof.
  intros (Hr & Hs & Hp). rewrite (stem_iri sp r Hr). split; [by rewrite iri_text_app, Hs, Hp|].
  destruct (url_rooted sp r Hr) as [rest ->]. by destruct (stem sp).
Qed.

Lemma text_aux r k : plain_text r → legal (graph_iri (aux r k)).
Proof.
  intros (Hr & Hs & Hp). change (legal (a_iri (aux r k))). rewrite (aux_iri sp r k Hr). split.
  - rewrite !iri_text_app, Hs, Hp. by destruct k.
  - by destruct (stem sp).
Qed.

Lemma text_counterpart r q : plain_text r → slash_counterpart r = Some q → plain_text q.
Proof.
  intros (Hr & Hs & Hp) Hq. destruct (slash_counterpart_Some sp r q Hr Hq) as [Hin [E|E]]; (split; [done|split; [done|]]).
  - by rewrite E, iri_text_app, Hp.
  - rewrite E, iri_text_app in Hp. by apply andb_true_iff in Hp as [? _].
Qed.

Lemma text_ancestor r c : plain_text r → c ∈ ancestors r → plain_text (as_resource c).
Proof.
  intros (Hr & Hs & Hp) Hc. apply (ancestors_spec sp r c Hr) in Hc as (Hin & _ & s & _ & E).
  split; [done|split; [done|]]. rewrite E, iri_text_app in Hp. by apply andb_true_iff in Hp as [? _].
Qed.

Lemma text_parent r p : plain_text r → parent r = Some p → plain_text (as_resource p).
Proof.
  intros (Hr & Hs & Hp) E. destruct (parent_Some sp r p Hr E) as (Hin & _ & seg & tl & Ep & _).
  split; [done|split; [done|]]. rewrite Ep, iri_text_app in Hp. by apply andb_true_iff in Hp as [? _].
Qed.

Lemma text_chain r x : plain_text r → x ∈ chain_of r → plain_text x.
Proof. intros Hr [->|Hx]%elem_of_cons; [done|]. apply list_elem_of_fmap in Hx as (c & -> & Hc). by apply (text_ancestor r). Qed.

(** Everything a guard asks about. *)
Lemma candidates_legal r : plain_text r → Forall legal (candidates (chain_of r)).
Proof.
  intros Hr. apply Forall_forall. intros i. unfold candidates. rewrite !elem_of_app.
  intros [Hi|[Hi|Hi]].
  - apply list_elem_of_fmap in Hi as (x & -> & Hx). by apply text_legal, (text_chain r).
  - apply list_elem_of_bind in Hi as (x & Hi & Hx). apply list_elem_of_fmap in Hi as (k & -> & _).
    by apply text_aux, (text_chain r).
  - apply list_elem_of_fmap in Hi as (q & -> & Hq). apply list_elem_of_omap in Hq as (x & Hx & E).
    by eapply text_legal, (text_counterpart x), E; apply (text_chain r).
Qed.

Lemma acl_values_legal r present : plain_text r → Forall legal (acl_values (chain_of r) present).
Proof.
  intros Hr. apply Forall_forall. intros i. unfold acl_values. rewrite list_elem_of_filter, list_elem_of_fmap.
  intros (_ & x & -> & Hx). by apply text_aux, (text_chain r).
Qed.
End names.

(** * What the pod sends *)
Section sent.
Context `{TermDisplay} `{IriSyntax} `{Hashing} (sp : StorageSpace).

(** A ground quad with legal IRIs. *)
Definition writable_quad (q : GroundQuad) : Prop := writable_triple (triple_of_ground q).

(** The updates, one constructor per function that sends one.  The IRIs of the
    pod are [resolve]'s, those of the terms are oxrdf's, a registry's are
    [NamedNode]s of the store, and a shelf's name has passed [NamedNode::new]. *)
Inductive sent_update : string → list update_op → Prop :=
| sent_put_dataset r reg d f :
    sound sp r → Forall legal reg → Forall writable_quad d →
    Forall (λ s, iri_valid (sh_name s) = true) (split_dataset r d).2 →
    sent_update (put_dataset_text (graph_iri r) reg (split_dataset r d).1 (split_dataset r d).2 f)
      (put_dataset_ops r reg (split_dataset r d).1 (split_dataset r d).2 f)
| sent_put_blob r reg mt :
    sound sp r → Forall legal reg → sent_update (put_blob_text (graph_iri r) reg mt) (put_blob_ops r reg mt)
| sent_put_rdf r quads :
    sound sp r → Forall writable_quad quads →
    sent_update (put_rdf_text (graph_iri r) (map triple_of_ground quads)) (put_rdf_ops (graph_iri r) (map triple_of_ground quads))
| sent_insert_marked r quads :
    sound sp r → Forall writable_quad quads →
    sent_update (insert_marked_text (graph_iri r) (map triple_of_ground quads))
      (insert_marked_ops (graph_iri r) (map triple_of_ground quads))
| sent_delete_rdf s k :
    sound sp s → sent_update (delete_rdf_text (graph_iri (aux s k))) (delete_rdf_ops (graph_iri (aux s k)))
| sent_conditional_put s k quads :
    sound sp s → Forall writable_quad quads →
    sent_update (conditional_put_text (aux s k) (map triple_of_ground quads))
      (conditional_put_ops (aux s k) (map triple_of_ground quads))
| sent_delete_subject r reg text ops :
    sound sp r → Forall legal reg → delete_subject_text reg r = Ok text → delete_subject_ops reg r = Ok ops →
    sent_update text ops
| sent_patch r dels ins :
    sound sp r → Forall writable_gpat dels → Forall writable_gpat ins →
    sent_update (patch_text (graph_iri r) dels ins "") (patch_ops (graph_iri r) dels ins [])
| sent_aux_patch s k dels ins :
    sound sp s → Forall writable_gpat dels → Forall writable_gpat ins →
    sent_update (patch_text (graph_iri (aux s k)) dels ins (guard_text (aux s k)))
      (patch_ops (graph_iri (aux s k)) dels ins (subject_present_guard (aux s k))).

(** The queries. *)
Inductive sent_query : string → Query → Prop :=
| sent_exists iri : legal iri → sent_query (exists_text iri) (QAsk [present_pat iri])
| sent_exists_many r :
    sound sp r → sent_query (exists_many_text (candidates (chain_of r)))
      (QSelect (SelPresent ((λ g, (sys_graph_iri g, g)) <$> candidates (chain_of r))))
| sent_binary r : sound sp r → sent_query (binary_text (graph_iri r)) (QAsk [binary_pat (graph_iri r)])
| sent_chain_acls r present :
    sound sp r → sent_query (chain_acls_text (acl_values (chain_of r) present))
      (QSelect (SelGraphs (acl_values (chain_of r) present)))
| sent_select iri ps :
    legal iri → Forall writable_pattern ps → sent_query (select_text iri ps) (QSelect (SelPatterns iri ps))
| sent_ask iri dels : legal iri → Forall writable_gpat dels → sent_query (ask_text iri dels) (QAsk (pair iri <$> dels))
| sent_graph g : legal g → sent_query (graph_text g) (QConstruct (QGraph g))
| sent_shelf_name r k :
    sound sp r → legal k →
    sent_query (objects_text "n" (sys_graph_iri (graph_iri r)) k SYS_GRAPH_NAME)
      (QConstruct (QObjects (sys_graph_iri (graph_iri r)) k SYS_GRAPH_NAME))
| sent_media_type r :
    sound sp r → sent_query (objects_text "m" (sys_graph_iri (graph_iri r)) (graph_iri r) SYS_MEDIA_TYPE)
      (QConstruct (QObjects (sys_graph_iri (graph_iri r)) (graph_iri r) SYS_MEDIA_TYPE))
| sent_registry r :
    sound sp r → sent_query (objects_text "g" (sys_graph_iri (graph_iri r)) (graph_iri r) SYS_HAS_SUBGRAPH)
      (QConstruct (QObjects (sys_graph_iri (graph_iri r)) (graph_iri r) SYS_HAS_SUBGRAPH))
| sent_members (c : ContainerUrl) :
    sound sp (as_resource c) → sent_query (objects_text "x" (graph_iri c) (graph_iri c) LDP_CONTAINS)
      (QConstruct (QObjects (graph_iri c) (graph_iri c) LDP_CONTAINS))
| sent_binding (c : ContainerUrl) :
    sound sp (as_resource c) → sent_query (objects_text "o" (graph_iri c) (graph_iri c) LDP_CONSTRAINED_BY)
      (QConstruct (QObjects (graph_iri c) (graph_iri c) LDP_CONSTRAINED_BY)).

(** ** Lemmas *)
Context `{!DisplayLaws} `{!IriAlphabet} `{!HexDigest}.

Lemma sound_legal r : sound sp r → legal (graph_iri r).
Proof. intros [_ Hv]. by apply iri_alphabet. Qed.

Lemma sound_aux_legal s k : sound sp s → legal (graph_iri (aux s k)).
Proof. intros Hs. by apply (text_aux sp), sound_text. Qed.

Lemma quads_writable quads : Forall writable_quad quads → Forall writable_triple (map triple_of_ground quads).
Proof. intros Hq. by apply Forall_map. Qed.

(** The buckets of a writable dataset. *)
Lemma split_writable r d : Forall writable_quad d → Forall (λ s, iri_valid (sh_name s) = true) (split_dataset r d).2 →
  Forall writable_triple (split_dataset r d).1 ∧ Forall writable_shelf (split_dataset r d).2.
Proof.
  intros Hd Hn.
  assert (Forall writable_triple (split_dataset r d).1 ∧
    Forall (λ s, legal (sh_key s) ∧ Forall writable_triple (sh_triples s)) (split_dataset r d).2) as [Hdg Hsh].
  { clear Hn. unfold split_dataset.
    assert (Forall writable_triple (([], []) : list triple * list shelf).1 ∧
      Forall (λ s, legal (sh_key s) ∧ Forall writable_triple (sh_triples s)) (([], []) : list triple * list shelf).2) as Hz
      by by repeat constructor.
    revert Hz. generalize (([], []) : list triple * list shelf). induction Hd as [|q d Hq _ IH]; intros acc Hz; [done|].
    cbn [foldl]. apply IH. destruct Hz as [Ha Hb]. unfold split_quad. destruct (g_graph q) as [|n]; cbn [fst snd].
    - split; [apply Forall_app; split; [done|by apply Forall_singleton]|done].
    - split; [done|]. pose proof (legal_shelf_key r n) as Hk. induction Hb as [|s ss [Hs Ht] Hss IHs]; cbn [push_shelf].
      + apply Forall_singleton. split; [done|by apply Forall_singleton].
      + case_bool_decide; constructor; cbn; [split; [done|apply Forall_app; split; [done|by apply Forall_singleton]]|done|done|done]. }
  split; [done|]. rewrite Forall_forall in Hsh, Hn. apply Forall_forall. intros s Hs. destruct (Hsh s Hs) as [? ?].
  split; [done|]. split; [|done]. by apply iri_alphabet, Hn.
Qed.


End sent.

(** * Patches that are no text *)
Section unreadable.
Context `{DisplayLaws}.

(** [substitute] keeps the places of the terms. *)
Lemma substitute_predicate ps bindings out p i l :
  substitute ps bindings = Ok out → p ∈ ps → p_predicate p = PVar i →
  (s ← head bindings; s !! var_name i) = Some (TLiteral l) →
  Exists (λ g, is_named (gp_p g) = false) out.
Proof.
  intros Hs Hp Ei El. revert out Hs. induction ps as [|q ps IH]; [by apply elem_of_nil in Hp|]. intros out. cbn [substitute].
  destruct (ground_pattern_term (p_subject q) bindings) as [gs|e|]; [|done..]. cbn [obind].
  destruct (ground_pattern_term (p_predicate q) bindings) as [gp|e|] eqn:Eg; [|done..]. cbn [obind].
  destruct (ground_pattern_term (p_object q) bindings) as [go|e|]; [|done..]. cbn [obind].
  destruct (substitute ps bindings) as [rest|e|]; [|done..]. intros [= <-].
  apply elem_of_cons in Hp as [->|Hp]; [|by right; apply IH]. left. rewrite Ei in Eg. cbn in Eg. cbn in El.
  rewrite El in Eg. cbn in Eg. by injection Eg as <-.
Qed.

End unreadable.

(** * Witnesses: N-Triples, as oxrdf writes it *)
Section witness.
Definition escape_char (a : ascii) : string :=
  if Ascii.eqb a DQUOTE || Ascii.eqb a BACKSLASH then String BACKSLASH (one a)
  else if Ascii.eqb a LF then String BACKSLASH "n"
  else if Ascii.eqb a CR then String BACKSLASH "r"
  else one a.

Fixpoint escape (s : string) : string :=
  match s with EmptyString => "" | String a s => escape_char a +:+ escape s end.

Definition literal_suffix (l : literal) : string :=
  match l_language l with
  | Some language => "@" +:+ language +:+ match l_direction l with Some Ltr => "--ltr" | Some Rtl => "--rtl" | None => "" end
  | None => if bool_decide (l_datatype l = XSD_STRING) then "" else "^^<" +:+ l_datatype l +:+ ">"
  end.

Fixpoint nt_display (t : term) : string :=
  match t with
  | TNamed n => "<" +:+ n +:+ ">"
  | TBlank b => "_:" +:+ b
  | TLiteral l => String DQUOTE (escape (l_value l) +:+ String DQUOTE (literal_suffix l))
  | TTriple s p o =>
      "<<( " +:+ match s with SNamed n => "<" +:+ n +:+ ">" | SBlank b => "_:" +:+ b end +:+ " <" +:+ p +:+ "> " +:+
      nt_display o +:+ " )>>"
  end.

Lemma scans_escape_char acc a : scans (LString acc) (escape_char a) [] (LString (acc +:+ one a)).
Proof.
  unfold escape_char. destruct (Ascii.eqb a DQUOTE) eqn:E1; [by apply Ascii.eqb_eq in E1 as ->|].
  destruct (Ascii.eqb a BACKSLASH) eqn:E2; [by apply Ascii.eqb_eq in E2 as ->|]. cbn [orb].
  destruct (Ascii.eqb a LF) eqn:E3; [by apply Ascii.eqb_eq in E3 as ->|].
  destruct (Ascii.eqb a CR) eqn:E4; [by apply Ascii.eqb_eq in E4 as ->|].
  unfold scans, one. cbn [scan step]. by rewrite E1, E2, E3, E4.
Qed.

Lemma scans_escape acc v : scans (LString acc) (escape v) [] (LString (acc +:+ v)).
Proof.
  revert acc. induction v as [|a v IH]; intros acc; cbn [escape]; [by unfold scans; rewrite app_nil_r_s|].
  apply (scans_app _ _ [] (LString (acc +:+ one a)) _ []); [apply scans_escape_char|].
  pose proof (IH (acc +:+ one a)) as Hx. rewrite app_assoc_s in Hx. exact Hx.
Qed.

(** A string literal before what does not lengthen it. *)
Lemma tokens_string v suffix ts :
  tokens suffix = Some ts → match suffix with String a _ => Ascii.eqb a DQUOTE = false | "" => True end →
  tokens (String DQUOTE (escape v +:+ String DQUOTE suffix)) = Some (TkString v :: ts).
Proof.
  intros Ht Hc. unfold tokens in *. destruct (scan LStart suffix) as [[t1 st]|] eqn:Es; [|done]. cbn in Ht.
  destruct (finish st) as [last|] eqn:Ef; [|done]. cbn in Ht. injection Ht as <-.
  change (scan LStart (String DQUOTE (escape v +:+ String DQUOTE suffix)))
    with ('(ts, st) ← scan (LString "") (escape v +:+ String DQUOTE suffix); Some ([] ++ ts, st)).
  assert (∃ t2 st2 last2, scan (LString v) (String DQUOTE suffix) = Some (t2, st2) ∧ finish st2 = Some last2 ∧
    t2 ++ last2 = TkString v :: t1 ++ last) as (t2 & st2 & last2 & Hs2 & Hf2 & El).
  { cbn [scan step]. rewrite Ascii.eqb_refl. case_bool_decide as Ev; cbn [mbind option_bind].
    - destruct suffix as [|a suffix]; [cbn in *; simplify_eq; cbn in Ef; injection Ef as <-; eauto 10|].
      cbn [scan step] in Es |- *. rewrite Hc. unfold ended. destruct (start_step a) as [[ta sa]|]; [|done]. cbn in *.
      destruct (scan sa suffix) as [[tb sb]|]; [|done]. cbn in *. simplify_eq. eauto 10.
    - rewrite Es. cbn. eauto 10. }
  pose proof (scans_app _ _ _ _ _ _ _ (scans_escape "" v) Hs2) as Hs. unfold scans in Hs. rewrite Hs. cbn.
  rewrite Hf2. cbn. by rewrite El.
Qed.

Lemma scans_tag acc s : all_chars is_tag_char s = true → scans (LLang acc) s [] (LLang (acc +:+ s)).
Proof.
  unfold scans. revert acc. induction s as [|a s IH]; intros acc Hs; [by rewrite app_nil_r_s|].
  cbn [all_chars] in Hs. apply andb_true_iff in Hs as [Ha Hs]. cbn [scan step]. rewrite Ha. cbn.
  rewrite (IH _ Hs). cbn. by rewrite app_assoc_s.
Qed.

#[local] Instance nt_terms : TermDisplay := nt_display.

#[local] Instance nt_laws : DisplayLaws.
Proof.
  intros t. induction t as [n|b|l|s p o IH]; intros Hw; [|done| |].
  - apply tokens_reads. cbn in Hw. unfold term_display, nt_terms, nt_display. scan_to.
  - destruct l as [v tag dt]. unfold term_display, nt_terms. cbn [nt_display term_tokens literal_tokens].
    unfold literal_tokens, literal_suffix. unfold l_language, l_direction. cbn [l_value l_tag l_datatype]. cbn in Hw. unfold writable_literal in Hw.
    cbn in Hw. destruct tag as [[language d]|]; cbn in Hw |- *.
    + destruct Hw as [[Ht _] _]. apply tokens_string; [|done]. set (tag := language +:+ _).
      apply (tokens_scans _ [] [TkLang tag] (LLang tag)); [|done].
      apply (scans_app LStart "@" [] (LLang "") tag []); [done|]. apply scans_tag. unfold tag. rewrite all_chars_app, Ht. by destruct d as [[]|].
    + rename Hw into Hd. case_bool_decide as E; [by apply tokens_string|]. apply tokens_string; [|done].
      apply tokens_reads. scan_to.
  - cbn in Hw. destruct Hw as (Hs & Hp & Ho). destruct s as [s|b]; [|done]. pose proof (IH Ho) as Hi. unfold term_display, nt_terms in *.
    apply tokens_reads. cbn in Hs. cbn [nt_display]. rewrite ?app_assoc_s.
    change (term_tokens (TTriple (SNamed s) p o)) with (TkOpen :: TkIri s :: TkIri p :: term_tokens o ++ [TkClose]). scan_to.
Qed.

#[local] Instance strict_iris : IriSyntax := λ s, iri_text s && negb (bool_decide (s = "")).

#[local] Instance strict_alphabet : IriAlphabet.
Proof. intros s [Ht Hn]%andb_true_iff. split; [done|]. by apply negb_true_iff, bool_decide_eq_false in Hn. Qed.

#[local] Instance fixed_digest : Hashing := λ _, "ab12".

#[local] Instance fixed_hex : HexDigest.
Proof. done. Qed.

Definition a_space : StorageSpace := mkSpace "https://e/".
Definition a_resource : ResourceUrl := mkResourceUrl "/a" "https://e/a".

Lemma a_resource_sound : sound a_space a_resource.
Proof. split; [|done]. split; [by exists "a"|done]. Qed.

(** The payload of the tests in [sparql.rs]. *)
Definition nasty : string :=
  "x" +:+ one DQUOTE +:+ " . } DROP ALL ; INSERT DATA { GRAPH <urn:evil> { <urn:a> <urn:b> " +:+ one DQUOTE +:+ "pwned".

Definition nasty_dataset : Skolemized :=
  [mkGroundQuad "urn:s" "urn:p" (GTLiteral (simple_literal nasty)) GGDefault;
   mkGroundQuad "urn:s" "urn:p" (GTTriple "urn:t" "urn:q" (GTLiteral (language_literal nasty "en"))) (GGNamed "urn:g")].



(** [?x <urn:p> ?v], and the insertion of [?x ?v <urn:o>]. *)
Definition literal_patch : Patch :=
  mkPatch [mkPattern (PVar 0) (PNamed "urn:p") (PVar 1)] [] [mkPattern (PVar 0) (PVar 1) (PNamed "urn:o")] 2.

Definition literal_binding : list solution :=
  [<[var_name 0 := TNamed "urn:s"]> {[var_name 1 := TLiteral (simple_literal "v")]}].

End witness.
