(* ===== verification/Notify.v ===== *)
(** Change events ([notify.rs]): the registry of channels, and what each
    write announces. *)
From S2P Require Import Prelude Str Terms Space Rdf Dataset Patch Store Mem Resource.
From S2P Require Import Container Auxiliary Pdp Guard.
Open Scope list_scope.

(** A [Topic] is a graph IRI. *)
Definition Topic : Type := string.

Definition topic_of (t : Target) : Topic := graph_iri t.

Inductive Activity : Type := Create | Update | Delete | Add | Remove.

#[export] Instance Activity_eq_dec : EqDecision Activity.
Proof. solve_decision. Defined.

Record Event : Type := mkEvent {
  ev_topic : Topic;
  ev_activity : Activity;
  ev_object : string;
  ev_target : option string;
  ev_state : option string
}.

(** A [broadcast::Sender]: how many receivers it has, and what was handed to
    its [send] while it had one. *)
Record Channel : Type := mkChannel { receivers : nat; sent : list Event }.

Notation Bus := (gmap string Channel).

(** [channels.get(topic)]: the number of its receivers. *)
Definition receivers_at (bus : Bus) (topic : Topic) : option nat := receivers <$> bus !! topic.

(** The read half of [Bus::live]: the live topics and the dead ones. *)
Definition is_dead (bus : Bus) (topic : Topic) : bool := bool_decide (receivers_at bus topic = Some 0).
Definition has_reader (bus : Bus) (topic : Topic) : bool :=
  match receivers_at bus topic with Some (S _) => true | _ => false end.

Definition live_read (topics : list Topic) (bus : Bus) : list Topic * list Topic :=
  (filter (λ t, has_reader bus t = true) topics, filter (λ t, is_dead bus t = true) topics).

(** [channels.remove(topic)] for a channel without receivers. *)
Definition reclaim (topic : Topic) (bus : Bus) : Bus :=
  match bus !! topic with
  | Some c => if Nat.eqb (receivers c) 0 then delete topic bus else bus
  | None => bus
  end.

(** The write half, under its own lock. *)
Definition live_evict (dead : list Topic) (bus : Bus) : Bus := foldl (λ bus t, reclaim t bus) bus dead.

Definition bus_live (topics : list Topic) (bus : Bus) : list Topic * Bus :=
  let (live, dead) := live_read topics bus in (live, live_evict dead bus).

Definition bus_publish (event : Event) (bus : Bus) : Bus :=
  match bus !! ev_topic event with
  | Some c =>
      if Nat.eqb (receivers c) 0 then bus
      else <[ev_topic event := mkChannel (receivers c) (sent c ++ [event])]> bus
  | None => bus
  end.

Definition bus_subscribe (topic : Topic) (bus : Bus) : Bus :=
  let c := default (mkChannel 0 []) (bus !! topic) in
  <[topic := mkChannel (S (receivers c)) (sent c)]> bus.

(** [drop(self.rx.take())]: the count goes down before the lock is taken. *)
Definition receiver_release (topic : Topic) (bus : Bus) : Bus :=
  match bus !! topic with
  | Some c => <[topic := mkChannel (pred (receivers c)) (sent c)]> bus
  | None => bus
  end.

(** The rest of [Receiver]'s [Drop]. *)
Definition receiver_unregister (topic : Topic) (bus : Bus) : Bus := reclaim topic bus.

Inductive Existence : Type := Existed | Absent.

(** * Validators of what the pod holds *)
Section validators.
Context `{Hashing} `{Display} `{BlankSyntax}.

Definition blob_etag (bytes : string) : string := QUOTE +:+ sha256_hex bytes +:+ QUOTE.

(** [ground_dataset]: [None] when its [expect] fires. *)
Definition ground_dataset (triples : list triple) : option Skolemized :=
  from_store (map (quad_of_triple GDefault) triples).

Definition nquads : Format := default NQuads (from_content_type "application/n-quads").

Definition etag_of (stored : Skolemized) : string :=
  etag stored nquads (rdf_version (deskolemize stored)).
End validators.

(** * Emission *)

(** The bus inside the world of a request. *)
Class EventBus (W : Type) : Type := {
  get_bus : W → Bus;
  set_bus : Bus → W → W
}.

(** The stores' calls do not touch the bus. *)
Class BusLaws (W : Type) `{Backend W} `{EventBus W} : Prop := {
  get_set_bus b w : get_bus (set_bus b w) = b;
  bus_update ops w : get_bus (update ops w).2 = get_bus w;
  bus_triples q w : get_bus (query_triples q w).2 = get_bus w;
  bus_ask ps w : get_bus (ask ps w).2 = get_bus w;
  bus_select q w : get_bus (query_solutions q w).2 = get_bus w;
  bus_blob_put k b w : get_bus (blob_put k b w).2 = get_bus w;
  bus_blob_get k w : get_bus (blob_get k w).2 = get_bus w;
  bus_blob_delete k w : get_bus (blob_delete k w).2 = get_bus w
}.

Section emit.
Context {W : Type} `{Backend W} `{EventBus W}.
Context `{IriSyntax} `{HeaderSyntax} `{BlankSyntax} `{Hashing} `{ObjectPath} `{Display}.

Definition on_bus {E A : Type} (f : Bus → A * Bus) : M W E A :=
  λ w, let (a, bus) := f (get_bus w) in (Ok a, set_bus bus w).

(** [events.live(from_ref(&topic))] is not empty. *)
Definition is_live {E : Type} (topic : Topic) : M W E bool :=
  let! live := on_bus (bus_live [topic]) in ret (negb (is_empty live)).

Definition publish {E : Type} (event : Event) : M W E unit :=
  on_bus (λ bus, (tt, bus_publish event bus)).

(** [m.await.ok().flatten()]. *)
Definition ok_flatten {E F A : Type} (m : M W E (option A)) : M W F (option A) :=
  let! r := attempt m in
  ret (match r with inr o => o | inl _ => None end).

Definition state_of_graph {E : Type} (target : Target) : M W E (option string) :=
  let! triples := ok_flatten (get_rdf (graph_iri target)) in
  match triples with
  | None => ret None
  | Some triples =>
      match ground_dataset triples with
      | Some d => ret (Some (etag_of d))
      | None => panic
      end
  end.

Definition state_of {E : Type} (target : Target) : M W E (option string) :=
  match target with
  | TResource r =>
      let! kind := attempt (kind_of r) in
      match kind with
      | inr (Some (KBinary _)) =>
          match blob_key_of r with
          | None => ret None
          | Some key =>
              let! b := ok_flatten (blob_get key) in
              ret (blob_etag <$> b)
          end
      | inl _ => ret None
      | inr _ =>
          let! stored := ok_flatten (get_dataset r) in
          ret (etag_of <$> stored)
      end
  | _ => state_of_graph target
  end.

Definition publish_own {E : Type} (target : Target) (activity : Activity) : M W E unit :=
  let topic := topic_of target in
  let! live := is_live topic in
  if negb live then ret tt else
  let! state := (if bool_decide (activity = Delete) then ret None else state_of target) in
  publish (mkEvent topic activity topic None state).

Definition publish_link {E : Type} (activity : Activity) (container : ContainerUrl) (child : string)
    : M W E unit :=
  let container_target := TContainer container in
  let topic := topic_of container_target in
  let! live := is_live topic in
  if negb live then ret tt else
  let! state := state_of container_target in
  publish (mkEvent topic activity child (Some (graph_iri container)) state).

Definition publish_containment {E : Type} (target_iri : string) (materialized : Materialized)
    : M W E unit :=
  do! for_each (created materialized) (λ c,
    if bool_decide (graph_iri c = target_iri) then ret tt
    else match as_container c with
         | None => ret tt
         | Some container => publish_own (TContainer container) Create
         end) in
  for_each (linked materialized) (λ x, publish_link Add x.1 x.2).

Definition is_success (status : nat) : bool := Nat.leb 200 status && Nat.ltb status 300.

Definition activity_for (existence : Existence) : Activity :=
  match existence with Existed => Update | Absent => Create end.

Definition emit_put {E : Type} (target : Target) (existence : Existence)
    (materialized : Materialized) (status : nat) : M W E unit :=
  if negb (is_success status) then ret tt else
  do! publish_own target (activity_for existence) in
  publish_containment (graph_iri target) materialized.

Definition emit_post {E : Type} (child : Target) (materialized : Materialized) (status : nat)
    : M W E unit :=
  if negb (is_success status) then ret tt else
  do! publish_own child Create in
  publish_containment (graph_iri child) materialized.

Definition emit_patch {E : Type} (target : Target) (existence : Existence)
    (materialized : Materialized) (status : nat) : M W E unit :=
  if negb (is_success status) then ret tt else
  do! publish_own target (activity_for existence) in
  publish_containment (graph_iri target) materialized.

Definition emit_delete {E : Type} (target : Target) (auxiliaries : list AuxUrl) (status : nat)
    : M W E unit :=
  if negb (is_success status) then ret tt else
  do! publish_own target Delete in
  do! for_each auxiliaries (λ a, publish_own (TAux a) Delete) in
  match (match target with
         | TResource r => parent r
         | TContainer c => parent (as_resource c)
         | TAux _ => None
         end) with
  | None => ret tt
  | Some p => publish_link Remove p (graph_iri target)
  end.
End emit.

(** * The bus under concurrency

    The state is the registry, the receivers that are alive, and the topics of
    those whose [Drop] has released them and not yet taken the lock.  A step is
    one critical section; an eviction acts on a list some earlier read made. *)
Inductive bus_step : Bus * list Topic * list Topic → Bus * list Topic * list Topic → Prop :=
| bus_step_evict dead bus rs ps : bus_step (bus, rs, ps) (live_evict dead bus, rs, ps)
| bus_step_publish e bus rs ps : bus_step (bus, rs, ps) (bus_publish e bus, rs, ps)
| bus_step_subscribe t bus rs ps : bus_step (bus, rs, ps) (bus_subscribe t bus, t :: rs, ps)
| bus_step_release t bus rs rs' ps :
    rs ≡ₚ t :: rs' → bus_step (bus, rs, ps) (receiver_release t bus, rs', t :: ps)
| bus_step_unregister t bus rs ps ps' :
    ps ≡ₚ t :: ps' → bus_step (bus, rs, ps) (receiver_unregister t bus, rs, ps').

Definition readers_of (rs : list Topic) (t : Topic) : nat := length (filter (λ x, x = t) rs).

(** Every receiver is counted by the channel of its topic, and a channel
    without receivers is one whose last [Drop] has not finished. *)
Definition bus_inv (s : Bus * list Topic * list Topic) : Prop :=
  let '(bus, rs, ps) := s in
  ∀ t, match receivers_at bus t with
       | Some n => n = readers_of rs t ∧ (n = 0 → t ∈ ps)
       | None => readers_of rs t = 0
       end.

Lemma readers_of_cons rs t x : readers_of (x :: rs) t = (if decide (x = t) then 1 else 0) + readers_of rs t.
Proof. unfold readers_of. rewrite filter_cons. by destruct (decide (x = t)). Qed.

Lemma readers_of_perm rs rs' t : rs ≡ₚ rs' → readers_of rs t = readers_of rs' t.
Proof. intros Hp. unfold readers_of. by rewrite Hp. Qed.

Lemma reclaim_receivers x bus t :
  receivers_at (reclaim x bus) t =
  if decide (x = t ∧ receivers_at bus t = Some 0) then None else receivers_at bus t.
Proof.
  unfold reclaim, receivers_at. destruct (decide (x = t)) as [->|Hne].
  - destruct (bus !! t) as [c|] eqn:E; simpl; [|by rewrite E; destruct (decide _)].
    destruct (Nat.eqb (receivers c) 0) eqn:E0.
    + apply Nat.eqb_eq in E0. rewrite lookup_delete_eq, E0. by rewrite decide_True.
    + apply Nat.eqb_neq in E0. rewrite E. simpl. rewrite decide_False; [done|]. intros [_ [= ?]]. done.
  - rewrite (decide_False (P := _ ∧ _)) by (by intros [? _]).
    destruct (bus !! x) as [c|]; [|done]. destruct (Nat.eqb (receivers c) 0); [|done].
    by rewrite lookup_delete_ne.
Qed.

Lemma publish_receivers e bus t : receivers_at (bus_publish e bus) t = receivers_at bus t.
Proof.
  unfold bus_publish, receivers_at. destruct (bus !! ev_topic e) as [c|] eqn:E; [|done].
  destruct (Nat.eqb (receivers c) 0); [done|].
  destruct (decide (ev_topic e = t)) as [<-|]; [|by rewrite lookup_insert_ne].
  by rewrite lookup_insert_eq, E.
Qed.

Lemma subscribe_receivers x bus t :
  receivers_at (bus_subscribe x bus) t =
  if decide (x = t) then Some (S (default 0 (receivers_at bus t))) else receivers_at bus t.
Proof.
  unfold bus_subscribe, receivers_at. destruct (decide (x = t)) as [<-|]; [|by rewrite lookup_insert_ne].
  rewrite lookup_insert_eq. simpl. by destruct (bus !! x).
Qed.

Lemma release_receivers x bus t :
  receivers_at (receiver_release x bus) t =
  if decide (x = t) then pred <$> receivers_at bus t else receivers_at bus t.
Proof.
  unfold receiver_release, receivers_at. destruct (decide (x = t)) as [<-|].
  - destruct (bus !! x) as [c|] eqn:E; [|by rewrite E]. by rewrite lookup_insert_eq.
  - destruct (bus !! x) as [c|]; [|done]. by rewrite lookup_insert_ne.
Qed.

Lemma evict_receivers dead bus t :
  receivers_at (live_evict dead bus) t = receivers_at bus t ∨
  (receivers_at bus t = Some 0 ∧ receivers_at (live_evict dead bus) t = None).
Proof.
  unfold live_evict. revert bus. induction dead as [|x dead IH]; intros bus; simpl; [by left|].
  pose proof (reclaim_receivers x bus t) as Hx. destruct (IH (reclaim x bus)) as [->|[E ->]].
  - rewrite Hx. destruct (decide _) as [[_ E]|]; auto.
  - rewrite Hx in E. destruct (decide _); [done|auto].
Qed.

Lemma bus_step_inv s s' : bus_step s s' → bus_inv s → bus_inv s'.
Proof.
  intros Hstep Hi. destruct Hstep as [dead bus rs ps|e bus rs ps|x bus rs ps|x bus rs rs' ps Hp|x bus rs ps ps' Hp];
    intros t; specialize (Hi t).
  - destruct (evict_receivers dead bus t) as [->|[E ->]]; [done|]. rewrite E in Hi. by destruct Hi as [<- _].
  - by rewrite publish_receivers.
  - rewrite subscribe_receivers, readers_of_cons. destruct (decide (x = t)) as [->|Hxt]; [|done].
    destruct (receivers_at bus t) as [n|]; simpl; [destruct Hi as [-> _]; done|by rewrite Hi].
  - rewrite release_receivers. rewrite (readers_of_perm _ _ t Hp), readers_of_cons in Hi.
    destruct (decide (x = t)) as [->|Hxt].
    + destruct (receivers_at bus t) as [n|]; simpl; [|lia]. destruct Hi as [-> _].
      split; [done|]. intros _. by left.
    + destruct (receivers_at bus t) as [n|]; [|done]. destruct Hi as [-> Hz]. split; [done|].
      intros E. right. auto.
  - unfold receiver_unregister. rewrite reclaim_receivers. destruct (decide _) as [[_ E]|Hn].
    + rewrite E in Hi. by destruct Hi as [<- _].
    + destruct (receivers_at bus t) as [n|]; [|done]. destruct Hi as [-> Hz]. split; [done|].
      intros E. specialize (Hz E). rewrite Hp in Hz. apply elem_of_cons in Hz as [->|]; [|done].
      destruct Hn. by rewrite E.
Qed.

(** C38: no reader loses its channel and no channel outlives its readers.  However
    subscriptions, drops, publications and the two halves of [live] interleave,
    a topic that somebody reads has a channel that counts exactly its readers,
    so [live] reports it and an event published on it reaches them; and once
    every [Drop] has run to its end, the registry holds no channel without a
    reader. *)
Theorem bus_serves_readers (bus : Bus) (rs ps : list Topic)
    (Hsteps : rtc bus_step (∅, [], []) (bus, rs, ps)) :
  (∀ t, t ∈ rs → receivers_at bus t = Some (readers_of rs t) ∧ t ∈ (bus_live [t] bus).1 ∧
     ∀ e, ev_topic e = t → ∃ c, bus !! t = Some c ∧ bus_publish e bus !! t = Some (mkChannel (receivers c) (sent c ++ [e]))) ∧
  (ps = [] → ∀ t, is_Some (bus !! t) ↔ t ∈ rs).
Proof.
  assert (bus_inv (bus, rs, ps)) as Hi.
  { assert (∀ s s', rtc bus_step s s' → bus_inv s → bus_inv s') as Hind
      by (induction 1; [done|]; eauto using bus_step_inv).
    apply (Hind _ _ Hsteps). intros t. done. }
  assert (∀ t, t ∈ rs ↔ readers_of rs t ≠ 0) as Hr.
  { intros t. unfold readers_of. split.
    - intros Ht E. apply nil_length_inv in E. assert (t ∈ filter (λ x, x = t) rs) as Hf
        by (by apply list_elem_of_filter). rewrite E in Hf. by apply elem_of_nil in Hf.
    - destruct (filter (λ x, x = t) rs) as [|x l] eqn:E; [done|]. intros _.
      assert (x ∈ filter (λ x, x = t) rs) as Hf by (rewrite E; by left).
      by apply list_elem_of_filter in Hf as [-> ?]. }
  split.
  - intros t Ht. specialize (Hi t). apply Hr in Ht.
    destruct (receivers_at bus t) as [n|] eqn:E; [|done]. destruct Hi as [-> _].
    split; [done|]. split.
    + unfold bus_live, live_read. cbn [fst]. apply list_elem_of_filter. split; [|by left].
      unfold has_reader. rewrite E. by destruct (readers_of rs t).
    + intros e <-. unfold receivers_at in E. destruct (bus !! ev_topic e) as [c|] eqn:Ec; [|done].
      injection E as E. exists c. split; [done|]. unfold bus_publish. rewrite Ec.
      destruct (Nat.eqb (receivers c) 0) eqn:E0; [apply Nat.eqb_eq in E0; congruence|].
      apply lookup_insert_eq.
  - intros -> t. specialize (Hi t). rewrite Hr.
    transitivity (is_Some (receivers_at bus t)); [unfold receivers_at; by rewrite fmap_is_Some|].
    destruct (receivers_at bus t) as [n|].
    + destruct Hi as [<- Hz]. split; [|eauto]. intros _ E. apply Hz in E. by apply elem_of_nil in E.
    + rewrite Hi. split; [by intros [? ?]|done].
Qed.

(** Two readers subscribe, one leaves while a stale eviction of the topic is
    under way. *)
Lemma bus_serves_readers_witness :
  let bus := live_evict ["t"] (receiver_unregister "t" (receiver_release "t" (bus_subscribe "t" (bus_subscribe "t" ∅)))) in
  receivers_at bus "t" = Some 1 ∧ (is_Some (bus !! "t") ↔ "t" ∈ ["t"]).
Proof.
  intros bus. assert (rtc bus_step (∅, [], []) (bus, ["t"], [])) as Hs.
  { eapply rtc_l; [apply bus_step_subscribe|]. eapply rtc_l; [apply bus_step_subscribe|].
    eapply rtc_l; [by apply (bus_step_release "t" _ _ ["t"])|].
    eapply rtc_l; [by apply (bus_step_unregister "t" _ _ _ [])|]. apply rtc_once, bus_step_evict. }
  destruct (bus_serves_readers bus ["t"] [] Hs) as [H1 H2].
  split; [|exact (H2 eq_refl "t")].
  exact (proj1 (H1 "t" ltac:(by left))).
Defined.
