(* ===== verification/Http.v ===== *)
(** The HTTP edge, the part every handler shares ([http.rs]): responses,
    advertisements, refusals, validators, preconditions, request bodies.

    A header value that the sources [parse().expect(..)] is written as the
    string it is: what they put there is ASCII of their own or an IRI, and an
    IRI holds no control character. *)
From S2P Require Import Prelude Str Terms Space Rdf Dataset Patch Store Mem Resource.
From S2P Require Import Container Auxiliary Pdp Guard Shapes Notify.
Open Scope list_scope.

(** * Requests and responses *)
Notation Headers := (list (string * string)).

Record Response : Type := mkResponse {
  res_status : nat;
  res_headers : Headers;
  res_body : string
}.

(** [HeaderMap::insert] replaces, [append] adds. *)
Definition h_insert (h : Headers) (name value : string) : Headers :=
  filter (λ x, x.1 ≠ name) h ++ [(name, value)].
Definition h_append (h : Headers) (name value : string) : Headers := h ++ [(name, value)].
Definition h_get (h : Headers) (name : string) : option string :=
  head (omap (λ x, if bool_decide (x.1 = name) then Some x.2 else None) h).

Definition res_insert (r : Response) (name value : string) : Response :=
  mkResponse (res_status r) (h_insert (res_headers r) name value) (res_body r).
Definition res_append (r : Response) (name value : string) : Response :=
  mkResponse (res_status r) (h_append (res_headers r) name value) (res_body r).

(** [StatusCode::into_response] and [(StatusCode, String)::into_response]. *)
Definition status_only (s : nat) : Response := mkResponse s [] "".
Definition text_response (s : nat) (body : string) : Response :=
  mkResponse s [("content-type", "text/plain; charset=utf-8")] body.

Definition OK : nat := 200.
Definition CREATED : nat := 201.
Definition NO_CONTENT : nat := 204.
Definition NOT_MODIFIED : nat := 304.
Definition BAD_REQUEST : nat := 400.
Definition UNAUTHORIZED : nat := 401.
Definition FORBIDDEN : nat := 403.
Definition NOT_FOUND : nat := 404.
Definition METHOD_NOT_ALLOWED : nat := 405.
Definition NOT_ACCEPTABLE : nat := 406.
Definition CONFLICT : nat := 409.
Definition PRECONDITION_FAILED : nat := 412.
Definition PAYLOAD_TOO_LARGE : nat := 413.
Definition URI_TOO_LONG : nat := 414.
Definition UNSUPPORTED_MEDIA_TYPE : nat := 415.
Definition UNPROCESSABLE_ENTITY : nat := 422.
Definition INTERNAL_SERVER_ERROR : nat := 500.

(** [HeaderValue::to_str().ok()]. *)
Class HeaderText : Type := header_text : string → option string.

Definition header_str `{HeaderText} (headers : Headers) (name : string) : string :=
  default "" (v ← h_get headers name; header_text v).

Definition header_opt `{HeaderText} (headers : Headers) (name : string) : option string :=
  v ← h_get headers name; header_text v.

(** Quote a value. *)
Definition quoted (s : string) : string := QUOTE +:+ s +:+ QUOTE.

(** * Classification and advertisements *)
Definition classify `{IriSyntax} (sp : StorageSpace) (request_path : string) : outcome nat Target :=
  omap_err (λ e, match e with Reserved => NOT_FOUND | _ => BAD_REQUEST end) (resolve sp request_path).

Definition aux_links (target : Target) : option string :=
  let links (subject : ResourceUrl) :=
    join_str ", " (map (λ k, "<" +:+ graph_iri (aux subject k) +:+ ">; rel=" +:+ quoted (link_rel k))
                       AuxKind_ALL) in
  match target with
  | TResource r => Some (links r)
  | TContainer c => Some (links (as_resource c))
  | TAux _ => None
  end.

Definition with_aux_links (res : Response) (target : Target) : Response :=
  match aux_links target with
  | Some value => res_append res "link" value
  | None => res
  end.

Definition allowed_methods (target : Target) : string :=
  match target with
  | TContainer c =>
      match parent (as_resource c) with
      | None => "GET, HEAD, POST, PUT, PATCH, OPTIONS"
      | Some _ => "GET, HEAD, POST, PUT, PATCH, DELETE, OPTIONS"
      end
  | _ => "GET, HEAD, PUT, PATCH, DELETE, OPTIONS"
  end.

Definition ACCEPT_PATCH : string := "text/n3".

(** [enum Write]. *)
Inductive WriteMethod : Type := WPut | WPost.

(** Whether a write method takes blobs at a target, [None] where the method
    is not allowed at all. *)
Definition write_blobs (target : Target) (method : WriteMethod) : option bool :=
  match target, method with
  | TContainer _, WPost | TResource _, WPut => Some true
  | TContainer _, WPut | TAux _, WPut => Some false
  | TResource _, WPost | TAux _, WPost => None
  end.

Definition accept_write (target : Target) (method : WriteMethod) (version : RdfVersion) : option string :=
  blobs ← write_blobs target method;
  let types := Format_ALL ≫= (λ f,
    format_media_type f ::
    (if version_ltb Rdf11 version then [format_media_type f +:+ ";version=" +:+ label version] else [])) in
  Some (join_str ", " (types ++ (if blobs : bool then ["*/*"] else []))).

(** The three [Accept-*] fields, inserted in this order. *)
Definition accept_fields (target : Target) (version : RdfVersion) : Headers :=
  ("accept-patch", ACCEPT_PATCH) ::
  omap (λ x, pair x.1 <$> accept_write target x.2 version)
    [("accept-put", WPut); ("accept-post", WPost)].

Definition with_allow (res : Response) (target : Target) (version : RdfVersion) : Response :=
  foldl (λ res x, res_insert res x.1 x.2) res
    (("allow", allowed_methods target) :: accept_fields target version).

Definition wac_group (m : AccessModes) : string :=
  join_str " " (map snd (filter (λ x, allows m x.1 = true)
    [(Read, "read"); (Write, "write"); (Append, "append"); (Control, "control")])).

Definition wac_allow_value (decision : Decision) : string :=
  "user=" +:+ quoted (wac_group (d_user decision)) +:+
  ",public=" +:+ quoted (wac_group (d_public decision)).

Definition with_read_headers (res : Response) (target : Target) (decision : Decision)
    (version : RdfVersion) : Response :=
  res_insert (with_allow (with_aux_links res target) target version)
    "wac-allow" (wac_allow_value decision).

(** * Warnings *)
Definition acl_grants_nothing_message (acl_iri subject_iri : string) (is_container is_root : bool)
    : string :=
  let scope := if is_container then " and everything below it" else "" in
  "The ACL at " +:+ acl_iri +:+ " grants no access to anyone, so every request for " +:+
  subject_iri +:+ scope +:+ " is now denied, including the Control needed to remove this ACL." +:+
  (if is_root then " Recovery requires restarting the server with --reset-root-acl." else "").

Definition BACKSLASH : ascii := ascii_of_nat 92.
Definition DQUOTE : ascii := ascii_of_nat 34.

Definition warning_header `{HeaderSyntax} (message : string) : option string :=
  if contains_char DQUOTE message || contains_char BACKSLASH message then None else
  let v := "199 - " +:+ quoted message in
  if header_valid v then Some v else None.

(** [None] when [space.root()] panics. *)
Definition warn_if_acl_grants_nothing `{IriSyntax} `{HeaderSyntax} (sp : StorageSpace) (a : AuxUrl)
    (triples : list triple) (res : Response) : option Response :=
  if negb (bool_decide (a_kind a = Acl)) then Some res else
  let subject_iri := graph_iri (a_subject a) in
  if grants_anything triples subject_iri then Some res else
  r ← root sp;
  let is_root := bool_decide (subject_iri = graph_iri r) in
  let is_container := bool_decide (is_Some (as_container (a_subject a))) in
  let message := acl_grants_nothing_message (graph_iri a) subject_iri is_container is_root in
  Some (match warning_header message with
        | Some value => res_insert res "warning" value
        | None => res
        end).

Definition created_response (target : Target) : Response :=
  with_aux_links (mkResponse CREATED [("location", graph_iri target)] "") target.

(** * Errors as responses *)
Definition put_status (e : ResourceError) : nat :=
  match e with
  | StoreErr _ | BlobErr _ => INTERNAL_SERVER_ERROR
  | _ => BAD_REQUEST
  end.

Definition INTERNAL_ERROR_BODY : string := "internal server error".

(** The cause goes to the log. *)
Definition internal_error : Response := text_response INTERNAL_SERVER_ERROR INTERNAL_ERROR_BODY.

Definition DPOP_CHALLENGE : string := "DPoP algs=" +:+ quoted "ES256 RS256".

Definition SLASH_PAIR_MESSAGE : string :=
  "another resource already exists whose URI differs from this one only in the trailing slash".

(** [impl IntoResponse for Denial]. *)
Definition denial_response (d : Denial) : Response :=
  match d with
  | Unauthenticated => mkResponse UNAUTHORIZED [("www-authenticate", DPOP_CHALLENGE)] ""
  | Forbidden => status_only FORBIDDEN
  | AuxSubjectMissing => text_response NOT_FOUND AUX_SUBJECT_MISSING_MESSAGE
  | SlashPair => text_response CONFLICT SLASH_PAIR_MESSAGE
  | StoreDenial _ => internal_error
  end.

(** [ResourceError]'s [Display]. *)
Definition show_resource_error (e : ResourceError) : string :=
  match e with
  | InvalidIri => "invalid resource IRI"
  | RdfErr e => show_rdf_error e
  | StoreErr (StoreBackend m) => "store backend error: " +:+ m
  | BlobErr (BlobBackend m) => "blob backend error: " +:+ m
  | KeyTooLong => "the storage key for this URL is too long"
  | BinaryWithoutMediaType => "a binary resource has no stored media type"
  end.

Definition is_server_error (s : nat) : bool := Nat.leb 500 s && Nat.ltb s 600.

Definition put_error (e : ResourceError) : Response :=
  let status := put_status e in
  if is_server_error status then internal_error else text_response status (show_resource_error e).

(** [ShapeError]'s [Display]. *)
Definition show_shape_error (e : ShapeError) : string :=
  match e with
  | Unparsable m => "the constraint document could not be read as SHACL: " +:+ m
  | Unsupported m => "the constraint document is not an RDF resource in this pod: " +:+ m
  | ShapeMissing => "the constraint document does not exist"
  | Engine m => "the validation engine failed: " +:+ m
  | ShapeResource e => show_resource_error e
  end.

Definition shape_status (e : ShapeError) : Response :=
  let status := match e with
                | ShapeResource r => put_status r
                | Engine _ => INTERNAL_SERVER_ERROR
                | Unparsable _ | Unsupported _ | ShapeMissing => CONFLICT
                end in
  if is_server_error status then internal_error else text_response status (show_shape_error e).

(** * Validators and preconditions *)
Definition SERVABLE : list string :=
  ["text/turtle"; "application/n-triples"; "application/ld+json"; "application/trig";
   "application/n-quads"].

Section etags.
Context `{Hashing} `{Display} `{BlankSyntax}.

Definition etag_candidates (stored : Skolemized) : list string :=
  let held := rdf_version (deskolemize stored) in
  let versions := if bool_decide (held = Rdf11) then [Rdf11] else [Rdf11; held] in
  omap from_content_type SERVABLE ≫= λ f, map (etag stored f) versions.
End etags.

(** [wants_validation]: the one query parameter with a meaning. *)
Definition wants_validation (query : option string) : bool :=
  match query with
  | Some q => bool_decide ("validate" ∈ split_char "&"%char q)
  | None => false
  end.

(** What a request body is. *)
Inductive Repr : Type :=
| ReprRdf (d : Dataset) (f : Format) (declared : RdfVersion)
| ReprBlob (bytes : string) (mt : MediaType).

Definition classify_body `{HeaderText} `{HeaderSyntax} `{RdfLib} (headers : Headers) (body : string)
    (target : Target) (store_version : RdfVersion) : outcome Response Repr :=
  let ct := trim (header_str headers "content-type") in
  if bool_decide (ct = "") then
    if negb (bool_decide (body = "")) then Err (text_response BAD_REQUEST "Content-Type is required")
    else Err (status_only UNSUPPORTED_MEDIA_TYPE)
  else
    match from_content_type ct with
    | Some fmt =>
        match from_media_type ct with
        | None => Err (status_only UNSUPPORTED_MEDIA_TYPE)
        | Some declared =>
            if version_ltb store_version declared then
              Err (text_response UNSUPPORTED_MEDIA_TYPE
                ("this pod's store holds RDF " +:+ label store_version +:+ " at most"))
            else
              match parse fmt body (graph_iri target) declared with
              | Ok d => Ok (ReprRdf d fmt declared)
              | Err e => Err (text_response BAD_REQUEST (show_rdf_error e))
              | Panicked => Panicked
              end
        end
    | None =>
        match parse_media_type ct with
        | None => Err (status_only UNSUPPORTED_MEDIA_TYPE)
        | Some mt =>
            match target with
            | TAux _ => Err (status_only UNSUPPORTED_MEDIA_TYPE)
            | TContainer _ => Err (text_response BAD_REQUEST "a container's representation must be RDF")
            | TResource _ => Ok (ReprBlob body mt)
            end
        end
    end.

(** A [describedby] link to the validation report. *)
Definition report_link `{HeaderSyntax} (target : Target) (res : Response) : Response :=
  match (match target with
         | TResource r => Some (r_path r)
         | TContainer c => Some (c_path c)
         | TAux _ => None
         end) with
  | None => res
  | Some path =>
      let v := "<" +:+ path +:+ "?validate>; rel=" +:+ quoted "describedby" in
      if header_valid v then res_append res "link" v else res
  end.

(** A dataset as Turtle, for an error body. *)
Definition turtle_bytes `{RdfLib} `{Display} (dataset : Dataset) : string :=
  match serialize turtle dataset with Ok b => b | _ => "" end.

Section shared.
Context {W : Type} `{Backend W}.
Context `{IriSyntax} `{HeaderSyntax} `{HeaderText} `{BlankSyntax} `{Hashing} `{ObjectPath} `{Display}
  `{TermDisplay} `{RdfLib} `{ShaclEngine}.
Context (sp : StorageSpace).

Definition current_tags (target : Target) : M W ResourceError (option (list string)) :=
  match target with
  | TResource r =>
      let! kind := kind_of r in
      match kind with
      | Some (KBinary _) =>
          match blob_key_of r with
          | None => ret None
          | Some key =>
              let! b := blob_op (blob_get key) in
              ret ((λ b, [blob_etag b]) <$> b)
          end
      | _ =>
          let! stored := get_dataset r in
          ret (etag_candidates <$> stored)
      end
  | _ =>
      let! triples := get_rdf (graph_iri target) in
      match triples with
      | None => ret None
      | Some triples =>
          match ground_dataset triples with
          | Some ground => ret (Some (etag_candidates ground))
          | None => panic
          end
      end
  end.

(** [If-Match] and [If-None-Match], on the tags the target has now. *)
Definition conditionals_hold (headers : Headers) (tags : option (list string)) : bool :=
  match header_opt headers "if-match" with
  | Some im => match tags with Some ts => bool_decide (im ∈ ts) | None => false end
  | None => true
  end &&
  negb (bool_decide (header_opt headers "if-none-match" = Some "*") && bool_decide (is_Some tags)).

Definition check_conditionals (headers : Headers) (target : Target) : M W Response unit :=
  if negb (bool_decide (is_Some (h_get headers "if-match")))
     && negb (bool_decide (is_Some (h_get headers "if-none-match")))
  then ret tt else
  let! tags := map_err put_error (current_tags target) in
  if conditionals_hold headers tags then ret tt else throw (status_only PRECONDITION_FAILED).

(** The container whose shape applies to a target. *)
Definition shape_container (target : Target) : option ContainerUrl :=
  match target with
  | TAux _ => None
  | TResource r => parent r
  | TContainer c => parent (as_resource c)
  end.

Definition refusal_of_report (shape : ShapeDoc) (report : Report) : Response :=
  let res := mkResponse UNPROCESSABLE_ENTITY [("content-type", "text/turtle")]
               (turtle_bytes (into_dataset report)) in
  let v := "<" +:+ sd_iri shape +:+ ">; rel=" +:+ quoted "http://www.w3.org/ns/ldp#constrainedBy" in
  if header_valid v then res_append res "link" v else res.

Definition enforce_shape (target : Target) (dataset : Dataset) : M W Response (option Report) :=
  match shape_container target with
  | None => ret None
  | Some container =>
      let! shapes := map_err shape_status (load_shape sp container) in
      match shapes with
      | None => ret None
      | Some shape =>
          let! report := lift (omap_err shape_status (validate (sd_turtle shape) dataset)) in
          if refuses report then throw (refusal_of_report shape report) else
          ret (if report_is_empty report then None else Some report)
      end
  end.

Definition patch_shape_conflict (target : Target) : M W Response unit :=
  match shape_container target with
  | None => ret tt
  | Some container =>
      let! shapes := map_err shape_status (load_shape sp container) in
      match shapes with
      | None => ret tt
      | Some shape =>
          throw (text_response CONFLICT
            (graph_iri container +:+ " is shape-constrained (by " +:+ sd_iri shape +:+
             "); a PATCH cannot be validated against a shape, so it is refused rather than risk writing a state the shape does not allow — PUT a full representation to write a validated one"))
      end
  end.
End shared.
