(* ===== verification/HttpWrite.v ===== *)
(** The write handlers ([http.rs]): [PUT], [POST], [PATCH] and [DELETE].

    A handler is a computation whose early [return]s are thrown responses;
    [returned] closes it.  Fresh uuids are arguments: [uuid] supplies the
    skolem IRIs, [name_uuid] and [retry_uuid] the names [POST] allocates. *)
From S2P Require Import Prelude Str Terms Space Rdf Dataset Patch Store Mem Resource.
From S2P Require Import Container Auxiliary Pdp Guard Shapes Notify Http.
Open Scope list_scope.

Definition no_materialized : Materialized := mkMaterialized [] [].

(** What [put_write] hands to the emit. *)
Definition PutResult : Type := Response * Existence * Materialized.

Inductive ContainmentConflict : Type := Ground | VariablePredicate.

Definition containment_message (c : ContainmentConflict) : string :=
  match c with
  | Ground => "ldp:contains is server-managed"
  | VariablePredicate =>
      "a variable predicate on a container may bind ldp:contains, which is server-managed"
  end.

(** The loop of [patch_sets_containment]: the triples offered to the check, or
    the pattern without one. *)
Fixpoint written_predicates (iri : string) (ps : list Pattern) : option (list triple) :=
  match ps with
  | [] => Some []
  | p :: ps =>
      match p_predicate p with
      | PNamed predicate =>
          written ← written_predicates iri ps;
          Some (Triple (SNamed iri) predicate (TNamed iri) :: written)
      | _ => None
      end
  end.

Definition patch_sets_containment (patch : Patch) (c : ContainerUrl) : option ContainmentConflict :=
  match written_predicates (graph_iri c) (insertions patch ++ deletions patch) with
  | None => Some VariablePredicate
  | Some written => if body_sets_containment written then Some Ground else None
  end.

Definition BINARY_TARGET_MESSAGE : string :=
  "this resource holds bytes rather than triples, so there is nothing to patch".

(** [PatchError]'s [Display]. *)
Definition show_patch_error (e : PatchError) : string :=
  match e with
  | Syntax m => "invalid N3: " +:+ m
  | PatchShape m => "not a valid N3 Patch: " +:+ m
  | PatchReserved => "the urn:quadpod: namespace is reserved"
  | Rdf12Term => "RDF 1.2 terms are not accepted in a patch; a patch is read as RDF 1.1"
  end.

(** [AuxError]'s [Display], for the variants a response shows. *)
Definition show_aux_error (e : AuxError) : string :=
  match e with
  | SubjectMissing => "the auxiliary's subject resource does not exist"
  | AuxMissing => "the auxiliary resource does not exist"
  | TooLarge n => "an auxiliary resource may hold at most " +:+ pretty MAX_AUX_TRIPLES +:+
                  " triples, and this one has " +:+ pretty n
  | AuxResource e => show_resource_error e
  end.

Definition show_term `{TermDisplay} (t : PatternTerm) : string :=
  match t with
  | PNamed n => term_display (TNamed n)
  | PLiteral l => term_display (TLiteral l)
  | PVar i => "?v" +:+ pretty i
  end.

Definition show_patterns `{TermDisplay} (ps : list Pattern) : string :=
  join_str " " (map (λ p, show_term (p_subject p) +:+ " " +:+ show_term (p_predicate p) +:+ " " +:+
                          show_term (p_object p) +:+ " .") ps).

Definition patch_conflict `{TermDisplay} (reason : string) (ps : list Pattern) : Response :=
  text_response CONFLICT (reason +:+ ": " +:+ show_patterns ps).

Definition patch_response `{TermDisplay} (result : PatchResult) (patch : Patch) : Response :=
  match result with
  | Applied => status_only NO_CONTENT
  | NoMapping => patch_conflict "nothing matches the conditions" (conditions patch)
  | SeveralMappings =>
      patch_conflict "more than one mapping satisfies the conditions" (conditions patch)
  | DeletionMissing => patch_conflict "a triple this patch deletes is not there" (deletions patch)
  end.

Section write.
Context {W : Type} `{Backend W} `{EventBus W}.
Context `{IriSyntax} `{HeaderSyntax} `{HeaderText} `{BlankSyntax} `{Hashing} `{ObjectPath} `{Display}
  `{TermDisplay} `{RdfLib} `{ShaclEngine} `{N3Lib}.
Context (sp : StorageSpace) (uuid : nat → string).

Definition existence_of (g : Guard) : Existence := if target_exists g then Existed else Absent.

(** ** [PUT] *)

(** The blob arm of [put_write]. *)
Definition put_write_blob (g : Guard) (target : Target) (headers : Headers) (existence : Existence)
    (bytes : string) (mt : MediaType) : M W PutResult PutResult :=
  match target with
  | TResource r =>
      if negb (bool_decide (is_Some (blob_key_of r)))
      then throw (status_only URI_TOO_LONG, existence, no_materialized) else
      do! map_err (λ res, (res, existence, no_materialized)) (check_conditionals headers target) in
      let! materialized := map_err (λ d, (with_aux_links (denial_response d) target, existence,
                                          no_materialized)) (materialize g) in
      let! written := attempt (put_blob r bytes mt) in
      ret (match written with
           | inr _ => created_response target
           | inl KeyTooLong => status_only URI_TOO_LONG
           | inl e => put_error e
           end, existence, materialized)
  | _ => panic
  end.

(** The refusals decided on the body and the target alone. *)
Definition put_body_check (target : Target) (dataset : Dataset) : option Response :=
  if uses_reserved_namespace dataset
  then Some (text_response BAD_REQUEST "the urn:quadpod: namespace is reserved") else
  if has_named_graphs dataset && negb (match target with TResource _ => true | _ => false end)
  then Some (text_response BAD_REQUEST "named graphs are only allowed on resources") else
  if (match target with TContainer _ => true | _ => false end)
     && body_sets_containment (triples_of dataset)
  then Some (status_only CONFLICT) else None.

(** A client that declared less than the resource holds. *)
Definition put_version_check (target : Target) (declared : RdfVersion) : M W Response unit :=
  match target with
  | TResource r =>
      let! existing := map_err put_error (get_dataset r) in
      match existing with
      | None => ret tt
      | Some existing =>
          let held := rdf_version (deskolemize existing) in
          if version_ltb declared held then
            throw (text_response CONFLICT
              ("this resource holds RDF " +:+ label held +:+ " terms that " +:+ label declared +:+
               " cannot carry; send Content-Type with version=" +:+ label held +:+ ", or DELETE it first"))
          else ret tt
      end
  | _ => ret tt
  end.

(** What a graph format would discard, named as the client knows it. *)
Definition graph_loss_message (existing : Skolemized) (fmt : Format) : string :=
  let named := named_graphs (deskolemize existing) in
  let blank_named := length (sk_named_graphs existing) - length named in
  let parts := named ++ (if Nat.ltb 0 blank_named
                         then [pretty blank_named +:+ " named by a blank node"] else []) in
  "this resource has named graphs (" +:+ join_str ", " parts +:+ ") that " +:+ format_media_type fmt +:+
  " cannot carry; write it as application/trig or application/ld+json, or DELETE it first".

Definition put_graph_check (target : Target) (fmt : Format) : M W Response unit :=
  match target with
  | TResource r =>
      if carries_dataset fmt then ret tt else
      let! existing := map_err put_error (get_dataset r) in
      match existing with
      | None => ret tt
      | Some existing =>
          if sk_has_named_graphs existing
          then throw (text_response CONFLICT (graph_loss_message existing fmt))
          else ret tt
      end
  | _ => ret tt
  end.

(** The writes of a [PUT], once everything is authorized and checked. *)
Definition put_store_aux (a : AuxUrl) (target : Target) (dataset : Dataset) : M W Response Response :=
  let triples := triples_of (default_graph_only dataset) in
  let! written := attempt (aux_put uuid a triples) in
  match written with
  | inr _ =>
      match warn_if_acl_grants_nothing sp a triples (created_response target) with
      | Some res => ret res
      | None => panic
      end
  | inl SubjectMissing => ret (text_response NOT_FOUND AUX_SUBJECT_MISSING_MESSAGE)
  | inl (TooLarge n) => ret (text_response PAYLOAD_TOO_LARGE (show_aux_error (TooLarge n)))
  | inl AuxMissing => ret internal_error
  | inl (AuxResource e) => ret (put_error e)
  end.

Definition put_store_container (c : ContainerUrl) (target : Target) (dataset : Dataset)
    : M W Response Response :=
  let! existing := map_err put_error (get_rdf (graph_iri c)) in
  let merged := triples_of (default_graph_only dataset) ++
    filter (λ t, t_predicate t = LDP_CONTAINS) (default [] existing) in
  do! map_err put_error (put_rdf uuid (graph_iri c) merged) in
  do! map_err put_error (ensure_container c) in
  ret (created_response target).

Definition put_store (target : Target) (dataset : Dataset) (skolemized : Skolemized) (fmt : Format)
    : M W Response Response :=
  match target with
  | TAux a => put_store_aux a target dataset
  | TContainer c => put_store_container c target dataset
  | TResource r =>
      let! written := attempt (put_dataset r skolemized fmt) in
      ret (match written with inr _ => created_response target | inl e => put_error e end)
  end.

(** The RDF arm of [put_write]. *)
Definition put_write_rdf (g : Guard) (target : Target) (headers : Headers) (existence : Existence)
    (dataset : Dataset) (fmt : Format) (declared : RdfVersion) : M W PutResult PutResult :=
  let refuse (res : Response) : PutResult := (res, existence, no_materialized) in
  do! match put_body_check target dataset with
      | Some res => throw (refuse res)
      | None => ret tt
      end in
  do! map_err refuse (put_version_check target declared) in
  do! map_err refuse (put_graph_check target fmt) in
  let skolemized := skolemize uuid dataset in
  do! map_err refuse (check_conditionals headers target) in
  let! findings := map_err refuse (enforce_shape sp target dataset) in
  let! materialized := map_err (λ d, refuse (with_aux_links (denial_response d) target)) (materialize g) in
  let! res := map_err (λ res, (res, existence, materialized))
                (put_store target dataset skolemized fmt) in
  let res := if bool_decide (is_Some (into_dataset <$> findings)) && is_success (res_status res)
             then report_link target res else res in
  ret (res, existence, materialized).

Definition put_write (agent : Agent) (target : Target) (headers : Headers) (body : string)
    : M W PutResult PutResult :=
  let! g := map_err (λ d, (with_aux_links (denial_response d) target, Absent, no_materialized))
              (probe agent target) in
  do! map_err (λ d, (with_aux_links (denial_response d) target, Absent, no_materialized))
        (lift (authorize g Write)) in
  let existence := existence_of g in
  let! repr := lift (omap_err (λ res, (res, existence, no_materialized))
                 (classify_body headers body target store_rdf_version)) in
  match repr with
  | ReprBlob bytes mt => put_write_blob g target headers existence bytes mt
  | ReprRdf dataset fmt declared => put_write_rdf g target headers existence dataset fmt declared
  end.

Definition put_impl {E : Type} (agent : Agent) (target : Target) (headers : Headers) (body : string)
    : M W E Response :=
  let! (res, existence, materialized) := returned (put_write agent target headers body) in
  do! emit_put target existence materialized (res_status res) in
  ret res.

(** What a handler does with the path: the root's handlers pass the empty one. *)
Definition classified {E : Type} (path : string) (handler : Target → M W E Response) : M W E Response :=
  match classify sp ("/" +:+ path) with
  | Ok target => handler target
  | Err status => ret (status_only status)
  | Panicked => panic
  end.

Definition handle_put {E : Type} (agent : Agent) (path : string) (headers : Headers) (body : string)
    : M W E Response :=
  classified path (λ target, put_impl agent target headers body).

(** The routes of the root, without a path parameter: [classify] of ["/"]. *)
Definition handle_put_root {E : Type} (agent : Agent) (headers : Headers) (body : string) : M W E Response :=
  classified "" (λ target, put_impl agent target headers body).

(** ** [POST] *)

(** The child a [POST] writes: the requested name, or a unique one when that
    is taken. *)
Definition post_child (agent : Agent) (parent : ContainerUrl) (headers : Headers)
    (name_uuid retry_uuid : string) : M W Response (Target * Guard) :=
  let slug := header_opt headers "slug" in
  let wants_container := type_link_requests_container (header_str headers "link") in
  let suffix := if wants_container then "/" else "" in
  let name := child_name slug name_uuid in
  let! child := map_err status_only (lift (classify sp (c_path parent +:+ name +:+ suffix))) in
  let! g := map_err (λ d, with_aux_links (denial_response d) child) (probe agent child) in
  if negb (is_taken g) then ret (child, g) else
  let unique := name +:+ "-" +:+ retry_uuid +:+ suffix in
  let! child := map_err status_only (lift (classify sp (c_path parent +:+ unique))) in
  let! g := map_err (λ d, with_aux_links (denial_response d) child) (probe agent child) in
  ret (child, g).

(** The checks on the body of a [POST]: the findings to advertise. *)
Definition post_checks (child : Target) (repr : Repr) : M W Response (option Report) :=
  match repr with
  | ReprRdf dataset _ _ =>
      match put_body_check child dataset with
      | Some res => throw res
      | None => enforce_shape sp child dataset
      end
  | ReprBlob _ _ =>
      match child with
      | TResource r =>
          if bool_decide (is_Some (blob_key_of r)) then ret None else throw (status_only URI_TOO_LONG)
      | _ => panic
      end
  end.

(** The writes of a [POST]. *)
Definition post_store (child : Target) (repr : Repr) : M W Response Response :=
  match child, repr with
  | TResource r, ReprBlob bytes mt =>
      let! written := attempt (put_blob r bytes mt) in
      ret (match written with
           | inr _ => created_response child
           | inl KeyTooLong => status_only URI_TOO_LONG
           | inl e => put_error e
           end)
  | TResource r, ReprRdf dataset fmt _ =>
      let! written := attempt (put_dataset r (skolemize uuid dataset) fmt) in
      ret (match written with inr _ => created_response child | inl e => put_error e end)
  | TContainer c, ReprRdf dataset _ _ =>
      let! written := attempt
        (do! put_rdf uuid (graph_iri c) (triples_of (default_graph_only dataset)) in ensure_container c) in
      ret (match written with inr _ => created_response child | inl e => put_error e end)
  | TContainer _, ReprBlob _ _ => panic
  | TAux _, _ => ret internal_error
  end.

(** [post_impl] up to its emit, with what the emit needs. *)
Definition post_write (agent : Agent) (target : Target) (headers : Headers) (body : string)
    (name_uuid retry_uuid : string) : M W (Response * option (Target * Materialized))
                                          (Response * option (Target * Materialized)) :=
  let refuse (res : Response) := (res, None : option (Target * Materialized)) in
  let! parent_guard := map_err (λ d, refuse (with_aux_links (denial_response d) target))
                         (probe agent target) in
  do! map_err (λ d, refuse (with_aux_links (denial_response d) target))
        (lift (authorize parent_guard Append)) in
  match target with
  | TContainer parent =>
      let! (child, child_guard) := map_err refuse (post_child agent parent headers name_uuid retry_uuid) in
      let! repr := lift (omap_err refuse (classify_body headers body child store_rdf_version)) in
      let! findings := map_err refuse (post_checks child repr) in
      let! materialized := map_err (λ d, refuse (with_aux_links (denial_response d) child))
                             (materialize child_guard) in
      let! res := map_err refuse (post_store child repr) in
      let res := if bool_decide (is_Some (into_dataset <$> findings)) && is_success (res_status res)
                 then report_link child res else res in
      ret (res, Some (child, materialized))
  | _ => throw (refuse (status_only CONFLICT))
  end.

Definition post_impl {E : Type} (agent : Agent) (target : Target) (headers : Headers) (body : string)
    (name_uuid retry_uuid : string) : M W E Response :=
  let! (res, written) := returned (post_write agent target headers body name_uuid retry_uuid) in
  match written with
  | None => ret res
  | Some (child, materialized) =>
      do! emit_post child materialized (res_status res) in
      ret res
  end.

Definition handle_post {E : Type} (agent : Agent) (path : string) (headers : Headers) (body : string)
    (name_uuid retry_uuid : string) : M W E Response :=
  classified path (λ target, post_impl agent target headers body name_uuid retry_uuid).

Definition handle_post_root {E : Type} (agent : Agent) (headers : Headers) (body : string)
    (name_uuid retry_uuid : string) : M W E Response :=
  classified "" (λ target, post_impl agent target headers body name_uuid retry_uuid).

(** ** [PATCH] *)

Definition create_by_patch (g : Guard) (target : Target) (patch : Patch)
    : M W (Response * Materialized) (Response * Materialized) :=
  match ground_insertions patch with
  | None => throw (patch_response NoMapping patch, no_materialized)
  | Some triples =>
      if negb (is_empty (deletions patch))
      then throw (patch_response DeletionMissing patch, no_materialized) else
      let! materialized := map_err (λ d, (with_aux_links (denial_response d) target, no_materialized))
                             (materialize g) in
      let! written :=
        match target with
        | TResource r =>
            match ground_dataset triples with
            | Some d => attempt (put_dataset r d turtle)
            | None => panic
            end
        | TContainer c => attempt (do! put_rdf uuid (graph_iri c) triples in ensure_container c)
        | TAux _ => panic
        end in
      match written with
      | inr _ => ret (created_response target, materialized)
      | inl e => throw (put_error e, no_materialized)
      end
  end.

(** The patch of a body, or the refusal it earns. *)
Definition patch_body (headers : Headers) (body : string) (target : Target) : outcome Response Patch :=
  let ct := trim (header_str headers "content-type") in
  if bool_decide (ct = "") then
    (if bool_decide (body = "") then Err (status_only UNSUPPORTED_MEDIA_TYPE)
     else Err (text_response BAD_REQUEST "Content-Type is required"))
  else if negb (bool_decide (essence <$> parse_media_type ct = Some "text/n3"))
  then Err (status_only UNSUPPORTED_MEDIA_TYPE)
  else
    match parse_patch body (graph_iri target) with
    | Ok p => Ok p
    | Err (PatchShape m) => Err (text_response UNPROCESSABLE_ENTITY (show_patch_error (PatchShape m)))
    | Err e => Err (text_response BAD_REQUEST (show_patch_error e))
    | Panicked => Panicked
    end.

(** The refusals that read the target's state, in their order. *)
Definition patch_checks (headers : Headers) (target : Target) (patch : Patch) : M W Response unit :=
  do! match target with
      | TResource r =>
          let! kind := map_err put_error (kind_of r) in
          match kind with
          | Some (KBinary _) => throw (text_response CONFLICT BINARY_TARGET_MESSAGE)
          | _ => ret tt
          end
      | _ => ret tt
      end in
  do! patch_shape_conflict sp target in
  do! match target with
      | TContainer c =>
          match patch_sets_containment patch c with
          | Some conflict => throw (text_response CONFLICT (containment_message conflict))
          | None => ret tt
          end
      | _ => ret tt
      end in
  check_conditionals headers target.

Definition patch_aux_response (a : AuxUrl) (patch : Patch) : M W PutResult Response :=
  let! result := attempt (aux_patch a patch) in
  ret (match result with
       | inr result => patch_response result patch
       | inl SubjectMissing => text_response NOT_FOUND AUX_SUBJECT_MISSING_MESSAGE
       | inl AuxMissing => text_response NOT_FOUND (show_aux_error AuxMissing)
       | inl (TooLarge _) => internal_error
       | inl (AuxResource e) => put_error e
       end).

(** Patching a resource or container that is there. *)
Definition patch_existing (r : ResourceUrl) (target : Target) (patch : Patch) : M W PutResult Response :=
  let! result := attempt (patch_dataset r patch) in
  match result with
  | inl e => ret (put_error e)
  | inr result =>
      match target with
      | TContainer c =>
          let! ensured := attempt (ensure_container c) in
          ret (match ensured with
               | inr _ => patch_response result patch
               | inl e => put_error e
               end)
      | _ => ret (patch_response result patch)
      end
  end.

Definition patch_write (agent : Agent) (target : Target) (headers : Headers) (body : string)
    : M W Response PutResult :=
  let! g := map_err (λ d, with_aux_links (denial_response d) target) (probe agent target) in
  let! decision := map_err (λ d, with_aux_links (denial_response d) target) (lift (authorize g Append)) in
  let! patch := lift (patch_body headers body target) in
  if negb (is_aux_target target) && negb (satisfied_by (required_modes patch) (d_user decision))
  then throw (with_aux_links (denial_response (guard_deny g)) target) else
  do! patch_checks headers target patch in
  match target with
  | TAux a =>
      let! res := returned (let! res := patch_aux_response a patch in ret (res, Existed, no_materialized)) in
      ret res
  | TResource _ | TContainer _ =>
      let r := subject_of target in
      let existence := existence_of g in
      match existence with
      | Absent =>
          let! (res, materialized) := returned (create_by_patch g target patch) in
          ret (res, existence, materialized)
      | Existed =>
          let! res := returned (let! res := patch_existing r target patch in
                                ret (res, existence, no_materialized)) in
          ret res
      end
  end.

Definition patch_impl {E : Type} (agent : Agent) (target : Target) (headers : Headers) (body : string)
    : M W E Response :=
  let! written := attempt (patch_write agent target headers body) in
  match written with
  | inl res => ret res
  | inr (res, existence, materialized) =>
      do! emit_patch target existence materialized (res_status res) in
      ret res
  end.

Definition handle_patch {E : Type} (agent : Agent) (path : string) (headers : Headers) (body : string)
    : M W E Response :=
  classified path (λ target, patch_impl agent target headers body).

Definition handle_patch_root {E : Type} (agent : Agent) (headers : Headers) (body : string) : M W E Response :=
  classified "" (λ target, patch_impl agent target headers body).

(** ** [DELETE] *)

(** The loop over the kinds: every auxiliary that is there must be removable. *)
Fixpoint deletable_auxes (g : Guard) (subject : ResourceUrl) (kinds : list AuxKind)
    : outcome Denial (list AuxUrl) :=
  match kinds with
  | [] => Ok []
  | k :: kinds =>
      let? d := authorize_aux g k in
      let? more := deletable_auxes g subject kinds in
      Ok (match d with Some _ => aux subject k :: more | None => more end)
  end.

Definition delete_subject_write (g : Guard) (target : Target) : M W Response (Response * list AuxUrl) :=
  let subject := subject_of target in
  do! map_err (λ d, with_aux_links (denial_response d) target) (lift (authorize_parent g Write)) in
  let! present_auxes := map_err (λ d, with_aux_links (denial_response d) target)
                          (lift (deletable_auxes g subject AuxKind_ALL)) in
  do! match target with
      | TContainer c =>
          if negb (bool_decide (is_Some (parent subject)))
          then throw (status_only METHOD_NOT_ALLOWED) else
          let! empty := map_err (λ _, internal_error) (container_is_empty c) in
          if empty : bool then ret tt else throw (status_only CONFLICT)
      | _ => ret tt
      end in
  let! deleted := attempt (delete_subject subject) in
  ret (match deleted with
       | inr true => status_only NO_CONTENT
       | inr false => with_aux_links (status_only NOT_FOUND) target
       | inl _ => internal_error
       end, present_auxes).

Definition delete_write (agent : Agent) (target : Target) : M W Response (Response * list AuxUrl) :=
  let! g := map_err (λ d, with_aux_links (denial_response d) target) (probe agent target) in
  do! map_err (λ d, with_aux_links (denial_response d) target) (lift (authorize g Write)) in
  match target with
  | TAux a =>
      let! deleted := attempt (delete_rdf (graph_iri a)) in
      ret (match deleted with
           | inr true => status_only NO_CONTENT
           | inr false => status_only NOT_FOUND
           | inl _ => internal_error
           end, [])
  | _ => delete_subject_write g target
  end.

Definition delete_impl {E : Type} (agent : Agent) (target : Target) : M W E Response :=
  let! written := attempt (delete_write agent target) in
  match written with
  | inl res => ret res
  | inr (res, present_auxes) =>
      do! emit_delete target present_auxes (res_status res) in
      ret res
  end.

Definition handle_delete {E : Type} (agent : Agent) (path : string) : M W E Response :=
  classified path (delete_impl agent).

Definition handle_delete_root {E : Type} (agent : Agent) : M W E Response := classified "" (delete_impl agent).
End write.
