(* ===== verification/HttpRead.v ===== *)
(** The read handlers ([http.rs]): [GET], the validation report, [OPTIONS],
    and the CORS layer. *)
From S2P Require Import Prelude Str Terms Space Rdf Dataset Patch Store Mem Resource Container.
From S2P Require Import Auxiliary Pdp Guard Shapes Notify Http.
Open Scope list_scope.

(** [Ord::min] on versions. *)
Definition version_min (a b : RdfVersion) : RdfVersion := if version_leb a b then a else b.

Definition PARTIAL_DATASET : string := "https://w3id.org/quadpod/ns#partialDataset".
Definition CONTAINS_GRAPH : string := "https://w3id.org/quadpod/ns#containsGraph".

Definition link_to (iri params : string) : string := "<" +:+ iri +:+ ">; " +:+ params.

(** The [Content-Type] of a representation: with its version only where the
    resource is not plain RDF 1.1. *)
Definition served_type (fmt : Format) (held served : RdfVersion) : string :=
  if version_ltb Rdf11 held then format_media_type fmt +:+ ";version=" +:+ label served
  else format_media_type fmt.

(** The [alternate] link of a response whose version cost something. *)
Definition version_link (iri : string) (fmt : Format) (held served : RdfVersion) : Headers :=
  if version_ltb served held then
    [("link", link_to iri ("rel=" +:+ quoted "alternate" +:+ "; type=" +:+
                           quoted (format_media_type fmt +:+ ";version=" +:+ label held)))]
  else [].

(** The links of a graph format that left named graphs out. *)
Definition partial_links (iri : string) (names : list string) : Headers :=
  [("link", link_to iri ("rel=" +:+ quoted PARTIAL_DATASET))] ++
  map (λ n, ("link", link_to n ("rel=" +:+ quoted CONTAINS_GRAPH))) names ++
  map (λ alt, ("link", link_to iri ("rel=" +:+ quoted "alternate" +:+ "; type=" +:+ quoted alt)))
    ["application/trig"; "application/ld+json"].

(** [ResourceError::InvalidIri] is the client's, the rest the server's. *)
Definition read_error (e : ResourceError) : Response :=
  match e with InvalidIri => status_only BAD_REQUEST | _ => internal_error end.

(** * [OPTIONS] *)
Definition options_impl (target : Target) (headers : Headers) (version : RdfVersion) : Response :=
  let methods := allowed_methods target in
  let out := [("allow", methods); ("access-control-allow-methods", methods)] ++
             accept_fields target version ++
             match h_get headers "access-control-request-headers" with
             | Some requested => [("access-control-allow-headers", requested)]
             | None => []
             end in
  mkResponse NO_CONTENT out "".

(** * CORS *)
Definition EXPOSED_HEADERS : string :=
  "Accept-Patch, Accept-Post, Accept-Put, Allow, Content-Type, ETag, Link, Location, Vary, WAC-Allow, Warning, WWW-Authenticate".

Definition h_get_all (h : Headers) (name : string) : list string :=
  omap (λ x, if bool_decide (x.1 = name) then Some x.2 else None) h.

(** The members of a list-valued field. *)
Definition field_members `{HeaderText} (h : Headers) (name : string) : list string :=
  filter (λ p, p ≠ "") (map trim (omap header_text (h_get_all h name) ≫= split_char ","%char)).

Definition vary_parts `{HeaderText} (h : Headers) : list string :=
  let parts := field_members h "vary" in
  if existsb (λ p, eq_ignore_ascii_case p "origin") parts then parts else parts ++ ["Origin"].

(** [cors_layer] on the response of the inner service. *)
Definition cors_layer `{HeaderText} `{HeaderSyntax} (req_headers : Headers) (res : Response) : Response :=
  match h_get req_headers "origin" with
  | None => res
  | Some origin =>
      let res := res_insert res "access-control-allow-origin" origin in
      let v := join_str ", " (vary_parts (res_headers res)) in
      let res := if header_valid v then res_insert res "vary" v else res in
      res_insert res "access-control-expose-headers" EXPOSED_HEADERS
  end.

(** * Reading *)
Section read.
Context {W : Type} `{Backend W}.
Context `{IriSyntax} `{HeaderSyntax} `{HeaderText} `{BlankSyntax} `{Hashing} `{ObjectPath} `{Display}
  `{TermDisplay} `{RdfLib} `{ShaclEngine}.
Context (sp : StorageSpace).

Definition not_found (target : Target) : Response := with_aux_links (status_only NOT_FOUND) target.

(** [blob_read], on a target that is a resource. *)
Definition blob_read (r : ResourceUrl) (headers : Headers) (mt : MediaType) : M W Response Response :=
  let target := TResource r in
  if negb (accept_allows (header_str headers "accept") mt) then throw (status_only NOT_ACCEPTABLE) else
  match blob_key_of r with
  | None => throw (status_only URI_TOO_LONG)
  | Some key =>
      let! bytes := map_err (λ _, internal_error) (blob_get key) in
      match bytes with
      | None =>
          let out := match warning_header "the storage backend has no object for this resource" with
                     | Some v => [("warning", v)]
                     | None => []
                     end in
          throw (with_aux_links (mkResponse NOT_FOUND out "") target)
      | Some bytes =>
          let tag := blob_etag bytes in
          let out := [("etag", tag); ("vary", "Accept")] in
          if bool_decide (header_opt headers "if-none-match" = Some tag)
          then ret (with_allow (with_aux_links (mkResponse NOT_MODIFIED out "") target)
                      target store_rdf_version)
          else ret (with_allow (with_aux_links
                      (mkResponse OK (out ++ [("content-type", mt_header mt)]) bytes) target)
                      target store_rdf_version)
      end
  end.

(** A representation of what is visible, or its validator alone: the part
    [get_impl] and [legacy_graph_read] share in their shape. *)
Definition not_modified (target : Target) (decision : Decision) (tag : string) : Response :=
  with_read_headers (mkResponse NOT_MODIFIED [("etag", tag); ("vary", "Accept")] "") target decision
    store_rdf_version.

Definition legacy_graph_read (decision : Decision) (target : Target) (headers : Headers)
    : M W Response Response :=
  match negotiate (header_str headers "accept") ShapeGraph None with
  | None => throw (status_only NOT_ACCEPTABLE)
  | Some (fmt, requested) =>
      let! triples := map_err read_error (get_rdf (graph_iri target)) in
      match triples with
      | None => throw (not_found target)
      | Some triples =>
          match ground_dataset triples with
          | None => panic
          | Some ground =>
              let visible := deskolemize ground in
              let held := rdf_version visible in
              let served_version := version_min requested held in
              let tag := etag ground fmt served_version in
              if bool_decide (header_opt headers "if-none-match" = Some tag)
              then ret (not_modified target decision tag) else
              match project_to visible served_version with
              | None => panic
              | Some served =>
                  match serialize fmt served with
                  | Ok bytes =>
                      ret (with_read_headers
                        (mkResponse OK ([("content-type", served_type fmt held served_version);
                                         ("etag", tag); ("vary", "Accept")] ++
                                        version_link (graph_iri target) fmt held served_version) bytes)
                        target decision store_rdf_version)
                  | Err _ => throw internal_error
                  | Panicked => panic
                  end
              end
          end
      end
  end.

(** The representation [get_impl] serves of a stored dataset. *)
Definition dataset_response (r : ResourceUrl) (decision : Decision) (headers : Headers)
    (stored : Skolemized) (stored_type : option Format) : outcome Response Response :=
  let target := TResource r in
  let visible := deskolemize stored in
  let shape := if sk_has_named_graphs stored then ShapeDataset else ShapeGraph in
  match negotiate (header_str headers "accept") shape stored_type with
  | None => Err (status_only NOT_ACCEPTABLE)
  | Some (fmt, requested) =>
      let held := rdf_version visible in
      let served_version := version_min requested held in
      let tag := etag stored fmt served_version in
      if bool_decide (header_opt headers "if-none-match" = Some tag)
      then Ok (not_modified target decision tag) else
      let served := if carries_dataset fmt then visible else default_graph_only visible in
      match project_to served served_version with
      | None => Panicked
      | Some served =>
          match serialize fmt served with
          | Ok bytes =>
              let out := [("content-type", served_type fmt held served_version);
                          ("etag", tag); ("vary", "Accept")] ++
                         version_link (graph_iri r) fmt held served_version ++
                         (if negb (carries_dataset fmt) && sk_has_named_graphs stored
                          then partial_links (graph_iri r) (named_graphs visible) else []) in
              Ok (with_read_headers (mkResponse OK out bytes) target decision store_rdf_version)
          | Err _ => Err internal_error
          | Panicked => Panicked
          end
      end
  end.

Definition get_resource (r : ResourceUrl) (decision : Decision) (headers : Headers) : M W Response Response :=
  let target := TResource r in
  let! kind := map_err read_error (kind_of r) in
  match kind with
  | Some (KBinary mt) => blob_read r headers mt
  | None => throw (not_found target)
  | Some KRdf =>
      let! stored := map_err read_error (get_dataset r) in
      match stored with
      | None => throw (not_found target)
      | Some stored =>
          let! mt := ok_flatten (stored_media_type r) in
          lift (dataset_response r decision headers stored (m ← mt; from_content_type (mt_raw m)))
      end
  end.

Definition get_write (agent : Agent) (target : Target) (headers : Headers) : M W Response Response :=
  let! g := map_err (λ d, with_aux_links (denial_response d) target) (probe agent target) in
  let! decision := map_err (λ d, with_aux_links (denial_response d) target) (lift (authorize g Read)) in
  match target with
  | TResource r => get_resource r decision headers
  | _ => legacy_graph_read decision target headers
  end.

Definition get_impl {E : Type} (agent : Agent) (target : Target) (headers : Headers) : M W E Response :=
  returned (get_write agent target headers).

(** ** The validation report *)

(** What the shape is validated against: the target's own content. *)
Definition validated_dataset (target : Target) : M W Response Dataset :=
  match target with
  | TResource r =>
      let! kind := attempt (kind_of r) in
      match kind with
      | inr (Some (KBinary _)) => throw (not_found target)
      | _ =>
          let! stored := map_err put_error (get_dataset r) in
          match stored with
          | Some d => ret (deskolemize d)
          | None => throw (not_found target)
          end
      end
  | TContainer c =>
      let! triples := map_err put_error (get_rdf (graph_iri c)) in
      match triples with
      | Some t =>
          match ground_dataset (without_server_managed t (graph_iri c)) with
          | Some d => ret (deskolemize d)
          | None => panic
          end
      | None => throw (not_found target)
      end
  | TAux _ => panic
  end.

Definition validate_body (agent : Agent) (target : Target) (headers : Headers) : M W Response Response :=
  let! g := map_err (λ d, with_aux_links (denial_response d) target) (probe agent target) in
  let! _ := map_err (λ d, with_aux_links (denial_response d) target) (lift (authorize g Read)) in
  match shape_container target with
  | None => throw (not_found target)
  | Some container =>
      let! shapes := map_err shape_status (load_shape sp container) in
      match shapes with
      | None => throw (not_found target)
      | Some shape =>
          let! dataset := validated_dataset target in
          let! report := lift (omap_err shape_status (validate (sd_turtle shape) dataset)) in
          match negotiate (header_str headers "accept") ShapeGraph None with
          | None => throw (status_only NOT_ACCEPTABLE)
          | Some (fmt, _) =>
              match serialize fmt (into_dataset report) with
              | Ok bytes => ret (mkResponse OK [("content-type", format_media_type fmt); ("vary", "Accept")] bytes)
              | Err _ => throw internal_error
              | Panicked => panic
              end
          end
      end
  end.

Definition validate_view {E : Type} (agent : Agent) (target : Target) (headers : Headers) : M W E Response :=
  returned (validate_body agent target headers).

(** ** Dispatch on the path *)
Definition handle_get {E : Type} (agent : Agent) (path : string) (query : option string) (headers : Headers)
    : M W E Response :=
  match classify sp ("/" +:+ path) with
  | Ok target =>
      if wants_validation query then validate_view agent target headers else get_impl agent target headers
  | Err status => ret (status_only status)
  | Panicked => panic
  end.

Definition handle_get_root {E : Type} (agent : Agent) (query : option string) (headers : Headers) : M W E Response :=
  match classify sp "/" with
  | Ok target =>
      if wants_validation query then validate_view agent target headers else get_impl agent target headers
  | Err status => ret (status_only status)
  | Panicked => panic
  end.

Definition handle_options {E : Type} (path : string) (headers : Headers) : M W E Response :=
  match classify sp ("/" +:+ path) with
  | Ok target => ret (options_impl target headers store_rdf_version)
  | Err status => ret (status_only status)
  | Panicked => panic
  end.

Definition handle_options_root {E : Type} (headers : Headers) : M W E Response :=
  match classify sp "/" with
  | Ok target => ret (options_impl target headers store_rdf_version)
  | Err status => ret (status_only status)
  | Panicked => panic
  end.
End read.
