(* ===== verification/Reads.v ===== *)
(** What reading the stores keeps.

    [ReadsKeep P] says of a property of worlds that the four read calls of a
    backend keep it; everything in the program that only reads keeps it then.
    The file instantiates nothing: a client gives the property. *)
From S2P Require Import Prelude Str Terms Space Rdf Dataset Patch Store Mem Resource Container.
From S2P Require Import Auxiliary Pdp Guard Shapes Notify Http HttpWrite HttpRead.
Open Scope list_scope.

Class ReadsKeep {W : Type} `{Backend W} (P : W → Prop) : Prop := {
  rk_triples q : keeps P (query_triples q) (λ _, True);
  rk_ask ps : keeps P (ask ps) (λ _, True);
  rk_select q : keeps P (query_solutions q) (λ _, True);
  rk_blob_get k : keeps P (blob_get k) (λ _, True)
}.

Create HintDb keeps.
#[export] Hint Resolve rk_triples rk_ask rk_select rk_blob_get : keeps.

(** Follow the program; its calls are hints. *)
Ltac follow := repeat (cbv zeta; first [done | keeps_step | eauto with keeps]).

(** A guard is about the target it was probed for. *)
Definition probed (target : Target) (g : Guard) : Prop :=
  g_target g = target ∧ g_chain g = chain_of (subject_of target).

Lemma probed_subject target g : probed target g → guard_subject g = subject_of target.
Proof. intros [_ Hc]. unfold guard_subject. by rewrite Hc. Qed.

Section reads.
Context `{IriSyntax} `{HeaderSyntax} `{HeaderText} `{BlankSyntax} `{Hashing} `{ObjectPath} `{Display}
  `{TermDisplay} `{RdfLib} `{ShaclEngine} `{N3Lib}.
Context (sp : StorageSpace).
Context {W : Type} `{Backend W} (P : W → Prop) `{!ReadsKeep P}.

Notation kept m := (keeps P m (λ _, True)).

Lemma kept_exists iri : kept (exists_ iri).
Proof. unfold exists_, store_op. follow. Qed.

Lemma kept_exists_many iris : kept (exists_many iris).
Proof. unfold exists_many, store_op. follow. Qed.

Lemma kept_registered r : kept (registered_shelves r).
Proof. unfold registered_shelves, store_op. follow. Qed.

Lemma kept_stored_media_type r : kept (stored_media_type r).
Proof. unfold stored_media_type, store_op. follow. Qed.
#[local] Hint Resolve kept_exists kept_exists_many kept_registered kept_stored_media_type : keeps.

Lemma kept_kind_of r : kept (kind_of r).
Proof. unfold kind_of, store_op. follow. Qed.

Lemma kept_get_rdf iri : kept (get_rdf iri).
Proof. unfold get_rdf, store_op. follow. Qed.

Lemma kept_read_shelves sys ks acc : kept (read_shelves sys ks acc).
Proof.
  revert acc. induction ks as [|k ks IH]; intros acc; simpl; [follow|]. unfold read_shelf, store_op. follow.
Qed.
#[local] Hint Resolve kept_kind_of kept_get_rdf kept_read_shelves : keeps.

Lemma kept_get_dataset r : kept (get_dataset r).
Proof. unfold get_dataset, store_op. follow. Qed.
#[local] Hint Resolve kept_get_dataset : keeps.

Lemma kept_container_is_empty c : kept (container_is_empty c).
Proof. unfold container_is_empty, store_op. follow. Qed.

Lemma kept_load_shape c : kept (load_shape sp c).
Proof. unfold load_shape, load_document, shape_op, store_op. follow. Qed.
#[local] Hint Resolve kept_load_shape : keeps.

Lemma kept_enforce_shape target d : kept (enforce_shape sp target d).
Proof. unfold enforce_shape. follow. Qed.

Lemma kept_patch_shape_conflict target : kept (patch_shape_conflict sp target).
Proof. unfold patch_shape_conflict. follow. Qed.

Lemma kept_current_tags target : kept (current_tags target).
Proof. unfold current_tags, blob_op. follow. Qed.
#[local] Hint Resolve kept_current_tags : keeps.

Lemma kept_check_conditionals h target : kept (check_conditionals h target).
Proof. unfold check_conditionals. follow. Qed.

Lemma kept_put_version_check target v : kept (put_version_check target v).
Proof. unfold put_version_check. follow. Qed.

Lemma kept_put_graph_check target f : kept (put_graph_check target f).
Proof. unfold put_graph_check. follow. Qed.

Lemma keeps_probe agent target : keeps P (probe agent target) (probed target).
Proof.
  unfold probe, denial_op, load_chain_acls, store_op. keeps_step; [follow|]. keeps_step; [follow|].
  by apply keeps_ret.
Qed.

Lemma kept_guarded {F B} agent target (f : Denial → F) (k : Guard → M W F B) (Q : B → Prop) :
  (∀ g, probed target g → keeps P (k g) Q) → keeps P (bind (map_err f (probe agent target)) k) Q.
Proof. intros Hk. eapply keeps_bind; [apply keeps_map_err, keeps_probe|exact Hk]. Qed.

(** ** The read handlers *)
Lemma kept_get_impl {E} agent target h : kept (get_impl agent target h : M W E Response).
Proof.
  unfold get_impl, get_write. eapply keeps_returned, kept_guarded. intros g _.
  unfold get_resource, blob_read, legacy_graph_read, ok_flatten. follow.
Qed.

Lemma kept_validate_view {E} agent target h : kept (validate_view sp agent target h : M W E Response).
Proof.
  unfold validate_view, validate_body. eapply keeps_returned, kept_guarded. intros g _.
  unfold validated_dataset. follow.
Qed.

Lemma kept_handle_get {E} agent path query h : kept (handle_get sp agent path query h : M W E Response).
Proof.
  unfold handle_get. destruct (classify sp _) as [target|n|]; [|follow..].
  destruct (wants_validation query); [apply kept_validate_view|apply kept_get_impl].
Qed.
End reads.

#[export] Hint Resolve kept_exists kept_exists_many kept_registered kept_stored_media_type kept_kind_of
  kept_get_rdf kept_get_dataset kept_container_is_empty kept_load_shape kept_enforce_shape
  kept_patch_shape_conflict kept_current_tags kept_check_conditionals kept_put_version_check
  kept_put_graph_check : keeps.
