(* ===== verification/Toy.v ===== *)
(** A concrete pod for the witnesses of the HTTP level: an in-memory store
    with a bus, and small stand-ins for the libraries. *)
From S2P Require Import Prelude Str Terms Space Rdf Dataset Patch Store Mem Resource Container.
From S2P Require Import Auxiliary Pdp Guard Shapes Notify Http HttpWrite.
Open Scope list_scope.

(** The bus is the extra state of the world. *)
#[export] Instance mem_bus : EventBus (Mem Bus) := {|
  get_bus := m_extra;
  set_bus b w := mkMem (m_triples w) (m_objects w) (m_faults w) b
|}.

#[export] Instance mem_bus_laws : BusLaws (Mem Bus).
Proof.
  split; [done|..]; intros; simpl; unfold mem_write, mem_read; by destruct (m_faults w) as [|[[]|] ?].
Qed.

Definition toy_text : HeaderText := Some.
Definition toy_blanks : BlankSyntax := λ _, true.
Definition toy_terms : TermDisplay := λ _, "term".
Definition toy_shacl : ShaclEngine := λ _ _, ShaclReport "".
Definition toy_n3 : N3Lib := λ _ _, inl "not n3".

(** A parser of two documents: the root ACL as it is provisioned, and
    anything else, which is one triple about the base. *)
Definition toy_parse (base bytes : string) : list quad :=
  if starts_with "<#owner>" bytes then
    map (quad_of_triple GDefault)
      (Triple (SNamed "https://pod.example/.aux/.acl#owner") ACL_MODE (TNamed ACL_CONTROL) :: (snd <$> toy_acl))
  else [Quad (SNamed base) "http://e/p" (TNamed "http://e/o") GDefault].

Definition toy_rdf : RdfLib := {|
  rdf_formats f := match f with TriG | JsonLd | NQuads => true | _ => false end;
  rdf_parse _ base bytes := inr (toy_parse base bytes);
  rdf_serialize _ _ := inr "serialized"
|}.

(** The root's container and ACL, nobody listening. *)
Definition toy_store : Mem Bus :=
  mkMem (present_at (graph_iri toy_root) :: present_at (acl_of toy_root) :: toy_acl) ∅ [] ∅.

Definition turtle_headers : Headers := [("content-type", "text/turtle")].
