(* ===== verification/Steps.v ===== *)
(** Requests on a pod that others are writing to.

    [SharedLaws] says of a backend what concurrency leaves of [BackendLaws]:
    other requests may update the store before any call.  Under it every write
    handler, whatever it is asked and however its calls fail, moves the store
    by the steps of [pod_step] alone, so what rule induction shows of those
    steps holds of the running server. *)
From S2P Require Import Prelude Str Terms Space Rdf Dataset Patch Store Mem Resource Container.
From S2P Require Import Ground Auxiliary Pdp Guard Shapes Notify Http HttpWrite HttpRead Reads Toy.
Open Scope list_scope.

(** * A shared store *)
Class SharedLaws (W : Type) (env : relation (gset located)) `{Backend W} `{EventBus W} : Type := {
  shared : W → gset located;
  (** An update lands on what the others have made of the store. *)
  sh_update ops w :
    match update ops w with
    | (Ok _, w') => ∃ G, rtc env (shared w) G ∧ shared w' = run_ops ops G
    | (Err _, w') => ∃ G, rtc env (shared w) G ∧ (shared w' = G ∨ shared w' = run_ops ops G)
    | (Panicked, _) => False
    end;
  (** A query answers for one state of the store. *)
  sh_triples q w :
    rtc env (shared w) (shared (query_triples q w).2) ∧
    ∀ ts, (query_triples q w).1 = Ok ts → ∀ t, t ∈ ts → answers q (shared (query_triples q w).2) t;
  sh_ask ps w : rtc env (shared w) (shared (ask ps w).2);
  sh_select q w : rtc env (shared w) (shared (query_solutions q w).2);
  sh_blob_put k b w : rtc env (shared w) (shared (blob_put k b w).2);
  sh_blob_get k w : rtc env (shared w) (shared (blob_get k w).2);
  sh_blob_delete k w : rtc env (shared w) (shared (blob_delete k w).2);
  (** The bus is beside the store. *)
  sh_bus b w : shared (set_bus b w) = shared w
}.

(** What a plain backend needs of its bus. *)
Class BesideStore (W : Type) `{BackendLaws W} `{EventBus W} : Prop :=
  beside b w : graphs (set_bus b w) = graphs w.

(** A store nobody else writes to is a shared store. *)
#[export] Instance alone_shared W env `{BackendLaws W} `{EventBus W} `{!BesideStore W} : SharedLaws W env.
Proof.
  refine {| shared := graphs |}; intros.
  - pose proof (update_law ops w) as Hl. destruct (update ops w) as [[u|e|] w']; [| |done].
    + exists (graphs w). split; [done|]. by destruct Hl.
    + exists (graphs w). split; [done|]. by destruct Hl.
  - pose proof (query_triples_law q w) as Hl. destruct (query_triples q w) as [[ts|e|] w']; [| |done]; cbn.
    + destruct Hl as (-> & _ & _ & Hts). split; [done|]. intros ? [= <-] t. apply Hts.
    + destruct Hl as [-> _]. by split.
  - pose proof (ask_law ps w) as Hl. destruct (ask ps w) as [[b|e|] w']; cbn; [by destruct Hl as [-> _]..|done].
  - pose proof (query_solutions_law q w) as Hl.
    destruct (query_solutions q w) as [[r|e|] w']; cbn; [by destruct Hl as [-> _]..|done].
  - pose proof (blob_put_law k b w) as Hl. destruct (blob_put k b w) as [[r|e|] w']; cbn; [by destruct Hl as [-> _]..|done].
  - pose proof (blob_get_law k w) as Hl. destruct (blob_get k w) as [[r|e|] w']; cbn; [by destruct Hl as [-> _]..|done].
  - pose proof (blob_delete_law k w) as Hl.
    destruct (blob_delete k w) as [[r|e|] w']; cbn; [by destruct Hl as [-> _]..|done].
  - apply beside.
Defined.

(** * The handlers *)
Section handlers.
Context `{IriSyntax} `{HeaderSyntax} `{HeaderText} `{BlankSyntax} `{Hashing} `{ObjectPath} `{Display}
  `{TermDisplay} `{RdfLib} `{ShaclEngine} `{N3Lib}.
Context (sp : StorageSpace) (Hsp : space_wf sp).
Context {W : Type} `{SharedLaws W (pod_step sp)}.

(** The states the pod can be in. *)
Definition reached (w : W) : Prop := rtc (pod_step sp) ∅ (shared w).

Notation stays m := (keeps reached m (λ _, True)).

Lemma reached_inv w : reached w → pod_inv sp (shared w).
Proof. by apply reachable_inv. Qed.

Lemma reached_rtc w w' : rtc (pod_step sp) (shared w) (shared w') → reached w → reached w'.
Proof. intros Hs Hr. unfold reached in *. by transitivity (shared w). Qed.

(** ** The calls *)
Lemma stays_rtc {E A} (m : M W E A) : (∀ w, rtc (pod_step sp) (shared w) (shared (m w).2)) → stays m.
Proof. intros Hm w Hw. split; [|done]. by apply (reached_rtc w); [apply Hm|]. Qed.

Lemma stays_update ops : (∀ G, pod_step sp G (run_ops ops G)) → stays (update ops).
Proof.
  intros Hs w Hr. split; [|done]. pose proof (sh_update ops w) as Hl. unfold reached in *. destruct (update ops w) as [[u|e|] w']; cbn; [| |done].
  - destruct Hl as (G & HG & ->). eapply rtc_r; [etrans; eassumption|apply Hs].
  - destruct Hl as (G & HG & [->| ->]); [etrans; eassumption|].
    eapply rtc_r; [etrans; eassumption|apply Hs].
Qed.

Lemma stays_triples q : stays (query_triples q).
Proof. apply stays_rtc. intros w. apply sh_triples. Qed.

Lemma stays_ask ps : stays (ask ps).
Proof. apply stays_rtc. intros w. apply sh_ask. Qed.

Lemma stays_select q : stays (query_solutions q).
Proof. apply stays_rtc. intros w. apply sh_select. Qed.

Lemma stays_blob_put k b : stays (blob_put k b).
Proof. apply stays_rtc. intros w. apply sh_blob_put. Qed.

Lemma stays_blob_get k : stays (blob_get k).
Proof. apply stays_rtc. intros w. apply sh_blob_get. Qed.

Lemma stays_blob_delete k : stays (blob_delete k).
Proof. apply stays_rtc. intros w. apply sh_blob_delete. Qed.

Lemma stays_on_bus {E A} (f : Bus → A * Bus) : stays (on_bus f : M W E A).
Proof.
  apply stays_rtc. intros w. unfold on_bus. destruct (f (get_bus w)) as [a b]. cbn. by rewrite sh_bus.
Qed.

#[local] Instance reads_reached : ReadsKeep reached.
Proof. split; [apply stays_triples|apply stays_ask|apply stays_select|apply stays_blob_get]. Qed.
#[local] Hint Resolve reads_reached stays_blob_put stays_blob_delete stays_on_bus : keeps.

(** ** [resource.rs] *)
(** A registry lists shelves, whenever it was read. *)
Lemma keeps_registered r : keeps reached (registered_shelves r) (Forall shelf_like).
Proof.
  unfold registered_shelves, store_op. set (q := QObjects _ _ _).
  assert (keeps reached (query_triples q)
    (Forall (λ t, ∀ n, t_object t = TNamed n → shelf_like n))) as Hq.
  { intros w Hr. destruct (sh_triples q w) as [Hw Ha]. apply reached_rtc in Hw; [|done].
    split; [done|]. intros ts Ets. apply Forall_forall. intros t Ht n En.
    apply (Ha ts Ets) in Ht. unfold q, answers in Ht. destruct Ht as (Hin & Es & Ep).
    destruct (inv_shelves _ _ (reached_inv _ Hw) (graph_iri r) (t_subject t) (t_object t)) as (k & E & Hl).
    - rewrite <- Ep. destruct t as [s p o]. exact Hin.
    - rewrite En in E. apply (inj TNamed) in E. by subst k. }
  eapply keeps_bind; [apply keeps_map_err, Hq|]. intros ts Hts. apply keeps_ret, Forall_forall.
  intros k (t & Ht & Ek)%list_elem_of_omap. rewrite Forall_forall in Hts.
  destruct (t_object t) as [n| | |] eqn:Eo; try discriminate Ek. injection Ek as <-. by eapply Hts.
Qed.

Lemma stays_drop_blob r : stays (drop_blob r).
Proof. unfold drop_blob, blob_op. follow. Qed.

Lemma stays_put_dataset r d f : plain sp r → stays (put_dataset r d f).
Proof.
  intros Hr. unfold put_dataset, store_op.
  assert (∀ ks, Forall shelf_like ks → ∀ G,
    pod_step sp G (run_ops (put_dataset_ops r ks (split_dataset r d).1 (split_dataset r d).2 f) G)) as Hs
    by (intros; by constructor).
  destruct (split_dataset r d) as [dg sh]. cbn in Hs. eapply keeps_bind; [apply keeps_registered|]. intros ks Hks.
  keeps_step; [apply keeps_for_each; intros x _; follow|].
  keeps_step; [apply keeps_map_err, stays_update; by apply Hs|]. apply stays_drop_blob.
Qed.

Lemma stays_put_blob r bytes mt : plain sp r → stays (put_blob r bytes mt).
Proof.
  intros Hr. unfold put_blob, store_op, blob_op. keeps_step; [follow|]. eapply keeps_bind; [apply keeps_registered|]. intros ks Hks.
  keeps_step; [follow|]. apply keeps_map_err, stays_update. intros G. by constructor.
Qed.

Lemma stays_patch iri p guard :
  (∀ dels ins G, Forall storable (omap triple_of_gpat ins) →
     pod_step sp G (run_ops (patch_ops iri dels ins guard) G)) → stays (patch_guarded iri p guard).
Proof.
  intros Hs. assert (∀ bs, stays (patch_apply iri p guard bs)) as Ha.
  { intros bs. unfold patch_apply, store_op. keeps_step; [follow|].
    apply keeps_bind with (λ ins, Forall storable (omap triple_of_gpat ins)).
    - apply keeps_lift. intros ins. apply substitute_storable.
    - intros ins Hins. follow. apply stays_update. intros G. by apply Hs. }
  unfold patch_guarded, store_op. follow.
Qed.

(** ** [container.rs], [wac/guard.rs] *)
Lemma stays_insert_marked (c : ContainerUrl) quads :
  plain sp (as_resource c) → stays (insert_marked (graph_iri c) quads).
Proof. intros Hc. apply keeps_map_err, stays_update. intros G. constructor; [done|apply storable_skolemized]. Qed.

Lemma stays_put_rdf uuid (c : ContainerUrl) ts : plain sp (as_resource c) → stays (put_rdf uuid (graph_iri c) ts).
Proof. intros Hc. apply keeps_map_err, stays_update. intros G. constructor; [done|apply storable_skolemized]. Qed.
#[local] Hint Resolve stays_insert_marked stays_put_rdf : keeps.

Lemma stays_ensure_container c : plain sp (as_resource c) → stays (ensure_container c).
Proof. intros Hc. unfold ensure_container. follow. Qed.

Lemma stays_add_containment p c : plain sp (as_resource p) → stays (add_containment p c).
Proof. intros Hc. unfold add_containment. follow. Qed.
#[local] Hint Resolve stays_ensure_container stays_add_containment : keeps.

(** Where the plan of [materialize] writes. *)
Lemma plan_loop_ancestors g i anc child rc cs pl cs' pl' :
  plan_loop g i anc child rc cs pl = Ok (cs', pl') →
  ∀ x, x ∈ pl' → x ∈ pl ∨ x.1 ∈ anc.
Proof.
  revert i child rc cs pl. induction anc as [|c anc IH]; intros i child rc cs pl; simpl.
  - intros [= <- <-]. auto.
  - destruct (_ && _); [intros [= <- <-]; auto|].
    destruct (decide_from g (S i) Append) as [d|e|]; cbn; try (intros [=]; fail).
    assert (∀ x o, x ∈ pl ++ [(c, o)] → x ∈ pl ∨ x.1 ∈ c :: anc) as Hl.
    { intros x o [?|E]%elem_of_app; [auto|]. apply list_elem_of_singleton in E as ->. right. by left. }
    case_bool_decide.
    + intros [= <- <-] x. apply Hl.
    + intros Hp x Hx. eapply IH in Hp; [|done]. destruct Hp as [Hp|Hp]; [by eapply Hl|right; by right].
Qed.

Lemma stays_materialize target g : plain sp (subject_of target) → probed target g → stays (materialize g).
Proof.
  intros Ht Hg. unfold materialize. destruct (materialize_plan g) as [[cs pl]|e|] eqn:E; [|follow..].
  assert (∀ x, x ∈ pl → plain sp (as_resource x.1)) as Hpl.
  { intros x Hx. eapply plain_ancestor; [exact Ht|]. unfold materialize_plan in E.
    rewrite (probed_subject target g Hg) in E.
    destruct (plan_loop _ _ _ _ _ _ _) as [[cs' pl']|e|] eqn:Ep; cbn in E; try discriminate E.
    assert (pl' = pl) as <- by (by repeat case_match; simplify_eq). by eapply plan_loop_ancestors in Ep as [?%elem_of_nil|?]. }
  apply keeps_bind with (λ x, x = (cs, pl)); [apply keeps_lift; congruence|].
  intros [cs' pl'] [= -> ->]. keeps_step; [|follow].
  generalize ([] : list (ContainerUrl * string)). clear E.
  induction pl as [|[c child] pl IH]; intros links; simpl; [follow|].
  assert (plain sp (as_resource c)) by (apply (Hpl (c, child)); by left).
  assert (∀ links, stays (run_plan pl links)) as IH' by (apply IH; intros x Hx; apply Hpl; by right).
  unfold denial_op. destruct child; follow.
Qed.

(** ** [aux.rs] *)
Lemma stays_aux_put uuid s k ts : plain sp s → stays (aux_put uuid (aux s k) ts).
Proof.
  intros Hs. unfold aux_put, aux_op, store_op. follow. apply stays_update. intros G. constructor; [done|apply storable_skolemized].
Qed.

Lemma stays_aux_patch s k p : plain sp s → stays (aux_patch (aux s k) p).
Proof.
  intros Hs. unfold aux_patch, aux_op. follow; apply stays_patch; intros; by constructor.
Qed.

Lemma stays_aux_delete s k : plain sp s → stays (delete_rdf (graph_iri (aux s k))).
Proof. intros Hs. unfold delete_rdf, store_op. follow. apply stays_update. intros G. by constructor. Qed.

Lemma stays_delete_subject s : plain sp s → stays (delete_subject s).
Proof.
  intros Hs. unfold delete_subject, store_op. keeps_step; [follow|]. eapply keeps_bind; [apply keeps_registered|]. intros ks Hks.
  apply keeps_bind with (λ ops, delete_subject_ops ks s = Ok ops); [by apply keeps_lift|].
  intros ops Hops. keeps_step; [|keeps_step; [apply stays_drop_blob|follow]].
  apply keeps_map_err, stays_update. intros G. by eapply step_delete_subject.
Qed.

(** ** [notify.rs] *)
Lemma stays_state_of {E} target : stays (state_of target : M W E _).
Proof. unfold state_of, state_of_graph, ok_flatten. follow. Qed.
#[local] Hint Resolve stays_state_of : keeps.

Lemma stays_publish_own {E} target a : stays (publish_own target a : M W E unit).
Proof. unfold publish_own, is_live, publish. follow. Qed.

Lemma stays_publish_link {E} a c i : stays (publish_link a c i : M W E unit).
Proof. unfold publish_link, is_live, publish. follow. Qed.
#[local] Hint Resolve stays_publish_own stays_publish_link : keeps.

Lemma stays_publish_containment {E} i m : stays (publish_containment i m : M W E unit).
Proof.
  unfold publish_containment. keeps_step; apply keeps_for_each; intros; follow.
Qed.
#[local] Hint Resolve stays_publish_containment : keeps.

Lemma stays_emit_put {E} t e m n : stays (emit_put t e m n : M W E unit).
Proof. unfold emit_put. follow. Qed.

Lemma stays_emit_post {E} t m n : stays (emit_post t m n : M W E unit).
Proof. unfold emit_post. follow. Qed.

Lemma stays_emit_patch {E} t e m n : stays (emit_patch t e m n : M W E unit).
Proof. unfold emit_patch. follow. Qed.

Lemma stays_emit_delete {E} t l n : stays (emit_delete t l n : M W E unit).
Proof.
  unfold emit_delete. destruct (negb _); [follow|]. keeps_step; [follow|].
  keeps_step; [apply keeps_for_each; intros; follow|]. follow.
Qed.
#[local] Hint Resolve stays_emit_put stays_emit_post stays_emit_patch stays_emit_delete : keeps.

(** ** The write handlers *)

(** What a classified target is. *)
Definition valid (target : Target) : Prop :=
  plain sp (subject_of target) ∧
  match target with TAux a => a = aux (a_subject a) (a_kind a) | _ => True end.

Lemma classify_valid path target : classify sp path = Ok target → valid target.
Proof.
  unfold classify. destruct (resolve sp path) as [t|e|] eqn:E; simpl; [|destruct e; discriminate|discriminate].
  intros [= <-]. apply (resolve_Ok_inv sp path t Hsp) in E as (_ & Hin & _ & Hr & _ & Ht).
  split; [by split|]. destruct t; [done..|]. by destruct Ht as [? _].
Qed.

Lemma keeps_classify path {F} (f : nat → F) :
  keeps reached (map_err f (lift (classify sp path))) valid.
Proof. apply keeps_map_err, keeps_lift. intros t. apply classify_valid. Qed.

Lemma stays_put_store uuid target d sk f : valid target → stays (put_store sp uuid target d sk f).
Proof.
  intros [Hp Ha]. destruct target as [r|c|a]; cbn in Hp.
  - unfold put_store. keeps_step; [by apply keeps_attempt, stays_put_dataset|]. follow.
  - unfold put_store, put_store_container. follow.
  - unfold put_store, put_store_aux. rewrite Ha at 1.
    keeps_step; [apply keeps_attempt; by apply stays_aux_put|]. follow.
Qed.

#[local] Hint Resolve stays_put_store : keeps.

Lemma stays_put_write uuid agent target h body :
  valid target → stays (put_write sp uuid agent target h body).
Proof.
  intros Hv. destruct (id Hv) as [Hp _]. unfold put_write. apply (kept_guarded reached). intros g Hg.
  assert (stays (materialize g)) as Hm by by eapply stays_materialize.
  keeps_step; [follow|]. cbv zeta. keeps_step; [follow|]. destruct a0 as [d f v|bytes mt].
  - unfold put_write_rdf. follow.
  - unfold put_write_blob. destruct target as [r|c|a']; [|follow..]. cbn in Hp.
    assert (stays (put_blob r bytes mt)) by by apply stays_put_blob. follow.
Qed.

Lemma keeps_post_child agent parent h u1 u2 :
  keeps reached (post_child sp agent parent h u1 u2) (λ x, valid x.1 ∧ probed x.1 x.2).
Proof.
  unfold post_child. cbv zeta.
  eapply keeps_bind; [apply keeps_classify|]. intros child Hc.
  apply (kept_guarded reached). intros g Hg.
  destruct (negb (is_taken g)); [by apply keeps_ret|].
  eapply keeps_bind; [apply keeps_classify|]. intros child' Hc'.
  apply (kept_guarded reached). intros g' Hg'.
  by apply keeps_ret.
Qed.

Lemma stays_post_store uuid child repr : valid child → stays (post_store uuid child repr).
Proof.
  intros [Hp _]. destruct child as [r|c|a]; cbn in Hp; unfold post_store; [| |follow].
  - destruct repr as [d f v|bytes mt].
    + keeps_step; [by apply keeps_attempt, stays_put_dataset|]. follow.
    + keeps_step; [by apply keeps_attempt, stays_put_blob|]. follow.
  - follow.
Qed.

Lemma stays_post_write uuid agent target h body u1 u2 :
  valid target → stays (post_write sp uuid agent target h body u1 u2).
Proof.
  intros Hv. unfold post_write. cbv zeta. apply (kept_guarded reached). intros g Hg.
  keeps_step; [follow|]. destruct target as [r|c|a']; [follow| |follow].
  eapply keeps_bind; [apply keeps_map_err, keeps_post_child|]. intros [child cg] [Hc Hcg].
  cbn in Hc, Hcg. destruct (id Hc) as [Hcp _].
  assert (stays (materialize cg)) by by eapply stays_materialize.
  keeps_step; [follow|]. keeps_step; [unfold post_checks; follow|].
  keeps_step; [follow|]. keeps_step; [by apply keeps_map_err, stays_post_store|]. follow.
Qed.

Lemma stays_patch_write uuid agent target h body :
  valid target → stays (patch_write sp uuid agent target h body).
Proof.
  intros Hv. destruct (id Hv) as [Hp Ha]. unfold patch_write. apply (kept_guarded reached). intros g Hg.
  assert (stays (materialize g)) as Hm by by eapply stays_materialize.
  keeps_step; [follow|]. keeps_step; [follow|]. destruct (_ && _); [follow|].
  keeps_step; [unfold patch_checks; follow|].
  assert (∀ r p, plain sp r → stays (patch_dataset r p)) as Hpatch
    by (intros; apply stays_patch; intros; by constructor).
  assert (∀ r d f, plain sp r → stays (put_dataset r d f)) by (intros; by apply stays_put_dataset).
  destruct target as [r|c|a']; cbn in Hp, Ha; cbv zeta; cbn [subject_of].
  - unfold create_by_patch, patch_existing. follow.
  - unfold create_by_patch, patch_existing. follow.
  - unfold patch_aux_response. rewrite Ha at 1.
    assert (stays (aux_patch (aux (a_subject a') (a_kind a')) a0)) by by apply stays_aux_patch. follow.
Qed.

Lemma stays_delete_write agent target : valid target → stays (delete_write agent target).
Proof.
  intros [Hp Ha]. unfold delete_write. apply (kept_guarded reached). intros g Hg. keeps_step; [follow|].
  assert (stays (delete_subject (subject_of target))) by by apply stays_delete_subject.
  destruct target as [r|c|a']; cbn in Hp, Ha.
  - unfold delete_subject_write. follow.
  - unfold delete_subject_write, container_is_empty, store_op. follow.
  - rewrite Ha. assert (stays (delete_rdf (graph_iri (aux (a_subject a') (a_kind a'))))) by by apply stays_aux_delete.
    follow.
Qed.

(** ** What a pod is asked *)
Inductive action : Type :=
| Start (owner_webid : string) (reset : bool)
| Put (agent : Agent) (path : string) (headers : Headers) (body : string)
| Post (agent : Agent) (path : string) (headers : Headers) (body name_uuid retry_uuid : string)
| PatchReq (agent : Agent) (path : string) (headers : Headers) (body : string)
| DeleteReq (agent : Agent) (path : string).

(** The start of [main], and the write routes; [uuid] is what the action's
    skolemization draws. *)
Definition perform (uuid : nat → string) (q : action) : M W ResourceError (option Response) :=
  match q with
  | Start owner reset =>
      match root sp with
      | None => panic
      | Some root =>
          do! provision_root root in
          do! provision_root_acl uuid sp owner reset in
          ret None
      end
  | Put agent path h body => let! r := handle_put sp uuid agent path h body in ret (Some r)
  | Post agent path h body u1 u2 => let! r := handle_post sp uuid agent path h body u1 u2 in ret (Some r)
  | PatchReq agent path h body => let! r := handle_patch sp uuid agent path h body in ret (Some r)
  | DeleteReq agent path => let! r := handle_delete sp agent path in ret (Some r)
  end.

(** A run of the pod: actions one after the other on the shared store. *)
Fixpoint serve (l : list ((nat → string) * action)) (w : W) : W :=
  match l with
  | [] => w
  | (uuid, q) :: l => serve l (perform uuid q w).2
  end.

Lemma root_plain r : root sp = Some r → plain sp (as_resource r).
Proof.
  unfold root. destruct (resolve sp "/") as [[|c|]| |] eqn:E; try (intros [=]; fail). intros [= <-].
  by apply (resolve_plain_subject sp _ _ Hsp) in E.
Qed.

Lemma stays_start uuid owner reset : stays (perform uuid (Start owner reset)).
Proof.
  unfold perform, provision_root, provision_root_acl. destruct (root sp) as [r|] eqn:Er; [|follow].
  apply root_plain in Er. assert (∀ ts, stays (aux_put uuid (aux (as_resource r) Acl) ts))
    by (intros; by apply stays_aux_put). follow.
Qed.

Lemma stays_classified {E} path (handler : Target → M W E Response) :
  (∀ target, valid target → stays (handler target)) → stays (classified sp path handler).
Proof.
  intros Hh. unfold classified. destruct (classify sp _) as [t|n|] eqn:E'; [|follow..].
  by apply Hh, (classify_valid _ _ E').
Qed.

Lemma stays_perform uuid q : stays (perform uuid q).
Proof.
  destruct q as [owner reset|agent path h body|agent path h body u1 u2|agent path h body|agent path];
    [apply stays_start|..]; (unfold perform; keeps_step; [|follow]); apply stays_classified; intros t Ht.
  - unfold put_impl. keeps_step; [eapply keeps_returned; by apply stays_put_write|]. follow.
  - unfold post_impl. keeps_step; [eapply keeps_returned; by apply stays_post_write|]. follow.
  - unfold patch_impl. keeps_step; [apply keeps_attempt; by apply stays_patch_write|]. follow.
  - unfold delete_impl. keeps_step; [apply keeps_attempt; by apply stays_delete_write|]. follow.
Qed.

Lemma serve_reached l w : reached w → reached (serve l w).
Proof.
  revert w. induction l as [|[uuid q] l IH]; intros w Hw; [done|]. simpl. apply IH.
  by apply (stays_perform uuid q w).
Qed.

(** C22: the running server is the step relation.  From an empty store, whatever
    sequence of starts and write requests the pod serves, whatever they carry,
    however their calls fail, and whatever other requests do to the store in
    between any two calls, the store only ever moves by the steps of
    [pod_step].  So in every state it reaches an auxiliary belongs to a subject
    that is there, a registry lists nothing but shelves, and no triple has a
    blank node, whatever the bodies and patches that were sent had. *)
Theorem served_pod_is_reached (l : list ((nat → string) * action)) (w : W) (Hw : shared w = ∅) :
  let G := shared (serve l w) in
  rtc (pod_step sp) ∅ G ∧
  (∀ r k, plain sp r → present_at (graph_iri (aux r k)) ∈ G → present_at (graph_iri r) ∈ G) ∧
  (∀ i s o, (sys_graph_iri i, Triple s SYS_HAS_SUBGRAPH o) ∈ G → ∃ k, o = TNamed k ∧ shelf_like k) ∧
  stored G.
Proof.
  assert (reached (serve l w)) as Hr by (apply serve_reached; unfold reached; by rewrite Hw).
  split; [exact Hr|]. destruct (reached_inv _ Hr) as [I1 I2]. split_and!; [done..|by eapply reachable_stored].
Qed.
End handlers.

(** * A store two requests share

    Before each call of the request that is run, the updates another one has
    scheduled for that moment land. *)
Section contended.
#[local] Existing Instance toy_iri.
#[local] Existing Instance toy_hash.

(** An update that is a step of the pod. *)
Record other : Type := mkOther {
  o_ops : list update_op;
  o_step G : pod_step toy_space G (run_ops o_ops G)
}.

Record Contended : Type := mkContended { c_mem : Mem Bus; c_others : list (list other) }.

Definition land (w : Mem Bus) (o : other) : Mem Bus :=
  mkMem (mem_run (o_ops o) (m_triples w)) (m_objects w) (m_faults w) (m_extra w).

Definition arrive (w : Contended) : Mem Bus := foldl land (c_mem w) (default [] (head (c_others w))).

Definition contend {E A : Type} (m : M (Mem Bus) E A) : M Contended E A := λ w,
  let (o, w') := m (arrive w) in (o, mkContended w' (tail (c_others w))).

#[export] Instance contended_backend : Backend Contended := {|
  update ops := contend (update ops);
  query_triples q := contend (query_triples q);
  ask ps := contend (ask ps);
  query_solutions q := contend (query_solutions q);
  store_rdf_version := Rdf12;
  blob_put k b := contend (blob_put k b);
  blob_get k := contend (blob_get k);
  blob_delete k := contend (blob_delete k)
|}.

#[export] Instance contended_bus : EventBus Contended := {|
  get_bus w := m_extra (c_mem w);
  set_bus b w := mkContended (set_bus b (c_mem w)) (c_others w)
|}.

Definition contended_graphs (w : Contended) : gset located := graphs (c_mem w).

Lemma arrive_rtc w : rtc (pod_step toy_space) (contended_graphs w) (graphs (arrive w)).
Proof.
  unfold arrive, contended_graphs. generalize (c_mem w). induction (default [] (head (c_others w))) as [|o os IH];
    intros m; simpl; [done|]. eapply rtc_l; [|apply IH]. cbn. rewrite mem_run_spec. apply o_step.
Qed.

(** A call that leaves the graphs alone. *)
Lemma contend_reads {E A} (m : M (Mem Bus) E A) w :
  (∀ w, graphs (m w).2 = graphs w) → rtc (pod_step toy_space) (contended_graphs w) (contended_graphs (contend m w).2).
Proof.
  intros Hm. unfold contend. pose proof (Hm (arrive w)) as E'. destruct (m (arrive w)) as [o w'].
  unfold contended_graphs at 2. cbn in *. rewrite E'. apply arrive_rtc.
Qed.

#[export] Instance contended_shared : SharedLaws Contended (pod_step toy_space).
Proof.
  refine {| shared := contended_graphs |}.
  - intros ops w. cbn [update contended_backend]. unfold contend. pose proof (update_law ops (arrive w)) as Hl.
    pose proof (arrive_rtc w) as Ha.
    destruct (update ops (arrive w)) as [[[]|e|] w']; cbn; [| |done]; exists (graphs (arrive w)); naive_solver.
  - intros q w. cbn [query_triples contended_backend]. unfold contend.
    pose proof (query_triples_law q (arrive w)) as Hl. pose proof (arrive_rtc w) as Ha.
    destruct (query_triples q (arrive w)) as [[ts|e|] w']; cbn; [| |done].
    + destruct Hl as (E & _ & _ & Hts). unfold contended_graphs in *. cbn in *. rewrite E. split; [done|].
      intros ? [= <-] t. apply Hts.
    + destruct Hl as [E _]. unfold contended_graphs in *. cbn in *. rewrite E. by split.
  - intros ps w. apply contend_reads. intros m. pose proof (ask_law ps m).
    destruct (ask ps m) as [[]]; naive_solver.
  - intros q w. apply contend_reads. intros m. pose proof (query_solutions_law q m).
    destruct (query_solutions q m) as [[]]; naive_solver.
  - intros k b w. apply contend_reads. intros m. pose proof (blob_put_law k b m).
    destruct (blob_put k b m) as [[]]; naive_solver.
  - intros k w. apply contend_reads. intros m. pose proof (blob_get_law k m).
    destruct (blob_get k m) as [[]]; naive_solver.
  - intros k w. apply contend_reads. intros m. pose proof (blob_delete_law k m).
    destruct (blob_delete k m) as [[]]; naive_solver.
  - done.
Defined.

#[local] Existing Instance toy_header.
#[local] Existing Instance toy_text.
#[local] Existing Instance toy_blanks.
#[local] Existing Instance toy_path.
#[local] Existing Instance toy_display.
#[local] Existing Instance toy_terms.
#[local] Existing Instance toy_rdf.
#[local] Existing Instance toy_shacl.
#[local] Existing Instance toy_n3.

(** The deletion of [/box] by somebody else. *)
Definition toy_delete_ops : list update_op :=
  match delete_subject_ops [] toy_url with Ok ops => ops | _ => [] end.

Lemma toy_delete_step G : pod_step toy_space G (run_ops toy_delete_ops G).
Proof.
  refine (step_delete_subject toy_space G toy_url [] toy_delete_ops toy_url_plain _ _); [constructor|].
  vm_compute. reflexivity.
Qed.

Definition toy_delete : other := mkOther toy_delete_ops toy_delete_step.

(** The pod starts, its owner writes [/box], then its ACL; [/box] is deleted
    under the last request, before its call number [n]. *)
Definition toy_run (n : nat) : Contended :=
  serve toy_space
    [(toy_uuid, Start "https://owner.example/#me" false);
     (toy_uuid, Put toy_owner "box" turtle_headers "a box");
     (toy_uuid, Put toy_owner ".aux/box.acl" turtle_headers "an acl")]
    (mkContended (mkMem [] ∅ [] ∅) (repeat [] n ++ [[toy_delete]])).

Lemma contended_holds (w : Contended) x : x ∈ shared w ↔ x ∈ m_triples (c_mem w).
Proof. apply elem_of_set_of. Qed.

(** Deleted early, [/box] is written again and its ACL lands with it; deleted
    while the ACL is being written, neither is left. *)
Lemma served_pod_is_reached_witness :
  (present_at (acl_of toy_url) ∈ shared (toy_run 13) ∧ present_at (graph_iri toy_url) ∈ shared (toy_run 13)) ∧
  present_at (acl_of toy_url) ∉ shared (toy_run 16).
Proof.
  assert (∀ n, present_at (acl_of toy_url) ∈ shared (toy_run n) → present_at (graph_iri toy_url) ∈ shared (toy_run n))
    as Hall.
  { intros n. exact (proj1 (proj2 (served_pod_is_reached toy_space toy_space_wf _
      (mkContended (mkMem [] ∅ [] ∅) (repeat [] n ++ [[toy_delete]])) eq_refl)) toy_url Acl toy_url_plain). }
  assert (present_at (acl_of toy_url) ∈ shared (toy_run 13)) as Hin.
  { apply contended_holds.
    assert (bool_decide (present_at (acl_of toy_url) ∈ m_triples (c_mem (toy_run 13))) = true) as E by (vm_compute; reflexivity).
    exact (bool_decide_eq_true_1 _ E). }
  split; [split; [exact Hin|exact (Hall 13 Hin)]|].
  assert (bool_decide (present_at (acl_of toy_url) ∈ m_triples (c_mem (toy_run 16))) = false) as E by (vm_compute; reflexivity).
  intros Hn. apply contended_holds in Hn. exact (bool_decide_eq_false_1 _ E Hn).
Defined.
End contended.
