(* ===== verification/Answered.v ===== *)
(** Every request is answered: no handler panics, whatever it is asked, however
    the calls it makes fail, and whatever others do to the store meanwhile.

    [steady] is a computation without a panic; [calm P] one that does not panic
    in a world in [P], which it keeps.  Most of the program is steady by its
    structure; what reads the store back is calm because the store holds what
    [Skolemized::from_store] accepts. *)
From S2P Require Import Prelude Str Terms Space Rdf Dataset Patch Store Mem Resource Container Ground.
From S2P Require Import Auxiliary Pdp Guard Shapes Notify Http HttpWrite HttpRead Reads Toy Steps.
Open Scope list_scope.

(** * The rules *)
Section rules.
Context {W : Type}.

Definition steady {E A} (m : M W E A) : Prop := ∀ w, (m w).1 ≠ Panicked.

Lemma steady_ret {E A} (a : A) : steady (ret a : M W E A).
Proof. done. Qed.

Lemma steady_throw {E A} (e : E) : steady (throw e : M W E A).
Proof. done. Qed.

Lemma steady_lift {E A} (o : outcome E A) : o ≠ Panicked → steady (lift o : M W E A).
Proof. by intros Ho w. Qed.

Lemma steady_bind {E A B} (m : M W E A) (k : A → M W E B) : steady m → (∀ a, steady (k a)) → steady (bind m k).
Proof. intros Hm Hk w. specialize (Hm w). unfold bind. destruct (m w) as [[a|e|] w']; [apply Hk|done|done]. Qed.

Lemma steady_map_err {E F A} (f : E → F) (m : M W E A) : steady m → steady (map_err f m).
Proof. intros Hm w. specialize (Hm w). unfold map_err. by destruct (m w) as [[a|e|] w']. Qed.

Lemma steady_attempt {E F A} (m : M W E A) : steady m → steady (attempt m : M W F (E + A)).
Proof. intros Hm w. specialize (Hm w). unfold attempt. by destruct (m w) as [[a|e|] w']. Qed.

Lemma steady_for_each {E A} (l : list A) (body : A → M W E unit) : (∀ x, x ∈ l → steady (body x)) → steady (for_each l body).
Proof.
  induction l as [|x l IH]; intros Hb; simpl; [done|]. apply steady_bind; [apply Hb; by left|].
  intros _. apply IH. intros y Hy. apply Hb. by right.
Qed.

Lemma steady_on_bus `{EventBus W} {E A} (f : Bus → A * Bus) : steady (on_bus f : M W E A).
Proof. intros w. unfold on_bus. by destruct (f (get_bus w)). Qed.

Context (P : W → Prop).

Definition calm {E A} (m : M W E A) (Q : A → Prop) : Prop :=
  keeps P m Q ∧ ∀ w, P w → (m w).1 ≠ Panicked.

Lemma calm_steady {E A} (m : M W E A) Q : steady m → keeps P m Q → calm m Q.
Proof. intros Hs Hk. split; [done|]. intros w _. apply Hs. Qed.

Lemma calm_bind {E A B} (m : M W E A) (k : A → M W E B) (S : A → Prop) Q :
  calm m S → (∀ a, S a → calm (k a) Q) → calm (bind m k) Q.
Proof.
  intros [Hm Nm] Hk. split; [apply (keeps_bind P m k S); [done|]; intros a Ha; by apply Hk|].
  intros w Hw. specialize (Nm w Hw). destruct (Hm w Hw) as [Hw' Ha]. unfold bind.
  destruct (m w) as [[a|e|] w']; [|done..]. by apply (Hk a (Ha a eq_refl)).
Qed.

Lemma calm_ret {E A} (a : A) (Q : A → Prop) : Q a → calm (ret a : M W E A) Q.
Proof. intros HQ. apply calm_steady; [apply steady_ret|by apply keeps_ret]. Qed.

Lemma calm_throw {E A} (e : E) (Q : A → Prop) : calm (throw e) Q.
Proof. apply calm_steady; [apply steady_throw|by apply keeps_throw]. Qed.

Lemma calm_lift {E A} (o : outcome E A) (Q : A → Prop) : o ≠ Panicked → (∀ a, o = Ok a → Q a) → calm (lift o) Q.
Proof. intros Ho HQ. apply calm_steady; [by apply steady_lift|by apply keeps_lift]. Qed.

Lemma calm_map_err {E F A} (f : E → F) (m : M W E A) Q : calm m Q → calm (map_err f m) Q.
Proof.
  intros [Hm Nm]. split; [by apply keeps_map_err|]. intros w Hw. specialize (Nm w Hw). unfold map_err.
  by destruct (m w) as [[a|e|] w'].
Qed.

Lemma calm_attempt {E F A} (m : M W E A) (Q : A → Prop) :
  calm m Q → calm (attempt m : M W F (E + A)) (λ x, ∀ a, x = inr a → Q a).
Proof.
  intros [Hm Nm]. split; [by apply keeps_attempt|]. intros w Hw. specialize (Nm w Hw). unfold attempt.
  by destruct (m w) as [[a|e|] w'].
Qed.

Lemma calm_returned {E A} (m : M W A A) Q : calm m Q → calm (returned m : M W E A) (λ _, True).
Proof.
  intros [Hm Nm]. split; [by eapply keeps_returned|]. intros w Hw. specialize (Nm w Hw). unfold returned.
  by destruct (m w) as [[a|e|] w'].
Qed.

Lemma calm_for_each {E A} (l : list A) (body : A → M W E unit) :
  (∀ x, x ∈ l → calm (body x) (λ _, True)) → calm (for_each l body) (λ _, True).
Proof.
  induction l as [|x l IH]; intros Hb; simpl; [by apply calm_ret|].
  eapply calm_bind; [apply Hb; by left|]. intros _ _. apply IH. intros y Hy. apply Hb. by right.
Qed.

Lemma calm_weaken {E A} (m : M W E A) (Q Q' : A → Prop) : calm m Q → (∀ a, Q a → Q' a) → calm m Q'.
Proof. intros [Hm Nm] HQ. split; [|done]. by apply (keeps_weaken P m Q). Qed.
End rules.

(** No call of the backend panics. *)
Class CallsReturn (W : Type) `{Backend W} : Prop := {
  cr_update ops : steady (update ops);
  cr_triples q : steady (query_triples q);
  cr_ask ps : steady (ask ps);
  cr_select q : steady (query_solutions q);
  cr_blob_put k b : steady (blob_put k b);
  cr_blob_get k : steady (blob_get k);
  cr_blob_delete k : steady (blob_delete k)
}.

#[export] Instance laws_return W `{BackendLaws W} : CallsReturn W.
Proof.
  split; [intros ops w|intros q w|intros ps w|intros q w|intros k b w|intros k w|intros k w].
  - pose proof (update_law ops w). by destruct (update ops w) as [[]].
  - pose proof (query_triples_law q w). by destruct (query_triples q w) as [[]].
  - pose proof (ask_law ps w). by destruct (ask ps w) as [[]].
  - pose proof (query_solutions_law q w). by destruct (query_solutions q w) as [[]].
  - pose proof (blob_put_law k b w). by destruct (blob_put k b w) as [[]].
  - pose proof (blob_get_law k w). by destruct (blob_get k w) as [[]].
  - pose proof (blob_delete_law k w). by destruct (blob_delete k w) as [[]].
Qed.

(** One step along the structure of a program. *)
Ltac steady_step :=
  lazymatch goal with
  | |- steady (bind _ _) => apply steady_bind; [|intros ?]
  | |- steady (map_err _ _) => apply steady_map_err
  | |- steady (attempt _) => apply steady_attempt
  | |- steady (lift _) => apply steady_lift
  | |- steady (ret _) => apply steady_ret
  | |- steady (throw _) => apply steady_throw
  | |- steady (on_bus _) => apply steady_on_bus
  | |- steady (let '(_, _) := ?x in _) => destruct x
  | |- steady (match ?x with _ => _ end) => destruct x
  end.

Ltac calm_step :=
  lazymatch goal with
  | |- calm _ (bind _ _) _ => eapply calm_bind; [|intros ? ?]
  | |- calm _ (map_err _ _) _ => apply calm_map_err
  | |- calm _ (attempt _) _ => apply calm_attempt
  | |- calm _ (returned _) _ => eapply calm_returned
  | |- calm _ (ret _) _ => first [apply (calm_ret _ _ (λ _, True)); exact I | apply calm_ret]
  | |- calm _ (throw _) _ => apply calm_throw
  | |- calm _ (let '(_, _) := ?x in _) _ => destruct x
  | |- calm _ (match ?x with _ => _ end) _ => destruct x
  end.

Create HintDb steady.
Create HintDb calm.
#[export] Hint Resolve cr_update cr_triples cr_ask cr_select cr_blob_put cr_blob_get cr_blob_delete : steady.
Ltac steadily := repeat (cbv zeta; first [done | steady_step | eauto with steady]).

(** * Pure code *)
Lemma obind_no_panic {E A B} (m : outcome E A) (k : A → outcome E B) :
  m ≠ Panicked → (∀ a, k a ≠ Panicked) → obind m k ≠ Panicked.
Proof. destruct m; simpl; auto. Qed.

Lemma omap_err_no_panic {E F A} (f : E → F) (m : outcome E A) : m ≠ Panicked → omap_err f m ≠ Panicked.
Proof. by destruct m. Qed.

Lemma ok_or_no_panic {E A} (e : E) (o : option A) : ok_or e o ≠ Panicked.
Proof. by destruct o. Qed.

Lemma node_no_panic `{IriSyntax} iri : node iri ≠ Panicked.
Proof. unfold node. by destruct (iri_valid iri). Qed.

Lemma decide_from_no_panic g start m : decide_from g start m ≠ Panicked.
Proof. unfold decide_from. destruct (nearest_acl _ _ _) as [[[e ts] inh]|]; [|done]. by case_match. Qed.

Lemma authorize_no_panic g m : authorize g m ≠ Panicked.
Proof. apply decide_from_no_panic. Qed.

Lemma plan_loop_no_panic g i anc child rc cs pl : plan_loop g i anc child rc cs pl ≠ Panicked.
Proof.
  revert i child rc cs pl. induction anc as [|c anc IH]; intros; simpl; [done|]. destruct (_ && _); [done|].
  apply obind_no_panic; [apply decide_from_no_panic|]. intros _. case_bool_decide; [done|apply IH].
Qed.

Lemma materialize_plan_no_panic g : materialize_plan g ≠ Panicked.
Proof.
  unfold materialize_plan. apply obind_no_panic; [apply plan_loop_no_panic|]. intros [cs pl].
  by repeat case_match.
Qed.

Lemma delete_ops_no_panic `{IriSyntax} reg s : delete_subject_ops reg s ≠ Panicked.
Proof.
  unfold delete_subject_ops. destruct (parent s) as [p|]; [|done]. apply obind_no_panic; [|done].
  apply obind_no_panic; [apply node_no_panic|done].
Qed.

Lemma authorize_aux_no_panic g k : authorize_aux g k ≠ Panicked.
Proof. unfold authorize_aux. destruct (negb _); [done|]. apply obind_no_panic; [apply decide_from_no_panic|done]. Qed.

Lemma authorize_parent_no_panic g m : authorize_parent g m ≠ Panicked.
Proof. unfold authorize_parent. case_match; [done|]. apply obind_no_panic; [apply decide_from_no_panic|done]. Qed.

Lemma deletable_no_panic g s ks : deletable_auxes g s ks ≠ Panicked.
Proof.
  induction ks as [|k ks IH]; simpl; [done|]. apply obind_no_panic; [apply authorize_aux_no_panic|]. intros d.
  by apply obind_no_panic.
Qed.

Section pure.
Context `{IriSyntax} `{HeaderSyntax} `{HeaderText} `{Display} `{RdfLib} `{N3Lib} `{TermDisplay} `{ShaclEngine}.

Lemma parse_no_panic f bytes iri v : parse f bytes iri v ≠ Panicked.
Proof. unfold parse. by repeat case_match. Qed.

Lemma serialize_no_panic f d : serialize f d ≠ Panicked.
Proof. unfold serialize. by repeat case_match. Qed.

Lemma validate_no_panic t d : validate t d ≠ Panicked.
Proof.
  unfold validate. apply obind_no_panic; [apply omap_err_no_panic, serialize_no_panic|]. intros data. case_match; [|done..].
  apply obind_no_panic; [apply omap_err_no_panic, parse_no_panic|done].
Qed.

(** A body of bytes is one for a resource. *)
Lemma classify_body_spec headers body t v :
  match classify_body headers body t v with
  | Ok (ReprBlob _ _) => ∃ r, t = TResource r
  | Panicked => False
  | _ => True
  end.
Proof.
  unfold classify_body. pose proof (λ f d, parse_no_panic f body (graph_iri t) d) as Hp.
  repeat case_match; try done; simplify_eq; eauto; by eapply Hp.
Qed.

Lemma classify_body_no_panic headers body t v : classify_body headers body t v ≠ Panicked.
Proof. pose proof (classify_body_spec headers body t v) as Hs. intros E. by rewrite E in Hs. Qed.

(** *** [patch.rs] *)
Lemma patch_term_no_panic t names b : patch_term t names b ≠ Panicked.
Proof. unfold patch_term. destruct t, b; repeat case_match; done. Qed.

Lemma non_literal_no_panic t msg : non_literal t msg ≠ Panicked.
Proof. by destruct t. Qed.

Lemma patterns_no_panic quads f names b : patterns quads f names b ≠ Panicked.
Proof.
  destruct f as [f|]; [|done]. simpl. revert names. induction quads as [|q quads IH]; intros names; simpl; [done|].
  destruct (negb _); [apply IH|]. apply obind_no_panic.
  - unfold patch_pattern. repeat (first [apply patch_term_no_panic | apply non_literal_no_panic | done |
      apply obind_no_panic; [|intros ?] | case_match]).
  - intros [p names']. apply obind_no_panic; [apply IH|by intros []].
Qed.

Lemma formula_no_panic quads s p : formula quads s p ≠ Panicked.
Proof. unfold formula. cbv zeta. by repeat case_match. Qed.

Lemma patch_subject_no_panic quads : patch_subject quads ≠ Panicked.
Proof. unfold patch_subject. cbv zeta. by repeat case_match. Qed.

Lemma parse_patch_no_panic body base : parse_patch body base ≠ Panicked.
Proof.
  unfold parse_patch. destruct (n3_parse base body) as [e|quads]; [done|]. unfold patch_of_quads.
  repeat (first [apply patch_subject_no_panic | apply formula_no_panic | apply patterns_no_panic | done |
    apply obind_no_panic; [|intros ?] | case_match]).
Qed.

Lemma patch_body_no_panic headers body t : patch_body headers body t ≠ Panicked.
Proof.
  unfold patch_body. pose proof (parse_patch_no_panic body (graph_iri t)) as Hp.
  cbv zeta. case_bool_decide; [by case_bool_decide|]. destruct (negb _); [done|].
  by destruct (parse_patch body (graph_iri t)) as [p|[]|].
Qed.

(** *** [space.rs] *)
Context (sp : StorageSpace) (Hsp : space_wf sp).

Lemma resource_no_panic p : starts_with "/" p = true → resource sp p ≠ Panicked.
Proof. intros (t & ->)%starts_with_slash. unfold resource. rewrite strip_prefix_app. by case_match. Qed.

Lemma resolve_no_panic p : resolve sp p ≠ Panicked.
Proof.
  unfold resolve. destruct (starts_with "/" p) eqn:Hr; cbn [negb]; [|done]. destruct (negb _); [done|].
  case_bool_decide; [done|]. destruct (segment_remainder p AUX_SEGMENT) as [rest|] eqn:Ea.
  - apply segment_remainder_Some in Ea as [_ Hrest]. destruct (split_suffix rest) as [[k s]|] eqn:Es; [|done].
    apply split_suffix_Some in Es as ->. case_bool_decide; [done|]. destruct (negb _); [done|].
    apply obind_no_panic; [|intros r; by case_match]. apply resource_no_panic, starts_with_slash.
    destruct Hrest as [E|[t E]]; [by destruct s, k|]. destruct s as [|a s]; [by destruct k|].
    rewrite app_cons_s in E. injection E as -> _. by exists s.
  - apply obind_no_panic; [by apply resource_no_panic|]. intros r. by case_match.
Qed.

Lemma classify_no_panic p : classify sp p ≠ Panicked.
Proof. unfold classify. apply omap_err_no_panic, resolve_no_panic. Qed.

Lemma root_there : is_Some (root sp).
Proof.
  unfold root, resolve. assert (iri_valid (base sp +:+ "") = true) as Hv.
  { rewrite app_nil_r_s. unfold space_wf, new_space in Hsp. destruct (negb (starts_with _ _ || _)); [done|].
    destruct (negb (ends_with "/" _)); [done|]. by destruct (iri_valid (base sp)). }
  cbn. unfold resource. cbn. by rewrite Hv.
Qed.

Lemma binding_no_panic iri : binding_resource sp iri ≠ Panicked.
Proof.
  unfold binding_resource. destruct root_there as [r ->]. destruct (strip_prefix _ _) as [rest|]; [|done].
  case_match; [|done]. pose proof (resolve_no_panic rest). by repeat case_match.
Qed.

Lemma binding_iris_no_panic iri ts : binding_iris iri ts ≠ Panicked.
Proof. induction ts as [|t ts IH]; simpl; [done|]. case_match; [|done..]. by apply obind_no_panic. Qed.

Lemma one_binding_no_panic iri bs : one_binding iri bs ≠ Panicked.
Proof. by destruct bs as [|b [|]]. Qed.
End pure.

#[export] Hint Resolve obind_no_panic omap_err_no_panic ok_or_no_panic node_no_panic decide_from_no_panic
  authorize_no_panic materialize_plan_no_panic delete_ops_no_panic authorize_aux_no_panic
  authorize_parent_no_panic deletable_no_panic parse_no_panic serialize_no_panic validate_no_panic
  classify_body_no_panic patch_body_no_panic binding_iris_no_panic one_binding_no_panic
  substitute_no_panic : steady.

(** * Code without a panic *)
Section steady_code.
Context `{IriSyntax} `{HeaderSyntax} `{HeaderText} `{BlankSyntax} `{Hashing} `{ObjectPath} `{Display}
  `{TermDisplay} `{RdfLib} `{ShaclEngine} `{N3Lib}.
Context {W : Type} `{CallsReturn W} `{EventBus W}.

Lemma steady_exists iri : steady (exists_ iri).
Proof. unfold exists_, store_op. steadily. Qed.

Lemma steady_exists_many iris : steady (exists_many iris).
Proof. unfold exists_many, store_op. steadily. Qed.

Lemma steady_registered r : steady (registered_shelves r).
Proof. unfold registered_shelves, store_op. steadily. Qed.

Lemma steady_stored_media_type r : steady (stored_media_type r).
Proof. unfold stored_media_type, store_op. steadily. Qed.
#[local] Hint Resolve steady_exists steady_exists_many steady_registered steady_stored_media_type : steady.

Lemma steady_kind_of r : steady (kind_of r).
Proof. unfold kind_of, store_op. steadily. Qed.

Lemma steady_get_rdf iri : steady (get_rdf iri).
Proof. unfold get_rdf, store_op. steadily. Qed.

Lemma steady_drop_blob r : steady (drop_blob r).
Proof. unfold drop_blob, blob_op. steadily. Qed.
#[local] Hint Resolve steady_drop_blob : steady.

Lemma steady_put_dataset r d f : steady (put_dataset r d f).
Proof.
  unfold put_dataset, store_op. destruct (split_dataset r d) as [dg shs]. steadily.
  apply steady_for_each. intros x _. steadily.
Qed.

Lemma steady_put_blob r bytes mt : steady (put_blob r bytes mt).
Proof. unfold put_blob, store_op, blob_op. steadily. Qed.

Lemma steady_patch iri p guard : steady (patch_guarded iri p guard).
Proof. unfold patch_guarded, patch_apply, store_op. steadily. Qed.

Lemma steady_put_rdf uuid iri ts : steady (put_rdf uuid iri ts).
Proof. unfold put_rdf, store_op. steadily. Qed.

Lemma steady_delete_rdf iri : steady (delete_rdf iri).
Proof. unfold delete_rdf, store_op. steadily. Qed.

Lemma steady_ensure_container c : steady (ensure_container c).
Proof. unfold ensure_container, insert_marked, store_op. steadily. Qed.

Lemma steady_add_containment c i : steady (add_containment c i).
Proof. unfold add_containment, insert_marked, store_op. steadily. Qed.

Lemma steady_container_is_empty c : steady (container_is_empty c).
Proof. unfold container_is_empty, store_op. steadily. Qed.
#[local] Hint Resolve steady_patch steady_ensure_container steady_add_containment : steady.

Lemma steady_aux_put uuid a ts : steady (aux_put uuid a ts).
Proof. unfold aux_put, aux_op, store_op. steadily. Qed.

Lemma steady_aux_patch a p : steady (aux_patch a p).
Proof. unfold aux_patch, aux_op. steadily. Qed.

Lemma steady_delete_subject s : steady (delete_subject s).
Proof. unfold delete_subject, store_op. steadily. Qed.

Lemma steady_probe agent t : steady (probe agent t).
Proof. unfold probe, denial_op, load_chain_acls, store_op. steadily. Qed.

Lemma steady_materialize g : steady (materialize g).
Proof.
  unfold materialize. steady_step; [steadily|]. destruct a as [cs pl]. steady_step; [|steadily].
  generalize ([] : list (ContainerUrl * string)). induction pl as [|[c child] pl IH]; intros ls; simpl; [steadily|].
  unfold denial_op. steadily.
Qed.
End steady_code.

#[export] Hint Resolve steady_exists steady_exists_many steady_registered steady_stored_media_type steady_kind_of
  steady_get_rdf steady_put_dataset steady_put_blob steady_patch steady_put_rdf steady_delete_rdf
  steady_ensure_container steady_add_containment steady_container_is_empty steady_aux_put steady_aux_patch
  steady_delete_subject steady_probe steady_materialize : steady.

(** * Code that reads the store back *)
Section calm_code.
Context `{IriSyntax} `{HeaderSyntax} `{HeaderText} `{BlankSyntax} `{Hashing} `{ObjectPath} `{Display}
  `{TermDisplay} `{RdfLib} `{ShaclEngine} `{N3Lib}.
Context (sp : StorageSpace) (Hsp : space_wf sp).
Context {W : Type} `{SharedLaws W (pod_step sp)} `{!CallsReturn W}.

Notation reached := (reached sp).
Notation serene m := (calm reached m (λ _, True)).

#[local] Instance calm_reads : ReadsKeep reached := reads_reached sp.
#[local] Hint Resolve calm_reads stays_on_bus stays_blob_put stays_blob_delete stays_put_dataset stays_put_blob
  stays_put_rdf stays_ensure_container stays_materialize stays_aux_put stays_aux_delete stays_delete_subject : keeps.

(** ** Leaves *)
Lemma calm_leaf {E A} (m : M W E A) : steady m → keeps reached m (λ _, True) → serene m.
Proof. apply calm_steady. Qed.

Ltac leaf := apply calm_leaf; [by steadily|by follow].

Lemma reached_stored w : reached w → stored (shared w).
Proof. apply reachable_stored. Qed.

Lemma calm_triples q : calm reached (query_triples q) (Forall storable).
Proof.
  apply calm_steady; [apply cr_triples|]. intros w Hr. destruct (sh_triples q w) as [Hs Ha].
  pose proof (reached_rtc sp _ _ Hs Hr) as Hr'. split; [done|]. intros ts Ets. apply Forall_forall. intros t Ht.
  apply (Ha ts Ets) in Ht. pose proof (reached_stored _ Hr') as Hst. destruct q as [g|g s p].
  - by apply (Hst (g, t)).
  - destruct Ht as [Ht _]. by apply (Hst (g, t)).
Qed.

Lemma calm_get_rdf iri : calm reached (get_rdf iri) (λ o, ∀ ts, o = Some ts → Forall storable ts).
Proof.
  unfold get_rdf, store_op. eapply calm_bind; [by leaf|]. intros e _. destruct (negb e); [by apply calm_ret|].
  eapply calm_bind; [apply calm_map_err, calm_triples|]. intros ts Hts. apply calm_ret. by intros ? [= <-].
Qed.

Lemma calm_read_shelf sys k : calm reached (read_shelf sys k) (λ qs, is_Some (from_store qs)).
Proof.
  unfold read_shelf, store_op. eapply calm_bind; [by leaf|]. intros names _.
  destruct (find_map _ names) as [n|]; [|apply calm_throw].
  eapply calm_bind; [apply calm_map_err, calm_triples|]. intros ts Hts. by apply calm_ret, from_store_named.
Qed.

Lemma calm_read_shelves sys ks qs : is_Some (from_store qs) →
  calm reached (read_shelves sys ks qs) (λ qs, is_Some (from_store qs)).
Proof.
  revert qs. induction ks as [|k ks IH]; intros qs Hqs; simpl; [by apply calm_ret|].
  eapply calm_bind; [apply calm_read_shelf|]. intros more Hm. by apply IH, from_store_app.
Qed.

Lemma calm_get_dataset r : serene (get_dataset r).
Proof.
  unfold get_dataset, store_op. cbv zeta. eapply calm_bind; [by leaf|]. intros e _. destruct (negb e); [by apply calm_ret|].
  eapply calm_bind; [apply calm_map_err, calm_triples|]. intros ts Hts. eapply calm_bind; [by leaf|]. intros ks _.
  eapply calm_bind; [by apply calm_read_shelves, from_store_default|]. intros qs [d ->]. by apply calm_ret.
Qed.

Lemma ground_storable ts : Forall storable ts → is_Some (ground_dataset ts).
Proof. apply from_store_default. Qed.

(** The triples of a graph, as the dataset they are. *)
Lemma calm_ground {E B} (o : option (list triple)) (none : M W E B) (k : Skolemized → M W E B) :
  (∀ ts, o = Some ts → Forall storable ts) → serene none → (∀ d, serene (k d)) →
  serene (match o with
          | None => none
          | Some ts => match ground_dataset ts with Some d => k d | None => panic end
          end).
Proof. intros Ho Hn Hk. destruct o as [ts|]; [|done]. destruct (ground_storable ts (Ho ts eq_refl)) as [d ->]. apply Hk. Qed.

Lemma calm_load_shape c : serene (load_shape sp c).
Proof.
  unfold load_shape, shape_op, store_op. cbv zeta. eapply calm_bind; [by leaf|]. intros ts _.
  eapply calm_bind; [by leaf|]. intros bs _. eapply calm_bind; [by leaf|]. intros [iri|] _; [|by apply calm_ret].
  eapply calm_bind; [by apply (calm_lift _ _ (λ _, True)); [apply binding_no_panic|]|]. intros r _.
  unfold load_document, shape_op. eapply calm_bind; [by leaf|]. intros [[|mt]|] _; [|apply calm_throw..].
  eapply calm_bind; [apply calm_map_err, calm_get_rdf|]. intros found Hf.
  eapply calm_bind; [by apply (calm_lift _ _ (λ ts, found = Some ts)); [apply ok_or_no_panic|intros ts' ?%ok_or_Ok]|].
  intros ts' E. destruct (mentions_shacl_sparql ts'); [apply calm_throw|].
  unfold as_quads. destruct (from_store_default ts' (Hf ts' E)) as [g ->]. by leaf.
Qed.

Lemma calm_current_tags t : serene (current_tags t).
Proof.
  unfold current_tags. destruct t as [r|c|a].
  - eapply calm_bind; [by leaf|]. intros [[|mt]|] _; try (eapply calm_bind; [apply calm_get_dataset|]; intros; by apply calm_ret).
    unfold blob_op. leaf.
  - eapply calm_bind; [apply calm_get_rdf|]. intros o Ho. apply calm_ground; [done|by apply calm_ret|]. intros d. by apply calm_ret.
  - eapply calm_bind; [apply calm_get_rdf|]. intros o Ho. apply calm_ground; [done|by apply calm_ret|]. intros d. by apply calm_ret.
Qed.

Lemma calm_ok_flatten {E F A} (m : M W F (option A)) (Q : option A → Prop) : Q None →
  calm reached m Q → calm reached (ok_flatten m : M W E (option A)) Q.
Proof.
  intros Hn Hm. unfold ok_flatten. eapply calm_bind; [apply calm_attempt, Hm|]. intros [e|o] Ho; apply calm_ret; [exact Hn|].
  by apply (Ho o).
Qed.

Lemma calm_state_of_graph {E} t : serene (state_of_graph t : M W E (option string)).
Proof.
  unfold state_of_graph. eapply calm_bind; [by apply (calm_ok_flatten _ _); [|apply calm_get_rdf]|].
  intros o Ho. apply calm_ground; [done|by apply calm_ret|]. intros d. by apply calm_ret.
Qed.

Lemma calm_state_of {E} t : serene (state_of t : M W E (option string)).
Proof.
  unfold state_of. destruct t as [r|c|a]; [|apply calm_state_of_graph..].
  eapply calm_bind; [by apply calm_attempt; leaf|]. intros k _.
  assert (serene (let! stored := ok_flatten (get_dataset r) in ret (etag_of <$> stored) : M W E (option string))) as Hd.
  { eapply calm_bind; [apply (calm_ok_flatten _ (λ _, True)); [done|apply calm_get_dataset]|]. intros. by apply calm_ret. }
  destruct k as [e|[[|mt]|]]; [by apply calm_ret|exact Hd| |exact Hd].
  destruct (blob_key_of r) as [key|]; [|by apply calm_ret]. unfold ok_flatten. leaf.
Qed.
#[local] Hint Resolve calm_get_dataset calm_load_shape calm_current_tags calm_state_of : calm.

(** Follow the program: what reads the store back by its lemma, what cannot
    panic by its structure. *)
Ltac calmly_step := first [done | calm_step | solve [eauto with calm] | solve [leaf]].
Ltac calmly := repeat (cbv zeta; calmly_step).

(** ** Events *)
Lemma calm_publish_own {E} t a : serene (publish_own t a : M W E unit).
Proof. unfold publish_own, is_live, publish. calmly. Qed.

Lemma calm_publish_link {E} a c i : serene (publish_link a c i : M W E unit).
Proof. unfold publish_link, is_live, publish. calmly. Qed.
#[local] Hint Resolve calm_publish_own calm_publish_link : calm.

Lemma calm_publish_containment {E} i m : serene (publish_containment i m : M W E unit).
Proof. unfold publish_containment. calm_step; apply calm_for_each; intros; calmly. Qed.
#[local] Hint Resolve calm_publish_containment : calm.

Lemma calm_emit_put {E} t e m n : serene (emit_put t e m n : M W E unit).
Proof. unfold emit_put. calmly. Qed.

Lemma calm_emit_post {E} t m n : serene (emit_post t m n : M W E unit).
Proof. unfold emit_post. calmly. Qed.

Lemma calm_emit_patch {E} t e m n : serene (emit_patch t e m n : M W E unit).
Proof. unfold emit_patch. calmly. Qed.

Lemma calm_emit_delete {E} t l n : serene (emit_delete t l n : M W E unit).
Proof.
  unfold emit_delete. destruct (negb _); [calmly|]. calm_step; [calmly|].
  calm_step; [apply calm_for_each; intros; calmly|]. calmly.
Qed.
#[local] Hint Resolve calm_emit_put calm_emit_post calm_emit_patch calm_emit_delete : calm.

(** ** The checks *)
Lemma calm_put_version_check t v : serene (put_version_check t v).
Proof. unfold put_version_check. calmly. Qed.

Lemma calm_put_graph_check t f : serene (put_graph_check t f).
Proof. unfold put_graph_check. calmly. Qed.

Lemma calm_check_conditionals h t : serene (check_conditionals h t).
Proof. unfold check_conditionals. calmly. Qed.

Lemma calm_enforce_shape t d : serene (enforce_shape sp t d).
Proof. unfold enforce_shape. calmly. Qed.

Lemma calm_patch_shape_conflict t : serene (patch_shape_conflict sp t).
Proof. unfold patch_shape_conflict. calmly. Qed.
#[local] Hint Resolve calm_put_version_check calm_put_graph_check calm_check_conditionals calm_enforce_shape
  calm_patch_shape_conflict : calm.

(** ** The write handlers *)
Lemma calm_guarded {F B} agent t (f : Denial → F) (k : Guard → M W F B) (Q : B → Prop) :
  (∀ g, probed t g → calm reached (k g) Q) → calm reached (bind (map_err f (probe agent t)) k) Q.
Proof.
  intros Hk. eapply calm_bind; [|exact Hk]. apply calm_map_err, calm_steady; [apply steady_probe|].
  by apply (keeps_probe reached).
Qed.

Lemma warn_there a ts res : is_Some (warn_if_acl_grants_nothing sp a ts res).
Proof.
  unfold warn_if_acl_grants_nothing. destruct (negb _); [done|]. case_match; [done|].
  by destruct (root_there sp Hsp) as [r ->].
Qed.

Lemma calm_put_store uuid t d sk f : valid sp t → serene (put_store sp uuid t d sk f).
Proof.
  intros [Hp Ha]. destruct t as [r|c|a]; cbn in Hp; unfold put_store; [calmly| |].
  - unfold put_store_container. calmly.
  - unfold put_store_aux. cbv zeta. rewrite Ha at 1. calm_step; [apply calm_attempt; leaf|].
    destruct (warn_there a (triples_of (default_graph_only d)) (created_response (TAux a))) as [res ->]. calmly.
Qed.
#[local] Hint Resolve calm_put_store : calm.

Lemma calm_materialize t g : plain sp (subject_of t) → probed t g → serene (materialize g).
Proof. intros Ht Hg. apply calm_leaf; [apply steady_materialize|]. by apply (stays_materialize sp t). Qed.

Lemma calm_put_write uuid agent t h body : valid sp t → serene (put_write sp uuid agent t h body).
Proof.
  intros Hv. pose proof Hv as [Hp _]. unfold put_write. apply calm_guarded. intros g Hg.
  pose proof (calm_materialize t g Hp Hg) as Hm. calm_step; [calmly|]. cbv zeta.
  pose proof (classify_body_spec h body t store_rdf_version) as Hc.
  destruct (classify_body h body t store_rdf_version) as [repr|res|]; [|by apply calm_lift|done].
  eapply (calm_bind _ _ _ (λ x, x = repr)); [by apply calm_lift; [|intros x [= ->]]|]. intros x ->.
  destruct repr as [d f v|bytes mt].
  - unfold put_write_rdf. calmly.
  - destruct Hc as [r ->]. cbn in Hp. unfold put_write_blob. calmly.
Qed.

Lemma calm_post_child agent c h u1 u2 :
  calm reached (post_child sp agent c h u1 u2) (λ x, valid sp x.1 ∧ probed x.1 x.2).
Proof.
  assert (∀ p {F} (f : nat → F), calm reached (map_err f (lift (classify sp p))) (valid sp)) as Hcl.
  { intros p F f. apply calm_map_err, calm_lift; [by apply classify_no_panic|]. intros t. by apply classify_valid. }
  unfold post_child. cbv zeta. eapply calm_bind; [apply Hcl|]. intros child Hc. apply calm_guarded. intros g Hg.
  destruct (negb (is_taken g)); [by apply calm_ret|]. eapply calm_bind; [apply Hcl|]. intros child' Hc'.
  apply calm_guarded. intros g' Hg'. by apply calm_ret.
Qed.

Definition repr_fits (t : Target) (repr : Repr) : Prop :=
  match repr with ReprBlob _ _ => ∃ r, t = TResource r | _ => True end.

Lemma calm_post_checks t repr : repr_fits t repr → serene (post_checks sp t repr).
Proof. intros Hf. unfold post_checks. destruct repr as [d f v|bytes mt]; [calmly|]. destruct Hf as [r ->]. calmly. Qed.

Lemma calm_post_store uuid t repr : valid sp t → repr_fits t repr → serene (post_store uuid t repr).
Proof.
  intros [Hp _] Hf. unfold post_store. destruct t as [r|c|a]; cbn in Hp; [calmly| |calmly].
  destruct repr as [d f v|bytes mt]; [|by destruct Hf]. calmly.
Qed.

Lemma calm_post_write uuid agent t h body u1 u2 : valid sp t → serene (post_write sp uuid agent t h body u1 u2).
Proof.
  intros Hv. unfold post_write. cbv zeta. apply calm_guarded. intros pg Hpg. calm_step; [calmly|].
  destruct t as [r|c|a']; [calmly| |calmly]. eapply calm_bind; [apply calm_map_err, calm_post_child|].
  intros [child g] [Hc Hg]. cbn [fst snd] in Hc, Hg. pose proof Hc as [Hp _].
  pose proof (classify_body_spec h body child store_rdf_version) as Hb.
  eapply (calm_bind _ _ _ (repr_fits child)).
  { apply calm_lift; [by apply omap_err_no_panic, classify_body_no_panic|]. intros repr.
    destruct (classify_body h body child store_rdf_version) as [repr'|res|]; [|done..]. intros [= ->]. by destruct repr. }
  pose proof (calm_materialize child g Hp Hg) as Hm.
  intros repr Hf. eapply calm_bind; [by apply calm_map_err, calm_post_checks|]. intros findings _.
  calm_step; [calmly|]. eapply calm_bind; [by apply calm_map_err, calm_post_store|]. calmly.
Qed.

Lemma calm_patch_dataset r p : plain sp r → serene (patch_dataset r p).
Proof. intros Hr. apply calm_leaf; [apply steady_patch|]. apply stays_patch. intros. by constructor. Qed.

Lemma calm_aux_patch s k p : plain sp s → serene (aux_patch (aux s k) p).
Proof. intros Hs. apply calm_leaf; [apply steady_aux_patch|]. by apply stays_aux_patch. Qed.
#[local] Hint Resolve calm_patch_dataset calm_aux_patch : calm.

Lemma calm_create_by_patch uuid g t p : valid sp t → probed t g → is_aux_target t = false →
  serene (create_by_patch uuid g t p).
Proof.
  intros [Hp _] Hg Ha. pose proof (calm_materialize t g Hp Hg) as Hm. unfold create_by_patch. destruct (ground_insertions p) as [ts|] eqn:E; [|calmly].
  destruct (negb _); [calmly|]. calm_step; [calmly|]. calm_step; [|calmly].
  destruct t as [r|c|a']; cbn in Hp; [|calmly|done].
  destruct (ground_storable ts (ground_insertions_storable _ _ E)) as [d ->]. calmly.
Qed.

Lemma calm_patch_write uuid agent t h body : valid sp t → serene (patch_write sp uuid agent t h body).
Proof.
  intros Hv. pose proof Hv as [Hp Ha]. unfold patch_write. apply calm_guarded. intros g Hg.
  calm_step; [calmly|]. calm_step; [calmly|]. destruct (_ && _); [calmly|].
  calm_step; [unfold patch_checks; calmly|]. destruct t as [r|c|a']; cbn in Hp, Ha; cbv zeta; cbn [subject_of].
  - pose proof (calm_create_by_patch uuid g (TResource r) a0 Hv Hg eq_refl). unfold patch_existing. calmly.
  - pose proof (calm_create_by_patch uuid g (TContainer c) a0 Hv Hg eq_refl). unfold patch_existing. calmly.
  - unfold patch_aux_response. rewrite Ha at 1. calmly.
Qed.

Lemma calm_delete_write agent t : valid sp t → serene (delete_write agent t).
Proof.
  intros [Hp Ha]. unfold delete_write. apply calm_guarded. intros g Hg. calm_step; [calmly|].
  destruct t as [r|c|a']; cbn in Hp, Ha.
  - unfold delete_subject_write. calmly.
  - unfold delete_subject_write. calmly.
  - rewrite Ha. calmly.
Qed.

(** ** The read handlers *)
Lemma dataset_response_no_panic r dec h d st : dataset_response r dec h d st ≠ Panicked.
Proof.
  unfold dataset_response. cbv zeta. destruct (negotiate _ _ _) as [[fmt v]|]; [|done]. case_bool_decide; [done|].
  set (d' := if carries_dataset fmt then _ else _). destruct (project_to_spec d' (version_min v (rdf_version (deskolemize d)))) as (served & -> & _).
  pose proof (serialize_no_panic fmt served). by destruct (serialize fmt served).
Qed.

Lemma calm_get_resource r dec h : serene (get_resource r dec h).
Proof.
  unfold get_resource. cbv zeta. calm_step; [calmly|]. destruct a as [[|mt]|]; [| |calmly].
  - calm_step; [calmly|]. destruct a as [d|]; [|calmly].
    calm_step; [apply (calm_ok_flatten _ (λ _, True)); [done|leaf]|]. by apply calm_lift; [apply dataset_response_no_panic|].
  - unfold blob_read. calmly.
Qed.

Lemma calm_graph_read dec t h : serene (legacy_graph_read dec t h).
Proof.
  unfold legacy_graph_read. destruct (negotiate _ _ _) as [[fmt v]|]; [|calmly].
  eapply calm_bind; [apply calm_map_err, calm_get_rdf|]. intros o Ho. apply calm_ground; [done|calmly|]. intros d. cbv zeta.
  case_bool_decide; [calmly|]. destruct (project_to_spec (deskolemize d) (version_min v (rdf_version (deskolemize d)))) as (served & -> & _).
  pose proof (serialize_no_panic fmt served). destruct (serialize fmt served); [calmly..|done].
Qed.

Lemma calm_validated_dataset t : is_aux_target t = false → serene (validated_dataset t).
Proof.
  intros Ha. unfold validated_dataset. destruct t as [r|c|a]; [| |done].
  - calm_step; [apply calm_attempt; leaf|]. calmly.
  - eapply calm_bind; [apply calm_map_err, calm_get_rdf|]. intros [ts|] Ho; [|calmly].
    destruct (ground_storable (without_server_managed ts (graph_iri c))) as [d ->]; [|calmly].
    specialize (Ho ts eq_refl). rewrite Forall_forall in Ho |- *. intros t Ht. apply Ho. by apply list_elem_of_filter in Ht as [_ ?].
Qed.

Lemma calm_validate_body agent t h : serene (validate_body sp agent t h).
Proof.
  unfold validate_body. apply calm_guarded. intros g Hg. calm_step; [calmly|].
  destruct (shape_container t) as [c|] eqn:Ec; [|calmly]. calm_step; [calmly|]. destruct a0 as [s|]; [|calmly].
  calm_step; [apply calm_validated_dataset; by destruct t|]. calm_step; [calmly|].
  destruct (negotiate _ _ _) as [[fmt v]|]; [|calmly]. pose proof (serialize_no_panic fmt (into_dataset a1)).
  destruct (serialize fmt _); [calmly..|done].
Qed.

(** ** The handlers

    None fails: its error type is empty. *)
Definition answers_calmly (m : M W Empty_set Response) : Prop :=
  ∀ w, reached w → ∃ res w', m w = (Ok res, w') ∧ reached w'.

Lemma calm_answers (m : M W Empty_set Response) : serene m → answers_calmly m.
Proof.
  intros [Hk Hn] w Hw. specialize (Hn w Hw). destruct (Hk w Hw) as [Hw' _]. destruct (m w) as [[res|[]|] w']; [|done].
  by exists res, w'.
Qed.

Lemma calm_get_impl {E} agent t h : serene (get_impl agent t h : M W E Response).
Proof.
  unfold get_impl, get_write. eapply calm_returned, calm_guarded. intros g Hg. calm_step; [calmly|].
  destruct t; [apply calm_get_resource|apply calm_graph_read..].
Qed.

Lemma calm_handle_get {E} agent path query h : serene (handle_get sp agent path query h : M W E Response).
Proof.
  unfold handle_get. pose proof (classify_no_panic sp ("/" +:+ path)). destruct (classify sp _) as [t|n|]; [|calmly|done].
  destruct (wants_validation query); [|apply calm_get_impl]. unfold validate_view. eapply calm_returned, calm_validate_body.
Qed.

Lemma calm_classified {E} path (handler : Target → M W E Response) :
  (∀ t, valid sp t → serene (handler t)) → serene (classified sp path handler).
Proof.
  intros Hh. unfold classified. pose proof (classify_no_panic sp ("/" +:+ path)).
  destruct (classify sp _) as [t|n|] eqn:E'; [|calmly|done]. by apply Hh, (classify_valid sp Hsp _ _ E').
Qed.

Lemma calm_handle_put {E} uuid agent path h body : serene (handle_put sp uuid agent path h body : M W E Response).
Proof. apply calm_classified. intros t Ht. unfold put_impl. calm_step; [by eapply calm_returned, calm_put_write|]. calmly. Qed.

Lemma calm_handle_post {E} uuid agent path h body u1 u2 :
  serene (handle_post sp uuid agent path h body u1 u2 : M W E Response).
Proof. apply calm_classified. intros t Ht. unfold post_impl. calm_step; [by eapply calm_returned, calm_post_write|]. calmly. Qed.

Lemma calm_handle_patch {E} uuid agent path h body : serene (handle_patch sp uuid agent path h body : M W E Response).
Proof. apply calm_classified. intros t Ht. unfold patch_impl. calm_step; [by apply calm_attempt, calm_patch_write|]. calmly. Qed.

Lemma calm_handle_delete {E} agent path : serene (handle_delete sp agent path : M W E Response).
Proof. apply calm_classified. intros t Ht. unfold delete_impl. calm_step; [by apply calm_attempt, calm_delete_write|]. calmly. Qed.

Lemma calm_handle_options {E} path h : serene (handle_options sp path h : M W E Response).
Proof.
  unfold handle_options. pose proof (classify_no_panic sp ("/" +:+ path)).
  destruct (classify sp _) as [t|n|]; [calmly..|done].
Qed.
End calm_code.
