(* ===== verification/Edge.v ===== *)
(** What a request does at the edge: who is refused, what a refusal leaves,
    and what preconditions guard. *)
From S2P Require Import Prelude Str Terms Space Rdf Dataset Patch Store Mem Resource Container.
From S2P Require Import Auxiliary Pdp Guard Shapes Notify Http HttpWrite HttpRead Reads Toy Steps.
Open Scope list_scope.

Section edge.
Context `{IriSyntax} `{HeaderSyntax} `{HeaderText} `{BlankSyntax} `{Hashing} `{ObjectPath} `{Display}
  `{TermDisplay} `{RdfLib} `{ShaclEngine} `{N3Lib}.
Context (sp : StorageSpace) (Hsp : space_wf sp).
Context {W : Type} `{BackendLaws W} `{EventBus W} `{!BusLaws W}.

(** Neither store, nor the bus. *)
Definition untouched (w0 w : W) : Prop := same w0 w ∧ get_bus w = get_bus w0.

(** The bus alone. *)
Definition unheard (w0 w : W) : Prop := get_bus w = get_bus w0.

#[export] Instance reads_untouched w0 : ReadsKeep (untouched w0).
Proof.
  split; intros q w [Hs Hb]; split; try done; (split; [eapply same_trans; [exact Hs|]|]).
  - pose proof (query_triples_law q w). destruct (query_triples q w) as [[]]; unfold same; naive_solver.
  - by rewrite bus_triples.
  - pose proof (ask_law q w). destruct (ask q w) as [[]]; unfold same; naive_solver.
  - by rewrite bus_ask.
  - pose proof (query_solutions_law q w). destruct (query_solutions q w) as [[]]; unfold same; naive_solver.
  - by rewrite bus_select.
  - pose proof (blob_get_law q w). destruct (blob_get q w) as [[]]; unfold same; naive_solver.
  - by rewrite bus_blob_get.
Qed.

Lemma untouched_refl w : untouched w w.
Proof. by split. Qed.

(** ** Access *)

(** Access is granted: the nearest ACL permits the mode. *)
Definition may (G : gset located) (agent : Agent) (target : Target) (m : Mode) : Prop :=
  ∃ r inh, nearest G (chain_of (subject_of target)) r inh ∧
           permits (acl_states G r) agent (graph_iri r) inh (required target m).

Lemma authorize_may G g m :
  faithful G g → g_chain g = chain_of (subject_of (g_target g)) →
  match authorize g m with
  | Ok _ => may G (g_agent g) (g_target g) m
  | Err e => e = deny (g_agent g) ∧ ¬ may G (g_agent g) (g_target g) m
  | Panicked => False
  end.
Proof.
  intros Hf Hc. unfold authorize.
  assert (match g_target g with TAux a => required_mode_for_aux (a_kind a) | _ => m end = required (g_target g) m) as ->
    by (destruct (g_target g) as [| |a]; [done..|]; by destruct (a_kind a)).
  pose proof (decide_from_spec G g 0 (required (g_target g) m) Hf) as Hd. rewrite drop_0, Hc in Hd.
  destruct (decide_from g 0 _) as [d|e|]; [| |done].
  - destruct Hd as (r & inh & ? & ? & _). by exists r, inh.
  - destruct Hd as [-> Hn]. split; [done|]. intros (r & inh & Hr & Hp). by apply (Hn r inh).
Qed.

(** The beginning of every handler: the caller is granted the mode, or meets
    a refusal, or a failed probe. *)
Lemma wp_asked {F A} agent target m (f : Denial → F) (k : Guard → Decision → M W F A) w :
  url_in sp (subject_of target) →
  wp (let! g := map_err f (probe agent target) in let! d := map_err f (lift (authorize g m)) in k g d)
    (λ o w', (untouched w w' ∧ (o = Err (f (deny agent)) ∨ ∃ e, o = Err (f (StoreDenial e)))) ∨
             may (graphs w) agent target m) w.
Proof.
  intros Hin. pose proof (wp_probe sp agent target w Hin) as Hp.
  pose proof (keeps_probe (untouched w) agent target w (untouched_refl w)) as [Hu _].
  unfold wp, bind, map_err in *. destruct (probe agent target w) as [[g|[]|] w']; cbn in *; try done; [|by eauto].
  destruct Hp as (<- & <- & Hc & Hf & _). pose proof (authorize_may _ g m Hf Hc) as Ha.
  destruct (authorize g m) as [d|e|]; cbn; [by right| |done]. destruct Ha as [-> _]. auto.
Qed.

(** The same for a caller who is not granted it. *)
Lemma wp_refused {F A} agent target m (f : Denial → F) (k : Guard → Decision → M W F A) w :
  url_in sp (subject_of target) → ¬ may (graphs w) agent target m →
  wp (let! g := map_err f (probe agent target) in let! d := map_err f (lift (authorize g m)) in k g d)
    (λ o w', untouched w w' ∧ (o = Err (f (deny agent)) ∨ ∃ e, o = Err (f (StoreDenial e)))) w.
Proof. intros Hin Hno. eapply wp_wand; [by apply wp_asked|]. by intros o w' [Hr|Hr]. Qed.

Lemma status_aux_links r t : res_status (with_aux_links r t) = res_status r.
Proof. unfold with_aux_links. by destruct (aux_links t). Qed.

(** What a refused request is answered. *)
Definition refusals (agent : Agent) (target : Target) : list Response :=
  [with_aux_links (denial_response (deny agent)) target; with_aux_links internal_error target].

Lemma refusals_fail agent target r : r ∈ refusals agent target → is_success (res_status r) = false.
Proof.
  intros [->|[->|[]%elem_of_nil]%elem_of_cons]%elem_of_cons; rewrite status_aux_links; [|done].
  by destruct agent.
Qed.

(** Who asks for what: the mode a write request needs on its target. *)
Definition asks (q : action) : option (Agent * string * Mode) :=
  match q with
  | Start _ _ => None
  | Put agent path _ _ => Some (agent, path, Write)
  | Post agent path _ _ _ _ => Some (agent, path, Append)
  | PatchReq agent path _ _ => Some (agent, path, Append)
  | DeleteReq agent path => Some (agent, path, Write)
  end.

Lemma classified_target {E} path target (h : Target → M W E Response) :
  classify sp ("/" +:+ path) = Ok target → classified sp path h = h target.
Proof. unfold classified. by intros ->. Qed.

(** A refusal that leaves everything as it was, or a caller who may. *)
Definition refused_or_may {E} agent target m (w : W) (o : outcome E Response) (w' : W) : Prop :=
  (untouched w w' ∧ ∃ res, o = Ok res ∧ res ∈ refusals agent target) ∨ may (graphs w) agent target m.

Section asked.
Context {E : Type} (agent : Agent) (target : Target) (headers : Headers) (body : string) (w : W).
Hypothesis Hin : url_in sp (subject_of target).
Let f d := with_aux_links (denial_response d) target.

Lemma refusal_in o : o = deny agent ∨ (∃ e, o = StoreDenial e) → f o ∈ refusals agent target.
Proof. intros [->|[e ->]]; [by left|right; by left]. Qed.

Lemma asked_put uuid : wp (put_impl sp uuid agent target headers body) (refused_or_may (E:=E) agent target Write w) w.
Proof.
  unfold put_impl, put_write. apply wp_bind, wp_returned.
  eapply wp_wand; [by apply (wp_asked agent target Write (λ d, (f d, Absent, no_materialized)))|].
  intros o w' [[Hu Ho]|Hm].
  - assert (∃ d, o = Err (f d, Absent, no_materialized) ∧ f d ∈ refusals agent target) as (d & -> & Hd)
      by (destruct Ho as [->|[e ->]]; eexists; (split; [done|]); apply refusal_in; eauto).
    unfold emit_put. rewrite (refusals_fail _ _ _ Hd). left. cbn. eauto.
  - destruct o as [[[res ex] mat]|[[res ex] mat]|]; by right.
Qed.

Lemma asked_post uuid u1 u2 :
  wp (post_impl sp uuid agent target headers body u1 u2) (refused_or_may (E:=E) agent target Append w) w.
Proof.
  unfold post_impl, post_write. apply wp_bind, wp_returned.
  eapply wp_wand; [by apply (wp_asked agent target Append (λ d, (f d, None : option (Target * Materialized))))|].
  intros o w' [[Hu [->|[e ->]]]|Hm].
  - left. cbn. split; [done|]. eexists. split; [done|]. apply refusal_in. by left.
  - left. cbn. split; [done|]. eexists. split; [done|]. apply refusal_in. eauto.
  - destruct o as [[res x]|[res x]|]; by right.
Qed.

Lemma asked_patch uuid : wp (patch_impl sp uuid agent target headers body) (refused_or_may (E:=E) agent target Append w) w.
Proof.
  unfold patch_impl, patch_write. apply wp_bind, wp_attempt.
  eapply wp_wand; [by apply (wp_asked agent target Append f)|]. intros o w' [[Hu [->|[e ->]]]|Hm].
  - left. cbn. split; [done|]. eexists. split; [done|]. apply refusal_in. by left.
  - left. cbn. split; [done|]. eexists. split; [done|]. apply refusal_in. eauto.
  - destruct o as [x|x|]; by right.
Qed.

Lemma asked_delete : wp (delete_impl agent target) (refused_or_may (E:=E) agent target Write w) w.
Proof.
  unfold delete_impl, delete_write. apply wp_bind, wp_attempt.
  eapply wp_wand; [by apply (wp_asked agent target Write f)|]. intros o w' [[Hu [->|[e ->]]]|Hm].
  - left. cbn. split; [done|]. eexists. split; [done|]. apply refusal_in. by left.
  - left. cbn. split; [done|]. eexists. split; [done|]. apply refusal_in. eauto.
  - destruct o as [x|x|]; by right.
Qed.

Lemma asked_get query :
  wp (if wants_validation query then validate_view sp agent target headers else get_impl agent target headers)
    (refused_or_may (E:=E) agent target Read w) w.
Proof.
  assert (∀ k : Guard → Decision → M W Response Response,
    wp (returned (let! g := map_err f (probe agent target) in let! d := map_err f (lift (authorize g Read)) in k g d))
      (refused_or_may (E:=E) agent target Read w) w) as Hk.
  { intros k. apply wp_returned. eapply wp_wand; [by apply (wp_asked agent target Read f)|].
    intros o w' [[Hu [->|[e ->]]]|Hm].
    - left. split; [done|]. eexists. split; [done|]. apply refusal_in. by left.
    - left. split; [done|]. eexists. split; [done|]. apply refusal_in. eauto.
    - destruct o as [x|x|]; by right. }
  destruct (wants_validation query); [exact (Hk _)|exact (Hk _)].
Qed.
End asked.

(** Who is not granted access changes nothing.  A write request whose agent the
    nearest ACL does not permit the mode ([Write] to [PUT] and [DELETE],
    [Append] to [POST] and [PATCH], [Control] of the subject to write its
    auxiliary) is answered by the refusal that fits its agent, or by an
    internal error when the store fails: no graph, no object and no channel
    changes, whatever the request carries. *)
Theorem denied_changes_nothing (uuid : nat → string) (q : action) (agent : Agent) (path : string) (m : Mode)
    (target : Target) (w : W)
    (Hq : asks q = Some (agent, path, m)) (Ht : classify sp ("/" +:+ path) = Ok target)
    (Hno : ¬ may (graphs w) agent target m) :
  wp (perform sp uuid q) (λ o w',
    untouched w w' ∧ ∃ res, o = Ok (Some res) ∧ res ∈ refusals agent target) w.
Proof.
  assert (url_in sp (subject_of target)) as Hin by (destruct (classify_valid sp Hsp _ _ Ht) as [[Hin _] _]; exact Hin).
  assert (∀ (h : M W ResourceError Response), wp h (refused_or_may agent target m w) w →
    wp (let! r := h in ret (Some r)) (λ o w', untouched w w' ∧ ∃ res, o = Ok (Some res) ∧ res ∈ refusals agent target) w) as Hh.
  { intros h Hh. apply wp_bind. eapply wp_wand; [exact Hh|]. intros o w' [(Hu & res & -> & Hres)|Hm]; [|done].
    apply wp_ret. eauto. }
  destruct q as [|a p h b|a p h b u1 u2|a p h b|a p]; [done|..]; injection Hq as -> -> <-;
    unfold perform, handle_put, handle_post, handle_patch, handle_delete; rewrite (classified_target _ target _ Ht);
    apply Hh; [by apply asked_put|by apply asked_post|by apply asked_patch|by apply asked_delete].
Qed.

(** Reading changes nothing, and shows nothing to who may not read.  A [GET],
    of a resource or of its validation report, leaves stores and bus as they
    are, whatever it meets; and an agent whom the nearest ACL does not permit
    [Read] ([Control] of the subject for an auxiliary) is given the refusal
    that fits it, the same whether the target exists or not. *)
Theorem reading_is_silent (agent : Agent) (path : string) (query : option string) (headers : Headers) (w : W) :
  wp (handle_get sp agent path query headers : M W ResourceError Response) (λ o w',
    untouched w w' ∧
    ∀ target, classify sp ("/" +:+ path) = Ok target → ¬ may (graphs w) agent target Read →
      ∃ res, o = Ok res ∧ res ∈ refusals agent target) w.
Proof.
  destruct (kept_handle_get sp (untouched w) (E:=ResourceError) agent path query headers w (untouched_refl w)) as [Hu _].
  split; [exact Hu|]. intros target Ht Hno.
  assert (url_in sp (subject_of target)) as Hin by (destruct (classify_valid sp Hsp _ _ Ht) as [[Hin _] _]; exact Hin).
  destruct (asked_get (E:=ResourceError) agent target headers w Hin query) as [[_ Hres]|Hm]; [|done].
  revert Hres. unfold handle_get. by rewrite Ht.
Qed.

(** ** Events *)
Section unheard.
Context (w0 : W).
Notation silent m := (keeps (unheard w0) m (λ _, True)).

#[local] Instance reads_unheard : ReadsKeep (unheard w0).
Proof.
  split; intros q w Hb; split; try done; unfold unheard;
    [rewrite bus_triples|rewrite bus_ask|rewrite bus_select|rewrite bus_blob_get]; done.
Qed.

Lemma silent_update ops : silent (update ops).
Proof. intros w Hb. split; [|done]. unfold unheard. by rewrite bus_update. Qed.

Lemma silent_blob_put k b : silent (blob_put k b).
Proof. intros w Hb. split; [|done]. unfold unheard. by rewrite bus_blob_put. Qed.

Lemma silent_blob_delete k : silent (blob_delete k).
Proof. intros w Hb. split; [|done]. unfold unheard. by rewrite bus_blob_delete. Qed.
#[local] Hint Resolve reads_unheard silent_update silent_blob_put silent_blob_delete : keeps.

Lemma silent_put_dataset r d f : silent (put_dataset r d f).
Proof.
  unfold put_dataset, drop_blob, store_op, blob_op. destruct (split_dataset r d). keeps_step; [follow|].
  keeps_step; [apply keeps_for_each; intros; follow|]. follow.
Qed.

Lemma silent_put_blob r b mt : silent (put_blob r b mt).
Proof. unfold put_blob, store_op, blob_op. follow. Qed.

Lemma silent_put_rdf uuid i ts : silent (put_rdf uuid i ts).
Proof. unfold put_rdf, store_op. follow. Qed.

Lemma silent_ensure_container c : silent (ensure_container c).
Proof. unfold ensure_container, insert_marked, store_op. follow. Qed.

Lemma silent_add_containment p c : silent (add_containment p c).
Proof. unfold add_containment, insert_marked, store_op. follow. Qed.
#[local] Hint Resolve silent_put_dataset silent_put_blob silent_put_rdf silent_ensure_container
  silent_add_containment : keeps.

Lemma silent_patch iri p guard : silent (patch_guarded iri p guard).
Proof. unfold patch_guarded, patch_apply, store_op. follow. Qed.
#[local] Hint Resolve silent_patch : keeps.

Lemma silent_materialize g : silent (materialize g).
Proof.
  unfold materialize. keeps_step; [follow|]. destruct a as [cs pl]. keeps_step; [|follow].
  generalize ([] : list (ContainerUrl * string)). clear.
  induction pl as [|[c child] pl IH]; intros links; simpl; [follow|]. unfold denial_op. destruct child; follow.
Qed.

Lemma silent_put_store uuid t d sk f : silent (put_store sp uuid t d sk f).
Proof. unfold put_store, put_store_aux, put_store_container, aux_put, aux_op, store_op. follow. Qed.
#[local] Hint Resolve silent_materialize silent_put_store : keeps.

Lemma silent_put_write uuid agent target h body : silent (put_write sp uuid agent target h body).
Proof.
  unfold put_write. apply (kept_guarded (unheard w0)). intros g _. unfold put_write_rdf, put_write_blob. follow.
Qed.

Lemma silent_post_write uuid agent target h body u1 u2 : silent (post_write sp uuid agent target h body u1 u2).
Proof.
  unfold post_write. cbv zeta. apply (kept_guarded (unheard w0)). intros g _.
  keeps_step; [follow|]. destruct target as [r|c|a']; [follow| |follow].
  eapply keeps_bind with (λ _, True).
  - unfold post_child. cbv zeta. apply keeps_map_err. keeps_step; [follow|].
    apply (kept_guarded (unheard w0)). intros g' _. destruct (negb _); [follow|]. keeps_step; [follow|].
    apply (kept_guarded (unheard w0)). intros g'' _. follow.
  - intros [child cg] _. unfold post_checks, post_store. follow.
Qed.

Lemma silent_patch_write uuid agent target h body : silent (patch_write sp uuid agent target h body).
Proof.
  unfold patch_write. apply (kept_guarded (unheard w0)). intros g _.
  unfold patch_checks, patch_aux_response, aux_patch, aux_op, create_by_patch, patch_existing, patch_dataset. follow.
Qed.

Lemma silent_delete_write agent target : silent (delete_write agent target).
Proof.
  unfold delete_write. apply (kept_guarded (unheard w0)). intros g _.
  unfold delete_subject_write, delete_subject, delete_rdf, drop_blob, store_op, blob_op. follow.
Qed.
End unheard.

(** An answer that is no success has left the bus alone. *)
Definition quiet {E} (w : W) (o : outcome E Response) (w' : W) : Prop :=
  ∀ res, o = Ok res → is_success (res_status res) = false → get_bus w' = get_bus w.

Lemma quiet_emit {E} (res : Response) (e : M W E unit) w w' :
  get_bus w' = get_bus w →
  wp (do! (if negb (is_success (res_status res)) then ret tt else e) in ret res) (quiet w) w'.
Proof.
  intros Hb. unfold wp, bind. destruct (is_success (res_status res)) eqn:Es; cbn.
  - destruct (e w') as [[u|x|] w'']; intros r Hr Hn; cbn in *; [|done..]. injection Hr as <-. congruence.
  - by intros r _ _.
Qed.

Lemma wp_unheard {E A} (m : M W E A) w : keeps (unheard w) m (λ _, True) → wp m (λ _ w', get_bus w' = get_bus w) w.
Proof. intros Hm. unfold wp. by destruct (Hm w eq_refl) as [Hu _]. Qed.

Lemma quiet_put {E} uuid agent target h body w : wp (put_impl sp uuid agent target h body) (@quiet E w) w.
Proof.
  unfold put_impl. apply wp_bind, wp_returned. eapply wp_wand; [apply wp_unheard, silent_put_write|].
  intros [[[res ex] mat]|[[res ex] mat]|] w' Hb; [by apply quiet_emit..|done].
Qed.

Lemma quiet_post {E} uuid agent target h body u1 u2 w :
  wp (post_impl sp uuid agent target h body u1 u2) (@quiet E w) w.
Proof.
  unfold post_impl. apply wp_bind, wp_returned. eapply wp_wand; [apply wp_unheard, silent_post_write|].
  intros [[res [[child mat]|]]|[res [[child mat]|]]|] w' Hb; try (by apply quiet_emit); by intros r _ _.
Qed.

Lemma quiet_patch {E} uuid agent target h body w : wp (patch_impl sp uuid agent target h body) (@quiet E w) w.
Proof.
  unfold patch_impl. apply wp_bind, wp_attempt. eapply wp_wand; [apply wp_unheard, silent_patch_write|].
  intros [[[res ex] mat]|res|] w' Hb; [by apply quiet_emit|by intros r _ _|done].
Qed.

Lemma quiet_delete {E} agent target w : wp (delete_impl agent target) (@quiet E w) w.
Proof.
  unfold delete_impl. apply wp_bind, wp_attempt. eapply wp_wand; [apply wp_unheard, silent_delete_write|].
  intros [[res l]|res|] w' Hb; [by apply quiet_emit|by intros r _ _|done].
Qed.

Lemma quiet_classified {E} path (handler : Target → M W E Response) w :
  (∀ t, wp (handler t) (quiet w) w) → wp (classified sp path handler) (quiet w) w.
Proof. intros Hh. unfold classified. destruct (classify sp _); [apply Hh|by intros r _ _|done]. Qed.

(** C28: nothing is announced that did not happen.  Whatever a write request asks,
    if its answer is not a success the bus is as it was: no event was sent and
    no channel was touched. *)
Theorem refused_is_silent (uuid : nat → string) (q : action) (w : W) :
  wp (perform sp uuid q) (λ o w',
    ∀ res, o = Ok (Some res) → is_success (res_status res) = false → get_bus w' = get_bus w) w.
Proof.
  destruct q as [owner reset|agent path h body|agent path h body u1 u2|agent path h body|agent path]; unfold perform.
  - destruct (root sp); [|done]. unfold wp, bind. destruct (provision_root c w) as [[]]; try done.
    by destruct (provision_root_acl _ _ _ _ _) as [[]].
  - apply wp_bind. eapply wp_wand; [apply quiet_classified; intros t; apply quiet_put|].
    intros [r|e|] w' Hq; [|done..]. intros r' [= <-]. by apply Hq.
  - apply wp_bind. eapply wp_wand; [apply quiet_classified; intros t; apply quiet_post|].
    intros [r|e|] w' Hq; [|done..]. intros r' [= <-]. by apply Hq.
  - apply wp_bind. eapply wp_wand; [apply quiet_classified; intros t; apply quiet_patch|].
    intros [r|e|] w' Hq; [|done..]. intros r' [= <-]. by apply Hq.
  - apply wp_bind. eapply wp_wand; [apply quiet_classified; intros t; apply quiet_delete|].
    intros [r|e|] w' Hq; [|done..]. intros r' [= <-]. by apply Hq.
Qed.
End edge.

(** * Witnesses *)
Section witnesses.
#[local] Existing Instance toy_iri.
#[local] Existing Instance toy_header.
#[local] Existing Instance toy_text.
#[local] Existing Instance toy_blanks.
#[local] Existing Instance toy_hash.
#[local] Existing Instance toy_path.
#[local] Existing Instance toy_display.
#[local] Existing Instance toy_terms.
#[local] Existing Instance toy_rdf.
#[local] Existing Instance toy_shacl.
#[local] Existing Instance toy_n3.

(** A probe that was run and refused says that access is not granted. *)
Lemma refused_may_not {W : Type} `{BackendLaws W} agent target m (w : W) g e :
  url_in toy_space (subject_of target) → (probe agent target w).1 = Ok g → authorize g m = Err e →
  ¬ may (graphs w) agent target m.
Proof.
  intros Hin Hg Hd. pose proof (wp_probe toy_space agent target w Hin) as Hp. unfold wp in Hp. rewrite Hg in Hp.
  destruct Hp as (<- & <- & Hc & Hf & _). pose proof (authorize_may (graphs w) g m Hf Hc) as Ha. rewrite Hd in Ha.
  by destruct Ha.
Qed.

Definition toy_target : Target := TResource toy_url.

Definition public_guard : Guard :=
  match (probe Public toy_target toy_store).1 with Ok g => g | _ => mkGuard Public toy_target [] ∅ ∅ end.

(** A stranger writes [/box] on a pod that only its owner may use. *)
Lemma denied_changes_nothing_witness :
  let r := perform toy_space toy_uuid (Put Public "box" turtle_headers "a box") toy_store in
  untouched toy_store r.2 ∧ ∃ res, r.1 = Ok (Some res) ∧ res ∈ refusals Public toy_target.
Proof.
  assert ((probe Public toy_target toy_store).1 = Ok public_guard) as Hg by (vm_compute; reflexivity).
  assert (authorize public_guard Write = Err Unauthenticated) as Hd by (vm_compute; reflexivity).
  pose proof (refused_may_not Public toy_target Write toy_store _ _ toy_url_in Hg Hd) as Hno.
  assert (classify toy_space "/box" = Ok toy_target) as Hc by (vm_compute; reflexivity).
  exact (denied_changes_nothing toy_space toy_space_wf toy_uuid (Put Public "box" turtle_headers "a box")
    Public "box" Write toy_target toy_store eq_refl Hc Hno).
Defined.

(** A stranger reads [/box]. *)
Lemma reading_is_silent_witness :
  ∃ res, (handle_get (E:=ResourceError) toy_space Public "box" None turtle_headers toy_store).1 = Ok res ∧
    res ∈ refusals Public toy_target ∧ res_status res = 401.
Proof.
  assert ((probe Public toy_target toy_store).1 = Ok public_guard) as Hg by (vm_compute; reflexivity).
  assert (authorize public_guard Read = Err Unauthenticated) as Hd by (vm_compute; reflexivity).
  pose proof (refused_may_not Public toy_target Read toy_store _ _ toy_url_in Hg Hd) as Hno.
  assert (classify toy_space "/box" = Ok toy_target) as Hc by (vm_compute; reflexivity).
  destruct (reading_is_silent toy_space toy_space_wf Public "box" None turtle_headers toy_store) as [_ Hr].
  destruct (Hr toy_target Hc Hno) as (res & Hres & Hin). exists res. split; [exact Hres|]. split; [exact Hin|].
  assert ((handle_get (E:=ResourceError) toy_space Public "box" None turtle_headers toy_store).1 =
    Ok (with_aux_links (denial_response Unauthenticated) toy_target)) as Hv by (vm_compute; reflexivity).
  rewrite Hv in Hres. injection Hres as <-. vm_compute. reflexivity.
Defined.

(** The same request, with somebody listening. *)
Lemma refused_is_silent_witness :
  ∃ res, (perform toy_space toy_uuid (Put Public "box" turtle_headers "a box") toy_store).1 = Ok (Some res) ∧
    is_success (res_status res) = false ∧
    get_bus (perform toy_space toy_uuid (Put Public "box" turtle_headers "a box") toy_store).2 = get_bus toy_store.
Proof.
  pose (res := with_aux_links (denial_response Unauthenticated) toy_target).
  assert ((perform toy_space toy_uuid (Put Public "box" turtle_headers "a box") toy_store).1 = Ok (Some res)) as Hr
    by (vm_compute; reflexivity).
  exists res. split; [exact Hr|]. split; [reflexivity|].
  exact (refused_is_silent toy_space toy_uuid (Put Public "box" turtle_headers "a box") toy_store res Hr eq_refl).
Defined.
End witnesses.
