(* ===== verification/Ip.v ===== *)
(** Internet addresses: the part of [std::net] the outbound fetcher uses,
    parsed by its grammar, and the classification of addresses a fetch must
    not reach ([auth/safe_fetch.rs]). *)
From S2P Require Import Prelude Str Rdf.
Open Scope list_scope.

(** An IPv4 address is its four octets, an IPv6 address its eight groups. *)
Inductive Ipv4Addr : Type := mkV4 (a b c d : Z).
Inductive Ipv6Addr : Type := mkV6 (s0 s1 s2 s3 s4 s5 s6 s7 : Z).
Inductive IpAddr : Type := V4 (ip : Ipv4Addr) | V6 (ip : Ipv6Addr).

#[export] Instance ipv4_eq : EqDecision Ipv4Addr.
Proof. solve_decision. Defined.
#[export] Instance ipv6_eq : EqDecision Ipv6Addr.
Proof. solve_decision. Defined.
#[export] Instance ip_eq : EqDecision IpAddr.
Proof. solve_decision. Defined.

(** * Parsing ([core::net::parser])

    A reader takes a prefix of its input, or fails and takes nothing. *)
Definition reader (A : Type) : Type := string → option (A * string).

Definition to_digit (radix : Z) (a : ascii) : option Z :=
  let n := Z.of_nat (nat_of_ascii a) in
  let v := if in_range 48 57 a then Some (n - 48)%Z
           else if in_range 97 122 a then Some (n - 87)%Z
           else if in_range 65 90 a then Some (n - 55)%Z
           else None in
  d ← v; if Z.ltb d radix then Some d else None.

(** The digits of a number: their value, how many there are, the rest. *)
Fixpoint read_digits (radix acc : Z) (count : nat) (s : string) : Z * nat * string :=
  match s with
  | String a s' =>
      match to_digit radix a with
      | Some d => read_digits radix (acc * radix + d)%Z (S count) s'
      | None => (acc, count, s)
      end
  | "" => (acc, count, s)
  end.

Definition starts_with_char (c : ascii) (s : string) : bool :=
  match s with String a _ => Ascii.eqb a c | "" => false end.

Definition read_number (radix bound : Z) (max_digits : nat) (allow_zero_prefix : bool) : reader Z := λ s,
  let '(v, n, rest) := read_digits radix 0 0 s in
  if Nat.eqb n 0 || Nat.ltb max_digits n then None else
  if negb allow_zero_prefix && starts_with_char "0" s && Nat.ltb 1 n then None else
  if Z.leb v bound then Some (v, rest) else None.

Definition read_char (c : ascii) : reader () := λ s,
  match s with
  | String a s' => if Ascii.eqb a c then Some (tt, s') else None
  | "" => None
  end.

Definition read_separator {A : Type} (sep : ascii) (index : nat) (inner : reader A) : reader A := λ s,
  match index with
  | O => inner s
  | S _ => '(_, s') ← read_char sep s; inner s'
  end.

Definition read_octet (i : nat) : reader Z := read_separator "." i (read_number 10 255 3 false).

Definition read_ipv4_addr : reader Ipv4Addr := λ s,
  '(a, s) ← read_octet 0 s;
  '(b, s) ← read_octet 1 s;
  '(c, s) ← read_octet 2 s;
  '(d, s) ← read_octet 3 s;
  Some (mkV4 a b c d, s).

(** The groups from number [i] on, [n] of them at most: the groups, whether
    they end in an embedded IPv4 address, the rest. *)
Fixpoint read_groups (i n : nat) (s : string) : list Z * bool * string :=
  match n with
  | O => ([], false, s)
  | S n' =>
      match (if Nat.ltb 0 n' then read_separator ":" i read_ipv4_addr s else None) with
      | Some (mkV4 a b c d, s') => ([a * 256 + b; c * 256 + d]%Z, true, s')
      | None =>
          match read_separator ":" i (read_number 16 65535 4 true) s with
          | Some (g, s') => let '(gs, v4, rest) := read_groups (S i) n' s' in (g :: gs, v4, rest)
          | None => ([], false, s)
          end
      end
  end.

Definition v6_of_groups (gs : list Z) : option Ipv6Addr :=
  match gs with
  | [a; b; c; d; e; f; g; h] => Some (mkV6 a b c d e f g h)
  | _ => None
  end.

Definition read_ipv6_addr : reader Ipv6Addr := λ s,
  let '(head, head_ipv4, s1) := read_groups 0 8 s in
  if Nat.eqb (length head) 8 then (λ ip, (ip, s1)) <$> v6_of_groups head else
  if head_ipv4 then None else
  '(_, s2) ← read_char ":" s1;
  '(_, s3) ← read_char ":" s2;
  let '(tail, _, s4) := read_groups 0 (8 - (length head + 1)) s3 in
  (λ ip, (ip, s4)) <$> v6_of_groups (head ++ replicate (8 - length head - length tail) 0%Z ++ tail).

(** All of the input, or nothing. *)
Definition parse_with {A : Type} (p : reader A) (s : string) : option A :=
  match p s with Some (a, "") => Some a | _ => None end.

(** [s.parse::<Ipv6Addr>().ok()], [s.parse::<IpAddr>().ok()]. *)
Definition parse_ipv6 (s : string) : option Ipv6Addr := parse_with read_ipv6_addr s.

Definition parse_ip (s : string) : option IpAddr :=
  parse_with (λ s, match read_ipv4_addr s with
                   | Some (ip, rest) => Some (V4 ip, rest)
                   | None => '(ip, rest) ← read_ipv6_addr s; Some (V6 ip, rest)
                   end) s.

(** [s.parse::<u16>().ok()]: a sign is taken, but only a plus. *)
Definition parse_u16 (s : string) : option Z :=
  let body := match s with String "+" s' => s' | _ => s end in
  if bool_decide (body = "") || negb (all_digits body) then None else
  let v := digits_value 0 body in
  if Z.leb v 65535 then Some v else None.

(** * Forbidden addresses *)
Definition is_cgnat (ip : Ipv4Addr) : bool :=
  let 'mkV4 a b _ _ := ip in Z.eqb a 100 && Z.eqb (Z.land b 192) 64.

(** [is_loopback], [is_unspecified], [is_private], [is_link_local] of [std]. *)
Definition v4_is_loopback (ip : Ipv4Addr) : bool := let 'mkV4 a _ _ _ := ip in Z.eqb a 127.
Definition v4_is_unspecified (ip : Ipv4Addr) : bool := bool_decide (ip = mkV4 0 0 0 0).
Definition v4_is_private (ip : Ipv4Addr) : bool :=
  let 'mkV4 a b _ _ := ip in
  Z.eqb a 10 || (Z.eqb a 172 && Z.leb 16 b && Z.leb b 31) || (Z.eqb a 192 && Z.eqb b 168).
Definition v4_is_link_local (ip : Ipv4Addr) : bool :=
  let 'mkV4 a b _ _ := ip in Z.eqb a 169 && Z.eqb b 254.
Definition v6_is_loopback (ip : Ipv6Addr) : bool := bool_decide (ip = mkV6 0 0 0 0 0 0 0 1).
Definition v6_is_unspecified (ip : Ipv6Addr) : bool := bool_decide (ip = mkV6 0 0 0 0 0 0 0 0).

Definition is_unique_local (ip : Ipv6Addr) : bool :=
  let 'mkV6 s0 _ _ _ _ _ _ _ := ip in Z.eqb (Z.land s0 65024) 64512.
Definition is_link_local_v6 (ip : Ipv6Addr) : bool :=
  let 'mkV6 s0 _ _ _ _ _ _ _ := ip in Z.eqb (Z.land s0 65472) 65152.

(** The last two groups as an IPv4 address. *)
Definition low_v4 (g h : Z) : Ipv4Addr :=
  mkV4 (Z.shiftr g 8) (Z.land g 255) (Z.shiftr h 8) (Z.land h 255).

Definition to_ipv4_mapped (ip : Ipv6Addr) : option Ipv4Addr :=
  let 'mkV6 s0 s1 s2 s3 s4 s5 g h := ip in
  if bool_decide ([s0; s1; s2; s3; s4; s5] = [0; 0; 0; 0; 0; 65535]%Z) then Some (low_v4 g h) else None.

Definition is_forbidden_v4 (v4 : Ipv4Addr) : bool :=
  v4_is_loopback v4 || v4_is_unspecified v4 || v4_is_private v4 || v4_is_link_local v4 || is_cgnat v4.

Definition is_forbidden_ip (ip : IpAddr) : bool :=
  match ip with
  | V4 v4 => is_forbidden_v4 v4
  | V6 v6 =>
      match to_ipv4_mapped v6 with
      | Some v4 => is_forbidden_v4 v4
      | None =>
          let 'mkV6 s0 s1 s2 s3 s4 s5 g h := v6 in
          if bool_decide ([s0; s1; s2; s3; s4; s5] = [0; 0; 0; 0; 0; 0]%Z)
             && negb (v6_is_loopback v6 || v6_is_unspecified v6)
          then is_forbidden_v4 (low_v4 g h)
          else v6_is_loopback v6 || v6_is_unspecified v6 || is_unique_local v6 || is_link_local_v6 v6
      end
  end.

(** * What is forbidden, as networks

    An address is a number, a network a base and a prefix length. *)
Definition num4 (ip : Ipv4Addr) : Z :=
  let 'mkV4 a b c d := ip in (((a * 256 + b) * 256 + c) * 256 + d)%Z.

Definition num6 (ip : Ipv6Addr) : Z :=
  let 'mkV6 s0 s1 s2 s3 s4 s5 s6 s7 := ip in
  foldl (λ n s, n * 65536 + s)%Z 0%Z [s0; s1; s2; s3; s4; s5; s6; s7].

Definition octet (x : Z) : Prop := (0 <= x < 256)%Z.
Definition group (x : Z) : Prop := (0 <= x < 65536)%Z.

Definition ip_wf (ip : IpAddr) : Prop :=
  match ip with
  | V4 (mkV4 a b c d) => octet a ∧ octet b ∧ octet c ∧ octet d
  | V6 (mkV6 s0 s1 s2 s3 s4 s5 s6 s7) =>
      group s0 ∧ group s1 ∧ group s2 ∧ group s3 ∧ group s4 ∧ group s5 ∧ group s6 ∧ group s7
  end.

(** [base/len], of an address of [bits] bits. *)
Definition in_network (bits n : Z) (net : Z * Z) : Prop := (n / 2 ^ (bits - net.2) = net.1 / 2 ^ (bits - net.2))%Z.

Definition v4_networks : list (Z * Z) :=
  [(num4 (mkV4 127 0 0 0), 8); (num4 (mkV4 0 0 0 0), 32); (num4 (mkV4 10 0 0 0), 8);
   (num4 (mkV4 172 16 0 0), 12); (num4 (mkV4 192 168 0 0), 16); (num4 (mkV4 169 254 0 0), 16);
   (num4 (mkV4 100 64 0 0), 10)]%Z.

Definition v6_networks : list (Z * Z) :=
  [(num6 (mkV6 0 0 0 0 0 0 0 1), 128); (num6 (mkV6 0 0 0 0 0 0 0 0), 128);
   (num6 (mkV6 64512 0 0 0 0 0 0 0), 7); (num6 (mkV6 65152 0 0 0 0 0 0 0), 10)]%Z.

(** In one of the networks, or the IPv4-mapped or IPv4-compatible form of an
    address that is. *)
Definition forbidden_number4 (n : Z) : Prop := Exists (in_network 32 n) v4_networks.
Definition forbidden_number6 (n : Z) : Prop :=
  Exists (in_network 128 n) v6_networks ∨
  ((n / 2 ^ 32 = 0 ∨ n / 2 ^ 32 = 65535) ∧ forbidden_number4 (n mod 2 ^ 32))%Z.

Definition forbidden_number (ip : IpAddr) : Prop :=
  match ip with V4 ip => forbidden_number4 (num4 ip) | V6 ip => forbidden_number6 (num6 ip) end.

(** ** Bit masks as ranges *)
Lemma mask_eqb s n k v : (0 <= n → 0 <= k → 0 <= s < 2 ^ (k + n) →
  Z.eqb (Z.land s (Z.shiftl (Z.ones k) n)) (v * 2 ^ n) = Z.eqb (s / 2 ^ n) v)%Z.
Proof.
  intros Hn Hk Hs.
  assert (Z.land s (Z.shiftl (Z.ones k) n) = Z.shiftl (Z.land (Z.shiftr s n) (Z.ones k)) n) as ->.
  { apply Z.bits_inj'. intros i Hi. rewrite Z.land_spec, !Z.shiftl_spec, Z.land_spec by done.
    destruct (Z.lt_ge_cases i n) as [Hlt|Hge]; [by rewrite !(Z.testbit_neg_r _ (i - n)), !andb_false_r by lia|].
    rewrite Z.shiftr_spec by lia. by replace (i - n + n)%Z with i by lia. }
  rewrite Z.land_ones, Z.shiftr_div_pow2, Z.shiftl_mul_pow2 by done.
  assert (0 <= s / 2 ^ n < 2 ^ k)%Z as Hd.
  { split; [apply Z.div_pos; lia|]. apply Z.div_lt_upper_bound; [lia|]. rewrite <- Z.pow_add_r, Z.add_comm by done. lia. }
  rewrite Z.mod_small by done. apply Bool.eq_true_iff_eq. rewrite !Z.eqb_eq. nia.
Qed.

Lemma land_cgnat b : octet b → Z.eqb (Z.land b 192) 64 = Z.eqb (b / 64) 1.
Proof. intros. by apply (mask_eqb b 6 2 1). Qed.

Lemma land_unique_local s : group s → Z.eqb (Z.land s 65024) 64512 = Z.eqb (s / 512) 126.
Proof. intros. by apply (mask_eqb s 9 7 126). Qed.

Lemma land_link_local s : group s → Z.eqb (Z.land s 65472) 65152 = Z.eqb (s / 64) 1018.
Proof. intros. by apply (mask_eqb s 6 10 1018). Qed.

Lemma low_v4_octets g h : group g → group h →
  low_v4 g h = mkV4 (g / 256) (g mod 256) (h / 256) (h mod 256).
Proof.
  intros _ _. unfold low_v4. rewrite !Z.shiftr_div_pow2 by lia.
  change 255%Z with (Z.ones 8). by rewrite !Z.land_ones by lia.
Qed.

(** ** The networks, in the terms of the code *)
Lemma forbidden_number4_spec a b c d :
  octet a → octet b → octet c → octet d →
  forbidden_number4 (num4 (mkV4 a b c d)) ↔
  (a = 127 ∨ (a = 0 ∧ b = 0 ∧ c = 0 ∧ d = 0) ∨ a = 10 ∨ (a = 172 ∧ 16 <= b <= 31) ∨ (a = 192 ∧ b = 168) ∨
   (a = 169 ∧ b = 254) ∨ (a = 100 ∧ b / 64 = 1))%Z.
Proof.
  unfold octet, forbidden_number4, v4_networks. intros.
  remember (num4 (mkV4 a b c d)) as n eqn:En. unfold num4 in En.
  rewrite !Exists_cons, Exists_nil.
  change ((n / 16777216 = 127 ∨ n / 1 = 0 ∨ n / 16777216 = 10 ∨ n / 1048576 = 2753 ∨ n / 65536 = 49320 ∨
    n / 65536 = 43518 ∨ n / 4194304 = 401 ∨ False ↔
    a = 127 ∨ (a = 0 ∧ b = 0 ∧ c = 0 ∧ d = 0) ∨ a = 10 ∨ (a = 172 ∧ 16 <= b <= 31) ∨ (a = 192 ∧ b = 168) ∨
    (a = 169 ∧ b = 254) ∨ (a = 100 ∧ b / 64 = 1))%Z).
  rewrite Z.div_1_r.
  assert (n / 16777216 = a)%Z as -> by (Z.to_euclidean_division_equations; lia).
  assert (n / 1048576 = a * 16 + b / 16)%Z as -> by (Z.to_euclidean_division_equations; lia).
  assert (n / 65536 = a * 256 + b)%Z as -> by (Z.to_euclidean_division_equations; lia).
  assert (n / 4194304 = a * 4 + b / 64)%Z as -> by (Z.to_euclidean_division_equations; lia).
  clear -En H H0 H1 H2. Z.to_euclidean_division_equations. lia.
Qed.

Lemma is_forbidden_v4_spec v4 : ip_wf (V4 v4) → is_forbidden_v4 v4 = true ↔ forbidden_number4 (num4 v4).
Proof.
  destruct v4 as [a b c d]. intros (Ha & Hb & Hc & Hd). rewrite forbidden_number4_spec by done.
  unfold is_forbidden_v4, v4_is_loopback, v4_is_unspecified, v4_is_private, v4_is_link_local, is_cgnat.
  rewrite land_cgnat by done.
  assert (bool_decide (mkV4 a b c d = mkV4 0 0 0 0) = true ↔ (a = 0 ∧ b = 0 ∧ c = 0 ∧ d = 0)%Z) as Hz
    by (rewrite bool_decide_eq_true; naive_solver).
  rewrite !orb_true_iff, !andb_true_iff, !Z.eqb_eq, !Z.leb_le, Hz. lia.
Qed.

(** The first six groups of an IPv6 address, as a number. *)
Definition high6 (s0 s1 s2 s3 s4 s5 : Z) : Z := foldl (λ n s, n * 65536 + s)%Z 0%Z [s0; s1; s2; s3; s4; s5].

Lemma num6_split s0 s1 s2 s3 s4 s5 g h : group g → group h →
  (num6 (mkV6 s0 s1 s2 s3 s4 s5 g h) / 2 ^ 32)%Z = high6 s0 s1 s2 s3 s4 s5 ∧
  (num6 (mkV6 s0 s1 s2 s3 s4 s5 g h) mod 2 ^ 32)%Z = num4 (low_v4 g h).
Proof.
  intros Hg Hh. rewrite low_v4_octets by done. unfold group in *.
  assert (num6 (mkV6 s0 s1 s2 s3 s4 s5 g h) = high6 s0 s1 s2 s3 s4 s5 * 2 ^ 32 + (g * 65536 + h))%Z as ->
    by (unfold num6, high6; simpl; lia).
  assert (num4 (mkV4 (g / 256) (g mod 256) (h / 256) (h mod 256)) = g * 65536 + h)%Z as ->
    by (unfold num4; Z.to_euclidean_division_equations; lia).
  split; [rewrite Z.div_add_l, Z.div_small by lia; lia|]. rewrite Z.add_comm, Z.mod_add, Z.mod_small by lia. done.
Qed.

Lemma div_prefix x m y k : (0 < m → 0 < k → 0 <= y < m → (x * m + y) / (m * k) = x / k)%Z.
Proof. intros. rewrite <- Z.div_div, Z.div_add_l, (Z.div_small y m), Z.add_0_r by lia. done. Qed.

Lemma num6_top s0 s1 s2 s3 s4 s5 g h k : ip_wf (V6 (mkV6 s0 s1 s2 s3 s4 s5 g h)) → (0 <= k <= 16)%Z →
  (num6 (mkV6 s0 s1 s2 s3 s4 s5 g h) / 2 ^ (128 - k) = s0 / 2 ^ (16 - k))%Z.
Proof.
  intros (?&?&?&?&?&?&?&?) Hk. unfold group in *.
  replace (2 ^ (128 - k))%Z with (2 ^ 112 * 2 ^ (16 - k))%Z by (rewrite <- Z.pow_add_r by lia; f_equal; lia).
  assert (num6 (mkV6 s0 s1 s2 s3 s4 s5 g h) =
    s0 * 2 ^ 112 + (s1 * 2 ^ 96 + s2 * 2 ^ 80 + s3 * 2 ^ 64 + s4 * 2 ^ 48 + s5 * 2 ^ 32 + g * 2 ^ 16 + h))%Z as ->
    by (unfold num6; simpl; lia).
  apply div_prefix; lia.
Qed.

Lemma high6_zero s0 s1 s2 s3 s4 s5 : group s0 → group s1 → group s2 → group s3 → group s4 → group s5 →
  (high6 s0 s1 s2 s3 s4 s5 = 0 ↔ [s0; s1; s2; s3; s4; s5] = [0; 0; 0; 0; 0; 0])%Z ∧
  (high6 s0 s1 s2 s3 s4 s5 = 65535 ↔ [s0; s1; s2; s3; s4; s5] = [0; 0; 0; 0; 0; 65535])%Z.
Proof.
  unfold group, high6. simpl. intros. split; (split; [intros Hn|by intros [= -> -> -> -> -> ->]]).
  - assert (s0 = 0 ∧ s1 = 0 ∧ s2 = 0 ∧ s3 = 0 ∧ s4 = 0 ∧ s5 = 0)%Z by lia. naive_solver.
  - assert (s0 = 0 ∧ s1 = 0 ∧ s2 = 0 ∧ s3 = 0 ∧ s4 = 0 ∧ s5 = 65535)%Z by lia. naive_solver.
Qed.

Lemma num6_small s0 s1 s2 s3 s4 s5 g h : ip_wf (V6 (mkV6 s0 s1 s2 s3 s4 s5 g h)) →
  (num6 (mkV6 s0 s1 s2 s3 s4 s5 g h) = 0 ↔ mkV6 s0 s1 s2 s3 s4 s5 g h = mkV6 0 0 0 0 0 0 0 0)%Z ∧
  (num6 (mkV6 s0 s1 s2 s3 s4 s5 g h) = 1 ↔ mkV6 s0 s1 s2 s3 s4 s5 g h = mkV6 0 0 0 0 0 0 0 1)%Z.
Proof.
  intros (?&?&?&?&?&?&?&?). unfold group, num6 in *. simpl. split; (split; [intros Hn|by intros [= -> -> -> -> -> -> -> ->]]).
  - assert (s0 = 0 ∧ s1 = 0 ∧ s2 = 0 ∧ s3 = 0 ∧ s4 = 0 ∧ s5 = 0 ∧ g = 0 ∧ h = 0)%Z by lia. naive_solver.
  - assert (s0 = 0 ∧ s1 = 0 ∧ s2 = 0 ∧ s3 = 0 ∧ s4 = 0 ∧ s5 = 0 ∧ g = 0 ∧ h = 1)%Z by lia. naive_solver.
Qed.

Lemma v6_networks_spec v6 : ip_wf (V6 v6) →
  Exists (in_network 128 (num6 v6)) v6_networks ↔
  (v6_is_loopback v6 || v6_is_unspecified v6 || is_unique_local v6 || is_link_local_v6 v6 = true).
Proof.
  destruct v6 as [s0 s1 s2 s3 s4 s5 g h]. intros Hwf. destruct (num6_small _ _ _ _ _ _ _ _ Hwf) as [Hz Ho].
  pose proof (num6_top s0 s1 s2 s3 s4 s5 g h 7 Hwf ltac:(lia)) as H7.
  pose proof (num6_top s0 s1 s2 s3 s4 s5 g h 10 Hwf ltac:(lia)) as H10.
  pose proof Hwf as (Hs0 & _). unfold is_unique_local, is_link_local_v6.
  rewrite land_unique_local, land_link_local by done. unfold v6_is_loopback, v6_is_unspecified.
  rewrite !orb_true_iff, !bool_decide_eq_true, !Z.eqb_eq, <- Hz, <- Ho.
  revert H7 H10. generalize (num6 (mkV6 s0 s1 s2 s3 s4 s5 g h)). intros n H7 H10.
  change (2 ^ (16 - 7))%Z with 512%Z in H7. change (2 ^ (16 - 10))%Z with 64%Z in H10. rewrite <- H7, <- H10.
  unfold v6_networks. rewrite !Exists_cons, Exists_nil.
  change (in_network 128 n (num6 (mkV6 0 0 0 0 0 0 0 1), 128%Z)) with (n / 1 = 1)%Z.
  change (in_network 128 n (num6 (mkV6 0 0 0 0 0 0 0 0), 128%Z)) with (n / 1 = 0)%Z.
  change (in_network 128 n (num6 (mkV6 64512 0 0 0 0 0 0 0), 7%Z)) with (n / 2 ^ (128 - 7) = 126)%Z.
  change (in_network 128 n (num6 (mkV6 65152 0 0 0 0 0 0 0), 10%Z)) with (n / 2 ^ (128 - 10) = 1018)%Z.
  rewrite !Z.div_1_r. tauto.
Qed.

Lemma low_v4_wf g h : group g → group h → ip_wf (V4 (low_v4 g h)).
Proof.
  intros Hg Hh. rewrite low_v4_octets by done. unfold ip_wf, octet, group in *.
  Z.to_euclidean_division_equations. lia.
Qed.

(** C36: the fetcher's private addresses are networks.  [is_forbidden_ip] is true of
    exactly the addresses in [127/8], [0.0.0.0], [10/8], [172.16/12],
    [192.168/16], [169.254/16], [100.64/10], of [::1], [::], [fc00::/7],
    [fe80::/10], and of the IPv6 addresses that carry one of the former in
    their IPv4-mapped or IPv4-compatible form: no spelling of an address gets
    around its classification. *)
Theorem is_forbidden_ip_iff (ip : IpAddr) (Hwf : ip_wf ip) :
  is_forbidden_ip ip = true ↔ forbidden_number ip.
Proof.
  destruct ip as [v4|v6]; [by apply is_forbidden_v4_spec|].
  unfold is_forbidden_ip, forbidden_number, forbidden_number6. rewrite (v6_networks_spec v6 Hwf).
  destruct v6 as [s0 s1 s2 s3 s4 s5 g h]. pose proof Hwf as (H0 & H1 & H2 & H3 & H4 & H5 & Hg & Hh).
  destruct (high6_zero s0 s1 s2 s3 s4 s5 H0 H1 H2 H3 H4 H5) as [Hz Hm].
  destruct (num6_split s0 s1 s2 s3 s4 s5 g h Hg Hh) as [-> ->]. rewrite Hz, Hm.
  rewrite <- (is_forbidden_v4_spec _ (low_v4_wf g h Hg Hh)). unfold to_ipv4_mapped.
  destruct (bool_decide_reflect ([s0; s1; s2; s3; s4; s5] = [0; 0; 0; 0; 0; 65535]%Z)) as [Em|Hnm].
  - injection Em as -> -> -> -> -> ->. split; [by auto|]. intros [Hn|[_ Hf]]; [|done].
    by vm_compute in Hn.
  - destruct (bool_decide_reflect ([s0; s1; s2; s3; s4; s5] = [0; 0; 0; 0; 0; 0]%Z)) as [Ez|Hnz]; [|cbn; naive_solver].
    injection Ez as -> -> -> -> -> ->.
    assert (is_unique_local (mkV6 0 0 0 0 0 0 g h) = false) as -> by reflexivity.
    assert (is_link_local_v6 (mkV6 0 0 0 0 0 0 g h) = false) as -> by reflexivity.
    destruct (v6_is_loopback _ || v6_is_unspecified _); cbn; naive_solver.
Qed.

(** The metadata service of a cloud, as an IPv4-mapped address. *)
Lemma is_forbidden_ip_iff_witness :
  ip_wf (V6 (mkV6 0 0 0 0 0 65535 43518 43518)) ∧
  forbidden_number (V6 (mkV6 0 0 0 0 0 65535 43518 43518)) ∧
  ¬ forbidden_number (V6 (mkV6 8193 3512 0 0 0 0 0 1)).
Proof.
  assert (ip_wf (V6 (mkV6 0 0 0 0 0 65535 43518 43518))) as Hw by (cbn; unfold group; lia).
  assert (ip_wf (V6 (mkV6 8193 3512 0 0 0 0 0 1))) as Hw' by (cbn; unfold group; lia).
  split; [done|]. split; [apply (is_forbidden_ip_iff _ Hw); reflexivity|].
  intros Hf. by apply (is_forbidden_ip_iff _ Hw') in Hf.
Defined.
