(* ===== verification/Fetch.v ===== *)
(** Outbound fetches ([auth/safe_fetch.rs]): the operator's exceptions, the
    screening of resolved addresses, the guarded [GET].

    The URL parser, the DNS and the HTTP client are parameters. *)
From S2P Require Import Prelude Str Rdf Dataset Http Ip.
Open Scope list_scope.

(** [enum AuthError]. *)
Inductive AuthError : Type :=
| Malformed (m : string)
| BadSignature
| Expired
| UnknownIssuer
| DpopInvalid (m : string)
| Binding
| MissingKey
| UnsupportedKeyType
| FetchBlocked (m : string)
| IssuerNotAuthorized
| UntrustedIssuer
| WrongAudience.

#[export] Instance auth_error_eq : EqDecision AuthError.
Proof. solve_decision. Defined.

(** * The [url] crate *)
Class UrlLib : Type := {
  Url : Type;
  url_parse : string → string + Url;
  url_scheme : Url → string;
  url_host_str : Url → option string;
  url_port_or_known_default : Url → option Z;
  url_path : Url → string;
  url_username : Url → string;
  url_password : Url → option string;
  url_query : Url → option string;
  url_fragment : Url → option string
}.

Definition url_ok `{UrlLib} (s : string) : option Url :=
  match url_parse s with inr u => Some u | inl _ => None end.

(** A part of the process's state, behind a lock of its own. *)
Class Holds (W S : Type) : Type := {
  get_part : W → S;
  set_part : S → W → W;
  get_set_part s w : get_part (set_part s w) = s
}.

(** * The operator's exceptions *)
Notation insecure_entry := (string * option Z)%type.

Record FetchPolicy : Type := mkPolicy {
  allow_http : bool;
  allow_private_ips : bool;
  insecure_hosts : gset insecure_entry
}.

Definition default_policy : FetchPolicy := mkPolicy false false ∅.

(** [s.rfind(c).map(|i| (&s[..i], &s[i + 1..]))]. *)
Fixpoint rsplit_once (c : ascii) (s : string) : option (string * string) :=
  match s with
  | EmptyString => None
  | String a s' =>
      match rsplit_once c s' with
      | Some (h, t) => Some (String a h, t)
      | None => if Ascii.eqb a c then Some ("", s') else None
      end
  end.

Definition is_some {A : Type} (o : option A) : bool := match o with Some _ => true | None => false end.

(** Reads both as a whole address and as an address with a port. *)
Definition ambiguous_entry (entry : string) : bool :=
  is_some (parse_ipv6 entry) &&
  match rsplit_once ":" entry with
  | Some (host, port_str) => is_some (parse_ipv6 host) && is_some (parse_u16 port_str)
  | None => false
  end.

(** The authority an entry stands for, and the port it names. *)
Definition entry_authority (entry : string) : option (string * option Z) :=
  match strip_prefix "[" entry with
  | Some rest =>
      '(_, tail) ← split_once "]" rest;
      if bool_decide (tail = "") then Some (entry, None) else
      t ← strip_prefix ":" tail;
      port ← parse_u16 t;
      Some (entry, Some port)
  | None =>
      if is_some (parse_ipv6 entry) then Some ("[" +:+ entry +:+ "]", None) else
      match rsplit_once ":" entry with
      | Some (_, tail) => port ← parse_u16 tail; Some (entry, Some port)
      | None => Some (entry, None)
      end
  end.

Definition plain_authority `{UrlLib} (u : Url) : bool :=
  bool_decide (url_path u = "/") && bool_decide (url_username u = "") &&
  negb (is_some (url_password u)) && negb (is_some (url_query u)) && negb (is_some (url_fragment u)).

Definition parse_insecure_host_entry `{UrlLib} (entry : string) : option insecure_entry :=
  let entry := trim entry in
  if bool_decide (entry = "") then None else
  if ambiguous_entry entry then None else
  '(authority, port) ← entry_authority entry;
  u ← url_ok ("http://" +:+ authority +:+ "/");
  if negb (plain_authority u) then None else
  host ← url_host_str u;
  Some (host, port).

(** The hosts understood, and the entries that were not, in their order. *)
Definition try_with_insecure_hosts `{UrlLib} (hosts : list string) : FetchPolicy * list string :=
  (mkPolicy false false (list_to_set (omap parse_insecure_host_entry hosts)),
   filter (λ entry, parse_insecure_host_entry entry = None) hosts).

Definition with_insecure_hosts `{UrlLib} (hosts : list string) : FetchPolicy :=
  (try_with_insecure_hosts hosts).1.

Definition display_insecure_host_entry (e : insecure_entry) : string :=
  match e.2 with Some port => e.1 +:+ ":" +:+ pretty port | None => e.1 end.

Definition insecure_host_entries (p : FetchPolicy) : list string :=
  sort_by str_leb (map display_insecure_host_entry (elements (insecure_hosts p))).

Definition insecure_host_rejection_hint (entry : string) : string :=
  match (if ambiguous_entry entry then rsplit_once ":" entry else None) with
  | Some (host, port_str) =>
      "'" +:+ entry +:+ "' is ambiguous — it reads as both the whole IPv6 address and `" +:+ host +:+
      "` on port " +:+ port_str +:+ "; use the bracketed form '[" +:+ host +:+ "]:" +:+ port_str +:+ "' instead"
  | None =>
      "'" +:+ entry +:+ "' is not a valid --allow-insecure-host entry — use 'host' or 'host:port' with no scheme, path, whitespace, brackets (unless it's a bracketed IPv6 address), or out-of-range port"
  end.

Definition permits_insecure (p : FetchPolicy) (host : string) (port : Z) : bool :=
  bool_decide ((host, None) ∈ insecure_hosts p) || bool_decide ((host, Some port) ∈ insecure_hosts p).

Definition permits_insecure_host (p : FetchPolicy) (host : string) : bool :=
  existsb (λ e, bool_decide (e.1 = host)) (elements (insecure_hosts p)).

(** * Screening *)
Notation SocketAddr := (IpAddr * Z)%type.

Definition screen_addresses (resolved : list SocketAddr) (allow_private : bool)
    : outcome AuthError (list SocketAddr) :=
  match resolved with
  | [] => Err (FetchBlocked "host resolved to no addresses")
  | _ =>
      if negb allow_private && existsb (λ addr, is_forbidden_ip addr.1) resolved
      then Err (FetchBlocked "target resolves to a forbidden (private/loopback/link-local) IP")
      else Ok resolved
  end.

(** [host.trim_start_matches('[').trim_end_matches(']').parse::<IpAddr>()]. *)
Definition ip_literal (host : string) : option IpAddr :=
  parse_ip (trim_end (Ascii.eqb "]") (trim_start (Ascii.eqb "[") host)).

(** * The network *)

(** A response: its status and how it is displayed, its fields, the length it declares, and its body
    as it arrives, each chunk or the error that ends it. *)
Record Reply : Type := mkReply {
  rp_status : nat;
  rp_status_display : string;
  rp_headers : Headers;
  rp_content_length : option Z;
  rp_chunks : list (string + string)
}.

(** [tokio::net::lookup_host], and [reqwest]: a client is built with a resolver
    of names, and sends a request for a URL. *)
Class Network (W : Type) `{UrlLib} : Type := {
  lookup_host : string → Z → M W string (list SocketAddr);
  client_get : (string → M W string (list SocketAddr)) → Url → string → M W string Reply
}.

(** What is relied on: the addresses contacted are the literal of the URL, or
    were returned by the resolver for its host.  [contacted] is the history of
    connections. *)
Class NetworkLaws (W : Type) `{Network W} : Type := {
  contacted : W → list IpAddr;
  lookup_contacts h p w : contacted (lookup_host h p w).2 = contacted w;
  client_contacts resolve u accept w :
    (∀ name w, contacted (resolve name w).2 = contacted w) →
    ∃ l, contacted (client_get resolve u accept w).2 = contacted w ++ l ∧
         ∀ ip, ip ∈ l → ∃ host, url_host_str u = Some host ∧
           match ip_literal host with
           | Some ip' => ip = ip'
           | None => ∃ w' addrs port, (resolve host w').1 = Ok addrs ∧ (ip, port) ∈ addrs
           end
}.

Definition MAX_BODY_BYTES : Z := 1048576.

(** ** UTF-8 ([core::str::validations]) *)
Fixpoint utf8_valid (s : string) : bool :=
  match s with
  | "" => true
  | String a r =>
      if in_range 0 127 a then utf8_valid r
      else if in_range 194 223 a then
        match r with String b r => is_continuation b && utf8_valid r | "" => false end
      else if in_range 224 239 a then
        match r with
        | String b (String c r) =>
            in_range (if Ascii.eqb a (ascii_of_nat 224) then 160 else 128)
                     (if Ascii.eqb a (ascii_of_nat 237) then 159 else 191) b &&
            is_continuation c && utf8_valid r
        | _ => false
        end
      else if in_range 240 244 a then
        match r with
        | String b (String c (String d r)) =>
            in_range (if Ascii.eqb a (ascii_of_nat 240) then 144 else 128)
                     (if Ascii.eqb a (ascii_of_nat 244) then 143 else 191) b &&
            is_continuation c && is_continuation d && utf8_valid r
        | _ => false
        end
      else false
  end.

(** The loop over the chunks: [buf] is what was read so far. *)
Fixpoint read_body (buf : string) (chunks : list (string + string)) : outcome AuthError string :=
  match chunks with
  | [] => Ok buf
  | inl e :: _ => Err (FetchBlocked ("failed to read body: " +:+ e))
  | inr chunk :: chunks =>
      if Z.ltb MAX_BODY_BYTES (Z.of_nat (String.length buf + String.length chunk))
      then Err (FetchBlocked "response exceeds size cap")
      else read_body (buf +:+ chunk) chunks
  end.

(** What is made of a response. *)
Definition accept_reply `{HeaderText} (r : Reply) : outcome AuthError (string * option string) :=
  if negb (Nat.leb 200 (rp_status r) && Nat.ltb (rp_status r) 300)
  then Err (FetchBlocked ("non-success status: " +:+ rp_status_display r)) else
  let content_type := header_opt (rp_headers r) "content-type" in
  if match rp_content_length r with Some len => Z.ltb MAX_BODY_BYTES len | None => false end
  then Err (FetchBlocked "response exceeds size cap") else
  let? buf := read_body "" (rp_chunks r) in
  if utf8_valid buf then Ok (buf, content_type)
  else Err (FetchBlocked "response was not valid UTF-8").

Section fetch.
Context `{UrlLib} `{HeaderText} {W : Type} `{!Network W}.

Definition resolve_allowed (host : string) (port : Z) (policy : FetchPolicy) : M W AuthError (list SocketAddr) :=
  let! resolved := match ip_literal host with
                   | Some ip => ret [(ip, port)]
                   | None => map_err (λ e, FetchBlocked ("DNS resolution failed: " +:+ e)) (lookup_host host port)
                   end in
  lift (screen_addresses resolved (allow_private_ips policy || permits_insecure policy host port)).

(** [AuthError]'s [Display], of the errors that screening has. *)
Definition show_blocked (e : AuthError) : string :=
  match e with FetchBlocked m => "blocked outbound fetch: " +:+ m | _ => "" end.

(** [PolicyResolver::resolve]: the resolver the client is built with. *)
Definition policy_resolve (policy : FetchPolicy) (name : string) : M W string (list SocketAddr) :=
  let! resolved := lookup_host name 0 in
  let allow_private := allow_private_ips policy || permits_insecure_host policy name in
  lift (omap_err show_blocked (screen_addresses resolved allow_private)).

Definition scheme_allowed (policy : FetchPolicy) (scheme host : string) (port : Z) : bool :=
  if bool_decide (scheme = "https") then true else
  bool_decide (scheme = "http") && (allow_http policy || permits_insecure policy host port).

(** [client] is the client that [GuardedClient::new(client)] built. *)
Definition guarded_get (client : FetchPolicy) (url accept : string) (policy : FetchPolicy)
    : M W AuthError (string * option string) :=
  match url_parse url with
  | inl e => throw (FetchBlocked ("invalid URL: " +:+ e))
  | inr parsed =>
      match url_host_str parsed, url_port_or_known_default parsed with
      | None, _ => throw (FetchBlocked "URL has no host")
      | _, None => throw (FetchBlocked "URL has no port")
      | Some host, Some port =>
          if negb (scheme_allowed policy (url_scheme parsed) host port)
          then throw (FetchBlocked ("refusing non-https scheme: " +:+ url_scheme parsed)) else
          do! resolve_allowed host port policy in
          let! response := map_err (λ e, FetchBlocked ("request failed: " +:+ e))
                             (client_get (policy_resolve client) parsed accept) in
          lift (accept_reply response)
      end
  end.
End fetch.

(** * What a fetch reaches *)
Lemma read_body_bound buf chunks b :
  read_body buf chunks = Ok b → (Z.of_nat (String.length buf) <= MAX_BODY_BYTES)%Z →
  (Z.of_nat (String.length b) <= MAX_BODY_BYTES)%Z.
Proof.
  revert buf. induction chunks as [|[e|c] chunks IH]; intros buf; simpl; [by intros [= <-]|done|].
  destruct (Z.ltb_spec MAX_BODY_BYTES (Z.of_nat (String.length buf + String.length c))); [done|].
  intros Hb _. apply (IH _ Hb). by rewrite length_app_s.
Qed.

Lemma accept_reply_ok `{HeaderText} r body ct :
  accept_reply r = Ok (body, ct) →
  (Z.of_nat (String.length body) <= MAX_BODY_BYTES)%Z ∧ utf8_valid body = true ∧ (200 ≤ rp_status r < 300).
Proof.
  unfold accept_reply. destruct (Nat.leb 200 (rp_status r) && Nat.ltb (rp_status r) 300) eqn:Es; [|done]. simpl.
  apply andb_prop in Es as [E1%Nat.leb_le E2%Nat.ltb_lt]. case_match; [done|].
  destruct (read_body "" (rp_chunks r)) as [b|e|] eqn:Eb; simpl; [|done..]. destruct (utf8_valid b) eqn:Eu; [|done].
  intros [= <- <-]. split_and!; [|done..]. by eapply read_body_bound.
Qed.

Lemma screen_ok resolved p addrs : screen_addresses resolved p = Ok addrs →
  addrs = resolved ∧ (p = true ∨ ∀ a, a ∈ addrs → is_forbidden_ip a.1 = false).
Proof.
  unfold screen_addresses. destruct resolved as [|a0 l]; [done|].
  destruct p; simpl; [intros [= <-]; by auto|].
  destruct (is_forbidden_ip a0.1 || existsb (λ a, is_forbidden_ip a.1) l) eqn:E; [done|]. intros [= <-].
  split; [done|]. right. intros a Ha. apply not_true_iff_false. intros Hf.
  assert (existsb (λ a, is_forbidden_ip a.1) (a0 :: l) = true) as Hx.
  { apply existsb_exists. exists a. split; [by apply list_elem_of_In|done]. }
  simpl in Hx. congruence.
Qed.

Section reach.
Context `{UrlLib} `{HeaderText} {W : Type} `{NetworkLaws W}.

Lemma policy_resolve_contacts p name w : contacted (policy_resolve p name w).2 = contacted w.
Proof.
  unfold policy_resolve, bind. pose proof (lookup_contacts name 0 w) as Hl.
  by destruct (lookup_host name 0 w) as [[a|e|] w'].
Qed.

Lemma policy_resolve_screens p name w addrs a :
  (policy_resolve p name w).1 = Ok addrs → a ∈ addrs →
  is_forbidden_ip a.1 = false ∨ allow_private_ips p = true ∨ permits_insecure_host p name = true.
Proof.
  unfold policy_resolve, bind. destruct (lookup_host name 0 w) as [[r|e|] w']; cbn; [|done..].
  destruct (screen_addresses r _) as [addrs'|e|] eqn:Es; cbn; [|done..]. intros [= <-] Ha.
  apply screen_ok in Es as [-> [Hp|Hs]]; [right; by apply orb_prop|left; by apply Hs].
Qed.

Lemma resolve_allowed_contacts host port p w : contacted (resolve_allowed host port p w).2 = contacted w.
Proof.
  unfold resolve_allowed, bind, map_err. destruct (ip_literal host); [done|].
  pose proof (lookup_contacts host port w) as Hl. by destruct (lookup_host host port w) as [[a|e|] w'].
Qed.

Lemma resolve_allowed_literal host port p w addrs ip :
  (resolve_allowed host port p w).1 = Ok addrs → ip_literal host = Some ip →
  is_forbidden_ip ip = false ∨ allow_private_ips p = true ∨ permits_insecure p host port = true.
Proof.
  unfold resolve_allowed, bind. intros Hr Hi. rewrite Hi in Hr.
  change (screen_addresses [(ip, port)] (allow_private_ips p || permits_insecure p host port) = Ok addrs) in Hr.
  apply screen_ok in Hr as [-> [Hp|Hs]]; [right; by apply orb_prop|left; apply (Hs (ip, port)); by left].
Qed.

(** What a policy lets a fetch of [u] connect to. *)
Definition reachable (p : FetchPolicy) (u : Url) (ip : IpAddr) : Prop :=
  ∃ host port, url_host_str u = Some host ∧ url_port_or_known_default u = Some port ∧
    scheme_allowed p (url_scheme u) host port = true ∧
    (is_forbidden_ip ip = false ∨ allow_private_ips p = true ∨
     match ip_literal host with
     | Some _ => permits_insecure p host port = true
     | None => permits_insecure_host p host = true
     end).

End reach.

(** * A toy internet

    URLs are a scheme, a host, an optional port and a path; the DNS gives its
    answers one after the other; a client connects to the first address it is
    given. *)
Record ToyUrl : Type := mkToyUrl { tu_scheme : string; tu_host : string; tu_port : Z; tu_path : string }.

Definition toy_authority (scheme : string) (default_port : Z) (rest : string) : string + ToyUrl :=
  let '(authority, path) := match split_once "/" rest with Some (a, p) => (a, "/" +:+ p) | None => (rest, "/") end in
  match rsplit_once ":" authority with
  | Some (host, port) =>
      match parse_u16 port with
      | Some n => inr (mkToyUrl scheme host n path)
      | None => inl "invalid port number"
      end
  | None => inr (mkToyUrl scheme authority default_port path)
  end.

Definition toy_url_parse (s : string) : string + ToyUrl :=
  match strip_prefix "https://" s, strip_prefix "http://" s with
  | Some rest, _ => toy_authority "https" 443 rest
  | None, Some rest => toy_authority "http" 80 rest
  | None, None => inl "relative URL without a base"
  end.

Definition toy_urls : UrlLib := {|
  Url := ToyUrl;
  url_parse := toy_url_parse;
  url_scheme := tu_scheme;
  url_host_str u := Some (tu_host u);
  url_port_or_known_default u := Some (tu_port u);
  url_path := tu_path;
  url_username _ := "";
  url_password _ := None;
  url_query _ := None;
  url_fragment _ := None
|}.

Record ToyNet : Type := mkToyNet {
  tn_dns : list (list SocketAddr);
  tn_log : list IpAddr;
  tn_reply : string → Reply
}.

Section toy_net.
#[local] Existing Instance toy_urls.

Section shared.
Context {W : Type} `{!Holds W ToyNet}.

Definition on_net {A} (f : ToyNet → outcome string A * ToyNet) : M W string A := λ w,
  let (o, n) := f (get_part w) in (o, set_part n w).

Definition toy_connect (u : Url) (addrs : list SocketAddr) : M W string Reply :=
  match addrs with
  | [] => throw "no address"
  | a :: _ => on_net (λ n, (Ok (tn_reply n (tu_host u +:+ tu_path u)), mkToyNet (tn_dns n) (tn_log n ++ [a.1]) (tn_reply n)))
  end.

#[export] Instance toy_network : Network W := {|
  lookup_host _ _ := on_net (λ n, (Ok (default [] (head (tn_dns n))), mkToyNet (tail (tn_dns n)) (tn_log n) (tn_reply n)));
  client_get resolve u _ :=
    match ip_literal (tu_host u) with
    | Some ip => toy_connect u [(ip, tu_port u)]
    | None => let! addrs := resolve (tu_host u) in toy_connect u addrs
    end
|}.

#[export] Instance toy_network_laws : NetworkLaws W.
Proof.
  refine {| contacted w := tn_log (get_part w) |}.
  { intros h p w. cbn. by rewrite get_set_part. }
  intros resolve u accept w Hr.
  unfold client_get, toy_network. destruct (ip_literal (tu_host u)) as [ip|] eqn:Ei.
  - exists [ip]. cbn. rewrite get_set_part. split; [done|]. intros ip' ->%list_elem_of_singleton. exists (tu_host u). by rewrite Ei.
  - unfold bind. pose proof (Hr (tu_host u) w) as Hl.
    destruct (resolve (tu_host u) w) as [[[|a addrs]|e|] w'] eqn:Er; cbn in *;
      try (exists []; rewrite app_nil_r; split; [done|]; by intros ? ?%elem_of_nil).
    exists [a.1]. rewrite get_set_part. cbn. rewrite Hl. split; [done|].
    intros ip' ->%list_elem_of_singleton. exists (tu_host u). rewrite Ei.
    split; [done|]. exists w, (a :: addrs), a.2. rewrite Er. split; [done|]. rewrite <- surjective_pairing. by left.
Defined.
End shared.

#[export] Instance net_alone : Holds ToyNet ToyNet :=
  {| get_part w := w; set_part n _ := n; get_set_part _ _ := eq_refl |}.

Definition toy_text_headers : HeaderText := Some.
#[local] Existing Instance toy_text_headers.

Definition public_ip : IpAddr := V4 (mkV4 93 184 216 34).
Definition private_ip : IpAddr := V4 (mkV4 10 0 0 1).

Definition toy_internet (dns : list (list IpAddr)) : ToyNet :=
  mkToyNet (map (map (λ ip, (ip, 0%Z))) dns) [] (λ _, mkReply 200 "200 OK" [] None [inr "hello"]).


(** The operator named one port of a host; the same name on another port is
    reached at a private address when its answer changes between the check and
    the connection. *)
Lemma named_port_rebinding :
  let policy := mkPolicy false false {[("idp.example", Some 8443%Z)]} in
  let r := guarded_get policy "https://idp.example/" "text/turtle" policy
             (toy_internet [[public_ip]; [private_ip]]) in
  permits_insecure policy "idp.example" 443 = false ∧ r.1 = Ok ("hello", None) ∧ tn_log r.2 = [private_ip].
Proof. vm_compute. done. Qed.
End toy_net.
