(* ===== verification/Jose.v ===== *)
(** What the authentication code uses of other libraries: JSON values,
    base64url, SHA-256, JSON Web Keys and signatures, the DPoP verifier. *)
From S2P Require Import Prelude Str Rdf Fetch.
Open Scope list_scope.

(** [serde_json::Value]; of a number, what [as_i64] says of it. *)
Inductive Value : Type :=
| VNull
| VBool (b : bool)
| VNumber (n : option Z)
| VString (s : string)
| VArray (l : list Value)
| VObject (m : list (string * Value)).

Definition v_get (name : string) (v : Value) : option Value :=
  match v with
  | VObject m => snd <$> head (filter (λ x, x.1 = name) m)
  | _ => None
  end.
Definition as_str (v : Value) : option string := match v with VString s => Some s | _ => None end.
Definition as_i64 (v : Value) : option Z := match v with VNumber n => n | _ => None end.
Definition as_object (v : Value) : option (list (string * Value)) := match v with VObject m => Some m | _ => None end.

(** [v.get(name).and_then(Value::as_str)]. *)
Definition get_str (name : string) (v : Value) : option string := v_get name v ≫= as_str.
Definition get_i64 (name : string) (v : Value) : option Z := v_get name v ≫= as_i64.

Class Encodings : Type := {
  b64_decode : string → option string;
  b64_encode : string → string;
  json_parse : string → option Value;
  (** A map of strings as JSON text. *)
  json_strings : list (string * string) → string;
  sha256_digest : string → string
}.

(** [josekit]: a verifier is built from a key; a token is decoded with one. *)
Class Jose : Type := {
  Jwk : Type;
  jwk_from_map : list (string * Value) → option Jwk;
  jwks_from_value : Value → option (list Jwk);
  jwk_key_id : Jwk → option string;
  jwk_key_use : Jwk → option string;
  jwk_is_for_key_operation : Jwk → string → bool;
  jwk_key_type : Jwk → string;
  jwk_curve : Jwk → option string;
  Verifier : Type;
  rs256_verifier : Jwk → option Verifier;
  es256_verifier : Jwk → option Verifier;
  jws_verify : Verifier → string → string → bool;
  JwtPayload : Type;
  decode_with_verifier : string → Verifier → option JwtPayload;
  payload_claim : JwtPayload → string → option Value;
  payload_issuer : JwtPayload → option string
}.

(** [dpop_verifier::VerifiedDpop]. *)
Record VerifiedDpop : Type := mkVerified { v_jkt : string; v_jti : string; v_iat : Z }.

(** [dpop_verifier]: its normalizers, and [DpopVerifier::verify] with the given
    freshness window and replay store. *)
Class DpopLib (W : Type) : Type := {
  normalize_method : string → string + string;
  normalize_htu : string → string + string;
  crate_verify : Z → Z → (string → bool) → string → string → string → M W string VerifiedDpop
}.

(** [split('.')] into the three segments of a compact JWS. *)
Definition segments (token : string) : option (string * string * string) :=
  match split_char "." token with
  | [h; p; s] => Some (h, p, s)
  | _ => None
  end.

(** * Toy libraries

    Base64 spells a point as an underscore; a JSON text is [k=v&k=v], a value
    is a string, a number after [#], or an object of one member after [{]. *)
Definition toy_value (s : string) : Value :=
  match strip_prefix "#" s, strip_prefix "{" s with
  | Some n, _ => VNumber (Some (digits_value 0 n))
  | None, Some m => match split_once ":" m with Some (k, v) => VObject [(k, VString v)] | None => VNull end
  | None, None => VString s
  end.

Definition toy_json (s : string) : option Value :=
  Some (VObject (omap (λ kv, '(k, v) ← split_once "=" kv; Some (k, toy_value v)) (split_char "&" s))).

Definition toy_encodings : Encodings := {|
  b64_decode s := Some (map_chars (λ c, if Ascii.eqb c "_" then "."%char else c) s);
  b64_encode s := s;
  json_parse := toy_json;
  json_strings m := foldr (λ kv s, kv.1 +:+ kv.2 +:+ s) "" m;
  sha256_digest s := s
|}.

(** A key is its name, and a signature the name of the key. *)
Record ToyKey : Type := mkToyKey { tk_id : string }.

Definition toy_decode `{Encodings} (token : string) (k : ToyKey) : option Value :=
  match segments token with
  | Some (_, p, s) => if bool_decide (s = tk_id k) then b64_decode p ≫= json_parse else None
  | None => None
  end.

Definition toy_jose : Jose := {|
  Jwk := ToyKey;
  jwk_from_map m := None;
  jwks_from_value v := (λ s, [mkToyKey s]) <$> as_str v;
  jwk_key_id k := Some (tk_id k);
  jwk_key_use _ := None;
  jwk_is_for_key_operation _ _ := true;
  jwk_key_type _ := "RSA";
  jwk_curve _ := None;
  Verifier := ToyKey;
  rs256_verifier := Some;
  es256_verifier _ := None;
  jws_verify k _ s := bool_decide (s = tk_id k);
  JwtPayload := Value;
  decode_with_verifier := @toy_decode toy_encodings;
  payload_claim p name := v_get name p;
  payload_issuer p := get_str "iss" p
|}.
