(* ===== verification/Cache.v ===== *)
(** The caches in front of the issuers ([auth/cache.rs], [auth/http_jwks.rs],
    [auth/webid_issuer.rs], [auth/jwks.rs]).

    An instant is a number of seconds on the monotonic clock.  The iteration
    order of a hash map is a parameter. *)
From S2P Require Import Prelude Str Terms Rdf Dataset Http Ip Fetch Jose.
Open Scope list_scope.

Notation Instant := Z (only parsing).

(** [HashMap::iter]. *)
Class HashIter : Type := {
  hash_iter : ∀ {V : Type}, gmap string V → list (string * V);
  hash_iter_perm : ∀ {V : Type} (m : gmap string V), hash_iter m ≡ₚ map_to_list m
}.

(** [Instant::now()]. *)
Class Clock (W : Type) : Type := instant_now : ∀ {E : Type}, M W E Instant.

(** [at.elapsed()]. *)
Definition elapsed (now at_ : Instant) : Z := Z.max 0 (now - at_).

Definition MAX_CACHE_ENTRIES : nat := 1024.

(** [Iterator::min_by_key]: the first of the least. *)
Fixpoint min_by_key {A : Type} (key : A → Z) (l : list A) : option A :=
  match l with
  | [] => None
  | x :: l =>
      match min_by_key key l with
      | Some y => if Z.leb (key x) (key y) then Some x else Some y
      | None => Some x
      end
  end.

Section cache.
Context `{HashIter} {V : Type} (stamp : V → Instant) (ttl : Z).

Definition live (now : Instant) (x : string * V) : Prop := (elapsed now (stamp x.2) < ttl)%Z.

#[export] Instance live_dec now x : Decision (live now x).
Proof. unfold live. apply _. Defined.

(** Room for one more: the expired go first, then the oldest. *)
Definition make_room (now : Instant) (m : gmap string V) : gmap string V :=
  let m := filter (live now) m in
  if Nat.leb MAX_CACHE_ENTRIES (size m) then
    match min_by_key (λ x, stamp x.2) (hash_iter m) with
    | Some oldest => delete oldest.1 m
    | None => m
    end
  else m.

Definition insert_bounded (now : Instant) (m : gmap string V) (key : string) (value : V) : gmap string V :=
  let m := if Nat.leb MAX_CACHE_ENTRIES (size m) && negb (is_some (m !! key)) then make_room now m else m in
  <[key := value]> m.

Lemma min_by_key_None {A} (key : A → Z) l : min_by_key key l = None ↔ l = [].
Proof. destruct l as [|x l]; simpl; [done|]. split; [|done]. by destruct (min_by_key key l); [case_match|]. Qed.

Lemma min_by_key_Some {A} (key : A → Z) l x : min_by_key key l = Some x →
  x ∈ l ∧ ∀ y, y ∈ l → (key x <= key y)%Z.
Proof.
  revert x. induction l as [|a l IH]; intros x; simpl; [done|].
  destruct (min_by_key key l) as [b|] eqn:E.
  - destruct (IH b eq_refl) as [Hb Hmin]. destruct (Z.leb_spec (key a) (key b)); intros [= <-].
    + split; [by left|]. intros y [->|Hy]%elem_of_cons; [lia|]. specialize (Hmin y Hy). lia.
    + split; [by right|]. intros y [->|Hy]%elem_of_cons; [lia|]. by apply Hmin.
  - apply min_by_key_None in E as ->. intros [= <-]. split; [by left|]. intros y ->%list_elem_of_singleton. lia.
Qed.

Lemma hash_iter_elem (m : gmap string V) k v : (k, v) ∈ hash_iter m ↔ m !! k = Some v.
Proof. by rewrite hash_iter_perm, elem_of_map_to_list. Qed.

(** What making room costs: entries that had expired; and when there were
    none, so that the cache was full of live entries, the one fetched least
    recently. *)
Lemma make_room_spec now m :
  (size m ≤ MAX_CACHE_ENTRIES)%nat →
  (size (make_room now m) < MAX_CACHE_ENTRIES)%nat ∧ make_room now m ⊆ m ∧
  ∀ k v, m !! k = Some v → make_room now m !! k = None →
    ¬ live now (k, v) ∨
    (map_Forall (λ k v, live now (k, v)) m ∧ ∀ k' v', m !! k' = Some v' → (stamp v <= stamp v')%Z).
Proof.
  intros Hm. unfold make_room. set (m' := filter (live now) m).
  assert (m' ⊆ m) as Hsub by apply map_filter_subseteq.
  pose proof (map_subseteq_size _ _ Hsub) as Hsz.
  assert (∀ k v, m !! k = Some v → m' !! k = None → ¬ live now (k, v)) as Hdead.
  { intros k v Hk Hn Hl. unfold m' in Hn. apply map_lookup_filter_None in Hn as [Hn|Hn]; [congruence|]. by apply (Hn v). }
  destruct (Nat.leb_spec MAX_CACHE_ENTRIES (size m')) as [Hfull|Hroom].
  2:{ split_and!; [lia|done|]. intros k v Hk Hn. left. by apply (Hdead k v). }
  assert (m' = m) as Em.
  { apply map_subseteq_size_eq; [done|]. lia. }
  destruct (min_by_key (λ x, stamp x.2) (hash_iter m')) as [[k0 v0]|] eqn:Eo.
  - apply min_by_key_Some in Eo as [Hin Hmin]. apply hash_iter_elem in Hin. cbn [fst].
    split_and!.
    + rewrite map_size_delete_Some by eauto. assert (0 < MAX_CACHE_ENTRIES)%nat by (unfold MAX_CACHE_ENTRIES; lia). lia.
    + etrans; [apply delete_subseteq|done].
    + intros k v Hk Hn. right. rewrite Em in *. split.
      * intros k' v' Hk'. unfold m' in Em. rewrite <- Em in Hk'. by apply map_lookup_filter_Some in Hk' as [_ ?].
      * intros k' v' Hk'. apply lookup_delete_None in Hn as [->|Hn]; [|congruence].
        assert (v0 = v) as -> by congruence. apply (Hmin (k', v')). by apply hash_iter_elem.
  - apply min_by_key_None in Eo. exfalso. pose proof (hash_iter_perm m') as Hp. rewrite Eo in Hp.
    apply Permutation_nil in Hp. apply map_to_list_empty_iff in Hp. rewrite Hp, map_size_empty in Hfull.
    unfold MAX_CACHE_ENTRIES in Hfull. lia.
Qed.

Lemma make_room_subseteq now m : make_room now m ⊆ m.
Proof.
  unfold make_room. assert (filter (live now) m ⊆ m) as Hs by apply map_filter_subseteq.
  destruct (Nat.leb _ _); [|done]. destruct (min_by_key _ _); [|done]. etrans; [apply delete_subseteq|done].
Qed.

(** What an insertion can add is the new entry. *)
Lemma insert_bounded_sound now m key value : (size m <= MAX_CACHE_ENTRIES)%nat →
  (size (insert_bounded now m key value) <= MAX_CACHE_ENTRIES)%nat ∧
  ∀ k v, insert_bounded now m key value !! k = Some v → (k = key ∧ v = value) ∨ m !! k = Some v.
Proof.
  intros Hm. unfold insert_bounded.
  destruct (Nat.leb_spec MAX_CACHE_ENTRIES (size m)) as [Hfull|Hroom], (m !! key) as [v0|] eqn:Ek; simpl.
  2:{ pose proof (make_room_spec now m Hm) as [Hs _]. split.
      - rewrite map_size_insert. destruct (make_room now m !! key); unfold id; lia.
      - intros k v [[<- <-]|[_ Hk]]%lookup_insert_Some; [by left|]. right.
        by eapply lookup_weaken; [|apply make_room_subseteq]. }
  all: split; [rewrite map_size_insert, Ek; unfold id; lia|];
    intros k v [[<- <-]|[_ Hk]]%lookup_insert_Some; [by left|by right].
Qed.

(** C37: a cache keyed by what a caller writes stays bounded.  Inserting keeps at
    most [MAX_CACHE_ENTRIES] entries, holds the new value, changes no other
    value, and drops another entry only when the key is new and the cache
    full: an expired one, or, when all of them are live, one fetched least
    recently. *)
Theorem insert_bounded_spec (now : Instant) (m : gmap string V) (key : string) (value : V)
    (Hm : (size m <= MAX_CACHE_ENTRIES)%nat) :
  let m' := insert_bounded now m key value in
  (size m' <= MAX_CACHE_ENTRIES)%nat ∧ m' !! key = Some value ∧
  ∀ k v, k ≠ key → m !! k = Some v →
    m' !! k = Some v ∨
    (m' !! k = None ∧ m !! key = None ∧ size m = MAX_CACHE_ENTRIES ∧
     (¬ live now (k, v) ∨
      (map_Forall (λ k v, live now (k, v)) m ∧ ∀ k' v', m !! k' = Some v' → (stamp v <= stamp v')%Z))).
Proof.
  intros m'. unfold m', insert_bounded. clear m'.
  destruct (Nat.leb_spec MAX_CACHE_ENTRIES (size m)) as [Hfull|Hroom]; simpl.
  2:{ split_and!; [|by rewrite lookup_insert_eq|intros k v Hk Hv; left; by rewrite lookup_insert_ne].
      rewrite map_size_insert. destruct (m !! key); unfold id; lia. }
  destruct (m !! key) as [v0|] eqn:Ek; simpl.
  { split_and!; [|by rewrite lookup_insert_eq|intros k v Hk Hv; left; by rewrite lookup_insert_ne].
    rewrite map_size_insert, Ek. done. }
  destruct (make_room_spec now m Hm) as (Hs & Hsub & Hgone). split_and!.
  - rewrite map_size_insert. destruct (make_room now m !! key); unfold id; lia.
  - by rewrite lookup_insert_eq.
  - intros k v Hk Hv. rewrite lookup_insert_ne by done.
    destruct (make_room now m !! k) as [v'|] eqn:Er.
    + left. rewrite map_subseteq_spec in Hsub. apply Hsub in Er. congruence.
    + right. split_and!; [done..|lia|]. by apply Hgone.
Qed.
End cache.

(** A cache of one live entry takes another. *)
Definition toy_iteration : HashIter := {|
  hash_iter V m := map_to_list m;
  hash_iter_perm V m := Permutation_refl _
|}.

Lemma insert_bounded_spec_witness :
  let m := insert_bounded (H:=toy_iteration) id 300 10 {["a" := 5%Z]} "b" 10%Z in
  (size m <= MAX_CACHE_ENTRIES)%nat ∧ m !! "b" = Some 10%Z ∧ m !! "a" = Some 5%Z.
Proof.
  destruct (insert_bounded_spec (H:=toy_iteration) id 300 10 {["a" := 5%Z]} "b" 10%Z) as (Hs & Hb & _).
  - rewrite map_size_singleton. unfold MAX_CACHE_ENTRIES. lia.
  - split; [exact Hs|]. split; [exact Hb|]. vm_compute. reflexivity.
Defined.

(** What was fetched, and when; what failed, and when. *)
Record Caches (V : Type) : Type := mkCaches {
  positive : gmap string (V * Instant);
  negative : gmap string Instant
}.
Arguments mkCaches {V} _ _.
Arguments positive {V} _.
Arguments negative {V} _.
