(* ===== verification/Issuers.v ===== *)
(** Who may vouch for a caller: the keys an issuer publishes
    ([auth/jwks.rs], [auth/http_jwks.rs]) and the issuers a WebID declares
    ([auth/webid_issuer.rs]), both behind bounded caches. *)
From S2P Require Import Prelude Str Terms Rdf Dataset Shapes Http Ip Fetch Jose Cache.
Open Scope list_scope.

(** * Interfaces *)

(** [trait JwksResolver]. *)
Class JwksResolver (W : Type) `{Jose} : Type :=
  resolve_jwks : string → M W AuthError (list Jwk).

(** [trait WebIdIssuerVerifier]. *)
Class WebIdIssuerVerifier (W : Type) : Type :=
  authorizes : string → string → M W AuthError bool.

Definition issuer_matches (a b : string) : bool :=
  bool_decide (trim_end (Ascii.eqb "/") a = trim_end (Ascii.eqb "/") b).

(** [StaticJwksResolver], [StaticWebIdIssuers]. *)
Definition static_resolve {W} `{Jose} (keys : gmap string (list Jwk)) (issuer : string) : M W AuthError (list Jwk) :=
  lift (ok_or UnknownIssuer (keys !! issuer)).

Definition static_authorizes {W} (issuers : gmap string (list string)) (webid issuer : string) : M W AuthError bool :=
  ret (match issuers !! webid with
       | Some l => existsb (λ i, issuer_matches i issuer) l
       | None => false
       end).

(** * Caches *)
Section caches.
Context `{HashIter} {V W : Type} `{!Clock W} `{!Holds W (Caches V)}.

(** The value of an entry younger than [ttl]. *)
Definition read_cache {E} (ttl : Z) (key : string) : M W E (option V) := λ w,
  match positive (get_part w) !! key with
  | Some (v, fetched_at) =>
      (let! now := instant_now in ret (if Z.ltb (elapsed now fetched_at) ttl then Some v else None)) w
  | None => (Ok None, w)
  end.

Definition recently_failed {E} (ttl : Z) (key : string) : M W E bool := λ w,
  match negative (get_part w) !! key with
  | Some failed_at => (let! now := instant_now in ret (Z.ltb (elapsed now failed_at) ttl)) w
  | None => (Ok false, w)
  end.

Definition on_caches {E} (f : Caches V → Caches V) : M W E unit := λ w,
  (Ok tt, set_part (f (get_part w)) w).

(** A success: cached, and no longer a failure. *)
Definition remember {E} (ttl : Z) (key : string) (v : V) : M W E unit :=
  let! at_ := instant_now in
  let! now := instant_now in
  do! on_caches (λ c, mkCaches (insert_bounded snd ttl now (positive c) key (v, at_)) (negative c)) in
  on_caches (λ c, mkCaches (positive c) (delete key (negative c))).

Definition remember_failure {E} (ttl : Z) (key : string) : M W E unit :=
  let! at_ := instant_now in
  let! now := instant_now in
  on_caches (λ c, mkCaches (positive c) (insert_bounded id ttl now (negative c) key at_)).
End caches.

(** * The keys of an issuer *)
Definition JWKS_CACHE_TTL : Z := 300.
Definition JWKS_NEGATIVE_CACHE_TTL : Z := 30.

Section jwks.
Context `{UrlLib} `{HeaderText} `{Encodings} `{Jose} `{HashIter}.
Context {W : Type} `{!Network W} `{!Clock W} `{!Holds W (Caches (list Jwk))}.
Context (client policy : FetchPolicy).

Definition discovery_url (issuer : string) : string :=
  if ends_with "/" issuer then issuer +:+ ".well-known/openid-configuration"
  else issuer +:+ "/.well-known/openid-configuration".

Definition unknown {A} (o : option A) : M W AuthError A := lift (ok_or UnknownIssuer o).

Definition fetch_jwks (issuer : string) : M W AuthError (list Jwk) :=
  let! (discovery_body, _) :=
    map_err (λ _, UnknownIssuer) (guarded_get client (discovery_url issuer) "application/json" policy) in
  let! discovery := unknown (json_parse discovery_body) in
  let! jwks_uri := unknown (get_str "jwks_uri" discovery) in
  let! (jwks_body, _) := map_err (λ _, UnknownIssuer) (guarded_get client jwks_uri "application/json" policy) in
  let! jwks_doc := unknown (json_parse jwks_body) in
  let! keys_value := unknown (v_get "keys" jwks_doc) in
  unknown (jwks_from_value keys_value).

Definition http_resolve (issuer : string) : M W AuthError (list Jwk) :=
  let! hit := read_cache JWKS_CACHE_TTL issuer in
  match hit with
  | Some jwks => ret jwks
  | None =>
      let! failed := recently_failed JWKS_NEGATIVE_CACHE_TTL issuer in
      if failed : bool then throw UnknownIssuer else
      let! fetched := attempt (fetch_jwks issuer) in
      match fetched with
      | inr jwks => do! remember JWKS_CACHE_TTL issuer jwks in ret jwks
      | inl e => do! remember_failure JWKS_NEGATIVE_CACHE_TTL issuer in throw e
      end
  end.
End jwks.

(** * The issuers of a WebID *)
Definition SOLID_OIDC_ISSUER : string := "http://www.w3.org/ns/solid/terms#oidcIssuer".
Definition WEBID_CACHE_TTL : Z := 120.
Definition WEBID_NEGATIVE_CACHE_TTL : Z := 30.

Section webid.
Context `{UrlLib} `{HeaderText} `{HashIter} `{BlankSyntax} `{RdfLib}.
Context {W : Type} `{!Network W} `{!Clock W} `{!Holds W (Caches (list string))}.
Context (client policy : FetchPolicy).

(** The objects of the profile's [solid:oidcIssuer] triples about the WebID. *)
Definition declared_issuers (webid : string) (d : Dataset) : list string :=
  omap (λ q, if bool_decide (q_subject q = SNamed webid) && bool_decide (q_predicate q = SOLID_OIDC_ISSUER)
             then match q_object q with TNamed n => Some n | _ => None end
             else None) d.

Definition fetch_issuers (webid : string) : M W AuthError (list string) :=
  let doc_url := default webid (head (split_char "#" webid)) in
  let! (body, content_type) := guarded_get client doc_url "text/turtle, application/ld+json;q=0.9" policy in
  let fmt := default turtle (content_type ≫= from_content_type) in
  let! dataset := lift (omap_err (λ e, FetchBlocked ("invalid profile document: " +:+ show_rdf_error e))
                          (parse fmt body doc_url Rdf12)) in
  ret (declared_issuers webid dataset).

Definition http_authorizes (webid issuer : string) : M W AuthError bool :=
  let! hit := read_cache WEBID_CACHE_TTL webid in
  match hit with
  | Some issuers => ret (existsb (λ i, issuer_matches i issuer) issuers)
  | None =>
      let! failed := recently_failed WEBID_NEGATIVE_CACHE_TTL webid in
      if failed : bool then throw (FetchBlocked "webid profile document recently failed to resolve") else
      let! fetched := attempt (fetch_issuers webid) in
      match fetched with
      | inr issuers =>
          do! remember WEBID_CACHE_TTL webid issuers in
          ret (existsb (λ i, issuer_matches i issuer) issuers)
      | inl e => do! remember_failure WEBID_NEGATIVE_CACHE_TTL webid in throw e
      end
  end.
End webid.

(** * What the caches hold *)

(** The outside world, and the requests that run between two calls of this
    one, keep [P]. *)
Class OutsideKeeps {W : Type} `{Network W} `{!Clock W} (P : W → Prop) : Prop := {
  outside_lookup h p : keeps P (lookup_host h p) (λ _, True);
  outside_get resolve u accept :
    (∀ name, keeps P (resolve name) (λ _, True)) → keeps P (client_get resolve u accept) (λ _, True);
  outside_clock {E} : keeps P (instant_now (E:=E)) (λ _, True)
}.

Section kept.
Context `{UrlLib} `{HeaderText} `{HashIter} {W : Type} `{!Network W} `{!Clock W}.

Lemma kept_guarded_get (P : W → Prop) `{!OutsideKeeps P} client url accept policy :
  keeps P (guarded_get client url accept policy) (λ _, True).
Proof.
  unfold guarded_get. destruct (url_parse url) as [e|u]; [by keeps_step|].
  destruct (url_host_str u) as [host|]; [|by keeps_step].
  destruct (url_port_or_known_default u) as [port|]; [|by keeps_step].
  destruct (negb _); [by keeps_step|].
  keeps_step.
  { unfold resolve_allowed. keeps_step; [destruct (ip_literal host); keeps_step; apply outside_lookup|by keeps_step]. }
  keeps_step; [|by keeps_step]. keeps_step. apply outside_get. intros name.
  unfold policy_resolve. keeps_step; [apply outside_lookup|by keeps_step].
Qed.

Section bounded.
Context {V : Type} `{!Holds W (Caches V)} (I : W → Prop) (Q : string → V → Prop).

(** Both maps are bounded, and what is cached of a key is [Q] of it; the rest
    of the world satisfies [I]. *)
Definition caches_ok (w : W) : Prop :=
  let c := get_part w in
  I w ∧
  (size (positive c) <= MAX_CACHE_ENTRIES)%nat ∧ (size (negative c) <= MAX_CACHE_ENTRIES)%nat ∧
  ∀ key v at_, positive c !! key = Some (v, at_) → Q key v.

Context (HI : ∀ c w, I w → I (set_part (S:=Caches V) c w)) `{!OutsideKeeps caches_ok}.

Lemma kept_read_cache {E} ttl key :
  keeps caches_ok (read_cache (E:=E) ttl key) (λ o, ∀ v, o = Some v → Q key v).
Proof.
  intros w Hw. unfold read_cache. destruct (positive (get_part w) !! key) as [[v at_]|] eqn:Ek; [|by split; [|intros ? [= <-]]].
  apply (keeps_bind caches_ok _ _ (λ _, True)); [apply outside_clock| |done].
  intros now _. apply keeps_ret. intros v'. case_match; [|done]. intros [= <-]. by apply (proj2 (proj2 (proj2 Hw)) key v at_).
Qed.

Lemma kept_recently_failed {E} ttl key : keeps caches_ok (recently_failed (E:=E) (V:=V) ttl key) (λ _, True).
Proof.
  intros w Hw. unfold recently_failed. destruct (negative (get_part w) !! key); [|done].
  by apply (keeps_bind caches_ok _ _ (λ _, True)); [apply outside_clock|intros; keeps_step|].
Qed.

Lemma kept_insert_positive {E} ttl key v at_ now : Q key v →
  keeps caches_ok (on_caches (E:=E) (λ c, mkCaches (insert_bounded snd ttl now (positive c) key (v, at_)) (negative c)))
    (λ _, True).
Proof.
  intros HQ w (Hi & Hp & Hn & Hc). split; [|done]. unfold on_caches, caches_ok. cbn. rewrite get_set_part. cbn. split; [by apply HI|].
  destruct (insert_bounded_sound snd ttl now (positive (get_part w)) key (v, at_) Hp) as [Hs Hl].
  split_and!; [done..|]. intros k v' a Hk. destruct (Hl k (v', a) Hk) as [[-> [= -> ->]]|Hold]; [done|by eapply Hc].
Qed.

Lemma kept_insert_negative {E} ttl key at_ now :
  keeps caches_ok (on_caches (E:=E) (λ c, mkCaches (V:=V) (positive c) (insert_bounded id ttl now (negative c) key at_)))
    (λ _, True).
Proof.
  intros w (Hi & Hp & Hn & Hc). split; [|done]. unfold on_caches, caches_ok. cbn. rewrite get_set_part. cbn. split; [by apply HI|].
  by destruct (insert_bounded_sound id ttl now (negative (get_part w)) key at_ Hn) as [Hs _].
Qed.

Lemma kept_delete_negative {E} key :
  keeps caches_ok (on_caches (E:=E) (λ c, mkCaches (V:=V) (positive c) (delete key (negative c)))) (λ _, True).
Proof.
  intros w (Hi & Hp & Hn & Hc). split; [|done]. unfold on_caches, caches_ok. cbn. rewrite get_set_part. cbn. split; [by apply HI|].
  split_and!; [done| |done]. etrans; [apply map_subseteq_size, delete_subseteq|done].
Qed.

Lemma kept_remember {E} ttl key v : Q key v → keeps caches_ok (remember (E:=E) ttl key v) (λ _, True).
Proof.
  intros HQ. unfold remember. keeps_step; [apply outside_clock|]. keeps_step; [apply outside_clock|].
  keeps_step; [by apply kept_insert_positive|]. apply kept_delete_negative.
Qed.

Lemma kept_remember_failure {E} ttl key : keeps caches_ok (remember_failure (E:=E) (V:=V) ttl key) (λ _, True).
Proof.
  unfold remember_failure. keeps_step; [apply outside_clock|]. keeps_step; [apply outside_clock|].
  apply kept_insert_negative.
Qed.
End bounded.
End kept.

(** * What the verifiers answer *)
Section answers.
Context `{UrlLib} `{HeaderText} `{Encodings} `{Jose} `{HashIter} `{BlankSyntax} `{RdfLib}.
Context {W : Type} `{!Network W} `{!Clock W} `{!Holds W (Caches (list Jwk))} `{!Holds W (Caches (list string))}.
Context (client policy : FetchPolicy).

(** The web: [serves url body content_type] when a fetch of [url] may be
    answered so, in the worlds of [I]. *)
Context (I : W → Prop) (serves : string → string → option string → Prop).

Definition web_answers (P : W → Prop) : Prop :=
  ∀ url accept, keeps P (guarded_get client url accept policy) (λ x, serves url x.1 x.2).

(** The key set named by the issuer's discovery document. *)
Definition published (issuer : string) (keys : list Jwk) : Prop :=
  ∃ body1 type1 discovery jwks_uri body2 type2 jwks_doc keys_value,
    serves (discovery_url issuer) body1 type1 ∧ json_parse body1 = Some discovery ∧
    get_str "jwks_uri" discovery = Some jwks_uri ∧
    serves jwks_uri body2 type2 ∧ json_parse body2 = Some jwks_doc ∧
    v_get "keys" jwks_doc = Some keys_value ∧ jwks_from_value keys_value = Some keys.

(** The issuers the profile of the WebID declares. *)
Definition declared (webid : string) (issuers : list string) : Prop :=
  ∃ body content_type d,
    let doc_url := default webid (head (split_char "#" webid)) in
    serves doc_url body content_type ∧
    parse (default turtle (content_type ≫= from_content_type)) body doc_url Rdf12 = Ok d ∧
    issuers = declared_issuers webid d.

Lemma keeps_unknown {A} (P : W → Prop) (o : option A) : keeps P (unknown o) (λ a, o = Some a).
Proof. apply keeps_lift. intros a. unfold ok_or. destruct o; [by intros [= ->]|done]. Qed.

Lemma kept_fetch_jwks (P : W → Prop) issuer : web_answers P → keeps P (fetch_jwks client policy issuer) (published issuer).
Proof.
  intros Hweb. unfold fetch_jwks.
  eapply keeps_bind; [eapply keeps_map_err, Hweb|]. intros [body1 type1] Hs1.
  eapply keeps_bind; [apply keeps_unknown|]. intros discovery Hs2.
  eapply keeps_bind; [apply keeps_unknown|]. intros jwks_uri Hs3.
  eapply keeps_bind; [eapply keeps_map_err, Hweb|]. intros [body2 type2] Hs4.
  eapply keeps_bind; [apply keeps_unknown|]. intros jwks_doc Hs5.
  eapply keeps_bind; [apply keeps_unknown|]. intros keys_value Hs6.
  eapply keeps_weaken; [|apply keeps_unknown]. intros keys Hs7. by exists body1, type1, discovery, jwks_uri, body2, type2, jwks_doc, keys_value.
Qed.

Lemma kept_fetch_issuers (P : W → Prop) webid : web_answers P → keeps P (fetch_issuers client policy webid) (declared webid).
Proof.
  intros Hweb. unfold fetch_issuers. eapply keeps_bind; [apply Hweb|]. intros [body ct] Hs.
  eapply keeps_bind; [apply keeps_lift_eq|].
  intros d Hd. destruct (parse _ _ _ _) as [d'|e|] eqn:Ed; [|done..]. injection Hd as ->. apply keeps_ret. by exists body, ct, d.
Qed.

(** Whatever the network and the other requests do in between, both caches stay
    bounded, and keys that [http_resolve] returns, from its cache or not, are
    those of the document that the issuer's own discovery document names. *)
Lemma kept_http_resolve (issuer : string)
    (HI : ∀ (c : Caches (list Jwk)) w, I w → I (set_part c w))
    (Hout : OutsideKeeps (caches_ok I published)) (Hweb : web_answers (caches_ok I published)) :
  keeps (caches_ok I published) (http_resolve client policy issuer) (published issuer).
Proof.
  unfold http_resolve. eapply keeps_bind; [apply kept_read_cache; apply _|]. intros [ks|] Hhit; [by apply keeps_ret, Hhit|].
  eapply keeps_bind; [apply kept_recently_failed; apply _|]. intros [|] _; [apply keeps_throw|].
  eapply keeps_bind; [by eapply keeps_attempt, kept_fetch_jwks|].
  intros [e|ks] Hks.
  - eapply keeps_bind; [by apply kept_remember_failure|]. intros _ _. apply keeps_throw.
  - specialize (Hks ks eq_refl). eapply keeps_bind; [by apply kept_remember|]. intros _ _. by apply keeps_ret.
Qed.

(** [http_authorizes] says yes only when the profile document of the WebID
    declares the issuer, up to trailing slashes. *)
Lemma kept_http_authorizes (webid issuer : string)
    (HI : ∀ (c : Caches (list string)) w, I w → I (set_part c w))
    (Hout : OutsideKeeps (caches_ok I declared)) (Hweb : web_answers (caches_ok I declared)) :
  keeps (caches_ok I declared) (http_authorizes client policy webid issuer)
    (λ yes, yes = true → ∃ issuers i, declared webid issuers ∧ i ∈ issuers ∧ issuer_matches i issuer = true).
Proof.
  assert (∀ l, declared webid l → existsb (λ i, issuer_matches i issuer) l = true →
    ∃ issuers i, declared webid issuers ∧ i ∈ issuers ∧ issuer_matches i issuer = true) as Hyes.
  { intros l Hl (i & Hi & Hm)%existsb_exists. exists l, i. split_and!; [done|by apply list_elem_of_In|done]. }
  unfold http_authorizes. eapply keeps_bind; [apply kept_read_cache; apply _|].
  intros [l|] Hhit; [apply keeps_ret; intros Ht; by apply (Hyes l); [apply Hhit|]|].
  eapply keeps_bind; [apply kept_recently_failed; apply _|]. intros [|] _; [apply keeps_throw|].
  eapply keeps_bind; [by eapply keeps_attempt, kept_fetch_issuers|].
  intros [e|l] Hl.
  - eapply keeps_bind; [by apply kept_remember_failure|]. intros _ _. apply keeps_throw.
  - specialize (Hl l eq_refl). eapply keeps_bind; [by apply kept_remember|]. intros _ _.
    apply keeps_ret. by apply Hyes.
Qed.
End answers.
