(* ===== verification/Token.v ===== *)
(** Access tokens ([auth/access_token.rs]): the key that must have signed a
    token, its claims, and the untrusted peek. *)
From S2P Require Import Prelude Str Fetch Jose Cache Issuers.
Open Scope list_scope.

(** [AccessClaims]. *)
Record AccessClaims : Type := mkClaims {
  ac_webid : string;
  ac_jkt : string;
  ac_issuer : string;
  ac_audience : list string
}.

Section token.
Context `{Encodings} `{Jose}.

Definition decode_segment (segment : string) : outcome AuthError Value :=
  let? bytes := ok_or (Malformed "invalid base64url segment") (b64_decode segment) in
  ok_or (Malformed "invalid JSON segment") (json_parse bytes).

Definition peek_untrusted_issuer (token : string) : outcome AuthError string :=
  match segments token with
  | None => Err (Malformed "not a compact JWS")
  | Some (_, payload_part, _) =>
      let? payload := decode_segment payload_part in
      ok_or (Malformed "missing iss claim") (get_str "iss" payload)
  end.

Definition parse_audience (claim : option Value) : list string :=
  match claim with
  | Some (VString s) => [s]
  | Some (VArray values) => omap as_str values
  | _ => []
  end.

(** By the key's type: RS256 for RSA, ES256 for P-256. *)
Definition verifier_for (jwk : Jwk) : outcome AuthError Verifier :=
  if bool_decide (jwk_key_type jwk = "RSA") then ok_or BadSignature (rs256_verifier jwk)
  else if bool_decide (jwk_key_type jwk = "EC") && bool_decide (jwk_curve jwk = Some "P-256")
  then ok_or BadSignature (es256_verifier jwk)
  else Err UnsupportedKeyType.

(** [Iterator::find]. *)
Definition find_first {A} (p : A → bool) (l : list A) : option A := List.find p l.

Definition for_signatures (k : Jwk) : bool :=
  match jwk_key_use k with None => true | Some u => bool_decide (u = "sig") end &&
  jwk_is_for_key_operation k "verify".

Definition select_key (keys : list Jwk) (kid : option string) : outcome AuthError Jwk :=
  match kid with
  | Some kid => ok_or MissingKey (find_first (λ k, bool_decide (jwk_key_id k = Some kid)) keys)
  | None => ok_or MissingKey (find_first for_signatures keys)
  end.

(** The claims of a payload whose signature was verified. *)
Definition read_claims (payload : JwtPayload) (now_unix : Z) : outcome AuthError AccessClaims :=
  let? exp := ok_or (Malformed "missing exp claim") (payload_claim payload "exp" ≫= as_i64) in
  if Z.leb exp now_unix then Err Expired else
  let? webid := ok_or (Malformed "missing webid claim") (payload_claim payload "webid" ≫= as_str) in
  let? jkt := ok_or Binding (payload_claim payload "cnf" ≫= get_str "jkt") in
  let? issuer := ok_or (Malformed "missing iss claim") (payload_issuer payload) in
  Ok (mkClaims webid jkt issuer (parse_audience (payload_claim payload "aud"))).

Context {W : Type} `{!JwksResolver W}.

Definition verify_access_token (token : string) (now_unix : Z) : M W AuthError AccessClaims :=
  match segments token with
  | None => throw (Malformed "not a compact JWS")
  | Some (header_part, payload_part, _) =>
      let! header := lift (decode_segment header_part) in
      let! payload := lift (decode_segment payload_part) in
      let kid := get_str "kid" header in
      let! iss := lift (ok_or (Malformed "missing iss claim") (get_str "iss" payload)) in
      let! keys := resolve_jwks iss in
      let! jwk := lift (select_key keys kid) in
      let! verifier := lift (verifier_for jwk) in
      let! verified := lift (ok_or BadSignature (decode_with_verifier token verifier)) in
      lift (read_claims verified now_unix)
  end.

(** What an accepted token is: signed with a key that [P] says the issuer it
    names resolved to, of a type the key decides, not expired; the claims are
    those of the signed payload. *)
Definition token_valid (P : string → list Jwk → Prop) (token : string) (now_unix : Z) (claims : AccessClaims) : Prop :=
  ∃ iss keys jwk verifier payload exp,
    peek_untrusted_issuer token = Ok iss ∧ P iss keys ∧ jwk ∈ keys ∧
    ((jwk_key_type jwk = "RSA" ∧ rs256_verifier jwk = Some verifier) ∨
     (jwk_key_type jwk = "EC" ∧ jwk_curve jwk = Some "P-256" ∧ es256_verifier jwk = Some verifier)) ∧
    decode_with_verifier token verifier = Some payload ∧
    payload_claim payload "exp" ≫= as_i64 = Some exp ∧ (now_unix < exp)%Z ∧
    payload_claim payload "webid" = Some (VString (ac_webid claims)) ∧
    payload_claim payload "cnf" ≫= get_str "jkt" = Some (ac_jkt claims) ∧
    payload_issuer payload = Some (ac_issuer claims) ∧
    ac_audience claims = parse_audience (payload_claim payload "aud").

Lemma read_claims_Ok payload now_unix claims : read_claims payload now_unix = Ok claims →
  ∃ exp, payload_claim payload "exp" ≫= as_i64 = Some exp ∧ (now_unix < exp)%Z ∧
    payload_claim payload "webid" = Some (VString (ac_webid claims)) ∧
    payload_claim payload "cnf" ≫= get_str "jkt" = Some (ac_jkt claims) ∧
    payload_issuer payload = Some (ac_issuer claims) ∧
    ac_audience claims = parse_audience (payload_claim payload "aud").
Proof.
  unfold read_claims. rewrite obind_Ok. intros (exp & ->%ok_or_Ok & Hr). exists exp.
  destruct (Z.leb_spec exp now_unix) as [|Hexp]; [done|]. revert Hr.
  rewrite obind_Ok. intros (webid & Hw%ok_or_Ok & Hr). revert Hr.
  rewrite obind_Ok. intros (jkt & Hj%ok_or_Ok & Hr). revert Hr.
  rewrite obind_Ok. intros (issuer & Hi%ok_or_Ok & [= <-]). simpl. split_and!; [done..| |done|done|done].
  by destruct (payload_claim payload "webid") as [[]|]; simplify_eq/=.
Qed.

Lemma select_key_in keys kid jwk : select_key keys kid = Ok jwk → jwk ∈ keys.
Proof.
  unfold select_key, find_first. destruct kid; rewrite ok_or_Ok; intros Hf%List.find_some; apply list_elem_of_In, Hf.
Qed.

Lemma verifier_for_Ok jwk v : verifier_for jwk = Ok v →
  (jwk_key_type jwk = "RSA" ∧ rs256_verifier jwk = Some v) ∨
  (jwk_key_type jwk = "EC" ∧ jwk_curve jwk = Some "P-256" ∧ es256_verifier jwk = Some v).
Proof.
  unfold verifier_for. case_bool_decide; [intros ?%ok_or_Ok; by left|].
  destruct (bool_decide_reflect (jwk_key_type jwk = "EC")); simpl; [|done].
  case_bool_decide; [|done]. intros ?%ok_or_Ok. by right.
Qed.

(** What a resolver answers is [P]; so is what a token was checked with. *)
Lemma keeps_verify_access_token (I : W → Prop) (P : string → list Jwk → Prop) token now_unix :
  (∀ iss, keeps I (resolve_jwks iss) (P iss)) →
  keeps I (verify_access_token token now_unix) (token_valid P token now_unix).
Proof.
  intros Hres. unfold verify_access_token. destruct (segments token) as [[[h p] s]|] eqn:Es; [|apply keeps_throw].
  eapply keeps_bind; [apply keeps_lift_eq|]. intros header Hh.
  eapply keeps_bind; [apply keeps_lift_eq|]. intros payload Hp.
  eapply keeps_bind; [apply keeps_lift_eq|]. intros iss Hi.
  eapply keeps_bind; [apply Hres|]. intros keys Hk.
  eapply keeps_bind; [apply keeps_lift_eq|]. intros jwk Hj.
  eapply keeps_bind; [apply keeps_lift_eq|]. intros verifier Hv.
  eapply keeps_bind; [apply keeps_lift_eq|]. intros verified Hd%ok_or_Ok.
  eapply keeps_weaken; [|apply keeps_lift_eq]. intros claims (exp & Hc)%read_claims_Ok.
  exists iss, keys, jwk, verifier, verified, exp. split_and!; [|done| | |done|apply Hc..].
  - unfold peek_untrusted_issuer. by rewrite Es, Hp.
  - exact (select_key_in _ _ _ Hj).
  - by apply verifier_for_Ok.
Qed.
End token.
