(* ===== verification/Dpop.v ===== *)
(** Proofs of possession ([auth/dpop.rs]): the two verifiers, the checks they
    share, and the set of proofs already seen.

    Times are the [i64] seconds of the source, with its saturating
    arithmetic. *)
From stdpp Require Import sorting.
From S2P Require Import Prelude Str Fetch Jose Token.
Open Scope list_scope.

(** * [i64] *)
Definition I64_MIN : Z := -9223372036854775808.
Definition I64_MAX : Z := 9223372036854775807.
Definition i64 (x : Z) : Prop := (I64_MIN <= x <= I64_MAX)%Z.

Definition saturate (x : Z) : Z := Z.max I64_MIN (Z.min I64_MAX x).
Definition saturating_sub (a b : Z) : Z := saturate (a - b).
Definition saturating_abs (a : Z) : Z := saturate (Z.abs a).

Definition DISABLE_INTERNAL_CLOCK_CHECK_SECONDS : Z := 999999999999.
Definition MAX_AGE_SECONDS : Z := 300.
Definition FUTURE_SKEW_SECONDS : Z := 5.
Definition EVICTION_INTERVAL_SECONDS : Z := 60.
Definition RS256_ALG : string := "RS256".
Definition JTI_MAX_LENGTH : nat := 512.

Definition invalid {A} (m : string) : outcome AuthError A := Err (DpopInvalid m).

(** * The replay set *)

(** [trait JtiReplayStore]. *)
Class JtiReplayStore (W : Type) : Type :=
  record_or_reject : string → Z → M W AuthError unit.

(** [ReplaySet]: the instant each [jti] was recorded at, and the last sweep. *)
Record ReplaySet : Type := mkReplay {
  jtis : gmap string Z;
  last_eviction : Z
}.

Definition empty_replay : ReplaySet := mkReplay ∅ 0.

Definition sweep_due (r : ReplaySet) (now_unix : Z) : bool :=
  Z.leb EVICTION_INTERVAL_SECONDS (saturating_abs (saturating_sub now_unix (last_eviction r))).

Definition sweep (r : ReplaySet) (now_unix : Z) : ReplaySet :=
  let cutoff := saturating_sub now_unix (MAX_AGE_SECONDS + FUTURE_SKEW_SECONDS) in
  mkReplay (filter (λ x, (cutoff <= x.2)%Z) (jtis r)) now_unix.

(** One critical section: whether the [jti] was new, and the set after. *)
Definition record (hash : string) (now_unix : Z) (r : ReplaySet) : bool * ReplaySet :=
  let r := if sweep_due r now_unix then sweep r now_unix else r in
  match jtis r !! hash with
  | None => (true, mkReplay (<[hash := now_unix]> (jtis r)) (last_eviction r))
  | Some _ => (false, r)
  end.

(** [InMemoryJtiReplayStore]. *)
Definition in_memory_replay {W} `{Encodings} `{!Holds W ReplaySet} : JtiReplayStore W := λ jti now_unix w,
  let (fresh, r) := record (sha256_digest jti) now_unix (get_part w) in
  (if fresh then Ok tt else invalid "dpop proof replayed", set_part r w).

(** * Verification *)
Section verify.
Context `{UrlLib} `{Encodings} `{Jose}.

Definition decode_jws_segment (segment what : string) : outcome AuthError Value :=
  let? bytes := ok_or (DpopInvalid ("dpop proof " +:+ what +:+ " is not base64url")) (b64_decode segment) in
  ok_or (DpopInvalid ("dpop proof " +:+ what +:+ " is not JSON")) (json_parse bytes).

Definition verified_htu_claim (proof : string) : outcome AuthError string :=
  match segments proof with
  | None => invalid "dpop proof is not a compact JWS"
  | Some (_, payload_part, _) =>
      let? payload := decode_jws_segment payload_part "payload" in
      ok_or (DpopInvalid "dpop proof has no htu claim") (get_str "htu" payload)
  end.

Definition wire_path (s : string) : option string := url_path <$> url_ok s.

Definition htu_names_the_same_resource (proof_htu expected : string) : bool :=
  match wire_path proof_htu, wire_path expected with
  | Some p, Some e => bool_decide (p = e)
  | _, _ => false
  end.

Definition proof_alg_is_rs256 (proof : string) : bool :=
  match head (split_char "." proof) with
  | None => false
  | Some header_b64 =>
      match decode_jws_segment header_b64 "header" with
      | Ok header => bool_decide (get_str "alg" header = Some RS256_ALG)
      | _ => false
      end
  end.

Definition thumbprint_rsa (n_b64 e_b64 : string) : string :=
  b64_encode (sha256_digest (json_strings [("e", e_b64); ("kty", "RSA"); ("n", n_b64)])).

(** The header of an RS256 proof: the members [n] and [e] of its key, and the
    verifier the key makes. *)
Definition rs256_header (header : Value) : outcome AuthError (string * string * Verifier) :=
  if negb (bool_decide (get_str "typ" header = Some "dpop+jwt")) then invalid "dpop proof typ is not dpop+jwt" else
  if negb (bool_decide (get_str "alg" header = Some RS256_ALG)) then invalid "dpop proof alg is not RS256" else
  let? jwk_value := ok_or (DpopInvalid "dpop proof header has no jwk") (v_get "jwk" header) in
  if is_some (v_get "d" jwk_value) then invalid "dpop proof jwk must not include private key material" else
  if negb (bool_decide (get_str "kty" jwk_value = Some "RSA"))
  then invalid "dpop proof alg RS256 requires an RSA jwk" else
  let? n := ok_or (DpopInvalid "dpop proof RSA jwk has no n") (get_str "n" jwk_value) in
  let? e := ok_or (DpopInvalid "dpop proof RSA jwk has no e") (get_str "e" jwk_value) in
  let? jwk_map := ok_or (DpopInvalid "dpop proof jwk is not a JSON object") (as_object jwk_value) in
  let? jwk := ok_or (DpopInvalid "dpop proof jwk is not a valid JWK") (jwk_from_map jwk_map) in
  let? verifier := ok_or (DpopInvalid "dpop proof jwk is not a usable RS256 verification key") (rs256_verifier jwk) in
  Ok (n, e, verifier).

Context {W : Type} `{!DpopLib W}.

Definition normalized (r : string + string) : outcome AuthError string :=
  match r with inr s => Ok s | inl e => Err (DpopInvalid e) end.

Definition verify_rs256_proof (proof expected_htu expected_htm : string) : outcome AuthError VerifiedDpop :=
  match segments proof with
  | None => invalid "dpop proof is not a compact JWS"
  | Some (header_b64, payload_b64, signature_b64) =>
      let? header := decode_jws_segment header_b64 "header" in
      let? (n, e, verifier) := rs256_header header in
      let? signature := ok_or (DpopInvalid "dpop proof signature is not base64url") (b64_decode signature_b64) in
      if negb (jws_verify verifier (header_b64 +:+ "." +:+ payload_b64) signature)
      then invalid "invalid DPoP signature" else
      let jkt := thumbprint_rsa n e in
      let? claims := decode_jws_segment payload_b64 "payload" in
      let? jti := ok_or (DpopInvalid "dpop proof has no jti claim") (get_str "jti" claims) in
      if Nat.ltb JTI_MAX_LENGTH (String.length jti) then invalid "dpop proof jti is too long" else
      let? iat := ok_or (DpopInvalid "dpop proof has no integer iat claim") (get_i64 "iat" claims) in
      let? htm := ok_or (DpopInvalid "dpop proof has no htm claim") (get_str "htm" claims) in
      let? htu := ok_or (DpopInvalid "dpop proof has no htu claim") (get_str "htu" claims) in
      let? m1 := normalized (normalize_method htm) in
      let? m2 := normalized (normalize_method expected_htm) in
      if negb (bool_decide (m1 = m2)) then invalid "dpop proof htm does not match the request method" else
      let? u1 := normalized (normalize_htu htu) in
      let? u2 := normalized (normalize_htu expected_htu) in
      if negb (bool_decide (u1 = u2)) then invalid "dpop proof htu does not match the request URL" else
      Ok (mkVerified jkt jti iat)
  end.

(** [NoopReplayStore::insert_once]: records nothing, rejects nothing. *)
Definition noop_insert_once (jti_hash : string) : bool := true.

Definition verify_signed (proof htu htm : string) : M W AuthError VerifiedDpop :=
  if proof_alg_is_rs256 proof then lift (verify_rs256_proof proof htu htm)
  else map_err DpopInvalid
         (crate_verify DISABLE_INTERNAL_CLOCK_CHECK_SECONDS DISABLE_INTERNAL_CLOCK_CHECK_SECONDS
            noop_insert_once proof htu htm).

(** Everything [verify_dpop] checks of a proof whose signature was verified. *)
Definition check_verified (v : VerifiedDpop) (proof htu expected_jkt : string) (now_unix : Z) : outcome AuthError unit :=
  let? claim := verified_htu_claim proof in
  if negb (htu_names_the_same_resource claim htu)
  then invalid "dpop proof htu does not match the request URL exactly" else
  if Z.ltb FUTURE_SKEW_SECONDS (saturating_sub (v_iat v) now_unix)
  then invalid "DPoP proof iat is too far in the future" else
  if Z.ltb MAX_AGE_SECONDS (saturating_sub now_unix (v_iat v)) then invalid "DPoP proof iat is stale" else
  if negb (bool_decide (v_jkt v = expected_jkt)) then Err Binding else Ok tt.

Context `{!JtiReplayStore W}.

Definition verify_dpop (proof htu htm expected_jkt : string) (now_unix : Z) : M W AuthError unit :=
  let! verified := verify_signed proof htu htm in
  do! lift (check_verified verified proof htu expected_jkt now_unix) in
  record_or_reject (v_jti verified) now_unix.
End verify.

(** * Freshness, binding, replay *)
Lemma saturate_gt x k : (I64_MIN <= k < I64_MAX)%Z → Z.ltb k (saturate x) = Z.ltb k x.
Proof. intros Hk. unfold saturate. apply Bool.eq_true_iff_eq. rewrite !Z.ltb_lt. lia. Qed.

Lemma saturate_le x : (I64_MIN <= saturate x)%Z ∧ (saturate x <= Z.max I64_MIN x)%Z.
Proof. unfold saturate, I64_MIN, I64_MAX. lia. Qed.

Section facts.
Context `{UrlLib} `{Encodings} `{Jose}.

(** The checks on a verified proof, without the machine's arithmetic. *)
Definition possession (v : VerifiedDpop) (proof htu expected_jkt : string) (now_unix : Z) : Prop :=
  (∃ claim path, verified_htu_claim proof = Ok claim ∧ wire_path claim = Some path ∧ wire_path htu = Some path) ∧
  (now_unix - MAX_AGE_SECONDS <= v_iat v <= now_unix + FUTURE_SKEW_SECONDS)%Z ∧
  v_jkt v = expected_jkt.

Lemma same_resource_iff a b :
  htu_names_the_same_resource a b = true ↔ ∃ path, wire_path a = Some path ∧ wire_path b = Some path.
Proof.
  unfold htu_names_the_same_resource.
  destruct (wire_path a), (wire_path b); rewrite ?bool_decide_eq_true; naive_solver.
Qed.

Lemma check_verified_iff v proof htu expected_jkt now_unix :
  check_verified v proof htu expected_jkt now_unix = Ok tt ↔ possession v proof htu expected_jkt now_unix.
Proof.
  unfold check_verified, possession, saturating_sub. rewrite !saturate_gt by (unfold I64_MIN, I64_MAX; by vm_compute).
  rewrite obind_Ok.
  split.
  - intros (claim & Hc & Hr). destruct (htu_names_the_same_resource claim htu) eqn:Es; [|done].
    apply same_resource_iff in Es as (path & Hp1 & Hp2). simpl in Hr.
    destruct (Z.ltb_spec FUTURE_SKEW_SECONDS (v_iat v - now_unix)); [done|].
    destruct (Z.ltb_spec MAX_AGE_SECONDS (now_unix - v_iat v)); [done|].
    destruct (bool_decide_reflect (v_jkt v = expected_jkt)); [|done].
    split_and!; [by exists claim, path|lia|lia|done].
  - intros ((claim & path & Hc & Hp1 & Hp2) & Ht & <-). exists claim. split; [done|].
    assert (htu_names_the_same_resource claim htu = true) as -> by (apply same_resource_iff; eauto). simpl.
    destruct (Z.ltb_spec FUTURE_SKEW_SECONDS (v_iat v - now_unix)); [lia|].
    destruct (Z.ltb_spec MAX_AGE_SECONDS (now_unix - v_iat v)); [lia|]. by rewrite bool_decide_eq_true_2.
Qed.

(** An entry is kept for as long as its proof may be fresh. *)
Lemma sweep_keeps h t1 t r :
  jtis r !! h = Some t1 → i64 t1 → (t <= t1 + MAX_AGE_SECONDS + FUTURE_SKEW_SECONDS)%Z →
  jtis (if sweep_due r t then sweep r t else r) !! h = Some t1.
Proof.
  intros Hh Hi Ht. destruct (sweep_due r t); [|done]. unfold sweep. simpl. apply map_lookup_filter_Some. split; [done|].
  simpl. unfold saturating_sub. pose proof (saturate_le (t - (MAX_AGE_SECONDS + FUTURE_SKEW_SECONDS))).
  unfold i64 in Hi. lia.
Qed.

Lemma record_keeps h t1 h' t r :
  jtis r !! h = Some t1 → i64 t1 → (t <= t1 + MAX_AGE_SECONDS + FUTURE_SKEW_SECONDS)%Z →
  jtis (record h' t r).2 !! h = Some t1.
Proof.
  intros Hh Hi Ht. pose proof (sweep_keeps h t1 t r Hh Hi Ht) as Hk. unfold record.
  destruct (jtis (if sweep_due r t then _ else r) !! h') as [t'|] eqn:E; [done|]. simpl.
  rewrite lookup_insert_ne; [done|]. intros ->. congruence.
Qed.

Lemma record_seen h t1 t r : jtis r !! h = Some t1 → i64 t1 →
  (t <= t1 + MAX_AGE_SECONDS + FUTURE_SKEW_SECONDS)%Z → (record h t r).1 = false.
Proof. intros Hh Hi Ht. unfold record. by rewrite (sweep_keeps h t1 t r Hh Hi Ht). Qed.

Lemma record_records h t r : (record h t r).1 = true → jtis (record h t r).2 !! h = Some t.
Proof.
  unfold record. destruct (jtis (if sweep_due r t then _ else r) !! h); simpl; [done|]. by rewrite lookup_insert_eq.
Qed.
End facts.

(** The crate's verifier leaves the set alone, and names a proof by the claims
    the proof carries. *)
Class DpopLaws (W : Type) `{DpopLib W} `{!Holds W ReplaySet} : Prop := {
  crate_replay a b f proof htu htm w :
    get_part (S:=ReplaySet) (crate_verify a b f proof htu htm w).2 = get_part w;
  crate_claims a b f proof htu htm htu' htm' w w' v v' :
    (crate_verify a b f proof htu htm w).1 = Ok v → (crate_verify a b f proof htu' htm' w').1 = Ok v' →
    v_jti v = v_jti v' ∧ v_iat v = v_iat v'
}.

(** A proof, and the request it is presented with. *)
Record presented : Type := mkPresented {
  p_proof : string;
  p_htu : string;
  p_htm : string;
  p_jkt : string;
  p_now : Z
}.

Section replay.
Context `{UrlLib} `{Encodings} `{Jose} {W : Type} `{!DpopLib W} `{!Holds W ReplaySet} `{!DpopLaws W}.
#[local] Existing Instance in_memory_replay.

Notation verify q := (verify_dpop (p_proof q) (p_htu q) (p_htm q) (p_jkt q) (p_now q)).

(** Which of a sequence of proofs are accepted. *)
Fixpoint present (l : list presented) (w : W) : list bool :=
  match l with
  | [] => []
  | q :: l =>
      let (o, w') := verify q w in
      match o with Ok _ => true | _ => false end :: present l w'
  end.

Lemma verify_signed_replay proof htu htm (w : W) :
  get_part (S:=ReplaySet) (verify_signed proof htu htm w).2 = get_part w.
Proof.
  unfold verify_signed, map_err. destruct (proof_alg_is_rs256 proof); [done|].
  pose proof (crate_replay DISABLE_INTERNAL_CLOCK_CHECK_SECONDS DISABLE_INTERNAL_CLOCK_CHECK_SECONDS
    noop_insert_once proof htu htm w) as Hc.
  by destruct (crate_verify _ _ _ _ _ _ w).
Qed.

Lemma rs256_claims proof htu htm v : verify_rs256_proof (W:=W) proof htu htm = Ok v →
  ∃ h p s claims, segments proof = Some (h, p, s) ∧ decode_jws_segment p "payload" = Ok claims ∧
    get_str "jti" claims = Some (v_jti v) ∧ get_i64 "iat" claims = Some (v_iat v).
Proof.
  unfold verify_rs256_proof. destruct (segments proof) as [[[h p] s]|]; [|done].
  rewrite obind_Ok. intros (header & _ & Hv). revert Hv. rewrite obind_Ok. intros ([[n e] verifier] & _ & Hv). revert Hv.
  rewrite obind_Ok. intros (sig & _ & Hv). destruct (negb _) in Hv; [done|]. revert Hv.
  rewrite obind_Ok. intros (claims & Hc & Hv). revert Hv. rewrite obind_Ok. intros (jti & Hj%ok_or_Ok & Hv).
  destruct (Nat.ltb _ _) in Hv; [done|]. revert Hv. rewrite obind_Ok. intros (iat & Hi%ok_or_Ok & Hv). revert Hv.
  rewrite obind_Ok. intros (htm' & _ & Hv). revert Hv. rewrite obind_Ok. intros (htu' & _ & Hv). revert Hv.
  rewrite obind_Ok. intros (m1 & _ & Hv). revert Hv. rewrite obind_Ok. intros (m2 & _ & Hv).
  destruct (negb _) in Hv; [done|]. revert Hv. rewrite obind_Ok. intros (u1 & _ & Hv). revert Hv.
  rewrite obind_Ok. intros (u2 & _ & Hv). destruct (negb _) in Hv; [done|]. injection Hv as <-.
  by exists h, p, s, claims.
Qed.

(** Both verifiers name a proof by its claims. *)
Lemma verify_signed_claims proof htu htm htu' htm' (w w' : W) v v' :
  (verify_signed proof htu htm w).1 = Ok v → (verify_signed proof htu' htm' w').1 = Ok v' →
  v_jti v = v_jti v' ∧ v_iat v = v_iat v'.
Proof.
  unfold verify_signed, map_err, lift. destruct (proof_alg_is_rs256 proof); cbn.
  - intros (h & p & s & c & Hs & Hc & Hj & Hi)%rs256_claims (h' & p' & s' & c' & Hs' & Hc' & Hj' & Hi')%rs256_claims.
    assert (c = c') as <- by (assert (p = p') as -> by congruence; congruence). split; congruence.
  - destruct (crate_verify _ _ _ proof htu htm w) as [[a|e|] w1] eqn:E1; [|done..].
    destruct (crate_verify _ _ _ proof htu' htm' w') as [[a'|e'|] w2] eqn:E2; [|done..].
    intros [= <-] [= <-]. by eapply crate_claims; [rewrite E1|rewrite E2].
Qed.

(** What a verification does to the set of proofs: nothing, unless every check
    passed. *)
Lemma verify_dpop_cases q (w : W) :
  let r := verify q w in
  (get_part (S:=ReplaySet) r.2 = get_part w ∧ ∀ u, r.1 ≠ Ok u) ∨
  ∃ v, (verify_signed (p_proof q) (p_htu q) (p_htm q) w).1 = Ok v ∧
       possession v (p_proof q) (p_htu q) (p_jkt q) (p_now q) ∧
       get_part (S:=ReplaySet) r.2 = (record (sha256_digest (v_jti v)) (p_now q) (get_part w)).2 ∧
       r.1 = if (record (sha256_digest (v_jti v)) (p_now q) (get_part w)).1 then Ok tt
             else invalid "dpop proof replayed".
Proof.
  cbn zeta. unfold verify_dpop, bind. pose proof (verify_signed_replay (p_proof q) (p_htu q) (p_htm q) w) as Hr.
  destruct (verify_signed _ _ _ w) as [[v|e|] w1]; cbn in *; [|by left..].
  destruct (check_verified v _ _ _ _) as [[]|e|] eqn:Ec; cbn; [|by left..].
  right. exists v. split; [done|]. split; [by apply check_verified_iff|].
  unfold record_or_reject, in_memory_replay. rewrite Hr. destruct (record _ _ _) as [fresh r]. cbn.
  by rewrite get_set_part.
Qed.

Lemma present_lookup l (w : W) j b q : l !! j = Some q →
  (∀ w o w', verify q w = (o, w') → (match o with Ok _ => true | _ => false end) = b) → present l w !! j = Some b.
Proof.
  intros Hj Hb. revert w j Hj. induction l as [|q' l IH]; intros w j Hj; [done|]. simpl.
  destruct (verify q' w) as [o w'] eqn:Ev. destruct j as [|j]; simpl in *; [|by apply IH].
  injection Hj as ->. f_equal. by eapply Hb.
Qed.

(** While a recorded proof may be fresh its entry stays, so it is refused;
    afterwards it is stale. *)
Lemma present_recorded l (w : W) t1 v proof :
  jtis (get_part w) !! sha256_digest (v_jti v) = Some t1 → i64 t1 → (v_iat v <= t1 + FUTURE_SKEW_SECONDS)%Z →
  (∀ htu htm (w : W) v', (verify_signed proof htu htm w).1 = Ok v' → v_jti v' = v_jti v ∧ v_iat v' = v_iat v) →
  StronglySorted Z.le (p_now <$> l) →
  ∀ j q, l !! j = Some q → p_proof q = proof → present l w !! j = Some false.
Proof.
  intros Hh Hi Hiat Hid. revert w Hh. induction l as [|q l IH]; intros w Hh Hs j qj Hj Hp; [done|].
  simpl in Hs. apply StronglySorted_inv in Hs as [Hs Hall].
  destruct (Z.le_gt_cases (p_now q) (t1 + MAX_AGE_SECONDS + FUTURE_SKEW_SECONDS)) as [Hle|Hgt].
  - simpl. pose proof (verify_dpop_cases q w) as Hc. destruct (verify q w) as [o w'] eqn:Ev. cbn in Hc.
    destruct j as [|j]; simpl in Hj |- *.
    + injection Hj as ->. f_equal. destruct Hc as [[_ Hn]|(v' & Hv' & Hpos & _ & Ho)].
      * destruct o as [u|e|]; [by destruct (Hn u)|done..].
      * rewrite Hp in Hv'. destruct (Hid _ _ _ _ Hv') as [Ej _].
        rewrite Ej, (record_seen _ t1) in Ho by done. by rewrite Ho.
    + apply (IH w') with qj; [|done..]. destruct Hc as [[-> _]|(v' & _ & _ & -> & _)]; [done|]. by apply record_keeps.
  - apply (present_lookup _ _ _ _ qj Hj). intros w1 o w' Ev.
    pose proof (verify_dpop_cases qj w1) as Hc. rewrite Ev in Hc. cbn in Hc.
    destruct Hc as [[_ Hn]|(v' & Hv' & (_ & Hf & _) & _)]; [destruct o as [u|e|]; [by destruct (Hn u)|done..]|].
    exfalso. rewrite Hp in Hv'. destruct (Hid _ _ _ _ Hv') as [_ Ei]. rewrite Ei in Hf.
    assert (p_now q <= p_now qj)%Z as Hq.
    { destruct j as [|j]; simpl in Hj; [injection Hj as ->; lia|].
      rewrite Forall_forall in Hall. apply Hall, list_elem_of_fmap. exists qj. split; [done|]. by eapply list_elem_of_lookup_2. }
    lia.
Qed.

(** C31: a proof is good for one request.  When the proofs of a sequence of
    requests reach the replay set at times that do not decrease, a proof that
    was accepted is refused every later time, whatever it is presented for and
    however long after: within the window its [jti] is still recorded, whatever
    sweeps have run, and after the window it is stale. *)
Theorem proof_accepted_once (l : list presented) (w : W) (i j : nat) (qi qj : presented)
    (Hsorted : StronglySorted Z.le (p_now <$> l)) (Hrange : i64 (p_now qi))
    (Hi : l !! i = Some qi) (Hj : l !! j = Some qj) (Hij : i < j) (Hsame : p_proof qi = p_proof qj)
    (Haccepted : present l w !! i = Some true) :
  present l w !! j = Some false.
Proof.
  revert w i j Hi Hj Hij Haccepted. induction l as [|q l IH]; intros w i j Hi Hj Hij Hacc; [done|].
  simpl in Hsorted. apply StronglySorted_inv in Hsorted as [Hs Hall]. simpl in *.
  pose proof (verify_dpop_cases q w) as Hc. destruct (verify q w) as [o w'] eqn:Ev. cbn in Hc.
  destruct i as [|i], j as [|j]; simpl in *; [lia| |lia|by apply (IH Hs w' i j); try lia].
  injection Hi as ->. destruct o as [u|e|]; [|done..].
  destruct Hc as [[_ Hn]|(v & Hv & (_ & Hf & _) & Hw & Ho)]; [by destruct (Hn u)|].
  destruct (record _ _ _).1 eqn:Erec; [|done].
  apply (present_recorded l w' (p_now qi) v (p_proof qj)) with qj; [| |lia| |done..].
  - rewrite Hw. by apply record_records.
  - done.
  - intros htu htm w1 v' Hv'. rewrite <- Hsame in Hv'. by eapply verify_signed_claims.
Qed.
End replay.

(** * A toy verifier

    A proof is [header.payload.key], and the key is its own signature. *)
Section toy_proofs.
#[local] Existing Instance toy_urls.
#[local] Existing Instance toy_encodings.
#[local] Existing Instance toy_jose.

Definition toy_verify (proof : string) : outcome string VerifiedDpop :=
  match segments proof with
  | Some (_, p, s) =>
      match decode_jws_segment p "payload" with
      | Ok claims =>
          match get_str "jti" claims, get_i64 "iat" claims with
          | Some jti, Some iat => Ok (mkVerified s jti iat)
          | _, _ => Err "no claims"
          end
      | _ => Err "no payload"
      end
  | None => Err "no token"
  end.

#[export] Instance toy_dpop {W} : DpopLib W := {|
  normalize_method := inr;
  normalize_htu := inr;
  crate_verify _ _ _ proof _ _ := lift (toy_verify proof)
|}.

#[export] Instance toy_dpop_laws {W} `{!Holds W ReplaySet} : DpopLaws W.
Proof. split; [done|]. cbn. intros. split; congruence. Qed.

#[export] Instance replay_alone : Holds ReplaySet ReplaySet :=
  {| get_part w := w; set_part r _ := r; get_set_part _ _ := eq_refl |}.

Definition toy_proof (jti iat : string) : string :=
  "alg=ES256.htu=https://pod_example/box&jti=" +:+ jti +:+ "&iat=#" +:+ iat +:+ ".key".

Definition presents (proof : string) (now : Z) : presented :=
  mkPresented proof "https://pod.example/box" "GET" "key" now.

(** Accepted, and refused while another proof comes in and after the window. *)
Lemma proof_accepted_once_witness :
  let l := [presents (toy_proof "one" "1005") 1000; presents (toy_proof "two" "1305") 1305;
            presents (toy_proof "one" "1005") 1305; presents (toy_proof "one" "1005") 9000] in
  present l empty_replay = [true; true; false; false] ∧ present l empty_replay !! 2 = Some false.
Proof.
  intros l. split; [vm_compute; reflexivity|].
  apply (proof_accepted_once l empty_replay 0 2 (presents (toy_proof "one" "1005") 1000)
    (presents (toy_proof "one" "1005") 1305)); [| |reflexivity..| |reflexivity|vm_compute; reflexivity].
  - unfold l. cbn. repeat constructor; lia.
  - unfold i64, I64_MIN, I64_MAX. cbn. lia.
  - lia.
Defined.

(** The time of a request is read before its token is verified, which may take
    as long as a fetch does: requests reach the set at times that decrease.
    Then a sweep for a later request may drop the entry of a proof that an
    earlier one, still on its way, presents again. *)
Lemma late_replay_accepted :
  present [presents (toy_proof "one" "1005") 1000; presents (toy_proof "two" "1306") 1306;
           presents (toy_proof "one" "1005") 1305] empty_replay = [true; true; true].
Proof. vm_compute. reflexivity. Qed.
End toy_proofs.
