(* ===== verification/Login.v ===== *)
(** Who is asking ([auth/authenticate.rs], [auth/config.rs],
    [auth/middleware.rs]): the checks that turn two header fields into an
    agent, and the layer in front of every handler. *)
From S2P Require Import Prelude Str Terms Space Rdf Dataset Pdp Http Ip Fetch.
From S2P Require Import Jose Cache Shapes.
From S2P Require Import Issuers Token Dpop.
Open Scope list_scope.

(** [AuthConfig]. *)
Record AuthConfig : Type := mkAuthConfig {
  trusted_issuers : option (gset string);
  expected_audience : option string
}.

(** [parse_dpop_scheme]: the token of an [Authorization: DPoP] field. *)
Definition parse_dpop_scheme (auth_header : option string) : outcome AuthError string :=
  let? header := ok_or (DpopInvalid "missing Authorization header") auth_header in
  let? (scheme, token) := ok_or (Malformed "malformed Authorization header") (split_once " " header) in
  if negb (eq_ignore_ascii_case scheme "DPoP")
  then Err (DpopInvalid ("unsupported Authorization scheme: " +:+ scheme)) else Ok token.

Section authenticate.
Context `{UrlLib} `{Encodings} `{Jose} {W : Type} `{!DpopLib W}.
Context `{!JwksResolver W} `{!WebIdIssuerVerifier W} `{!JtiReplayStore W}.
Context (config : AuthConfig).

(** The allowlist, on the issuer the token claims. *)
Definition screen_issuer (token : string) : outcome AuthError unit :=
  match trusted_issuers config with
  | None => Ok tt
  | Some trusted =>
      let? untrusted_iss := peek_untrusted_issuer token in
      if negb (existsb (λ t, issuer_matches t untrusted_iss) (elements trusted)) then Err UntrustedIssuer else Ok tt
  end.

Definition check_audience (claims : AccessClaims) : outcome AuthError unit :=
  match expected_audience config with
  | None => Ok tt
  | Some expected =>
      if negb (existsb (λ a, bool_decide (a = expected)) (ac_audience claims)) then Err WrongAudience else Ok tt
  end.

Definition authenticate (auth_header dpop_header : option string) (htm htu : string) (now_unix : Z)
    : M W AuthError Agent :=
  if negb (is_some auth_header) && negb (is_some dpop_header) then ret Public else
  let! token := lift (parse_dpop_scheme auth_header) in
  let! proof := lift (ok_or (DpopInvalid "missing DPoP proof header") dpop_header) in
  do! lift (screen_issuer token) in
  let! claims := verify_access_token token now_unix in
  do! lift (check_audience claims) in
  let! authorized := authorizes (ac_webid claims) (ac_issuer claims) in
  if negb authorized then throw IssuerNotAuthorized else
  do! verify_dpop proof htu htm (ac_jkt claims) now_unix in
  ret (WebId (ac_webid claims)).
End authenticate.

(** [derive_htu]: the configured base and the raw path; [None] when
    [space.root()] panics. *)
Definition derive_htu `{IriSyntax} (sp : StorageSpace) (raw_path : string) : option string :=
  r ← root sp;
  Some (trim_end (Ascii.eqb "/") (graph_iri r) +:+ raw_path).

(** A request as the layer sees it. *)
Record Request : Type := mkRequest {
  rq_method : string;
  rq_raw_path : string;
  rq_headers : Headers
}.

Section layer.
Context `{UrlLib} `{Encodings} `{Jose} `{IriSyntax} `{HeaderText} {W : Type} `{!DpopLib W}.
Context `{!JwksResolver W} `{!WebIdIssuerVerifier W} `{!JtiReplayStore W}.
Context (sp : StorageSpace) (config : AuthConfig).

(** [auth_layer], in front of the handlers [next]. *)
Definition auth_layer {E} (req : Request) (now_unix : Z) (next : Agent → M W E Response) : M W E Response :=
  match derive_htu sp (rq_raw_path req) with
  | None => panic
  | Some htu =>
      let! authenticated := attempt (authenticate config (header_opt (rq_headers req) "authorization")
                                       (header_opt (rq_headers req) "dpop") (rq_method req) htu now_unix) in
      match authenticated with
      | inr agent => next agent
      | inl _ => ret (status_only UNAUTHORIZED)
      end
  end.
End layer.

(** * The contract of the collaborators *)

(** In worlds of [I]: keys are [keys_of] the issuer, a yes is [vouches], a proof
    the crate accepts is [signed]; and the replay set is within [I]. *)
Class AuthContract {W : Type} `{UrlLib} `{Encodings} `{Jose} `{!DpopLib W} `{!JwksResolver W}
    `{!WebIdIssuerVerifier W} `{!JtiReplayStore W} (I : W → Prop)
    (keys_of : string → list Jwk → Prop) (vouches : string → string → Prop)
    (signed : string → string → string → VerifiedDpop → Prop) : Prop := {
  contract_jwks iss : keeps I (resolve_jwks iss) (keys_of iss);
  contract_webid webid iss : keeps I (authorizes webid iss) (λ yes, yes = true → vouches webid iss);
  contract_crate a b f proof htu htm : keeps I (crate_verify a b f proof htu htm) (signed proof htu htm);
  contract_replay jti now_unix : keeps I (record_or_reject jti now_unix) (λ _, True)
}.

Section identity.
Context `{UrlLib} `{Encodings} `{Jose} {W : Type} `{!DpopLib W}.
Context `{!JwksResolver W} `{!WebIdIssuerVerifier W} `{!JtiReplayStore W}.
Context (config : AuthConfig).

(** A proof signed with its own key for this request, by whichever verifier. *)
Definition proof_signed (signed : string → string → string → VerifiedDpop → Prop)
    (proof htu htm : string) (v : VerifiedDpop) : Prop :=
  if proof_alg_is_rs256 proof then verify_rs256_proof (W:=W) proof htu htm = Ok v else signed proof htu htm v.

(** Everything that must hold for a caller to be taken for [webid]. *)
Definition identified (keys_of : string → list Jwk → Prop) (vouches : string → string → Prop)
    (signed : string → string → string → VerifiedDpop → Prop)
    (auth_header dpop_header : option string) (htm htu : string) (now_unix : Z) (webid : string) : Prop :=
  ∃ scheme token proof claims v,
    auth_header = Some (scheme +:+ " " +:+ token) ∧ eq_ignore_ascii_case scheme "DPoP" = true ∧
    dpop_header = Some proof ∧
    (∀ trusted, trusted_issuers config = Some trusted →
       ∃ t iss, t ∈ trusted ∧ peek_untrusted_issuer token = Ok iss ∧ issuer_matches t iss = true) ∧
    token_valid keys_of token now_unix claims ∧
    (∀ expected, expected_audience config = Some expected → expected ∈ ac_audience claims) ∧
    vouches (ac_webid claims) (ac_issuer claims) ∧
    proof_signed signed proof htu htm v ∧ possession v proof htu (ac_jkt claims) now_unix ∧
    webid = ac_webid claims.

Lemma parse_dpop_scheme_Ok auth_header token : parse_dpop_scheme auth_header = Ok token →
  ∃ scheme, auth_header = Some (scheme +:+ " " +:+ token) ∧ eq_ignore_ascii_case scheme "DPoP" = true.
Proof.
  unfold parse_dpop_scheme. rewrite obind_Ok. intros (header & ->%ok_or_Ok & Hr). revert Hr.
  rewrite obind_Ok. intros ([scheme token'] & [-> _]%ok_or_Ok%split_once_Some & Hr).
  destruct (eq_ignore_ascii_case scheme "DPoP") eqn:Es; [|done]. injection Hr as ->. by exists scheme.
Qed.

Lemma screen_issuer_Ok token trusted : screen_issuer config token = Ok tt → trusted_issuers config = Some trusted →
  ∃ t iss, t ∈ trusted ∧ peek_untrusted_issuer token = Ok iss ∧ issuer_matches t iss = true.
Proof.
  unfold screen_issuer. intros Hs Htr. rewrite Htr in Hs. revert Hs. rewrite obind_Ok. intros (iss & Hi & Hs).
  destruct (existsb _ _) eqn:Ex; [|done]. apply existsb_exists in Ex as (t & Ht & Hm).
  exists t, iss. split_and!; [by apply elem_of_elements, list_elem_of_In|done..].
Qed.

Lemma check_audience_Ok claims expected : check_audience config claims = Ok tt →
  expected_audience config = Some expected → expected ∈ ac_audience claims.
Proof.
  unfold check_audience. intros Hs He. rewrite He in Hs. destruct (existsb _ _) eqn:Ex; [|done].
  apply existsb_exists in Ex as (a & Ha & ->%bool_decide_eq_true). by apply list_elem_of_In.
Qed.

(** An agent is [Public] without credentials, or a WebID that is identified. *)
Definition proven keys_of vouches signed (auth_header dpop_header : option string) (htm htu : string) (now_unix : Z)
    (agent : Agent) : Prop :=
  match agent with
  | Public => auth_header = None ∧ dpop_header = None
  | WebId webid => identified keys_of vouches signed auth_header dpop_header htm htu now_unix webid
  end.

Lemma keeps_authenticate I keys_of vouches signed (Hc : AuthContract I keys_of vouches signed)
    (auth_header dpop_header : option string) (htm htu : string) (now_unix : Z) :
  keeps I (authenticate config auth_header dpop_header htm htu now_unix)
    (proven keys_of vouches signed auth_header dpop_header htm htu now_unix).
Proof.
  unfold authenticate. destruct (negb (is_some auth_header) && negb (is_some dpop_header)) eqn:E.
  { apply keeps_ret. by destruct auth_header, dpop_header. }
  eapply keeps_bind; [apply keeps_lift_eq|]. intros token (scheme & Ha & Hs)%parse_dpop_scheme_Ok.
  eapply keeps_bind; [apply keeps_lift_eq|]. intros proof Hp%ok_or_Ok.
  eapply keeps_bind; [apply keeps_lift_eq|]. intros [] Hi.
  eapply keeps_bind; [apply keeps_verify_access_token, contract_jwks|]. intros claims Ht.
  eapply keeps_bind; [apply keeps_lift_eq|]. intros [] Haud.
  eapply keeps_bind; [apply contract_webid|]. intros [|] Hv; [|apply keeps_throw]. specialize (Hv eq_refl). simpl.
  eapply keeps_bind with (λ _, ∃ v, proof_signed signed proof htu htm v ∧ possession v proof htu (ac_jkt claims) now_unix).
  - unfold verify_dpop.
    eapply keeps_bind with (proof_signed signed proof htu htm).
    { unfold verify_signed, proof_signed. destruct (proof_alg_is_rs256 proof); [apply keeps_lift_eq|].
      apply keeps_map_err, contract_crate. }
    intros v Hsig. eapply keeps_bind; [apply keeps_lift_eq|]. intros [] Hpos%check_verified_iff.
    eapply keeps_weaken; [|apply contract_replay]. intros _ _. by exists v.
  - intros _ (v & Hsig & Hpos). apply keeps_ret. exists scheme, token, proof, claims, v.
    refine (conj Ha (conj Hs (conj Hp (conj _ (conj Ht (conj _ (conj Hv (conj Hsig (conj Hpos eq_refl))))))))).
    + intros trusted Htr. by eapply screen_issuer_Ok.
    + intros expected Hex. by eapply check_audience_Ok.
Qed.

(** C30: an identity is never taken on trust.  A caller is [Public] exactly when
    neither header is there; a caller is taken for a WebID only when the token
    is signed by a key its issuer published, has not expired and is for this
    pod, its issuer is trusted and vouched for by the WebID, and the proof is
    signed for this method and this very resource, now, with the key the token
    is bound to.  Whatever any collaborator answers or fails with, nothing else
    yields an agent. *)
Theorem authenticate_sound I keys_of vouches signed (Hc : AuthContract I keys_of vouches signed)
    (auth_header dpop_header : option string) (htm htu : string) (now_unix : Z) :
  keeps I (authenticate config auth_header dpop_header htm htu now_unix) (λ agent,
    match agent with
    | Public => auth_header = None ∧ dpop_header = None
    | WebId webid => identified keys_of vouches signed auth_header dpop_header htm htu now_unix webid
    end).
Proof. by apply keeps_authenticate. Qed.

(** Nothing is fetched for a stranger's issuer.  With an allowlist configured,
    a token whose issuer is not on it is refused before anything else happens:
    no collaborator is asked, no connection made, nothing recorded. *)
Theorem untrusted_issuer_no_effect (trusted : gset string) (auth_header dpop_header : option string)
    (htm htu : string) (now_unix : Z) (token : string) (w : W)
    (Htrusted : trusted_issuers config = Some trusted) (Htoken : parse_dpop_scheme auth_header = Ok token)
    (Hstranger : ∀ t iss, t ∈ trusted → peek_untrusted_issuer token = Ok iss → issuer_matches t iss = false) :
  ∃ e, authenticate config auth_header dpop_header htm htu now_unix w = (Err e, w) ∧
    ∀ proof iss, dpop_header = Some proof → peek_untrusted_issuer token = Ok iss → e = UntrustedIssuer.
Proof.
  unfold authenticate. assert (is_some auth_header = true) as -> by (by destruct auth_header). simpl.
  unfold bind, lift. rewrite Htoken. cbn. destruct dpop_header as [proof|]; cbn; [|by eexists].
  unfold screen_issuer. rewrite Htrusted. destruct (peek_untrusted_issuer token) as [iss|e|] eqn:Ep; cbn.
  - destruct (existsb _ _) eqn:Ex; cbn; [|by eexists].
    apply existsb_exists in Ex as (t & Ht & Hm). rewrite Hstranger in Hm; [done| |done].
    by apply elem_of_elements, list_elem_of_In.
  - by eexists.
  - exfalso. revert Ep. unfold peek_untrusted_issuer, decode_segment.
    destruct (segments token) as [[[h p] s]|]; [|done]. destruct (b64_decode p); [|done]. cbn.
    destruct (json_parse _); [|done]. cbn. by destruct (get_str "iss" _).
Qed.
End identity.

(** * The collaborators of the running pod

    The resolver over HTTP, the verifier of WebIDs over HTTP and the replay set
    in memory keep the contract, in a world whose parts are apart and whose
    web answers as [serves] says. *)
Section running.
Context `{UrlLib} `{HeaderText} `{Encodings} `{Jose} `{HashIter} `{BlankSyntax} `{RdfLib}.
Context {W : Type} `{!Network W} `{!Clock W} `{!DpopLib W}.
Context `{!Holds W (Caches (list Jwk))} `{!Holds W (Caches (list string))} `{!Holds W ReplaySet}.
Context (client policy : FetchPolicy).
Context (J : W → Prop) (serves : string → string → option string → Prop).
Context (signed : string → string → string → VerifiedDpop → Prop).

Definition vouched (webid issuer : string) : Prop :=
  ∃ issuers i, declared serves webid issuers ∧ i ∈ issuers ∧ issuer_matches i issuer = true.

Definition jwks_sound : W → Prop := caches_ok (λ _, True) (published serves).
Definition webid_sound : W → Prop := caches_ok (λ _, True) (declared serves).

Definition sound_state (w : W) : Prop := J w ∧ jwks_sound w ∧ webid_sound w.

(** Setting one part leaves the others, and what [J] says, as they were. *)
Record HttpWorld : Prop := {
  hw_jwks (c : Caches (list Jwk)) w :
    get_part (S:=Caches (list string)) (set_part c w) = get_part w ∧ (J w → J (set_part c w));
  hw_webid (c : Caches (list string)) w :
    get_part (S:=Caches (list Jwk)) (set_part c w) = get_part w ∧ (J w → J (set_part c w));
  hw_replay (r : ReplaySet) w :
    get_part (S:=Caches (list Jwk)) (set_part r w) = get_part w ∧
    get_part (S:=Caches (list string)) (set_part r w) = get_part w ∧ (J w → J (set_part r w));
  hw_outside : OutsideKeeps sound_state;
  hw_web : web_answers client policy serves sound_state;
  hw_crate a b f proof htu htm : keeps sound_state (crate_verify a b f proof htu htm) (signed proof htu htm)
}.

Lemma outside_iff (P P' : W → Prop) : (∀ w, P w ↔ P' w) → OutsideKeeps P → OutsideKeeps P'.
Proof.
  intros Hpp [Hl Hg Hc]. split.
  - intros h p. by apply (keeps_iff P).
  - intros resolve u accept Hr. apply (keeps_iff P), Hg; [done|]. intros name. apply (keeps_iff P'); [by intros w; rewrite Hpp|done].
  - intros E. by apply (keeps_iff P).
Qed.

(** The state as each cache sees it. *)
Lemma sound_as_jwks w : sound_state w ↔ caches_ok (λ w, J w ∧ webid_sound w) (published serves) w.
Proof. unfold sound_state, jwks_sound, caches_ok. tauto. Qed.

Lemma sound_as_webid w : sound_state w ↔ caches_ok (λ w, J w ∧ jwks_sound w) (declared serves) w.
Proof. unfold sound_state, webid_sound, caches_ok. tauto. Qed.

Lemma web_iff (P P' : W → Prop) : (∀ w, P w ↔ P' w) → web_answers client policy serves P → web_answers client policy serves P'.
Proof. intros Hpp Hw url accept. by apply (keeps_iff P). Qed.

Lemma http_contract : HttpWorld →
  AuthContract (H1:=H2) (JwksResolver0:=http_resolve client policy)
    (WebIdIssuerVerifier0:=http_authorizes client policy) (JtiReplayStore0:=in_memory_replay)
    sound_state (published serves) vouched signed.
Proof.
  intros Hw. pose proof (hw_outside Hw) as Hout. split.
  - intros iss. apply (keeps_iff _ _ _ _ (λ w, iff_sym (sound_as_jwks w))), kept_http_resolve.
    + intros c w [HJ Hs]. split; [by apply (hw_jwks Hw)|]. unfold webid_sound, caches_ok in *.
      by rewrite (proj1 (hw_jwks Hw c w)).
    + by apply (outside_iff _ _ sound_as_jwks).
    + apply (web_iff _ _ sound_as_jwks), Hw.
  - intros webid iss. apply (keeps_iff _ _ _ _ (λ w, iff_sym (sound_as_webid w))), kept_http_authorizes.
    + intros c w [HJ Hs]. split; [by apply (hw_webid Hw)|]. unfold jwks_sound, caches_ok in *.
      by rewrite (proj1 (hw_webid Hw c w)).
    + by apply (outside_iff _ _ sound_as_webid).
    + apply (web_iff _ _ sound_as_webid), Hw.
  - apply Hw.
  - intros jti now_unix w (HJ & Hs1 & Hs2). unfold record_or_reject, in_memory_replay.
    destruct (record _ _ _) as [fresh r]. cbn. split; [|done].
    destruct (hw_replay Hw r w) as (E1 & E2 & HJ').
    unfold sound_state, jwks_sound, webid_sound, caches_ok in *. rewrite E1, E2. auto.
Qed.
End running.

(** * A toy login *)
Section toy_login.
#[local] Existing Instance toy_urls.
#[local] Existing Instance toy_text_headers.
#[local] Existing Instance toy_encodings.
#[local] Existing Instance toy_jose.

Definition toy_blank_labels : BlankSyntax := λ _, true.
#[local] Existing Instance toy_blank_labels.

(** A profile is one IRI, the issuer of the WebID of its document. *)
Definition profile_rdf : RdfLib := {|
  rdf_formats f := match f with TriG | JsonLd | NQuads => true | _ => false end;
  rdf_parse _ base bytes := inr [Quad (SNamed (base +:+ "#me")) SOLID_OIDC_ISSUER (TNamed bytes) GDefault];
  rdf_serialize _ _ := inl "no serializer"
|}.
#[local] Existing Instance profile_rdf.

#[local] Existing Instance toy_iteration.

Record ToyAuth : Type := mkToyAuth {
  ta_net : ToyNet;
  ta_jwks : Caches (list ToyKey);
  ta_webid : Caches (list string);
  ta_replay : ReplaySet
}.

#[local] Instance net_part : Holds ToyAuth ToyNet := {|
  get_part := ta_net; set_part n w := mkToyAuth n (ta_jwks w) (ta_webid w) (ta_replay w); get_set_part _ _ := eq_refl |}.
#[local] Instance jwks_part : Holds ToyAuth (Caches (list ToyKey)) := {|
  get_part := ta_jwks; set_part c w := mkToyAuth (ta_net w) c (ta_webid w) (ta_replay w); get_set_part _ _ := eq_refl |}.
#[local] Instance webid_part : Holds ToyAuth (Caches (list string)) := {|
  get_part := ta_webid; set_part c w := mkToyAuth (ta_net w) (ta_jwks w) c (ta_replay w); get_set_part _ _ := eq_refl |}.
#[local] Instance replay_part : Holds ToyAuth ReplaySet := {|
  get_part := ta_replay; set_part r w := mkToyAuth (ta_net w) (ta_jwks w) (ta_webid w) r; get_set_part _ _ := eq_refl |}.
#[local] Instance toy_clock : Clock ToyAuth := λ E, ret 0%Z.
#[local] Instance toy_resolver : JwksResolver ToyAuth := http_resolve default_policy default_policy.
#[local] Instance toy_webids : WebIdIssuerVerifier ToyAuth := http_authorizes default_policy default_policy.
#[local] Instance toy_replays : JtiReplayStore ToyAuth := in_memory_replay.

(** The pages of the toy web. *)
Definition toy_pages (page : string) : Reply :=
  let found body := mkReply 200 "200 OK" [] None [inr body] in
  if bool_decide (page = "idp.example/.well-known/openid-configuration") then found "jwks_uri=https://idp.example/jwks"
  else if bool_decide (page = "idp.example/jwks") then found "keys=key1"
  else if bool_decide (page = "alice.example/card") then found "https://idp.example/"
  else mkReply 404 "404 Not Found" [] None [].

Definition toy_serves (url body : string) (content_type : option string) : Prop :=
  ∃ u, toy_url_parse url = inr u ∧ accept_reply (toy_pages (tu_host u +:+ tu_path u)) = Ok (body, content_type).

Definition toy_auth : ToyAuth :=
  mkToyAuth (mkToyNet (repeat [(public_ip, 0%Z)] 10) [] toy_pages) (mkCaches ∅ ∅) (mkCaches ∅ ∅) empty_replay.

Definition pages_up (w : ToyAuth) : Prop := tn_reply (ta_net w) = toy_pages.

Definition toy_token (issuer webid : string) : string :=
  "kid=key1.iss=" +:+ issuer +:+ "&webid=" +:+ webid +:+ "&exp=#2000&cnf={jkt:key&aud=solid.key1".

Definition alice : string := "https://alice.example/card#me".
Definition toy_config : AuthConfig := mkAuthConfig (Some {["https://idp.example"]}) (Some "solid").

Definition toy_login (token : string) : outcome AuthError Agent :=
  (authenticate toy_config (Some ("dpop " +:+ token)) (Some (toy_proof "one" "1005")) "GET" "https://pod.example/box"
     1000 toy_auth).1.

Definition alice_token : string := toy_token "https://idp_example" "https://alice_example/card#me".

Lemma toy_login_runs : toy_login alice_token = Ok (WebId alice).
Proof. vm_compute. reflexivity. Qed.

Lemma keeps_on_net (P : ToyAuth → Prop) {A} (f : ToyNet → outcome string A * ToyNet) Q :
  (∀ w, P w → P (set_part (f (ta_net w)).2 w)) → (∀ w a, P w → (f (ta_net w)).1 = Ok a → Q a) → keeps P (on_net f) Q.
Proof.
  intros HP HQ w Hw. unfold on_net. cbn. specialize (HP w Hw). specialize (HQ w).
  destruct (f (ta_net w)) as [o n]; cbn in *. split; [done|]. intros a ->. by apply HQ.
Qed.

Notation toy_sound := (sound_state (W:=ToyAuth) pages_up toy_serves).

Lemma sound_net n w : tn_reply n = tn_reply (ta_net w) → toy_sound w → toy_sound (set_part n w).
Proof. intros En (HJ & H1 & H2). split; [|done]. unfold pages_up in *. cbn. congruence. Qed.

Lemma kept_toy_get resolve u accept :
  (∀ name, keeps toy_sound (resolve name) (λ _, True)) →
  keeps toy_sound (client_get (W:=ToyAuth) resolve u accept) (λ r, r = toy_pages (tu_host u +:+ tu_path u)).
Proof.
  assert (∀ addrs, keeps toy_sound (toy_connect u addrs) (λ r, r = toy_pages (tu_host u +:+ tu_path u))) as Hconn.
  { intros [|a addrs]; [apply keeps_throw|]. apply keeps_on_net; [intros w Hw; by apply sound_net|].
    intros w r (HJ & _) [= <-]. unfold pages_up in HJ. by rewrite HJ. }
  intros Hr. unfold client_get, toy_network. destruct (ip_literal (tu_host u)); [apply Hconn|].
  eapply keeps_bind; [apply Hr|]. intros addrs _. apply Hconn.
Qed.

Lemma toy_outside : OutsideKeeps toy_sound.
Proof.
  split.
  - intros h p. apply keeps_on_net; [intros w Hw; by apply sound_net|done].
  - intros resolve u accept Hr. eapply keeps_weaken; [|by apply kept_toy_get]. done.
  - intros E. apply keeps_ret_any.
Qed.

Lemma toy_web_serves : web_answers (W:=ToyAuth) default_policy default_policy toy_serves toy_sound.
Proof.
  intros url accept. unfold guarded_get. destruct (url_parse url) as [e|u] eqn:Eu; [apply keeps_throw|].
  cbn [url_host_str url_port_or_known_default toy_urls]. destruct (negb _); [apply keeps_throw|].
  pose proof toy_outside as Ho.
  eapply keeps_bind.
  { unfold resolve_allowed. eapply keeps_bind; [|intros; apply keeps_lift_any].
    destruct (ip_literal _); [apply keeps_ret_any|apply keeps_map_err, outside_lookup]. }
  intros _ _. eapply keeps_bind.
  { apply keeps_map_err, kept_toy_get. intros name. unfold policy_resolve.
    eapply keeps_bind; [apply outside_lookup|intros; apply keeps_lift_any]. }
  intros r ->. eapply keeps_weaken; [|apply keeps_lift_eq]. intros [body ct] Hr. by exists u.
Qed.

Lemma toy_http_world : HttpWorld (W:=ToyAuth) default_policy default_policy pages_up toy_serves
  (λ proof _ _ v, toy_verify proof = Ok v).
Proof. split; [done..|apply toy_outside|apply toy_web_serves|]. intros. apply keeps_lift_eq. Qed.

Lemma toy_auth_sound : toy_sound toy_auth.
Proof.
  split; [done|]. split; (split; [done|]); (split; [apply Nat.le_0_l|]);
    (split; [apply Nat.le_0_l|]); intros key v at_ Hk; exact (False_ind _ (lookup_empty_Some _ _ Hk)).
Qed.

(** Alice is taken for Alice: her issuer's keys, her profile and the proof say
    so. *)
Lemma authenticate_sound_witness :
  toy_login alice_token = Ok (WebId alice) ∧
  identified (W:=ToyAuth) toy_config (published toy_serves) (vouched toy_serves) (λ proof _ _ v, toy_verify proof = Ok v)
    (Some ("dpop " +:+ alice_token)) (Some (toy_proof "one" "1005")) "GET" "https://pod.example/box" 1000 alice.
Proof.
  assert (toy_login alice_token = Ok (WebId alice)) as Hl by (vm_compute; reflexivity).
  split; [exact Hl|].
  pose proof (authenticate_sound toy_config _ _ _ _
    (http_contract default_policy default_policy pages_up toy_serves _ toy_http_world)
    (Some ("dpop " +:+ alice_token)) (Some (toy_proof "one" "1005")) "GET" "https://pod.example/box" 1000
    toy_auth toy_auth_sound) as [_ Hs].
  exact (Hs _ Hl).
Defined.

(** Mallory's own issuer, which is not on the list. *)
Definition mallory_token : string := toy_token "https://evil_example" "https://alice_example/card#me".

Lemma untrusted_issuer_no_effect_witness :
  ∃ e, authenticate toy_config (Some ("DPoP " +:+ mallory_token)) (Some (toy_proof "one" "1005")) "GET"
         "https://pod.example/box" 1000 toy_auth = (Err e, toy_auth) ∧ e = UntrustedIssuer.
Proof.
  assert (peek_untrusted_issuer mallory_token = Ok "https://evil.example") as Hp by (vm_compute; reflexivity).
  destruct (untrusted_issuer_no_effect toy_config {["https://idp.example"]} (Some ("DPoP " +:+ mallory_token))
    (Some (toy_proof "one" "1005")) "GET" "https://pod.example/box" 1000 mallory_token toy_auth) as (e & Ha & He).
  - reflexivity.
  - vm_compute. reflexivity.
  - intros t iss ->%elem_of_singleton Hi. rewrite Hp in Hi. injection Hi as <-. vm_compute. reflexivity.
  - exists e. split; [exact Ha|]. exact (He _ _ eq_refl Hp).
Defined.
End toy_login.
