(* ===== verification/Validators.v ===== *)
(** Validators: the tag a [GET] serves, and the writes it guards. *)
From S2P Require Import Prelude Str Terms Space Rdf Dataset Patch Store Mem Resource Container.
From S2P Require Import Auxiliary Pdp Guard Shapes Notify Http HttpWrite HttpRead Reads Toy Steps.
From S2P Require Import Edge.
Open Scope list_scope.

(** * Programs that only read, and end in a refusal *)
Section ends.
Context {W : Type} (P : W → Prop).

(** [P] is kept; [Q] is true of what is returned, [R] of what is thrown. *)
Definition ends {E A : Type} (m : M W E A) (Q : A → Prop) (R : E → Prop) : Prop :=
  ∀ w, P w → P (m w).2 ∧ (∀ a, (m w).1 = Ok a → Q a) ∧ (∀ e, (m w).1 = Err e → R e).

Lemma ends_throw {E A} (e : E) (Q : A → Prop) (R : E → Prop) : R e → ends (throw e) Q R.
Proof. intros HR w Hw. split_and!; cbn; naive_solver. Qed.

Lemma ends_panic {E A} (Q : A → Prop) (R : E → Prop) : ends panic Q R.
Proof. intros w Hw. split_and!; cbn; naive_solver. Qed.

Lemma ends_ret {E A} (a : A) (Q : A → Prop) (R : E → Prop) : Q a → ends (ret a) Q R.
Proof. intros HQ w Hw. split_and!; cbn; naive_solver. Qed.

Lemma ends_lift {E A} (o : outcome E A) (Q : A → Prop) (R : E → Prop) :
  (∀ a, o = Ok a → Q a) → (∀ e, o = Err e → R e) → ends (lift o) Q R.
Proof. intros HQ HR w Hw. split_and!; cbn; naive_solver. Qed.

Lemma ends_bind {E A B} (m : M W E A) (k : A → M W E B) (S : A → Prop) Q R :
  ends m S R → (∀ a, S a → ends (k a) Q R) → ends (bind m k) Q R.
Proof.
  intros Hm Hk w Hw. unfold bind. destruct (Hm w Hw) as (HP & HS & HR).
  destruct (m w) as [[a|e|] w']; cbn in *; [|naive_solver..]. by apply (Hk a (HS a eq_refl) w').
Qed.

(** What is thrown is [f] of something. *)
Lemma ends_map_err {E F A} (f : E → F) (m : M W E A) Q (R : F → Prop) :
  keeps P m Q → (∀ e, R (f e)) → ends (map_err f m) Q R.
Proof.
  intros Hm HR w Hw. unfold map_err. destruct (Hm w Hw) as [HP HQ]. destruct (m w) as [[a|e|] w']; cbn in *; naive_solver.
Qed.

Lemma ends_map_err_ends {E F A} (f : E → F) (m : M W E A) Q (R : F → Prop) :
  ends m Q (λ e, R (f e)) → ends (map_err f m) Q R.
Proof.
  intros Hm w Hw. unfold map_err. destruct (Hm w Hw) as (HP & HQ & HR). destruct (m w) as [[a|e|] w']; cbn in *; naive_solver.
Qed.
End ends.

Ltac ends_step :=
  lazymatch goal with
  | |- ends _ (bind _ _) _ _ => eapply ends_bind; [|intros ? ?]
  | |- ends _ (throw _) _ _ => apply ends_throw
  | |- ends _ panic _ _ => apply ends_panic
  | |- ends _ (if ?b then _ else _) _ _ => destruct b
  | |- ends _ (match ?x with _ => _ end) _ _ => destruct x
  end.

(** * The tag that is served *)
Section header_fields.

Lemma h_get_insert_ne h name v name' : name ≠ name' → h_get (h_insert h name v) name' = h_get h name'.
Proof.
  intros Hn. unfold h_get, h_insert. rewrite omap_app. simpl. rewrite (bool_decide_eq_false_2 _ Hn), app_nil_r.
  induction h as [|[a b] h IH]; [done|]. rewrite filter_cons. simpl. destruct (decide (a ≠ name)) as [Ha|Ha]; simpl.
  - destruct (bool_decide_reflect (a = name')); simpl; [done|exact IH].
  - apply dec_stable in Ha as ->. by rewrite (bool_decide_eq_false_2 _ Hn).
Qed.

Lemma h_get_append_ne h name v name' : name ≠ name' → h_get (h_append h name v) name' = h_get h name'.
Proof. intros Hn. unfold h_get, h_append. rewrite omap_app. simpl. by rewrite (bool_decide_eq_false_2 _ Hn), app_nil_r. Qed.

Lemma res_insert_get r name v name' : name ≠ name' → h_get (res_headers (res_insert r name v)) name' = h_get (res_headers r) name'.
Proof. apply h_get_insert_ne. Qed.

Lemma with_aux_links_get r target name : "link" ≠ name →
  h_get (res_headers (with_aux_links r target)) name = h_get (res_headers r) name.
Proof. intros Hn. unfold with_aux_links. destruct (aux_links target); [by apply h_get_append_ne|done]. Qed.

Lemma with_allow_get r target version name :
  Forall (λ n, n ≠ name) ["allow"; "accept-patch"; "accept-put"; "accept-post"] →
  h_get (res_headers (with_allow r target version)) name = h_get (res_headers r) name.
Proof.
  intros Hn. unfold with_allow.
  assert (Forall (λ x : string * string, x.1 ≠ name) (("allow", allowed_methods target) :: accept_fields target version)) as Hall.
  { rewrite !Forall_cons in Hn. destruct Hn as (? & ? & ? & ? & _). unfold accept_fields. constructor; [done|].
    constructor; [done|]. simpl. destruct (accept_write target WPut version), (accept_write target WPost version); simpl;
      repeat constructor; done. }
  revert r. induction Hall as [|[n v] l Hx _ IH]; intros r; [done|]. simpl. rewrite IH. by apply res_insert_get.
Qed.

Lemma with_read_headers_get r target decision version name :
  Forall (λ n, n ≠ name) ["wac-allow"; "link"; "allow"; "accept-patch"; "accept-put"; "accept-post"] →
  h_get (res_headers (with_read_headers r target decision version)) name = h_get (res_headers r) name.
Proof.
  rewrite !Forall_cons. intros (H1 & H2 & Hn). unfold with_read_headers.
  rewrite res_insert_get, with_allow_get, with_aux_links_get; [done|done| |done]. rewrite !Forall_cons. tauto.
Qed.
End header_fields.

Section served.
Context `{Display} `{Hashing} `{BlankSyntax}.

Lemma etag_text_same (d : Skolemized) f v f' v' : etag_text d f v = etag_text d f' v' → f = f' ∧ v = v'.
Proof.
  unfold etag_text. generalize (sort_by str_leb (map (λ q, quad_display (quad_of_ground q)) d)). intros l.
  assert (∀ a b, foldl (λ h l : string, h +:+ l +:+ NL) a l = foldl (λ h l : string, h +:+ l +:+ NL) b l → a = b) as Hl.
  { induction l as [|x l IH]; intros a b; simpl; [done|]. intros E%IH. by apply app_inj_r_s in E. }
  intros E%Hl. by destruct f, f', v, v'.
Qed.

(** The hash tells the representations of one state apart. *)
Definition no_collision (d : Skolemized) : Prop :=
  ∀ f v f' v', sha256_hex (etag_text d f v) = sha256_hex (etag_text d f' v') → etag_text d f v = etag_text d f' v'.

Lemma etag_same (d : Skolemized) f v f' v' : no_collision d → etag d f v = etag d f' v' → f = f' ∧ v = v'.
Proof. intros Hc E. unfold etag in E. apply app_inj_l_s, app_inj_r_s, Hc in E. by apply (etag_text_same d). Qed.

Lemma etag_candidates_iff (d : Skolemized) f v : no_collision d →
  etag d f v ∈ etag_candidates d ↔ v = Rdf11 ∨ v = rdf_version (deskolemize d).
Proof.
  intros Hc. unfold etag_candidates. set (versions := if bool_decide _ then _ else _).
  assert (v ∈ versions ↔ v = Rdf11 ∨ v = rdf_version (deskolemize d)) as <-.
  { unfold versions. case_bool_decide as E.
    - rewrite list_elem_of_singleton, E. tauto.
    - by rewrite elem_of_cons, list_elem_of_singleton. }
  rewrite list_elem_of_bind. split.
  - intros (f' & Ht & _). apply list_elem_of_fmap in Ht as (v' & E & Hv). by destruct (etag_same d _ _ _ _ Hc E) as [_ ->].
  - intros Hv. exists f. split; [by apply list_elem_of_fmap; exists v|].
    assert (omap from_content_type SERVABLE = Format_ALL) as -> by (vm_compute; reflexivity).
    destruct f; unfold Format_ALL; set_solver.
Qed.
End served.

Section read.
Context {W : Type} `{Backend W}.
Context `{IriSyntax} `{HeaderSyntax} `{HeaderText} `{BlankSyntax} `{Hashing} `{ObjectPath} `{Display}
  `{TermDisplay} `{RdfLib}.

(** A request whose only condition is [If-Match]. *)
Lemma if_match_alone tag ts : conditionals_hold [("if-match", tag)] (Some ts) =
  match header_text tag with Some im => bool_decide (im ∈ ts) | None => true end.
Proof.
  unfold conditionals_hold, header_opt.
  assert (h_get [("if-match", tag)] "if-match" = Some tag) as -> by reflexivity.
  assert (h_get [("if-match", tag)] "if-none-match" = None) as -> by reflexivity.
  simpl. by destruct (header_text tag); rewrite andb_true_r.
Qed.

(** C40: the tag a [GET] serves guards a write.  Whatever representation of a dataset
    [GET] negotiates, or finds not modified, its [ETag] is one that [If-Match]
    accepts of that state; with one exception, which the code has no candidate
    for: a resource that holds RDF 1.2 read as RDF 1.2 Basic is served a tag
    that no write can match. *)
Theorem served_tag_matches (r : ResourceUrl) (decision : Decision) (headers : Headers) (stored : Skolemized)
    (stored_type : option Format) (fmt : Format) (requested : RdfVersion) (res : Response)
    (Hnegotiated : negotiate (header_str headers "accept")
                     (if sk_has_named_graphs stored then ShapeDataset else ShapeGraph) stored_type = Some (fmt, requested))
    (Hres : dataset_response r decision headers stored stored_type = Ok res) (Hc : no_collision stored)
    (Htext : ∀ f v, header_text (etag stored f v) = Some (etag stored f v)) :
  ∃ tag, h_get (res_headers res) "etag" = Some tag ∧
    (conditionals_hold [("if-match", tag)] (Some (etag_candidates stored)) = true ↔
     ¬ (requested = Rdf12Basic ∧ rdf_version (deskolemize stored) = Rdf12)).
Proof.
  set (held := rdf_version (deskolemize stored)). set (v := version_min requested held).
  exists (etag stored fmt v). split.
  - unfold dataset_response in Hres. rewrite Hnegotiated in Hres. fold held in Hres. fold v in Hres.
    case_bool_decide.
    { injection Hres as <-. unfold not_modified. rewrite with_read_headers_get; [done|]. repeat constructor; done. }
    destruct (project_to _ v) as [served|]; [|done]. destruct (serialize fmt served); [|done..].
    injection Hres as <-. rewrite with_read_headers_get; [done|]. repeat constructor; done.
  - rewrite if_match_alone, Htext, bool_decide_eq_true, etag_candidates_iff by done. fold held. unfold v, version_min. clear -held.
    destruct requested, held; cbn; intuition congruence.
Qed.
End read.

(** * A write whose precondition fails *)
Section tags.
Context `{Hashing} `{Display} `{BlankSyntax}.

Lemma rdf_version_perm d d' : d ≡ₚ d' → rdf_version d = rdf_version d'.
Proof.
  intros Hp. assert (∀ v, version_leb (rdf_version d) v = true ↔ version_leb (rdf_version d') v = true) as Hv.
  { intros v. unfold rdf_version. rewrite !rdf_version_from_leb. by rewrite Hp. }
  pose proof (Hv (rdf_version d)) as [Hv1 _]. pose proof (Hv (rdf_version d')) as [_ Hv2].
  by destruct (rdf_version d), (rdf_version d'); cbn in *; intuition congruence.
Qed.

(** The candidates are of the set of quads. *)
Lemma etag_candidates_perm (d d' : Skolemized) : d ≡ₚ d' → etag_candidates d = etag_candidates d'.
Proof.
  intros Hp. assert (rdf_version (deskolemize d) = rdf_version (deskolemize d')) as Hv.
  { apply rdf_version_perm. unfold deskolemize. by apply Permutation_map. }
  assert (∀ f v, etag d f v = etag d' f v) as He.
  { intros f v. unfold etag, etag_text. do 4 f_equal. apply sort_strings_canonical. by apply Permutation_map. }
  unfold etag_candidates. rewrite Hv. induction (omap from_content_type SERVABLE) as [|f fs IH]; simpl; [done|].
  f_equal; [|exact IH]. by case_bool_decide; simpl; rewrite ?He.
Qed.
End tags.

(** Not a success. *)
Definition failure (r : Response) : Prop := is_success (res_status r) = false.

Section stale.
Context `{IriSyntax} `{HeaderSyntax} `{HeaderText} `{BlankSyntax} `{Hashing} `{ObjectPath} `{Display}
  `{TermDisplay} `{RdfLib} `{ShaclEngine} `{N3Lib}.
Context (sp : StorageSpace).

Lemma failure_put_error e : failure (put_error e).
Proof. by destruct e as [| |[]|[]| |]. Qed.

Lemma failure_shape_status e : failure (shape_status e).
Proof. by destruct e as [| | | |[| |[]|[]| |]]. Qed.

Lemma failure_denial d t : failure (with_aux_links (denial_response d) t).
Proof. unfold failure. rewrite status_aux_links. by destruct d. Qed.

Lemma failure_body_check t d res : put_body_check t d = Some res → failure res.
Proof. unfold put_body_check. intros Hb. repeat (case_match; simplify_eq; try done). Qed.

Lemma failure_classify headers body target v res : classify_body headers body target v = Err res → failure res.
Proof. unfold classify_body. intros Hb. repeat (case_match; simplify_eq; try done). Qed.

Lemma failure_patch_body headers body target res : patch_body headers body target = Err res → failure res.
Proof. unfold patch_body. intros Hb. repeat (case_match; simplify_eq; try done). Qed.

Section refusals.
Context {W : Type} `{Backend W} `{EventBus W} (P : W → Prop) `{!ReadsKeep P}.
Context (target : Target).

Lemma ends_probe {F} agent (f : Denial → F) (R : F → Prop) : (∀ d, R (f d)) →
  ends P (map_err f (probe agent target)) (λ _, True) R.
Proof.
  intros HR. apply ends_map_err; [|done]. by eapply keeps_weaken; [|apply (keeps_probe P)].
Qed.

Lemma ends_version_check v : ends P (put_version_check target v) (λ _, True) failure.
Proof.
  unfold put_version_check. destruct target as [r|c|a]; [|by apply ends_ret..].
  eapply ends_bind with (λ _, True).
  - apply ends_map_err; [by apply (kept_get_dataset P)|apply failure_put_error].
  - intros [d|] _; [|by apply ends_ret]. cbv zeta. destruct (version_ltb _ _); [by apply ends_throw|by apply ends_ret].
Qed.

Lemma ends_graph_check fmt : ends P (put_graph_check target fmt) (λ _, True) failure.
Proof.
  unfold put_graph_check. destruct target as [r|c|a]; [|by apply ends_ret..].
  destruct (carries_dataset fmt); [by apply ends_ret|]. eapply ends_bind with (λ _, True).
  - apply ends_map_err; [by apply (kept_get_dataset P)|apply failure_put_error].
  - intros [d|] _; [|by apply ends_ret]. destruct (sk_has_named_graphs d); [by apply ends_throw|by apply ends_ret].
Qed.

Context (headers : Headers).
(** The precondition cannot pass. *)
Hypothesis Hstale : keeps P (check_conditionals headers target) (λ _, False).

Lemma ends_stale : ends P (check_conditionals headers target) (λ _, False) failure.
Proof.
  intros w Hw. destruct (Hstale w Hw) as [HP HQ]. split_and!; [done|done|]. clear -w. intros e.
  unfold check_conditionals, bind, map_err. destruct (_ && _); [done|].
  destruct (current_tags target w) as [[ts|x|] w']; cbn; [|intros [= <-]; apply failure_put_error|done].
  destruct (conditionals_hold headers ts); cbn; [done|]. by intros [= <-].
Qed.

Lemma ends_put uuid agent body :
  ends P (put_write sp uuid agent target headers body) (λ _, False) (λ x, failure x.1.1).
Proof.
  unfold put_write. eapply ends_bind; [apply ends_probe; intros d; apply failure_denial|]. intros g _.
  eapply ends_bind with (λ _, True); [apply ends_map_err; [by apply keeps_lift|intros d; apply failure_denial]|]. intros d _.
  eapply ends_bind with (λ _, True).
  { apply ends_lift; [done|]. intros e. destruct (classify_body _ _ _ _) as [|res|] eqn:Eb; try done.
    intros [= <-]. by apply (failure_classify _ _ _ _ _ Eb). }
  intros [dataset fmt declared|bytes mt] _.
  - unfold put_write_rdf. cbv zeta. eapply ends_bind with (λ _, True).
    { destruct (put_body_check target dataset) as [res|] eqn:Eb; [|by apply ends_ret].
      apply ends_throw. by apply (failure_body_check _ _ _ Eb). }
    intros _ _. eapply ends_bind; [apply ends_map_err_ends, ends_version_check|]. intros _ _.
    eapply ends_bind; [apply ends_map_err_ends, ends_graph_check|]. intros _ _.
    eapply ends_bind; [apply ends_map_err_ends, ends_stale|]. done.
  - unfold put_write_blob. pose proof ends_stale as Hs. revert Hs. generalize target.
    intros [r|c|a] Hs; [|by apply ends_panic..]. destruct (negb _); [by apply ends_throw|].
    eapply ends_bind; [apply ends_map_err_ends, Hs|]. done.
Qed.

Lemma ends_patch uuid agent body : ends P (patch_write sp uuid agent target headers body) (λ _, False) failure.
Proof.
  unfold patch_write. eapply ends_bind; [apply ends_probe; intros d; apply failure_denial|]. intros g _.
  eapply ends_bind with (λ _, True); [apply ends_map_err; [by apply keeps_lift|intros d; apply failure_denial]|]. intros d _.
  eapply ends_bind with (λ _, True); [apply ends_lift; [done|apply failure_patch_body]|]. intros patch _.
  destruct (negb _ && negb _); [apply ends_throw, failure_denial|].
  eapply ends_bind with (λ _, False); [|done]. unfold patch_checks.
  eapply ends_bind with (λ _, True).
  { destruct target as [r|c|a]; [|by apply ends_ret..]. eapply ends_bind with (λ _, True).
    - apply ends_map_err; [by apply (kept_kind_of P)|apply failure_put_error].
    - intros [[|mt]|] _; [by apply ends_ret|by apply ends_throw|by apply ends_ret]. }
  intros _ _. eapply ends_bind with (λ _, True).
  { unfold patch_shape_conflict. destruct (shape_container target); [|by apply ends_ret].
    eapply ends_bind with (λ _, True); [apply ends_map_err; [by apply (kept_load_shape sp P)|apply failure_shape_status]|].
    intros [s|] _; [by apply ends_throw|by apply ends_ret]. }
  intros _ _. eapply ends_bind with (λ _, True).
  { destruct target as [r|c|a]; [by apply ends_ret| |by apply ends_ret].
    destruct (patch_sets_containment _ _); [by apply ends_throw|by apply ends_ret]. }
  intros _ _. apply ends_stale.
Qed.
End refusals.

Section dataset.
Context {W : Type} `{BackendLaws W} `{EventBus W} `{!BusLaws W}.
Context (abs : gmap string (Skolemized * Format)) (r : ResourceUrl) (d : Skolemized) (f : Format) (w0 : W)
  (HR : Rep (graphs w0) abs) (Habs : abs !! graph_iri r = Some (d, f))
  (Hkd : keys_distinct abs (graph_iri r) d)
  (Hvalid : Forall (λ n, iri_valid n = true) (sk_named_graphs d)).

Lemma not_binary : ¬ binary_at (graphs w0) (graph_iri r).
Proof.
  intros Hb. pose proof (at_sys _ _ _ _ (HR _ _ _ Habs)) as Hat.
  apply Hat, bookkeeping_elem in Hb as [(E & _)|[(E & _)|(n & _ & [(E & _)|(E & _)])]]; pred_clash.
Qed.

(** The tags of the state that is represented. *)
Lemma wp_current_tags w : same w0 w →
  wp (current_tags (TResource r)) (λ o _, ∀ ts, o = Ok ts → ts = Some (etag_candidates (remove_dups d))) w.
Proof.
  intros [Hg _]. apply wp_bind. eapply wp_wand; [apply wp_kind_of|].
  assert (∀ w', graphs w' = graphs w →
    wp (let! stored := get_dataset r in ret (etag_candidates <$> stored))
      (λ o _, ∀ ts : option (list string), o = Ok ts → ts = Some (etag_candidates (remove_dups d))) w') as Hread.
  { intros w' Hg'. apply wp_bind. eapply wp_wand; [apply (wp_get_dataset abs r d f)|]; try done; [by rewrite Hg', Hg|].
    intros [o|e|] w2; [|done..]. intros [(d' & -> & Hd') _] ts [= <-]. simpl. by rewrite (etag_candidates_perm _ _ Hd'). }
  intros [[[|mt]|]|e|] w' Ho; try done.
  - destruct Ho as (_ & _ & Hs & _). by apply Hread.
  - destruct Ho as (_ & Hb & _). rewrite Hg in Hb. by destruct not_binary.
  - destruct Ho as [_ [Hs _]]. by apply Hread.
Qed.

Lemma stale_fails headers :
  conditionals_hold headers (Some (etag_candidates (remove_dups d))) = false →
  keeps (untouched w0) (check_conditionals headers (TResource r)) (λ _, False).
Proof.
  intros Hc w Hw. destruct (kept_check_conditionals (untouched w0) headers (TResource r) w Hw) as [HP _].
  split; [exact HP|]. clear HP. destruct Hw as [Hs _]. pose proof (wp_current_tags w Hs) as Ht. unfold wp in Ht.
  unfold check_conditionals. destruct (_ && _) eqn:Eh.
  - unfold conditionals_hold, header_opt in Hc. apply andb_true_iff in Eh as [E1 E2].
    destruct (h_get headers "if-match"), (h_get headers "if-none-match"); done.
  - unfold bind, map_err. destruct (current_tags (TResource r) w) as [[ts|e|] w']; cbn; [|done..].
    rewrite (Ht ts eq_refl), Hc. done.
Qed.

(** The handlers that check preconditions, on a resource. *)
Definition conditional (q : action) : option (string * Headers) :=
  match q with
  | Put _ path headers _ | PatchReq _ path headers _ => Some (path, headers)
  | _ => None
  end.

(** C29: a write that lost the race changes nothing.  When [If-Match] names no
    tag of the dataset that a resource holds, or [If-None-Match: *] meets it, a
    [PUT] or [PATCH] of the resource is no success, whoever sends it and
    whatever its body is, and leaves every graph, object and channel as it was. *)
Theorem stale_write_changes_nothing (uuid : nat → string) (q : action) (path : string) (headers : Headers)
    (Hq : conditional q = Some (path, headers))
    (Ht : classify sp ("/" +:+ path) = Ok (TResource r))
    (Hstale : conditionals_hold headers (Some (etag_candidates (remove_dups d))) = false) :
  wp (perform sp uuid q) (λ o w',
    untouched w0 w' ∧ ∀ res, o = Ok (Some res) → is_success (res_status res) = false) w0.
Proof.
  pose proof (stale_fails headers Hstale) as Hs.
  destruct q as [|agent p h body| |agent p h body|]; [done| |done| |done]; injection Hq as -> ->;
    unfold perform, handle_put, handle_patch; rewrite (classified_target _ _ _ _ Ht); apply wp_bind.
  - destruct (ends_put (untouched w0) (TResource r) headers Hs uuid agent body w0 (untouched_refl w0)) as (Hu & Ho & He).
    unfold put_impl. apply wp_bind, wp_returned. unfold wp at 1.
    destruct (put_write sp uuid agent (TResource r) headers body w0) as [[x|[[res ex] mat]|] w']; cbn [fst snd] in *;
      [by destruct (Ho x)| |done].
    specialize (He _ eq_refl). unfold emit_put. cbn in He |- *. rewrite He. split; [done|]. by intros ? [= <-].
  - destruct (ends_patch (untouched w0) (TResource r) headers Hs uuid agent body w0 (untouched_refl w0)) as (Hu & Ho & He).
    unfold patch_impl. apply wp_bind, wp_attempt. unfold wp at 1.
    destruct (patch_write sp uuid agent (TResource r) headers body w0) as [[x|res|] w']; cbn [fst snd] in *;
      [by destruct (Ho x)| |done].
    specialize (He _ eq_refl). split; [done|]. by intros ? [= <-].
Qed.
End dataset.
End stale.

(** * Witnesses *)
Section witnesses.
#[local] Existing Instance toy_iri.
#[local] Existing Instance toy_header.
#[local] Existing Instance toy_text.
#[local] Existing Instance toy_blanks.
#[local] Existing Instance toy_hash.
#[local] Existing Instance toy_path.
#[local] Existing Instance toy_display.
#[local] Existing Instance toy_terms.
#[local] Existing Instance toy_rdf.
#[local] Existing Instance toy_shacl.
#[local] Existing Instance toy_n3.

(** A public read of a resource that holds a triple term. *)
Definition toy_decision : Decision := mkDecision no_modes no_modes.
Definition toy_rdf12 : Skolemized :=
  [mkGroundQuad "urn:s" "urn:p" (GTTriple "urn:s" "urn:p" (GTNamed "urn:o")) GGDefault].

Definition toy_accept (version : string) : Headers := [("accept", "text/turtle;version=" +:+ version)].

Definition answer (o : outcome Response Response) : Response :=
  match o with Ok r | Err r => r | Panicked => internal_error end.

Lemma served_tag_matches_witness :
  (∃ tag, h_get (res_headers (answer (dataset_response toy_url toy_decision (toy_accept "1.2") toy_rdf12 None))) "etag" = Some tag ∧
     conditionals_hold [("if-match", tag)] (Some (etag_candidates toy_rdf12)) = true) ∧
  (∃ tag, h_get (res_headers (answer (dataset_response toy_url toy_decision (toy_accept "1.2-basic") toy_rdf12 None))) "etag" = Some tag ∧
     conditionals_hold [("if-match", tag)] (Some (etag_candidates toy_rdf12)) = false).
Proof.
  assert (no_collision toy_rdf12) as Hc by (intros f v f' v' E; exact E).
  assert (rdf_version (deskolemize toy_rdf12) = Rdf12) as Hv by (vm_compute; reflexivity).
  assert (∀ v r, dataset_response toy_url toy_decision (toy_accept v) toy_rdf12 None = Ok r →
    answer (dataset_response toy_url toy_decision (toy_accept v) toy_rdf12 None) = r) as Ha by (by intros v r ->).
  split.
  - assert (negotiate (header_str (toy_accept "1.2") "accept") ShapeGraph None = Some (Turtle, Rdf12)) as Hn
      by (vm_compute; reflexivity).
    assert (∃ r, dataset_response toy_url toy_decision (toy_accept "1.2") toy_rdf12 None = Ok r) as [r Hr]
      by (eexists; vm_compute; reflexivity).
    destruct (served_tag_matches toy_url toy_decision (toy_accept "1.2") toy_rdf12 None Turtle Rdf12 r Hn Hr Hc (λ _ _, eq_refl))
      as (tag & Ht & Hm). exists tag. rewrite (Ha _ _ Hr). split; [exact Ht|]. apply Hm. by intros [E _].
  - assert (negotiate (header_str (toy_accept "1.2-basic") "accept") ShapeGraph None = Some (Turtle, Rdf12Basic)) as Hn
      by (vm_compute; reflexivity).
    assert (∃ r, dataset_response toy_url toy_decision (toy_accept "1.2-basic") toy_rdf12 None = Ok r) as [r Hr]
      by (eexists; vm_compute; reflexivity).
    destruct (served_tag_matches toy_url toy_decision (toy_accept "1.2-basic") toy_rdf12 None Turtle Rdf12Basic r Hn Hr Hc (λ _ _, eq_refl))
      as (tag & Ht & Hm). exists tag. rewrite (Ha _ _ Hr). split; [exact Ht|].
    destruct (conditionals_hold _ _); [|done]. by destruct (proj1 Hm eq_refl).
Defined.

(** A pod whose owner has written [toy_dataset] to [/box]. *)
Definition toy_held : Mem Bus := mkMem (mem_run toy_ops (m_triples toy_store)) ∅ [] ∅.

Lemma toy_held_rep : Rep (graphs toy_held) {[graph_iri toy_url := (toy_dataset, Turtle)]}.
Proof.
  assert (graphs toy_held = run_ops toy_ops (list_to_set (m_triples toy_store))) as -> by apply mem_run_spec.
  intros i d f Hl. apply lookup_singleton_Some in Hl as [<- Hp].
  rewrite <- (f_equal fst Hp : toy_dataset = d), <- (f_equal snd Hp : Turtle = f).
  apply put_dataset_written; [reflexivity|].
  intros n n' ->%list_elem_of_singleton ->%list_elem_of_singleton _. reflexivity.
Qed.

(** The owner writes with a tag of an earlier state. *)
Definition stale_headers : Headers := [("content-type", "application/trig"); ("if-match", quoted "stale")].

Lemma stale_write_changes_nothing_witness :
  let r := perform toy_space toy_uuid (Put toy_owner "box" stale_headers "") toy_held in
  untouched toy_held r.2 ∧ r.1 = Ok (Some (status_only PRECONDITION_FAILED)).
Proof.
  assert (({[graph_iri toy_url := (toy_dataset, Turtle)]} : gmap string (Skolemized * Format))
            !! graph_iri toy_url = Some (toy_dataset, Turtle)) as Habs by done.
  assert (keys_distinct {[graph_iri toy_url := (toy_dataset, Turtle)]} (graph_iri toy_url) toy_dataset) as Hkd.
  { apply toy_keys_distinct. intros i d f Hl. apply lookup_singleton_Some in Hl as [<- Hp].
    split; [reflexivity|]. exact (eq_sym (f_equal fst Hp)). }
  assert (Forall (λ n, iri_valid n = true) (sk_named_graphs toy_dataset)) as Hvalid
    by (vm_compute; by repeat constructor).
  assert (classify toy_space ("/" +:+ "box") = Ok (TResource toy_url)) as Ht by (vm_compute; reflexivity).
  assert (conditionals_hold stale_headers (Some (etag_candidates (remove_dups toy_dataset))) = false) as Hs
    by (vm_compute; reflexivity).
  split; [|vm_compute; reflexivity].
  exact (proj1 (stale_write_changes_nothing toy_space _ toy_url toy_dataset Turtle toy_held toy_held_rep Habs Hkd Hvalid
    toy_uuid (Put toy_owner "box" stale_headers "") "box" stale_headers eq_refl Ht Hs)).
Defined.
End witnesses.
