(* ===== verification/Written.v ===== *)
(** What a [PUT] wrote is what a [GET] serves: the write handlers and the read
    handlers, through the store. *)
From S2P Require Import Prelude Str Terms Space Rdf Dataset Patch Store Mem Resource Container.
From S2P Require Import Auxiliary Pdp Guard Shapes Notify Http HttpWrite HttpRead Reads Toy Steps.
From S2P Require Import Edge Validators.
Open Scope list_scope.

(** The bus is beside both stores. *)
Class BusBeside (W : Type) `{BackendLaws W} `{EventBus W} : Prop :=
  bus_beside b w : same w (set_bus b w).

(** * The rule of [PUT]

    What a success of [PUT] establishes, from what its ancestor walk and its
    last write do: everything between them only reads. *)
Definition looks {W : Type} `{BackendLaws W} (G : gset located) (O : gmap string string) (w : W) : Prop :=
  graphs w = G ∧ objects w = O.

Section put_rule.
Context `{IriSyntax} `{HeaderSyntax} `{HeaderText} `{BlankSyntax} `{Hashing} `{ObjectPath} `{Display}
  `{TermDisplay} `{RdfLib} `{ShaclEngine} `{N3Lib}.
Context (sp : StorageSpace) (uuid : nat → string).
Context {W : Type} `{BackendLaws W} `{EventBus W} `{!BusBeside W}.

Lemma looks_same G O (w w' : W) : looks G O w → same w w' → looks G O w'.
Proof. intros [<- <-] [Hg Ho]. by split. Qed.

#[export] Instance reads_look G O : ReadsKeep (looks (W:=W) G O).
Proof.
  split; intros q w Hl; (split; [|done]); eapply looks_same; try exact Hl.
  - pose proof (query_triples_law q w). destruct (query_triples q w) as [[]]; unfold same; naive_solver.
  - pose proof (ask_law q w). destruct (ask q w) as [[]]; unfold same; naive_solver.
  - pose proof (query_solutions_law q w). destruct (query_solutions q w) as [[]]; unfold same; naive_solver.
  - pose proof (blob_get_law q w). destruct (blob_get q w) as [[]]; unfold same; naive_solver.
Qed.

(** ** The checks *)
Section checks.
Context (P : W → Prop) `{!ReadsKeep P}.

Lemma ends_conditionals headers target : ends P (check_conditionals headers target) (λ _, True) failure.
Proof.
  unfold check_conditionals. destruct (_ && _); [by apply ends_ret|]. eapply ends_bind with (λ _, True).
  - apply ends_map_err; [by apply (kept_current_tags P)|apply failure_put_error].
  - intros ts _. destruct (conditionals_hold headers ts); [by apply ends_ret|by apply ends_throw].
Qed.

Lemma ends_shape target d : ends P (enforce_shape sp target d) (λ _, True) failure.
Proof.
  unfold enforce_shape. destruct (shape_container target) as [c|]; [|by apply ends_ret].
  eapply ends_bind with (λ _, True); [apply ends_map_err; [by apply (kept_load_shape sp P)|apply failure_shape_status]|].
  intros [s|] _; [|by apply ends_ret]. eapply ends_bind with (λ _, True).
  - apply ends_lift; [done|]. intros e. destruct (validate _ _); [done| |done]. intros [= <-]. apply failure_shape_status.
  - intros rep _. destruct (refuses rep); [apply ends_throw|by apply ends_ret]. unfold refusal_of_report.
    by destruct (header_valid _).
Qed.

Lemma wp_ends {E A B} (m : M W E A) (k : A → M W E B) Q R Φ w :
  ends P m Q R → P w → (∀ a w', Q a → P w' → wp (k a) Φ w') → (∀ e w', R e → Φ (Err e) w') →
  (∀ w', Φ Panicked w') → wp (bind m k) Φ w.
Proof.
  intros Hm Hw Hk He Hp. apply wp_bind. unfold wp. destruct (Hm w Hw) as (HP & HQ & HR).
  destruct (m w) as [[a|e|] w']; cbn in *; [apply Hk|apply He|apply Hp]; auto.
Qed.
End checks.

(** ** The walk and the write *)
Definition on_success (Q : W → Prop) (o : outcome PutResult PutResult) (w : W) : Prop :=
  ∀ x, o = Ok x ∨ o = Err x → is_success (res_status x.1.1) = true → Q w.

Lemma on_failure Q (e : PutResult) w : failure e.1.1 → on_success Q (Err e) w.
Proof. unfold failure. intros Hf x [E|E]; [done|]. injection E as <-. by rewrite Hf. Qed.

Lemma on_panic Q w : on_success Q Panicked w.
Proof. by intros x []. Qed.

Context (target : Target) (w : W) (walked Q : W → Prop).

(** A probe of the world the request found. *)
Record probe_of (g : Guard) : Prop := {
  po_target : g_target g = target;
  po_chain : g_chain g = chain_of (subject_of target);
  po_faithful : faithful (graphs w) g
}.

Definition walk_makes : Prop :=
  ∀ g w', probe_of g → same w w' → wp (materialize g) (λ o w2, ∀ m, o = Ok m → walked w2) w'.

Definition write_makes (repr : Repr) : Prop :=
  match repr with
  | ReprRdf dataset fmt _ => ∀ w', walked w' → uses_reserved_namespace dataset = false →
      wp (put_store sp uuid target dataset (skolemize uuid dataset) fmt) (λ o w2,
        match o with Ok res => is_success (res_status res) = true → Q w2 | Err res => failure res | _ => True end) w'
  | ReprBlob bytes mt => ∀ r w', target = TResource r → walked w' →
      wp (put_blob r bytes mt) (λ o w2, o = Ok tt → Q w2) w'
  end.

Notation here := (looks (graphs w) (objects w)).

(** Past a step that changes nothing, or ends in a failure. *)
Ltac skip t :=
  eapply (wp_ends here _ _ (λ _, True) (λ x : PutResult, failure x.1.1));
    [t|done|intros ? ? _ ?|by intros; apply on_failure|by intros; apply on_panic].

Lemma status_report_link t res : res_status (report_link t res) = res_status res.
Proof. unfold report_link. destruct t; try done; by destruct (header_valid _). Qed.

Lemma rdf_rule g headers existence dataset fmt v w1 : walk_makes → write_makes (ReprRdf dataset fmt v) →
  probe_of g → here w1 → wp (put_write_rdf sp uuid g target headers existence dataset fmt v) (on_success Q) w1.
Proof.
  intros Hwalk Hwrite Hg Hw1. unfold put_write_rdf. cbv zeta.
  destruct (put_body_check target dataset) as [res|] eqn:Eb.
  { apply wp_bind, wp_throw, on_failure, (failure_body_check _ _ _ Eb). }
  assert (uses_reserved_namespace dataset = false) as Hres.
  { unfold put_body_check in Eb. by destruct (uses_reserved_namespace dataset). }
  apply wp_bind, wp_ret.
  skip ltac:(apply ends_map_err_ends, (ends_version_check here)).
  skip ltac:(apply ends_map_err_ends, (ends_graph_check here)).
  skip ltac:(apply ends_map_err_ends, (ends_conditionals here)).
  skip ltac:(apply ends_map_err_ends, (ends_shape here)).
  apply wp_bind, wp_map_err. eapply wp_wand; [by apply Hwalk|].
  intros [m|d|] w6 HM; cbn [omap_err]; [|apply on_failure, failure_denial|apply on_panic].
  apply wp_bind, wp_map_err. eapply wp_wand; [by apply Hwrite; [apply (HM m)|]|].
  intros [res|res|] w7 Ho; cbn [omap_err]; [|by apply on_failure|apply on_panic].
  apply wp_ret. intros x [E|E]; [|done]. injection E as <-. cbn [fst].
  intros Hs. apply Ho. destruct (_ && _); [by rewrite status_report_link in Hs|done].
Qed.

Lemma blob_rule g headers existence bytes mt w1 : walk_makes → write_makes (ReprBlob bytes mt) →
  probe_of g → here w1 → wp (put_write_blob g target headers existence bytes mt) (on_success Q) w1.
Proof.
  intros Hwalk Hwrite Hg Hw1. unfold put_write_blob. destruct target as [r|c|a] eqn:Et; [|apply on_panic..].
  destruct (negb _); [by apply wp_throw, on_failure|]. rewrite <- Et in *.
  skip ltac:(apply ends_map_err_ends, (ends_conditionals here)).
  apply wp_bind, wp_map_err. eapply wp_wand; [by apply Hwalk|].
  intros [m|d|] w6 HM; cbn [omap_err]; [|apply on_failure, failure_denial|apply on_panic].
  apply wp_bind, wp_attempt. eapply wp_wand; [by apply (Hwrite r); [|apply (HM m)]|].
  intros [[]|e|] w7 Ho; [| |apply on_panic]; apply wp_ret; intros x [E|E]; try done; injection E as <-; cbn [fst].
  - auto.
  - destruct e; try done; by rewrite failure_put_error.
Qed.

Lemma failure_classify_body headers body v res : classify_body headers body target v = Err res → failure res.
Proof. unfold classify_body. repeat case_match; intros [= <-]; done. Qed.

Lemma put_write_rule agent headers body : url_in sp (subject_of target) → walk_makes →
  (∀ repr, classify_body headers body target store_rdf_version = Ok repr → write_makes repr) →
  wp (put_write sp uuid agent target headers body) (on_success Q) w.
Proof.
  intros Hin Hwalk Hwrite. unfold put_write. apply wp_bind, wp_map_err.
  eapply wp_wand; [by apply (wp_probe sp)|]. intros [g|d|] w1 Hg; cbn [omap_err]; [|apply on_failure, failure_denial|done].
  destruct Hg as (_ & Hgt & Hgc & Hgf & Hs). assert (probe_of g) as Hg by by split.
  assert (here w1) as Hw1 by by eapply looks_same.
  apply wp_bind, wp_map_err, wp_lift. destruct (authorize g Write) as [?|d|]; cbn [omap_err];
    [|apply on_failure, failure_denial|apply on_panic].
  apply wp_bind, wp_lift. destruct (classify_body headers body target store_rdf_version) as [repr|res|] eqn:Eb; cbn [omap_err].
  - specialize (Hwrite repr eq_refl). destruct repr; [by apply rdf_rule|by apply blob_rule].
  - by eapply on_failure, failure_classify_body.
  - apply on_panic.
Qed.

(** ** The announcement *)
Lemma look_on_bus {E A} G O (f : Bus → A * Bus) : keeps (looks G O) (on_bus f : M W E A) (λ _, True).
Proof.
  intros w' Hl. split; [|done]. unfold on_bus. destruct (f (get_bus w')) as [a b]. cbn.
  eapply looks_same; [exact Hl|apply bus_beside].
Qed.
#[local] Hint Resolve reads_look look_on_bus : keeps.

Lemma look_state_of {E} G O t : keeps (looks G O) (state_of t : M W E (option string)) (λ _, True).
Proof. unfold state_of, state_of_graph, ok_flatten. follow. Qed.
#[local] Hint Resolve look_state_of : keeps.

Lemma look_publish_own {E} G O t a : keeps (looks G O) (publish_own t a : M W E unit) (λ _, True).
Proof. unfold publish_own, is_live, publish. follow. Qed.

Lemma look_publish_link {E} G O a c i : keeps (looks G O) (publish_link a c i : M W E unit) (λ _, True).
Proof. unfold publish_link, is_live, publish. follow. Qed.
#[local] Hint Resolve look_publish_own look_publish_link : keeps.

Lemma look_emit_put {E} G O t e m n : keeps (looks G O) (emit_put t e m n : M W E unit) (λ _, True).
Proof.
  unfold emit_put. assert (∀ i m, keeps (looks G O) (publish_containment i m : M W E unit) (λ _, True)).
  { intros i' m'. unfold publish_containment. keeps_step; apply keeps_for_each; intros; follow. }
  follow.
Qed.

Lemma put_rule {E} agent headers body : url_in sp (subject_of target) → walk_makes →
  (∀ repr, classify_body headers body target store_rdf_version = Ok repr → write_makes repr) →
  (∀ w1 w2, Q w1 → looks (graphs w1) (objects w1) w2 → Q w2) →
  wp (put_impl sp uuid agent target headers body : M W E Response)
    (λ o w', ∀ res, o = Ok res → is_success (res_status res) = true → Q w') w.
Proof.
  intros Hin Hwalk Hwrite Hst. unfold put_impl. apply wp_bind, wp_returned.
  eapply wp_wand; [by apply put_write_rule|]. intros o w1 Ho.
  assert (∀ x, (o = Ok x ∨ o = Err x) →
    wp (let '(res, existence, materialized) := x in do! emit_put target existence materialized (res_status res) in ret res)
      (λ (o : outcome E Response) w', ∀ res, o = Ok res → is_success (res_status res) = true → Q w') w1) as Hx.
  { intros [[res ex] mat] Ex. specialize (Ho _ Ex). cbn in Ho. apply wp_bind. unfold wp.
    destruct (look_emit_put (E:=E) (graphs w1) (objects w1) target ex mat (res_status res) w1) as [Hl _]; [done|].
    destruct (emit_put target ex mat (res_status res) w1) as [[u|e|] w2]; cbn in *; [|done..].
    intros res' [= <-] Hs. by eapply Hst; [apply Ho|]. }
  destruct o as [x|x|]; [by apply Hx; left|by apply Hx; right|done].
Qed.
End put_rule.

(** * The rule of [GET] *)
Section get_rule.
Context `{IriSyntax} `{HeaderSyntax} `{HeaderText} `{BlankSyntax} `{Hashing} `{ObjectPath} `{Display}
  `{TermDisplay} `{RdfLib} `{ShaclEngine} `{N3Lib}.
Context {W : Type} `{BackendLaws W} `{EventBus W}.

(** A read by whoever may. *)
Lemma wp_get_impl {E} t agent headers (Q : Response → Prop) (w : W) :
  (∀ decision w', same w w' → wp (match t with TResource r => get_resource r decision headers | _ => legacy_graph_read decision t headers end)
     (λ o _, match o with Ok res => res_status res = OK → Q res | Err res => failure res | _ => True end) w') →
  wp (get_impl agent t headers : M W E Response) (λ o _, ∀ res, o = Ok res → res_status res = OK → Q res) w.
Proof.
  intros Hr. unfold get_impl. apply wp_returned. unfold get_write.
  assert (∀ res (w' : W), failure res → ∀ res', Ok (E:=E) res = Ok res' → res_status res' = OK → Q res') as Hf.
  { intros res w' Hx res' [= <-] Hs. unfold failure in Hx. by rewrite Hs in Hx. }
  apply wp_bind, wp_map_err. unfold wp at 1.
  destruct (keeps_probe (looks (graphs w) (objects w)) agent t w) as [Hl _]; [done|].
  destruct (probe agent t w) as [[g|d|] w1]; cbn [fst snd omap_err] in *; [|by apply Hf, failure_denial|done].
  apply wp_bind, wp_map_err, wp_lift. destruct (authorize g Read) as [decision|d|]; cbn [omap_err]; [|by apply Hf, failure_denial|done].
  eapply wp_wand; [by apply (Hr decision)|]. intros [res|res|] w2 Ho; [|by apply Hf|done]. by intros res' [= <-].
Qed.
End get_rule.

(** * What is written *)
Section written.
Context `{IriSyntax} `{HeaderSyntax} `{HeaderText} `{BlankSyntax} `{Hashing} `{ObjectPath} `{Display}
  `{TermDisplay} `{RdfLib} `{ShaclEngine} `{N3Lib}.
Context (sp : StorageSpace) (uuid : nat → string).
Context {W : Type} `{BackendLaws W} `{EventBus W} `{!BusBeside W}.

Definition names_apart (r : ResourceUrl) (d : Skolemized) : Prop :=
  ∀ n n', n ∈ sk_named_graphs d → n' ∈ sk_named_graphs d → key_at (graph_iri r) n = key_at (graph_iri r) n' → n = n'.

(** The stores hold the representation a body is. *)
Definition wrote (r : ResourceUrl) (repr : Repr) (w : W) : Prop :=
  match repr with
  | ReprRdf dataset fmt _ =>
      dataset_at (graphs w) (graph_iri r) (skolemize uuid dataset) fmt ∧
      Forall (λ n, iri_valid n = true) (sk_named_graphs (skolemize uuid dataset)) ∧
      uses_reserved_namespace dataset = false
  | ReprBlob bytes mt =>
      (∃ key, blob_key_of r = Some key ∧ objects w !! key = Some bytes) ∧
      ∀ p o, recorded (graphs w) (sys_graph_iri (graph_iri r)) (graph_iri r) p o ↔
        (p = SYS_PRESENT ∧ o = lit_true) ∨ (p = RDF_TYPE ∧ o = TNamed SYS_BINARY_RESOURCE) ∨
        (p = SYS_MEDIA_TYPE ∧ o = TLiteral (simple_literal (mt_raw mt)))
  end.

Context (r : ResourceUrl) (Hweb : web (graph_iri r)).
Notation target := (TResource r).

Lemma put_dataset_wrote dataset fmt v (w : W) : uses_reserved_namespace dataset = false →
  names_apart r (skolemize uuid dataset) →
  wp (put_dataset r (skolemize uuid dataset) fmt) (λ o w', o = Ok tt → wrote r (ReprRdf dataset fmt v) w') w.
Proof.
  intros Hres Hk. apply wp_put_dataset; [|done..]. intros ks w' Hks Hv Hg _ _. split; [|split; [|done]].
  - rewrite Hg, split_dataset_spec by done. by apply put_dataset_written.
  - rewrite split_dataset_spec in Hv by done. by apply Forall_fmap in Hv.
Qed.

Lemma put_blob_wrote bytes mt (w : W) :
  wp (put_blob r bytes mt) (λ o w', o = Ok tt → wrote r (ReprBlob bytes mt) w') w.
Proof.
  apply wp_put_blob; [|done..]. intros ks key w' _ Hkey Hg Ho _. split.
  - exists key. split; [done|]. by rewrite Ho, lookup_insert_eq.
  - rewrite Hg. apply put_blob_recorded.
Qed.

Definition repr_apart (repr : Repr) : Prop :=
  match repr with ReprRdf dataset _ _ => names_apart r (skolemize uuid dataset) | _ => True end.

Lemma put_store_wrote dataset fmt v (w : W) : uses_reserved_namespace dataset = false →
  names_apart r (skolemize uuid dataset) →
  wp (put_store sp uuid target dataset (skolemize uuid dataset) fmt)
    (λ o w', match o with Ok res => is_success (res_status res) = true → wrote r (ReprRdf dataset fmt v) w' | Err _ => False | _ => True end) w.
Proof.
  intros Hres Hk. unfold put_store. apply wp_bind, wp_attempt. eapply wp_wand; [by apply (put_dataset_wrote _ _ v)|].
  intros [[]|e|] w' Ho; [| |done].
  - apply wp_ret. auto.
  - apply wp_ret. by rewrite failure_put_error.
Qed.

Lemma wrote_looks repr w w' : wrote r repr w → looks (graphs w) (objects w) w' → wrote r repr w'.
Proof. intros Hw [Hg Ho]. destruct repr; cbn in *; rewrite Hg; [done|by rewrite Ho]. Qed.

Lemma put_impl_wrote {E} agent headers body repr (w : W) : url_in sp r →
  classify_body headers body target store_rdf_version = Ok repr → repr_apart repr →
  wp (put_impl sp uuid agent target headers body : M W E Response)
    (λ o w', ∀ res, o = Ok res → is_success (res_status res) = true → wrote r repr w') w.
Proof.
  intros Hin Hb Hk. apply (put_rule sp uuid target w (λ _, True) (wrote r repr)); [done| | |].
  - intros g w' _ _. unfold wp. by intros m Em.
  - rewrite Hb. intros ? [= <-]. destruct repr as [dataset fmt v|bytes mt].
    + intros w' _ Hres. eapply wp_wand; [by apply (put_store_wrote dataset fmt v)|]. by intros [res|res|] w2 Ho.
    + intros r' w' [= <-] _. apply put_blob_wrote.
  - intros w1 w2. apply wrote_looks.
Qed.

(** ** Reading back *)
Lemma written_rep dataset fmt v w : wrote r (ReprRdf dataset fmt v) w →
  Rep (graphs w) {[graph_iri r := (skolemize uuid dataset, fmt)]}.
Proof. intros (Hd & _) i d f Hl. apply lookup_singleton_Some in Hl as [<- E]. by injection E as <- <-. Qed.

Lemma written_apart dataset fmt : names_apart r (skolemize uuid dataset) →
  keys_distinct {[graph_iri r := (skolemize uuid dataset, fmt)]} (graph_iri r) (skolemize uuid dataset).
Proof.
  intros Hk. assert (∀ i n, in_use {[graph_iri r := (skolemize uuid dataset, fmt)]} (graph_iri r) (skolemize uuid dataset) i n →
    i = graph_iri r ∧ n ∈ sk_named_graphs (skolemize uuid dataset)) as Hu.
  { intros i n [(d & f & Hl & Hn)|[-> Hn]]; [|done]. apply lookup_singleton_Some in Hl as [<- E]. by injection E as <- <-. }
  intros i n i' n' [-> Hn]%Hu [-> Hn']%Hu E. split; [done|]. by apply Hk.
Qed.

Lemma trim_format f : trim (format_media_type f) = format_media_type f.
Proof. by destruct f. Qed.

Lemma format_back f m : parse_media_type (format_media_type f) = Some m → from_content_type (mt_raw m) = Some f.
Proof.
  intros Hm. apply media_type_safe in Hm as [-> _]. rewrite trim_format. by destruct f.
Qed.

(** The format the registry gives, when it can be read. *)
Lemma wp_stored_format {E} dataset fmt v (w : W) : wrote r (ReprRdf dataset fmt v) w →
  wp (ok_flatten (stored_media_type r) : M W E (option MediaType))
    (λ o w', ∃ mt, o = Ok mt ∧ ((m ← mt; from_content_type (mt_raw m)) = None ∨
                                (m ← mt; from_content_type (mt_raw m)) = Some fmt)) w.
Proof.
  intros (Hd & _). unfold ok_flatten. apply wp_bind, wp_attempt. apply wp_bind, wp_store_op, wp_query_triples.
  - intros ts w1 _ _ Hts. cbn [omap_err]. apply wp_ret, wp_ret. eexists; split; [done|].
    destruct (find_map _ ts) as [m|] eqn:Ef; [|by left]. right. cbn.
    apply find_map_Some in Ef as (t & Hin & Ht). apply format_back.
    apply Hts in Hin. rewrite answers_objects in Hin. destruct Hin as [Hr _]. unfold recorded in Hr.
    rewrite (at_sys _ _ _ _ Hd), bookkeeping_elem in Hr. destruct Hr as [(E1 & _)|[(_ & _ & Eo)|(n & _ & [(E1 & _)|(E1 & _)])]]; [pred_clash| |pred_clash..].
    rewrite Eo in Ht. exact Ht.
  - intros e w1 _. apply wp_ret. eexists; split; [done|by left].
Qed.

Definition served_from (dataset : Dataset) (fmt : Format) (decision : Decision) (headers : Headers) (res : Response) : Prop :=
  ∃ stored st, stored ≡ₚ remove_dups (skolemize uuid dataset) ∧ (st = None ∨ st = Some fmt) ∧
    dataset_response r decision headers stored st = Ok res.

Lemma get_written_dataset dataset fmt v decision headers (w : W) :
  wrote r (ReprRdf dataset fmt v) w → names_apart r (skolemize uuid dataset) →
  wp (get_resource r decision headers) (λ o _,
    match o with Ok res => served_from dataset fmt decision headers res | Err res => failure res | _ => True end) w.
Proof.
  intros Hw Hk. pose proof Hw as (Hd & Hv & _). unfold get_resource.
  assert (present_at (graph_iri r) ∈ graphs w) as Hp by (apply (at_sys _ _ _ _ Hd), bookkeeping_elem; by left).
  assert (¬ binary_at (graphs w) (graph_iri r)) as Hn.
  { by apply (not_binary {[graph_iri r := (skolemize uuid dataset, fmt)]} r (skolemize uuid dataset) fmt w (written_rep _ _ _ _ Hw)), lookup_singleton_eq. }
  apply wp_bind, wp_map_err. eapply wp_wand; [apply wp_kind_of|]. intros [[[|mt]|]|e|] w1 Ho; cbn [omap_err].
  - destruct Ho as (_ & _ & Hs). apply wp_bind, wp_map_err.
    assert (wrote r (ReprRdf dataset fmt v) w1) as Hw1 by (by eapply wrote_looks).
    eapply wp_wand; [apply (wp_get_dataset {[graph_iri r := (skolemize uuid dataset, fmt)]} r (skolemize uuid dataset) fmt);
      [by eapply written_rep|apply lookup_singleton_eq|by apply written_apart|done]|].
    intros [o|e|] w2 Ho; cbn [omap_err]; [|by destruct e as [| |[]|[]| |]|done].
    destruct Ho as [(stored & -> & Hst) Hs2]. apply wp_bind.
    eapply wp_wand; [apply (wp_stored_format dataset fmt v); by eapply wrote_looks|].
    intros o w3 (mt & -> & Hmt). apply wp_lift. destruct (dataset_response r decision headers stored _) as [res|res|] eqn:Er; [|..|done].
    + exists stored, (m ← mt; from_content_type (mt_raw m)). by split_and!.
    + unfold dataset_response in Er. destruct (negotiate _ _ _) as [[f q]|]; [|by injection Er as <-].
      case_bool_decide; [done|]. destruct (project_to _ _); [|done]. destruct (serialize f _); [done|by injection Er as <-|done].
  - by destruct Ho as (_ & Hb & _).
  - by destruct Ho.
  - by destruct e as [| |[]|[]| |].
  - done.
Qed.

Lemma get_written_blob bytes mt decision headers (w : W) : parse_media_type (mt_raw mt) = Some mt →
  wrote r (ReprBlob bytes mt) w →
  wp (get_resource r decision headers) (λ o _,
    match o with
    | Ok res => res_status res = OK → res_body res = bytes ∧ h_get (res_headers res) "content-type" = Some (mt_header mt)
    | Err res => failure res
    | _ => True
    end) w.
Proof.
  intros Hmt [(key & Hkey & Hobj) Hrec]. unfold get_resource.
  assert (present_at (graph_iri r) ∈ graphs w) as Hp by (apply (proj2 (Hrec _ _)); left; done).
  assert (binary_at (graphs w) (graph_iri r)) as Hb by (apply (proj2 (Hrec _ _)); right; left; done).
  apply wp_bind, wp_map_err. eapply wp_wand; [apply wp_kind_of|]. intros [[[|mt']|]|e|] w1 Ho; cbn [omap_err].
  - by destruct Ho as (_ & Hn & _).
  - destruct Ho as (_ & _ & [_ Ho] & l & Hl & Em).
    assert (mt' = mt) as ->.
    { apply Hrec in Hl as [[E _]|[[E _]|[_ El]]]; [pred_clash..|]. injection El as ->. cbn in Em. rewrite Hmt in Em. by injection Em. }
    unfold blob_read. destruct (negb _); [by apply wp_throw|]. rewrite Hkey.
    apply wp_bind, wp_map_err. unfold wp at 1. pose proof (blob_get_law key w1) as Hl2.
    destruct (blob_get key w1) as [[o|e|] w2]; [|done..]. destruct Hl2 as (_ & _ & ->). cbn [omap_err fst snd]. rewrite Ho, Hobj.
    cbn [omap_err fst snd]. case_bool_decide; apply wp_ret.
    + done.
    + intros _. split; [done|]. rewrite with_allow_get, with_aux_links_get; [done|done|]. repeat constructor; done.
  - by destruct Ho.
  - by destruct e as [| |[]|[]| |].
  - done.
Qed.

Lemma body_read_headers res t decision v : res_body (with_read_headers res t decision v) = res_body res.
Proof.
  unfold with_read_headers, with_allow, with_aux_links. generalize (("allow", allowed_methods t) :: accept_fields t v).
  intros l. assert (∀ r', res_body (foldl (λ res x, res_insert res x.1 x.2) r' l) = res_body r') as Hl.
  { induction l as [|x l IH]; intros r'; [done|]. cbn. by rewrite IH. }
  cbn. rewrite Hl. by destruct (aux_links t).
Qed.

Lemma status_read_headers res t decision v : res_status (with_read_headers res t decision v) = res_status res.
Proof.
  unfold with_read_headers, with_allow, with_aux_links. generalize (("allow", allowed_methods t) :: accept_fields t v).
  intros l. assert (∀ r', res_status (foldl (λ res x, res_insert res x.1 x.2) r' l) = res_status r') as Hl.
  { induction l as [|x l IH]; intros r'; [done|]. cbn. by rewrite IH. }
  cbn. rewrite Hl. by destruct (aux_links t).
Qed.

(** What a [200] of a dataset holds. *)
Lemma served_body dataset fmt decision headers res : served_from dataset fmt decision headers res → res_status res = OK →
  ∃ stored st fmt' v served, stored ≡ₚ remove_dups (skolemize uuid dataset) ∧ (st = None ∨ st = Some fmt) ∧
    negotiate (header_str headers "accept") (if has_named_graphs dataset then ShapeDataset else ShapeGraph) st = Some (fmt', v) ∧
    project_to (if carries_dataset fmt' then deskolemize stored else default_graph_only (deskolemize stored))
      (version_min v (rdf_version (deskolemize stored))) = Some served ∧
    serialize fmt' served = Ok (res_body res).
Proof.
  intros (stored & st & Hs & Hst & Hr) Hok. exists stored, st. unfold dataset_response in Hr.
  assert (sk_has_named_graphs stored = has_named_graphs dataset) as Hn.
  { destruct (named_graphs_agree uuid dataset) as [<- _]. apply eq_true_iff_eq. rewrite !sk_has_named_graphs_spec.
    by setoid_rewrite Hs; setoid_rewrite elem_of_remove_dups. }
  rewrite Hn in Hr. destruct (negotiate _ _ _) as [[fmt' v]|] eqn:En; [|done]. exists fmt', v.
  case_bool_decide; [injection Hr as <-; unfold not_modified in Hok; by rewrite status_read_headers in Hok|].
  destruct (project_to _ _) as [served|] eqn:Ep; [|done]. exists served.
  destruct (serialize fmt' served) as [bytes|e|] eqn:Eb; [|done..]. injection Hr as <-. rewrite body_read_headers.
  split_and!; done.
Qed.

Lemma classify_resource path : space_wf sp → classify sp path = Ok target → url_in sp r ∧ web (graph_iri r).
Proof.
  intros Hsp Ht. assert (url_in sp r) as Hin by apply (classify_valid sp Hsp _ _ Ht).
  split; [done|by apply (url_web sp)].
Qed.

(** A body that is no RDF is kept as it is. *)
Lemma classify_blob headers body bytes mt : classify_body headers body target store_rdf_version = Ok (ReprBlob bytes mt) →
  bytes = body ∧ parse_media_type (mt_raw mt) = Some mt.
Proof.
  intros Hb. unfold classify_body in Hb. repeat (case_match; simplify_eq; try done).
  split; [done|]. match goal with E : parse_media_type _ = Some mt |- _ => by apply media_type_safe in E as (_ & _ & _ & _ & ?) end.
Qed.
End written.

Section roundtrip.
Context `{IriSyntax} `{HeaderSyntax} `{HeaderText} `{BlankSyntax} `{Hashing} `{ObjectPath} `{Display}
  `{TermDisplay} `{RdfLib} `{ShaclEngine} `{N3Lib}.
Context (sp : StorageSpace) (Hsp : space_wf sp) (uuid : nat → string).
Context {W : Type} `{BackendLaws W} `{EventBus W} `{!BusBeside W}.
Context (r : ResourceUrl) (path : string) (Ht : classify sp ("/" +:+ path) = Ok (TResource r)).


(** C9: bytes come back as they were.  A [PUT] of a body that is no RDF, answered
    with a success, and then a [GET] that is answered [200]: the body is those
    bytes, under the media type they were sent with. *)
Theorem put_then_get_bytes (agent agent' : Agent) (headers headers' : Headers) (body bytes : string) (mt : MediaType) (w : W)
    (Hb : classify_body headers body (TResource r) store_rdf_version = Ok (ReprBlob bytes mt)) :
  wp (handle_put (E:=Response) sp uuid agent path headers body) (λ o w1,
    ∀ res, o = Ok res → is_success (res_status res) = true →
    wp (handle_get (E:=Response) sp agent' path None headers') (λ o' _,
      ∀ res', o' = Ok res' → res_status res' = OK →
      bytes = body ∧ res_body res' = bytes ∧ h_get (res_headers res') "content-type" = Some (mt_header mt)) w1) w.
Proof.
  unfold handle_put. rewrite (classified_target _ _ _ _ Ht). destruct (classify_resource sp r _ Hsp Ht) as [Hin Hw].
  destruct (classify_blob r headers body bytes mt Hb) as [Hby Hmt].
  eapply wp_wand; [by apply (put_impl_wrote sp uuid r Hw agent headers body (ReprBlob bytes mt))|].
  intros o w1 Ho res Eo Hs. specialize (Ho res Eo Hs).
  unfold handle_get. rewrite Ht. cbn [wants_validation].
  apply (wp_get_impl (TResource r) agent' headers').
  intros decision w2 Hs2. eapply wp_wand.
  { apply (get_written_blob uuid r bytes mt); [done|by eapply wrote_looks]. }
  intros [res'|res'|] w3 Hx; [|done..]. intros Hok. split; [done|]. by apply Hx.
Qed.
End roundtrip.

(** * A pod whose owner writes and reads *)
Section witnesses.
#[local] Existing Instance toy_iri.
#[local] Existing Instance toy_header.
#[local] Existing Instance toy_text.
#[local] Existing Instance toy_blanks.
#[local] Existing Instance toy_hash.
#[local] Existing Instance toy_path.
#[local] Existing Instance toy_display.
#[local] Existing Instance toy_terms.
#[local] Existing Instance toy_shacl.
#[local] Existing Instance toy_n3.

#[local] Instance mem_bus_beside : BusBeside (Mem Bus).
Proof. by intros b w. Qed.

(** A document with a blank node and a named graph. *)
Definition drawn : Dataset :=
  [Quad (SBlank "x") "http://e/p" (TNamed "http://e/o") GDefault;
   Quad (SNamed "http://e/s") "http://e/p" (TBlank "x") (GNamed "http://e/g")].

#[local] Instance drawing_rdf : RdfLib := {|
  rdf_formats f := match f with TriG | JsonLd | NQuads => true | _ => false end;
  rdf_parse _ _ _ := inr drawn;
  rdf_serialize _ d := inr (pretty (length d))
|}.

Definition trig_headers : Headers := [("content-type", "application/trig")].
Definition png_headers : Headers := [("content-type", "image/png")].

(** The response and the world of a call that returned one. *)
Definition response_of (o : outcome Response Response) : Response :=
  match o with Ok res => res | _ => internal_error end.

(** The owner may read, too. *)
Definition open_store : Mem Bus :=
  mkMem ((acl_of toy_root, Triple (SNamed "https://pod.example/.aux/.acl#owner") ACL_MODE (TNamed ACL_READ)) ::
         m_triples toy_store) ∅ [] ∅.

Definition owner_puts (headers : Headers) (body : string) : outcome Response Response * Mem Bus :=
  handle_put toy_space toy_uuid toy_owner "box" headers body open_store.
Definition owner_gets (w : Mem Bus) : outcome Response Response * Mem Bus :=
  handle_get toy_space toy_owner "box" None [] w.


Lemma put_then_get_bytes_witness :
  let w1 := (owner_puts png_headers "a picture").2 in
  let res' := response_of (owner_gets w1).1 in
  res_status res' = OK ∧ res_body res' = "a picture" ∧ h_get (res_headers res') "content-type" = Some "image/png".
Proof.
  assert (classify toy_space ("/" +:+ "box") = Ok (TResource toy_url)) as Ht by (vm_compute; reflexivity).
  assert (∃ mt, classify_body png_headers "a picture" (TResource toy_url) store_rdf_version = Ok (ReprBlob "a picture" mt) ∧
    mt_header mt = "image/png") as (mt & Hb & Hm) by (eexists; split; vm_compute; reflexivity).
  pose proof (put_then_get_bytes toy_space toy_space_wf toy_uuid toy_url "box" Ht toy_owner toy_owner png_headers [] "a picture"
    "a picture" mt open_store Hb) as Hx. unfold wp in Hx.
  assert (∃ res, (owner_puts png_headers "a picture").1 = Ok res ∧ is_success (res_status res) = true) as (res & Ep & Ec)
    by (eexists; split; vm_compute; reflexivity).
  assert (∃ res', (owner_gets (owner_puts png_headers "a picture").2).1 = Ok res' ∧ res_status res' = OK) as (res' & Eg & Eo)
    by (eexists; split; vm_compute; reflexivity).
  cbv zeta. rewrite Eg. cbn [response_of]. split; [exact Eo|].
  destruct (Hx res Ep Ec res' Eg Eo) as (_ & Hbody & Hct). rewrite <- Hm. split; [exact Hbody|exact Hct].
Defined.
End witnesses.
