(* ===== verification/Listed.v ===== *)
(** What a [PUT] creates is listed: the containment of a new resource, from the
    walk of [materialize] to the body of a [GET] of its container. *)
From S2P Require Import Prelude Str Terms Space Rdf Dataset Patch Store Mem Resource Container.
From S2P Require Import Ground Auxiliary Pdp Guard Shapes Notify Http HttpWrite HttpRead Reads Toy Steps.
From S2P Require Import Edge Validators Written.
Open Scope list_scope.

(** A container and a member of it. *)
Notation link := (ContainerUrl * string)%type.

(** The links a new resource needs: to the container above it, and for every
    container that is not there yet, to the one above that. *)
Fixpoint new_links (G : gset located) (child : string) (anc : list ContainerUrl) : list link :=
  match anc with
  | [] => []
  | c :: anc =>
      (c, child) :: if bool_decide (present_at (graph_iri c) ∈ G) then [] else new_links G (graph_iri c) anc
  end.

Definition listed (G : gset located) (x : link) : Prop :=
  present_at (graph_iri x.1) ∈ G ∧ contains_at (graph_iri x.1) x.2 ∈ G.

Lemma listed_mono G G' x : G ⊆ G' → listed G x → listed G' x.
Proof. unfold listed. set_solver. Qed.

Lemma new_links_in G child anc x : x ∈ new_links G child anc → x.1 ∈ anc.
Proof.
  revert child. induction anc as [|c anc IH]; intros child; simpl; [by intros ?%elem_of_nil|].
  intros [->|Hx]%elem_of_cons; [by left|]. right. case_bool_decide; [by apply elem_of_nil in Hx|by eapply IH].
Qed.

Lemma links_ancestor g anc child is_new x : x ∈ links g anc child is_new → x.1 ∈ anc.
Proof.
  revert child is_new. induction anc as [|c anc IH]; intros child is_new.
  { destruct is_new; by intros ?%elem_of_nil. }
  rewrite links_cons. case_bool_decide; [destruct is_new; [|by intros ?%elem_of_nil]|].
  - intros ->%list_elem_of_singleton. by left.
  - intros [->|Hx]%elem_of_cons; [by left|]. right. by eapply IH.
Qed.

Lemma new_links_child G child anc x : x ∈ new_links G child anc →
  x.2 = child ∨ ∃ c, c ∈ anc ∧ x.2 = graph_iri c.
Proof.
  revert child. induction anc as [|c anc IH]; intros child; simpl; [by intros ?%elem_of_nil|].
  intros [->|Hx]%elem_of_cons; [by left|]. right. case_bool_decide; [by apply elem_of_nil in Hx|].
  apply IH in Hx as [->|(c' & Hc' & ->)]; [exists c|exists c']; (split; [|done]); [by left|by right].
Qed.

(** They are what [materialize] plans. *)
Lemma links_new G g child anc : faithful G g → (∀ c, c ∈ anc → graph_iri c ∈ candidates (g_chain g)) →
  links g anc child true = (λ x : link, (x.1, Some x.2)) <$> new_links G child anc.
Proof.
  intros Hf. revert child. induction anc as [|c anc IH]; intros child Hc; [done|].
  rewrite links_cons. simpl.
  assert (graph_iri c ∈ g_present g ↔ present_at (graph_iri c) ∈ G) as Hp by (apply (ff_present _ _ Hf), Hc; by left).
  rewrite (bool_decide_ext _ _ Hp). case_bool_decide; [done|]. f_equal. apply IH. intros x Hx. apply Hc. by right.
Qed.

(** A container of the space, by its own path. *)
Definition container_in `{IriSyntax} (sp : StorageSpace) (c : ContainerUrl) : Prop :=
  plain sp (as_resource c) ∧ ends_with "/" (c_path c) = true.

(** A resource or a container, and no auxiliary. *)
Definition member `{IriSyntax} (sp : StorageSpace) (t : Target) : Prop :=
  match t with
  | TResource r => plain sp r ∧ ends_with "/" (r_path r) = false
  | TContainer c => container_in sp c
  | TAux _ => False
  end.

(** No container goes, and none loses a member. *)
Definition members_kept `{IriSyntax} (sp : StorageSpace) (G G' : gset located) : Prop :=
  ∀ c, container_in sp c → present_at (graph_iri c) ∈ G →
    present_at (graph_iri c) ∈ G' ∧
    (∀ i, contains_at (graph_iri c) i ∈ G → contains_at (graph_iri c) i ∈ G').

Section effects.
Context `{IriSyntax} `{Hashing} `{HeaderSyntax} `{BlankSyntax} `{ObjectPath} `{Display} `{TermDisplay} `{RdfLib}.
Context (sp : StorageSpace) (Hsp : space_wf sp) (uuid : nat → string).
Context {W : Type} `{BackendLaws W}.

Lemma member_plain t : member sp t → plain sp (subject_of t).
Proof. destruct t; [by intros []..|done]. Qed.

Lemma members_kept_sub G G' : G ⊆ G' → members_kept sp G G'.
Proof. intros Hs c _ Hp. split; [|intros i]; auto. Qed.

Lemma members_kept_trans G1 G2 G3 : members_kept sp G1 G2 → members_kept sp G2 G3 → members_kept sp G1 G3.
Proof.
  intros H1' H2' c Hc Hp. destruct (H1' c Hc Hp) as [Hp2 Hl]. destruct (H2' c Hc Hp2) as [Hp3 Hl'].
  split; [done|]. auto.
Qed.

Lemma members_kept_listed G G' x : members_kept sp G G' → container_in sp x.1 → listed G x → listed G' x.
Proof. intros Hk Hc [Hp Hl]. destruct (Hk _ Hc Hp) as [K1 K2]. split; auto. Qed.

(** ** [materialize] *)
Definition grown (w w' : W) : Prop := pod_inv sp (graphs w') ∧ graphs w ⊆ graphs w'.

Lemma grown_trans w w1 w2 : grown w w1 → grown w1 w2 → grown w w2.
Proof. intros [_ H1'] [I2 H2']. split; [done|set_solver]. Qed.

Lemma grown_marked c quads w w' : container_in sp c → pod_inv sp (graphs w) →
  graphs w' = run_ops (insert_marked_ops (graph_iri c) (map triple_of_ground quads)) (graphs w) → grown w w'.
Proof.
  intros [Hc _] Hi Hg. split.
  - rewrite Hg. eapply pod_step_inv; [done| |done]. constructor; [done|apply storable_skolemized].
  - intros x Hx. rewrite Hg, elem_of_marked. auto.
Qed.

Lemma grown_refl w w' : pod_inv sp (graphs w) → graphs w' = graphs w → grown w w'.
Proof. intros Hi Hg. split; rewrite Hg; [done|set_solver]. Qed.

(** A link and its container, or a failure on the way. *)
Lemma wp_linked {A} c i (k : unit → M W Denial A) (Φ : outcome Denial A → W → Prop) w :
  container_in sp c → pod_inv sp (graphs w) →
  (∀ w', grown w w' → listed (graphs w') (c, i) → wp (k tt) Φ w') →
  (∀ e w', grown w w' → Φ (Err e) w') →
  wp (do! denial_op (ensure_container c) in let! u := denial_op (add_containment c i) in k u) Φ w.
Proof.
  intros Hc Hi Hk He. apply wp_bind, wp_map_err, wp_ensure_container; cbn [omap_err].
  - intros w1 Hg1 _. pose proof (grown_marked _ _ _ _ Hc Hi Hg1) as Hw1.
    apply wp_bind, wp_map_err, wp_add_containment; cbn [omap_err].
    + intros w2 Hg2 _. apply Hk; [by eapply grown_trans; [|eapply grown_marked; [| |exact Hg2]]; try apply Hw1|].
      split; rewrite Hg2, elem_of_marked; [by right; left|]. left. split; [done|]. by left.
    + intros e w2 [Hg2|Hg2] _; apply He; (eapply grown_trans; [exact Hw1|]);
        [by apply grown_refl; [apply Hw1|]|by eapply grown_marked; [| |exact Hg2]; [|apply Hw1]].
  - intros e w1 [Hg1|Hg1] _; apply He; [by apply grown_refl|by eapply grown_marked].
Qed.

Lemma wp_run_plan plan ls (w : W) : (∀ x, x ∈ plan → container_in sp x.1) → pod_inv sp (graphs w) →
  wp (run_plan plan ls) (λ o w',
    grown w w' ∧ (∀ ls', o = Ok ls' → ∀ c i, (c, Some i) ∈ plan → listed (graphs w') (c, i))) w.
Proof.
  revert ls w. induction plan as [|[c child] plan IH]; intros ls w Hxs Hi; simpl.
  { apply wp_ret. split; [by apply grown_refl|]. by intros _ _ c i ?%elem_of_nil. }
  assert (container_in sp c) as Hc by (apply (Hxs (c, child)); by left).
  assert (∀ ls w1, grown w w1 → wp (run_plan plan ls) (λ o w', grown w w' ∧
    (∀ ls', o = Ok ls' → graphs w1 ⊆ graphs w' ∧ ∀ c i, (c, Some i) ∈ plan → listed (graphs w') (c, i))) w1) as Hrest.
  { intros ls' w1 Hw1. eapply wp_wand; [apply IH; [intros x Hx; apply Hxs; by right|apply Hw1]|].
    intros o w2 [Hw2 Hx]. split; [by eapply grown_trans|]. intros l Hl. split; [apply Hw2|by eapply Hx]. }
  destruct child as [i|].
  - apply wp_linked; [done..| |done]. intros w1 Hw1 Hl. eapply wp_wand; [by apply Hrest|].
    intros o w2 [Hw2 Hx]. split; [done|]. intros l Hlo c' i' Hin. destruct (Hx l Hlo) as [Hsub Hall].
    apply elem_of_cons in Hin as [E|Hin]; [|by apply Hall]. injection E as -> ->. by eapply listed_mono.
  - apply wp_bind, wp_map_err, wp_ensure_container; cbn [omap_err].
    + intros w1 Hg1 _. eapply wp_wand; [apply Hrest; by eapply grown_marked|].
      intros o w2 [Hw2 Hx]. split; [done|]. intros l Hlo c' i' [E|Hin]%elem_of_cons; [done|]. by apply (Hx l Hlo).
    + intros e w1 [Hg1|Hg1] _; (split; [|done]); [by apply grown_refl|by eapply grown_marked].
Qed.

Lemma candidate_ancestor r c : c ∈ ancestors r → graph_iri c ∈ candidates (chain_of r).
Proof.
  intros Hc. unfold candidates, chain_of. apply elem_of_app. left. apply list_elem_of_fmap. exists (as_resource c).
  split; [done|]. right. apply list_elem_of_fmap. by exists c.
Qed.

Lemma ancestor_container r c : plain sp r → c ∈ ancestors r → container_in sp c.
Proof.
  intros Hr Hc. split; [by eapply plain_ancestor|]. apply (ancestors_spec sp r c) in Hc; [|by apply plain_in]. apply Hc.
Qed.

Lemma ancestor_apart r c : plain sp r → c ∈ ancestors r → graph_iri c ≠ graph_iri r.
Proof.
  intros Hr Hc E. pose proof (ancestor_container r c Hr Hc) as [Hcp _].
  apply (plain_graph_inj sp (as_resource c) r) in E; [|by apply plain_in..].
  apply (ancestors_spec sp r c) in Hc as (_ & _ & s & Hs & Hp); [|by apply plain_in].
  rewrite <- E in Hp. unfold c_path in Hp. apply (f_equal String.length) in Hp. rewrite length_app_s in Hp.
  destruct s; [done|simpl in Hp; lia].
Qed.

(** The walk links what is new, and takes nothing away. *)
Lemma wp_materialize t g (w : W) : member sp t → pod_inv sp (graphs w) → faithful (graphs w) g →
  g_target g = t → g_chain g = chain_of (subject_of t) →
  wp (materialize g) (λ o w', grown w w' ∧ (∀ m, o = Ok m → present_at (graph_iri t) ∉ graphs w →
    ∀ x, x ∈ new_links (graphs w) (graph_iri t) (ancestors (subject_of t)) → listed (graphs w') x)) w.
Proof.
  intros Hm Hi Hf Et Ec. unfold materialize. apply wp_bind, wp_lift. pose proof (member_plain t Hm) as Hp.
  destruct (materialize_plan g) as [[cs plan]|e|] eqn:E; [|by split; [apply grown_refl|]..].
  apply materialize_plan_links in E; [|by rewrite Et]. rewrite Et in E.
  apply wp_bind. eapply wp_wand; [apply (wp_run_plan plan []); [|done]|].
  - intros [c i] Hx. rewrite E in Hx. apply (ancestor_container (subject_of t)); [done|]. by eapply links_ancestor.
  - intros [ls|e|] w' [Hw' Hl]; [|by split..]. apply wp_ret. split; [done|]. intros m _ Hn [c i] Hx.
    apply (Hl ls eq_refl). rewrite E. assert (is_member g = true) as ->.
    { unfold is_member. rewrite Et. destruct t; [..|done]; cbn [is_aux_target negb andb];
        (rewrite bool_decide_eq_false_2; [done|]); by intros Hin%(ff_present_only _ _ Hf). }
    rewrite (links_new (graphs w)); [|done|intros x Hin; rewrite Ec; by apply candidate_ancestor].
    apply list_elem_of_fmap. by exists (c, i).
Qed.
(** ** The writes *)
Lemma registry_shelves i (w : W) (ks : list ShelfKey) : pod_inv sp (graphs w) →
  (∀ k, k ∈ ks → recorded (graphs w) (sys_graph_iri i) i SYS_HAS_SUBGRAPH (TNamed k)) → Forall shelf_like ks.
Proof.
  intros Hi Hks. apply Forall_forall. intros k Hk%Hks. destruct (inv_shelves _ _ Hi _ _ _ Hk) as (k' & E & Hl).
  by injection E as ->.
Qed.

Lemma container_apart c r : container_in sp c → plain sp r → ends_with "/" (r_path r) = false → graph_iri c ≠ graph_iri r.
Proof.
  intros [Hc Hs] Hr Hn E. apply (plain_graph_inj sp (as_resource c) r) in E; [|by apply plain_in..].
  rewrite <- E in Hn. unfold c_path in Hs. congruence.
Qed.

(** A rewrite of [r] leaves [r] present, and the graphs and records of others. *)
Lemma rewrite_keeps r G G' : plain sp r → ends_with "/" (r_path r) = false →
  (∀ i t, i ≠ graph_iri r → (sys_graph_iri i, t) ∈ G → (sys_graph_iri i, t) ∈ G') →
  (∀ g t, web g → g ≠ graph_iri r → (g, t) ∈ G → (g, t) ∈ G') → members_kept sp G G'.
Proof.
  intros Hr Hn Hs Hg c Hc Hp. pose proof (container_apart c r Hc Hr Hn) as Hne. split; [by apply Hs|].
  intros i. apply Hg; [|done]. apply (url_web sp _ Hsp), plain_in, Hc.
Qed.

Lemma put_dataset_lists r d f (w : W) : member sp (TResource r) → pod_inv sp (graphs w) →
  wp (put_dataset r d f) (λ o w', o = Ok tt →
    present_at (graph_iri r) ∈ graphs w' ∧ members_kept sp (graphs w) (graphs w')) w.
Proof.
  intros [Hr Hn] Hi. pose proof (url_web sp r Hsp (plain_in _ _ Hr)) as Hw. apply wp_put_dataset; cbn zeta; try done.
  intros ks w' Hks _ Hg _ _. pose proof (registry_shelves _ w ks Hi Hks) as Hreg.
  pose proof (put_dataset_sys r ks d f (graphs w) Hw Hreg) as He. rewrite <- Hg in He. split.
  - apply He. left. split; [done|by left].
  - apply (rewrite_keeps r); [done..| |].
    + intros i t Hne Hin. apply He. by right.
    + intros g t Hgw Hne Hin. rewrite Hg. by apply put_dataset_elsewhere.
Qed.

Lemma put_blob_lists r bytes mt (w : W) : member sp (TResource r) → pod_inv sp (graphs w) →
  wp (put_blob r bytes mt) (λ o w', o = Ok tt →
    present_at (graph_iri r) ∈ graphs w' ∧ members_kept sp (graphs w) (graphs w')) w.
Proof.
  intros [Hr Hn] Hi. pose proof (url_web sp r Hsp (plain_in _ _ Hr)) as Hw. apply wp_put_blob; cbn zeta; try done.
  intros ks key w' Hks _ Hg _ _. pose proof (registry_shelves _ w ks Hi Hks) as Hreg.
  pose proof (put_blob_sys r ks mt (graphs w) Hw Hreg) as He. rewrite <- Hg in He. split.
  - apply He. left. split; [done|by left].
  - apply (rewrite_keeps r); [done..| |].
    + intros i t Hne Hin. apply He. by right.
    + intros g t Hgw Hne Hin. rewrite Hg. by apply put_blob_elsewhere.
Qed.

(** Writing a container keeps what it contains, since its named triples come
    through skolemization as they are. *)
Lemma ground_named s p o ts m : Triple (SNamed s) p (TNamed o) ∈ ts →
  Triple (SNamed s) p (TNamed o) ∈ map triple_of_ground (ground_quads uuid (as_quads ts) m).1.
Proof.
  revert m. induction ts as [|t ts IH]; intros m; [by intros ?%elem_of_nil|]. simpl. fold (as_quads ts).
  destruct (ground_quad uuid (quad_of_triple GDefault t) m) as [q m1] eqn:Eq.
  destruct (ground_quads uuid (as_quads ts) m1) as [d m2] eqn:Ed. simpl. intros [<-|Hin]%elem_of_cons.
  - cbn in Eq. injection Eq as <- <-. by left.
  - right. specialize (IH m1 Hin). by rewrite Ed in IH.
Qed.

Lemma elem_of_put_rdf iri ts G x :
  x ∈ run_ops (put_rdf_ops iri ts) G ↔ (x.1 = iri ∧ x.2 ∈ ts) ∨ x = present_at iri ∨ (x ∈ G ∧ x.1 ≠ iri).
Proof.
  unfold put_rdf_ops. change [DropSilent ?a; InsertData ?b; InsertData ?c]
    with (map DropSilent [a] ++ map InsertData [b; c]).
  rewrite elem_of_rewrite. cbn [mjoin list_join].
  rewrite app_nil_r, elem_of_app, elem_of_in_graph, !list_elem_of_singleton. tauto.
Qed.

Lemma wp_get_rdf iri (Φ : outcome ResourceError (option (list triple)) → W → Prop) w :
  (∀ w', same w w' → present_at iri ∉ graphs w → Φ (Ok None) w') →
  (∀ ts w', same w w' → present_at iri ∈ graphs w → (∀ t, t ∈ ts ↔ (iri, t) ∈ graphs w) → Φ (Ok (Some ts)) w') →
  (∀ e w', same w w' → Φ (Err (StoreErr e)) w') →
  wp (get_rdf iri) Φ w.
Proof.
  intros Hno Hyes He. unfold get_rdf. apply wp_bind, wp_exists; [|done]. intros w1 Hs1. case_bool_decide as Hp; cbn [negb].
  - apply wp_bind, wp_store_op, wp_query_triples; cbn [omap_err].
    + intros ts w2 Hs2 _ Hts. apply wp_ret, Hyes; [by eapply same_trans|done|]. intros t. rewrite Hts. destruct Hs1 as [-> _].
      unfold answers. done.
    + intros e w2 Hs2. apply He. by eapply same_trans.
  - by apply wp_ret, Hno.
Qed.

(** A container's graph rewritten with the links it had, and marked. *)
Lemma container_rewritten c ts quads G (w w2 w3 : W) : container_in sp c → G ⊆ graphs w →
  (present_at (graph_iri c) ∈ G → ∀ i, contains_at (graph_iri c) i ∈ G → (contains_at (graph_iri c) i).2 ∈ ts) →
  graphs w2 = run_ops (put_rdf_ops (graph_iri c) (map triple_of_ground (skolemize uuid (as_quads ts)))) (graphs w) →
  graphs w3 = run_ops (insert_marked_ops (graph_iri c) quads) (graphs w2) →
  present_at (graph_iri c) ∈ graphs w3 ∧ members_kept sp G (graphs w3).
Proof.
  intros Hc Hbase Hts Hg2 Hg3. pose proof (url_web sp _ Hsp (plain_in _ _ (proj1 Hc))) as Hw.
  assert (graphs w2 ⊆ graphs w3) as Hsub by (intros x Hx; rewrite Hg3, elem_of_marked; auto).
  split; [rewrite Hg3, elem_of_marked; by right; left|].
  eapply members_kept_trans; [|by apply members_kept_sub]. intros c' Hc' Hp.
  rewrite Hg2, elem_of_put_rdf. destruct (decide (graph_iri c' = graph_iri c)) as [E|Hne].
  - rewrite E in *. split; [by right; left|]. intros i Hin. rewrite elem_of_put_rdf. left. split; [done|].
    by apply ground_named, Hts.
  - split.
    + right. right. split; [by apply Hbase|]. intros E. cbn in E. by apply eq_sym, web_not_sys in E.
    + intros i Hin. rewrite elem_of_put_rdf. right. right. split; [by apply Hbase|done].
Qed.

Lemma put_container_lists c dataset (w : W) : container_in sp c →
  wp (put_store_container uuid c (TContainer c) dataset) (λ o w',
    match o with
    | Ok _ => present_at (graph_iri c) ∈ graphs w' ∧ members_kept sp (graphs w) (graphs w')
    | Err res => failure res
    | Panicked => True
    end) w.
Proof.
  intros Hc. unfold put_store_container. apply wp_bind, wp_map_err.
  eapply wp_wand with (Φ := λ o w1, match o with
    | Ok existing => same w w1 ∧ (present_at (graph_iri c) ∈ graphs w → ∀ i, contains_at (graph_iri c) i ∈ graphs w →
        (contains_at (graph_iri c) i).2 ∈ default [] existing)
    | Err _ => True
    | Panicked => False
    end).
  { apply wp_get_rdf; [done| |done]. intros ts w1 Hs1 Hp Hts. split; [done|]. intros _ i Hin. by apply Hts. }
  intros [existing|e|] w1 Ho; cbn [omap_err]; [destruct Ho as [[Hs1 _] Hex]|apply failure_put_error|done].
  apply wp_bind, wp_map_err, wp_store_op, wp_update; [|by intros; apply failure_put_error].
  intros w2 Hg2 _. cbn [omap_err]. apply wp_bind, wp_map_err, wp_ensure_container; [|by intros; apply failure_put_error].
  intros w3 Hg3 _. cbn [omap_err]. apply wp_ret. rewrite Hs1 in Hg2.
  eapply container_rewritten; [done|done| |exact Hg2|exact Hg3]. intros Hp i Hin. apply elem_of_app. right.
  apply list_elem_of_filter. split; [done|]. by apply Hex.
Qed.

(** A new container has no links to keep. *)
Lemma new_container_lists c ts (w : W) : container_in sp c →
  wp (do! put_rdf uuid (graph_iri c) ts in ensure_container c) (λ o w', o = Ok tt →
    present_at (graph_iri c) ∈ graphs w' ∧
    ∀ G, G ⊆ graphs w → present_at (graph_iri c) ∉ G → members_kept sp G (graphs w')) w.
Proof.
  intros Hc. apply wp_bind, wp_store_op, wp_update; [|done]. intros w2 Hg2 _. cbn [omap_err].
  apply wp_ensure_container; [|done]. intros w3 Hg3 _ _.
  assert (∀ G, G ⊆ graphs w → present_at (graph_iri c) ∉ G → 
    present_at (graph_iri c) ∈ graphs w3 ∧ members_kept sp G (graphs w3)) as Hx
    by (intros G Hbase Hn; by eapply container_rewritten; [| | |exact Hg2|exact Hg3]).
  split; [exact (proj1 (Hx ∅ (empty_subseteq _) (not_elem_of_empty _)))|]. intros G Hb Hn. by apply Hx.
Qed.

Lemma put_store_lists t dataset fmt (w : W) : member sp t → pod_inv sp (graphs w) →
  wp (put_store sp uuid t dataset (skolemize uuid dataset) fmt) (λ o w',
    match o with
    | Ok res => is_success (res_status res) = true →
        present_at (graph_iri t) ∈ graphs w' ∧ members_kept sp (graphs w) (graphs w')
    | Err res => failure res
    | Panicked => True
    end) w.
Proof.
  intros Hm Hi. destruct t as [r|c|a]; [|eapply wp_wand; [by apply put_container_lists|by intros [] ?]|done].
  unfold put_store. apply wp_bind, wp_attempt. eapply wp_wand; [by apply put_dataset_lists|].
  intros [[]|e|] w' Ho; [apply wp_ret; intros _; by apply Ho|apply wp_ret; by rewrite failure_put_error|done].
Qed.

(** ** What a [GET] shows of a container *)
Lemma web_no_blank n : web n → blank_for n = None.
Proof. intros [s ->]%starts_with_true. done. Qed.

Lemma shown_named triples ground s p o : ground_dataset triples = Some ground → web s → web o →
  Triple (SNamed s) p (TNamed o) ∈ triples → Quad (SNamed s) p (TNamed o) GDefault ∈ deskolemize ground.
Proof.
  intros Hg Hs Ho Hin. apply from_store_image in Hg.
  assert (Quad (SNamed s) p (TNamed o) GDefault ∈ map quad_of_ground ground) as Hq.
  { rewrite Hg. apply list_elem_of_fmap. by exists (Triple (SNamed s) p (TNamed o)). }
  apply list_elem_of_fmap in Hq as ([s' p' o' g'] & E & Hq). cbn in E. injection E as -> -> Eo Eg.
  apply list_elem_of_fmap. eexists. split; [|exact Hq]. destruct o', g'; try done. cbn in *. injection Eo as ->.
  unfold quad_for, subject_for. cbn [g_subject g_predicate g_object g_graph term_for graph_for].
  by rewrite !web_no_blank by done.
Qed.

Lemma projected_named d v d' s p o g : project_to d v = Some d' → Quad s p (TNamed o) g ∈ d → Quad s p (TNamed o) g ∈ d'.
Proof.
  unfold project_to. destruct (version_leb _ _); [by intros [= <-]|]. intros Hm Hin.
  destruct (mapM (project_quad v) d) as [l|] eqn:E; [|done]. injection Hm as <-. apply mapM_Some in E.
  apply list_elem_of_lookup in Hin as [n Hn]. destruct (Forall2_lookup_l _ _ _ _ _ E Hn) as (x & Hx & Eq).
  unfold project_quad in Eq. cbn in Eq. rewrite andb_false_r in Eq. injection Eq as <-.
  apply list_elem_of_omap. eexists. split; [by eapply list_elem_of_lookup_2|done].
Qed.
End effects.

Section handlers.
Context `{IriSyntax} `{HeaderSyntax} `{HeaderText} `{BlankSyntax} `{Hashing} `{ObjectPath} `{Display}
  `{TermDisplay} `{RdfLib} `{ShaclEngine} `{N3Lib}.
Context (sp : StorageSpace) (Hsp : space_wf sp) (uuid : nat → string).
Context {W : Type} `{BackendLaws W} `{EventBus W} `{!BusBeside W}.

Lemma classify_member path t : classify sp path = Ok t → is_aux_target t = false → member sp t.
Proof.
  intros Ht Ha. unfold classify in Ht. destruct (resolve sp path) as [t'|e|] eqn:E; simpl in Ht; [|destruct e; discriminate|discriminate].
  injection Ht as ->. apply (resolve_Ok_inv sp path t Hsp) in E as (_ & Hin & _ & Hr & _ & Ht).
  destruct t as [r|c|a]; [| |done]; destruct Ht as [Hp He]; (split; [by split|]).
  - by rewrite Hp.
  - unfold c_path in *. by rewrite Hp.
Qed.

(** What a successful [PUT] of [t] leaves. *)
Record put_kept (t : Target) (G G' : gset located) : Prop := {
  pk_present : present_at (graph_iri t) ∈ G';
  pk_members : members_kept sp G G';
  pk_listed x : present_at (graph_iri t) ∉ G →
    x ∈ new_links G (graph_iri t) (ancestors (subject_of t)) → listed G' x
}.

Lemma put_impl_lists {E} t agent headers body (w : W) : member sp t → pod_inv sp (graphs w) →
  wp (put_impl sp uuid agent t headers body : M W E Response)
    (λ o w', ∀ res, o = Ok res → is_success (res_status res) = true → put_kept t (graphs w) (graphs w')) w.
Proof.
  intros Hm Hi. pose proof (member_plain sp t Hm) as Hp.
  set (walked := λ w1 : W, grown sp w w1 ∧ (present_at (graph_iri t) ∉ graphs w →
    ∀ x, x ∈ new_links (graphs w) (graph_iri t) (ancestors (subject_of t)) → listed (graphs w1) x)).
  assert (∀ w1 w2 : W, walked w1 → present_at (graph_iri t) ∈ graphs w2 → members_kept sp (graphs w1) (graphs w2) →
    put_kept t (graphs w) (graphs w2)) as Hend.
  { intros w1 w2 [[_ Hsub] Hl] Hpr Hk. split; [done| |].
    - eapply members_kept_trans; [by apply members_kept_sub|done].
    - intros x Hn Hx. eapply members_kept_listed; [exact Hk| |by apply Hl].
      apply (ancestor_container sp (subject_of t)); [done|by eapply new_links_in]. }
  apply (put_rule sp uuid t w walked (λ w2, put_kept t (graphs w) (graphs w2))); [by apply plain_in| | |].
  - intros g w1 [Et Ec Hf] [Hg _]. eapply wp_wand; [apply (wp_materialize sp Hsp t g w1); rewrite ?Hg; done|].
    intros o w2 [Hw2 Hl] m Em. split; [|rewrite <- Hg; by apply (Hl m)]. split; [apply Hw2|rewrite <- Hg; apply Hw2].
  - intros repr _. destruct repr as [dataset fmt v|bytes mt].
    + intros w1 Hw1 _. eapply wp_wand; [apply (put_store_lists sp Hsp uuid t dataset fmt); [done|apply Hw1]|].
      intros [res|res|] w2 Ho; [|done..]. intros Hs. destruct (Ho Hs). by eapply Hend.
    + intros r w1 -> Hw1. eapply wp_wand; [apply (put_blob_lists sp Hsp r bytes mt); [done|apply Hw1]|].
      intros o w2 Ho Eo. destruct (Ho Eo). by eapply Hend.
  - intros w1 w2 Hk [-> _]. exact Hk.
Qed.

Lemma new_links_web t G x : member sp t → x ∈ new_links G (graph_iri t) (ancestors (subject_of t)) → web x.2.
Proof.
  intros Hm Hx. pose proof (member_plain sp t Hm) as Hp. apply new_links_child in Hx as [->|(c & Hc & ->)].
  - destruct t; [..|done]; apply (url_web sp _ Hsp), plain_in, Hp.
  - apply (url_web sp _ Hsp), plain_in. by eapply ancestor_container.
Qed.

(** ** Reading the container *)
Lemma get_lists c i decision headers (w : W) : container_in sp c → web i → listed (graphs w) (c, i) →
  wp (legacy_graph_read decision (TContainer c) headers) (λ o _,
    match o with
    | Ok res => res_status res = OK → ∃ fmt served,
        Quad (SNamed (graph_iri c)) LDP_CONTAINS (TNamed i) GDefault ∈ served ∧ serialize fmt served = Ok (res_body res)
    | Err res => failure res
    | Panicked => True
    end) w.
Proof.
  intros Hc Hi [Hp Hl]. pose proof (url_web sp _ Hsp (plain_in _ _ (proj1 Hc))) as Hw. unfold legacy_graph_read.
  destruct (negotiate _ _ _) as [[fmt v]|]; [|by apply wp_throw].
  apply wp_bind, wp_map_err, wp_get_rdf; cbn [omap_err].
  - intros w1 _ Hn. by destruct Hn.
  - intros ts w1 _ _ Hts. destruct (ground_dataset ts) as [ground|] eqn:Eg; [|done].
    cbv zeta. case_bool_decide.
    { apply wp_ret. unfold not_modified. by rewrite status_read_headers. }
    destruct (project_to _ _) as [served|] eqn:Ep; [|done].
    destruct (serialize fmt served) as [bytes|e|] eqn:Es; [|by apply wp_throw|done].
    apply wp_ret. intros _. exists fmt, served. rewrite body_read_headers. split; [|done].
    eapply projected_named; [exact Ep|]. eapply shown_named; [exact Eg|done..|]. by apply Hts.
  - intros e w1 _. done.
Qed.

(** C10: what a client creates is found.  On a pod that its updates have reached,
    a [PUT] of a resource or a container that is answered with a success leaves
    it present, and no container has gone or lost a member by it.  When it is
    new, it is listed in the container above it, and every container the
    request had to create is listed in the one above that, up to the first that
    was there; and a [GET] of any of these that is answered [200], whoever
    asks and in whatever format, serves the link. *)
Theorem put_is_listed (t : Target) (path : string) (Ht : classify sp ("/" +:+ path) = Ok t)
    (Ha : is_aux_target t = false) (agent : Agent) (headers : Headers) (body : string) (w : W)
    (Hreached : rtc (pod_step sp) ∅ (graphs w)) :
  wp (handle_put (E:=Response) sp uuid agent path headers body) (λ o w1,
    ∀ res, o = Ok res → is_success (res_status res) = true →
    present_at (graph_iri t) ∈ graphs w1 ∧ members_kept sp (graphs w) (graphs w1) ∧
    (present_at (graph_iri t) ∉ graphs w →
     ∀ c i, (c, i) ∈ new_links (graphs w) (graph_iri t) (ancestors (subject_of t)) →
     listed (graphs w1) (c, i) ∧
     ∀ path' agent' headers', classify sp ("/" +:+ path') = Ok (TContainer c) →
     wp (handle_get (E:=Response) sp agent' path' None headers') (λ o' _,
       ∀ res', o' = Ok res' → res_status res' = OK → ∃ fmt served,
         Quad (SNamed (graph_iri c)) LDP_CONTAINS (TNamed i) GDefault ∈ served ∧
         serialize fmt served = Ok (res_body res')) w1)) w.
Proof.
  pose proof (classify_member _ _ Ht Ha) as Hm. pose proof (member_plain sp t Hm) as Hp.
  unfold handle_put. rewrite (classified_target _ _ _ _ Ht).
  eapply wp_wand; [by apply put_impl_lists, reachable_inv|]. intros o w1 Ho res Eo Hs.
  destruct (Ho res Eo Hs) as [Hpr Hk Hl]. split; [done|]. split; [done|]. intros Hn c i Hx.
  specialize (Hl _ Hn Hx). split; [done|]. intros path' agent' headers' Hc.
  unfold handle_get. rewrite Hc. cbn [wants_validation]. apply (wp_get_impl (TContainer c) agent' headers').
  intros decision w2 [Hg _]. apply get_lists; [..|by rewrite Hg].
  - by apply (ancestor_container sp (subject_of t)), (new_links_in _ _ _ _ Hx).
  - by eapply (new_links_web t _ (c, i)).
Qed.
End handlers.

(** * A pod whose owner creates a resource in a new container *)
Section witnesses.
#[local] Existing Instance toy_iri.
#[local] Existing Instance toy_header.
#[local] Existing Instance toy_text.
#[local] Existing Instance toy_blanks.
#[local] Existing Instance toy_hash.
#[local] Existing Instance toy_path.
#[local] Existing Instance toy_display.
#[local] Existing Instance toy_terms.
#[local] Existing Instance toy_rdf.
#[local] Existing Instance toy_shacl.
#[local] Existing Instance toy_n3.

#[local] Instance beside_bus : BusBeside (Mem Bus).
Proof. by intros b w. Qed.

(** The root and its ACL, as the pod's own updates make them. *)
Definition root_ops : list update_op := insert_marked_ops (graph_iri (mkContainerUrl toy_root)) [].
Definition acl_triples : list triple :=
  Triple (SNamed "https://pod.example/.aux/.acl#owner") ACL_MODE (TNamed ACL_READ) :: (snd <$> toy_acl).
Definition acl_ops : list update_op := conditional_put_ops (aux toy_root Acl) acl_triples.
Definition made_store : Mem Bus := mkMem (mem_run (root_ops ++ acl_ops) []) ∅ [] ∅.

Lemma acl_storable : Forall storable acl_triples.
Proof. apply (bool_decide_eq_true_1 _). vm_compute. reflexivity. Qed.

Lemma made_reached : rtc (pod_step toy_space) ∅ (graphs made_store).
Proof.
  assert (graphs made_store = run_ops acl_ops (run_ops root_ops ∅)) as ->.
  { rewrite <- run_ops_app. exact (mem_run_spec (root_ops ++ acl_ops) []). }
  assert (plain toy_space toy_root) as Hr by (split; [split; [by exists ""|reflexivity]|reflexivity]).
  eapply rtc_l; [by apply (step_insert_marked toy_space ∅ (mkContainerUrl toy_root) []); [|constructor]|].
  eapply rtc_l; [apply (step_aux_put toy_space _ toy_root Acl _ Hr acl_storable)|]. apply rtc_refl.
Qed.

Definition deep_puts : outcome Response Response * Mem Bus :=
  handle_put toy_space toy_uuid toy_owner "a/b" turtle_headers "" made_store.
Definition root_gets (w : Mem Bus) : outcome Response Response * Mem Bus :=
  handle_get toy_space toy_owner "" None [] w.

Lemma put_is_listed_witness :
  res_status (response_of deep_puts.1) = CREATED ∧ res_status (response_of (root_gets deep_puts.2).1) = OK ∧
  ∃ fmt served,
    Quad (SNamed "https://pod.example/") LDP_CONTAINS (TNamed "https://pod.example/a/") GDefault ∈ served ∧
    serialize fmt served = Ok (res_body (response_of (root_gets deep_puts.2).1)).
Proof.
  set (b := mkResourceUrl "/a/b" "https://pod.example/a/b"). set (root := mkContainerUrl toy_root).
  assert (classify toy_space ("/" +:+ "a/b") = Ok (TResource b)) as Ht by (vm_compute; reflexivity).
  assert (classify toy_space ("/" +:+ "") = Ok (TContainer root)) as Hc by (vm_compute; reflexivity).
  assert (∀ i, bool_decide (present_at i ∈ m_triples made_store) = false → present_at i ∉ graphs made_store) as Hno.
  { intros i Hb Hin. apply elem_of_list_to_set in Hin. by apply bool_decide_eq_false_1 in Hb. }
  pose proof (put_is_listed toy_space toy_space_wf toy_uuid (TResource b) "a/b" Ht eq_refl toy_owner turtle_headers ""
    made_store made_reached) as Hx. unfold wp in Hx.
  assert (∃ res, deep_puts.1 = Ok res ∧ res_status res = CREATED) as (res & Ep & Ec)
    by (eexists; split; vm_compute; reflexivity).
  assert (∃ res', (root_gets deep_puts.2).1 = Ok res' ∧ res_status res' = OK) as (res' & Eg & Eo)
    by (eexists; split; vm_compute; reflexivity).
  rewrite Ep, Eg. cbn [response_of]. split; [exact Ec|]. split; [exact Eo|].
  destruct (Hx res Ep ltac:(by rewrite Ec)) as (_ & _ & Hl).
  assert ((root, "https://pod.example/a/") ∈
    new_links (graphs made_store) (graph_iri (TResource b)) (ancestors (subject_of (TResource b)))) as Hin.
  { assert (ancestors (subject_of (TResource b)) =
      [mkContainerUrl (mkResourceUrl "/a/" "https://pod.example/a/"); root]) as -> by (vm_compute; reflexivity).
    cbn [new_links]. rewrite bool_decide_eq_false_2 by (apply Hno; vm_compute; reflexivity). right. by left. }
  destruct (Hl ltac:(apply Hno; vm_compute; reflexivity) root _ Hin) as [_ Hget].
  exact (Hget "" toy_owner [] Hc res' Eg Eo).
Defined.

(** An interrupted walk is not mended.  The containers are made from the nearest
    up, so when the call that lists [/a/] in the root fails, [/a/] is there and
    listed nowhere; a later walk stops at it, so the same request succeeds,
    and [/a/] is still listed nowhere. *)
Definition puts_ab (w : Mem Bus) : outcome Response Response * Mem Bus :=
  handle_put toy_space toy_uuid toy_owner "a/b" turtle_headers "" w.
Definition failing_ninth : Mem Bus := mkMem (m_triples made_store) ∅ (replicate 8 None ++ [Some FailBefore]) ∅.

Lemma interrupted_walk_unlisted :
  let r1 := puts_ab failing_ninth in let r2 := puts_ab r1.2 in
  let a := "https://pod.example/a/" in
  res_status (response_of r1.1) = INTERNAL_SERVER_ERROR ∧ res_status (response_of r2.1) = CREATED ∧
  bool_decide (present_at a ∈ m_triples r2.2) = true ∧
  bool_decide (contains_at (graph_iri toy_root) a ∈ m_triples r2.2) = false.
Proof. vm_compute. by split_and!. Qed.
End witnesses.
