(* ===== verification/Created.v ===== *)
(** A [PUT] that may happen, happens.

    The other theorems about [PUT] are about what a success means; this file
    shows that there is one.  While the stores are up ([Up]), every call a
    request makes is answered; then a new resource, of a well-formed body, whose
    creation the ACLs allow at every level, is created.  [succeeds] is the
    total counterpart of [wp]: the computation returns, and with what. *)
From S2P Require Import Prelude Str Terms Space Rdf Dataset Patch Store Mem Resource Container.
From S2P Require Import Ground Auxiliary Pdp Guard Shapes Notify Http HttpWrite HttpRead Reads Toy Steps Answered.
From S2P Require Import Edge Validators Written Listed.
Open Scope list_scope.

(** * Success *)
Section succeeds.
Context {W : Type}.

Definition succeeds {E A} (m : M W E A) (Φ : A → W → Prop) (w : W) : Prop :=
  ∃ a w', m w = (Ok a, w') ∧ Φ a w'.

Lemma succeeds_ret {E A} (a : A) (Φ : A → W → Prop) w : Φ a w → succeeds (ret a : M W E A) Φ w.
Proof. intros Ha. by exists a, w. Qed.

Lemma succeeds_bind {E A B} (m : M W E A) (k : A → M W E B) Φ w :
  succeeds m (λ a w', succeeds (k a) Φ w') w → succeeds (bind m k) Φ w.
Proof. intros (a & w1 & Em & b & w2 & Ek & Hb). exists b, w2. unfold bind. by rewrite Em. Qed.

Lemma succeeds_map_err {E F A} (f : E → F) (m : M W E A) Φ w : succeeds m Φ w → succeeds (map_err f m) Φ w.
Proof. intros (a & w1 & Em & Ha). exists a, w1. unfold map_err. by rewrite Em. Qed.

Lemma succeeds_attempt {E F A} (m : M W E A) (Φ : E + A → W → Prop) w :
  succeeds m (λ a, Φ (inr a)) w → succeeds (attempt m : M W F (E + A)) Φ w.
Proof. intros (a & w1 & Em & Ha). exists (inr a), w1. unfold attempt. by rewrite Em. Qed.

Lemma succeeds_returned {E A} (m : M W A A) Φ w : succeeds m Φ w → succeeds (returned m : M W E A) Φ w.
Proof. intros (a & w1 & Em & Ha). exists a, w1. unfold returned. by rewrite Em. Qed.

Lemma succeeds_lift {E A} (o : outcome E A) (a : A) Φ w : o = Ok a → Φ a w → succeeds (lift o) Φ w.
Proof. intros -> Ha. by exists a, w. Qed.

Lemma succeeds_wand {E A} (m : M W E A) (Φ Ψ : A → W → Prop) w :
  succeeds m Φ w → (∀ a w', Φ a w' → Ψ a w') → succeeds m Ψ w.
Proof. intros (a & w1 & Em & Ha) HΨ. exists a, w1. auto. Qed.
End succeeds.

(** ** Stores that are up *)
Class Up {W : Type} `{Backend W} (up : W → Prop) : Prop := {
  up_update ops w : up w → succeeds (update ops) (λ _, up) w;
  up_triples q w : up w → succeeds (query_triples q) (λ _, up) w;
  up_ask ps w : up w → succeeds (ask ps) (λ _, up) w;
  up_select q w : up w → succeeds (query_solutions q) (λ _, up) w;
  up_blob_get k w : up w → succeeds (blob_get k) (λ _, up) w;
  up_blob_put k b w : up w → succeeds (blob_put k b) (λ _, up) w;
  up_blob_delete k w : up w → succeeds (blob_delete k) (λ _, up) w
}.

(** What is sent on the bus does not bring them down. *)
Class BusUp {W : Type} `{EventBus W} (up : W → Prop) : Prop := bus_up b w : up w → up (set_bus b w).

Section works.
Context {W : Type} `{Backend W} (up : W → Prop) `{!Up up}.

(** While the stores are up, it returns, and they still are. *)
Definition works {E A} (m : M W E A) : Prop := ∀ w, up w → succeeds m (λ _, up) w.

Lemma works_ret {E A} (a : A) : works (ret a : M W E A).
Proof. intros w Hw. by apply succeeds_ret. Qed.

Lemma works_bind {E A B} (m : M W E A) (k : A → M W E B) : works m → (∀ a, works (k a)) → works (bind m k).
Proof. intros Hm Hk w Hw. apply succeeds_bind. eapply succeeds_wand; [by apply Hm|]. intros a w'. apply Hk. Qed.

Lemma works_map_err {E F A} (f : E → F) (m : M W E A) : works m → works (map_err f m).
Proof. intros Hm w Hw. by apply succeeds_map_err, Hm. Qed.

Lemma works_lift {E A} (o : outcome E A) (a : A) : o = Ok a → works (lift o).
Proof. intros Ho w Hw. by eapply succeeds_lift. Qed.

Lemma works_for_each {E A} (l : list A) (body : A → M W E unit) :
  (∀ x, x ∈ l → works (body x)) → works (for_each l body).
Proof.
  induction l as [|x l IH]; intros Hb; simpl; [apply works_ret|]. apply works_bind; [apply Hb; by left|].
  intros _. apply IH. intros y Hy. apply Hb. by right.
Qed.

(** Whatever only reads leaves them up. *)
Lemma works_keeps {E A} (m : M W E A) : works m → keeps up m (λ _, True).
Proof. intros Hm w Hw. destruct (Hm w Hw) as (a & w' & Em & Hw'). by rewrite Em. Qed.

#[export] Instance reads_up : ReadsKeep up.
Proof. split; intros; apply works_keeps; intros w Hw; [by apply up_triples|by apply up_ask|by apply up_select|by apply up_blob_get]. Qed.

(** With what a weakest precondition says of it. *)
Lemma works_wp {E A} (m : M W E A) (Φ : outcome E A → W → Prop) w :
  works m → up w → wp m Φ w → succeeds m (λ a w', up w' ∧ Φ (Ok a) w') w.
Proof. intros Hm Hw Hwp. destruct (Hm w Hw) as (a & w' & Em & Hw'). exists a, w'. unfold wp in Hwp. by rewrite Em in Hwp. Qed.
End works.

Create HintDb works.
#[export] Hint Extern 1 (works _ (update _)) => (intros ? ?; apply up_update) : works.
#[export] Hint Extern 1 (works _ (query_triples _)) => (intros ? ?; apply up_triples) : works.
#[export] Hint Extern 1 (works _ (ask _)) => (intros ? ?; apply up_ask) : works.
#[export] Hint Extern 1 (works _ (query_solutions _)) => (intros ? ?; apply up_select) : works.
#[export] Hint Extern 1 (works _ (blob_put _ _)) => (intros ? ?; apply up_blob_put) : works.
#[export] Hint Extern 1 (works _ (blob_delete _)) => (intros ? ?; apply up_blob_delete) : works.

Ltac works_step :=
  lazymatch goal with
  | |- works _ (bind _ _) => apply works_bind; [|intros ?]
  | |- works _ (map_err _ _) => apply works_map_err
  | |- works _ (ret _) => apply works_ret
  | |- works _ (let '(_, _) := ?x in _) => destruct x
  | |- works _ (match ?x with _ => _ end) => destruct x
  end.
Ltac work := repeat (cbv zeta; first [done | works_step | solve [eauto with works]]).

Section code.
Context `{IriSyntax} `{HeaderSyntax} `{Hashing} `{ObjectPath}.
Context {W : Type} `{Backend W} (up : W → Prop) `{!Up up}.
Notation works := (works up).

Lemma works_exists iri : works (exists_ iri).
Proof. unfold exists_, store_op. work. Qed.

Lemma works_exists_many iris : works (exists_many iris).
Proof. unfold exists_many, store_op. work. Qed.

Lemma works_registered r : works (registered_shelves r).
Proof. unfold registered_shelves, store_op. work. Qed.
#[local] Hint Resolve works_exists works_exists_many works_registered : works.

Lemma works_probe agent t : works (probe agent t).
Proof. unfold probe, denial_op, load_chain_acls, store_op. work. Qed.

Lemma works_put_dataset r d f : Forall (λ s, iri_valid (sh_name s) = true) (split_dataset r d).2 → works (put_dataset r d f).
Proof.
  intros Hv. unfold put_dataset, store_op. destruct (split_dataset r d) as [dg shs]. cbn in Hv. works_step; [work|].
  works_step; [|unfold drop_blob, blob_op; work]. apply works_for_each. intros x Hx. rewrite Forall_forall in Hv. rewrite (Hv x Hx).
  apply works_ret.
Qed.

Lemma works_put_blob r bytes mt : is_Some (blob_key_of r) → works (put_blob r bytes mt).
Proof.
  intros [key Hk]. unfold put_blob, store_op, blob_op. works_step; [by eapply works_lift; rewrite Hk|]. work.
Qed.

(** The names the pod's own vocabulary has are IRIs. *)
Definition vocabulary_valid : Prop :=
  Forall (λ iri, iri_valid iri = true) [RDF_TYPE; LDP_CONTAINER; LDP_BASIC_CONTAINER; LDP_CONTAINS].

Lemma works_node iri : iri_valid iri = true → works (lift (node iri)).
Proof. intros Hv. unfold node. rewrite Hv. by eapply works_lift. Qed.

Lemma works_run_plan plan ls : vocabulary_valid →
  (∀ c o, (c, o) ∈ plan → iri_valid (graph_iri c) = true ∧ ∀ i, o = Some i → iri_valid i = true) →
  works (run_plan plan ls).
Proof.
  intros Hvoc. pose proof Hvoc as Hv. unfold vocabulary_valid in Hv. rewrite !Forall_cons in Hv. destruct Hv as (V1 & V2 & V3 & V4 & _).
  revert ls. induction plan as [|[c o] plan IH]; intros ls Hx; simpl; [apply works_ret|].
  destruct (Hx c o) as [Hc Ho]; [by left|].
  assert (∀ ls, works (run_plan plan ls)) as Hrest by (intros; apply IH; intros c' o' Hin; apply Hx; by right).
  works_step.
  - unfold denial_op, ensure_container, insert_marked, store_op. works_step. repeat (works_step; [by apply works_node|]). work.
  - destruct o as [i|]; [|apply Hrest]. specialize (Ho i eq_refl). works_step; [|apply Hrest].
    unfold denial_op, add_containment, insert_marked, store_op. works_step. repeat (works_step; [by apply works_node|]). work.
Qed.
End code.

(** * A new resource *)
Section create.
Context `{IriSyntax} `{HeaderSyntax} `{HeaderText} `{BlankSyntax} `{Hashing} `{ObjectPath} `{Display}
  `{TermDisplay} `{RdfLib} `{ShaclEngine} `{N3Lib}.
Context (sp : StorageSpace) (Hsp : space_wf sp) (uuid : nat → string).
Context {W : Type} `{BackendLaws W} `{EventBus W} (up : W → Prop) `{!Up up}.

(** ** Reading what is not there *)
Definition finds {E A} (m : M W E A) (Q : A → Prop) (w : W) : Prop :=
  succeeds m (λ a w', (up w' ∧ same w w') ∧ Q a) w.

Lemma finds_ret {E A} (a : A) Q w : up w → Q a → finds (ret a : M W E A) Q w.
Proof. intros Hw Ha. by apply succeeds_ret. Qed.

Lemma finds_bind {E A B} (m : M W E A) (k : A → M W E B) Q R w : finds m Q w →
  (∀ a w', up w' → same w w' → Q a → finds (k a) R w') → finds (bind m k) R w.
Proof.
  intros Hm Hk. apply succeeds_bind. eapply succeeds_wand; [exact Hm|]. intros a w1 [[Hw1 Hs] Ha].
  eapply succeeds_wand; [by apply Hk|]. intros b w2 [[Hw2 Hs2] Hb]. split; [split; [done|by eapply same_trans]|done].
Qed.

Lemma finds_map_err {E F A} (f : E → F) (m : M W E A) Q w : finds m Q w → finds (map_err f m) Q w.
Proof. apply succeeds_map_err. Qed.

Lemma finds_exists iri w : up w → finds (exists_ iri) (λ b, b = bool_decide (present_at iri ∈ graphs w)) w.
Proof.
  intros Hw. eapply succeeds_wand; [apply (works_wp up _ (λ o w', same w w' ∧ ∀ b, o = Ok b → b = bool_decide (present_at iri ∈ graphs w)))|].
  - by apply works_exists.
  - done.
  - apply wp_exists; [intros w' Hs; split; [done|]; by intros b [= <-]|by intros e w' Hs].
  - intros b w' (Hw' & Hs & Hb). split; [done|by apply Hb].
Qed.

Context (r : ResourceUrl).

Lemma finds_no_dataset w : up w → present_at (graph_iri r) ∉ graphs w → finds (get_dataset r) (λ o, o = None) w.
Proof.
  intros Hw Hn. unfold get_dataset. cbv zeta. eapply finds_bind; [by apply finds_exists|]. intros b w1 Hw1 Hs ->.
  rewrite bool_decide_eq_false_2 by done. by apply finds_ret.
Qed.

Lemma finds_no_kind w : up w → present_at (graph_iri r) ∉ graphs w → finds (kind_of r) (λ o, o = None) w.
Proof.
  intros Hw Hn. unfold kind_of. eapply finds_bind; [by apply finds_exists|]. intros b w1 Hw1 Hs ->.
  rewrite bool_decide_eq_false_2 by done. by apply finds_ret.
Qed.

(** No shape binds the container. *)
Definition unshaped (G : gset located) (c : ContainerUrl) : Prop :=
  ∀ t, (graph_iri c, t) ∈ G → t_predicate t ≠ LDP_CONSTRAINED_BY.

Lemma finds_no_shape c w : up w → unshaped (graphs w) c → finds (load_shape sp c) (λ o, o = None) w.
Proof.
  intros Hw Hu. unfold load_shape, shape_op, store_op. cbv zeta. eapply (finds_bind _ _ (λ ts, ts = [])).
  - apply finds_map_err, finds_map_err. set (q := QObjects _ _ _).
    eapply succeeds_wand; [apply (works_wp up _ (λ o w', same w w' ∧ ∀ ts, o = Ok ts → ∀ t, t ∈ ts → answers q (graphs w) t))|].
    + unfold works. intros w0. apply up_triples.
    + done.
    + apply wp_query_triples; [|done]. intros ts w' Hs _ Hts. split; [done|]. intros ? [= <-] t. apply Hts.
    + intros ts w' (Hw' & Hs & Hts). split; [done|]. destruct ts as [|t ts]; [done|exfalso].
      destruct (Hts _ eq_refl t ltac:(by left)) as (Hin & _ & Hp). by apply (Hu t).
  - intros ts w1 Hw1 _ ->. by repeat (eapply succeeds_bind, succeeds_lift; [done|]); apply finds_ret.
Qed.

Lemma finds_conditionals headers w : up w → present_at (graph_iri r) ∉ graphs w →
  conditionals_hold headers None = true → finds (check_conditionals headers (TResource r)) (λ _, True) w.
Proof.
  intros Hw Hn Hc. unfold check_conditionals. destruct (_ && _); [by apply finds_ret|].
  eapply (finds_bind _ _ (λ o, o = None)).
  - apply finds_map_err. unfold current_tags. eapply finds_bind; [by apply finds_no_kind|]. intros k w1 Hw1 [Hg Ho] ->.
    eapply finds_bind; [apply finds_no_dataset; [done|by rewrite Hg]|]. intros o w2 Hw2 _ ->. by apply finds_ret.
  - intros o w1 Hw1 _ ->. rewrite Hc. by apply finds_ret.
Qed.

Lemma finds_shape d w : up w → (∀ c, parent r = Some c → unshaped (graphs w) c) →
  finds (enforce_shape sp (TResource r) d) (λ o, o = None) w.
Proof.
  intros Hw Hu. unfold enforce_shape, shape_container. destruct (parent r) as [c|]; [|by apply finds_ret].
  eapply finds_bind; [apply finds_map_err, finds_no_shape; [done|by apply Hu]|]. intros o w1 Hw1 _ ->. by apply finds_ret.
Qed.

Lemma finds_version_check v w : up w → present_at (graph_iri r) ∉ graphs w →
  finds (put_version_check (TResource r) v) (λ _, True) w.
Proof.
  intros Hw Hn. unfold put_version_check. eapply finds_bind; [by apply finds_map_err, finds_no_dataset|].
  intros o w1 Hw1 _ ->. by apply finds_ret.
Qed.

Lemma finds_graph_check f w : up w → present_at (graph_iri r) ∉ graphs w →
  finds (put_graph_check (TResource r) f) (λ _, True) w.
Proof.
  intros Hw Hn. unfold put_graph_check. destruct (carries_dataset f); [by apply finds_ret|].
  eapply finds_bind; [by apply finds_map_err, finds_no_dataset|]. intros o w1 Hw1 _ ->. by apply finds_ret.
Qed.

(** ** The walk *)

(** The agent may append at the [i]-th container above the resource. *)
Definition appends_at (G : gset located) (agent : Agent) (i : nat) : Prop :=
  ∃ x inh, nearest G (drop (S i) (chain_of r)) x inh ∧ permits (acl_states G x) agent (graph_iri x) inh Append.

(** What the creation of the resource asks of the pod: it is not there, the
    agent may write it and append to every container that gains a member, and
    none of the URLs that come to be has its slash counterpart. *)
Record may_create (G : gset located) (agent : Agent) : Prop := {
  mc_new : present_at (graph_iri r) ∉ G;
  mc_write : may G agent (TResource r) Write;
  mc_append i : (i < length (new_links G (graph_iri r) (ancestors r)))%nat → appends_at G agent i;
  mc_unpaired x c : x ∈ chain_of r → present_at (graph_iri x) ∉ G → slash_counterpart x = Some c →
    present_at (graph_iri c) ∉ G
}.

Definition urls_valid : Prop := ∀ x, x ∈ chain_of r → iri_valid (graph_iri x) = true.

(** A guard that was probed for the request, in a pod that allows it. *)
Section walk.
Context (G : gset located) (agent : Agent) (Hmay : may_create G agent) (g : Guard).
Context (Ha : g_agent g = agent) (Ht : g_target g = TResource r) (Hc : g_chain g = chain_of r) (Hf : faithful G g).

Lemma new_is_member : is_member g = true.
Proof.
  unfold is_member. rewrite Ht. cbn [is_aux_target negb andb].
  rewrite bool_decide_eq_false_2; [done|]. intros Hin%(ff_present_only _ _ Hf). by apply (mc_new _ _ Hmay).
Qed.

Lemma ancestors_candidates c : c ∈ ancestors r → graph_iri c ∈ candidates (g_chain g).
Proof. intros Hin. rewrite Hc. by apply candidate_ancestor. Qed.

Lemma new_levels : length (levels g (ancestors r) true) = length (new_links G (graph_iri r) (ancestors r)).
Proof.
  rewrite <- (links_length g (ancestors r) (graph_iri r)), (links_new G) by (done || apply ancestors_candidates).
  by rewrite length_fmap.
Qed.

Lemma missing_absent c : c ∈ missing g (ancestors r) → present_at (graph_iri c) ∉ G.
Proof.
  assert (∀ l, (∀ c, c ∈ l → graph_iri c ∈ candidates (g_chain g)) → c ∈ missing g l → present_at (graph_iri c) ∉ G) as Hl.
  { induction l as [|x l IH]; intros Hx; simpl; [by intros ?%elem_of_nil|]. case_bool_decide as Hp; [by intros ?%elem_of_nil|].
    intros [->|Hin]%elem_of_cons.
    - intros Hpr. apply Hp, (ff_present _ _ Hf); [apply Hx; by left|done].
    - apply IH; [|done]. intros y Hy. apply Hx. by right. }
  apply Hl, ancestors_candidates.
Qed.

Lemma plan_succeeds : ∃ cs, materialize_plan g =
  Ok (cs, links g (ancestors r) (graph_iri r) true).
Proof.
  unfold materialize_plan. fold (is_member g). rewrite new_is_member.
  assert (guard_subject g = r) as -> by (unfold guard_subject; by rewrite Hc). rewrite Ht.
  pose proof (plan_loop_spec g 0 (ancestors r) (graph_iri r) true [r] []) as Hl.
  change (graph_iri (TResource r)) with (graph_iri r).
  assert (∀ j c, ancestors r !! j = Some c → g_chain g !! S (0 + j) = Some (as_resource c)) as Hchain.
  { intros j c Hj. rewrite Hc. simpl. by rewrite list_lookup_fmap, Hj. }
  specialize (Hl Hchain). destruct (plan_loop _ _ _ _ _ _ _) as [[cs pl]|e|] eqn:Ep; cbn [obind]; [|exfalso..].
  - destruct Hl as (Ecs & -> & _). cbn [is_aux_target andb].
    assert (existsb (counterpart_present g) cs = false) as ->; [|by exists cs].
    apply existsb_false, Forall_forall. intros x Hx. destruct (counterpart_present g x) eqn:Ex; [exfalso|done].
    apply counterpart_present_iff in Ex as (c & Hxc & Hp%(ff_present_only _ _ Hf)).
    assert (x ∈ chain_of r ∧ present_at (graph_iri x) ∉ G) as [Hin Hab].
    { rewrite Ecs in Hx. apply elem_of_cons in Hx as [->|Hx]; [split; [by left|apply Hmay]|].
      apply list_elem_of_fmap in Hx as (y & -> & Hy). split; [|by apply missing_absent].
      right. apply list_elem_of_fmap. exists y. split; [done|by eapply missing_in]. }
    by apply (mc_unpaired _ _ Hmay x c).
  - destruct Hl as (j & Hj & Ed). rewrite new_levels in Hj. destruct (mc_append _ _ Hmay j Hj) as (x & inh & Hn & Hp).
    pose proof (decide_from_spec G g (S (0 + j)) Append Hf) as Hd. rewrite Ed, Ha, Hc in Hd. destruct Hd as [_ Hd]. by apply (Hd x inh).
  - by apply plan_loop_no_panic in Ep.
Qed.

Lemma materialize_succeeds w : vocabulary_valid → urls_valid → up w → succeeds (materialize g) (λ _, up) w.
Proof.
  intros Hv Hu Hw. unfold materialize. destruct plan_succeeds as [cs Ep].
  apply succeeds_bind. eapply succeeds_lift; [exact Ep|]. cbv beta iota.
  assert (∀ c, c ∈ ancestors r → iri_valid (graph_iri c) = true) as Hanc.
  { intros c Hin. apply (Hu (as_resource c)). right. apply list_elem_of_fmap. by exists c. }
  apply (works_bind up); [|intros ls; apply works_ret|done]. apply works_run_plan; [done..|].
  intros c o Hin. split; [apply Hanc; exact (links_ancestor _ _ _ _ _ Hin)|]. intros i ->.
  rewrite (links_new G) in Hin by (done || apply ancestors_candidates).
  apply list_elem_of_fmap in Hin as ([c' i'] & E & Hin). injection E as -> ->.
  apply new_links_child in Hin as [E|(c & Hc' & E)]; cbn in E; rewrite E; [apply (Hu r); by left|by apply Hanc].
Qed.
End walk.

(** ** The write *)

(** A body that can be stored: no name of the pod's own, and names of graphs
    that are IRIs; or bytes under a URL that is short enough. *)
Definition well_formed (repr : Repr) : Prop :=
  match repr with
  | ReprRdf dataset _ _ =>
      uses_reserved_namespace dataset = false ∧ names_apart r (skolemize uuid dataset) ∧
      Forall (λ n, iri_valid n = true) (sk_named_graphs (skolemize uuid dataset))
  | ReprBlob _ _ => is_Some (blob_key_of r)
  end.

Definition created (x : PutResult) (w' : W) : Prop := res_status x.1.1 = CREATED ∧ up w'.

Lemma created_status t : res_status (created_response t) = CREATED.
Proof. unfold created_response. by rewrite status_aux_links. Qed.

Lemma put_store_succeeds dataset fmt v w : well_formed (ReprRdf dataset fmt v) → up w →
  succeeds (put_store sp uuid (TResource r) dataset (skolemize uuid dataset) fmt)
    (λ res w', res_status res = CREATED ∧ up w') w.
Proof.
  intros (_ & Hk & Hv) Hw. unfold put_store. apply succeeds_bind, succeeds_attempt.
  assert (works up (put_dataset r (skolemize uuid dataset) fmt)) as Hp.
  { apply works_put_dataset; [done|]. rewrite split_dataset_spec by done. by apply Forall_fmap. }
  eapply succeeds_wand; [by apply Hp|]. intros [] w1 Hw1. apply succeeds_ret. split; [apply created_status|done].
Qed.

Context (G : gset located) (agent : Agent) (Hmay : may_create G agent) (Hvoc : vocabulary_valid) (Hurls : urls_valid).
Context (headers : Headers) (Hcond : conditionals_hold headers None = true).

(** A guard of the request. *)
Record new_guard (g : Guard) : Prop := {
  ng_agent : g_agent g = agent;
  ng_target : g_target g = TResource r;
  ng_chain : g_chain g = chain_of r;
  ng_faithful : faithful G g
}.

(** Past a read. *)
Lemma finds_then {E A B} (m : M W E A) (k : A → M W E B) Q (Φ : B → W → Prop) w : graphs w = G →
  finds m Q w → (∀ a w', up w' → graphs w' = G → Q a → succeeds (k a) Φ w') → succeeds (bind m k) Φ w.
Proof.
  intros Hg Hm Hk. apply succeeds_bind. eapply succeeds_wand; [exact Hm|]. intros a w1 [[Hw1 [Hs _]] Ha].
  apply Hk; [done|by rewrite Hs|done].
Qed.

Lemma write_rdf_succeeds g existence dataset fmt v w : new_guard g → up w → graphs w = G →
  well_formed (ReprRdf dataset fmt v) → (∀ c, parent r = Some c → unshaped G c) →
  succeeds (put_write_rdf sp uuid g (TResource r) headers existence dataset fmt v) created w.
Proof.
  intros [Ha Ht Hc Hf] Hw Hg Hwf Hsh. pose proof (mc_new _ _ Hmay) as Hn. pose proof Hwf as [Hres _].
  unfold put_write_rdf. cbv zeta.
  assert (put_body_check (TResource r) dataset = None) as -> by (unfold put_body_check; rewrite Hres; cbn; by rewrite andb_false_r).
  apply succeeds_bind, succeeds_ret.
  eapply finds_then; [done|apply finds_map_err, finds_version_check; [done|by rewrite Hg]|]. intros _ w1 Hw1 Hg1 _.
  eapply finds_then; [done|apply finds_map_err, finds_graph_check; [done|by rewrite Hg1]|]. intros _ w2 Hw2 Hg2 _.
  eapply finds_then; [done|apply finds_map_err, finds_conditionals; [done|by rewrite Hg2|done]|]. intros _ w3 Hw3 Hg3 _.
  eapply finds_then; [done|apply finds_map_err, finds_shape; [done|by rewrite Hg3]|]. intros o w4 Hw4 Hg4 ->.
  apply succeeds_bind, succeeds_map_err. eapply succeeds_wand; [by apply (materialize_succeeds G agent Hmay g)|]. intros m w5 Hw5.
  apply succeeds_bind, succeeds_map_err. eapply succeeds_wand; [by apply (put_store_succeeds dataset fmt v)|]. intros res w6 Hs.
  by apply succeeds_ret.
Qed.

Lemma write_blob_succeeds g existence bytes mt w : new_guard g → up w → graphs w = G →
  well_formed (ReprBlob bytes mt) →
  succeeds (put_write_blob g (TResource r) headers existence bytes mt) created w.
Proof.
  intros [Ha Ht Hc Hf] Hw Hg Hwf. pose proof (mc_new _ _ Hmay) as Hn. cbn in Hwf.
  unfold put_write_blob. rewrite bool_decide_eq_true_2 by done. cbn [negb].
  eapply finds_then; [done|apply finds_map_err, finds_conditionals; [done|by rewrite Hg|done]|]. intros _ w3 Hw3 Hg3 _.
  apply succeeds_bind, succeeds_map_err. eapply succeeds_wand; [by apply (materialize_succeeds G agent Hmay g)|]. intros m w5 Hw5.
  apply succeeds_bind, succeeds_attempt. eapply succeeds_wand; [by apply (works_put_blob up r bytes mt)|]. intros [] w6 Hw6.
  apply succeeds_ret. split; [apply created_status|done].
Qed.

Lemma put_write_succeeds body repr w : url_in sp r → up w → graphs w = G →
  classify_body headers body (TResource r) store_rdf_version = Ok repr → well_formed repr →
  (∀ c, parent r = Some c → unshaped G c) →
  succeeds (put_write sp uuid agent (TResource r) headers body) created w.
Proof.
  intros Hin Hw Hg Hb Hwf Hsh. unfold put_write. apply succeeds_bind, succeeds_map_err.
  eapply succeeds_wand; [apply (works_wp up); [by apply works_probe|done|by apply (wp_probe sp)]|].
  intros g w1 [Hw1 (Ha & Ht & Hc & Hf & [Hs _])]. rewrite Hg in Hf, Hs. assert (new_guard g) as Hng by by split.
  pose proof (authorize_may G g Write Hf) as Hd. rewrite Ht in Hd. specialize (Hd Hc). rewrite Ha in Hd.
  destruct (authorize g Write) as [d|e|] eqn:Ed; [|destruct Hd as [_ Hd]; by destruct Hd; apply Hmay|done].
  apply succeeds_bind, succeeds_map_err. eapply succeeds_lift; [done|].
  apply succeeds_bind. eapply succeeds_lift; [by rewrite Hb|].
  destruct repr; [by apply write_rdf_succeeds|by apply write_blob_succeeds].
Qed.
End create.

(** * The handler *)
Section theorem.
Context `{IriSyntax} `{HeaderSyntax} `{HeaderText} `{BlankSyntax} `{Hashing} `{ObjectPath} `{Display}
  `{TermDisplay} `{RdfLib} `{ShaclEngine} `{N3Lib}.
Context (sp : StorageSpace) (Hsp : space_wf sp) (uuid : nat → string).
Context {W : Type} `{BackendLaws W} `{EventBus W} `{!BusBeside W} (up : W → Prop) `{!Up up} `{!BusUp up}.

#[local] Instance beside_from_bus : BesideStore W.
Proof. intros b w. apply (bus_beside b w). Qed.

(** The announcement leaves the stores up. *)
Lemma up_on_bus {E A} (f : Bus → A * Bus) : keeps up (on_bus f : M W E A) (λ _, True).
Proof. intros w Hw. split; [|done]. unfold on_bus. destruct (f (get_bus w)) as [a b]. by apply bus_up. Qed.
#[local] Hint Resolve reads_up up_on_bus : keeps.

Lemma up_state_of {E} t : keeps up (state_of t : M W E (option string)) (λ _, True).
Proof. unfold state_of, state_of_graph, ok_flatten. follow. Qed.
#[local] Hint Resolve up_state_of : keeps.

Lemma up_publish_own {E} t a : keeps up (publish_own t a : M W E unit) (λ _, True).
Proof. unfold publish_own, is_live, publish. follow. Qed.

Lemma up_publish_link {E} a c i : keeps up (publish_link a c i : M W E unit) (λ _, True).
Proof. unfold publish_link, is_live, publish. follow. Qed.
#[local] Hint Resolve up_publish_own up_publish_link : keeps.

Lemma up_emit_put {E} t e m n : keeps up (emit_put t e m n : M W E unit) (λ _, True).
Proof.
  unfold emit_put. assert (∀ i m, keeps up (publish_containment i m : M W E unit) (λ _, True)).
  { intros i' m'. unfold publish_containment. keeps_step; apply keeps_for_each; intros; follow. }
  follow.
Qed.

(** A [PUT] of a new resource that the pod allows, of a well-formed body, is
    answered [201], and the stores hold what was sent and are still up. *)
Lemma put_creates (r : ResourceUrl) (path : string) (Ht : classify sp ("/" +:+ path) = Ok (TResource r))
    (agent : Agent) (headers : Headers) (body : string) (repr : Repr) (w : W)
    (Hreached : rtc (pod_step sp) ∅ (graphs w)) (Hup : up w)
    (Hb : classify_body headers body (TResource r) store_rdf_version = Ok repr) (Hwf : well_formed uuid r repr)
    (Hmay : may_create r (graphs w) agent) (Hshape : ∀ c, parent r = Some c → unshaped (graphs w) c)
    (Hcond : conditionals_hold headers None = true) (Hvoc : vocabulary_valid) (Hurls : urls_valid r) :
  ∃ res w', handle_put (E:=Empty_set) sp uuid agent path headers body w = (Ok res, w') ∧
    res_status res = CREATED ∧ wrote uuid r repr w' ∧ up w'.
Proof.
  destruct (classify_resource sp r _ Hsp Ht) as [Hin Hweb].
  assert (repr_apart uuid r repr) as Hk by (destruct repr; [apply Hwf|done]).
  pose proof (put_impl_wrote (E:=Empty_set) sp uuid r Hweb agent headers body repr w Hin Hb Hk) as Hwrote.
  assert (reached (W:=W) sp w) as Hr by exact Hreached.
  destruct (calm_answers sp _ (calm_handle_put sp Hsp uuid agent path headers body) w Hr) as (res & w' & Er & _).
  unfold handle_put in *. rewrite (classified_target _ _ _ _ Ht) in *. exists res, w'. split; [done|].
  assert (res_status res = CREATED ∧ up w') as [Hs Hup'].
  { destruct (put_write_succeeds sp uuid up r (graphs w) agent Hmay Hvoc Hurls headers Hcond body repr w Hin Hup eq_refl Hb Hwf Hshape)
      as ([[res' ex] m] & w1 & Ew & Hc & Hw1). cbn in Hc. unfold put_impl, bind, returned in Er. rewrite Ew in Er.
    pose proof (up_emit_put (E:=Empty_set) (TResource r) ex m (res_status res') w1 Hw1) as [Hw2 _].
    destruct (emit_put _ _ _ _ w1) as [[u|[]|] w2]; [|done]. by injection Er as -> <-. }
  split; [done|]. split; [|done]. unfold wp in Hwrote. rewrite Er in Hwrote. apply (Hwrote res eq_refl). by rewrite Hs.
Qed.
End theorem.
