(* ===== verification/Served.v ===== *)
(** From a [PUT] that may happen to a [GET] that shows it.

    On stores that are up ([Up]), an allowed [PUT] of a new resource is
    [Created]; this file adds the other half: whoever may read it, and asks for
    a form there is, is then served what was sent. *)
From S2P Require Import Prelude Str Terms Space Rdf Dataset Patch Store Mem Resource Container.
From S2P Require Import Ground Auxiliary Pdp Guard Shapes Notify Http HttpWrite HttpRead Reads Toy Steps Answered.
From S2P Require Import Edge Validators Written Listed Created.
Open Scope list_scope.

Section served.
Context `{IriSyntax} `{HeaderSyntax} `{HeaderText} `{BlankSyntax} `{Hashing} `{ObjectPath} `{Display}
  `{TermDisplay} `{RdfLib} `{ShaclEngine} `{N3Lib}.
Context (sp : StorageSpace) (uuid : nat → string).
Context {W : Type} `{BackendLaws W} `{EventBus W} `{!BusBeside W} (up : W → Prop) `{!Up up}.

(** ** Not the store's fault *)

(** While the stores are up, it does not fail for their sake. *)
Definition backed {A} (m : M W ResourceError A) : Prop :=
  ∀ w, up w → up (m w).2 ∧ ∀ e, (m w).1 ≠ Err (StoreErr e).

Lemma backed_ret {A} (a : A) : backed (ret a).
Proof. done. Qed.

Lemma backed_lift {A} (o : outcome ResourceError A) : (∀ e, o ≠ Err (StoreErr e)) → backed (lift o).
Proof. done. Qed.

Lemma backed_bind {A B} (m : M W ResourceError A) (k : A → M W ResourceError B) :
  backed m → (∀ a, backed (k a)) → backed (bind m k).
Proof.
  intros Hm Hk w Hw. destruct (Hm w Hw) as [Hw1 He]. unfold bind. destruct (m w) as [[a|e|] w1]; cbn in *; [|split; [done|]..].
  - by apply Hk.
  - intros e' [= ->]. by apply (He e').
  - done.
Qed.

Lemma backed_store_op {A} (m : M W StoreError A) : works up m → backed (store_op m).
Proof. intros Hm w Hw. destruct (Hm w Hw) as (a & w' & Em & Hw'). unfold store_op, map_err. by rewrite Em. Qed.

Ltac back := repeat (cbv zeta; first
  [ apply backed_bind; [|intros ?] | apply backed_ret | apply backed_store_op; solve [eauto with works]
  | done | progress case_match ]).

Lemma backed_exists iri : backed (exists_ iri).
Proof. unfold exists_. back. Qed.

Lemma backed_kind_of r : backed (kind_of r).
Proof.
  unfold kind_of, stored_media_type. apply backed_bind; [apply backed_exists|intros e]. back.
  apply backed_lift. by match goal with o : option MediaType |- _ => destruct o end.
Qed.

Lemma backed_get_dataset r : backed (get_dataset r).
Proof.
  unfold get_dataset, registered_shelves. apply backed_bind; [apply backed_exists|intros e].
  assert (∀ sys keys quads, backed (read_shelves sys keys quads)).
  { intros sys keys. induction keys as [|k keys IH]; intros quads; simpl; [back|]. apply backed_bind; [|done].
    unfold read_shelf. back. }
  back.
Qed.

(** What a weakest precondition leaves of such a computation. *)
Lemma backed_wp {A} (m : M W ResourceError A) Φ w : backed m → up w → wp m Φ w →
  match m w with (Err (StoreErr _), _) => False | (o, w') => up w' ∧ Φ o w' end.
Proof. intros Hm Hw. unfold wp. destruct (Hm w Hw) as [Hw1 He]. destruct (m w) as [[a|[]|] w']; cbn in *; try done. by destruct (He e). Qed.

(** ** Reading what is there *)
Context (r : ResourceUrl).
Notation target := (TResource r).

Definition unconditional (headers : Headers) : Prop := header_opt headers "if-none-match" = None.

(** A form of it is acceptable. *)
Definition acceptable (headers : Headers) (repr : Repr) : Prop :=
  match repr with
  | ReprRdf dataset fmt _ => ∀ st, st = None ∨ st = Some fmt →
      is_Some (negotiate (header_str headers "accept") (if has_named_graphs dataset then ShapeDataset else ShapeGraph) st)
  | ReprBlob _ mt => accept_allows (header_str headers "accept") mt = true
  end.

(** The serializer writes whatever it is given. *)
Definition serializes : Prop := ∀ f d e, serialize f d ≠ Err e.

Lemma dataset_served dataset fmt v decision headers stored st : serializes → unconditional headers →
  acceptable headers (ReprRdf dataset fmt v) → st = None ∨ st = Some fmt →
  stored ≡ₚ remove_dups (skolemize uuid dataset) →
  ∃ res, dataset_response r decision headers stored st = Ok res ∧ res_status res = OK.
Proof.
  intros Hser Hno Hacc Hst Hs. pose proof (dataset_response_no_panic r decision headers stored st) as Hp.
  assert (sk_has_named_graphs stored = has_named_graphs dataset) as Hn.
  { destruct (named_graphs_agree uuid dataset) as [<- _]. apply eq_true_iff_eq. rewrite !sk_has_named_graphs_spec.
    by setoid_rewrite Hs; setoid_rewrite elem_of_remove_dups. }
  unfold dataset_response in *. cbv zeta in *. rewrite Hn in *. destruct (Hacc st Hst) as [[fmt' v'] En]. rewrite En in *.
  unfold unconditional in Hno. rewrite Hno in *. rewrite bool_decide_eq_false_2 in * by done.
  destruct (project_to _ _) as [served|]; [|done]. pose proof (Hser fmt' served) as He.
  destruct (serialize fmt' served) as [bytes|e|]; [|by destruct (He e)|done]. eexists; split; [done|]. by rewrite status_read_headers.
Qed.

(** What a [200] shows of a representation. *)
Definition shows (headers : Headers) (repr : Repr) (res : Response) : Prop :=
  match repr with
  | ReprRdf dataset fmt _ => ∃ ρ visible st fmt' v served,
      (∀ b b', b ∈ mjoin (map quad_bnodes dataset) → b' ∈ mjoin (map quad_bnodes dataset) → ρ b = ρ b' → b = b') ∧
      (∀ q, q ∈ visible ↔ ∃ q0, q0 ∈ dataset ∧ q = rename_quad ρ q0) ∧
      (st = None ∨ st = Some fmt) ∧
      negotiate (header_str headers "accept") (if has_named_graphs dataset then ShapeDataset else ShapeGraph) st = Some (fmt', v) ∧
      project_to (if carries_dataset fmt' then visible else default_graph_only visible)
        (version_min v (rdf_version visible)) = Some served ∧
      serialize fmt' served = Ok (res_body res)
  | ReprBlob bytes mt => res_body res = bytes ∧ h_get (res_headers res) "content-type" = Some (mt_header mt)
  end.

(** What makes the round trip exact: no triple term of the body holds a name of
    the pod's own. *)
Definition nested_ok (repr : Repr) : Prop :=
  match repr with ReprRdf dataset _ _ => Forall nested_clean dataset | ReprBlob _ _ => True end.

Context (Huuid : uuids_distinct uuid) (Hlabels : labels_valid).

Lemma served_shows dataset fmt v decision headers res : uses_reserved_namespace dataset = false →
  Forall nested_clean dataset → served_from uuid r dataset fmt decision headers res → res_status res = OK →
  shows headers (ReprRdf dataset fmt v) res.
Proof.
  intros Hres Hn Hx Hok.
  destruct (served_body uuid r dataset fmt decision headers res Hx Hok) as (stored & st & fmt' & v' & served & Hst & Hf & Hng & Hp & Hy).
  destruct (skolem_renames uuid dataset Huuid Hlabels Hres Hn) as (ρ & Hinj & Hren).
  exists ρ, (deskolemize stored), st, fmt', v', served. split; [exact Hinj|]. split; [|by split_and!].
  intros q. transitivity (q ∈ deskolemize (skolemize uuid dataset)).
  - unfold deskolemize. rewrite !list_elem_of_fmap. setoid_rewrite Hst. by setoid_rewrite elem_of_remove_dups.
  - rewrite Hren, list_elem_of_fmap. naive_solver.
Qed.

Lemma get_dataset_serves dataset fmt v decision headers w : serializes → unconditional headers →
  acceptable headers (ReprRdf dataset fmt v) → up w → names_apart r (skolemize uuid dataset) →
  wrote uuid r (ReprRdf dataset fmt v) w →
  succeeds (get_resource r decision headers)
    (λ res w', res_status res = OK ∧ served_from uuid r dataset fmt decision headers res) w.
Proof.
  intros Hser Hno Hacc Hw Hk Hwr. pose proof Hwr as (Hd & Hv & _). unfold get_resource.
  assert (present_at (graph_iri r) ∈ graphs w) as Hp by (apply (at_sys _ _ _ _ Hd), bookkeeping_elem; by left).
  assert (¬ binary_at (graphs w) (graph_iri r)) as Hn.
  { by apply (not_binary {[graph_iri r := (skolemize uuid dataset, fmt)]} r (skolemize uuid dataset) fmt w (written_rep _ _ _ _ _ _ Hwr)), lookup_singleton_eq. }
  apply succeeds_bind, succeeds_map_err. pose proof (backed_wp _ _ _ (backed_kind_of r) Hw (wp_kind_of r w)) as Hx.
  destruct (kind_of r w) as [[[[|mt]|]|[]|] w1] eqn:E1; try (by destruct Hx as [_ Hx]); try (by destruct Hx as (_ & ? & ? & ?)); try (by destruct Hx as (_ & ? & ?)); try done.
  destruct Hx as (Hw1 & _ & _ & Hs). exists (Some KRdf), w1. split; [done|].
  assert (wrote uuid r (ReprRdf dataset fmt v) w1) as Hwr1 by (by eapply wrote_looks).
  apply succeeds_bind, succeeds_map_err.
  pose proof (backed_wp _ _ _ (backed_get_dataset r) Hw1 (wp_get_dataset {[graph_iri r := (skolemize uuid dataset, fmt)]} r
    (skolemize uuid dataset) fmt w1 (written_rep _ _ _ _ _ _ Hwr1) (lookup_singleton_eq _ _) (written_apart _ _ _ _ Hk) Hv)) as Hy.
  destruct (get_dataset r w1) as [[o|[]|] w2] eqn:E2; try (by destruct Hy as [_ Hy]); try done.
  destruct Hy as (Hw2 & (stored & -> & Hst) & Hs2). exists (Some stored), w2. split; [done|].
  apply succeeds_bind. pose proof (wp_stored_format (E:=Response) uuid r dataset fmt v w2) as Hz. unfold wp in Hz.
  destruct Hz as (mt & Ez & Hmt); [by eapply wrote_looks|].
  destruct (ok_flatten (stored_media_type r) w2) as [oz w3] eqn:E3. cbn in Ez. subst oz. exists mt, w3. split; [done|].
  destruct (dataset_served dataset fmt v decision headers stored _ Hser Hno Hacc Hmt Hst) as (res & Er & Hok).
  exists res, w3. split; [by unfold lift; rewrite Er|]. split; [done|]. by exists stored, (m ← mt; from_content_type (mt_raw m)).
Qed.

Lemma status_with_allow res t v : res_status (with_allow res t v) = res_status res.
Proof.
  unfold with_allow. generalize (("allow", allowed_methods t) :: accept_fields t v). intros l. revert res.
  induction l as [|x l IH]; intros res; [done|]. cbn. by rewrite IH.
Qed.

Lemma get_blob_serves bytes mt decision headers w : unconditional headers → acceptable headers (ReprBlob bytes mt) →
  up w → parse_media_type (mt_raw mt) = Some mt → wrote uuid r (ReprBlob bytes mt) w →
  succeeds (get_resource r decision headers) (λ res w', res_status res = OK ∧ shows headers (ReprBlob bytes mt) res) w.
Proof.
  intros Hno Hacc Hw Hmt Hwr. pose proof Hwr as [(key & Hkey & Hobj) Hrec].
  pose proof (get_written_blob uuid r bytes mt decision headers w Hmt Hwr) as Hcontent.
  assert (succeeds (get_resource r decision headers) (λ res _, res_status res = OK) w) as (res & w' & Er & Hok).
  2:{ exists res, w'. split; [done|]. split; [done|]. unfold wp in Hcontent. rewrite Er in Hcontent. by apply Hcontent. }
  assert (binary_at (graphs w) (graph_iri r)) as Hb by (apply (proj2 (Hrec _ _)); right; left; done).
  assert (recorded (graphs w) (sys_graph_iri (graph_iri r)) (graph_iri r) SYS_MEDIA_TYPE (TLiteral (simple_literal (mt_raw mt))))
    as Hl by (apply (proj2 (Hrec _ _)); by do 2 right).
  unfold get_resource. apply succeeds_bind, succeeds_map_err.
  pose proof (backed_wp _ _ _ (backed_kind_of r) Hw (wp_kind_of r w)) as Hx.
  assert (present_at (graph_iri r) ∈ graphs w) as Hp by (apply (proj2 (Hrec _ _)); left; done).
  destruct (kind_of r w) as [[[[|mt']|]|[]|] w1] eqn:E1; try (by destruct Hx as [_ Hx]); try (by destruct Hx as (_ & ? & ?)); try (by destruct Hx as (_ & _ & ? & _)); try done.
  2:{ destruct Hx as (_ & _ & _ & Hn). specialize (Hn _ Hl). cbn in Hn. congruence. }
  destruct Hx as (Hw1 & _ & _ & Hs & l & Hl' & Em). exists (Some (KBinary mt')), w1. split; [done|].
  assert (mt' = mt) as ->.
  { apply Hrec in Hl' as [[E _]|[[E _]|[_ El]]]; [pred_clash..|]. injection El as ->. cbn in Em. congruence. }
  unfold blob_read. cbn in Hacc. rewrite Hacc, Hkey. cbn [negb]. apply succeeds_bind, succeeds_map_err.
  destruct (up_blob_get key w1 Hw1) as (o & w2 & Eb & _). exists o, w2. split; [done|].
  pose proof (blob_get_law key w1) as Hlaw. rewrite Eb in Hlaw. destruct Hlaw as (_ & _ & ->). destruct Hs as [_ ->]. rewrite Hobj.
  unfold unconditional in Hno. rewrite Hno, bool_decide_eq_false_2 by done. apply succeeds_ret.
  by rewrite status_with_allow, status_aux_links.
Qed.
End served.

(** * The two handlers *)
Section theorem.
Context `{IriSyntax} `{HeaderSyntax} `{HeaderText} `{BlankSyntax} `{Hashing} `{ObjectPath} `{Display}
  `{TermDisplay} `{RdfLib} `{ShaclEngine} `{N3Lib}.
Context (sp : StorageSpace) (Hsp : space_wf sp) (uuid : nat → string).
Context {W : Type} `{BackendLaws W} `{EventBus W} `{!BusBeside W} (up : W → Prop) `{!Up up} `{!BusUp up}.
Context (Huuid : uuids_distinct uuid) (Hlabels : labels_valid) (Hser : serializes).

(** A [GET] by whoever may, of what the stores hold. *)
Lemma get_serves {E} r agent headers put_headers body repr w :
  classify_body put_headers body (TResource r) store_rdf_version = Ok repr → url_in sp r → up w → repr_apart uuid r repr → wrote uuid r repr w →
  nested_ok repr → may (graphs w) agent (TResource r) Read → unconditional headers → acceptable headers repr →
  ∃ res w', get_impl (E:=E) agent (TResource r) headers w = (Ok res, w') ∧ res_status res = OK ∧ shows headers repr res.
Proof.
  intros Hb Hin Hw Hk Hwr Hren Hmay Hno Hacc.
  assert (succeeds (get_write agent (TResource r) headers) (λ res _, res_status res = OK ∧ shows headers repr res) w) as (res & w' & Er & Hres).
  2:{ exists res, w'. split; [|done]. unfold get_impl, returned. by rewrite Er. }
  unfold get_write. apply succeeds_bind, succeeds_map_err.
  eapply succeeds_wand; [apply (works_wp up); [by apply works_probe|done|by apply (wp_probe sp)]|].
  intros g w1 [Hw1 (Ha & Ht & Hc & Hf & Hs)].
  pose proof (authorize_may (graphs w) g Read Hf) as Hd. rewrite Ht in Hd. specialize (Hd Hc). rewrite Ha in Hd.
  destruct (authorize g Read) as [d|e|] eqn:Ed; [|by destruct Hd as [_ Hd]|done].
  apply succeeds_bind, succeeds_map_err. eapply succeeds_lift; [done|].
  assert (wrote uuid r repr w1) as Hwr1 by (by eapply wrote_looks). destruct repr as [dataset fmt v|bytes mt].
  - eapply succeeds_wand; [by eapply (get_dataset_serves uuid up r dataset fmt v)|]. intros res w2 [Hok Hx]. split; [done|].
    eapply (served_shows uuid r); [done|done|apply Hwr|done|exact Hx|done].
  - destruct (classify_blob r _ _ _ _ Hb) as [_ Hmt]. by apply (get_blob_serves uuid up r).
Qed.

End theorem.

(** * Witness: the owner creates [/a/b] on a pod with a root, and reads it *)
Section witness.
#[local] Existing Instance toy_iri.
#[local] Existing Instance toy_header.
#[local] Existing Instance toy_text.
#[local] Existing Instance toy_blanks.
#[local] Existing Instance toy_hash.
#[local] Existing Instance toy_path.
#[local] Existing Instance toy_display.
#[local] Existing Instance toy_terms.
#[local] Existing Instance toy_rdf.
#[local] Existing Instance toy_shacl.
#[local] Existing Instance toy_n3.

#[local] Instance bus_beside_create : BusBeside (Mem Bus).
Proof. by intros b w. Qed.

(** Memory is up while no fault is scheduled. *)
Definition mem_up (w : Mem Bus) : Prop := m_faults w = [].

#[local] Instance mem_is_up : Up mem_up.
Proof.
  split; intros; destruct w as [ts os fs xtra]; unfold mem_up in *; cbn in *; subst fs;
    eexists _, _; (split; [reflexivity|done]).
Qed.

#[local] Instance mem_bus_up : BusUp mem_up.
Proof. by intros b w. Qed.

Definition b_url : ResourceUrl := mkResourceUrl "/a/b" "https://pod.example/a/b".

(** Membership in memory, decided on the list. *)
Lemma made_absent x : bool_decide (x ∈ m_triples made_store) = false → x ∉ graphs made_store.
Proof. intros Hb Hin. apply elem_of_list_to_set in Hin. by apply bool_decide_eq_false_1 in Hb. Qed.

Lemma made_present x : bool_decide (x ∈ m_triples made_store) = true → x ∈ graphs made_store.
Proof. intros Hb. apply elem_of_list_to_set. by apply bool_decide_eq_true_1 in Hb. Qed.

(** The root's ACL is the nearest from below, and lets its owner write. *)
Lemma root_acl_nearest chain n : chain = drop n [b_url; mkResourceUrl "/a/" "https://pod.example/a/"] →
  nearest (graphs made_store) (chain ++ [toy_root]) toy_root (Nat.ltb 0 (length chain)).
Proof.
  intros Hc. exists (length chain). split; [by rewrite lookup_app_r, Nat.sub_diag by lia|].
  split; [apply made_present; vm_compute; reflexivity|]. split; [done|]. intros j x Hj Hx.
  rewrite lookup_app_l in Hx by done. apply list_elem_of_lookup_2 in Hx. subst chain.
  assert (x ∈ [b_url; mkResourceUrl "/a/" "https://pod.example/a/"]) as Hin by (apply list_elem_of_lookup in Hx as [k Hx]; rewrite lookup_drop in Hx; by eapply list_elem_of_lookup_2).
  apply elem_of_cons in Hin as [->|Hin]; [apply made_absent; vm_compute; reflexivity|].
  apply list_elem_of_singleton in Hin as ->. apply made_absent. vm_compute. reflexivity.
Qed.

Lemma owner_permitted inh m : m = Write ∨ m = Append →
  permits (acl_states (graphs made_store) toy_root) toy_owner (graph_iri toy_root) inh m.
Proof.
  intros Hm. exists (SNamed "https://pod.example/.aux/.acl#owner"). unfold acl_states.
  split; [destruct inh; apply made_present; vm_compute; reflexivity|].
  split; [right; right; apply made_present; vm_compute; reflexivity|].
  destruct Hm as [-> | ->]; [left|right; split; [done|]]; apply made_present; vm_compute; reflexivity.
Qed.

Lemma owner_may_create : may_create b_url (graphs made_store) toy_owner.
Proof.
  split.
  - apply made_absent. vm_compute. reflexivity.
  - exists toy_root, true. split; [apply (root_acl_nearest _ 0 eq_refl)|apply owner_permitted; by left].
  - intros i Hi. exists toy_root. destruct i as [|[|i]].
    + exists true. split; [apply (root_acl_nearest [mkResourceUrl "/a/" "https://pod.example/a/"] 1 eq_refl)|apply owner_permitted; by right].
    + exists false. split; [apply (root_acl_nearest [] 2 eq_refl)|apply owner_permitted; by right].
    + exfalso. assert (length (new_links (graphs made_store) (graph_iri b_url) (ancestors b_url)) ≤ 2)%nat; [|lia].
      change (ancestors b_url) with [mkContainerUrl (mkResourceUrl "/a/" "https://pod.example/a/"); mkContainerUrl toy_root].
      cbn. repeat (case_bool_decide; cbn; try lia).
  - intros x c Hx _ Hc. apply made_absent.
    assert (Forall (λ x, match slash_counterpart x with
      | Some c => bool_decide (present_at (graph_iri c) ∈ m_triples made_store) = false | None => True end) (chain_of b_url)) as Hall
      by (repeat constructor; vm_compute; reflexivity).
    rewrite Forall_forall in Hall. specialize (Hall x Hx). by rewrite Hc in Hall.
Qed.

Lemma unshaped_made c : unshaped (graphs made_store) c.
Proof.
  intros t Hin%elem_of_list_to_set.
  assert (Forall (λ x : located, t_predicate x.2 ≠ LDP_CONSTRAINED_BY) (m_triples made_store)) as Hall
    by (apply (bool_decide_eq_true_1 _); vm_compute; reflexivity).
  rewrite Forall_forall in Hall. exact (Hall _ Hin).
Qed.

Lemma toy_serializes : serializes.
Proof. intros f d e. unfold serialize. cbn. discriminate. Qed.

Definition b_headers : Headers := [("accept", "text/turtle")].
Definition b_puts : outcome Empty_set Response * Mem Bus :=
  handle_put toy_space toy_uuid toy_owner "a/b" turtle_headers "body" made_store.

(** The root's ACL is as near and as open as it was. *)
Lemma owner_may_read : may (graphs b_puts.2) toy_owner (TResource b_url) Read.
Proof.
  assert (∀ x, bool_decide (x ∈ m_triples b_puts.2) = true → x ∈ graphs b_puts.2) as Hin.
  { intros x Hb. apply elem_of_list_to_set. by apply bool_decide_eq_true_1 in Hb. }
  assert (∀ x, bool_decide (x ∈ m_triples b_puts.2) = false → x ∉ graphs b_puts.2) as Hout.
  { intros x Hb Hx. apply elem_of_list_to_set in Hx. by apply bool_decide_eq_false_1 in Hb. }
  exists toy_root, true. split.
  - exists 2. split; [reflexivity|]. split; [apply Hin; vm_compute; reflexivity|]. split; [done|].
    intros j x Hj Hx. destruct j as [|[|j]]; [injection Hx as <-..|lia]; apply Hout; vm_compute; reflexivity.
  - exists (SNamed "https://pod.example/.aux/.acl#owner"). unfold acl_states. split; [apply Hin; vm_compute; reflexivity|].
    split; [right; right; apply Hin; vm_compute; reflexivity|]. left. apply Hin. vm_compute. reflexivity.
Qed.

Lemma b_body : ∃ dataset fmt v,
  classify_body turtle_headers "body" (TResource b_url) store_rdf_version = Ok (ReprRdf dataset fmt v) ∧
  dataset = toy_parse (graph_iri b_url) "body" ∧ fmt = turtle.
Proof. do 3 eexists. split; [vm_compute; reflexivity|]. split; vm_compute; reflexivity. Qed.

End witness.
