(* ===== verification/Gone.v ===== *)
(** What a [DELETE] took away is gone: the deletion of a resource or an empty
    container, from the handler to the [GET] after it. *)
From S2P Require Import Prelude Str Terms Space Rdf Dataset Patch Store Mem Resource Container.
From S2P Require Import Ground Auxiliary Pdp Guard Shapes Notify Http HttpWrite HttpRead Reads Toy Steps.
From S2P Require Import Edge Validators Written Listed.
Open Scope list_scope.

(** A target and its auxiliaries. *)
Definition names_of (t t' : Target) : Prop := t' = t ∨ ∃ k, t' = TAux (aux (subject_of t) k).

Section gone.
Context `{IriSyntax} `{HeaderSyntax} `{HeaderText} `{BlankSyntax} `{Hashing} `{ObjectPath} `{Display}
  `{TermDisplay} `{RdfLib} `{ShaclEngine} `{N3Lib}.
Context (sp : StorageSpace) (Hsp : space_wf sp).
Context {W : Type} `{BackendLaws W} `{EventBus W} `{!BusBeside W}.

(** What a successful [DELETE] of [t] leaves of the pod. *)
Record deleted (t : Target) (G G' : gset located) : Prop := {
  de_erased : erased G' (subject_of t);
  de_others i : present_at i ∈ G → present_at i ∈ G' ∨ i = graph_iri t ∨ ∃ k, i = graph_iri (aux (subject_of t) k);
  de_empty c i : t = TContainer c → contains_at (graph_iri c) i ∉ G;
  de_below : (∃ c, t = TContainer c) → is_Some (parent (subject_of t))
}.

Notation gone t G := (λ (o : outcome Response (Response * list AuxUrl)) (w' : W),
  match o with
  | Ok (res, _) => is_success (res_status res) = true → deleted t G (graphs w')
  | Err res => failure res
  | Panicked => True
  end).

Lemma delete_subject_gone t (w : W) : member sp t → pod_inv sp (graphs w) →
  wp (delete_subject (subject_of t)) (λ o w',
    ∀ b, o = Ok b → erased (graphs w') (subject_of t) ∧ ∀ i, present_at i ∈ graphs w →
      present_at i ∈ graphs w' ∨ i = graph_iri t ∨ ∃ k, i = graph_iri (aux (subject_of t) k)) w.
Proof.
  intros Hm Hi. pose proof (member_plain sp t Hm) as Hp. apply wp_delete_subject; cbn zeta; [|done..].
  intros ks ops w' Hks Hops Hg _ b _. split; [rewrite Hg; by eapply delete_erased|]. intros i Hin.
  assert (Forall shelf_like ks) as Hreg by (apply (registry_shelves sp (graph_iri (subject_of t)) w); [done|]; intros k; apply Hks).
  pose proof (delete_subject_sys sp _ ks ops (graphs w) Hsp Hp Hreg Hops) as He. rewrite <- Hg in He.
  assert (graph_iri (subject_of t) = graph_iri t) as Et by (by destruct t).
  destruct (decide (i = graph_iri (subject_of t))) as [->|Hn]; [by right; left|].
  destruct (decide (i = graph_iri (aux (subject_of t) Acl))) as [->|Hn']; [right; right; by exists Acl|].
  left. apply He. right. split; [done|]. by intros [?|[[] ?]].
Qed.

(** Nothing in a container that is asked whether it is empty and says so. *)
Lemma wp_container_is_empty c (Φ : outcome ResourceError bool → W → Prop) w :
  (∀ b w', same w w' → (b = true → ∀ i, contains_at (graph_iri c) i ∉ graphs w) → Φ (Ok b) w') →
  (∀ e w', same w w' → Φ (Err (StoreErr e)) w') → wp (container_is_empty c) Φ w.
Proof.
  intros Hok He. unfold container_is_empty. apply wp_bind, wp_store_op, wp_query_triples; cbn [omap_err]; [|done].
  intros ts w1 Hs _ Hts. apply wp_ret, Hok; [done|]. intros Hb i Hin.
  assert ((contains_at (graph_iri c) i).2 ∈ ts) as Hx by (apply Hts; by split).
  by destruct ts; [apply elem_of_nil in Hx|].
Qed.

Notation here w := (looks (graphs w) (objects w)).

Lemma delete_subject_write_gone g t (w w1 : W) : member sp t → pod_inv sp (graphs w) → here w w1 →
  wp (delete_subject_write g t) (gone t (graphs w)) w1.
Proof.
  intros Hm Hi Hw1. unfold delete_subject_write.
  apply wp_bind, wp_map_err, wp_lift. destruct (authorize_parent g Write); cbn [omap_err]; [|apply failure_denial|done].
  apply wp_bind, wp_map_err, wp_lift. destruct (deletable_auxes _ _ _) as [auxes|d|]; cbn [omap_err]; [|apply failure_denial|done].
  assert (∀ w2, here w w2 → (∀ c i, t = TContainer c → contains_at (graph_iri c) i ∉ graphs w) →
    ((∃ c, t = TContainer c) → is_Some (parent (subject_of t))) →
    wp (let! deleted := attempt (delete_subject (subject_of t)) in
        ret (match deleted with
             | inr true => status_only NO_CONTENT
             | inr false => with_aux_links (status_only NOT_FOUND) t
             | inl _ => internal_error
             end, auxes)) (gone t (graphs w)) w2) as Hdel.
  { intros w2 [Hg2 Ho2] Hem Hroot. apply wp_bind, wp_attempt. eapply wp_wand.
    { apply delete_subject_gone; [done|by rewrite Hg2]. }
    rewrite Hg2. intros [b|e|] w3 Hd; [|by apply wp_ret|done]. apply wp_ret. intros _.
    by destruct (Hd b eq_refl). }
  destruct t as [r|c|x]; [|..|done].
  - apply wp_bind, wp_ret. by apply Hdel; [|intros ? ? [=]|intros [? [=]]].
  - destruct (parent (subject_of (TContainer c))) as [p|].
    2:{ rewrite bool_decide_eq_false_2 by (by intros [? [=]]). by apply wp_bind, wp_throw. }
    rewrite bool_decide_eq_true_2 by done. cbn [negb]. apply wp_bind, wp_bind, wp_map_err, wp_container_is_empty; cbn [omap_err]; [|done].
    intros b w2 Hs2 Hb. destruct b; [|by apply wp_throw]. apply wp_ret, Hdel; [by eapply looks_same| |].
    + intros c' i [= <-]. destruct Hw1 as [<- _]. by apply Hb.
    + done.
Qed.

Lemma delete_write_gone t agent (w : W) : member sp t → pod_inv sp (graphs w) →
  wp (delete_write agent t) (gone t (graphs w)) w.
Proof.
  intros Hm Hi. unfold delete_write. apply wp_bind, wp_map_err. unfold wp at 1.
  destruct (keeps_probe (here w) agent t w) as [Hl _]; [done|].
  destruct (probe agent t w) as [[g|d|] w1]; cbn [fst snd omap_err] in *; [|apply failure_denial|done].
  apply wp_bind, wp_map_err, wp_lift. destruct (authorize g Write); cbn [omap_err]; [|apply failure_denial|done].
  destruct t; [by apply delete_subject_write_gone..|done].
Qed.

Lemma look_emit_delete {E} G O t l n : keeps (looks G O) (emit_delete t l n : M W E unit) (λ _, True).
Proof.
  unfold emit_delete. assert (∀ x, keeps (looks G O) (publish_own x Delete : M W E unit) (λ _, True)) by (intros; apply look_publish_own).
  destruct (negb _); [follow|]. keeps_step; [done|]. keeps_step; [by apply keeps_for_each|].
  destruct (match t with TResource r => parent r | TContainer c => parent (as_resource c) | TAux _ => None end);
    [apply look_publish_link|follow].
Qed.

Lemma delete_impl_gone {E} t agent (w : W) : member sp t → pod_inv sp (graphs w) →
  wp (delete_impl agent t : M W E Response)
    (λ o w', ∀ res, o = Ok res → is_success (res_status res) = true → deleted t (graphs w) (graphs w')) w.
Proof.
  intros Hm Hi. unfold delete_impl. apply wp_bind, wp_attempt. eapply wp_wand; [by apply delete_write_gone|].
  intros [[res auxes]|res|] w1 Ho; [| |done].
  - apply wp_bind. unfold wp. destruct (look_emit_delete (E:=E) (graphs w1) (objects w1) t auxes (res_status res) w1) as [[Hg _] _]; [done|].
    destruct (emit_delete t auxes (res_status res) w1) as [[u|e|] w2]; cbn in *; [|done..].
    intros res' [= <-] Hs. rewrite Hg. by apply Ho.
  - apply wp_ret. intros res' [= <-] Hs. unfold failure in Ho. congruence.
Qed.

(** ** The read after it *)
Lemma absent_not_read {E} t agent headers (w : W) : present_at (graph_iri t) ∉ graphs w →
  wp (get_impl agent t headers : M W E Response) (λ o _, ∀ res, o = Ok res → res_status res ≠ OK) w.
Proof.
  intros Hn. eapply wp_wand; [apply (wp_get_impl t agent headers (λ _, False))|]; [|by intros o w' Ho res Eo Hs; apply (Ho res)].
  intros decision w1 [Hg _].
  assert (wp (legacy_graph_read decision t headers) (λ o _,
    match o with Ok res => res_status res = OK → False | Err res => failure res | _ => True end) w1) as Hlegacy.
  { unfold legacy_graph_read. destruct (negotiate _ _ _) as [[fmt v]|]; [|by apply wp_throw].
    apply wp_bind, wp_map_err, wp_get_rdf; cbn [omap_err].
    - intros w2 _ _. unfold wp. by destruct t.
    - intros ts w2 _ Hp. rewrite Hg in Hp. by destruct Hn.
    - done. }
  destruct t as [r|c|x]; [|exact Hlegacy..]. unfold get_resource. apply wp_bind, wp_map_err.
  eapply wp_wand; [apply wp_kind_of|]. rewrite Hg. intros [[[|mt]|]|e|] w2 Ho; cbn [omap_err];
    [by destruct Ho as [? _]|by destruct Ho as [? _]|done|by destruct e as [| |[]|[]| |]|done].
Qed.

End gone.

(** * A pod whose owner deletes a container *)
Section witnesses.
#[local] Existing Instance toy_iri.
#[local] Existing Instance toy_header.
#[local] Existing Instance toy_text.
#[local] Existing Instance toy_blanks.
#[local] Existing Instance toy_hash.
#[local] Existing Instance toy_path.
#[local] Existing Instance toy_display.
#[local] Existing Instance toy_terms.
#[local] Existing Instance toy_rdf.
#[local] Existing Instance toy_shacl.
#[local] Existing Instance toy_n3.

#[local] Instance bus_apart : BusBeside (Mem Bus).
Proof. by intros b w. Qed.

(** The root, listing [/a/]; [/a/]; and the root's ACL. *)
Definition box_a : ContainerUrl := mkContainerUrl (mkResourceUrl "/a/" "https://pod.example/a/").
Definition link_ops : list update_op :=
  insert_marked_ops (graph_iri (mkContainerUrl toy_root)) [(contains_at (graph_iri toy_root) (graph_iri box_a)).2].
Definition box_ops : list update_op := insert_marked_ops (graph_iri box_a) [].
Definition kept_store : Mem Bus := mkMem (mem_run (link_ops ++ box_ops ++ acl_ops) []) ∅ [] ∅.

Lemma kept_reached : rtc (pod_step toy_space) ∅ (graphs kept_store).
Proof.
  assert (graphs kept_store = run_ops acl_ops (run_ops box_ops (run_ops link_ops ∅))) as ->.
  { rewrite <- !run_ops_app. exact (mem_run_spec (link_ops ++ box_ops ++ acl_ops) []). }
  assert (plain toy_space toy_root) as Hr by (split; [split; [by exists ""|reflexivity]|reflexivity]).
  assert (plain toy_space (as_resource box_a)) as Hb by (split; [split; [by exists "a/"|reflexivity]|reflexivity]).
  eapply rtc_l; [by apply (step_insert_marked toy_space ∅ (mkContainerUrl toy_root) [(contains_at (graph_iri toy_root) (graph_iri box_a)).2] Hr), Forall_singleton, storable_named|].
  eapply rtc_l; [by apply (step_insert_marked toy_space _ box_a); [|constructor]|].
  eapply rtc_l; [apply (step_aux_put toy_space _ toy_root Acl _ Hr acl_storable)|]. apply rtc_refl.
Qed.

Definition owner_deletes : outcome Response Response * Mem Bus :=
  handle_delete toy_space toy_owner "a/" kept_store.

End witnesses.
