(* ===== verification/Posted.v ===== *)
(** What a [POST] creates: a new member of the container, at the address the
    response names. *)
From S2P Require Import Prelude Str Terms Space Rdf Dataset Patch Store Mem Resource Container.
From S2P Require Import Ground Auxiliary Pdp Guard Shapes Notify Http HttpWrite HttpRead Reads Toy Steps.
From S2P Require Import Edge Validators Written Listed.
Open Scope list_scope.

Section posted.
Context `{IriSyntax} `{HeaderSyntax} `{HeaderText} `{BlankSyntax} `{Hashing} `{ObjectPath} `{Display}
  `{TermDisplay} `{RdfLib} `{ShaclEngine} `{N3Lib}.
Context (sp : StorageSpace) (Hsp : space_wf sp) (uuid : nat → string).
Context {W : Type} `{BackendLaws W} `{EventBus W} `{!BusBeside W}.
Context (path : string) (c : ContainerUrl) (Hc : classify sp ("/" +:+ path) = Ok (TContainer c)).
Context (name_uuid retry_uuid : string) (Hname : segment name_uuid) (Hretry : all_chars is_slug_char retry_uuid = true).
Context (w : W).

(** A name with the second uuid in it is nobody's yet. *)
Definition retry_fresh : Prop := ∀ s tl t, segment s → tl = "" ∨ tl = "/" →
  classify sp (c_path c +:+ (s +:+ "-" +:+ retry_uuid) +:+ tl) = Ok t → present_at (graph_iri t) ∉ graphs w.
Context (Hfresh : retry_fresh).

Notation here := (looks (graphs w) (objects w)).

(** The child of the request: a new member of the container. *)
Record new_member (t : Target) : Prop := {
  nm_member : member sp t;
  nm_parent : parent (subject_of t) = Some c;
  nm_absent : present_at (graph_iri t) ∉ graphs w
}.

Lemma retry_segment s : segment s → segment (s +:+ "-" +:+ retry_uuid).
Proof.
  intros Hs. assert (all_chars is_slug_char (s +:+ "-" +:+ retry_uuid) = true) as Ha.
  { rewrite !all_chars_app. rewrite (seg_chars s Hs), Hretry. done. }
  split; [done|..]; intros E; apply (f_equal (contains_char "-"%char)) in E;
    rewrite !contains_char_app, orb_true_r in E; done.
Qed.

Lemma classify_resolved p t : classify sp p = Ok t → resolve sp p = Ok t.
Proof. unfold classify. destruct (resolve sp p) as [?|e|]; simpl; [congruence|by destruct e|done]. Qed.

Lemma child_member s tl t : segment s → tl = "" ∨ tl = "/" → classify sp (c_path c +:+ s +:+ tl) = Ok t →
  member sp t ∧ parent (subject_of t) = Some c.
Proof.
  intros Hs Htl Ht.
  destruct (member_inside sp _ c s tl t Hsp (classify_resolved _ _ Hc) Hs Htl (classify_resolved _ _ Ht)) as [Ha Hp]. split; [|done].
  apply (classify_member sp Hsp _ _ Ht). by destruct t.
Qed.

Lemma failure_classified p res : omap_err status_only (classify sp p) = Err res → failure res.
Proof. unfold classify. destruct (resolve sp p) as [?|e|]; cbn; [done| |done]. intros [= <-]. by destruct e. Qed.

(** The probe of a child that was named. *)
Lemma wp_child_probe agent t (w1 : W) : member sp t → here w1 →
  wp (map_err (λ d, with_aux_links (denial_response d) t) (probe agent t)) (λ o w2, here w2 ∧
    match o with Ok g => probe_of t w g | Err res => failure res | Panicked => True end) w1.
Proof.
  intros Hm Hw1. apply wp_map_err. eapply wp_wand; [apply (wp_probe sp); by apply plain_in, member_plain|].
  assert (graphs w1 = graphs w) as Eg by apply Hw1.
  intros [g|d|] w2 Hg; cbn [omap_err]; [|destruct d; try done; split; [by eapply looks_same|apply failure_denial]|done].
  destruct Hg as (_ & Ht & Hch & Hf & Hs). split; [by eapply looks_same|]. split; [done|done|by rewrite <- Eg].
Qed.

Lemma wp_post_child agent headers (w1 : W) : here w1 →
  wp (post_child sp agent c headers name_uuid retry_uuid) (λ o w2, here w2 ∧
    match o with
    | Ok (child, g) => new_member child ∧ probe_of child w g
    | Err res => failure res
    | Panicked => True
    end) w1.
Proof.
  intros Hw1. unfold post_child. cbv zeta. set (tl := if type_link_requests_container _ then "/" else "").
  assert (tl = "" ∨ tl = "/") as Htl by (unfold tl; destruct (type_link_requests_container _); auto).
  set (name := child_name _ name_uuid). assert (segment name) as Hs by by apply child_name_segment.
  apply wp_bind, wp_map_err, wp_lift.
  destruct (classify sp (c_path c +:+ name +:+ tl)) as [t|n|] eqn:Et; cbn [omap_err];
    [|split; [done|]; apply (failure_classified (c_path c +:+ name +:+ tl)); by rewrite Et|done].
  destruct (child_member name tl t Hs Htl Et) as [Hm Hp]. apply wp_bind.
  eapply wp_wand; [by apply wp_child_probe|]. intros [g|res|] w2 [Hw2 Hg]; [|done..].
  destruct (is_taken g) eqn:Ek; cbn [negb].
  2:{ apply wp_ret. split; [done|]. split; [|done]. split; [done..|]. intros Hin. unfold is_taken in Ek.
      rewrite (po_target _ _ _ Hg) in Ek. case_bool_decide as Hn; [done|]. apply Hn.
      apply (ff_present _ _ (po_faithful _ _ _ Hg)); [|done]. rewrite (po_chain _ _ _ Hg). unfold candidates.
      apply elem_of_app. left. by destruct t; [left..|]. }
  assert (c_path c +:+ name +:+ "-" +:+ retry_uuid +:+ tl = c_path c +:+ (name +:+ "-" +:+ retry_uuid) +:+ tl) as ->
    by (by rewrite !app_assoc_s).
  apply wp_bind, wp_map_err, wp_lift.
  destruct (classify sp (c_path c +:+ (name +:+ "-" +:+ retry_uuid) +:+ tl)) as [t'|n|] eqn:Et'; cbn [omap_err];
    [|split; [done|]; apply (failure_classified (c_path c +:+ (name +:+ "-" +:+ retry_uuid) +:+ tl)); by rewrite Et'|done].
  destruct (child_member _ tl t' (retry_segment name Hs) Htl Et') as [Hm' Hp']. apply wp_bind.
  eapply wp_wand; [by apply wp_child_probe|]. intros [g'|res|] w3 [Hw3 Hg']; [|done..].
  apply wp_ret. split; [done|]. split; [|done]. split; [done..|]. by apply (Hfresh name tl t' Hs Htl).
Qed.

(** ** The body and the write *)
Lemma ends_post_checks child repr : ends here (post_checks sp child repr) (λ _, True) failure.
Proof.
  unfold post_checks. destruct repr as [d f v|bytes mt].
  - destruct (put_body_check child d) as [res|] eqn:Eb; [|apply ends_shape, reads_look].
    by eapply ends_throw, failure_body_check.
  - destruct child as [r|x|a]; [|apply ends_panic..]. by case_bool_decide; [apply ends_ret|apply ends_throw].
Qed.

Lemma post_store_lists child repr (w1 : W) : member sp child → pod_inv sp (graphs w1) →
  wp (post_store uuid child repr) (λ o w2,
    match o with
    | Ok res => is_success (res_status res) = true → res = created_response child ∧
        present_at (graph_iri child) ∈ graphs w2 ∧
        ∀ G, G ⊆ graphs w1 → present_at (graph_iri child) ∉ G → members_kept sp G (graphs w2)
    | Err res => failure res
    | Panicked => True
    end) w1.
Proof.
  intros Hm Hi. unfold post_store. destruct child as [r|x|a]; [| |done].
  - destruct repr as [d f v|bytes mt]; apply wp_bind, wp_attempt;
      [eapply wp_wand; [by apply (put_dataset_lists sp)|]|eapply wp_wand; [by apply (put_blob_lists sp)|]];
      intros [[]|e|] w2 Ho; try done; apply wp_ret; intros Hs;
      try (destruct (Ho eq_refl); split_and!; [done|done|]; intros G Hb _;
           eapply members_kept_trans; [by apply members_kept_sub|done]);
      destruct e; try done; by rewrite failure_put_error in Hs.
  - destruct repr as [d f v|bytes mt]; [|done]. apply wp_bind, wp_attempt.
    eapply wp_wand; [by apply (new_container_lists sp Hsp)|].
    intros [[]|e|] w2 Ho; try done; apply wp_ret; intros Hs; [split; [done|by apply Ho]|by rewrite failure_put_error in Hs].
Qed.

(** ** The handler *)
Definition created_in (G G' : gset located) (res : Response) : Prop :=
  ∃ child, new_member child ∧ res_status res = CREATED ∧
    h_get (res_headers res) "location" = Some (graph_iri child) ∧ put_kept sp child G G'.

Lemma created_headers child res : res = created_response child ∨ res = report_link child (created_response child) →
  res_status res = CREATED ∧ h_get (res_headers res) "location" = Some (graph_iri child).
Proof.
  assert (h_get (res_headers (created_response child)) "location" = Some (graph_iri child) ∧
          res_status (created_response child) = CREATED) as [Hl Hs].
  { unfold created_response. by rewrite with_aux_links_get, status_aux_links. }
  intros [-> | ->]; [done|]. rewrite status_report_link. split; [done|]. unfold report_link.
  destruct child; try done; (destruct (header_valid _); [|done]); unfold res_append; cbn [res_headers];
    by rewrite h_get_append_ne.
Qed.

Notation settled o w2 := (match o : outcome (Response * option (Target * Materialized)) (Response * option (Target * Materialized)) with
  | Ok x => is_success (res_status x.1) = true → created_in (graphs w) (graphs w2) x.1
  | Err x => failure x.1
  | Panicked => True
  end).

(** A link the walk made outlives the write. *)
Lemma new_link_kept child G1 G2 x : member sp child →
  x ∈ new_links (graphs w) (graph_iri child) (ancestors (subject_of child)) → listed G1 x →
  (∀ G, G ⊆ G1 → present_at (graph_iri child) ∉ G → members_kept sp G G2) → listed G2 x.
Proof.
  intros Hm Hx [Hl1 Hl2] Hk. pose proof (member_plain sp child Hm) as Hp. pose proof (new_links_in _ _ _ _ Hx) as Hanc.
  pose proof (ancestor_container sp _ _ Hp Hanc) as Hci.
  assert (graph_iri (subject_of child) = graph_iri child) as Eg by (by destruct child).
  apply (members_kept_listed sp {[present_at (graph_iri x.1); contains_at (graph_iri x.1) x.2]});
    [|done|by split; apply elem_of_union; [left|right]; apply elem_of_singleton].
  apply Hk; [by intros y [->%elem_of_singleton| ->%elem_of_singleton]%elem_of_union|].
  rewrite elem_of_union, !elem_of_singleton. intros [E|E].
  - apply (f_equal fst), sys_graph_inj in E. rewrite <- Eg in E. by apply eq_sym, (ancestor_apart sp) in E.
  - apply (f_equal fst) in E. cbn in E. apply eq_sym, web_not_sys in E; [done|].
    by apply (url_web sp _ Hsp), plain_in, Hci.
Qed.

(** The walk and the write, of the child that was settled on. *)
Lemma post_tail child g repr (findings : option Report) (w1 : W) :
  new_member child → probe_of child w g → pod_inv sp (graphs w) → here w1 →
  let refuse (res : Response) := (res, None : option (Target * Materialized)) in
  wp (let! materialized := map_err (λ d, refuse (with_aux_links (denial_response d) child)) (materialize g) in
      let! res := map_err refuse (post_store uuid child repr) in
      let res := if bool_decide (is_Some (into_dataset <$> findings)) && is_success (res_status res)
                 then report_link child res else res in
      ret (res, Some (child, materialized))) (λ o w2, settled o w2) w1.
Proof.
  intros Hnew [Et Ec Hf] Hi [Hg1 _]. cbv zeta. pose proof Hnew as [Hm _ Hn]. pose proof (member_plain sp child Hm) as Hp.
  apply wp_bind, wp_map_err. eapply wp_wand; [apply (wp_materialize sp Hsp child g w1); by rewrite ?Hg1|].
  intros [m|d|] w2 [[Hi2 Hsub] Hlinks]; cbn [omap_err]; [|apply failure_denial|done]. rewrite Hg1 in Hlinks, Hsub.
  apply wp_bind, wp_map_err. eapply wp_wand; [by apply post_store_lists|].
  intros [res|res|] w3 Ho; cbn [omap_err]; [|done|done]. apply wp_ret. cbn [fst]. set (b := _ && _). intros Hs.
  assert (is_success (res_status res) = true) as Hs' by (revert Hs; destruct b; [by rewrite status_report_link|done]).
  destruct (Ho Hs') as (Eres & Hpr & Hk). exists child. split; [done|].
  assert (res_status (if b then report_link child res else res) = CREATED ∧
    h_get (res_headers (if b then report_link child res else res)) "location" = Some (graph_iri child)) as [Hst Hloc]
    by (apply created_headers; rewrite Eres; destruct b; auto).
  split; [done|]. split; [done|]. split; [done|by apply Hk|]. intros x _ Hx. by eapply new_link_kept; [..|apply (Hlinks m)|].
Qed.

Lemma post_write_lists agent headers body : pod_inv sp (graphs w) →
  wp (post_write sp uuid agent (TContainer c) headers body name_uuid retry_uuid) (λ o w2, settled o w2) w.
Proof.
  intros Hi. unfold post_write. cbv zeta. apply wp_bind, wp_map_err. unfold wp at 1.
  destruct (keeps_probe here agent (TContainer c) w) as [Hl _]; [done|].
  destruct (probe agent (TContainer c) w) as [[pg|d|] w1]; cbn [fst snd omap_err] in *; [|apply failure_denial|done].
  apply wp_bind, wp_map_err, wp_lift. destruct (authorize pg Append); cbn [omap_err]; [|apply failure_denial|done].
  apply wp_bind, wp_map_err. eapply wp_wand; [by apply wp_post_child|].
  intros [[child g]|res|] w2 [Hw2 Hch]; cbn [omap_err]; [destruct Hch as [Hnew Hg]|done|done].
  apply wp_bind, wp_lift. destruct (classify_body headers body child store_rdf_version) as [repr|res|] eqn:Eb; cbn [omap_err];
    [|by eapply failure_classify_body|done].
  eapply (wp_ends here _ _ (λ _, True) (λ x, failure x.1)); [apply ends_map_err_ends, ends_post_checks|done| |done|done].
  intros findings w3 _ Hw3. by apply post_tail.
Qed.

Lemma look_emit_post {E} G O t m n : keeps (looks G O) (emit_post t m n : M W E unit) (λ _, True).
Proof.
  unfold emit_post, publish_containment.
  assert (∀ x a, keeps (looks G O) (publish_own x a : M W E unit) (λ _, True)) by (intros; apply look_publish_own).
  assert (∀ a x i, keeps (looks G O) (publish_link a x i : M W E unit) (λ _, True)) by (intros; apply look_publish_link).
  destruct (negb _); [follow|]. keeps_step; [done|]. keeps_step; apply keeps_for_each; intros; follow; done.
Qed.

(** C11: what a client posts is found.  On a pod that its updates have reached, a
    [POST] to a container that is answered with a success is answered [201]
    and names in [Location] a resource or container that was not there and
    now is: a member of that container by its URL, listed in it, with no
    container gone or bereft of a member.  The uuids are segment names, the
    second one in no name yet. *)
Theorem post_is_listed (agent : Agent) (headers : Headers) (body : string) (Hreached : rtc (pod_step sp) ∅ (graphs w)) :
  wp (handle_post (E:=Response) sp uuid agent path headers body name_uuid retry_uuid) (λ o w1,
    ∀ res, o = Ok res → is_success (res_status res) = true →
    ∃ child, res_status res = CREATED ∧ h_get (res_headers res) "location" = Some (graph_iri child) ∧
      member sp child ∧ parent (subject_of child) = Some c ∧
      present_at (graph_iri child) ∉ graphs w ∧ present_at (graph_iri child) ∈ graphs w1 ∧
      listed (graphs w1) (c, graph_iri child) ∧ members_kept sp (graphs w) (graphs w1)) w.
Proof.
  unfold handle_post. rewrite (classified_target _ _ _ _ Hc). unfold post_impl.
  apply wp_bind, wp_returned. eapply wp_wand; [by apply post_write_lists, reachable_inv|].
  assert (∀ res w1, created_in (graphs w) (graphs w1) res → ∃ child, res_status res = CREATED ∧
    h_get (res_headers res) "location" = Some (graph_iri child) ∧ member sp child ∧ parent (subject_of child) = Some c ∧
    present_at (graph_iri child) ∉ graphs w ∧ present_at (graph_iri child) ∈ graphs w1 ∧
    listed (graphs w1) (c, graph_iri child) ∧ members_kept sp (graphs w) (graphs w1)) as Hend.
  { intros res w1 (child & [Hm Hp Hn] & Hs & Hl & [Hpr Hk Hli]). exists child. split_and!; try done.
    apply Hli; [done|]. rewrite (ancestors_unfold sp), Hp by (by apply plain_in, member_plain). by left. }
  intros o w1 Ho.
  assert (∀ x, (is_success (res_status x.1) = true → created_in (graphs w) (graphs w1) x.1) →
    wp (let '(res, written) := x : Response * option (Target * Materialized) in
        match written with
        | None => ret res
        | Some (child, m) => do! emit_post child m (res_status res) in ret res
        end) (λ (o : outcome Response Response) w2, ∀ res, o = Ok res → is_success (res_status res) = true →
      created_in (graphs w) (graphs w2) res) w1) as Hx.
  { intros [res [[child m]|]] Hc1; [|by apply wp_ret; intros res' [= <-]]. apply wp_bind. unfold wp.
    destruct (look_emit_post (E:=Response) (graphs w1) (objects w1) child m (res_status res) w1) as [[Hg _] _]; [done|].
    destruct (emit_post child m (res_status res) w1) as [[u|e|] w2]; cbn in *; [|done..].
    intros res' [= <-] Hs. rewrite Hg. by apply Hc1. }
  destruct o as [x|x|]; [| |done]; (eapply wp_wand; [apply Hx|]); try (intros o w2 Hr res Eo Hs; by apply Hend, Hr).
  - exact Ho.
  - intros Hs. unfold failure in Ho. congruence.
Qed.
End posted.

(** * A pod whose owner posts to the root *)
Section witnesses.
#[local] Existing Instance toy_iri.
#[local] Existing Instance toy_header.
#[local] Existing Instance toy_text.
#[local] Existing Instance toy_blanks.
#[local] Existing Instance toy_hash.
#[local] Existing Instance toy_path.
#[local] Existing Instance toy_display.
#[local] Existing Instance toy_terms.
#[local] Existing Instance toy_rdf.
#[local] Existing Instance toy_shacl.
#[local] Existing Instance toy_n3.

#[local] Instance bus_beside_post : BusBeside (Mem Bus).
Proof. by intros b w. Qed.

(** Nothing in the store has a dash in its name. *)
Lemma made_fresh : retry_fresh toy_space (mkContainerUrl toy_root) "9b1d" made_store.
Proof.
  intros s tl t Hs Htl Ht Hin. apply elem_of_list_to_set in Hin.
  assert (classify toy_space ("/" +:+ "") = Ok (TContainer (mkContainerUrl toy_root))) as Hc by (vm_compute; reflexivity).
  destruct (child_member toy_space toy_space_wf "" _ Hc _ tl t (retry_segment "9b1d" eq_refl s Hs) Htl Ht) as [Hm _].
  apply classify_resolved, (resolve_Ok_inv toy_space _ t toy_space_wf) in Ht as (_ & Hu & _ & _ & _ & Hp).
  assert (contains_char "-"%char (graph_iri t) = true) as Hd.
  { assert (graph_iri t = stem toy_space +:+ r_path (subject_of t)) as ->.
    { destruct t as [r|x|a]; [exact (url_iri _ _ Hu)..|done]. }
    assert (r_path (subject_of t) = c_path (mkContainerUrl toy_root) +:+ (s +:+ "-" +:+ "9b1d") +:+ tl) as ->
      by (destruct t; [apply Hp..|done]).
    rewrite !contains_char_app. cbn. by rewrite !orb_true_r. }
  assert (Forall (λ x : located, t_predicate x.2 = SYS_PRESENT → contains_char "-"%char x.1 = false) (m_triples made_store)) as Hall.
  { vm_compute. repeat constructor; done. }
  rewrite Forall_forall in Hall. specialize (Hall _ Hin eq_refl). unfold present_at, sys_graph_iri in Hall. cbn [fst] in Hall.
  rewrite contains_char_app in Hall. apply orb_false_iff in Hall as [_ Hall]. congruence.
Qed.

Definition slug_headers : Headers := [("content-type", "text/turtle"); ("slug", "note")].
Definition root_posts : outcome Response Response * Mem Bus :=
  handle_post toy_space toy_uuid toy_owner "" slug_headers "" "7c0e" "9b1d" made_store.

Lemma post_is_listed_witness :
  res_status (response_of root_posts.1) = CREATED ∧
  h_get (res_headers (response_of root_posts.1)) "location" = Some "https://pod.example/note" ∧
  contains_at "https://pod.example/" "https://pod.example/note" ∈ graphs root_posts.2.
Proof.
  assert (classify toy_space ("/" +:+ "") = Ok (TContainer (mkContainerUrl toy_root))) as Hc by (vm_compute; reflexivity).
  assert (segment "7c0e") as Hn by (by split).
  pose proof (post_is_listed toy_space toy_space_wf toy_uuid "" _ Hc "7c0e" "9b1d" Hn eq_refl made_store made_fresh
    toy_owner slug_headers "" made_reached) as Hx. unfold wp in Hx.
  assert (∃ res, root_posts.1 = Ok res ∧ res_status res = CREATED ∧
    h_get (res_headers res) "location" = Some "https://pod.example/note") as (res & Ep & Ec & El)
    by (eexists; split_and!; vm_compute; reflexivity).
  rewrite Ep. cbn [response_of]. split; [exact Ec|]. split; [exact El|].
  destruct (Hx res Ep ltac:(by rewrite Ec)) as (child & _ & Hl & _ & _ & _ & _ & [_ Hin] & _).
  rewrite El in Hl. injection Hl as Hl. rewrite <- Hl in Hin. exact Hin.
Defined.
End witnesses.
