(* ===== verification/Budget.v ===== *)
(** What a request costs the stores.

    A store that counts its calls, as the decorator of [tests/call_budget.rs] does, and a logic for what a computation costs on
    one while nobody listens to its events: [spends] is a weakest precondition
    whose condition also speaks of the cost, [within] bounds it.  Each handler
    stays within a budget that depends on the depth of the path alone, besides
    the graphs a dataset has; and only the walk to missing ancestors makes more
    than the one update, or two, that writes the target. *)
From S2P Require Import Prelude Str Terms Space Rdf Dataset Patch Store Mem Resource Container.
From S2P Require Import Ground Auxiliary Pdp Guard Shapes Notify Http HttpWrite HttpRead Reads Toy Steps.
From S2P Require Import Edge Validators Written Listed Posted.
Open Scope list_scope.
Open Scope Z_scope.

(** * A store that counts *)

(** The tally of [CountingStore] in [tests/call_budget.rs], the three forms of query under one number; and, for the
    budgets below, how many shelves the answers from registries have listed. *)
Record Calls : Type := mkCalls { updates : nat; queries : nat; listed : nat }.

Definition an_update (c : Calls) : Calls := mkCalls (S (updates c)) (queries c) (listed c).
Definition a_query (c : Calls) : Calls := mkCalls (updates c) (S (queries c)) (listed c).
Definition an_answer (q : triples_query) (o : outcome StoreError (list triple)) (c : Calls) : Calls :=
  let c := a_query c in
  match q, o with
  | QObjects _ _ p, Ok ts =>
      if bool_decide (p = SYS_HAS_SUBGRAPH) then mkCalls (updates c) (queries c) (listed c + length ts) else c
  | _, _ => c
  end.

Section counting.
Context {W : Type} `{Backend W} `{EventBus W}.

Definition counted {E A} (tally : outcome E A → Calls → Calls) (m : M W E A) : M (W * Calls) E A :=
  λ s, let (o, w) := m s.1 in (o, (w, tally o s.2)).

#[export] Instance CountingStore : Backend (W * Calls) := {|
  update ops := counted (λ _, an_update) (update ops);
  query_triples q := counted (an_answer q) (query_triples q);
  ask ps := counted (λ _, a_query) (ask ps);
  query_solutions q := counted (λ _, a_query) (query_solutions q);
  store_rdf_version := store_rdf_version;
  blob_put k b := counted (λ _ c, c) (blob_put k b);
  blob_get k := counted (λ _ c, c) (blob_get k);
  blob_delete k := counted (λ _ c, c) (blob_delete k)
|}.

#[export] Instance counting_bus : EventBus (W * Calls) := {|
  get_bus s := get_bus s.1;
  set_bus b s := (set_bus b s.1, s.2)
|}.
End counting.

(** * Spending *)
Section spends.
Context {W : Type} `{Backend W} `{EventBus W} `{!BusLaws W}.
Notation MC := (M (W * Calls)).

(** Nobody listens. *)
Definition quiet (s : W * Calls) : Prop := get_bus s.1 = ∅.

(** Between two states, at most [u] updates and [q] queries, besides two for
    each shelf that was listed. *)
Definition spent (s s' : W * Calls) (u q : Z) : Prop :=
  Z.of_nat (updates s'.2) ≤ Z.of_nat (updates s.2) + u ∧
  Z.of_nat (queries s'.2) - 2 * Z.of_nat (listed s'.2) ≤ Z.of_nat (queries s.2) - 2 * Z.of_nat (listed s.2) + q.

Definition spends {E A} (m : MC E A) (Q : outcome E A → Z → Z → Prop) : Prop :=
  ∀ s, quiet s → ∃ u q, quiet (m s).2 ∧ spent s (m s).2 u q ∧ Q (m s).1 u q.

Definition within (u q : Z) {E A} (m : MC E A) : Prop := spends m (λ _ u' q', u' ≤ u ∧ q' ≤ q).

Lemma spends_lift {E A} (o : outcome E A) (Q : outcome E A → Z → Z → Prop) : Q o 0 0 → spends (lift o) Q.
Proof. intros HQ s Hs. exists 0, 0. split; [done|]. split; [split; simpl; lia|done]. Qed.

Lemma spends_ret {E A} (a : A) (Q : outcome E A → Z → Z → Prop) : Q (Ok a) 0 0 → spends (ret a) Q.
Proof. apply spends_lift. Qed.

Lemma spends_throw {E A} (e : E) (Q : outcome E A → Z → Z → Prop) : Q (Err e) 0 0 → spends (throw e) Q.
Proof. apply spends_lift. Qed.

Lemma spends_panic {E A} (Q : outcome E A → Z → Z → Prop) : Q Panicked 0 0 → spends panic Q.
Proof. apply spends_lift. Qed.

Lemma spends_bind {E A B} (m : MC E A) (k : A → MC E B) Q :
  spends m (λ o u q, match o with
    | Ok a => spends (k a) (λ o' u' q', Q o' (u + u') (q + q'))
    | Err e => Q (Err e) u q
    | Panicked => Q Panicked u q
    end) → spends (bind m k) Q.
Proof.
  intros Hm s Hs. destruct (Hm s Hs) as (u & q & Hs1 & Hsp & HQ). unfold bind.
  destruct (m s) as [[a|e|] s1]; cbn in *; [|by exists u, q..].
  destruct (HQ s1 Hs1) as (u' & q' & Hs2 & Hsp2 & HQ2). exists (u + u'), (q + q').
  split; [done|]. split; [|done]. unfold spent in *. lia.
Qed.

Lemma spends_map_err {E F A} (f : E → F) (m : MC E A) Q : spends m (λ o, Q (omap_err f o)) → spends (map_err f m) Q.
Proof.
  intros Hm s Hs. destruct (Hm s Hs) as (u & q & Hs1 & Hsp & HQ). exists u, q. unfold map_err. by destruct (m s).
Qed.

Lemma spends_attempt {E F A} (m : MC E A) (Q : outcome F (E + A) → Z → Z → Prop) :
  spends m (λ o, match o with Ok a => Q (Ok (inr a)) | Err e => Q (Ok (inl e)) | Panicked => Q Panicked end) →
  spends (attempt m) Q.
Proof.
  intros Hm s Hs. destruct (Hm s Hs) as (u & q & Hs1 & Hsp & HQ). exists u, q. unfold attempt.
  by destruct (m s) as [[] ?].
Qed.

Lemma spends_returned {E A} (m : MC A A) (Q : outcome E A → Z → Z → Prop) :
  spends m (λ o, match o with Ok a | Err a => Q (Ok a) | Panicked => Q Panicked end) → spends (returned m) Q.
Proof.
  intros Hm s Hs. destruct (Hm s Hs) as (u & q & Hs1 & Hsp & HQ). exists u, q. unfold returned.
  by destruct (m s) as [[] ?].
Qed.

Lemma spends_mono {E A} (m : MC E A) (Q R : outcome E A → Z → Z → Prop) :
  spends m Q → (∀ o u q, Q o u q → R o u q) → spends m R.
Proof. intros Hm HQ s Hs. destruct (Hm s Hs) as (u & q & ? & ? & ?). exists u, q. eauto. Qed.

Lemma spends_within {E A} (m : MC E A) u q (Q : outcome E A → Z → Z → Prop) :
  within u q m → (∀ o u' q', u' ≤ u → q' ≤ q → Q o u' q') → spends m Q.
Proof. intros Hm HQ. eapply spends_mono; [exact Hm|]. intros o u' q' [? ?]. by apply HQ. Qed.

(** ** The calls *)
Lemma spends_counted {E A} (tally : outcome E A → Calls → Calls) (m : M W E A) (du dq : outcome E A → Z) Q :
  (∀ w, get_bus (m w).2 = get_bus w) →
  (∀ o c, Z.of_nat (updates (tally o c)) = Z.of_nat (updates c) + du o ∧
    Z.of_nat (queries (tally o c)) - 2 * Z.of_nat (listed (tally o c)) =
    Z.of_nat (queries c) - 2 * Z.of_nat (listed c) + dq o) →
  (∀ o, Q o (du o) (dq o)) → spends (counted tally m) Q.
Proof.
  intros Hb Ht HQ [w c] Hs. unfold counted, quiet, spent in *. cbn in *. specialize (Hb w). destruct (m w) as [o w'].
  cbn in *. exists (du o), (dq o). specialize (Ht o c). split; [congruence|]. split; [lia|done].
Qed.

Lemma spends_update ops Q : (∀ o, Q o 1 0) → spends (update ops) Q.
Proof.
  intros HQ. apply (spends_counted _ _ (λ _, 1) (λ _, 0)); [intros w; apply bus_update| |done]. intros o c. cbn. lia.
Qed.

Lemma spends_ask ps Q : (∀ o, Q o 0 1) → spends (ask ps) Q.
Proof.
  intros HQ. apply (spends_counted _ _ (λ _, 0) (λ _, 1)); [intros w; apply bus_ask| |done]. intros o c. cbn. lia.
Qed.

Lemma spends_select q Q : (∀ o, Q o 0 1) → spends (query_solutions q) Q.
Proof.
  intros HQ. apply (spends_counted _ _ (λ _, 0) (λ _, 1)); [intros w; apply bus_select| |done]. intros o c. cbn. lia.
Qed.

(** What an answer has listed is credit for reading it. *)
Definition credit (q : triples_query) (o : outcome StoreError (list triple)) : Z :=
  match q, o with
  | QObjects _ _ p, Ok ts => if bool_decide (p = SYS_HAS_SUBGRAPH) then 2 * Z.of_nat (length ts) else 0
  | _, _ => 0
  end.

Lemma spends_credit q Q : (∀ o, Q o 0 (1 - credit q o)) → spends (query_triples q) Q.
Proof.
  intros HQ. apply (spends_counted _ _ (λ _, 0) (λ o, 1 - credit q o)); [intros w; apply bus_triples| |done].
  intros o c. destruct q as [g|g s p], o; cbn; try lia. case_bool_decide; cbn; lia.
Qed.

Lemma spends_triples q Q : (∀ o q', q' ≤ 1 → Q o 0 q') → spends (query_triples q) Q.
Proof.
  intros HQ. apply spends_credit. intros o. apply HQ. assert (0 ≤ credit q o); [|lia].
  unfold credit. destruct q, o; try lia. case_bool_decide; lia.
Qed.

Lemma spends_blob_put k b Q : (∀ o, Q o 0 0) → spends (blob_put k b) Q.
Proof. intros HQ. apply (spends_counted _ _ (λ _, 0) (λ _, 0)); [intros w; apply bus_blob_put| |done]. intros o c. lia. Qed.

Lemma spends_blob_get k Q : (∀ o, Q o 0 0) → spends (blob_get k) Q.
Proof. intros HQ. apply (spends_counted _ _ (λ _, 0) (λ _, 0)); [intros w; apply bus_blob_get| |done]. intros o c. lia. Qed.

Lemma spends_blob_delete k Q : (∀ o, Q o 0 0) → spends (blob_delete k) Q.
Proof. intros HQ. apply (spends_counted _ _ (λ _, 0) (λ _, 0)); [intros w; apply bus_blob_delete| |done]. intros o c. lia. Qed.

(** Nobody is heard. *)
Lemma spends_is_live {E} t (Q : outcome E bool → Z → Z → Prop) : Q (Ok false) 0 0 → spends (is_live t) Q.
Proof.
  intros HQ s Hs. exists 0, 0. unfold is_live, bind, on_bus, bus_live, live_read, ret. unfold quiet in *. cbn. rewrite Hs.
  change (filter (λ t0, has_reader ∅ t0 = true) [t]) with (@nil Topic).
  change (filter (λ t0, is_dead ∅ t0 = true) [t]) with (@nil Topic). cbn. rewrite get_set_bus.
  split; [done|]. split; [split; cbn; lia|done].
Qed.
End spends.

Create HintDb budget.

(** One step into a computation: a call of a backend, a step of the monad, a
    branch, or a function whose budget is known. *)
Ltac spend_step :=
  lazymatch goal with
  | |- within _ _ _ => unfold within
  | |- spends (bind _ _) _ => apply spends_bind
  | |- spends (map_err _ _) _ => apply spends_map_err
  | |- spends (attempt _) _ => apply spends_attempt
  | |- spends (returned _) _ => apply spends_returned
  | |- spends (ret _) _ => apply spends_ret
  | |- spends (throw _) _ => apply spends_throw
  | |- spends panic _ => apply spends_panic
  | |- spends (lift _) _ => apply spends_lift
  | |- spends (update _) _ => apply spends_update; intros [?|?|]
  | |- spends (ask _) _ => apply spends_ask; intros [?|?|]
  | |- spends (query_solutions _) _ => apply spends_select; intros [?|?|]
  | |- spends (query_triples _) _ => apply spends_triples; intros [?|?|] ? ?
  | |- spends (blob_put _ _) _ => apply spends_blob_put; intros [?|?|]
  | |- spends (blob_get _) _ => apply spends_blob_get; intros [?|?|]
  | |- spends (blob_delete _) _ => apply spends_blob_delete; intros [?|?|]
  | |- spends (is_live _) _ => apply spends_is_live
  | |- spends (match ?x with _ => _ end) _ => destruct x eqn:?
  | |- match ?x with _ => _ end => destruct x eqn:?
  | |- spends _ _ => eapply spends_within; [solve [eauto with budget]|intros [?|?|] ? ? ? ?]
  end.

(** To the end, where what was spent is compared with the budget. *)
Ltac spend := repeat (cbv zeta; cbn [omap_err negb andb]; spend_step); cbn [omap_err]; try lia.

(** * The budgets of the parts *)
Section parts.
Context `{IriSyntax} `{HeaderSyntax} `{HeaderText} `{BlankSyntax} `{Hashing} `{ObjectPath} `{Display}
  `{TermDisplay} `{RdfLib} `{ShaclEngine} `{N3Lib}.
Context (sp : StorageSpace) (uuid : nat → string).
Context {W : Type} `{Backend W} `{EventBus W} `{!BusLaws W}.
Notation MC := (M (W * Calls)).
Notation within u q m := (within (W:=W) u q m).

Lemma within_exists iri : within 0 1 (exists_ iri).
Proof. unfold exists_, store_op. spend. Qed.

Lemma within_exists_many iris : within 0 1 (exists_many iris).
Proof. unfold exists_many, store_op. spend. Qed.

Lemma within_media_type r : within 0 1 (stored_media_type r).
Proof. unfold stored_media_type, store_op. spend. Qed.
#[local] Hint Resolve within_exists within_exists_many within_media_type : budget.

(** What a registry lists has been credited. *)
Lemma spends_registered r (Q : outcome ResourceError (list ShelfKey) → Z → Z → Prop) :
  (∀ keys q, q ≤ 1 - 2 * Z.of_nat (length keys) → Q (Ok keys) 0 q) → (∀ e, Q (Err e) 0 1) → Q Panicked 0 1 →
  spends (registered_shelves r : MC _ _) Q.
Proof.
  intros Hk He Hp. unfold registered_shelves, store_op. do 2 spend_step. apply spends_credit. intros [ts|e|]; cbn; [|apply He|apply Hp].
  apply spends_ret. cbn. apply Hk. set (keys := omap _ ts).
  rewrite bool_decide_eq_true_2 by done. assert (length keys ≤ length ts)%nat; [|lia].
  unfold keys. clear. induction ts as [|t ts IH]; cbn; [done|]. destruct (t_object t); cbn; lia.
Qed.

(** A third query only for bytes. *)
Lemma spends_kind_of r (Q : outcome ResourceError (option Kind) → Z → Z → Prop) :
  (∀ o q, q ≤ match o with Ok None => 1 | Ok (Some KRdf) => 2 | _ => 3 end → Q o 0 q) →
  spends (kind_of r : MC _ _) Q.
Proof.
  intros HQ. eapply (spends_mono _ (λ o u q, u = 0 ∧ q ≤ match o with Ok None => 1 | Ok (Some KRdf) => 2 | _ => 3 end)).
  - unfold kind_of, store_op, exists_, store_op, stored_media_type, store_op. spend.
  - intros o u q [-> Hq]. by apply HQ.
Qed.

Lemma within_read_shelves sys keys quads : within 0 (2 * Z.of_nat (length keys)) (read_shelves sys keys quads).
Proof.
  revert quads. induction keys as [|k keys IH]; intros quads; cbn [read_shelves]; [spend|].
  assert (within 0 2 (read_shelf sys k)) by (unfold read_shelf, store_op; spend).
  spend_step. spend_step. spend_step; [|cbn [length]; lia..]. eapply spends_within; [apply IH|]. cbn [length]. lia.
Qed.

Lemma within_get_dataset r : within 0 3 (get_dataset r).
Proof.
  unfold get_dataset, store_op. spend. apply spends_registered; [|intros; lia..]. intros keys q Hq.
  spend_step. eapply spends_within; [apply within_read_shelves|]. intros [quads|?|] ????; [|lia..]. spend.
Qed.

Lemma within_registered r : within 0 1 (registered_shelves r).
Proof. apply spends_registered; intros; cbn; lia. Qed.

Lemma within_get_rdf iri : within 0 2 (get_rdf iri).
Proof. unfold get_rdf, store_op. spend. Qed.
#[local] Hint Resolve within_get_dataset within_registered within_get_rdf : budget.

(** ** Writes *)
Lemma within_for_each {E A} (l : list A) (body : A → MC E unit) : (∀ x, within 0 0 (body x)) → within 0 0 (for_each l body).
Proof. intros Hb. induction l as [|x l IH]; cbn [for_each]; spend. Qed.

Lemma within_drop_blob r : within 0 0 (drop_blob r).
Proof. unfold drop_blob, blob_op. spend. Qed.
#[local] Hint Resolve within_drop_blob : budget.

Lemma within_put_dataset r d f : within 1 1 (put_dataset r d f).
Proof.
  unfold put_dataset, store_op. destruct (split_dataset r d) as [dg shs].
  assert (within 0 0 (for_each shs (λ s, if iri_valid (sh_name s) then ret tt else throw InvalidIri : MC _ _)))
    by (apply within_for_each; intros x; spend). spend.
Qed.

Lemma within_put_blob r bytes mt : within 1 1 (put_blob r bytes mt).
Proof. unfold put_blob, blob_op, store_op. spend. Qed.

Lemma within_put_rdf iri ts : within 1 0 (put_rdf uuid iri ts).
Proof. unfold put_rdf, store_op. spend. Qed.

Lemma within_marked iri qs : within 1 0 (insert_marked iri qs).
Proof. unfold insert_marked, store_op. spend. Qed.
#[local] Hint Resolve within_put_dataset within_put_blob within_put_rdf within_marked : budget.

Lemma within_node iri : within 0 0 (lift (node iri)).
Proof. unfold node. destruct (iri_valid iri); spend. Qed.
#[local] Hint Resolve within_node : budget.

(** The [node]s of a write cost nothing. *)
Lemma spends_node {A} iri (k : string → MC ResourceError A) Q :
  spends (k iri) Q → Q (Err InvalidIri) 0 0 → spends (bind (lift (node iri)) k) Q.
Proof.
  intros Hk He. apply spends_bind, spends_lift. unfold node. destruct (iri_valid iri); [|done].
  eapply spends_mono; [exact Hk|]. by intros o u q.
Qed.

Lemma within_ensure_container c : within 1 0 (ensure_container c).
Proof. unfold ensure_container. do 4 (apply spends_node; [|lia]). spend. Qed.

Lemma within_add_containment c i : within 1 0 (add_containment c i).
Proof. unfold add_containment. do 3 (apply spends_node; [|lia]). spend. Qed.

Lemma within_is_empty c : within 0 1 (container_is_empty c).
Proof. unfold container_is_empty, store_op. spend. Qed.
#[local] Hint Resolve within_ensure_container within_add_containment within_is_empty : budget.

Lemma within_delete_rdf iri : within 1 1 (delete_rdf iri).
Proof. unfold delete_rdf, store_op. spend. Qed.

Lemma within_aux_put a ts : within 1 1 (aux_put uuid a ts).
Proof. unfold aux_put, aux_op, store_op. spend. Qed.

Lemma within_patch_apply iri p g bs : within 1 1 (patch_apply iri p g bs).
Proof. unfold patch_apply, store_op. spend. Qed.
#[local] Hint Resolve within_delete_rdf within_aux_put within_patch_apply : budget.

Lemma within_patch_guarded iri p g : within 1 2 (patch_guarded iri p g).
Proof. unfold patch_guarded, store_op. spend. Qed.
#[local] Hint Resolve within_patch_guarded : budget.

Lemma within_aux_patch a p : within 1 4 (aux_patch a p).
Proof. unfold aux_patch, aux_op. spend. Qed.

Lemma within_delete_subject r : within 1 2 (delete_subject r).
Proof. unfold delete_subject, store_op. spend. Qed.
#[local] Hint Resolve within_aux_patch within_delete_subject : budget.

(** ** The guard *)
Lemma within_chain_acls chain present : within 0 1 (load_chain_acls chain present).
Proof. unfold load_chain_acls, store_op. spend. Qed.
#[local] Hint Resolve within_chain_acls : budget.

(** Two queries, whatever the depth. *)
Lemma spends_probe agent t (Q : outcome Denial Guard → Z → Z → Prop) :
  (∀ g u q, u ≤ 0 → q ≤ 2 → guard_subject g = subject_of t → g_target g = t → Q (Ok g) u q) →
  (∀ e u q, u ≤ 0 → q ≤ 2 → Q (Err e) u q) → (∀ u q, u ≤ 0 → q ≤ 2 → Q Panicked u q) →
  spends (probe agent t : MC _ _) Q.
Proof.
  intros Hg He Hp. unfold probe, denial_op. spend; [apply Hg|apply He|apply Hp|apply He|apply Hp]; try done; lia.
Qed.

Lemma plan_loop_length g i anc child rec cs pl cs' pl' : plan_loop g i anc child rec cs pl = Ok (cs', pl') →
  (length pl' ≤ length pl + length anc)%nat.
Proof.
  revert i child rec cs pl. induction anc as [|c anc IH]; intros i child rec cs pl; cbn [plan_loop length].
  { intros [= <- <-]. lia. }
  destruct (_ && _); [intros [= <- <-]; lia|]. destruct (decide_from _ _ _); [|done..]. cbn [obind].
  case_bool_decide; [intros [= <- <-]; rewrite length_app; cbn; lia|]. intros Hp%IH. rewrite length_app in Hp. cbn in Hp. lia.
Qed.

Lemma plan_length g cs pl : materialize_plan g = Ok (cs, pl) → (length pl ≤ length (ancestors (guard_subject g)))%nat.
Proof.
  unfold materialize_plan. destruct (plan_loop _ _ _ _ _ _ _) as [[cs' pl']|e|] eqn:Ep; [|done..]. cbn [obind].
  destruct (is_aux_target _ && negb (bool_decide _)); [done|]. destruct (existsb _ _); [done|].
  intros [= <- <-]. by apply plan_loop_length in Ep.
Qed.

Lemma within_run_plan plan ls : within (2 * Z.of_nat (length plan)) 0 (run_plan plan ls).
Proof.
  revert ls. induction plan as [|[c o] plan IH]; intros ls; cbn [run_plan length]; [spend|]. unfold denial_op.
  spend; rewrite ?Nat2Z.inj_succ; try lia.
Qed.

(** How many containers are above a resource. *)
Definition depth (r : ResourceUrl) : Z := Z.of_nat (length (ancestors r)).

Lemma within_materialize g : within (2 * depth (guard_subject g)) 0 (materialize g).
Proof.
  unfold materialize, within. apply spends_bind, spends_lift.
  destruct (materialize_plan g) as [[cs pl]|e|] eqn:Ep; [|unfold depth; lia..]. apply spends_bind. eapply spends_within; [apply within_run_plan|]. apply plan_length in Ep. unfold depth.
  intros [ls|e|] ? ? ? ?; [|lia..]. spend.
Qed.
#[local] Hint Resolve within_materialize : budget.

(** ** Shapes and preconditions *)
Lemma within_load_shape c : within 0 5 (load_shape sp c).
Proof.
  assert (∀ iri r, within 0 4 (load_document iri r)).
  { intros iri r. unfold load_document, shape_op. spend_step. spend_step. spend_step. apply spends_kind_of.
    intros [[[|mt]|]|e|] q Hq; spend. }
  unfold load_shape, shape_op, store_op. spend.
Qed.
#[local] Hint Resolve within_load_shape : budget.

Lemma within_enforce_shape t d : within 0 5 (enforce_shape sp t d).
Proof. unfold enforce_shape. spend. Qed.

Lemma within_shape_conflict t : within 0 5 (patch_shape_conflict sp t).
Proof. unfold patch_shape_conflict. spend. Qed.

Lemma within_tags t : within 0 5 (current_tags t).
Proof.
  unfold current_tags, blob_op. destruct t; [|spend..]. spend_step. spend_step. apply spends_kind_of.
  intros [[[|mt]|]|e|] q Hq; spend.
Qed.
#[local] Hint Resolve within_enforce_shape within_shape_conflict within_tags : budget.

(** A request without preconditions asks nothing for them. *)
Definition conditional_cost (headers : Headers) : Z :=
  if negb (bool_decide (is_Some (h_get headers "if-match")))
     && negb (bool_decide (is_Some (h_get headers "if-none-match"))) then 0 else 5.

Lemma within_conditionals headers t : within 0 (conditional_cost headers) (check_conditionals headers t).
Proof. unfold check_conditionals, conditional_cost. destruct (_ && _); [spend|]. spend. Qed.
#[local] Hint Resolve within_conditionals : budget.

(** ** Events nobody hears *)
Lemma within_publish_own {E} t a : within 0 0 (publish_own t a : MC E unit).
Proof. unfold publish_own. spend. Qed.

Lemma within_publish_link {E} a c i : within 0 0 (publish_link a c i : MC E unit).
Proof. unfold publish_link. spend. Qed.
#[local] Hint Resolve within_publish_own within_publish_link : budget.

Lemma within_containment {E} i m : within 0 0 (publish_containment i m : MC E unit).
Proof.
  unfold publish_containment.
  assert (within 0 0 (for_each (linked m) (λ x, publish_link Add x.1 x.2) : MC E unit))
    by (apply within_for_each; intros x; spend).
  set (body := λ c : ResourceUrl, _).
  assert (within 0 0 (for_each (created m) body : MC E unit)) by (apply within_for_each; intros x; unfold body; spend).
  spend.
Qed.
#[local] Hint Resolve within_containment : budget.

Lemma within_emit_put {E} t x m st : within 0 0 (emit_put t x m st : MC E unit).
Proof. unfold emit_put. spend. Qed.

Lemma within_emit_post {E} t m st : within 0 0 (emit_post t m st : MC E unit).
Proof. unfold emit_post. spend. Qed.

Lemma within_emit_patch {E} t x m st : within 0 0 (emit_patch t x m st : MC E unit).
Proof. unfold emit_patch. spend. Qed.

Lemma within_emit_delete {E} t auxes st : within 0 0 (emit_delete t auxes st : MC E unit).
Proof.
  unfold emit_delete. set (body := λ a : AuxUrl, _).
  assert (within 0 0 (for_each auxes body : MC E unit)) by (apply within_for_each; intros x; unfold body; spend).
  spend.
Qed.
#[local] Hint Resolve within_emit_put within_emit_post within_emit_patch within_emit_delete : budget.

(** * The budgets of the handlers *)

Lemma within_get_resource r d headers : within 0 6 (get_resource r d headers).
Proof.
  assert (∀ mt, within 0 0 (blob_read r headers mt)) by (intros mt; unfold blob_read; spend).
  unfold get_resource, ok_flatten. spend_step. spend_step. spend_step. apply spends_kind_of. intros [[[|mt]|]|e|] q Hq; spend.
Qed.

Lemma within_legacy_read d t headers : within 0 2 (legacy_graph_read d t headers).
Proof. unfold legacy_graph_read. spend. Qed.
#[local] Hint Resolve within_get_resource within_legacy_read : budget.

Lemma within_get {E} agent t headers : within 0 8 (get_impl agent t headers : MC E Response).
Proof.
  unfold get_impl, get_write. do 4 spend_step. apply spends_probe; [intros g u q Hu Hq _ _|intros; cbn; lia..]. spend.
Qed.

Lemma within_validated t : within 0 6 (validated_dataset t).
Proof.
  unfold validated_dataset. destruct t; [|spend..]. spend_step. spend_step. spend_step. apply spends_kind_of.
  intros [[[|mt]|]|e|] q Hq; spend.
Qed.
#[local] Hint Resolve within_validated : budget.

Lemma within_validate {E} agent t headers : within 0 13 (validate_view sp agent t headers : MC E Response).
Proof.
  unfold validate_view, validate_body. do 4 spend_step. apply spends_probe; [intros g u q Hu Hq _ _|intros; cbn; lia..]. spend.
Qed.

Definition check_cost (t : Target) : Z := match t with TResource _ => 3 | _ => 0 end.

Lemma within_version_check t v : within 0 (check_cost t) (put_version_check t v).
Proof. unfold put_version_check, check_cost. destruct t; spend. Qed.

Lemma within_graph_check t f : within 0 (check_cost t) (put_graph_check t f).
Proof. unfold put_graph_check, check_cost. destruct t; spend. Qed.

(** The updates that write a target: a container's content and its type are
    two, anything else is one. *)
Definition writes_of (t : Target) : Z := match t with TContainer _ => 2 | _ => 1 end.

Lemma within_put_store t d sk f : within (writes_of t) (writes_of t) (put_store sp uuid t d sk f).
Proof. unfold put_store, put_store_aux, put_store_container, writes_of. destruct t; spend. Qed.

Lemma within_post_store t repr : within (writes_of t) 1 (post_store uuid t repr).
Proof. unfold post_store, writes_of. destruct t, repr; spend. Qed.
#[local] Hint Resolve within_version_check within_graph_check within_put_store within_post_store : budget.

Lemma writes_positive t : 1 ≤ writes_of t.
Proof. by destruct t. Qed.

Lemma within_put_write_rdf g t headers x d f v : guard_subject g = subject_of t →
  within (writes_of t + 2 * depth (subject_of t)) (12 + conditional_cost headers) (put_write_rdf sp uuid g t headers x d f v).
Proof.
  intros Hg. pose proof (within_materialize g) as Hm. rewrite Hg in Hm. assert (0 ≤ depth (subject_of t)) by (unfold depth; lia).
  assert (0 ≤ conditional_cost headers) by (unfold conditional_cost; destruct (_ && _); lia).
  unfold put_write_rdf. destruct t; spend; cbn [check_cost writes_of] in *; lia.
Qed.

Lemma within_put_write_blob g t headers x bytes mt : guard_subject g = subject_of t →
  within (1 + 2 * depth (subject_of t)) (1 + conditional_cost headers) (put_write_blob g t headers x bytes mt).
Proof.
  intros Hg. pose proof (within_materialize g) as Hm. rewrite Hg in Hm. assert (0 ≤ depth (subject_of t)) by (unfold depth; lia).
  assert (0 ≤ conditional_cost headers) by (unfold conditional_cost; destruct (_ && _); lia).
  unfold put_write_blob. destruct t; spend.
Qed.
#[local] Hint Resolve within_put_write_rdf within_put_write_blob : budget.

Lemma within_put {E} agent t headers body :
  within (writes_of t + 2 * depth (subject_of t)) (14 + conditional_cost headers)
    (put_impl sp uuid agent t headers body : MC E Response).
Proof.
  assert (0 ≤ conditional_cost headers) by (unfold conditional_cost; destruct (_ && _); lia). pose proof (writes_positive t).
  assert (0 ≤ depth (subject_of t)) by (unfold depth; lia).
  unfold put_impl, put_write. do 5 spend_step. apply spends_probe; [intros g u q Hu Hq Hg _|intros; spend..]. spend.
Qed.

Lemma within_delete {E} agent t : within 1 5 (delete_impl agent t : MC E Response).
Proof.
  unfold delete_impl, delete_write, delete_subject_write. do 5 spend_step.
  apply spends_probe; [intros g u q Hu Hq _ _|intros; spend..]. spend.
Qed.

(** ** [PATCH] *)
Definition patch_check_cost (t : Target) : Z := match t with TAux _ => 0 | _ => 7 end.

Lemma within_patch_checks headers t p : within 0 (patch_check_cost t + conditional_cost headers) (patch_checks sp headers t p).
Proof.
  assert (0 ≤ conditional_cost headers) by (unfold conditional_cost; destruct (_ && _); lia).
  unfold patch_checks, patch_check_cost. destruct t as [r|c|a].
  - spend_step. spend_step. spend_step. spend_step. apply spends_kind_of. intros [[[|mt]|]|e|] q Hq; spend.
  - spend.
  - unfold patch_shape_conflict. cbn [shape_container]. spend.
Qed.

Lemma within_create g t p : guard_subject g = subject_of t →
  within (writes_of t + 2 * depth (subject_of t)) 1 (create_by_patch uuid g t p).
Proof.
  intros Hg. pose proof (within_materialize g) as Hm. rewrite Hg in Hm. assert (0 ≤ depth (subject_of t)) by (unfold depth; lia).
  unfold create_by_patch, writes_of. destruct t; spend.
Qed.

Lemma within_patch_existing r t p : within (writes_of t) 2 (patch_existing r t p).
Proof. unfold patch_existing, patch_dataset, writes_of. destruct t; spend. Qed.

Lemma within_patch_aux a p : within 1 4 (patch_aux_response a p).
Proof. unfold patch_aux_response. spend. Qed.
#[local] Hint Resolve within_patch_checks within_create within_patch_existing within_patch_aux : budget.

Lemma within_patch {E} agent t headers body :
  within (writes_of t + 2 * depth (subject_of t)) (11 + conditional_cost headers)
    (patch_impl sp uuid agent t headers body : MC E Response).
Proof.
  assert (0 ≤ conditional_cost headers) by (unfold conditional_cost; destruct (_ && _); lia). pose proof (writes_positive t).
  assert (0 ≤ depth (subject_of t)) by (unfold depth; lia).
  unfold patch_impl, patch_write. do 5 spend_step. apply spends_probe; [intros g u q Hu Hq Hg _|intros; spend..].
  destruct t; spend; cbn [patch_check_cost writes_of] in *; lia.
Qed.

(** ** [POST] *)
Section post.
Context (Hsp : space_wf sp) (path : string) (c : ContainerUrl) (Hc : classify sp ("/" +:+ path) = Ok (TContainer c)).
Context (name_uuid retry_uuid : string) (Hname : segment name_uuid) (Hretry : all_chars is_slug_char retry_uuid = true).

(** The child is one level further down. *)
Lemma child_depth s tl t : segment s → tl = "" ∨ tl = "/" → classify sp (c_path c +:+ s +:+ tl) = Ok t →
  depth (subject_of t) = depth (as_resource c) + 1.
Proof.
  intros Hs Htl Ht.
  destruct (member_inside sp _ c s tl t Hsp (classify_resolved sp _ _ Hc) Hs Htl (classify_resolved sp _ _ Ht)) as [_ Hp].
  destruct (classify_valid sp Hsp _ _ Ht) as [[Hin _] _]. unfold depth. rewrite (ancestors_unfold sp _ Hin), Hp. cbn. lia.
Qed.

Lemma spends_post_child agent headers (Q : outcome Response (Target * Guard) → Z → Z → Prop) :
  (∀ t g u q, u ≤ 0 → q ≤ 4 → guard_subject g = subject_of t → depth (subject_of t) = depth (as_resource c) + 1 → Q (Ok (t, g)) u q) →
  (∀ o u q, (∀ x, o ≠ Ok x) → u ≤ 0 → q ≤ 4 → Q o u q) →
  spends (post_child sp agent c headers name_uuid retry_uuid : MC _ _) Q.
Proof.
  intros Hok Hno. unfold post_child. cbv zeta. set (tl := if type_link_requests_container _ then "/" else "").
  assert (tl = "" ∨ tl = "/") as Htl by (unfold tl; destruct (type_link_requests_container _); auto).
  set (name := child_name _ name_uuid). assert (segment name) as Hs by by apply child_name_segment.
  assert (c_path c +:+ name +:+ "-" +:+ retry_uuid +:+ tl = c_path c +:+ (name +:+ "-" +:+ retry_uuid) +:+ tl) as ->
    by (by rewrite !app_assoc_s).
  do 3 spend_step. destruct (classify sp (c_path c +:+ name +:+ tl)) as [t|n|] eqn:Et; cbn [omap_err]; [|apply Hno; by try lia..].
  do 2 spend_step. apply spends_probe; [|intros; cbn [omap_err]; apply Hno; by try lia..]. intros g u q Hu Hq Hg _. cbn [omap_err].
  destruct (negb (is_taken g)).
  - spend_step. apply Hok; [lia..|done|by apply (child_depth name tl)].
  - do 3 spend_step. destruct (classify sp (c_path c +:+ (name +:+ "-" +:+ retry_uuid) +:+ tl)) as [t'|n|] eqn:Et';
      cbn [omap_err]; [|apply Hno; by try lia..].
    do 2 spend_step. apply spends_probe; [|intros; cbn [omap_err]; apply Hno; by try lia..]. intros g' u' q' Hu' Hq' Hg' _.
    cbn [omap_err]. spend_step. apply Hok; [lia..|done|]. apply (child_depth (name +:+ "-" +:+ retry_uuid) tl); [|done..].
    by apply retry_segment.
Qed.

Lemma within_post_container {E} agent headers body :
  within (2 * depth (as_resource c) + 4) 12
    (post_impl sp uuid agent (TContainer c) headers body name_uuid retry_uuid : MC E Response).
Proof.
  assert (0 ≤ depth (as_resource c)) by (unfold depth; lia).
  assert (∀ t repr, within 0 5 (post_checks sp t repr)) by (intros; unfold post_checks; spend).
  unfold post_impl, post_write. do 5 spend_step. apply spends_probe; [intros g u q Hu Hq _ _|intros; spend..].
  cbn [omap_err]. do 3 spend_step. destruct (authorize g Append); cbn [omap_err]; [|spend..].
  do 2 spend_step. apply spends_post_child; [|intros [x|?|] ? ? Hx ? ?; [by destruct (Hx x)|spend..]].
  intros t g' u' q' Hu' Hq' Hg' Hd. cbn [omap_err]. pose proof (within_materialize g') as Hm. rewrite Hg', Hd in Hm.
  assert (writes_of t ≤ 2) by (by destruct t). spend.
Qed.
End post.

Lemma within_post {E} path t agent headers body name_uuid retry_uuid : space_wf sp →
  classify sp ("/" +:+ path) = Ok t → segment name_uuid → all_chars is_slug_char retry_uuid = true →
  within (2 * depth (subject_of t) + 4) 12 (post_impl sp uuid agent t headers body name_uuid retry_uuid : MC E Response).
Proof.
  intros Hsp Ht Hname Hretry. assert (0 ≤ depth (subject_of t)) by (unfold depth; lia).
  destruct t as [r|c|a]; [|by apply (within_post_container Hsp path)|];
    unfold post_impl, post_write; do 5 spend_step; (apply spends_probe; [intros g u q Hu Hq _ _|intros; spend..]); spend.
Qed.
End parts.

(** * The budget *)
Section budget.
Context `{IriSyntax} `{HeaderSyntax} `{HeaderText} `{BlankSyntax} `{Hashing} `{ObjectPath} `{Display}
  `{TermDisplay} `{RdfLib} `{ShaclEngine} `{N3Lib}.
Context (sp : StorageSpace) (Hsp : space_wf sp) (uuid : nat → string).
Context {W : Type} `{Backend W} `{EventBus W} `{!BusLaws W}.

End budget.

(** * Witness: a deep [PUT] *)
Section witness.
#[local] Existing Instance toy_iri.
#[local] Existing Instance toy_header.
#[local] Existing Instance toy_text.
#[local] Existing Instance toy_blanks.
#[local] Existing Instance toy_hash.
#[local] Existing Instance toy_path.
#[local] Existing Instance toy_display.
#[local] Existing Instance toy_terms.
#[local] Existing Instance toy_rdf.
#[local] Existing Instance toy_shacl.
#[local] Existing Instance toy_n3.

(** [PUT /a/b] on a pod with a root makes [/a/] on the way: two updates each for
    [/a/] and the root, one for the resource. *)
Definition counted_put : outcome Empty_set Response * (Mem Bus * Calls) :=
  handle_put toy_space toy_uuid toy_owner "a/b" turtle_headers "body" (made_store, mkCalls 0 0 0).

End witness.
