(* ===== verification/Op.v ===== *)
(** The pod as an OpenID provider ([op/keys.rs], [op/mint.rs],
    [op/discovery.rs]): the key file, the published keys, minted tokens.

    The file system and [josekit]'s keys are parameters, with their laws. *)
From S2P Require Import Prelude Str Terms Space Rdf Dataset Fetch Jose Cache Issuers Token Dpop.
Open Scope list_scope.

(** * What the module relies on *)

(** [std::io::Error]: its kind, as far as the code looks, and its text. *)
Record IoError : Type := mkIoError { io_not_found : bool; io_text : string }.

(** The files of the process, and the generator of keys. *)
Class KeyHost (W : Type) `{Jose} : Type := {
  read_to_string : string → M W IoError string;
  (** [OpenOptions] with [create_new] and mode [0600]. *)
  create_new_file : string → M W IoError unit;
  write_all : string → string → M W IoError unit;
  generate_ec_p256 : M W string Jwk
}.

(** The members of a JWS header that the code sets. *)
Record JwsHeader : Type := mkJwsHeader { jh_typ : string; jh_kid : string }.

Class JwkLib `{Jose} : Type := {
  jwk_map_error : list (string * Value) → string;
  jwk_algorithm : Jwk → option string;
  jwk_parameter : Jwk → string → option Value;
  jwk_set_algorithm : string → Jwk → Jwk;
  jwk_set_key_id : string → Jwk → Jwk;
  jwk_to_public_key : Jwk → string + Jwk;
  jwk_value : Jwk → Value;
  (** [serde_json]: a value as text, and what is wrong with a text. *)
  json_text : Value → string;
  json_error : string → string;
  Signer : Type;
  rs256_signer : Jwk → string + Signer;
  es256_signer : Jwk → string + Signer;
  payload_new : JwtPayload;
  payload_set_issuer : string → JwtPayload → JwtPayload;
  payload_set_subject : string → JwtPayload → JwtPayload;
  payload_set_claim : string → Value → JwtPayload → option JwtPayload;
  encode_with_signer : JwtPayload → JwsHeader → Signer → option string
}.

(** * [op/keys.rs] *)

(** [enum KeyError]. *)
Inductive KeyError : Type :=
| KeyIo (path source : string)
| KeyMalformed (path reason : string)
| KeyEmpty (path : string).

Section keys.
Context `{Encodings} `{Jose} `{!JwkLib}.

Record KeySet : Type := mkKeySet { ks_keys : list Jwk }.

(** RFC 7638, as far as it names members. *)
Definition thumbprint_members (key_type : string) : option (list string) :=
  if bool_decide (key_type = "EC") then Some ["crv"; "kty"; "x"; "y"]
  else if bool_decide (key_type = "RSA") then Some ["e"; "kty"; "n"]
  else None.

Definition thumbprint {E} (jwk : Jwk) : outcome E string :=
  match thumbprint_members (jwk_key_type jwk) with
  | None => Panicked
  | Some members =>
      let canonical := omap (λ name, v ← jwk_parameter jwk name ≫= as_str; Some (name, v)) members in
      Ok (b64_encode (sha256_digest (json_strings canonical)))
  end.

Definition alg_of (jwk : Jwk) : option string :=
  match jwk_algorithm jwk with
  | Some alg => Some alg
  | None =>
      if bool_decide (jwk_key_type jwk = "EC") && bool_decide (jwk_curve jwk = Some "P-256") then Some "ES256"
      else if bool_decide (jwk_key_type jwk = "RSA") then Some "RS256"
      else None
  end.

Definition signer_for (jwk : Jwk) : string + Signer :=
  if bool_decide (jwk_algorithm jwk = Some "RS256") then rs256_signer jwk else es256_signer jwk.

Definition of_sum {E F A : Type} (f : E → F) (x : E + A) : outcome F A :=
  match x with inl e => Err (f e) | inr a => Ok a end.

(** One key of the file. *)
Definition read_key (path : string) (v : Value) : outcome KeyError Jwk :=
  let? m := ok_or (KeyMalformed path "key is not an object") (as_object v) in
  let? jwk := ok_or (KeyMalformed path (jwk_map_error m)) (jwk_from_map m) in
  if negb (bool_decide (jwk_key_type jwk ∈ ["EC"; "RSA"]))
  then Err (KeyMalformed path ("unsupported key type " +:+ jwk_key_type jwk)) else
  let? _ := of_sum (KeyMalformed path) (jwk_to_public_key jwk) in
  match jwk_key_id jwk with
  | Some _ => Ok jwk
  | None => let? t := thumbprint jwk in Ok (jwk_set_key_id t jwk)
  end.

Fixpoint read_keys (path : string) (raw : list Value) : outcome KeyError (list Jwk) :=
  match raw with
  | [] => Ok []
  | v :: raw =>
      let? k := read_key path v in
      let? ks := read_keys path raw in
      Ok (k :: ks)
  end.

(** The text of a key file, as the set it holds. *)
Definition parse_keys (path text : string) : outcome KeyError KeySet :=
  let? parsed := ok_or (KeyMalformed path (json_error text)) (json_parse text) in
  let? raw := ok_or (KeyMalformed path "no `keys` array")
                (match v_get "keys" parsed with Some (VArray l) => Some l | _ => None end) in
  let? keys := read_keys path raw in
  match keys with
  | [] => Err (KeyEmpty path)
  | first :: _ =>
      let? _ := of_sum (KeyMalformed path) (signer_for first) in
      Ok (mkKeySet keys)
  end.

Definition public_jwk {E} (k : Jwk) : outcome E Value :=
  match jwk_to_public_key k with
  | inl _ => Panicked
  | inr public =>
      let public := match jwk_key_id k with Some kid => jwk_set_key_id kid public | None => public end in
      let public := match jwk_algorithm k with Some alg => jwk_set_algorithm alg public | None => public end in
      Ok (jwk_value public)
  end.

Fixpoint public_list {E} (ks : list Jwk) : outcome E (list Value) :=
  match ks with
  | [] => Ok []
  | k :: ks => let? v := public_jwk k in let? vs := public_list ks in Ok (v :: vs)
  end.

Definition public_jwks {E} (set : KeySet) : outcome E Value :=
  let? keys := public_list (ks_keys set) in Ok (VObject [("keys", VArray keys)]).

Definition add_alg (out : list string) (k : Jwk) : list string :=
  match alg_of k with
  | None => out
  | Some alg => if existsb (λ a, bool_decide (a = alg)) out then out else out ++ [alg]
  end.

Definition signing_algs (set : KeySet) : list string := foldl add_alg [] (ks_keys set).

Definition sign_jwt {E} (set : KeySet) (payload : JwtPayload) : outcome E string :=
  match ks_keys set with
  | [] => Panicked
  | key :: _ =>
      match jwk_key_id key, signer_for key with
      | Some kid, inr signer =>
          match encode_with_signer payload (mkJwsHeader "JWT" kid) signer with
          | Some token => Ok token
          | None => Panicked
          end
      | _, _ => Panicked
      end
  end.

Context {W : Type} `{!KeyHost W}.

(** A fresh set, written to a file that was not there. *)
Definition generate_keys (path : string) : M W KeyError KeySet :=
  let! jwk := map_err (KeyMalformed path) generate_ec_p256 in
  let jwk := jwk_set_algorithm "ES256" jwk in
  let! kid := lift (thumbprint jwk) in
  let jwk := jwk_set_key_id kid jwk in
  let body := json_text (VObject [("keys", VArray [jwk_value jwk])]) in
  do! map_err (λ e, KeyIo path (io_text e)) (create_new_file path) in
  do! map_err (λ e, KeyIo path (io_text e)) (write_all path body) in
  ret (mkKeySet [jwk]).

Definition load_or_generate (path : string) : M W KeyError KeySet :=
  let! text := attempt (read_to_string path) in
  match text with
  | inr text => lift (parse_keys path text)
  | inl e => if io_not_found e then generate_keys path else throw (KeyIo path (io_text e))
  end.
End keys.

(** * [op/mint.rs], [op/discovery.rs] *)
Definition ACCESS_TOKEN_TTL_SECS : Z := 600.

(** An [i64] addition, as a release build makes it. *)
Definition wrapping_add (a b : Z) : Z := ((a + b - I64_MIN) mod 18446744073709551616 + I64_MIN)%Z.

Section mint.
Context `{IriSyntax} `{Encodings} `{Jose} `{!JwkLib}.

(** [set_claim] with its [expect]. *)
Definition set_claim {E} (name : string) (v : Value) (p : JwtPayload) : outcome E JwtPayload :=
  match payload_set_claim name v p with Some p => Ok p | None => Panicked end.

Definition mint_access_token {E} (keys : KeySet) (sp : StorageSpace) (webid jkt : string) (now_unix : Z)
    (uuid : string) : outcome E string :=
  match root sp with
  | None => Panicked
  | Some root =>
      let payload := payload_set_subject webid (payload_set_issuer (graph_iri root) payload_new) in
      let? payload := set_claim "aud" (VArray [VString "solid"]) payload in
      let? payload := set_claim "webid" (VString webid) payload in
      let? payload := set_claim "cnf" (VObject [("jkt", VString jkt)]) payload in
      let? payload := set_claim "jti" (VString uuid) payload in
      let? payload := set_claim "iat" (VNumber (Some now_unix)) payload in
      let? payload := set_claim "exp" (VNumber (Some (wrapping_add now_unix ACCESS_TOKEN_TTL_SECS))) payload in
      sign_jwt keys payload
  end.

(** [discovery::document]; [None] where [root] panics. *)
Definition document (sp : StorageSpace) (keys : KeySet) : option Value :=
  root ← root sp;
  let issuer := graph_iri root in
  Some (VObject [("issuer", VString issuer);
                 ("jwks_uri", VString (issuer +:+ ".well-known/jwks.json"));
                 ("scopes_supported", VArray [VString "openid"; VString "webid"]);
                 ("id_token_signing_alg_values_supported", VArray (map VString (signing_algs keys)))]).
End mint.

(** * Laws *)

(** A signer's signatures are accepted by a verifier. *)
Definition checks `{Jose} `{!JwkLib} (s : Signer) (v : Verifier) : Prop :=
  ∀ payload header token, encode_with_signer payload header s = Some token →
    decode_with_verifier token v = Some payload.

(** The JSON kind [josekit] asks of a registered claim. *)
Definition claim_kind (name : string) (v : Value) : bool :=
  if bool_decide (name ∈ ["iss"; "sub"; "jti"]) then is_some (as_str v)
  else if bool_decide (name = "aud") then match v with VString _ | VArray _ => true | _ => false end
  else if bool_decide (name ∈ ["exp"; "nbf"; "iat"]) then match v with VNumber _ => true | _ => false end
  else true.

(** What setting a member of a payload does. *)
Definition claim_set `{Jose} (name : string) (v : Value) (p p' : JwtPayload) : Prop :=
  ∀ n, payload_claim p' n = if decide (n = name) then Some v else payload_claim p n.

Class JwkLaws `{Encodings} `{Jose} `{!JwkLib} : Prop := {
  set_alg_alg a k : jwk_algorithm (jwk_set_algorithm a k) = Some a;
  set_alg_id a k : jwk_key_id (jwk_set_algorithm a k) = jwk_key_id k;
  set_alg_type a k : jwk_key_type (jwk_set_algorithm a k) = jwk_key_type k;
  set_alg_curve a k : jwk_curve (jwk_set_algorithm a k) = jwk_curve k;
  set_id_id i k : jwk_key_id (jwk_set_key_id i k) = Some i;
  set_id_alg i k : jwk_algorithm (jwk_set_key_id i k) = jwk_algorithm k;
  set_id_type i k : jwk_key_type (jwk_set_key_id i k) = jwk_key_type k;
  set_id_curve i k : jwk_curve (jwk_set_key_id i k) = jwk_curve k;
  (** A name is no part of the key. *)
  set_id_public i k p : jwk_to_public_key k = inr p → ∃ p', jwk_to_public_key (jwk_set_key_id i k) = inr p';
  set_id_rs256_signer i k : rs256_signer (jwk_set_key_id i k) = rs256_signer k;
  set_id_es256_signer i k : es256_signer (jwk_set_key_id i k) = es256_signer k;
  set_id_rs256_verifier i k : rs256_verifier (jwk_set_key_id i k) = rs256_verifier k;
  set_id_es256_verifier i k : es256_verifier (jwk_set_key_id i k) = es256_verifier k;
  set_alg_rs256_verifier k : rs256_verifier (jwk_set_algorithm "RS256" k) = rs256_verifier k;
  set_alg_es256_verifier k : es256_verifier (jwk_set_algorithm "ES256" k) = es256_verifier k;
  (** A signer asks for its key's type, and its algorithm if one is declared. *)
  rs256_signer_type k s : rs256_signer k = inr s → jwk_key_type k = "RSA";
  es256_signer_type k s : es256_signer k = inr s →
    jwk_key_type k = "EC" ∧ jwk_curve k = Some "P-256" ∧ (jwk_algorithm k = None ∨ jwk_algorithm k = Some "ES256");
  (** The public half is of the same type, and checks what the key signs. *)
  public_type k p : jwk_to_public_key k = inr p → jwk_key_type p = jwk_key_type k;
  public_curve k p : jwk_to_public_key k = inr p → jwk_curve p = jwk_curve k;
  public_rs256 k s p : rs256_signer k = inr s → jwk_to_public_key k = inr p →
    ∃ v, rs256_verifier p = Some v ∧ checks s v;
  public_es256 k s p : es256_signer k = inr s → jwk_to_public_key k = inr p →
    ∃ v, es256_verifier p = Some v ∧ checks s v;
  (** Keys and values survive their JSON. *)
  jwk_read_back k : ∃ m, jwk_value k = VObject m ∧ jwk_from_map m = Some k;
  jwks_read_back ks : jwks_from_value (VArray (map jwk_value ks)) = Some ks;
  json_read_back v : json_parse (json_text v) = Some v;
  (** Claims. *)
  claim_new n : payload_claim payload_new n = None;
  claim_issuer i p : claim_set "iss" (VString i) p (payload_set_issuer i p);
  claim_subject i p : claim_set "sub" (VString i) p (payload_set_subject i p);
  claim_any n v p : claim_kind n v = true → ∃ p', payload_set_claim n v p = Some p' ∧ claim_set n v p p';
  issuer_claim p : payload_issuer p = payload_claim p "iss" ≫= as_str;
  (** A token is the header and the claims, in base64url. *)
  encode_total p h s : is_Some (encode_with_signer p h s);
  encode_segments p h s token : encode_with_signer p h s = Some token →
    ∃ hs ps ss ht pt hv pv, segments token = Some (hs, ps, ss) ∧
      b64_decode hs = Some ht ∧ json_parse ht = Some hv ∧ get_str "kid" hv = Some (jh_kid h) ∧
      b64_decode ps = Some pt ∧ json_parse pt = Some pv ∧ get_str "iss" pv = payload_issuer p
}.

Class KeyHostLaws (W : Type) `{Jose} `{!JwkLib} `{!KeyHost W} : Type := {
  files : W → gmap string string;
  read_law p w : wp (read_to_string p) (λ o w', files w' = files w ∧
    match o with
    | Ok t => files w !! p = Some t
    | Err e => io_not_found e = true → files w !! p = None
    | Panicked => False
    end) w;
  create_law p w : wp (create_new_file p) (λ o w',
    match o with
    | Ok _ => files w !! p = None ∧ files w' = <[p := ""]> (files w)
    | Err _ => files w' = files w
    | Panicked => False
    end) w;
  write_law p t w : wp (write_all p t) (λ o w',
    match o with
    | Ok _ => files w' = <[p := t]> (files w)
    | Err _ => ∃ t', files w' = <[p := t']> (files w)
    | Panicked => False
    end) w;
  (** A P-256 key, which signs. *)
  generate_law w : wp generate_ec_p256 (λ o w', files w' = files w ∧
    match o with
    | Ok k => jwk_key_type k = "EC" ∧ (∃ p, jwk_to_public_key (jwk_set_algorithm "ES256" k) = inr p) ∧
              ∃ s, es256_signer (jwk_set_algorithm "ES256" k) = inr s
    | Err _ => True
    | Panicked => False
    end) w
}.

(** * Properties *)
Section properties.
Context `{IriSyntax} `{Encodings} `{Jose} `{!JwkLib} `{!JwkLaws}.

(** A key that may be in a set. *)
Definition admitted (k : Jwk) : Prop :=
  jwk_key_type k ∈ ["EC"; "RSA"] ∧ is_Some (jwk_key_id k) ∧ ∃ p, jwk_to_public_key k = inr p.

(** What the loader promises of a set. *)
Record usable (set : KeySet) : Prop := {
  us_all : Forall admitted (ks_keys set);
  us_first : ∃ k ks s, ks_keys set = k :: ks ∧ signer_for k = inr s
}.

Lemma thumbprint_Ok {E} k : jwk_key_type k ∈ ["EC"; "RSA"] → ∃ t, thumbprint k = Ok t :> outcome E string.
Proof.
  intros Hk. unfold thumbprint, thumbprint_members.
  repeat case_bool_decide; [by eexists..|]. exfalso. set_solver.
Qed.

Lemma set_id_admitted i k : jwk_key_type k ∈ ["EC"; "RSA"] → (∃ p, jwk_to_public_key k = inr p) →
  admitted (jwk_set_key_id i k).
Proof.
  intros Ht [p Hp]. split; [by rewrite set_id_type|]. split; [by rewrite set_id_id|]. by eapply set_id_public.
Qed.

Lemma read_key_spec path v :
  match read_key path v with Ok k => admitted k | Err _ => True | Panicked => False end.
Proof.
  unfold read_key. destruct (as_object v) as [m|]; [|done]. cbn. destruct (jwk_from_map m) as [k|]; [|done]. cbn.
  case_bool_decide as Ht; [|done]. cbn. destruct (jwk_to_public_key k) as [e|p] eqn:Ep; [done|]. cbn.
  destruct (jwk_key_id k) as [i|] eqn:Ei.
  - split; [done|]. split; [by rewrite Ei|]. by exists p.
  - destruct (thumbprint_Ok (E:=KeyError) k Ht) as [t ->]. cbn. apply set_id_admitted; [done|by exists p].
Qed.

Lemma read_keys_spec path raw :
  match read_keys path raw with Ok ks => Forall admitted ks | Err _ => True | Panicked => False end.
Proof.
  induction raw as [|v raw IH]; cbn; [by constructor|]. pose proof (read_key_spec path v) as Hk.
  destruct (read_key path v) as [k|e|]; [|done..]. cbn. destruct (read_keys path raw) as [ks|e|]; [|done..].
  by constructor.
Qed.

Lemma parse_keys_spec path text :
  match parse_keys path text with Ok set => usable set | Err _ => True | Panicked => False end.
Proof.
  unfold parse_keys. destruct (json_parse text) as [v|]; [|done]. cbn.
  destruct (v_get "keys" v) as [[| | | |raw|]|]; cbn; try done.
  pose proof (read_keys_spec path raw) as Hr. destruct (read_keys path raw) as [[|k ks]|e|]; [done| |done..].
  cbn. destruct (signer_for k) as [e|s] eqn:Es; [done|]. cbn. split; [done|]. by exists k, ks, s.
Qed.

(** A written key is read as it was. *)
Lemma read_key_back path k : admitted k → read_key path (jwk_value k) = Ok k.
Proof.
  intros (Ht & [i Hi] & p & Hp). destruct (jwk_read_back k) as (m & -> & Hm).
  unfold read_key. cbn. rewrite Hm. cbn. rewrite (bool_decide_eq_true_2 _ Ht), Hp, Hi. done.
Qed.

Lemma sign_jwt_Ok {E} set payload : usable set → ∃ token, sign_jwt set payload = Ok token :> outcome E string.
Proof.
  intros [Hall (k & ks & s & Ek & Es)]. unfold sign_jwt. rewrite Ek in Hall |- *.
  apply Forall_cons in Hall as [(_ & [i ->] & _) _]. rewrite Es.
  destruct (encode_total payload (mkJwsHeader "JWT" i) s) as [token ->]. by exists token.
Qed.

(** The public half of a key, as it is published. *)
Definition public_half (k : Jwk) : Jwk :=
  match jwk_to_public_key k with
  | inl _ => k
  | inr p =>
      let p := match jwk_key_id k with Some kid => jwk_set_key_id kid p | None => p end in
      match jwk_algorithm k with Some alg => jwk_set_algorithm alg p | None => p end
  end.

Lemma public_jwks_Ok {E} set : usable set →
  public_jwks set = Ok (VObject [("keys", VArray (map jwk_value (map public_half (ks_keys set))))]) :> outcome E Value.
Proof.
  intros [Hall _]. unfold public_jwks.
  assert (public_list (ks_keys set) = Ok (map jwk_value (map public_half (ks_keys set))) :> outcome E _) as ->; [|done].
  induction Hall as [|k ks (_ & _ & p & Hp) _ IH]; [done|]. cbn. unfold public_jwk at 1, public_half at 1.
  rewrite Hp. cbn. rewrite IH. done.
Qed.

(** A set of one admitted key that signs is read back from its text. *)
Lemma parse_written path k s : admitted k → signer_for k = inr s →
  parse_keys path (json_text (VObject [("keys", VArray [jwk_value k])])) = Ok (mkKeySet [k]).
Proof.
  intros Hk Hs. unfold parse_keys. rewrite obind_Ok. eexists. split; [by rewrite json_read_back|].
  rewrite obind_Ok. eexists. split; [reflexivity|]. rewrite obind_Ok. exists [k]. split; [|by rewrite Hs].
  unfold read_keys. by rewrite (read_key_back path k Hk).
Qed.

(** The generated key, named and with its algorithm. *)
Lemma generated_key k i : jwk_key_type k = "EC" → (∃ p, jwk_to_public_key (jwk_set_algorithm "ES256" k) = inr p) →
  (∃ s, es256_signer (jwk_set_algorithm "ES256" k) = inr s) →
  let k' := jwk_set_key_id i (jwk_set_algorithm "ES256" k) in admitted k' ∧ ∃ s, signer_for k' = inr s.
Proof.
  intros Ht Hp [s Hs] k'. split.
  - apply set_id_admitted; [|done]. rewrite set_alg_type, Ht. by left.
  - exists s. unfold signer_for, k'. rewrite set_id_alg, set_alg_alg, set_id_es256_signer. by rewrite bool_decide_eq_false_2.
Qed.

Section files.
Context {W : Type} `{!KeyHost W} `{!KeyHostLaws W}.

(** No file is rewritten. *)
Definition kept_files (w w' : W) : Prop := ∀ p t, files w !! p = Some t → files w' !! p = Some t.

Lemma generate_keys_spec path w : files w !! path = None →
  wp (generate_keys path) (λ o w', kept_files w w' ∧
    match o with
    | Ok set => usable set ∧ ∃ text, files w' !! path = Some text ∧ parse_keys path text = Ok set
    | Err _ => True
    | Panicked => False
    end) w.
Proof.
  intros Hnone. unfold generate_keys. apply wp_bind, wp_map_err. eapply wp_wand; [apply generate_law|].
  intros [k|e|] w1 [Hf Hk]; cbn; [|by unfold kept_files; rewrite Hf|done]. destruct Hk as (Ht & Hp & Hs).
  assert (jwk_key_type (jwk_set_algorithm "ES256" k) ∈ ["EC"; "RSA"]) as Hin by (rewrite set_alg_type, Ht; by left).
  destruct (thumbprint_Ok (E:=KeyError) _ Hin) as [i Hi]. rewrite Hi. apply wp_bind, wp_lift.
  destruct (generated_key k i Ht Hp Hs) as [Ha [s Hs']]. cbn in Ha, Hs'. set (k' := jwk_set_key_id i _) in *.
  assert (∀ t, kept_files w w1 ∧ (∀ w', files w' = <[path := t]> (files w1) → kept_files w w')) as Hkept.
  { intros t. unfold kept_files. rewrite Hf. split; [done|]. intros w' -> q x Hq. by rewrite lookup_insert_ne by congruence. }
  apply wp_bind, wp_map_err. eapply wp_wand; [apply create_law|].
  intros [[]|e|] w2 Hc; cbn; [|by unfold kept_files; rewrite Hc, Hf|done]. destruct Hc as [_ Hc].
  apply wp_bind, wp_map_err. eapply wp_wand; [apply write_law|].
  intros [[]|e|] w3 Hw; cbn; [| |done].
  - rewrite Hc, insert_insert_eq in Hw. apply wp_ret. split; [by eapply Hkept|].
    split; [split; [by constructor|by exists k', [], s]|]. eexists. rewrite Hw, lookup_insert_eq.
    split; [done|]. by eapply parse_written.
  - destruct Hw as [t Hw]. rewrite Hc, insert_insert_eq in Hw. split; [by eapply Hkept|done].
Qed.

End files.

(** ** Minting *)
Lemma set_claim_Ok {E} n v p : claim_kind n v = true →
  ∃ p', set_claim n v p = Ok p' :> outcome E JwtPayload ∧ claim_set n v p p'.
Proof. intros Hk. destruct (claim_any n v p Hk) as (p' & Hp & Hc). unfold set_claim. rewrite Hp. by exists p'. Qed.

(** What a token says of itself. *)
Record says (iss webid jkt : string) (exp : Z) (p : JwtPayload) : Prop := {
  says_iss : payload_claim p "iss" = Some (VString iss);
  says_webid : payload_claim p "webid" = Some (VString webid);
  says_jkt : payload_claim p "cnf" = Some (VObject [("jkt", VString jkt)]);
  says_aud : payload_claim p "aud" = Some (VArray [VString "solid"]);
  says_exp : payload_claim p "exp" = Some (VNumber (Some exp))
}.

Lemma mint_payload {E} keys sp r webid jkt now_unix uuid : root sp = Some r →
  ∃ payload, mint_access_token keys sp webid jkt now_unix uuid = sign_jwt keys payload :> outcome E string ∧
    says (graph_iri r) webid jkt (wrapping_add now_unix ACCESS_TOKEN_TTL_SECS) payload.
Proof.
  intros Hr. unfold mint_access_token. rewrite Hr. cbv zeta.
  set (p0 := payload_set_subject webid _).
  assert (payload_claim p0 "iss" = Some (VString (graph_iri r))) as Hi.
  { unfold p0. rewrite (claim_subject webid _ "iss"). simpl. by rewrite (claim_issuer _ payload_new "iss"). }
  destruct (set_claim_Ok (E:=E) "aud" (VArray [VString "solid"]) p0 eq_refl) as (p1 & -> & C1). cbn [obind].
  destruct (set_claim_Ok (E:=E) "webid" (VString webid) p1 eq_refl) as (p2 & -> & C2). cbn [obind].
  destruct (set_claim_Ok (E:=E) "cnf" (VObject [("jkt", VString jkt)]) p2 eq_refl) as (p3 & -> & C3). cbn [obind].
  destruct (set_claim_Ok (E:=E) "jti" (VString uuid) p3 eq_refl) as (p4 & -> & C4). cbn [obind].
  destruct (set_claim_Ok (E:=E) "iat" (VNumber (Some now_unix)) p4 eq_refl) as (p5 & -> & C5). cbn [obind].
  destruct (set_claim_Ok (E:=E) "exp" (VNumber (Some (wrapping_add now_unix ACCESS_TOKEN_TTL_SECS))) p5 eq_refl)
    as (p6 & -> & C6). cbn [obind].
  exists p6. split; [done|]. split; by rewrite C6, ?C5, ?C4, ?C3, ?C2, ?C1.
Qed.

(** The first published key is chosen for its token, and accepts it. *)
Lemma active_key_verifies k s : admitted k → signer_for k = inr s →
  jwk_key_id (public_half k) = jwk_key_id k ∧ ∃ v, verifier_for (public_half k) = Ok v ∧ checks s v.
Proof.
  intros (_ & [i Hi] & p & Hp) Hs. unfold public_half. rewrite Hp, Hi.
  split; [destruct (jwk_algorithm k); by rewrite ?set_alg_id, set_id_id|].
  unfold signer_for in Hs. case_bool_decide as Ea.
  - destruct (public_rs256 _ _ _ Hs Hp) as (v & Hv & Hc). exists v. split; [|done]. rewrite Ea.
    unfold verifier_for. rewrite set_alg_type, set_id_type, (public_type _ _ Hp), (rs256_signer_type _ _ Hs).
    by rewrite set_alg_rs256_verifier, set_id_rs256_verifier, Hv.
  - destruct (public_es256 _ _ _ Hs Hp) as (v & Hv & Hc). exists v. split; [|done].
    destruct (es256_signer_type _ _ Hs) as (Ht & Hcv & [->| ->]); unfold verifier_for.
    + rewrite set_id_type, set_id_curve, (public_type _ _ Hp), (public_curve _ _ Hp), Ht, Hcv.
      by rewrite set_id_es256_verifier, Hv.
    + rewrite set_alg_type, set_alg_curve, set_id_type, set_id_curve, (public_type _ _ Hp), (public_curve _ _ Hp), Ht, Hcv.
      by rewrite set_alg_es256_verifier, set_id_es256_verifier, Hv.
Qed.

Lemma read_claims_minted iss webid jkt exp p now_unix : says iss webid jkt exp p →
  read_claims p now_unix =
    if Z.leb exp now_unix then Err Expired else Ok (mkClaims webid jkt iss ["solid"]).
Proof.
  intros [Hs1 Hs2 Hs3 Hs4 Hs5]. unfold read_claims. rewrite issuer_claim, Hs1, Hs2, Hs3, Hs4, Hs5. cbn.
  by destruct (Z.leb exp now_unix).
Qed.


(** ** The advertised algorithms *)

(** The algorithm of the signer that [signer_for] builds. *)
Definition signature_alg (k : Jwk) : string :=
  if bool_decide (jwk_algorithm k = Some "RS256") then "RS256" else "ES256".

Lemma add_alg_spec out k : NoDup out →
  NoDup (add_alg out k) ∧ ∀ a, a ∈ add_alg out k ↔ a ∈ out ∨ alg_of k = Some a.
Proof.
  intros Hn. unfold add_alg. destruct (alg_of k) as [alg|]; [|naive_solver].
  destruct (existsb _ out) eqn:Ex.
  - apply existsb_exists in Ex as (b & Hb & E%bool_decide_eq_true). subst b. apply list_elem_of_In in Hb. naive_solver.
  - assert (alg ∉ out) as Hno.
    { intros Hin%list_elem_of_In. assert (existsb (λ a, bool_decide (a = alg)) out = true); [|congruence].
      apply existsb_exists. exists alg. by rewrite bool_decide_eq_true. }
    split; [apply NoDup_app; split_and!; [done| |apply NoDup_singleton]|].
    + intros a Ha ->%list_elem_of_singleton. done.
    + intros a. rewrite elem_of_app, list_elem_of_singleton. naive_solver.
Qed.

Lemma signing_algs_spec keys :
  NoDup (signing_algs keys) ∧ ∀ a, a ∈ signing_algs keys ↔ ∃ k, k ∈ ks_keys keys ∧ alg_of k = Some a.
Proof.
  unfold signing_algs. destruct keys as [l]. cbn.
  assert (∀ out, NoDup out → NoDup (foldl add_alg out l) ∧
    ∀ a, a ∈ foldl add_alg out l ↔ a ∈ out ∨ ∃ k, k ∈ l ∧ alg_of k = Some a) as Hl.
  { induction l as [|k l IH]; intros out Hn; cbn; [split; [done|set_solver]|].
    destruct (add_alg_spec out k Hn) as [Hn' Ha]. destruct (IH _ Hn') as [Hn'' Hl]. split; [done|].
    intros a. rewrite Hl, Ha. set_solver. }
  destruct (Hl [] (NoDup_nil_2)) as [Hn Ha]. split; [done|]. intros a. rewrite Ha. set_solver.
Qed.

(** Discovery names the algorithm that signs.  The discovery document of a set
    that started lists, without repetition, the algorithms of its keys, and among
    them the one that the active key signs with; it names as issuer the root
    that minted tokens carry. *)
Theorem document_spec (keys : KeySet) (sp : StorageSpace) (r : ContainerUrl)
    (Hkeys : usable keys) (Hr : root sp = Some r) :
  ∃ doc algs, document sp keys = Some doc ∧
    get_str "issuer" doc = Some (graph_iri r) ∧
    v_get "id_token_signing_alg_values_supported" doc = Some (VArray (map VString algs)) ∧ NoDup algs ∧
    (∀ a, a ∈ algs ↔ ∃ k, k ∈ ks_keys keys ∧ alg_of k = Some a) ∧
    ∃ k, head (ks_keys keys) = Some k ∧ signature_alg k ∈ algs.
Proof.
  destruct (signing_algs_spec keys) as [Hn Ha]. unfold document. rewrite Hr. eexists _, (signing_algs keys).
  split; [reflexivity|]. split_and!; [done|done|done|done|].
  destruct Hkeys as [_ (k & ks & s & Ek & Hs)]. exists k. rewrite Ek. split; [done|]. apply Ha. exists k.
  rewrite Ek. split; [by left|]. unfold alg_of, signature_alg, signer_for in *. case_bool_decide as Er; [by rewrite Er|].
  destruct (es256_signer_type _ _ Hs) as (-> & -> & [->| ->]); done.
Qed.
End properties.

(** * A toy keyring

    JSON text is a number in binary, base64 changes nothing, a key is its name,
    and a signature the name of the key. *)
Section json.

Notation leaf := (option (bool + (option Z + string))).

Fixpoint tree_of (v : Value) : gen_tree leaf :=
  match v with
  | VNull => GenLeaf None
  | VBool b => GenLeaf (Some (inl b))
  | VNumber n => GenLeaf (Some (inr (inl n)))
  | VString s => GenLeaf (Some (inr (inr s)))
  | VArray l => GenNode 0 (map tree_of l)
  | VObject m => GenNode 1 (map (λ kv, GenNode 2 [GenLeaf (Some (inr (inr kv.1))); tree_of kv.2]) m)
  end.

Fixpoint value_of (t : gen_tree leaf) : Value :=
  match t with
  | GenLeaf None => VNull
  | GenLeaf (Some (inl b)) => VBool b
  | GenLeaf (Some (inr (inl n))) => VNumber n
  | GenLeaf (Some (inr (inr s))) => VString s
  | GenNode 0 l => VArray (map value_of l)
  | GenNode _ l =>
      VObject (map (λ t, match t with
                         | GenNode _ [GenLeaf (Some (inr (inr k))); t'] => (k, value_of t')
                         | _ => ("", VNull)
                         end) l)
  end.

Lemma value_of_tree v : value_of (tree_of v) = v.
Proof.
  revert v. fix IH 1. intros [| | | |l|m]; simpl; try done.
  - f_equal. induction l as [|v l IHl]; simpl; [done|]. by rewrite IH, IHl.
  - f_equal. induction m as [|[k v] m IHm]; simpl; [done|]. by rewrite IH, IHm.
Qed.

Fixpoint string_positive (s : string) : BinNums.positive :=
  match s with
  | EmptyString => xH
  | String c s => if Ascii.eqb c "1" then xI (string_positive s) else xO (string_positive s)
  end.

Lemma string_positive_string p : string_positive (positive_string p) = p.
Proof. induction p as [p IH|p IH|]; simpl; by rewrite ?IH. Qed.

Lemma positive_string_dot p : contains_char "." (positive_string p) = false.
Proof. by induction p as [p IH|p IH|]; simpl. Qed.

Definition binary_text (v : Value) : string := positive_string (encode (tree_of v)).
Definition binary_parse (s : string) : option Value := value_of <$> decode (string_positive s).

Lemma binary_read_back v : binary_parse (binary_text v) = Some v.
Proof. unfold binary_parse, binary_text. rewrite string_positive_string, decode_encode. simpl. by rewrite value_of_tree. Qed.

Definition binary_encodings : Encodings := {|
  b64_decode := Some;
  b64_encode s := s;
  json_parse := binary_parse;
  json_strings m := foldr (λ kv s, kv.1 +:+ kv.2 +:+ s) "" m;
  sha256_digest s := s
|}.
End json.

Section keyring.
#[local] Existing Instance toy_iri.
#[local] Existing Instance binary_encodings.

Record ToyJwk : Type := mkToyJwk {
  tj_rsa : bool; tj_id : option string; tj_alg : option string; tj_private : bool; tj_name : string
}.

Definition opt_value (o : option string) : Value := match o with Some s => VString s | None => VNull end.

Definition toy_jwk_value (k : ToyJwk) : Value :=
  VObject [("kty", VBool (tj_rsa k)); ("kid", opt_value (tj_id k)); ("alg", opt_value (tj_alg k));
           ("d", VBool (tj_private k)); ("n", VString (tj_name k))].

Definition toy_jwk_read (m : list (string * Value)) : option ToyJwk :=
  match m with
  | [(_, VBool rsa); (_, kid); (_, alg); (_, VBool private); (_, VString name)] =>
      Some (mkToyJwk rsa (as_str kid) (as_str alg) private name)
  | _ => None
  end.

Definition toy_signature (name : string) : string := positive_string (encode name).

Definition toy_open (token name : string) : option (list (string * Value)) :=
  match segments token with
  | Some (_, p, s) => if bool_decide (s = toy_signature name) then binary_parse p ≫= as_object else None
  | None => None
  end.

Definition op_jose : Jose := {|
  Jwk := ToyJwk;
  jwk_from_map := toy_jwk_read;
  jwks_from_value v := match v with VArray l => mapM (λ v, as_object v ≫= toy_jwk_read) l | _ => None end;
  jwk_key_id := tj_id;
  jwk_key_use _ := None;
  jwk_is_for_key_operation _ _ := true;
  jwk_key_type k := if tj_rsa k then "RSA" else "EC";
  jwk_curve k := if tj_rsa k then None else Some "P-256";
  Verifier := string;
  rs256_verifier k := if tj_rsa k then Some (tj_name k) else None;
  es256_verifier k := if tj_rsa k then None else Some (tj_name k);
  jws_verify _ _ _ := true;
  JwtPayload := list (string * Value);
  decode_with_verifier := toy_open;
  payload_claim p n := v_get n (VObject p);
  payload_issuer p := v_get "iss" (VObject p) ≫= as_str
|}.
#[local] Existing Instance op_jose.

Definition toy_encode (p : list (string * Value)) (h : JwsHeader) (name : string) : string :=
  binary_text (VObject [("typ", VString (jh_typ h)); ("kid", VString (jh_kid h))]) +:+ String "."
    (binary_text (VObject p) +:+ String "." (toy_signature name)).

#[local] Instance op_lib : JwkLib := {|
  jwk_map_error _ := "not a key";
  jwk_algorithm := tj_alg;
  jwk_parameter k n := Some (VString (tj_name k));
  jwk_set_algorithm a k := mkToyJwk (tj_rsa k) (tj_id k) (Some a) (tj_private k) (tj_name k);
  jwk_set_key_id i k := mkToyJwk (tj_rsa k) (Some i) (tj_alg k) (tj_private k) (tj_name k);
  jwk_to_public_key k := inr (mkToyJwk (tj_rsa k) None None false (tj_name k));
  jwk_value := toy_jwk_value;
  json_text := binary_text;
  json_error _ := "not JSON";
  Signer := string;
  rs256_signer k := if tj_rsa k && tj_private k then inr (tj_name k) else inl "not an RSA key";
  es256_signer k :=
    if negb (tj_rsa k) && tj_private k && bool_decide (tj_alg k ∈ [None; Some "ES256"]) then inr (tj_name k)
    else inl "not a P-256 key";
  payload_new := [];
  payload_set_issuer i p := ("iss", VString i) :: p;
  payload_set_subject i p := ("sub", VString i) :: p;
  payload_set_claim n v p := if claim_kind n v then Some ((n, v) :: p) else None;
  encode_with_signer p h s := Some (toy_encode p h s)
|}.

Lemma toy_segments p h name : segments (toy_encode p h name) =
  Some (binary_text (VObject [("typ", VString (jh_typ h)); ("kid", VString (jh_kid h))]),
        binary_text (VObject p), toy_signature name).
Proof.
  unfold segments, toy_encode. rewrite !split_char_app by apply positive_string_dot.
  by rewrite split_char_none by apply positive_string_dot.
Qed.

Lemma toy_checks name : checks name name.
Proof.
  intros p h token [= <-]. unfold decode_with_verifier; simpl. unfold toy_open. rewrite toy_segments.
  rewrite bool_decide_eq_true_2 by done. by rewrite binary_read_back.
Qed.

Lemma cons_claim_set n v p : claim_set n v p ((n, v) :: p).
Proof. intros m. simpl. unfold v_get. rewrite filter_cons. simpl. by repeat case_decide. Qed.

Lemma toy_jwk_back k : toy_jwk_read [("kty", VBool (tj_rsa k)); ("kid", opt_value (tj_id k)); ("alg", opt_value (tj_alg k));
           ("d", VBool (tj_private k)); ("n", VString (tj_name k))] = Some k.
Proof. by destruct k as [? [] [] ? ?]. Qed.

#[local] Instance op_laws : JwkLaws.
Proof.
  split; try done; simpl.
  - intros i k p _. by eexists.
  - intros k s. by destruct (tj_rsa k).
  - intros k s. destruct (tj_rsa k), (tj_private k); simpl; try done. case_bool_decide as Ha; [|done].
    intros _. split_and!; [done..|]. set_solver.
  - by intros k p [= <-].
  - by intros k p [= <-].
  - intros k s p Hs [= <-]. simpl. destruct (tj_rsa k), (tj_private k); simpl in *; try done.
    injection Hs as <-. eexists. split; [done|]. apply toy_checks.
  - intros k s p Hs [= <-]. simpl. destruct (tj_rsa k), (tj_private k); simpl in *; try done.
    case_bool_decide; [|done]. injection Hs as <-. eexists. split; [done|]. apply toy_checks.
  - intros k. eexists. split; [done|]. apply toy_jwk_back.
  - intros ks. apply mapM_Some. induction ks as [|k ks IH]; constructor; [apply toy_jwk_back|done].
  - apply binary_read_back.
  - intros i p. apply cons_claim_set.
  - intros i p. apply cons_claim_set.
  - intros n v p ->. eexists. split; [done|]. apply cons_claim_set.
  - intros p h s token [= <-]. rewrite toy_segments. do 7 eexists. split; [done|].
    split_and!; [done|apply binary_read_back|done|done|apply binary_read_back|done].
Qed.

(** A file system of its own, and one key to generate. *)
#[local] Instance toy_host : KeyHost (gmap string string) := {|
  read_to_string p w := (match w !! p with Some t => Ok t | None => Err (mkIoError true "no such file") end, w);
  create_new_file p w := match w !! p with
                         | Some _ => (Err (mkIoError false "file exists"), w)
                         | None => (Ok tt, <[p := ""]> w)
                         end;
  write_all p t w := (Ok tt, <[p := t]> w);
  generate_ec_p256 w := (Ok (mkToyJwk false None None true "fresh"), w)
|}.

#[local] Instance toy_host_laws : KeyHostLaws (gmap string string).
Proof.
  apply (Build_KeyHostLaws _ _ _ _ id).
  - intros p w. unfold wp. simpl. split; [done|]. by destruct (w !! p) eqn:E.
  - intros p w. unfold wp. simpl. by destruct (w !! p) eqn:E.
  - by intros p t w.
  - intros w. unfold wp. simpl. split; [done|]. split; [done|]. by split; eexists.
Defined.

Definition toy_keys : KeySet := mkKeySet [mkToyJwk false (Some "crvfreshktyfreshxfreshyfresh") (Some "ES256") true "fresh"].


Lemma toy_keys_usable : usable toy_keys.
Proof.
  split.
  - constructor; [|constructor]. split; [by left|]. split; [by eexists|by eexists].
  - do 3 eexists. split; reflexivity.
Qed.

Lemma toy_pod_root : root (mkSpace "https://pod.example/") = Some (mkContainerUrl (mkResourceUrl "/" "https://pod.example/")).
Proof. vm_compute. reflexivity. Qed.

(** A token of the pod's, read by the pod. *)
Definition pod_resolver : JwksResolver () :=
  static_resolve {["https://pod.example/" := map public_half (ks_keys toy_keys)]}.
#[local] Existing Instance pod_resolver.


Lemma document_spec_witness :
  ∃ doc, document (mkSpace "https://pod.example/") toy_keys = Some doc ∧
    get_str "issuer" doc = Some "https://pod.example/" ∧
    v_get "id_token_signing_alg_values_supported" doc = Some (VArray [VString "ES256"]).
Proof.
  destruct (document_spec toy_keys (mkSpace "https://pod.example/") _ toy_keys_usable toy_pod_root) as (doc & algs & Hd & Hi & Ha & Hn & Hin & _).
  exists doc. split; [exact Hd|]. split; [exact Hi|]. rewrite Ha. do 2 f_equal.
  assert (algs ≡ₚ ["ES256"]) as ->%Permutation_singleton_r; [|done].
  apply NoDup_Permutation; [done|apply NoDup_singleton|]. intros a. rewrite Hin, list_elem_of_singleton. split.
  - by intros (k & ->%list_elem_of_singleton & [= <-]).
  - intros ->. eexists. split; [by left|done].
Defined.
End keyring.
