(* ===== verification/Config.v ===== *)
(** Configuration ([config.rs]) and the start of the process ([main.rs]): the
    file under the flags, the values the parts are made of, and what refuses
    the start.

    [clap], the [toml] parser, the file system and the constructors of the
    backends are parameters. *)
From S2P Require Import Prelude Str Terms Space Rdf Dataset Patch Store Fetch Jose Cache Issuers.
From S2P Require Import Ip Token Dpop Login Op.
Open Scope list_scope.

(** * [struct Config] *)
Record Config : Type := mkConfig {
  cf_base_uri : StorageSpace;
  cf_owner_webid : string;
  cf_trusted_issuers : list string;
  cf_expected_audience : option string;
  cf_allow_insecure_hosts : list string;
  cf_listen : string;
  cf_reset_root_acl : bool;
  cf_config : option string;
  cf_rdf_store : string;
  cf_blob_store : string;
  cf_op_signing_keys : option string;
  cf_max_body_bytes : Z
}.

(** The arguments: their ids, which are the names of the fields, and their
    long flags. *)
Definition CONFIG_ARGS : list (string * string) :=
  [("base_uri", "base-uri"); ("owner_webid", "owner-webid"); ("trusted_issuers", "trusted-issuer");
   ("expected_audience", "expected-audience"); ("allow_insecure_hosts", "allow-insecure-host");
   ("listen", "listen"); ("reset_root_acl", "reset-root-acl"); ("config", "config"); ("rdf_store", "rdf-store");
   ("blob_store", "blob-store"); ("op_signing_keys", "op-signing-keys"); ("max_body_bytes", "max-body-bytes")].

(** ** The two value parsers *)
Definition parse_space `{IriSyntax} (s : string) : outcome SpaceError StorageSpace := new_space s.

Inductive InvalidOwnerWebId : Type := invalid_owner.

Definition parse_owner_webid `{IriSyntax} (s : string) : outcome InvalidOwnerWebId string :=
  if iri_valid s then Ok s else Err invalid_owner.

(** * The file *)

(** [toml::Value], as far as a field can be one; the rest is [TOther]. *)
Inductive Toml : Type :=
| TomlString (s : string)
| TomlBool (b : bool)
| TomlInteger (n : Z)
| TomlArray (l : list Toml)
| TomlOther.

Record FileConfig : Type := mkFileConfig {
  fc_base_uri : option string;
  fc_owner_webid : option string;
  fc_trusted_issuers : option (list string);
  fc_expected_audience : option string;
  fc_allow_insecure_hosts : option (list string);
  fc_listen : option string;
  fc_reset_root_acl : option bool;
  fc_rdf_store : option string;
  fc_blob_store : option string;
  fc_op_signing_keys : option string;
  fc_max_body_bytes : option Z
}.

Definition toml_string (v : Toml) : option string := match v with TomlString s => Some s | _ => None end.
Definition toml_bool (v : Toml) : option bool := match v with TomlBool b => Some b | _ => None end.
Definition toml_u64 (v : Toml) : option Z :=
  match v with TomlInteger n => if Z.leb 0 n then Some n else None | _ => None end.
Definition toml_strings (v : Toml) : option (list string) :=
  match v with TomlArray l => mapM toml_string l | _ => None end.

Definition FILE_KEYS : list string :=
  ["base_uri"; "owner_webid"; "trusted_issuers"; "expected_audience"; "allow_insecure_hosts"; "listen";
   "reset_root_acl"; "rdf_store"; "blob_store"; "op_signing_keys"; "max_body_bytes"].

(** A field of a deserialized struct: absent, or of its type. *)
Definition field {A} (parse : Toml → option A) (table : gmap string Toml) (key : string) : option (option A) :=
  match table !! key with
  | None => Some None
  | Some v => Some <$> parse v
  end.

(** [#[derive(Deserialize)]] with [deny_unknown_fields]. *)
Definition file_config (table : gmap string Toml) : option FileConfig :=
  if negb (forallb (λ k, bool_decide (k ∈ FILE_KEYS)) (map fst (map_to_list table))) then None else
  base_uri ← field toml_string table "base_uri";
  owner_webid ← field toml_string table "owner_webid";
  trusted_issuers ← field toml_strings table "trusted_issuers";
  expected_audience ← field toml_string table "expected_audience";
  allow_insecure_hosts ← field toml_strings table "allow_insecure_hosts";
  listen ← field toml_string table "listen";
  reset_root_acl ← field toml_bool table "reset_root_acl";
  rdf_store ← field toml_string table "rdf_store";
  blob_store ← field toml_string table "blob_store";
  op_signing_keys ← field toml_string table "op_signing_keys";
  max_body_bytes ← field toml_u64 table "max_body_bytes";
  Some (mkFileConfig base_uri owner_webid trusted_issuers expected_audience allow_insecure_hosts listen
          reset_root_acl rdf_store blob_store op_signing_keys max_body_bytes).

Definition show_bool (b : bool) : string := if b then "true" else "false".

(** [if let Some(v) = value { out.insert(key, render(v)) }]. *)
Definition insert_some {A} (key : string) (render : A → list string) (v : option A)
    (out : gmap string (list string)) : gmap string (list string) :=
  match v with Some v => <[key := render v]> out | None => out end.

Definition singleton_value (s : string) : list string := [s].

Definition as_defaults (f : FileConfig) : gmap string (list string) :=
  let out := foldl (λ out kv, insert_some kv.1 singleton_value kv.2 out) ∅
    [("base_uri", fc_base_uri f); ("owner_webid", fc_owner_webid f); ("expected_audience", fc_expected_audience f);
     ("listen", fc_listen f); ("rdf_store", fc_rdf_store f); ("blob_store", fc_blob_store f);
     ("op_signing_keys", fc_op_signing_keys f)] in
  let out := insert_some "trusted_issuers" id (fc_trusted_issuers f) out in
  let out := insert_some "allow_insecure_hosts" id (fc_allow_insecure_hosts f) out in
  let out := insert_some "reset_root_acl" (λ v, [show_bool v]) (fc_reset_root_acl f) out in
  insert_some "max_body_bytes" (λ v, [pretty v]) (fc_max_body_bytes f) out.

(** * Where the file is *)

(** The loop over the argv: what the first [--config] says. *)
Fixpoint scan_config (args : list string) : option (option string) :=
  match args with
  | [] => None
  | arg :: args =>
      if bool_decide (arg = "--config") then Some (head args) else
      match strip_prefix "--config=" arg with
      | Some rest => Some (Some rest)
      | None => scan_config args
      end
  end.

(** [pod_config] is the environment's [POD_CONFIG]. *)
Definition config_path_from (pod_config : option string) (argv : list string) : option string :=
  match scan_config argv with Some path => path | None => pod_config end.

(** * Errors *)

(** A [clap::Error]: its kind, the strings of the two contexts that are looked
    at, and its text. *)
Record ClapError : Type := mkClapError {
  ce_kind : string;
  ce_invalid_arg : option string;
  ce_invalid_value : option string;
  ce_text : string
}.

(** [clap::Error::raw]. *)
Definition clap_raw (kind text : string) : ClapError := mkClapError kind None None text.

(** [trim_start_matches("--")]. *)
Fixpoint trim_dashes (s : string) : string :=
  match s with
  | String a (String b s') => if Ascii.eqb a "-" && Ascii.eqb b "-" then trim_dashes s' else s
  | _ => s
  end.

(** [split([' ', '=', '<']).next().unwrap()]. *)
Fixpoint until_separator (s : string) : string :=
  match s with
  | EmptyString => ""
  | String a s' =>
      if existsb (Ascii.eqb a) [" "; "="; "<"]%char then "" else String a (until_separator s')
  end.

Definition HELP_LINE : string := "For more information, try '--help'.".

Definition blame_file (err : ClapError) (path : string) (from_file : gmap string (string * list string)) : ClapError :=
  match ce_invalid_arg err with
  | None => err
  | Some arg =>
      match from_file !! until_separator (trim_dashes arg) with
      | None => err
      | Some (key, values) =>
          match ce_invalid_value err with
          | None => err
          | Some bad_value =>
              if negb (bool_decide (bad_value ∈ values)) then err else
              let msg := default (ce_text err) (strip_prefix "error: " (ce_text err)) in
              let msg := trim_end is_whitespace msg in
              let msg := match strip_suffix HELP_LINE msg with
                         | Some stripped => trim_end is_whitespace stripped
                         | None => msg
                         end in
              clap_raw (ce_kind err) (path +:+ ": `" +:+ key +:+ "`: " +:+ msg +:+ NL)
          end
      end
  end.

(** * Loading *)

(** The file system, the [toml] crate, and [clap] with the environment. *)
Class Process : Type := {
  file_text : string → string + string;
  toml_table : string → string + gmap string Toml;
  toml_shape_error : gmap string Toml → string;
  ArgMatches : Type;
  (** [Config::command] with these defaults, none of them required. *)
  try_get_matches_from : gmap string (list string) → list string → ClapError + ArgMatches;
  from_arg_matches : ArgMatches → ClapError + Config
}.

Section load.
Context `{Process}.

(** [FileConfig::read]. *)
Definition read_file (path : string) : outcome ClapError FileConfig :=
  let? text := of_sum (λ e, clap_raw "Io" ("--config " +:+ path +:+ ": " +:+ e +:+ NL)) (file_text path) in
  let refuse e := clap_raw "InvalidValue" ("--config " +:+ path +:+ ": " +:+ e +:+ NL) in
  let? table := of_sum refuse (toml_table text) in
  ok_or (refuse (toml_shape_error table)) (file_config table).

(** What the file supplied, by long flag. *)
Definition supplied (defaults : gmap string (list string)) : gmap string (string * list string) :=
  list_to_map (omap (λ arg, values ← defaults !! arg.1; Some (arg.2, (arg.1, values))) CONFIG_ARGS).

Definition try_load_from (pod_config : option string) (argv : list string) : outcome ClapError Config :=
  match config_path_from pod_config argv with
  | None =>
      let? matches := of_sum id (try_get_matches_from ∅ argv) in
      of_sum id (from_arg_matches matches)
  | Some path =>
      let? file := read_file path in
      let defaults := as_defaults file in
      let? matches := of_sum (λ e, blame_file e path (supplied defaults)) (try_get_matches_from defaults argv) in
      of_sum id (from_arg_matches matches)
  end.
End load.

(** * What the values become *)
Definition listed (l : list string) : list string := filter (λ s, s ≠ "") (map trim l).

Definition auth_config (cfg : Config) : AuthConfig :=
  let set : gset string := list_to_set (listed (cf_trusted_issuers cfg)) in
  mkAuthConfig (if bool_decide (set = ∅) then None else Some set) (cf_expected_audience cfg).

Definition try_fetch_policy `{UrlLib} (cfg : Config) : FetchPolicy * list string :=
  try_with_insecure_hosts (listed (cf_allow_insecure_hosts cfg)).

Definition fetch_policy `{UrlLib} (cfg : Config) : FetchPolicy := (try_fetch_policy cfg).1.

(** The constructors of the backends, with what their errors say. *)
Class Backends : Type := {
  Blobs : Type;
  blobs_in_memory : Blobs;
  local_file_system : string → string + Blobs;
  RdfStore : Type;
  oxigraph_new : string + RdfStore;
  oxigraph_open : string → string + RdfStore
}.

Section backends.
Context `{Backends}.

(** The constructors of the backends, and how their errors are displayed. *)
Definition object_store_local (root : string) : outcome BlobError Blobs := of_sum BlobBackend (local_file_system root).
Definition oxigraph_store_in_memory : outcome StoreError RdfStore := of_sum StoreBackend oxigraph_new.
Definition oxigraph_store_open (dir : string) : outcome StoreError RdfStore := of_sum StoreBackend (oxigraph_open dir).

Definition show_blob_backend (e : BlobError) : string := let '(BlobBackend msg) := e in "blob backend error: " +:+ msg.
Definition show_store_backend (e : StoreError) : string := let '(StoreBackend msg) := e in "store backend error: " +:+ msg.

Definition blobs (cfg : Config) : outcome string Blobs :=
  let spec := trim (cf_blob_store cfg) in
  if bool_decide (spec = "memory") then Ok blobs_in_memory else
  match strip_prefix "local:" spec with
  | Some dir => omap_err (λ e, "--blob-store local: " +:+ show_blob_backend e) (object_store_local dir)
  | None => Err ("--blob-store: expected `memory` or `local:<dir>`, got `" +:+ spec +:+ "`")
  end.

Definition rdf_store (cfg : Config) : outcome string RdfStore :=
  let spec := trim (cf_rdf_store cfg) in
  if bool_decide (spec = "memory") then omap_err (λ e, "--rdf-store memory: " +:+ show_store_backend e) oxigraph_store_in_memory else
  match strip_prefix "rocksdb:" spec with
  | Some dir => omap_err (λ e, "--rdf-store rocksdb: " +:+ show_store_backend e) (oxigraph_store_open dir)
  | None => Err ("--rdf-store: expected `memory` or `rocksdb:<dir>`, got `" +:+ spec +:+ "`")
  end.
End backends.

(** [KeyError]'s [Display]. *)
Definition show_key_error (e : KeyError) : string :=
  match e with
  | KeyIo path source => "reading " +:+ path +:+ ": " +:+ source
  | KeyMalformed path reason => path +:+ " is not a JWK set: " +:+ reason
  | KeyEmpty path => path +:+ " holds no keys"
  end.

(** [s.split_once(p)] of a string. *)
Fixpoint split_once_str (p s : string) : option (string * string) :=
  match strip_prefix p s with
  | Some rest => Some ("", rest)
  | None =>
      match s with
      | EmptyString => None
      | String a s' => '(h, t) ← split_once_str p s'; Some (String a h, t)
      end
  end.

(** Nothing but slashes after the authority. *)
Definition origin_root (root : string) : bool :=
  let after_scheme := match split_once_str "://" root with Some (_, rest) => rest | None => root end in
  negb (contains_char "/" (trim_end (Ascii.eqb "/") after_scheme)).

Section op_keys.
Context `{IriSyntax} `{Encodings} `{Jose} `{!JwkLib} {W : Type} `{!KeyHost W}.

Definition op_keys (cfg : Config) : M W string (option KeySet) :=
  match cf_op_signing_keys cfg with
  | None => ret None
  | Some path =>
      match root (cf_base_uri cfg) with
      | None => panic
      | Some r =>
          let root := graph_iri r in
          if negb (origin_root root)
          then throw ("--op-signing-keys: the OP serves /.well-known/ off the origin, " +:+
                      "which needs an origin-root base URI; got `" +:+ root +:+ "`")
          else
            let! keys := map_err (λ e, "--op-signing-keys: " +:+ show_key_error e) (load_or_generate path) in
            ret (Some keys)
      end
  end.
End op_keys.

(** * [main] *)

(** [AppState], as far as it is made from the configuration. *)
Record AppState `{Backends} `{Jose} : Type := mkAppState {
  as_store : RdfStore;
  as_blobs : Blobs;
  as_space : StorageSpace;
  as_fetch_policy : FetchPolicy;
  as_auth_config : AuthConfig;
  as_max_body_bytes : Z;
  as_op_keys : option KeySet
}.

Section main.
Context `{IriSyntax} `{UrlLib} `{Backends} `{Encodings} `{Jose} `{!JwkLib} {W : Type} `{!KeyHost W}.

(** From the configuration to the state, or to what is printed before exit 2. *)
Definition prepare (cfg : Config) : M W (list string) AppState :=
  let (policy, rejected) := try_fetch_policy cfg in
  if negb (bool_decide (rejected = []))
  then throw (map (λ entry, "invalid --allow-insecure-host entry: " +:+ insecure_host_rejection_hint entry) rejected)
  else
    let! blobs := map_err singleton_value (lift (blobs cfg)) in
    let! store := map_err singleton_value (lift (rdf_store cfg)) in
    let! keys := map_err singleton_value (op_keys cfg) in
    ret (mkAppState _ _ store blobs (cf_base_uri cfg) policy (auth_config cfg) (cf_max_body_bytes cfg) keys).
End main.

(** * Properties of the file *)

(** A value as the strings [clap] is to parse. *)
Definition toml_rendered (v : Toml) : option (list string) :=
  match v with
  | TomlString s => Some [s]
  | TomlBool b => Some [show_bool b]
  | TomlInteger n => Some [pretty n]
  | TomlArray l => mapM toml_string l
  | TomlOther => None
  end.

(** What the file says of a key is the default of the argument. *)
Definition heard (v : option Toml) (d : option (list string)) : Prop :=
  match v, d with
  | None, None => True
  | Some v, Some values => toml_rendered v = Some values
  | _, _ => False
  end.

Lemma field_heard {A} (parse : Toml → option A) (render : A → list string) table key o :
  (∀ v x, parse v = Some x → toml_rendered v = Some (render x)) →
  field parse table key = Some o → heard (table !! key) (render <$> o).
Proof.
  intros Hp. unfold field, heard. destruct (table !! key) as [v|]; [|by intros [= <-]].
  destruct (parse v) as [x|] eqn:E; [|done]. intros [= <-]. simpl. by apply Hp.
Qed.

Lemma string_rendered v x : toml_string v = Some x → toml_rendered v = Some (singleton_value x).
Proof. by destruct v; intros [= <-]. Qed.
Lemma bool_rendered v x : toml_bool v = Some x → toml_rendered v = Some [show_bool x].
Proof. by destruct v; intros [= <-]. Qed.
Lemma u64_rendered v x : toml_u64 v = Some x → toml_rendered v = Some [pretty x].
Proof. destruct v; simpl; try done. destruct (Z.leb 0 n); [|done]. by intros [= <-]. Qed.
Lemma strings_rendered v x : toml_strings v = Some x → toml_rendered v = Some (id x).
Proof. by destruct v. Qed.

Lemma insert_some_lookup {A} key (r : A → list string) v out k :
  insert_some key r v out !! k =
  match (if decide (k = key) then r <$> v else None) with Some x => Some x | None => out !! k end.
Proof.
  unfold insert_some. destruct v as [x|]; case_decide as E; [subst; apply lookup_insert_eq|by apply lookup_insert_ne|done..].
Qed.

(** A default per key. *)
Definition file_default (f : FileConfig) (key : string) : option (list string) :=
  if decide (key = "base_uri") then singleton_value <$> fc_base_uri f
  else if decide (key = "owner_webid") then singleton_value <$> fc_owner_webid f
  else if decide (key = "trusted_issuers") then id <$> fc_trusted_issuers f
  else if decide (key = "expected_audience") then singleton_value <$> fc_expected_audience f
  else if decide (key = "allow_insecure_hosts") then id <$> fc_allow_insecure_hosts f
  else if decide (key = "listen") then singleton_value <$> fc_listen f
  else if decide (key = "reset_root_acl") then (λ v, [show_bool v]) <$> fc_reset_root_acl f
  else if decide (key = "rdf_store") then singleton_value <$> fc_rdf_store f
  else if decide (key = "blob_store") then singleton_value <$> fc_blob_store f
  else if decide (key = "op_signing_keys") then singleton_value <$> fc_op_signing_keys f
  else if decide (key = "max_body_bytes") then (λ v, [pretty v]) <$> fc_max_body_bytes f
  else None.

Lemma file_default_other f key : key ∉ FILE_KEYS → as_defaults f !! key = None ∧ file_default f key = None.
Proof.
  intros Hk. unfold as_defaults, file_default. cbn [foldl fst snd]. rewrite !insert_some_lookup, lookup_empty.
  unfold FILE_KEYS in Hk. rewrite !not_elem_of_cons in Hk.
  destruct Hk as (? & ? & ? & ? & ? & ? & ? & ? & ? & ? & ? & _). by rewrite !decide_False by done.
Qed.

Lemma as_defaults_lookup f key : as_defaults f !! key = file_default f key.
Proof.
  destruct (decide (key ∈ FILE_KEYS)) as [Hk|Hk].
  - unfold as_defaults. cbn [foldl fst snd]. rewrite !insert_some_lookup, lookup_empty.
    unfold FILE_KEYS in Hk. rewrite !elem_of_cons in Hk.
    destruct_or! Hk; [subst key; destruct f; vm_compute; by case_match..|by apply elem_of_nil in Hk].
  - by destruct (file_default_other f key Hk) as [-> ->].
Qed.

Lemma known_keys (table : gmap string Toml) key v :
  forallb (λ k, bool_decide (k ∈ FILE_KEYS)) (map fst (map_to_list table)) = true → table !! key = Some v →
  key ∈ FILE_KEYS.
Proof.
  rewrite forallb_forall. intros Hall Hv. apply (bool_decide_eq_true (key ∈ FILE_KEYS)), Hall.
  apply list_elem_of_In, list_elem_of_fmap. exists (key, v). split; [done|]. by apply elem_of_map_to_list.
Qed.

Lemma file_keys_args k : k ∈ FILE_KEYS → k ∈ map fst CONFIG_ARGS.
Proof.
  revert k. apply (proj1 (Forall_forall (λ k, k ∈ map fst CONFIG_ARGS) FILE_KEYS)), (bool_decide_unpack _).
  vm_compute. exact I.
Qed.

(** Every key of the file is known, and is the default of its argument. *)
Lemma file_config_heard (table : gmap string Toml) f key :
  file_config table = Some f → heard (table !! key) (as_defaults f !! key).
Proof.
  unfold file_config. destruct (forallb _ _) eqn:Hkeys; [|done]. cbn [negb]. intros Hf.
  repeat (apply bind_Some in Hf as (? & ? & Hf)). injection Hf as <-. rewrite as_defaults_lookup.
  destruct (decide (key ∈ FILE_KEYS)) as [Hk|Hk].
  - unfold FILE_KEYS in Hk. rewrite !elem_of_cons in Hk.
    destruct_or! Hk; [subst key; eapply field_heard; [|eassumption]; first
      [exact string_rendered|exact bool_rendered|exact u64_rendered|exact strings_rendered]..|by apply elem_of_nil in Hk].
  - rewrite (proj2 (file_default_other _ key Hk)). destruct (table !! key) eqn:E; [|done].
    destruct Hk. by eapply known_keys.
Qed.

(** No start with less than the file says.  If a configuration was loaded with
    a [--config] path, the file was read and every key in it is an argument
    of the command line, whose default [clap] was given as the file has it, and
    nothing else was; an unknown key, a value of the wrong type or an unreadable
    file refuse the start. *)
Theorem load_hears_file `{Process} (pod_config : option string) (argv : list string) (path : string) (cfg : Config)
    (Hpath : config_path_from pod_config argv = Some path) (Hload : try_load_from pod_config argv = Ok cfg) :
  ∃ text table defaults matches,
    file_text path = inr text ∧ toml_table text = inr table ∧
    (∀ key, heard (table !! key) (defaults !! key)) ∧
    (∀ key, is_Some (table !! key) → key ∈ map fst CONFIG_ARGS) ∧
    try_get_matches_from defaults argv = inr matches ∧ from_arg_matches matches = inr cfg.
Proof.
  unfold try_load_from in Hload. rewrite Hpath in Hload. apply obind_Ok in Hload as (f & Hf & Hload).
  unfold read_file in Hf. destruct (file_text path) as [e|text] eqn:Et; [done|]. cbn in Hf.
  destruct (toml_table text) as [e|table] eqn:Eb; [done|]. cbn in Hf. apply ok_or_Ok in Hf.
  cbv zeta in Hload. apply obind_Ok in Hload as (m & Em & Ec).
  destruct (try_get_matches_from (as_defaults f) argv) as [e|m'] eqn:Em'; [done|]. injection Em as ->.
  destruct (from_arg_matches m) as [e|c] eqn:Ec'; [done|]. injection Ec as ->.
  exists text, table, (as_defaults f), m. split_and!; [done|done| | |done|done].
  - intros key. by apply file_config_heard.
  - intros key [v Hv]. unfold file_config in Hf. destruct (forallb _ _) eqn:Hk; [|done].
    pose proof (known_keys _ _ _ Hk Hv) as Hin. by apply file_keys_args.
Qed.

(** ** Errors *)
Lemma supplied_lookup (defaults : gmap string (list string)) (l : list (string * string)) key long :
  NoDup (map snd l) → (key, long) ∈ l →
  (list_to_map (omap (λ arg, values ← defaults !! arg.1; Some (arg.2, (arg.1, values))) l)
    : gmap string (string * list string)) !! long = pair key <$> defaults !! key.
Proof.
  induction l as [|[k s] l IH]; [by intros _ ?%elem_of_nil|]. cbn [map snd]. intros [Hs Hn]%NoDup_cons.
  assert (∀ k', (k', s) ∉ l) as Hfresh.
  { intros k' Hin. apply Hs, list_elem_of_fmap. by exists (k', s). }
  assert (∀ l', (∀ k', (k', s) ∉ l') →
    (list_to_map (omap (λ arg, values ← defaults !! arg.1; Some (arg.2, (arg.1, values))) l')
    : gmap string (string * list string)) !! s = None) as Hnone.
  { intros l' Hl. apply not_elem_of_list_to_map_1. intros (x & Hx & Hin)%list_elem_of_fmap.
    apply list_elem_of_omap in Hin as ([k' s'] & Hin & Hv). simpl in Hv.
    destruct (defaults !! k'); simplify_eq/=. by destruct (Hl k'). }
  intros [[= -> ->]|Hin]%elem_of_cons.
  - simpl. destruct (defaults !! k) as [v|] eqn:E; simpl; [apply lookup_insert_eq|by apply Hnone].
  - assert (long ≠ s) as Hne by (intros ->; by destruct (Hfresh key)).
    simpl. destruct (defaults !! k); simpl; [rewrite lookup_insert_ne by done|]; by apply IH.
Qed.

Lemma long_flag key long rest : (key, long) ∈ CONFIG_ARGS →
  (rest = "" ∨ ∃ c t, rest = String c t ∧ c ∈ [" "; "="; "<"]%char) →
  until_separator (trim_dashes ("--" +:+ long +:+ rest)) = long.
Proof.
  intros Hin Hrest. assert (until_separator rest = "") as Hr.
  { destruct Hrest as [->|(c & t & -> & Hc)]; [done|]. simpl.
    rewrite !elem_of_cons in Hc. by destruct_or! Hc; subst; [..|apply elem_of_nil in Hc]. }
  unfold CONFIG_ARGS in Hin. rewrite !elem_of_cons in Hin.
  destruct_or! Hin; [injection Hin as -> ->; rewrite !app_cons_s, !app_nil_l_s; simpl; by rewrite Hr..|by apply elem_of_nil in Hin].
Qed.

(** The file is blamed for its own values only.  For an error of [clap]'s about
    a flag, the message is rewritten to name the file and its key exactly when
    the file set that key and the rejected value is one it gave; any other
    error is passed on as it is. *)
Theorem blame_file_spec (err : ClapError) (path key long rest bad : string) (defaults : gmap string (list string))
    (Harg : (key, long) ∈ CONFIG_ARGS)
    (Hrest : rest = "" ∨ ∃ c t, rest = String c t ∧ c ∈ [" "; "="; "<"]%char)
    (Hflag : ce_invalid_arg err = Some ("--" +:+ long +:+ rest)) (Hbad : ce_invalid_value err = Some bad) :
  (∀ values, defaults !! key = Some values → bad ∈ values →
    ∃ msg, blame_file err path (supplied defaults) = clap_raw (ce_kind err) (path +:+ ": `" +:+ key +:+ "`: " +:+ msg)) ∧
  ((∀ values, defaults !! key = Some values → bad ∉ values) → blame_file err path (supplied defaults) = err).
Proof.
  unfold blame_file. rewrite Hflag, (long_flag _ _ _ Harg Hrest). unfold supplied.
  rewrite (supplied_lookup defaults CONFIG_ARGS key long); [|by apply (bool_decide_unpack _); vm_compute|done].
  destruct (defaults !! key) as [values|]; simpl; [rewrite Hbad|done]. split.
  - intros ? [= <-] Hin. rewrite bool_decide_eq_true_2 by done. simpl. by eexists.
  - intros Hno. rewrite bool_decide_eq_false_2 by (by apply Hno). done.
Qed.

(** * Properties of the values *)

Definition slashes (n : nat) : string := Nat.iter n (String "/") "".

Lemma trim_slashes_iff s :
  contains_char "/" (trim_end (Ascii.eqb "/") s) = false ↔ ∃ a n, s = a +:+ slashes n ∧ contains_char "/" a = false.
Proof.
  induction s as [|c s IH].
  - split; [by exists "", 0|done].
  - assert (trim_end (Ascii.eqb "/") s = "" ↔ ∃ n, s = slashes n) as Hall.
    { clear. induction s as [|c s IH]; [split; [by exists 0|done]|]. cbn [trim_end].
      destruct (trim_end (Ascii.eqb "/") s) as [|x t].
      - destruct (proj1 IH eq_refl) as [n ->]. destruct (Ascii.eqb_spec "/" c) as [<-|Hc]; split; try done.
        + intros _. by exists (S n).
        + intros [[|m] E]; [done|]. simpl in E. congruence.
      - split; [done|]. intros [[|m] E]; [done|]. injection E as -> E. discriminate (proj2 IH (ex_intro _ m E)). }
    cbn [trim_end]. destruct (trim_end (Ascii.eqb "/") s) as [|x t] eqn:Et.
    + destruct (proj1 Hall eq_refl) as [n ->]. destruct (Ascii.eqb_spec "/" c) as [<-|Hc].
      * split; [|done]. intros _. by exists "", (S n).
      * cbn [contains_char]. rewrite (proj2 (Ascii.eqb_neq c "/")) by congruence. split; [|done]. intros _. exists (String c ""), n.
        split; [done|]. cbn [contains_char]. by rewrite (proj2 (Ascii.eqb_neq c "/")) by congruence.
    + change (contains_char "/" (String c (String x t)) = false ↔ ∃ a n, String c s = a +:+ slashes n ∧ contains_char "/" a = false).
      cbn [contains_char]. cbn [contains_char] in IH. rewrite orb_false_iff, IH. split.
      * intros [Hc (a & n & -> & Ha)]. exists (String c a), n. split; [done|]. cbn. by rewrite Hc, Ha.
      * intros ([|b a] & n & E & Ha).
        -- destruct n as [|n]; [done|]. injection E as -> ->. discriminate (proj2 Hall (ex_intro _ n eq_refl)).
        -- injection E as -> ->. cbn in Ha. apply orb_false_iff in Ha as [Hb Ha]. split; [done|]. by exists a, n.
Qed.

(** A base URI without a path: an authority, and slashes. *)
Definition at_origin (b : string) : Prop :=
  ∃ scheme authority n, b = scheme +:+ "://" +:+ authority +:+ slashes n ∧ scheme ∈ ["http"; "https"] ∧
    contains_char "/" authority = false.

Lemma origin_root_iff `{IriSyntax} sp : space_wf sp → origin_root (base sp) = true ↔ at_origin (base sp).
Proof.
  intros Hsp. assert (∃ scheme rest, base sp = scheme +:+ "://" +:+ rest ∧ scheme ∈ ["http"; "https"]) as (scheme & rest & Hb & Hs).
  { unfold space_wf, new_space in Hsp. destruct (starts_with "http://" (base sp)) eqn:E1.
    - apply starts_with_true in E1 as [t ->]. exists "http", t. split; [done|by left].
    - destruct (starts_with "https://" (base sp)) eqn:E2; [|done].
      apply starts_with_true in E2 as [t ->]. exists "https", t. split; [done|by right; left]. }
  assert (∀ scheme' t, scheme' ∈ ["http"; "https"] → split_once_str "://" (scheme' +:+ "://" +:+ t) = Some (scheme', t)) as Hsplit.
  { intros s t Hin. rewrite !elem_of_cons, elem_of_nil in Hin. by destruct_or! Hin; subst. }
  unfold origin_root. rewrite Hb, (Hsplit _ _ Hs), negb_true_iff, trim_slashes_iff. split.
  - intros (a & n & -> & Ha). by exists scheme, a, n.
  - intros (s & a & n & E & Hin & Ha). apply (f_equal (split_once_str "://")) in E. rewrite !Hsplit in E by done.
    injection E as _ ->. by exists a, n.
Qed.

Lemma root_graph `{IriSyntax} sp r : space_wf sp → root sp = Some r → graph_iri r = base sp.
Proof.
  intros Hsp. unfold root. destruct (resolve sp "/") as [[|c|]| |] eqn:E; try done. intros [= ->].
  destruct (resolve_Ok_inv sp "/" _ Hsp E) as (_ & [_ Hi] & _ & _ & _ & Hp & _). cbn in Hi, Hp.
  unfold graph_iri, container_graph. unfold c_path in Hp. by rewrite Hi, Hp, (stem_base sp Hsp).
Qed.

(** The provider starts at an origin only.  With [--op-signing-keys], a base URI
    that has more than an authority and slashes refuses the start before the key
    file is looked at, and names the URI; at any other the keys are loaded, and
    the root that tokens name as issuer is the base URI.  The slashes may be
    several, and the discovery routes are then not below the issuer. *)
Theorem op_needs_the_origin `{IriSyntax} `{Encodings} `{Jose} `{!JwkLib} {W : Type} `{!KeyHost W} (cfg : Config)
    (path : string) (r : ContainerUrl) (w : W)
    (Hsp : space_wf (cf_base_uri cfg)) (Hr : root (cf_base_uri cfg) = Some r) (Hop : cf_op_signing_keys cfg = Some path) :
  graph_iri r = base (cf_base_uri cfg) ∧
  (at_origin (graph_iri r) →
     op_keys cfg w = (let! keys := map_err (λ e, "--op-signing-keys: " +:+ show_key_error e) (load_or_generate path) in
                      ret (Some keys)) w) ∧
  (¬ at_origin (graph_iri r) → ∃ m, op_keys cfg w = (Err (m +:+ graph_iri r +:+ "`"), w)).
Proof.
  pose proof (root_graph _ _ Hsp Hr) as Hg. split; [done|]. unfold op_keys. rewrite Hop, Hr.
  rewrite Hg. pose proof (origin_root_iff _ Hsp) as Ho. split; intros Ha.
  - by rewrite (proj2 Ho Ha).
  - destruct (origin_root (base (cf_base_uri cfg))); [by destruct Ha; apply Ho|].
    cbn [negb]. eexists. unfold throw. do 2 f_equal. by rewrite <- app_assoc_s.
Qed.

(** ** The operator's exceptions *)
Lemma rsplit_once_last c h t : contains_char c t = false → rsplit_once c (h +:+ String c t) = Some (h, t).
Proof.
  intros Ht. assert (∀ t, contains_char c t = false → rsplit_once c t = None) as Hnone.
  { clear. induction t as [|x t IH]; [done|]. cbn. intros [Hx Ht]%orb_false_iff. by rewrite IH, Hx. }
  induction h as [|a h IH].
  - rewrite app_nil_l_s. cbn [rsplit_once]. by rewrite Hnone, Ascii.eqb_refl.
  - rewrite app_cons_s. cbn [rsplit_once]. by rewrite IH.
Qed.

Lemma port_no_char c s n : parse_u16 s = Some n → is_ascii_digit c = false → Ascii.eqb "+" c = false → contains_char c s = false.
Proof.
  intros Hp Hd Hc. assert (∀ b, all_digits b = true → contains_char c b = false) as Hb.
  { induction b as [|x b IH]; [done|]. cbn. intros [Hx Hb]%andb_true_iff. rewrite (IH Hb).
    by destruct (Ascii.eqb_spec x c) as [->|]; [rewrite Hx in Hd|]. }
  unfold parse_u16 in Hp. revert Hp. cbv zeta. set (body := match s with "" => _ | _ => _ end).
  destruct (all_digits body) eqn:E; [|by rewrite orb_true_r]. intros _. specialize (Hb _ E).
  unfold body in Hb. destruct s as [|x s]; [done|]. cbn [contains_char] in Hb |- *.
  destruct (Ascii.eqb_spec x "+") as [->|Hx]; [by rewrite Hc|].
  revert Hb. by destruct x as [[] [] [] [] [] [] [] []].
Qed.

Lemma ends_in c d a b p : a +:+ String c p = b +:+ String d "" → c ≠ d → contains_char d p = true.
Proof.
  intros E Hne. revert b E. induction a as [|x a IH]; intros [|y b] E.
  - by injection E as ->.
  - injection E as _ ->. rewrite contains_char_app. cbn [contains_char]. by rewrite Ascii.eqb_refl, orb_true_r.
  - injection E as _ E. by destruct a.
  - injection E as _ E. by apply (IH b).
Qed.

(** An exception for every port was typed without one. *)
Lemma port_kept `{UrlLib} entry host h p n :
  parse_insecure_host_entry entry = Some (host, None) → trim entry = h +:+ ":" +:+ p → parse_u16 p = Some n →
  is_Some (parse_ipv6 (trim entry)) ∧ parse_ipv6 h = None.
Proof.
  unfold parse_insecure_host_entry. intros Hp E Hn. rewrite E in Hp |- *.
  assert (contains_char ":" p = false) as Hc by (by eapply port_no_char).
  assert (contains_char "]" p = false) as Hb by (by eapply port_no_char).
  destruct (bool_decide _); [done|]. destruct (ambiguous_entry _) eqn:Ha; [done|].
  apply bind_Some in Hp as ([authority port] & Hauth & Hp). apply bind_Some in Hp as (u & _ & Hp).
  destruct (negb _); [done|]. apply bind_Some in Hp as (host' & _ & [= -> ->]).
  unfold entry_authority in Hauth. unfold ambiguous_entry in Ha.
  change (":" +:+ p) with (String ":" p) in *. rewrite (rsplit_once_last _ _ _ Hc) in *.
  destruct (strip_prefix "[" _) as [rest|] eqn:Es.
  - apply bind_Some in Hauth as ([x tail] & Ht & Hauth). case_bool_decide as Etail.
    + exfalso. apply strip_prefix_Some in Es. subst tail.
      assert (∀ s a b, split_once "]" s = Some (a, b) → s = a +:+ String "]" b) as Hsplit.
      { clear. induction s as [|c s IH]; [done|]. intros a b. cbn [split_once].
        destruct (Ascii.eqb_spec c "]") as [->|]; [by intros [= <- <-]|].
        destruct (split_once "]" s) as [[a' b']|] eqn:E; [|done]. intros [= <- <-]. by rewrite app_cons_s, <- (IH a' b'). }
      apply Hsplit in Ht as ->. assert (contains_char "]" p = true); [|congruence].
      change ("[" +:+ (x +:+ String "]" "")) with (String "[" x +:+ String "]" "") in Es. by eapply ends_in.
    + apply bind_Some in Hauth as (t & _ & Hauth). by apply bind_Some in Hauth as (? & _ & [= ]).
  - destruct (parse_ipv6 (h +:+ String ":" p)) as [ip|] eqn:E6; cbn in Ha, Hauth.
    + split; [done|]. rewrite Hn in Ha. by destruct (parse_ipv6 h).
    + rewrite Hn in Hauth. simpl in Hauth. discriminate Hauth.
Qed.

Section policy.
Context `{UrlLib}.

Lemma permits_insecure_iff hosts host port :
  permits_insecure (try_with_insecure_hosts hosts).1 host port = true ↔
  ∃ entry, entry ∈ hosts ∧ (parse_insecure_host_entry entry = Some (host, None) ∨
                            parse_insecure_host_entry entry = Some (host, Some port)).
Proof.
  unfold permits_insecure, try_with_insecure_hosts. cbn. rewrite orb_true_iff, !bool_decide_eq_true.
  rewrite !elem_of_list_to_set, !list_elem_of_omap. naive_solver.
Qed.

Lemma rejected_iff hosts entry :
  entry ∈ (try_with_insecure_hosts hosts).2 ↔ entry ∈ hosts ∧ parse_insecure_host_entry entry = None.
Proof. unfold try_with_insecure_hosts. cbn. rewrite list_elem_of_filter. tauto. Qed.
End policy.

(** The operator's exceptions are the ones that were typed.  If [main] goes on
    from a configuration, every entry of [--allow-insecure-host] that is not blank was
    understood; a host and port are exempted exactly when an entry names the host
    alone or with that port, and nothing else is relaxed; and no entry that ends in a
    port is widened to all ports, unless it is as a whole an IPv6 address
    whose beginning is none. *)
Theorem prepared_exceptions `{IriSyntax} `{UrlLib} `{Backends} `{Encodings} `{Jose} `{!JwkLib} {W : Type} `{!KeyHost W}
    (cfg : Config) (w : W) :
  wp (prepare cfg) (λ o _, ∀ st, o = Ok st →
    allow_http (as_fetch_policy st) = false ∧ allow_private_ips (as_fetch_policy st) = false ∧
    (∀ entry, entry ∈ listed (cf_allow_insecure_hosts cfg) → is_Some (parse_insecure_host_entry entry)) ∧
    (∀ host port, permits_insecure (as_fetch_policy st) host port = true ↔
       ∃ entry, entry ∈ listed (cf_allow_insecure_hosts cfg) ∧
         (parse_insecure_host_entry entry = Some (host, None) ∨
          parse_insecure_host_entry entry = Some (host, Some port))) ∧
    (∀ entry host h p n, entry ∈ listed (cf_allow_insecure_hosts cfg) →
       parse_insecure_host_entry entry = Some (host, None) → trim entry = h +:+ ":" +:+ p → parse_u16 p = Some n →
       is_Some (parse_ipv6 (trim entry)) ∧ parse_ipv6 h = None)) w.
Proof.
  unfold prepare. destruct (try_fetch_policy cfg) as [policy rejected] eqn:Et.
  unfold try_fetch_policy in Et. set (hosts := listed _) in *.
  pose proof (permits_insecure_iff hosts) as Hpermits. pose proof (rejected_iff hosts) as Hrejected.
  assert (allow_http policy = false ∧ allow_private_ips policy = false) as [Hh Hp] by (by injection Et as <- _).
  rewrite Et in Hpermits, Hrejected. cbn in Hpermits, Hrejected. case_bool_decide as Er; [|by intros st].
  cbn [negb]. apply wp_bind, wp_map_err, wp_lift. destruct (blobs cfg) as [b|e|]; [|done..]. cbn.
  apply wp_bind, wp_map_err, wp_lift. destruct (rdf_store cfg) as [s|e|]; [|done..]. cbn.
  apply wp_bind, wp_map_err. unfold wp. destruct (op_keys cfg w) as [[keys|e|] w1]; cbn; [|done..].
  intros st [= <-]. cbn. split_and!; [done|done| |exact Hpermits|].
  - intros entry Hin. destruct (parse_insecure_host_entry entry) eqn:E; [done|].
    assert (entry ∈ rejected) as Hx by (by apply Hrejected). rewrite Er in Hx. by apply elem_of_nil in Hx.
  - intros entry host h p n _. apply port_kept.
Qed.

(** * Witnesses *)
Section witnesses.
#[local] Existing Instance toy_iri.
#[local] Existing Instance toy_urls.
#[local] Existing Instance binary_encodings.
#[local] Existing Instance op_jose.
#[local] Existing Instance op_lib.
#[local] Existing Instance toy_host.

Definition toy_table : gmap string Toml :=
  <["owner_webid" := TomlString "https://owner.example/#me"]> {["max_body_bytes" := TomlInteger 10]}.

Definition toy_cfg : Config :=
  mkConfig (mkSpace "https://pod.example/") "https://owner.example/#me" [] None [" css.local:3001 "; ""] "127.0.0.1:3000" false
    (Some "pod.toml") "memory" "local:blobs" (Some "keys.json") 10.

(** A command line that takes what it is given. *)
#[local] Instance toy_process : Process := {|
  file_text p := if bool_decide (p = "pod.toml") then inr "text" else inl "no such file";
  toml_table _ := inr toy_table;
  toml_shape_error _ := "unknown key";
  ArgMatches := gmap string (list string);
  try_get_matches_from d _ := inr d;
  from_arg_matches _ := inr toy_cfg
|}.

Lemma load_hears_file_witness :
  ∃ defaults : gmap string (list string), defaults !! "max_body_bytes" = Some ["10"] ∧ defaults !! "listen" = None ∧
    defaults !! "owner_webid" = Some ["https://owner.example/#me"].
Proof.
  assert (config_path_from None ["quadpod"; "--config=pod.toml"] = Some "pod.toml") as Hp by reflexivity.
  assert (try_load_from None ["quadpod"; "--config=pod.toml"] = Ok toy_cfg) as Hl by (vm_compute; reflexivity).
  destruct (load_hears_file None ["quadpod"; "--config=pod.toml"] "pod.toml" toy_cfg Hp Hl)
    as (text & table & defaults & m & Ht & Htab & Hh & _). injection Htab as <-.
  assert (∀ key values, toy_table !! key ≫= toml_rendered = Some values → defaults !! key = Some values) as Hk.
  { intros key values Hv. specialize (Hh key). unfold heard in Hh. destruct (toy_table !! key) as [v|]; [|discriminate Hv].
    destruct (defaults !! key) as [d|]; [|by destruct Hh]. simpl in Hv. congruence. }
  exists defaults. split; [apply Hk; vm_compute; reflexivity|]. split; [|apply Hk; vm_compute; reflexivity].
  specialize (Hh "listen"). assert (toy_table !! "listen" = None) as E by (vm_compute; reflexivity).
  unfold heard in Hh. rewrite E in Hh. destruct (defaults !! "listen"); [by destruct Hh|reflexivity].
Defined.

(** A bad address in the file, and the same flag with another value. *)
Definition listen_error (value : string) : ClapError :=
  mkClapError "ValueValidation" (Some "--listen <LISTEN>") (Some value) "error: bad".

Lemma blame_file_spec_witness :
  (∃ msg, blame_file (listen_error "nowhere") "pod.toml"
     (supplied {["listen" := ["nowhere"]]}) = clap_raw "ValueValidation" ("pod.toml: `listen`: " +:+ msg)) ∧
  blame_file (listen_error "here") "pod.toml" (supplied {["listen" := ["nowhere"]]}) = listen_error "here".
Proof.
  assert (("listen", "listen") ∈ CONFIG_ARGS) as Ha by (apply (bool_decide_unpack _); vm_compute; exact I).
  assert (" <LISTEN>" = "" ∨ ∃ c t, " <LISTEN>" = String c t ∧ c ∈ [" "; "="; "<"]%char) as Hr
    by (right; exists " "%char, "<LISTEN>"; split; [reflexivity|by left]).
  split.
  - refine (proj1 (blame_file_spec (listen_error "nowhere") "pod.toml" "listen" "listen" " <LISTEN>" "nowhere" {["listen" := ["nowhere"]]} Ha Hr eq_refl eq_refl)
      ["nowhere"] _ _); [reflexivity|by left].
  - refine (proj2 (blame_file_spec (listen_error "here") "pod.toml" "listen" "listen" " <LISTEN>" "here" {["listen" := ["nowhere"]]} Ha Hr eq_refl eq_refl) _).
    intros values Hv. assert (values = ["nowhere"]) as -> by (vm_compute in Hv; congruence).
    by intros ?%list_elem_of_singleton.
Defined.

(** A base URI with two slashes is at an origin. *)
Lemma op_needs_the_origin_witness :
  let cfg b := mkConfig (mkSpace b) "https://owner.example/#me" [] None [] "127.0.0.1:3000" false None "memory" "memory"
                 (Some "keys.json") 10 in
  (∃ m, op_keys (cfg "https://pod.example/alice/") (∅ : gmap string string) = (Err (m +:+ "https://pod.example/alice/`"), ∅)) ∧
  (op_keys (cfg "https://pod.example//") (∅ : gmap string string)).1 = Ok (Some toy_keys).
Proof.
  intros cfg. split.
  - assert (space_wf (mkSpace "https://pod.example/alice/")) as Hs by (vm_compute; reflexivity).
    assert (root (mkSpace "https://pod.example/alice/") =
      Some (mkContainerUrl (mkResourceUrl "/" "https://pod.example/alice/"))) as Hr by (vm_compute; reflexivity).
    destruct (op_needs_the_origin (cfg "https://pod.example/alice/") "keys.json" _ (∅ : gmap string string) Hs Hr eq_refl)
      as (_ & _ & Hno). apply Hno. intros Ho%(origin_root_iff _ Hs). vm_compute in Ho. discriminate Ho.
  - assert (space_wf (mkSpace "https://pod.example//")) as Hs by (vm_compute; reflexivity).
    assert (root (mkSpace "https://pod.example//") =
      Some (mkContainerUrl (mkResourceUrl "/" "https://pod.example//"))) as Hr by (vm_compute; reflexivity).
    destruct (op_needs_the_origin (cfg "https://pod.example//") "keys.json" _ (∅ : gmap string string) Hs Hr eq_refl)
      as (_ & Hyes & _). rewrite Hyes; [vm_compute; reflexivity|]. apply (origin_root_iff _ Hs). vm_compute. reflexivity.
Defined.

#[local] Instance toy_backends : Backends := {|
  Blobs := string; blobs_in_memory := "memory"; local_file_system := inr;
  RdfStore := string; oxigraph_new := inr "memory"; oxigraph_open := inr
|}.

Lemma prepared_exceptions_witness :
  ∃ st, (prepare toy_cfg (∅ : gmap string string)).1 = Ok st ∧
    permits_insecure (as_fetch_policy st) "css.local" 3001 = true ∧
    permits_insecure (as_fetch_policy st) "css.local" 80 = false.
Proof.
  pose proof (prepared_exceptions toy_cfg (∅ : gmap string string)) as Hx. unfold wp in Hx.
  assert (∃ st, (prepare toy_cfg (∅ : gmap string string)).1 = Ok st) as [st Hst] by (eexists; vm_compute; reflexivity).
  exists st. split; [exact Hst|]. destruct (Hx st Hst) as (_ & _ & _ & Hp & _).
  assert (listed (cf_allow_insecure_hosts toy_cfg) = ["css.local:3001"]) as Hl by (vm_compute; reflexivity).
  assert (parse_insecure_host_entry "css.local:3001" = Some ("css.local", Some 3001%Z)) as He by (vm_compute; reflexivity).
  rewrite Hl in Hp. split.
  - apply Hp. exists "css.local:3001". split; [by left|by right].
  - destruct (permits_insecure _ _ 80) eqn:E; [|reflexivity].
    apply Hp in E as (entry & ->%list_elem_of_singleton & [E|E]); rewrite He in E; discriminate E.
Defined.
End witnesses.
