(* ===== verification/Start.v ===== *)
(** The start of the process ([main] of [main.rs]), from the configuration to
    the first request: the root container, its ACL, and the owner who is let
    in. *)
From S2P Require Import Prelude Str Terms Space Rdf Dataset Patch Store Mem Resource Container.
From S2P Require Import Auxiliary Pdp Guard Reads Steps Edge Fetch Jose Op Config.
Open Scope list_scope.

(** [m.await.expect(..)]. *)
Definition expect {W E F A : Type} (m : M W E A) : M W F A :=
  λ w, match m w with (Ok a, w') => (Ok a, w') | (_, w') => (Panicked, w') end.

Section main.
Context {W : Type} `{Backend W} `{IriSyntax} `{RdfLib} `{UrlLib} `{Backends} `{Encodings} `{Jose} `{!JwkLib}
  `{!KeyHost W}.

(** [main], up to the socket: the state that is served, or what is printed
    before the process exits. *)
Definition main (uuid : nat → string) (cfg : Config) : M W (list string) AppState :=
  let! state := prepare cfg in
  match root (as_space state) with
  | None => panic
  | Some r =>
      do! expect (provision_root r) in
      do! expect (provision_root_acl uuid (as_space state) (cf_owner_webid cfg) (cf_reset_root_acl cfg)) in
      ret state
  end.
End main.

Lemma wp_expect {W E F A} (m : M W E A) (Φ : outcome F A → W → Prop) w :
  wp m (λ o w', match o with Ok a => Φ (Ok a) w' | _ => Φ Panicked w' end) w → wp (expect m) Φ w.
Proof. unfold wp, expect. by destruct (m w) as [[] ?]. Qed.

(** * The root ACL *)

(** What its Turtle says, in the order of the text. *)
Definition root_acl (acl owner root : string) : list triple :=
  let say p o := Triple (SNamed (acl +:+ "#owner")) p (TNamed o) in
  [say RDF_TYPE ACL_AUTHORIZATION; say ACL_AGENT owner; say ACL_ACCESS_TO root; say ACL_DEFAULT root;
   say ACL_MODE ACL_READ; say ACL_MODE ACL_WRITE; say ACL_MODE ACL_CONTROL].

(** Triples of IRIs alone are ground, and RDF 1.1. *)
Definition all_named (t : triple) : Prop := ∃ s o, t_subject t = SNamed s ∧ t_object t = TNamed o.

Lemma named_skolemized uuid ts m : Forall all_named ts →
  map triple_of_ground (ground_quads uuid (as_quads ts) m).1 = ts.
Proof.
  intros Hts. revert m. induction Hts as [|[s p o] ts (s' & o' & Es & Eo) _ IH]; intros m; [done|].
  cbn in Es, Eo. subst s o. cbn. specialize (IH m). fold (as_quads ts).
  destruct (ground_quads uuid (as_quads ts) m) as [d m']. cbn in *. by f_equal.
Qed.

Lemma named_version d : Forall (λ q, all_named (triple_of_quad q)) d → rdf_version d = Rdf11.
Proof.
  unfold rdf_version. induction 1 as [|q d (s & o & _ & Eo) _ IH]; [done|]. cbn in Eo. cbn. by rewrite Eo.
Qed.

Lemma root_acl_named acl owner r : Forall all_named (root_acl acl owner r).
Proof. unfold root_acl. repeat constructor; eexists _, _; done. Qed.

Section provision.
Context {W : Type} `{BackendLaws W} `{IriSyntax} `{RdfLib}.
Context (sp : StorageSpace) (Hsp : space_wf sp) (r : ContainerUrl) (Hroot : root sp = Some r).
Context (uuid : nat → string) (owner : string).

Notation iri := (graph_iri r).
Notation acl := (acl_of (as_resource r)).

(** The Turtle parser reads the text of the root ACL. *)
Definition turtle_reads_root_acl : Prop :=
  ∃ quads, rdf_parse Turtle acl (root_acl_turtle owner iri) = inr quads ∧
           triples_of quads ≡ₚ root_acl acl owner iri.

(** ** The store a start leaves *)

(** Nothing is changed but the graphs of the root, of its ACL, and their
    system graphs. *)
Definition beside (G G' : gset located) : Prop :=
  ∀ x, x.1 ∉ [iri; sys_graph_iri iri; acl; sys_graph_iri acl] → x ∈ G' ↔ x ∈ G.

Definition acl_kept (G G' : gset located) : Prop :=
  (present_at acl ∈ G' ↔ present_at acl ∈ G) ∧ ∀ t, (acl, t) ∈ G' ↔ (acl, t) ∈ G.

(** The root's ACL says exactly what is provisioned. *)
Definition acl_granted (G : gset located) : Prop :=
  present_at acl ∈ G ∧ ∀ t, (acl, t) ∈ G ↔ t ∈ root_acl acl owner iri.

(** Whatever happens, at any moment of a start. *)
Definition underway (w w' : W) : Prop :=
  objects w' = objects w ∧ beside (graphs w) (graphs w') ∧
  (acl_kept (graphs w) (graphs w') ∨ acl_granted (graphs w')).

Lemma root_in : url_in sp (as_resource r).
Proof.
  revert Hroot. unfold root. destruct (resolve sp "/") as [[|c|]| |] eqn:E; intros [=]; subst.
  by apply (resolve_plain_subject sp _ _ Hsp) in E as [? _].
Qed.

Lemma root_web : web iri.
Proof. apply (url_web sp); [done|apply root_in]. Qed.

Lemma acl_web : web acl.
Proof. apply (aux_web sp); [done|apply root_in]. Qed.

Lemma acl_not_root : acl ≠ iri.
Proof.
  assert (plain sp (as_resource r)) as Hp.
  { revert Hroot. unfold root. destruct (resolve sp "/") as [[|c|]| |] eqn:E; intros [=]; subst.
    by apply (resolve_plain_subject sp _ _ Hsp) in E. }
  apply (aux_not_plain sp); [done|apply root_in].
Qed.

Lemma acl_not_root_sys : sys_graph_iri acl ≠ sys_graph_iri iri.
Proof. intros E%sys_graph_inj. by apply acl_not_root. Qed.

Lemma underway_refl w : underway w w.
Proof. split; [done|]. split; [done|]. by left. Qed.

Lemma underway_same w w1 w2 : underway w w1 → same w1 w2 → underway w w2.
Proof. unfold underway. by intros ? [-> ->]. Qed.

(** ** The root container *)
Lemma marked_kept w w' ts : graphs w' = run_ops (insert_marked_ops iri ts) (graphs w) → acl_kept (graphs w) (graphs w').
Proof.
  intros G'. pose proof acl_web as Hw. split; [|intros t]; rewrite G', elem_of_marked; cbn [fst snd].
  - split; [|auto]. intros [[E _]|[E|?]]; [| |done].
    + by apply eq_sym, (web_not_sys _ _ root_web) in E.
    + by apply (f_equal fst), acl_not_root_sys in E.
  - split; [|auto]. intros [[? _]|[E|?]]; [by destruct acl_not_root| |done].
    apply (f_equal fst) in E. by apply web_not_sys in E.
Qed.

Lemma marked_underway w w1 w2 ts : underway w w1 →
  graphs w2 = run_ops (insert_marked_ops iri ts) (graphs w1) → objects w2 = objects w1 → underway w w2.
Proof.
  intros (Ho & Hb & Ha) G2 O2. destruct (marked_kept w1 w2 ts G2) as [Hp Ht].
  split; [congruence|]. split.
  - intros x Hx. rewrite G2, elem_of_marked, <- (Hb x Hx). split; [|auto].
    intros [[E _]|[->|?]]; [| |done]; exfalso; apply Hx; [rewrite E; by left|by right; left].
  - destruct Ha as [[A1 A2]|[A1 A2]]; [left; split; [by rewrite Hp|intros t; by rewrite Ht]|].
    right. split; [by apply Hp|]. intros t. by rewrite Ht.
Qed.

Lemma wp_root_container w0 w : underway w0 w →
  wp (ensure_container r) (λ o w', underway w0 w' ∧
    match o with
    | Ok _ => present_at iri ∈ graphs w' ∧ acl_kept (graphs w) (graphs w')
    | Err _ => True
    | Panicked => False
    end) w.
Proof.
  intros Hu. apply wp_ensure_container.
  - intros w' G' O'. split; [by eapply marked_underway|]. split; [rewrite G', elem_of_marked; by right; left|].
    by eapply marked_kept.
  - intros e w' [G'|G'] O'; (split; [|done]); [by eapply underway_same|by eapply marked_underway].
Qed.

(** ** The ACL *)
Lemma root_acl_parsed : turtle_reads_root_acl →
  ∃ d, parse Turtle (root_acl_turtle owner iri) acl Rdf11 = Ok d ∧ triples_of d ≡ₚ root_acl acl owner iri.
Proof.
  intros (quads & Hq & Hp). exists quads. split; [|done]. unfold parse. rewrite Hq.
  assert (rdf_version quads = Rdf11) as ->; [|done]. apply named_version.
  apply Forall_forall. intros q Hin.
  assert (triple_of_quad q ∈ root_acl acl owner iri) as Hx
    by (rewrite <- Hp; apply list_elem_of_fmap; by exists q).
  by apply (Forall_forall _ _) with (2 := Hx), root_acl_named.
Qed.

(** Writing it, under a root that is there. *)
Lemma acl_written w0 w w' ts : underway w0 w → ts ≡ₚ root_acl acl owner iri → present_at iri ∈ graphs w →
  graphs w' = run_ops (conditional_put_update uuid (aux (as_resource r) Acl) ts) (graphs w) →
  objects w' = objects w →
  underway w0 w' ∧ present_at iri ∈ graphs w' ∧ acl_granted (graphs w').
Proof.
  intros (Ho & Hb & _) Hts Hp G' O'. pose proof acl_web as Hw.
  unfold conditional_put_update in G'. rewrite conditional_put_run in G' by done.
  unfold skolemize in G'. rewrite named_skolemized in G' by (rewrite Hts; apply root_acl_named).
  change (graph_iri (aux (as_resource r) Acl)) with acl in G'.
  rewrite bool_decide_eq_true_2 in G' by done.
  assert (∀ x, x ∈ graphs w' ↔ (x ∈ graphs w ∧ x.1 ≠ acl) ∨ (x.1 = acl ∧ x.2 ∈ root_acl acl owner iri) ∨ x = present_at acl) as Hx.
  { intros x. rewrite G', elem_of_union, elem_of_filter, elem_of_list_to_set, elem_of_app, elem_of_in_graph,
      list_elem_of_singleton, Hts. tauto. }
  assert (acl_granted (graphs w')) as Hg.
  { split; [apply Hx; by right; right|]. intros t. rewrite Hx. cbn [fst snd].
    split; [|by right; left]. intros [[_ ?]|[[_ ?]|E]]; [done|done|]. apply (f_equal fst) in E. by apply web_not_sys in E. }
  split; [|split; [|done]].
  - split; [congruence|]. split; [|by right]. intros x Hn. rewrite Hx, (Hb x Hn). split; [|left; split; [done|set_solver]].
    intros [[? _]|[[E _]|E]]; [done|exfalso; set_solver|]. subst x. exfalso. apply Hn. cbn [fst present_at]. do 3 right. by left.
  - apply Hx. left. split; [done|]. intros E. cbn [fst present_at] in E. by apply eq_sym, web_not_sys in E.
Qed.

Lemma wp_provision_root_acl (reset : bool) w0 w : turtle_reads_root_acl → underway w0 w →
  wp (provision_root_acl uuid sp owner reset) (λ o w', underway w0 w' ∧
    match o with
    | Ok _ => if bool_decide (present_at acl ∈ graphs w) && negb reset then same w w'
              else present_at iri ∈ graphs w' ∧ acl_granted (graphs w')
    | Err _ => True
    | Panicked => False
    end) w.
Proof.
  intros Hturtle Hu. unfold provision_root_acl. rewrite Hroot.
  change (graph_iri (aux (as_resource r) Acl)) with acl.
  apply wp_bind, wp_exists; [|by intros e w' Hs; split; [eapply underway_same|]].
  intros w1 Hs1. assert (underway w0 w1) as Hu1 by (by eapply underway_same).
  destruct (bool_decide _ && negb reset) eqn:Ek; [by apply wp_ret|].
  apply wp_bind. eapply wp_wand; [by apply (wp_root_container w0)|].
  intros [[]|e|] w2 [Hu2 Hok]; [|done|done]. destruct Hok as [Hp2 _].
  destruct (root_acl_parsed Hturtle) as (d & Hd & Hts).
  assert (from_content_type "text/turtle" = Some Turtle) as -> by reflexivity. rewrite Hd.
  apply wp_bind, wp_lift. cbn [omap_err]. apply wp_bind, wp_attempt.
  unfold aux_put. assert (length (triples_of d) = 7) as El by (by rewrite Hts). rewrite El.
  change (Nat.ltb MAX_AUX_TRIPLES 7) with false. cbv iota.
  pose proof (acl_written w0 w2) as Hwr. pose proof (underway_same w0 w2) as Hsame.
  apply wp_bind, wp_map_err, wp_store_op, wp_update.
  - intros w3 G3 O3. destruct (Hwr w3 _ Hu2 Hts Hp2 G3 O3) as (Hu3 & Hp3 & Hg3). cbn [omap_err].
    change (graph_iri (aux (as_resource r) Acl)) with acl. apply wp_bind, wp_map_err, wp_exists.
    + intros w4 Hs4. destruct (id Hs4) as [G4 _]. cbn [omap_err]. rewrite bool_decide_eq_true_2 by apply Hg3. cbn [negb].
      apply wp_ret, wp_ret. split; [by eapply underway_same|]. by rewrite G4.
    + intros e w4 Hs4. cbn. split; [by eapply underway_same|done].
  - intros e w3 [G3|G3] O3; cbn; (split; [|done]); [by apply Hsame|by eapply Hwr].
Qed.

(** ** Who is let in *)

(** The provisioned ACL permits its owner everything. *)
Lemma granted_permits G m inh : acl_granted G → permits (acl_states G (as_resource r)) (WebId owner) iri inh m.
Proof.
  intros [_ Hg]. exists (SNamed (acl +:+ "#owner")). unfold acl_states. rewrite !Hg. unfold root_acl.
  split; [destruct inh; [by do 3 right; left|by do 2 right; left]|].
  split; [right; right; by right; left|].
  destruct m; [left; by do 4 right; left|left; by do 5 right; left|right; split; [done|by do 5 right; left]|left; by do 6 right; left].
Qed.

Lemma root_on_chain s : url_in sp s → as_resource r ∈ chain_of s.
Proof.
  intros Hs. pose proof root_in as Hr. assert (r_path (as_resource r) = "/") as Hp.
  { revert Hroot. unfold root. destruct (resolve sp "/") as [[|c|]| |] eqn:E; intros [=]; subst.
    by destruct (resolve_Ok_inv sp "/" _ Hsp E) as (_ & _ & _ & _ & _ & Hp & _). }
  destruct (decide (r_path s = "/")) as [Es|Es].
  - assert (as_resource r = s) as -> by (apply (url_in_eq sp); [done..|congruence]). by left.
  - right. apply list_elem_of_fmap. exists r. split; [done|].
    pose proof (ancestors_root sp s Hs Es) as Hl. apply last_Some_elem_of in Hl.
    assert (r = mkContainerUrl (mkResourceUrl "/" (stem sp +:+ "/"))) as ->; [|done].
    destruct r as [[p i]]. cbn in *. subst p. f_equal. f_equal. by apply (url_iri sp _ Hr).
Qed.

Lemma granted_may G target m : url_in sp (subject_of target) → acl_granted G →
  (∀ x, x ∈ chain_of (subject_of target) → present_at (acl_of x) ∈ G → x = as_resource r) →
  may G (WebId owner) target m.
Proof.
  intros Hin Hg Hno. pose proof (root_on_chain _ Hin) as Hr.
  destruct (list_find_elem_of (λ x, x = as_resource r) _ _ Hr eq_refl) as [[i x] Hf].
  apply list_find_Some in Hf as (Hi & -> & Hbefore).
  exists (as_resource r), (Nat.ltb 0 i). split; [|by apply granted_permits].
  exists i. split; [done|]. split; [apply Hg|]. split; [done|]. intros j x Hj Hx Hp.
  apply (Hbefore j x Hx Hj), Hno; [by eapply list_elem_of_lookup_2|done].
Qed.
End provision.

(** * From the configuration to the first request *)

(** The files of the process are not its stores. *)
Class KeysBeside (W : Type) `{BackendLaws W} `{Jose} `{!KeyHost W} : Prop := {
  kb_read w0 p : keeps (same w0) (read_to_string p) (λ _, True);
  kb_create w0 p : keeps (same w0) (create_new_file p) (λ _, True);
  kb_write w0 p t : keeps (same w0) (write_all p t) (λ _, True);
  kb_generate w0 : keeps (same w0) generate_ec_p256 (λ _, True)
}.

Section main_laws.
Context {W : Type} `{BackendLaws W} `{IriSyntax} `{RdfLib} `{UrlLib} `{Backends} `{Encodings} `{Jose} `{!JwkLib}
  `{!KeyHost W} `{!KeysBeside W}.
#[local] Hint Resolve kb_read kb_create kb_write kb_generate : keeps.

Lemma prepare_beside cfg (w0 : W) : keeps (same w0) (prepare cfg) (λ st, as_space st = cf_base_uri cfg).
Proof.
  unfold prepare, op_keys, load_or_generate, generate_keys. destruct (try_fetch_policy cfg) as [policy rejected].
  follow.
Qed.

(** C23: whoever starts the pod can use it.  From any store, a start either stops
    before it touches the stores, or serves a pod whose root container and root
    ACL are there; every other graph, and every object, is as it was.  A root
    ACL that was there is left as it is, unless the operator asked for a reset;
    otherwise it says exactly that the owner has every mode on the root and
    below, and from then on the owner's requests are granted whatever they ask,
    wherever no nearer ACL was there before.  A start that dies on the way
    leaves the root ACL as it was or as the next start would write it. *)
Theorem main_lets_its_owner_in (uuid : nat → string) (cfg : Config) (r : ContainerUrl) (w : W)
    (Hsp : space_wf (cf_base_uri cfg)) (Hroot : root (cf_base_uri cfg) = Some r)
    (Hturtle : turtle_reads_root_acl r (cf_owner_webid cfg)) :
  let acl := acl_of (as_resource r) in
  let owner := WebId (cf_owner_webid cfg) in
  wp (main uuid cfg) (λ o w',
    objects w' = objects w ∧ beside r (graphs w) (graphs w') ∧
    match o with
    | Ok st =>
        as_space st = cf_base_uri cfg ∧ present_at (graph_iri r) ∈ graphs w' ∧ present_at acl ∈ graphs w' ∧
        if bool_decide (present_at acl ∈ graphs w) && negb (cf_reset_root_acl cfg)
        then ∀ t, (acl, t) ∈ graphs w' ↔ (acl, t) ∈ graphs w
        else (∀ t, (acl, t) ∈ graphs w' ↔ t ∈ root_acl acl (cf_owner_webid cfg) (graph_iri r)) ∧
             ∀ target, url_in (as_space st) (subject_of target) →
               (∀ x, x ∈ chain_of (subject_of target) → present_at (acl_of x) ∈ graphs w → x = as_resource r) →
               wp (probe owner target) (λ o _,
                 match o with
                 | Ok g => ∀ m, ∃ d, authorize g m = Ok d
                 | Err (StoreDenial _) => True
                 | _ => False
                 end) w'
    | Err _ => graphs w' = graphs w
    | Panicked => acl_kept r (graphs w) (graphs w') ∨ acl_granted r (cf_owner_webid cfg) (graphs w')
    end) w.
Proof.
  cbv zeta. set (acl := acl_of (as_resource r)). set (sp := cf_base_uri cfg) in *. set (owner := cf_owner_webid cfg) in *.
  apply wp_bind. destruct (prepare_beside cfg w w (same_refl w)) as [Hs Hsp1]. unfold wp at 1.
  destruct (prepare cfg w) as [[st|e|] w1]; cbn [fst snd] in *.
  2,3: destruct Hs as [G1 O1]; rewrite G1; split; [done|split; [by intros x _|]].
  2: done. 2: by left; split.
  rewrite (Hsp1 st eq_refl). fold sp. rewrite Hroot.
  assert (underway r owner w w1) as Hu by (eapply underway_same; [apply underway_refl|done]).
  apply wp_bind, wp_expect. eapply wp_wand; [by apply (wp_root_container sp Hsp r Hroot owner w)|].
  intros [[]|e|] w2 [Hu2 Hok]; [|by destruct Hu2 as (? & ? & ?)|by destruct Hu2 as (? & ? & ?)].
  destruct Hok as [Hp2 [Hk2 Ht2]]. destruct Hs as [G1 _]. rewrite G1 in Hk2, Ht2. fold acl in Hk2, Ht2.
  apply wp_bind, wp_expect.
  eapply wp_wand; [by apply (wp_provision_root_acl sp Hsp r Hroot uuid owner (cf_reset_root_acl cfg) w)|].
  fold acl. rewrite (bool_decide_ext _ _ Hk2).
  intros [[]|e|] w3 [(O3 & B3 & A3) Hok]; [|by split|by split].
  apply wp_ret. split; [done|]. split; [done|]. split; [by apply Hsp1|].
  destruct (bool_decide _ && negb _) eqn:Ek.
  - destruct Hok as [G3 _]. rewrite G3. split; [done|]. split; [|done].
    apply andb_true_iff in Ek as [Ek%bool_decide_eq_true _]. by apply Hk2.
  - destruct Hok as [Hp3 Hg3]. split; [done|]. split; [apply Hg3|]. split; [apply Hg3|].
    rewrite (Hsp1 st eq_refl). fold sp. intros target Hin Hno.
    assert (∀ m, may (graphs w3) (WebId owner) target m) as Hmay.
    { intros m. apply (granted_may sp Hsp r Hroot owner); [done..|]. intros x Hx Hp.
      destruct (decide (x = as_resource r)) as [|Hne]; [done|]. apply Hno; [done|]. apply B3; [|done].
      pose proof (chain_of_in sp _ Hin _ Hx) as Hxin. pose proof (root_in sp Hsp r Hroot) as Hr.
      intros Hown. cbn [fst present_at] in Hown. rewrite !elem_of_cons, elem_of_nil in Hown.
      destruct Hown as [E|[E%sys_graph_inj|[E|[E%sys_graph_inj|[]]]]].
      - by apply eq_sym, (web_not_sys _ _ (root_web sp Hsp r Hroot)) in E.
      - by apply (aux_not_plain sp (as_resource r) x Acl) in E; [|apply (root_plain sp Hsp)|].
      - by apply eq_sym, (web_not_sys _ _ (acl_web sp Hsp r Hroot)) in E.
      - by apply Hne, (aux_graph_inj sp _ _ Acl Acl Hxin Hr). }
    eapply wp_wand; [by apply (wp_probe sp)|]. intros [g|[]|] w4 Ho; try done.
    destruct Ho as (Ea & Et & Ec & Hf & _). intros m. pose proof (authorize_may _ g m Hf) as Hd.
    rewrite Ea, Et, Ec in Hd. specialize (Hd eq_refl). destruct (authorize g m) as [d|e|]; [by exists d| |done].
    destruct Hd as [_ Hd]. by destruct (Hd (Hmay m)).
Qed.
End main_laws.

(** * Witness *)
Section witness.
#[local] Existing Instance toy_iri.
#[local] Existing Instance toy_urls.
#[local] Existing Instance binary_encodings.
#[local] Existing Instance op_jose.
#[local] Existing Instance op_lib.
#[local] Existing Instance toy_host.
#[local] Existing Instance toy_backends.

(** A store in memory beside a file system. *)
Definition on_files {E A} (m : M (gmap string string) E A) : M (Mem (gmap string string)) E A :=
  λ w, let (o, fs) := m (m_extra w) in (o, mkMem (m_triples w) (m_objects w) (m_faults w) fs).

#[local] Instance host_beside : KeyHost (Mem (gmap string string)) := {|
  read_to_string p := on_files (read_to_string p);
  create_new_file p := on_files (create_new_file p);
  write_all p t := on_files (write_all p t);
  generate_ec_p256 := on_files generate_ec_p256
|}.

Lemma on_files_same {E A} w0 (m : M (gmap string string) E A) : keeps (same w0) (on_files m) (λ _, True).
Proof. intros w Hw. unfold on_files. by destruct (m (m_extra w)). Qed.

#[local] Instance host_is_beside : KeysBeside (Mem (gmap string string)).
Proof. split; intros; apply on_files_same. Qed.

(** Turtle, as far as one authorization of IRIs goes. *)
Definition iris_of (text : string) : list string :=
  omap (λ piece, fst <$> split_once ">"%char piece) (tail (split_char "<"%char text)).

Definition toy_turtle : RdfLib := {|
  rdf_formats _ := false;
  rdf_parse _ base bytes :=
    match iris_of bytes with
    | _ :: _ :: _ :: owner :: _ :: root :: _ => inr (map (quad_of_triple GDefault) (root_acl base owner root))
    | _ => inl "syntax error"
    end;
  rdf_serialize _ _ := inl "not here"
|}.
#[local] Existing Instance toy_turtle.

(** From an empty store, the owner is let in at a resource of the pod. *)
Lemma main_lets_its_owner_in_witness :
  let r := mkContainerUrl toy_root in
  let w := mkMem [] ∅ [] ∅ : Mem (gmap string string) in
  ∃ st w', main toy_uuid toy_cfg w = (Ok st, w') ∧
    (∀ t, (acl_of toy_root, t) ∈ graphs w' ↔ t ∈ root_acl (acl_of toy_root) "https://owner.example/#me" (graph_iri r)) ∧
    ∃ g d w'', probe (WebId "https://owner.example/#me") (TResource toy_url) w' = (Ok g, w'') ∧ authorize g Control = Ok d.
Proof.
  intros r w.
  assert (space_wf (cf_base_uri toy_cfg)) as Hsp by (vm_compute; reflexivity).
  assert (root (cf_base_uri toy_cfg) = Some r) as Hroot by (vm_compute; reflexivity).
  assert (turtle_reads_root_acl r (cf_owner_webid toy_cfg)) as Ht.
  { exists (map (quad_of_triple GDefault) (root_acl (acl_of toy_root) "https://owner.example/#me" (graph_iri r))).
    split; [vm_compute; reflexivity|]. apply (reflexivity (R:=Permutation)). }
  pose proof (main_lets_its_owner_in toy_uuid toy_cfg r w Hsp Hroot Ht) as Hx. cbv zeta in Hx. unfold wp at 1 in Hx.
  assert (match (main toy_uuid toy_cfg w).1 with Ok _ => true | _ => false end = true) as E by (vm_compute; reflexivity).
  assert (match (probe (WebId "https://owner.example/#me") (TResource toy_url) (main toy_uuid toy_cfg w).2).1 with
          | Ok _ => true | _ => false end = true) as E2 by (vm_compute; reflexivity).
  destruct (main toy_uuid toy_cfg w) as [[st|e|] w']; [|discriminate E..]. cbn [fst snd] in *.
  exists st, w'. split; [reflexivity|]. destruct Hx as (_ & _ & Hst & _ & _ & Ha & Hlet). split; [exact Ha|].
  assert (url_in (as_space st) (subject_of (TResource toy_url))) as Hin by (rewrite Hst; exact toy_url_in).
  specialize (Hlet (TResource toy_url) Hin). unfold wp in Hlet.
  destruct (probe (WebId "https://owner.example/#me") (TResource toy_url) w') as [[g|e|] w''] eqn:Ep; [|discriminate E2..].
  assert (∀ x, x ∈ chain_of (subject_of (TResource toy_url)) → present_at (acl_of x) ∈ graphs w → x = as_resource r) as Hno
    by (intros x _ Hp; by apply not_elem_of_empty in Hp).
  change (cf_owner_webid toy_cfg) with "https://owner.example/#me" in Hlet. rewrite Ep in Hlet.
  destruct (Hlet Hno Control) as [d Hd]. exists g, d, w''. split; [reflexivity|exact Hd].
Defined.
End witness.
