(* ===== verification/Router.v ===== *)
(** The whole pod as one service ([router] and [handle_well_known] of
    [http.rs]): the layers in front of the routes, the routes, and what holds
    of every request.

    The framework's own part ([axum]: path parameters, body limit, answers
    of its own) is a parameter. *)
From S2P Require Import Prelude Str Terms Space Rdf Dataset Patch Store Mem Resource Container.
From S2P Require Import Auxiliary Pdp Guard Shapes Notify Http HttpWrite HttpRead Reads Toy Steps.
From S2P Require Import Edge Ip Fetch Jose Cache Issuers Token Dpop Login Op.
Open Scope list_scope.

Class Axum : Type := {
  (** The capture of a wildcard, percent-decoded; the answer where it is not
      UTF-8. *)
  path_param : string → string + Response;
  (** A body over the limit. *)
  over_limit : Z → string → option Response;
  (** No route, no method of the route; [GET]'s answer to a [HEAD]. *)
  no_route : Response;
  no_method : Response;
  without_body : Response → Response
}.

Record HttpRequest : Type := mkHttpRequest {
  hr_method : string;
  hr_path : string;
  hr_query : option string;
  hr_headers : Headers;
  hr_body : string
}.

(** The routes, on the raw path: the wildcards want a non-empty capture, and
    a literal segment goes before them. *)
Inductive Route : Type :=
| RouteRoot
| RouteWellKnown (rest : option string)
| RoutePath (path : string).

Definition route_of (path : string) : option Route :=
  if bool_decide (path = "/") then Some RouteRoot else
  if bool_decide (path ∈ ["/.well-known"; "/.well-known/"]) then Some (RouteWellKnown None) else
  match strip_prefix "/.well-known/" path with
  | Some rest => Some (RouteWellKnown (Some rest))
  | None => RoutePath <$> strip_prefix "/" path
  end.

Section router.
Context {W : Type} `{Backend W} `{EventBus W}.
Context `{IriSyntax} `{HeaderSyntax} `{HeaderText} `{BlankSyntax} `{Hashing} `{ObjectPath} `{Display}
  `{TermDisplay} `{RdfLib} `{ShaclEngine} `{N3Lib} `{Axum}.
Context `{UrlLib} `{Encodings} `{Jose} `{!JwkLib} `{!DpopLib W}.
Context `{!JwksResolver W} `{!WebIdIssuerVerifier W} `{!JtiReplayStore W}.
Context (sp : StorageSpace) (config : AuthConfig) (op_keys : option KeySet) (max_body_bytes : Z).

Definition json_response (v : Value) : Response := mkResponse OK [("content-type", "application/json")] (json_text v).

(** ** [handle_well_known] *)
Definition handle_well_known {E} (name : option string) : outcome E Response :=
  if bool_decide (name = Some "health")
  then Ok (mkResponse OK [("content-type", "application/health+json")]
             ("{" +:+ quoted "status" +:+ ":" +:+ quoted "pass" +:+ "}"))
  else
    match op_keys with
    | None => Ok (status_only NOT_FOUND)
    | Some keys =>
        if bool_decide (name = Some "openid-configuration") then
          match document sp keys with Some d => Ok (json_response d) | None => Panicked end
        else if bool_decide (name = Some "jwks.json") then
          let? d := public_jwks keys in
          Ok (mkResponse OK [("content-type", "application/jwk-set+json")] (json_text d))
        else Ok (status_only NOT_FOUND)
    end.

(** What a request draws: the blank nodes of a write, the names of a [POST]. *)
Record Draws : Type := mkDraws { dr_uuid : nat → string; dr_name : string; dr_retry : string }.

Section serve.
Context {E : Type} (draws : Draws) (rq : HttpRequest).

(** [Bytes], under the limit. *)
Definition with_body (k : string → M W E Response) : M W E Response :=
  match over_limit max_body_bytes (hr_body rq) with
  | Some res => ret res
  | None => k (hr_body rq)
  end.

(** The method router of [/]. *)
Definition root_method (agent : Agent) : option (M W E Response) :=
  let headers := hr_headers rq in
  let is_method m := bool_decide (hr_method rq = m) in
  if is_method "GET" then Some (handle_get_root sp agent (hr_query rq) headers) else
  if is_method "HEAD" then
    Some (let! res := handle_get_root sp agent (hr_query rq) headers in ret (without_body res)) else
  if is_method "PUT" then Some (with_body (handle_put_root sp (dr_uuid draws) agent headers)) else
  if is_method "POST" then
    Some (with_body (λ body, handle_post_root sp (dr_uuid draws) agent headers body (dr_name draws) (dr_retry draws))) else
  if is_method "PATCH" then Some (with_body (handle_patch_root sp (dr_uuid draws) agent headers)) else
  if is_method "DELETE" then Some (handle_delete_root sp agent) else
  if is_method "OPTIONS" then Some (handle_options_root sp headers) else
  None.

(** The method router of [/{*path}]. *)
Definition storage_method (agent : Agent) : option (string → M W E Response) :=
  let headers := hr_headers rq in
  let is_method m := bool_decide (hr_method rq = m) in
  if is_method "GET" then Some (λ path, handle_get sp agent path (hr_query rq) headers) else
  if is_method "HEAD" then
    Some (λ path, let! res := handle_get sp agent path (hr_query rq) headers in ret (without_body res)) else
  if is_method "PUT" then Some (λ path, with_body (handle_put sp (dr_uuid draws) agent path headers)) else
  if is_method "POST" then
    Some (λ path, with_body (λ body, handle_post sp (dr_uuid draws) agent path headers body (dr_name draws) (dr_retry draws))) else
  if is_method "PATCH" then Some (λ path, with_body (handle_patch sp (dr_uuid draws) agent path headers)) else
  if is_method "DELETE" then Some (λ path, handle_delete sp agent path) else
  if is_method "OPTIONS" then Some (λ path, handle_options sp path headers) else
  None.

Definition dispatch (agent : Agent) : M W E Response :=
  match route_of (hr_path rq) with
  | None => ret no_route
  | Some (RouteWellKnown rest) =>
      if bool_decide (hr_method rq = "GET") || bool_decide (hr_method rq = "HEAD") then
        match (match rest with None => inl None | Some raw => (sum_map Some id (path_param raw)) end) with
        | inr refusal => ret refusal
        | inl name =>
            let! res := lift (handle_well_known name) in
            ret (if bool_decide (hr_method rq = "HEAD") then without_body res else res)
        end
      else ret no_method
  | Some RouteRoot =>
      match root_method agent with Some k => k | None => ret no_method end
  | Some (RoutePath raw) =>
      match storage_method agent with
      | None => ret no_method
      | Some k => match path_param raw with inl path => k path | inr refusal => ret refusal end
      end
  end.

(** [router]: CORS around the authentication around the routes. *)
Definition respond (now_unix : Z) : M W E Response :=
  let! res := auth_layer sp config (mkRequest (hr_method rq) (hr_path rq) (hr_headers rq)) now_unix dispatch in
  ret (cors_layer (hr_headers rq) res).

(** The root is the storage route at the empty path. *)
Lemma root_method_storage agent : root_method agent = (λ k, k "") <$> storage_method agent.
Proof. unfold root_method, storage_method. cbv zeta. by repeat case_bool_decide. Qed.
End serve.
End router.

(** * Properties *)

(** The path the storage handlers are given, and the mode a method changes
    things with. *)
Definition asked_path `{Axum} (rq : HttpRequest) : option string :=
  match route_of (hr_path rq) with
  | Some RouteRoot => Some ""
  | Some (RoutePath raw) => match path_param raw with inl path => Some path | inr _ => None end
  | _ => None
  end.

Definition write_mode (method : string) : option Mode :=
  if bool_decide (method ∈ ["PUT"; "DELETE"]) then Some Write
  else if bool_decide (method ∈ ["POST"; "PATCH"]) then Some Append
  else None.

Section properties.
Context {W : Type} `{BackendLaws W} `{EventBus W} `{!BusLaws W}.
Context `{IriSyntax} `{HeaderSyntax} `{HeaderText} `{BlankSyntax} `{Hashing} `{ObjectPath} `{Display}
  `{TermDisplay} `{RdfLib} `{ShaclEngine} `{N3Lib} `{Axum}.
Context `{UrlLib} `{Encodings} `{Jose} `{!JwkLib} `{!DpopLib W}.
Context `{!JwksResolver W} `{!WebIdIssuerVerifier W} `{!JtiReplayStore W}.
Context (sp : StorageSpace) (Hsp : space_wf sp) (config : AuthConfig) (op_keys : option KeySet) (max_body_bytes : Z).

Lemma untouched_trans (w w1 w2 : W) : untouched w w1 → untouched w1 w2 → untouched w w2.
Proof. intros [Hs1 Hb1] [Hs2 Hb2]. split; [by eapply same_trans|congruence]. Qed.

(** ** The routes *)
Section routes.
Context {E : Type} (draws : Draws) (rq : HttpRequest).
Notation serve_as := (dispatch (E:=E) sp op_keys max_body_bytes draws rq).

(** What a request may have been allowed to do. *)
Definition allowed_by (w : W) (agent : Agent) (m : Mode) : Prop :=
  ∃ path target, asked_path rq = Some path ∧ classify sp ("/" +:+ path) = Ok target ∧ may (graphs w) agent target m.

Lemma classified_or (path : string) (h : Target → M W E Response) agent m w :
  asked_path rq = Some path →
  (∀ target, url_in sp (subject_of target) → wp (h target) (refused_or_may (E:=E) agent target m w) w) →
  wp (classified sp path h) (λ _ w', untouched w w' ∨ allowed_by w agent m) w.
Proof.
  intros Hp Hh. unfold classified. destruct (classify sp _) as [target|n|] eqn:Ec;
    [|left; apply untouched_refl..].
  assert (url_in sp (subject_of target)) as Hin by (destruct (classify_valid sp Hsp _ _ Ec) as [[Hin _] _]; exact Hin).
  eapply wp_wand; [by apply Hh|]. intros o w' [[Hu _]|Hm]; [by left|]. right. by exists path, target.
Qed.

(** A storage handler, on the path it is asked for. *)
Lemma storage_asked agent k path w :
  storage_method sp max_body_bytes draws rq agent = Some k → asked_path rq = Some path →
  wp (k path : M W E Response) (λ _ w', untouched w w' ∨
    ∃ m, write_mode (hr_method rq) = Some m ∧ allowed_by w agent m) w.
Proof.
  intros Hk Hp. unfold storage_method in Hk. cbv zeta in Hk.
  assert (∀ (h : string → M W E Response) m, write_mode (hr_method rq) = Some m →
    (∀ body, wp (h body) (λ _ w', untouched w w' ∨ allowed_by w agent m) w) →
    wp (with_body max_body_bytes rq h) (λ _ w', untouched w w' ∨
      ∃ m, write_mode (hr_method rq) = Some m ∧ allowed_by w agent m) w) as Hbody.
  { intros h m Hm Hh. unfold with_body. destruct (over_limit _ _); [left; apply untouched_refl|].
    eapply wp_wand; [apply Hh|]. intros o w' [Hu|Ha]; [by left|]. right. by exists m. }
  pose proof (kept_handle_get sp (untouched w) (E:=E) agent path (hr_query rq) (hr_headers rq) w (untouched_refl w)) as [Hget _].
  repeat (case_bool_decide as Hm; [injection Hk as <-|clear Hm]); try discriminate Hk.
  - by left.
  - apply wp_bind. unfold wp. destruct (handle_get _ _ _ _ _ w) as [[r|e|] w']; by left.
  - apply (Hbody _ Write); [by rewrite Hm|]. intros body. apply classified_or; [done|]. intros t Ht. by apply asked_put.
  - apply (Hbody _ Append); [by rewrite Hm|]. intros body. apply classified_or; [done|]. intros t Ht. by apply asked_post.
  - apply (Hbody _ Append); [by rewrite Hm|]. intros body. apply classified_or; [done|]. intros t Ht. by apply asked_patch.
  - eapply wp_wand; [apply classified_or; [exact Hp|intros t Ht; by apply (asked_delete sp agent t w Ht)]|].
    intros o w' [Hu|Ha]; [by left|]. right. exists Write. by rewrite Hm.
  - unfold handle_options. destruct (classify sp _); left; apply untouched_refl.
Qed.

Lemma dispatch_asked agent w :
  wp (serve_as agent) (λ _ w', untouched w w' ∨ ∃ m, write_mode (hr_method rq) = Some m ∧ allowed_by w agent m) w.
Proof.
  unfold dispatch. rewrite root_method_storage. destruct (route_of (hr_path rq)) as [[|rest|raw]|] eqn:Er; [| | |left; apply untouched_refl].
  - destruct (storage_method _ _ _ _ _) as [k|] eqn:Ek; [|left; apply untouched_refl].
    apply (storage_asked agent k "" w Ek). unfold asked_path. by rewrite Er.
  - destruct (_ || _); [|left; apply untouched_refl].
    destruct (match rest with None => _ | Some raw => _ end) as [name|res]; [|left; apply untouched_refl].
    apply wp_bind, wp_lift. destruct (handle_well_known sp op_keys name); left; apply untouched_refl.
  - destruct (storage_method _ _ _ _ _) as [k|] eqn:Ek; [|left; apply untouched_refl].
    destruct (path_param raw) as [path|res] eqn:Epath; [|left; apply untouched_refl].
    apply (storage_asked agent k path w Ek). unfold asked_path. by rewrite Er, Epath.
Qed.

(** An answer that shows nothing of what is stored: the framework's, the
    reserved space's, a refusal. *)
Definition closed_answer (agent : Agent) (res : Response) : Prop :=
  res = no_route ∨ res = no_method ∨ (∃ raw, path_param raw = inr res) ∨
  (∃ name, handle_well_known (E:=E) sp op_keys name = Ok res) ∨
  (∃ path, asked_path rq = Some path ∧ ∃ n, classify sp ("/" +:+ path) = Err n ∧ res = status_only n) ∨
  (∃ path target, asked_path rq = Some path ∧ classify sp ("/" +:+ path) = Ok target ∧ res ∈ refusals agent target).

Lemma handle_get_asked agent path w : asked_path rq = Some path →
  wp (handle_get sp agent path (hr_query rq) (hr_headers rq) : M W E Response) (λ o w', untouched w w' ∧
    ∀ res, o = Ok res → allowed_by w agent Read ∨ closed_answer agent res) w.
Proof.
  intros Hp. pose proof (kept_handle_get sp (untouched w) (E:=E) agent path (hr_query rq) (hr_headers rq) w (untouched_refl w))
    as [Hu _]. split; [exact Hu|]. clear Hu. intros res. unfold handle_get.
  destruct (classify sp _) as [target|n|] eqn:Ec; [| |done].
  - assert (url_in sp (subject_of target)) as Hin by (destruct (classify_valid sp Hsp _ _ Ec) as [[Hin _] _]; exact Hin).
    destruct (asked_get (E:=E) sp agent target (hr_headers rq) w Hin (hr_query rq)) as [(_ & r & -> & Hr)|Hm].
    + intros [= <-]. right. do 5 right. by exists path, target.
    + intros _. left. by exists path, target.
  - intros [= <-]. right. do 4 right. left. exists path. split; [done|]. by exists n.
Qed.

Lemma dispatch_get agent w : hr_method rq = "GET" →
  wp (serve_as agent) (λ o w', untouched w w' ∧
    ∀ res, o = Ok res → allowed_by w agent Read ∨ closed_answer agent res) w.
Proof.
  intros Hm. assert (∀ res, closed_answer agent res → wp (ret res : M W E Response) (λ o w', untouched w w' ∧
    ∀ r, o = Ok r → allowed_by w agent Read ∨ closed_answer agent r) w) as Hret.
  { intros res Hres. split; [apply untouched_refl|]. intros r [= <-]. by right. }
  assert (storage_method (E:=E) sp max_body_bytes draws rq agent =
    Some (λ path, handle_get sp agent path (hr_query rq) (hr_headers rq))) as Hk by (unfold storage_method; by rewrite Hm).
  unfold dispatch. rewrite root_method_storage, Hm, Hk.
  destruct (route_of (hr_path rq)) as [[|rest|raw]|] eqn:Er; [| | |apply Hret; by left].
  - apply handle_get_asked. unfold asked_path. by rewrite Er.
  - cbn [bool_decide orb]. change (bool_decide ("GET" = "HEAD")) with false.
    change (bool_decide ("GET" = "GET" :> string)) with true. cbn [orb].
    destruct (match rest with None => _ | Some raw => _ end) as [name|res] eqn:En.
    + apply wp_bind, wp_lift. destruct (handle_well_known sp op_keys name) as [r|e|] eqn:Ew.
      * apply Hret. do 3 right. left. by exists name.
      * by split; [apply untouched_refl|].
      * by split; [apply untouched_refl|].
    + apply Hret. do 2 right. left. destruct rest as [raw|]; [|done]. exists raw. by destruct (path_param raw); simplify_eq/=.
  - destruct (path_param raw) as [path|res] eqn:Epath.
    + apply handle_get_asked. unfold asked_path. by rewrite Er, Epath.
    + apply Hret. do 2 right. left. by exists raw.
Qed.
End routes.

(** ** The service *)
Section service.
Context (keys_of : string → list Jwk → Prop) (vouches : string → string → Prop)
  (signed : string → string → string → VerifiedDpop → Prop) (J : W → Prop).
Context {E : Type} (draws : Draws) (rq : HttpRequest) (now_unix : Z) (w : W).

(** The collaborators of the authentication leave the stores and the bus. *)
Context (Hc : AuthContract (λ w', untouched w w' ∧ J w') keys_of vouches signed) (HJ : J w).

(** The agent a request is taken for, if any, and why. *)
Definition proven_agent (agent : Agent) : Prop :=
  ∃ htu, derive_htu sp (hr_path rq) = Some htu ∧
    proven (W:=W) config keys_of vouches signed (header_opt (hr_headers rq) "authorization")
      (header_opt (hr_headers rq) "dpop") (hr_method rq) htu now_unix agent.

(** What is true of every dispatch for a proven agent, from the stores as they
    are, and of a refusal without one. *)
Lemma wp_respond (Φ : outcome E Response → W → Prop) :
  (∀ o w', untouched w w' → (o = Ok (status_only UNAUTHORIZED) ∨ o = Panicked) → Φ o w') →
  (∀ agent w1, proven_agent agent → untouched w w1 →
     wp (dispatch sp op_keys max_body_bytes draws rq agent) Φ w1) →
  wp (auth_layer sp config (mkRequest (hr_method rq) (hr_path rq) (hr_headers rq)) now_unix
        (dispatch (E:=E) sp op_keys max_body_bytes draws rq)) Φ w.
Proof.
  intros Hrefused Hserved. unfold auth_layer. cbn [rq_raw_path rq_headers rq_method].
  destruct (derive_htu sp (hr_path rq)) as [htu|] eqn:Eh; [|apply Hrefused; [apply untouched_refl|by right]].
  apply wp_bind, wp_attempt. unfold wp at 1.
  destruct (keeps_authenticate config _ keys_of vouches signed Hc (header_opt (hr_headers rq) "authorization")
    (header_opt (hr_headers rq) "dpop") (hr_method rq) htu now_unix w (conj (untouched_refl w) HJ)) as [[Hu _] Hp].
  destruct (authenticate _ _ _ _ _ _ w) as [[agent|e|] w1]; cbn [fst snd] in *.
  - apply Hserved; [|done]. exists htu. split; [done|]. by apply Hp.
  - apply wp_ret, Hrefused; [done|by left].
  - apply Hrefused; [done|by right].
Qed.

(** C2: every change is by someone who may make it.  Whatever arrives, for any method,
    path, headers and body, and whatever the libraries, the network and the stores
    answer: either no graph, no object and no channel has changed, or the
    request writes a path whose nearest ACL permits the mode that the method needs to
    the agent, who is [Public] if there were no credentials, and otherwise a
    WebID that its token, its issuer and its proof of possession establish. *)
Theorem changes_are_authorized :
  wp (respond sp config op_keys max_body_bytes draws rq now_unix : M W E Response) (λ _ w',
    untouched w w' ∨
    ∃ agent m path target, write_mode (hr_method rq) = Some m ∧ asked_path rq = Some path ∧
      classify sp ("/" +:+ path) = Ok target ∧ may (graphs w) agent target m ∧ proven_agent agent) w.
Proof.
  unfold respond. apply wp_bind, wp_respond.
  - intros o w' Hu [-> | ->]; by left.
  - intros agent w1 Hp Hu. eapply wp_wand; [apply (dispatch_asked draws rq agent w1)|].
    assert (graphs w1 = graphs w) as Hg by (by destruct Hu as [[? _] _]).
    assert (∀ w', untouched w1 w' ∨ (∃ m, write_mode (hr_method rq) = Some m ∧ allowed_by rq w1 agent m) →
      untouched w w' ∨ ∃ agent m path target, write_mode (hr_method rq) = Some m ∧ asked_path rq = Some path ∧
        classify sp ("/" +:+ path) = Ok target ∧ may (graphs w) agent target m ∧ proven_agent agent) as Hcase.
    { intros w' [Hu'|(m & Hm & path & target & Ha & Ht & Hmay)]; [left; by eapply untouched_trans|].
      right. exists agent, m, path, target. by rewrite Hg in Hmay. }
    intros [res|e|] w' Hw; by apply Hcase.
Qed.

(** C5: every representation is shown to someone who may read it.  A [GET] changes
    nothing, and its answer, with the CORS fields, is one that shows nothing stored
    (a [401], the refusal that fits the agent, a malformed or reserved path, the
    reserved space's own documents, the framework's answers), unless the nearest ACL
    permits [Read] of the target ([Control] of the subject for an auxiliary) to
    the agent, who is proven. *)
Theorem reads_are_authorized (Hget : hr_method rq = "GET") :
  wp (respond sp config op_keys max_body_bytes draws rq now_unix : M W E Response) (λ o w', untouched w w' ∧
    ∀ res, o = Ok res →
      (∃ agent path target, asked_path rq = Some path ∧ classify sp ("/" +:+ path) = Ok target ∧
         may (graphs w) agent target Read ∧ proven_agent agent) ∨
      ∃ inner, res = cors_layer (hr_headers rq) inner ∧
        (inner = status_only UNAUTHORIZED ∨ ∃ agent, proven_agent agent ∧ closed_answer (E:=E) rq agent inner)) w.
Proof.
  unfold respond. apply wp_bind, wp_respond.
  - intros o w' Hu [-> | ->].
    + apply wp_ret. split; [done|]. intros res [= <-]. right. eexists. split; [done|]. by left.
    + by split.
  - intros agent w1 Hp Hu. eapply wp_wand; [by apply (dispatch_get draws rq agent w1)|].
    assert (graphs w1 = graphs w) as Hg by (by destruct Hu as [[? _] _]).
    intros o w' [Hu' Hres]. assert (untouched w w') as Hu'' by (by eapply untouched_trans).
    destruct o as [r|e|]; [|by split..]. apply wp_ret. split; [done|]. intros res [= <-].
    destruct (Hres r eq_refl) as [(path & target & Ha & Ht & Hm)|Hcl].
    + left. exists agent, path, target. by rewrite Hg in Hm.
    + right. exists r. split; [done|]. right. by exists agent.
Qed.
End service.
End properties.

(** ** Discovery *)
Section discovery.
Context {W : Type} `{Backend W} `{EventBus W}.
Context `{IriSyntax} `{HeaderSyntax} `{HeaderText} `{BlankSyntax} `{Hashing} `{ObjectPath} `{Display}
  `{TermDisplay} `{RdfLib} `{ShaclEngine} `{N3Lib} `{Axum}.
Context `{Encodings} `{Jose} `{!JwkLib} `{!JwkLaws}.
Context (sp : StorageSpace) (keys : KeySet) (max_body_bytes : Z).

(** What the pod answers at a URL below its origin, to anyone. *)
Definition pod_serves (origin url body : string) (content_type : option string) : Prop :=
  ∃ path res, url = origin +:+ path ∧
    (∀ draws (w : W), dispatch (E:=AuthError) sp (Some keys) max_body_bytes draws (mkHttpRequest "GET" path None [] "") Public w
       = (Ok res, w)) ∧
    res_status res = OK ∧ res_body res = body ∧ content_type = h_get (res_headers res) "content-type".

(** The pod is found where its tokens say.  At a base URI that is an origin, the
    discovery that the authentication runs for the pod's own issuer, on the
    documents that the router serves below that origin, ends at the public halves of the
    pod's keys. *)
Theorem pod_publishes_its_keys (r : ContainerUrl) (origin : string)
    (Hkeys : usable keys) (Hr : root sp = Some r) (Horigin : graph_iri r = origin +:+ "/")
    (Hparam : ∀ s, contains_char "%" s = false → path_param s = inl s) :
  published (pod_serves origin) (graph_iri r) (map public_half (ks_keys keys)).
Proof.
  assert (∀ name, name ≠ "" → contains_char "%" name = false → ∀ res, handle_well_known (E:=AuthError) sp (Some keys) (Some name) = Ok res →
    ∀ draws (w : W), dispatch (E:=AuthError) sp (Some keys) max_body_bytes draws
      (mkHttpRequest "GET" ("/.well-known/" +:+ name) None [] "") Public w = (Ok res, w)) as Hserve.
  { intros name Hne Hn res Hres draws w. unfold dispatch, route_of. cbn [hr_path hr_method].
    rewrite bool_decide_eq_false_2 by done. destruct (bool_decide_reflect ("/.well-known/" +:+ name ∈ ["/.well-known"; "/.well-known/"])) as [Hin|_].
    - apply elem_of_cons in Hin as [Hin|Hin%list_elem_of_singleton]; [done|].
      by destruct name.
    - rewrite strip_prefix_app. cbn [sum_map]. rewrite Hparam by done. cbn. by rewrite Hres. }
  pose proof (public_jwks_Ok (E:=AuthError) keys Hkeys) as Hpub.
  set (doc1 := VObject [("issuer", VString (graph_iri r)); ("jwks_uri", VString (graph_iri r +:+ ".well-known/jwks.json"));
                 ("scopes_supported", VArray [VString "openid"; VString "webid"]);
                 ("id_token_signing_alg_values_supported", VArray (map VString (signing_algs keys)))]).
  set (doc2 := VObject [("keys", VArray (map jwk_value (map public_half (ks_keys keys))))]) in Hpub.
  exists (json_text doc1), (Some "application/json"), doc1, (graph_iri r +:+ ".well-known/jwks.json"),
    (json_text doc2), (Some "application/jwk-set+json"), doc2, (VArray (map jwk_value (map public_half (ks_keys keys)))).
  split_and!; [|apply json_read_back|done| |apply json_read_back|done|apply jwks_read_back].
  - unfold discovery_url. rewrite Horigin. assert (ends_with "/" (origin +:+ "/") = true) as -> by (apply ends_with_true; by eexists).
    exists "/.well-known/openid-configuration", (json_response doc1). split; [by rewrite app_assoc_s|].
    split; [intros draws w; apply (Hserve "openid-configuration"); [done|done|]|by split_and!].
    unfold handle_well_known, document. by rewrite Hr.
  - exists "/.well-known/jwks.json", (mkResponse OK [("content-type", "application/jwk-set+json")] (json_text doc2)). split; [by rewrite Horigin, app_assoc_s|].
    split; [intros draws w; apply (Hserve "jwks.json"); [done|done|]|by split_and!].
    unfold handle_well_known. simpl. by rewrite Hpub.
Qed.
End discovery.

(** * Witnesses *)
Section witnesses.
#[local] Existing Instance toy_iri.
#[local] Existing Instance toy_header.
#[local] Existing Instance toy_text.
#[local] Existing Instance toy_blanks.
#[local] Existing Instance toy_hash.
#[local] Existing Instance toy_path.
#[local] Existing Instance toy_display.
#[local] Existing Instance toy_terms.
#[local] Existing Instance toy_rdf.
#[local] Existing Instance toy_shacl.
#[local] Existing Instance toy_n3.
#[local] Existing Instance toy_urls.
#[local] Existing Instance binary_encodings.
#[local] Existing Instance op_jose.
#[local] Existing Instance op_lib.
#[local] Existing Instance op_laws.

#[local] Instance toy_axum : Axum := {|
  path_param := inl;
  over_limit _ _ := None;
  no_route := status_only 404;
  no_method := status_only 405;
  without_body r := mkResponse (res_status r) (res_headers r) ""
|}.

(** A pod that knows no issuer. *)
#[local] Instance no_issuers : JwksResolver (Mem Bus) := static_resolve ∅.
#[local] Instance no_webids : WebIdIssuerVerifier (Mem Bus) := static_authorizes ∅.
#[local] Instance no_replays : JtiReplayStore (Mem Bus) := λ _ _, ret tt.
#[local] Instance no_proofs : DpopLib (Mem Bus) := {|
  normalize_method := inr; normalize_htu := inr; crate_verify _ _ _ _ _ _ := throw "no proof" |}.

Lemma no_issuers_contract I : AuthContract I (λ _ _, False) (λ _ _, False) (λ _ _ _ _, False).
Proof.
  split.
  - intros iss. apply keeps_lift. intros ks Hks%ok_or_Ok. by rewrite lookup_empty in Hks.
  - intros webid iss. apply keeps_ret. by rewrite lookup_empty.
  - intros. apply keeps_throw.
  - intros. by apply keeps_ret.
Qed.

Definition toy_request (method path : string) : HttpRequest := mkHttpRequest method path None turtle_headers "a box".
Definition toy_draws : Draws := mkDraws toy_uuid "name" "retry".
Definition toy_auth_config : AuthConfig := mkAuthConfig None None.
Definition toy_respond (method path : string) : outcome ResourceError Response * Mem Bus :=
  respond toy_space toy_auth_config None 1000 toy_draws (toy_request method path) 1000 toy_store.

(** Nobody but a stranger is there, and a stranger may not. *)
Lemma stranger_may_not m g e method path agent :
  (probe Public toy_target toy_store).1 = Ok g → authorize g m = Err e →
  proven_agent toy_space toy_auth_config (λ _ _, False) (λ _ _, False) (λ _ _ _ _, False) (toy_request method path) 1000 agent →
  may (graphs toy_store) agent toy_target m → False.
Proof.
  intros Hg He (htu & _ & Hp) Hm. destruct agent as [|id].
  - by apply (refused_may_not Public toy_target m toy_store g e toy_url_in Hg He).
  - destruct Hp as (scheme & token & proof & claims & v & Ha & _). simpl in Ha. discriminate Ha.
Qed.

Lemma changes_are_authorized_witness :
  untouched toy_store (toy_respond "PUT" "/box").2 ∧ ∃ res, (toy_respond "PUT" "/box").1 = Ok res ∧ res_status res = 401.
Proof.
  split; [|eexists; split; vm_compute; reflexivity].
  assert ((probe Public toy_target toy_store).1 = Ok public_guard) as Hg by (vm_compute; reflexivity).
  assert (authorize public_guard Write = Err Unauthenticated) as Hd by (vm_compute; reflexivity).
  destruct (changes_are_authorized toy_space toy_space_wf toy_auth_config None 1000 (λ _ _, False) (λ _ _, False) (λ _ _ _ _, False)
    (λ _, True) (E:=ResourceError) toy_draws (toy_request "PUT" "/box") 1000 toy_store (no_issuers_contract _) I)
    as [Hu|(agent & m & path & target & Hm & Hpath & Ht & Hmay & Hp)]; [exact Hu|exfalso].
  assert (path = "box") as -> by (vm_compute in Hpath; congruence).
  assert (m = Write) as -> by (vm_compute in Hm; congruence).
  assert (classify toy_space "/box" = Ok toy_target) as Hc by (vm_compute; reflexivity).
  assert (target = toy_target) as -> by (change ("/" +:+ "box") with "/box" in Ht; congruence).
  exact (stranger_may_not Write public_guard Unauthenticated "PUT" "/box" agent Hg Hd Hp Hmay).
Defined.

Lemma reads_are_authorized_witness :
  untouched toy_store (toy_respond "GET" "/box").2 ∧
  ∃ res inner, (toy_respond "GET" "/box").1 = Ok res ∧ res = cors_layer turtle_headers inner ∧
    (inner = status_only UNAUTHORIZED ∨ ∃ agent, closed_answer (E:=ResourceError) toy_space None (toy_request "GET" "/box") agent inner).
Proof.
  assert ((probe Public toy_target toy_store).1 = Ok public_guard) as Hg by (vm_compute; reflexivity).
  assert (authorize public_guard Read = Err Unauthenticated) as Hd by (vm_compute; reflexivity).
  destruct (reads_are_authorized toy_space toy_space_wf toy_auth_config None 1000 (λ _ _, False) (λ _ _, False) (λ _ _ _ _, False)
    (λ _, True) (E:=ResourceError) toy_draws (toy_request "GET" "/box") 1000 toy_store (no_issuers_contract _) I eq_refl)
    as [Hu Hres].
  split; [exact Hu|]. assert (∃ res, (toy_respond "GET" "/box").1 = Ok res) as [res Hr] by (eexists; vm_compute; reflexivity).
  destruct (Hres res Hr) as [(agent & path & target & Hpath & Ht & Hmay & Hp)|(inner & Hi & Hcl)].
  - exfalso. assert (path = "box") as -> by (vm_compute in Hpath; congruence).
    assert (classify toy_space "/box" = Ok toy_target) as Hc by (vm_compute; reflexivity).
    assert (target = toy_target) as -> by (change ("/" +:+ "box") with "/box" in Ht; congruence).
    exact (stranger_may_not Read public_guard Unauthenticated "GET" "/box" agent Hg Hd Hp Hmay).
  - exists res, inner. split; [exact Hr|]. split; [exact Hi|]. destruct Hcl as [Hcl|(agent & _ & Hcl)]; [by left|right; by exists agent].
Defined.

Lemma pod_publishes_its_keys_witness :
  published (pod_serves (W:=Mem Bus) toy_space toy_keys 1000 "https://pod.example") "https://pod.example/"
    (map public_half (ks_keys toy_keys)).
Proof.
  exact (pod_publishes_its_keys (W:=Mem Bus) toy_space toy_keys 1000 _ "https://pod.example" toy_keys_usable toy_pod_root eq_refl
    (λ _ _, eq_refl)).
Defined.
End witnesses.
