(* ===== verification/Service.v ===== *)
(** The service as a whole, one request after the other: each is answered.

    Whatever arrives, whatever the libraries say of it, however the calls to
    the stores and the network fail and whatever else is written meanwhile, the
    task of a request ends with a response, not with a panic. *)
From S2P Require Import Prelude Str Terms Space Rdf Dataset Patch Store Mem Resource Container Ground.
From S2P Require Import Auxiliary Pdp Guard Shapes Notify Http HttpWrite HttpRead Reads Toy Steps Answered.
From S2P Require Import Edge Ip Fetch Jose Cache Issuers Token Dpop Login Listed Op Router.
Open Scope list_scope.

(** No call of the authentication's collaborators panics. *)
Class CollaboratorsReturn (W : Type) `{UrlLib} `{Encodings} `{Jose} `{!DpopLib W} `{!JwksResolver W}
    `{!WebIdIssuerVerifier W} `{!JtiReplayStore W} : Prop := {
  co_jwks iss : steady (resolve_jwks iss : M W _ _);
  co_webid webid iss : steady (authorizes webid iss : M W _ _);
  co_crate a b f proof htu htm : steady (crate_verify a b f proof htu htm : M W _ _);
  co_replay jti now_unix : steady (record_or_reject jti now_unix : M W _ _)
}.
#[export] Hint Resolve co_jwks co_webid co_crate co_replay : steady.

(** Through a pure computation that only fails. *)
Ltac no_panic := repeat first [done | apply obind_no_panic; [|intros ?] | apply omap_err_no_panic | apply ok_or_no_panic | case_match].

Section authentication.
Context `{UrlLib} `{Encodings} `{Jose} {W : Type} `{!DpopLib W}.
Context `{!JwksResolver W} `{!WebIdIssuerVerifier W} `{!JtiReplayStore W} `{!CollaboratorsReturn W}.

Lemma decode_segment_no_panic s : decode_segment s ≠ Panicked.
Proof. unfold decode_segment. no_panic. Qed.

Lemma select_key_no_panic keys kid : select_key keys kid ≠ Panicked.
Proof. unfold select_key. no_panic. Qed.

Lemma verifier_for_no_panic jwk : verifier_for jwk ≠ Panicked.
Proof. unfold verifier_for. no_panic. Qed.

Lemma read_claims_no_panic p now_unix : read_claims p now_unix ≠ Panicked.
Proof. unfold read_claims. no_panic. Qed.

Lemma peek_no_panic token : peek_untrusted_issuer token ≠ Panicked.
Proof. unfold peek_untrusted_issuer. no_panic. Qed.

Lemma scheme_no_panic auth : parse_dpop_scheme auth ≠ Panicked.
Proof. unfold parse_dpop_scheme. no_panic. Qed.

Lemma screen_issuer_no_panic config token : screen_issuer config token ≠ Panicked.
Proof. unfold screen_issuer. repeat first [apply peek_no_panic | progress no_panic]. Qed.

Lemma check_audience_no_panic config claims : check_audience config claims ≠ Panicked.
Proof. unfold check_audience. no_panic. Qed.

Lemma decode_jws_no_panic s what : decode_jws_segment s what ≠ Panicked.
Proof. unfold decode_jws_segment. no_panic. Qed.

Lemma rs256_header_no_panic h : rs256_header h ≠ Panicked.
Proof. unfold rs256_header, invalid. no_panic. Qed.

Lemma verify_rs256_no_panic proof htu htm : verify_rs256_proof proof htu htm ≠ Panicked.
Proof.
  unfold verify_rs256_proof, normalized, invalid.
  repeat first [apply decode_jws_no_panic | apply rs256_header_no_panic | progress no_panic].
Qed.

Lemma check_verified_no_panic v proof htu jkt now_unix : check_verified v proof htu jkt now_unix ≠ Panicked.
Proof.
  unfold check_verified, verified_htu_claim, invalid. repeat first [apply decode_jws_no_panic | progress no_panic].
Qed.
#[local] Hint Resolve decode_segment_no_panic select_key_no_panic verifier_for_no_panic read_claims_no_panic
  scheme_no_panic screen_issuer_no_panic check_audience_no_panic verify_rs256_no_panic check_verified_no_panic : steady.

Lemma steady_verify_access_token token now_unix : steady (verify_access_token token now_unix : M W _ _).
Proof. unfold verify_access_token. steadily. Qed.

Lemma steady_verify_dpop proof htu htm jkt now_unix : steady (verify_dpop proof htu htm jkt now_unix : M W _ _).
Proof. unfold verify_dpop, verify_signed. steadily. Qed.
#[local] Hint Resolve steady_verify_access_token steady_verify_dpop : steady.

Lemma steady_authenticate config auth dpop htm htu now_unix :
  steady (authenticate config auth dpop htm htu now_unix : M W _ _).
Proof. unfold authenticate. steadily. Qed.
End authentication.

(** * The routes *)
Section service.
Context `{IriSyntax} `{HeaderSyntax} `{HeaderText} `{BlankSyntax} `{Hashing} `{ObjectPath} `{Display}
  `{TermDisplay} `{RdfLib} `{ShaclEngine} `{N3Lib} `{Axum}.
Context `{UrlLib} `{Encodings} `{Jose} `{!JwkLib} `{!JwkLaws}.
Context (sp : StorageSpace) (Hsp : space_wf sp).
Context {W : Type} `{SharedLaws W (pod_step sp)} `{!CallsReturn W}.
Context `{!DpopLib W} `{!JwksResolver W} `{!WebIdIssuerVerifier W} `{!JtiReplayStore W} `{!CollaboratorsReturn W}.
Context (config : AuthConfig) (op_keys : option KeySet) (max_body_bytes : Z).

(** What the key set was checked for when it was loaded; what the
    collaborators do to the stores, others may have done. *)
Context (Hkeys : ∀ ks, op_keys = Some ks → usable ks).
Context (Hco : AuthContract (reached (W:=W) sp) (λ _ _, True) (λ _ _, True) (λ _ _ _ _, True)).

Notation reached := (reached sp).
Notation serene m := (calm reached m (λ _, True)).

Section one.
Context {E : Type} (draws : Draws) (rq : HttpRequest).

Lemma handle_well_known_no_panic name : handle_well_known (E:=E) sp op_keys name ≠ Panicked.
Proof.
  unfold handle_well_known. case_bool_decide; [done|]. destruct op_keys as [ks|] eqn:Ek; [|done].
  case_bool_decide; [unfold document; by destruct (root_there sp Hsp) as [r ->]|].
  case_bool_decide; [|done]. by rewrite (public_jwks_Ok ks (Hkeys ks eq_refl)).
Qed.

Lemma calm_with_body (k : string → M W E Response) : (∀ body, serene (k body)) → serene (with_body max_body_bytes rq k).
Proof. intros Hk. unfold with_body. destruct (over_limit _ _); [by apply calm_ret|apply Hk]. Qed.

Lemma calm_storage agent k path : storage_method (W:=W) (E:=E) sp max_body_bytes draws rq agent = Some k → serene (k path).
Proof.
  unfold storage_method. cbv zeta. intros Hk.
  repeat (case_bool_decide as Hm; [injection Hk as <-|clear Hm]); try discriminate Hk.
  - by apply calm_handle_get.
  - eapply calm_bind; [by apply calm_handle_get|]. intros res _. by apply calm_ret.
  - apply calm_with_body. intros body. by apply calm_handle_put.
  - apply calm_with_body. intros body. by apply calm_handle_post.
  - apply calm_with_body. intros body. by apply calm_handle_patch.
  - by apply calm_handle_delete.
  - by apply calm_handle_options.
Qed.

Lemma calm_dispatch agent : serene (dispatch (W:=W) (E:=E) sp op_keys max_body_bytes draws rq agent).
Proof.
  unfold dispatch. rewrite root_method_storage. destruct (route_of (hr_path rq)) as [[|rest|raw]|]; [| | |by apply calm_ret].
  - destruct (storage_method _ _ _ _ _) as [k|] eqn:Ek; [by apply (calm_storage agent)|by apply calm_ret].
  - destruct (_ || _); [|by apply calm_ret]. destruct (match rest with None => _ | Some raw => _ end) as [name|res]; [|by apply calm_ret].
    eapply (calm_bind _ _ _ (λ _, True)); [by apply calm_lift; [apply handle_well_known_no_panic|]|]. intros. by apply calm_ret.
  - destruct (storage_method _ _ _ _ _) as [k|] eqn:Ek; [|by apply calm_ret].
    destruct (path_param raw) as [path|res]; [by apply (calm_storage agent)|by apply calm_ret].
Qed.

Lemma calm_respond now_unix : serene (respond (W:=W) (E:=E) sp config op_keys max_body_bytes draws rq now_unix).
Proof.
  unfold respond, auth_layer, derive_htu. cbn [rq_raw_path rq_headers rq_method].
  destruct (root_there sp Hsp) as [r ->]. cbn [mbind option_bind].
  eapply (calm_bind _ _ _ (λ _, True)); [|intros; by apply calm_ret].
  eapply (calm_bind _ _ _ (λ _, True)).
  - eapply calm_weaken; [|done]. apply calm_attempt, calm_steady; [apply steady_authenticate|].
    by apply (keeps_authenticate config _ _ _ _ Hco).
  - intros [e|agent] _; [by apply calm_ret|apply calm_dispatch].
Qed.
End one.

(** ** A run *)

(** What a request draws and the clock when it arrives go with it. *)
Definition Arrival : Type := Draws * Z * HttpRequest.

Fixpoint answer_all (l : list Arrival) (w : W) : list (outcome Empty_set Response) * W :=
  match l with
  | [] => ([], w)
  | (draws, now_unix, rq) :: l =>
      let (o, w) := respond sp config op_keys max_body_bytes draws rq now_unix w in
      let (os, w) := answer_all l w in (o :: os, w)
  end.

End service.

(** * Witness: a store that fails under the first request *)
Section witness.
#[local] Existing Instance toy_iri.
#[local] Existing Instance toy_header.
#[local] Existing Instance toy_text.
#[local] Existing Instance toy_blanks.
#[local] Existing Instance toy_hash.
#[local] Existing Instance toy_path.
#[local] Existing Instance toy_display.
#[local] Existing Instance toy_terms.
#[local] Existing Instance toy_rdf.
#[local] Existing Instance toy_shacl.
#[local] Existing Instance toy_n3.
#[local] Existing Instance toy_urls.
#[local] Existing Instance binary_encodings.
#[local] Existing Instance op_jose.
#[local] Existing Instance op_lib.
#[local] Existing Instance op_laws.
#[local] Existing Instance toy_axum.
#[local] Existing Instance no_issuers.
#[local] Existing Instance no_webids.
#[local] Existing Instance no_replays.
#[local] Existing Instance no_proofs.

#[local] Instance mem_beside : BesideStore (Mem Bus).
Proof. by intros b w. Qed.

#[local] Instance nobody_returns : CollaboratorsReturn (Mem Bus).
Proof.
  split.
  - intros iss w. unfold resolve_jwks, no_issuers, static_resolve. by rewrite lookup_empty.
  - done.
  - done.
  - done.
Qed.

Lemma nobody_interferes I : AuthContract (W:=Mem Bus) I (λ _ _, True) (λ _ _, True) (λ _ _ _ _, True).
Proof. split; intros; [by apply keeps_lift|by apply keeps_ret|apply keeps_throw|by apply keeps_ret]. Qed.

Definition failing_store : Mem Bus := mkMem (m_triples made_store) ∅ [None; Some FailBefore] ∅.

Definition toy_arrivals : list Arrival :=
  [(toy_draws, 1000%Z, toy_request "PUT" "/box"); (toy_draws, 1000%Z, toy_request "GET" "/box");
   (toy_draws, 1000%Z, toy_request "BREW" "/box")].

End witness.
